(* ===== verification/_CoqProject ===== *)
-Q . S2P
Prelude.v
Avl.v
AvlTree.v
AvlProofs.v
Hashtable.v
HashtableProofs.v
KeyedNodes.v
Heap.v
HeapProofs.v
DList.v
Common.v
Zset.v
Wire.v
Client.v
Numeric.v
Server.v
Spec.v
ZsetProofs.v
Owners.v
ServerProofs.v
Depth.v
Types.v
EventLoop.v
Calls.v
Process.v
Framing.v
EventLoopProofs.v
Service.v
ServiceProofs.v
Memory.v
Expiration.v
ProcessProofs.v
EndToEnd.v
Benchmark.v
StructureTheorems.v
WireTheorems.v
ServerTheorems.v
ProcessTheorems.v
TestAvl.v
TestOffset.v
TestHeap.v
TestTheorems.v
