(* ===== verification/Prelude.v ===== *)
(** * redis-lite (aphelo): a verification development of the key-value server

    The program is a single-threaded server of strings and sorted sets with
    expiring keys (server.cpp), the data structures it is made of, a
    command-line client (client.cpp) and a benchmark (benchmark.cpp).  The
    server polls its connections; a connection buffers bytes, cuts them into
    length-prefixed requests, runs each request on the database and frames the
    reply; timers close idle connections and delete expired keys.

    ** How the code is modelled

    A pointer is a positive number and [NULL] is [None]; the objects of each
    struct live in a finite map (a store) per group of fields, so that
    [container_of] is the identity.  Intrusive nodes and aliasing are thus in
    the model: a [ZNode] is at the same address in the store of the AVL tree, in
    that of the hash table and in that of its score and name.  The arrays of
    buckets of the hash tables are objects of a store too, allocated by [h_init]
    and freed by [hm_help_rehashing] and [hm_clear].  A function of the
    code is a function on the stores with an option result, [None] standing for
    undefined behaviour (a null or dangling pointer, an access out of an array,
    a failed [assert]).  Integers are in [Z] with the wrap-around of their width
    written out ([u32], [u64], [i32], [i64]); a [double] is its 64-bit pattern.
    The results of the system calls and the readings of the clock are arguments;
    the calls the server makes on descriptors, [accept], [read], [write] with the
    bytes it is given, and [close], are recorded in its state, in order;
    at the level of the processes they are the raw integers the calls return, with
    [errno], and [die] is an outcome of its own.

    ** Where each part is

    - Prelude: pointers, machine integers, bytes, arrays, stores, automation.
    - Avl: avl.h, avl.cpp.  AvlTree: the trees and contexts behind it.
      AvlProofs: the code refines them.
    - Hashtable: hashtable.h, hashtable.cpp, with progressive rehashing.
      HashtableProofs: the map is a set of nodes indexed by hash code.
      KeyedNodes: the interface its three clients (names of a set, keys of the
      database, addresses of timers) use it through, a class of laws on the hash
      codes and the callback.
    - Heap: heap.h, heap.cpp, and [heap_delete], [heap_upsert] of server.cpp.
      HeapProofs: order, back references.
    - DList: list.h, and the ring of nodes it maintains.
    - Common: common.h ([str_hash]), [memcmp] and the comparison of doubles.
    - Zset: zset.h, zset.cpp.  ZsetProofs: a sorted list of (score, name).
      Owners: every array of buckets belongs to one sorted set.
    - Wire: the buffers, [parse_req] and the [out_] functions of server.cpp.
    - Client: client.cpp, and [pack_command] of benchmark.cpp.
    - Numeric: [str2int] and [str2dbl] of server.cpp, over models of the C
      library's [strtoll] and [strtod]; [std::to_string].
    - Server: the entries, the ten commands, [do_request] and the expiration of
      keys in server.cpp.  Spec: the abstract database, a finite map from keys
      to values and times, and each command as a function on it.
      ServerProofs: the commands refine the abstract ones.  Depth: the trees of
      a database are shallow.
    - EventLoop: [Conn], [try_one_request], [handle_read], [handle_write],
      [handle_accept], [conn_destroy], [next_timer_ms], [process_timers] and the
      body of the loop of [main].  Calls: what the recorded calls mean, the
      bytes moved and the descriptors left open.  Framing: the byte stream as a
      sequence of requests.  EventLoopProofs: the invariant of the server,
      reachability.
    - Process: the two [main]s (server.cpp, client.cpp), [get_monotonic_msec],
      [fd_set_nb], [handle_accept] with its error branches, the [pollfd] array and
      the reading of [revents], as functions on the raw results of the system
      calls.  ProcessProofs: what the operating system promises for a run
      ([run_ok]), and what a run then is.
    - Service: the abstract service, a transition system of sessions and a
      database, and which of its steps are calls on descriptors.  ServiceProofs:
      the event loop refines it, call for call.
    - Types: the tag of an entry; a state represents one database.  Memory: the
      live objects are those that are needed.  Expiration: many iterations
      together.
    - EndToEnd: client and server together.  Benchmark: benchmark.cpp.
    - TestAvl, TestOffset, TestHeap: the three C++ test programs, with their
      reference containers.
    - StructureTheorems, WireTheorems, ServerTheorems, ProcessTheorems,
      TestTheorems: the main statements, each with an instance on a concrete
      state.

    ** What is shown

    - The data structures never go wrong on a well-formed state and implement
      their abstract values: balanced trees in order with exact counts
      ([avl_fix], [avl_del], [avl_offset]), sets of nodes in any stage of
      rehashing ([hm_lookup], [hm_insert], [hm_delete], [hm_foreach], with the
      bound on the work of one call), heaps with right back references, rings,
      sorted sets.
    - Every command, on any arguments, refines the abstract database and sends
      the encoding of the specified reply; expiration deletes expired keys only,
      with the bound of the code on the work of one call.
    - Any byte sequence is served without undefined behaviour; the complete
      requests are answered in order, and how the bytes are cut into reads does
      not matter.  Encoders and decoders are inverse to each other, between
      client and server in both directions.
    - Every iteration of the event loop, whatever the clients send and the
      system calls return, keeps the invariant of the server, so every reachable
      state satisfies it; on the abstract database it is a sequence of turns of
      the connections, then an expiration of keys.  In a turn the bytes that
      [write] took, and no others, leave the pending replies.  Timeouts: which
      connections are closed, and how long [poll] waits.
    - A whole run of the server, from [main]: it is never undefined, and [die]s
      only with the message of a call that failed; it is a run of the abstract
      service, which executes the requests of all sessions one at a time on one
      database and answers each session in order, and whose visible steps are the
      calls the server makes: each byte of a reply is sent once, in order; it owns
      exactly the objects, arrays and descriptors it needs; types of keys never
      change; expired keys are all forgotten in the end; a search in a sorted set
      of [n] members visits at most [2 log2 (n + 1)] nodes.
    - The client prints the specified reply to its request (the texts cut at a
      NUL, where [printf] stops), or refuses it by its length; the benchmark waits
      for the number of bytes the server sends.
    - The test programs never fail, whatever [rand] returns, and free all they
      allocate.

    ** Bounds

    Loops take fuel where the recursion is not structural.  The fuel is given by
    the definitions: the size of the store for walks in a tree or a chain, the
    length of the buffer for requests, the number of connections or timers for
    the timers.  The refinement and safety theorems state that the functions
    return a result, so the fuel is enough.  Sizes are assumed to be below what
    memory can hold: less than [2^32 - 1] nodes in a tree, whose count is 32
    bits wide, and less than [2^60] keys ([db_room], [room_for]).  The clock is
    assumed to be monotonic and below 2^53 seconds, [accept] to return a
    descriptor that is not in use, [poll] to report what was asked, and [read] and
    [write] to transfer at most what they are given ([iteration_ok],
    [os_event_ok], [polled_ok]).

    ** Not modelled

    - What the server and the benchmark print ([msg], [msg_errno], the rates) and
      the options and addresses of the sockets; signals, SIGPIPE included; a call
      that blocks.  A failed [accept] is not recorded among the calls.
    - The allocator always returns a fresh address.
    - What the client prints is a list of events, the arguments of [printf] and
      [msg]; [nan] payloads and locales of [strtod] are not distinguished.
    - aphelo.py, the Python tests and the build files. *)

From stdpp Require Export base option list gmap fin_maps sets.
From Stdlib Require Export ZArith Lia.
From Stdlib Require Import Strings.Byte.
From Stdlib Require Export Sorting.Sorted.

(** ** Pointers

    A pointer to a heap object is a positive number; [NULL] is [None].  The
    store of the program is split by the field group it holds (one finite map
    per struct type), so [container_of] is the identity on pointers. *)

Notation ptr := positive.
Notation NULL := (@None positive).

#[export] Set Warnings "-notation-incompatible-prefix".

(** ** Machine integers: values in [Z], the wrap-around written out *)

Definition u32 (z : Z) : Z := (z mod 2 ^ 32)%Z.
Definition u64 (z : Z) : Z := (z mod 2 ^ 64)%Z.

(** [(int64_t)z]: two's complement reading of the low 64 bits. *)
Definition i64 (z : Z) : Z := ((z + 2 ^ 63) mod 2 ^ 64 - 2 ^ 63)%Z.

(** [(int32_t)z]. *)
Definition i32 (z : Z) : Z := ((z + 2 ^ 31) mod 2 ^ 32 - 2 ^ 31)%Z.

(** [(size_t)-1], the "not in the heap" value of [Entry::heap_idx]. *)
Definition size_max : Z := (2 ^ 64 - 1)%Z.

Section machine_integers.
Local Open Scope Z_scope.

Lemma u32_small z : 0 <= z < 2 ^ 32 -> u32 z = z.
Proof. intros. unfold u32. now apply Z.mod_small. Qed.

Lemma u64_small z : 0 <= z < 2 ^ 64 -> u64 z = z.
Proof. intros. unfold u64. now apply Z.mod_small. Qed.

Lemma u32_range z : 0 <= u32 z < 2 ^ 32.
Proof. apply Z.mod_pos_bound. lia. Qed.

Lemma u64_range z : 0 <= u64 z < 2 ^ 64.
Proof. apply Z.mod_pos_bound. lia. Qed.

Lemma i64_small z : - 2 ^ 63 <= z < 2 ^ 63 -> i64 z = z.
Proof. intros. unfold i64. rewrite Z.mod_small; lia. Qed.

Lemma i64_range z : - 2 ^ 63 <= i64 z < 2 ^ 63.
Proof. unfold i64. pose proof (Z.mod_pos_bound (z + 2 ^ 63) (2 ^ 64)). lia. Qed.

Lemma i32_small z : - 2 ^ 31 <= z < 2 ^ 31 -> i32 z = z.
Proof. intros. unfold i32. rewrite Z.mod_small; lia. Qed.

End machine_integers.

(** ** Bytes *)

Notation byte := Init.Byte.byte.

#[export] Instance byte_eq_decision : EqDecision byte := Byte.byte_eq_dec.

(** The unsigned value of a byte, and the byte of a value modulo 256. *)
Definition bz (b : byte) : Z := Z.of_N (Byte.to_N b).
Definition zb (z : Z) : byte :=
  default Byte.x00 (Byte.of_N (Z.to_N (z mod 256)%Z)).

Lemma bz_range b : (0 <= bz b < 256)%Z.
Proof. unfold bz. pose proof (Byte.to_N_bounded b). lia. Qed.

Lemma zb_bz b : zb (bz b) = b.
Proof.
  unfold zb. rewrite Z.mod_small by apply bz_range. unfold bz.
  rewrite N2Z.id, Byte.of_to_N. done.
Qed.

Lemma bz_zb z : bz (zb z) = (z mod 256)%Z.
Proof.
  unfold zb, bz. pose proof (Z.mod_pos_bound z 256 ltac:(lia)).
  destruct (Byte.of_N (Z.to_N (z mod 256))) as [b|] eqn:E; simpl.
  - apply Byte.to_of_N in E. rewrite E. lia.
  - apply Byte.of_N_None_iff in E. lia.
Qed.

#[export] Instance bz_inj : Inj (=) (=) bz.
Proof. intros x y H. rewrite <- (zb_bz x), <- (zb_bz y). congruence. Qed.

#[export] Program Instance byte_countable : Countable byte :=
  inj_countable Byte.to_N Byte.of_N _.
Next Obligation. intros b. apply Byte.of_to_N. Qed.

(** ** Arrays: access with a [size_t] index, undefined out of range *)

Definition arr_get {A} (l : list A) (i : Z) : option A :=
  if decide (0 <= i < Z.of_nat (length l))%Z then l !! Z.to_nat i else None.

Definition arr_set {A} (l : list A) (i : Z) (x : A) : option (list A) :=
  if decide (0 <= i < Z.of_nat (length l))%Z then Some (<[Z.to_nat i := x]> l)
  else None.

(** The length of a list as an integer. *)
Definition zlen {A} (l : list A) : Z := Z.of_nat (length l).

Lemma zlen_app {A} (l k : list A) : zlen (l ++ k) = (zlen l + zlen k)%Z.
Proof. unfold zlen. rewrite length_app. lia. Qed.

Lemma zlen_cons {A} (x : A) l : zlen (x :: l) = (zlen l + 1)%Z.
Proof. unfold zlen. simpl. lia. Qed.

Lemma zlen_nonneg {A} (l : list A) : (0 <= zlen l)%Z.
Proof. unfold zlen. lia. Qed.

Lemma zlen_insert {A} (l : list A) i x : zlen (<[i := x]> l) = zlen l.
Proof. unfold zlen. by rewrite length_insert. Qed.

(** [zlen] computes the length of a list built from others. *)
Create HintDb zlen.
#[export] Hint Rewrite @zlen_app @zlen_cons @zlen_insert : zlen.

Lemma arr_get_nat {A} (l : list A) (i : nat) : arr_get l (Z.of_nat i) = l !! i.
Proof.
  unfold arr_get. case_decide; rewrite ?Nat2Z.id; [done|].
  symmetry. apply lookup_ge_None. lia.
Qed.

Lemma arr_get_Z {A} (l : list A) (i : Z) : (0 <= i)%Z -> arr_get l i = l !! Z.to_nat i.
Proof. intros. by rewrite <- arr_get_nat, Z2Nat.id. Qed.

Lemma arr_set_nat {A} (l : list A) (i : nat) x :
  i < length l -> arr_set l (Z.of_nat i) x = Some (<[i := x]> l).
Proof. intros. unfold arr_set. rewrite decide_True by lia. by rewrite Nat2Z.id. Qed.

(** ** Stores: update of an allocated object only *)

Definition store_upd {A} (m : gmap ptr A) (p : ptr) (f : A -> A) :
    option (gmap ptr A) :=
  x ← m !! p; Some (<[p := f x]> m).

Lemma store_upd_Some {A} (m : gmap ptr A) p f x :
  m !! p = Some x -> store_upd m p f = Some (<[p := f x]> m).
Proof. intros H. unfold store_upd. by rewrite H. Qed.

Lemma store_upd_dom {A} (m m' : gmap ptr A) p f :
  store_upd m p f = Some m' -> dom m' = dom m.
Proof.
  unfold store_upd. intros (x & Hx & [= <-])%bind_Some.
  rewrite dom_insert_L. apply elem_of_dom_2 in Hx. set_solver.
Qed.

(** Distinct allocated objects are at most as many as the store holds. *)
Lemma nodes_length_le {A} (m : gmap ptr A) (l : list ptr) :
  NoDup l -> (forall i, i ∈ l -> is_Some (m !! i)) -> (length l <= size m)%nat.
Proof.
  intros Hnd Hl. rewrite <- (size_list_to_set (C := gset ptr) l Hnd), <- size_dom.
  apply subseteq_size. intros i. rewrite elem_of_list_to_set, elem_of_dom. apply Hl.
Qed.


(** [same_off X m m']: the stores agree on every object outside [X]. *)
Definition same_off {A} (X : gset ptr) (m m' : gmap ptr A) : Prop :=
  forall p, p ∉ X -> m' !! p = m !! p.

Section same_off.
Context {A : Type}.
Implicit Types (m : gmap ptr A) (X Y : gset ptr).

Lemma same_off_lookup X m m' p : same_off X m m' -> p ∉ X -> m' !! p = m !! p.
Proof. intros H. apply H. Qed.

Lemma same_off_refl X m : same_off X m m.
Proof. done. Qed.

Lemma same_off_trans X m1 m2 m3 :
  same_off X m1 m2 -> same_off X m2 m3 -> same_off X m1 m3.
Proof. intros H1 H2 p Hp. rewrite H2, H1; done. Qed.

Lemma same_off_weaken X Y m m' : X ⊆ Y -> same_off X m m' -> same_off Y m m'.
Proof. intros HXY H p Hp. apply H. set_solver. Qed.

Lemma same_off_insert X m p x : p ∈ X -> same_off X m (<[p := x]> m).
Proof. intros Hp q Hq. rewrite lookup_insert_ne; [done|]. set_solver. Qed.

End same_off.

#[export] Instance same_off_preorder {A} X : PreOrder (@same_off A X).
Proof. split; [intros m; apply same_off_refl | intros m1 m2 m3; apply same_off_trans]. Qed.

(** [redis] proves that an update stays inside a set of objects. *)
Create HintDb redis.
#[export] Hint Resolve same_off_refl same_off_insert : redis.
#[export] Hint Extern 4 (_ ∈ _) => set_solver : redis.

(** ** Disjointness of lists without duplicates

    The facts a [NoDup] hypothesis about a concatenation gives, in clausal form:
    every clause concludes [False], so [eauto] closes the leaves at once. *)

Section no_duplicates.
Context {A : Type}.
Implicit Types (l k : list A) (x y : A).

Lemma nodup_cons_clauses x l : NoDup (x :: l) -> (x ∈ l -> False) /\ NoDup l.
Proof. apply NoDup_cons. Qed.

Lemma nodup_app_clauses l k :
  NoDup (l ++ k) -> NoDup l /\ NoDup k /\ (forall x, x ∈ l -> x ∈ k -> False).
Proof. intros (? & ? & ?)%NoDup_app. eauto. Qed.

Lemma notin_app_clauses x l k :
  (x ∈ l ++ k -> False) -> (x ∈ l -> False) /\ (x ∈ k -> False).
Proof. rewrite elem_of_app. tauto. Qed.

Lemma notin_cons_clauses x y k :
  (x ∈ y :: k -> False) -> (x = y -> False) /\ (x ∈ k -> False).
Proof. rewrite elem_of_cons. tauto. Qed.

Lemma disj_app_l_clauses l1 l2 k :
  (forall x, x ∈ l1 ++ l2 -> x ∈ k -> False) ->
  (forall x, x ∈ l1 -> x ∈ k -> False) /\ (forall x, x ∈ l2 -> x ∈ k -> False).
Proof. intros H. split; intros x ??; apply (H x); rewrite ?elem_of_app; tauto. Qed.

Lemma disj_app_r_clauses l k1 k2 :
  (forall x, x ∈ l -> x ∈ k1 ++ k2 -> False) ->
  (forall x, x ∈ l -> x ∈ k1 -> False) /\ (forall x, x ∈ l -> x ∈ k2 -> False).
Proof. intros H. split; intros x ??; apply (H x); rewrite ?elem_of_app; tauto. Qed.

Lemma disj_cons_l_clauses y l k :
  (forall x, x ∈ y :: l -> x ∈ k -> False) ->
  (y ∈ k -> False) /\ (forall x, x ∈ l -> x ∈ k -> False).
Proof.
  intros H. split; [intros ?; apply (H y)|intros x ??; apply (H x)];
    rewrite ?elem_of_cons; tauto.
Qed.

Lemma disj_cons_r_clauses y l k :
  (forall x, x ∈ l -> x ∈ y :: k -> False) ->
  (y ∈ l -> False) /\ (forall x, x ∈ l -> x ∈ k -> False).
Proof.
  intros H. split; [intros ?; apply (H y)|intros x ??; apply (H x)];
    rewrite ?elem_of_cons; tauto.
Qed.

End no_duplicates.

Ltac nodup_split :=
  repeat match goal with
  | H : NoDup (_ ++ _) |- _ => apply nodup_app_clauses in H as (? & ? & ?)
  | H : NoDup (_ :: _) |- _ => apply nodup_cons_clauses in H as (? & ?)
  | H : NoDup [] |- _ => clear H
  | H : _ ∈ [] -> False |- _ => clear H
  | H : forall x, x ∈ _ -> x ∈ [] -> False |- _ => clear H
  | H : forall x, x ∈ [] -> x ∈ _ -> False |- _ => clear H
  | H : _ ∈ _ ++ _ -> False |- _ => apply notin_app_clauses in H as (? & ?)
  | H : _ ∈ _ :: _ -> False |- _ => apply notin_cons_clauses in H as (? & ?)
  | H : forall x, x ∈ _ ++ _ -> x ∈ _ -> False |- _ => apply disj_app_l_clauses in H as (? & ?)
  | H : forall x, x ∈ _ :: _ -> x ∈ _ -> False |- _ => apply disj_cons_l_clauses in H as (? & ?)
  | H : forall x, x ∈ _ -> x ∈ _ ++ _ -> False |- _ => apply disj_app_r_clauses in H as (? & ?)
  | H : forall x, x ∈ _ -> x ∈ _ :: _ -> False |- _ => apply disj_cons_r_clauses in H as (? & ?)
  end.

(** Case analysis on the membership hypotheses. *)
Ltac mem_cases :=
  repeat match goal with
  | H : _ ∈ _ ++ _ |- _ => apply elem_of_app in H as [H|H]
  | H : _ ∈ _ :: _ |- _ => apply elem_of_cons in H as [H|H]
  | H : _ ∈ [] |- _ => by apply elem_of_nil in H
  | H : _ ∉ _ |- _ => unfold not in H
  end; nodup_split.

(** Closes [x ∉ l], [x <> y] and [False] from the clauses in the context. *)
Ltac mem_absurd :=
  intros; exfalso; mem_cases; subst; eauto 3.

(** ** Sorted lists *)

Lemma sorted_app {A} (R : A -> A -> Prop) (l k : list A) :
  StronglySorted R (l ++ k) <->
  StronglySorted R l /\ StronglySorted R k /\ forall x y, x ∈ l -> y ∈ k -> R x y.
Proof.
  induction l as [|a l IH]; cbn [app].
  - split; [|tauto]. intros H. split_and!; [constructor|done|]. set_solver.
  - split.
    + intros [Ha Hl]%StronglySorted_inv. apply IH in Ha as (H1 & H2 & H3).
      rewrite Forall_app in Hl. destruct Hl as [Hl1 Hl2]. split_and!; [by constructor|done|].
      intros x y [->|Hx]%elem_of_cons Hy; [|by apply H3]. by eapply Forall_forall in Hl2.
    + intros ([Ha Hl]%StronglySorted_inv & H2 & H3). constructor.
      * apply IH. split_and!; [done|done|]. intros. apply H3; set_solver.
      * apply Forall_app. split; [done|]. apply Forall_forall. intros. apply H3; set_solver.
Qed.


(** ** Tactics *)

(** A step of the option monad, by rewriting: the continuation is not reduced. *)
Lemma bind_Some_l {A B} (f : A -> option B) x : (Some x ≫= f) = f x.
Proof. done. Qed.

(** Turns the hypotheses about an execution into its reads. *)
Ltac opt_inv :=
  repeat match goal with
  | H : mbind _ _ = Some _ |- _ => apply bind_Some in H as (? & ? & H)
  | H : (let '(_, _) := ?p in _) = Some _ |- _ => destruct p
  | H : Some _ = Some _ |- _ => injection H as H
  end; simplify_eq.
