(* ===== verification/Avl.v ===== *)
(** * avl.h and avl.cpp: the intrusive AVL tree, on a store of nodes

    [AVLNode] objects live in a store [gmap ptr AVLNode]; every function of
    avl.cpp is a function on the store that fails ([None]) where the code would
    dereference a null or dangling pointer, or violate an [assert].  The loops
    take fuel; AvlProofs shows that the fuel given is always enough. *)

From S2P Require Import Prelude.
Local Open Scope Z_scope.

Record AVLNode := mkAVLNode {
  parent : option ptr;
  left : option ptr;
  right : option ptr;
  height : Z;   (* uint32_t *)
  cnt : Z       (* uint32_t *)
}.

Notation amem := (gmap ptr AVLNode).

(** Assignments to one field of a node. *)
Definition with_parent (q : option ptr) (n : AVLNode) : AVLNode :=
  mkAVLNode q (left n) (right n) (height n) (cnt n).
Definition with_left (q : option ptr) (n : AVLNode) : AVLNode :=
  mkAVLNode (parent n) q (right n) (height n) (cnt n).
Definition with_right (q : option ptr) (n : AVLNode) : AVLNode :=
  mkAVLNode (parent n) (left n) q (height n) (cnt n).
Definition with_height_cnt (h c : Z) (n : AVLNode) : AVLNode :=
  mkAVLNode (parent n) (left n) (right n) h c.

(** [if (p) p->parent = q;] *)
Definition set_parent_if (m : amem) (p q : option ptr) : option amem :=
  match p with
  | Some p => store_upd m p (with_parent q)
  | None => Some m
  end.

(** The value [avl_init] stores in a node. *)
Definition avl_init : AVLNode := mkAVLNode NULL NULL NULL 1 1.

Definition avl_height (m : amem) (node : option ptr) : option Z :=
  match node with
  | Some p => n ← m !! p; Some (height n)
  | None => Some 0
  end.

Definition avl_cnt (m : amem) (node : option ptr) : option Z :=
  match node with
  | Some p => n ← m !! p; Some (cnt n)
  | None => Some 0
  end.

Definition max (lhs rhs : Z) : Z := if lhs <? rhs then rhs else lhs.

(** Maintains the [height] and [cnt] fields. *)
Definition avl_update (m : amem) (node : ptr) : option amem :=
  n ← m !! node;
  hl ← avl_height m (left n);
  hr ← avl_height m (right n);
  cl ← avl_cnt m (left n);
  cr ← avl_cnt m (right n);
  store_upd m node (with_height_cnt (u32 (1 + max hl hr)) (u32 (u32 (1 + cl) + cr))).

Definition rot_left (m : amem) (node : ptr) : option (amem * ptr) :=
  n ← m !! node;
  let par := parent n in
  new_node ← right n;
  nn ← m !! new_node;
  let inner := left nn in
  (* node <-> inner *)
  m ← store_upd m node (with_right inner);
  m ← set_parent_if m inner (Some node);
  (* parent <- new_node *)
  m ← store_upd m new_node (with_parent par);
  (* new_node <-> node *)
  m ← store_upd m new_node (with_left (Some node));
  m ← store_upd m node (with_parent (Some new_node));
  (* auxiliary data *)
  m ← avl_update m node;
  m ← avl_update m new_node;
  Some (m, new_node).

Definition rot_right (m : amem) (node : ptr) : option (amem * ptr) :=
  n ← m !! node;
  let par := parent n in
  new_node ← left n;
  nn ← m !! new_node;
  let inner := right nn in
  (* node <-> inner *)
  m ← store_upd m node (with_left inner);
  m ← set_parent_if m inner (Some node);
  (* parent <- new_node *)
  m ← store_upd m new_node (with_parent par);
  (* new_node <-> node *)
  m ← store_upd m new_node (with_right (Some node));
  m ← store_upd m node (with_parent (Some new_node));
  (* auxiliary data *)
  m ← avl_update m node;
  m ← avl_update m new_node;
  Some (m, new_node).

(** The left subtree is taller by 2. *)
Definition avl_fix_left (m : amem) (node : ptr) : option (amem * ptr) :=
  n ← m !! node;
  l ← left n;
  ln ← m !! l;
  hll ← avl_height m (left ln);
  hlr ← avl_height m (right ln);
  m ← (if hll <? hlr then
         '(m, l') ← rot_left m l;                     (* Transformation 2 *)
         store_upd m node (with_left (Some l'))
       else Some m);
  rot_right m node.                                   (* Transformation 1 *)

(** The right subtree is taller by 2. *)
Definition avl_fix_right (m : amem) (node : ptr) : option (amem * ptr) :=
  n ← m !! node;
  r ← right n;
  rn ← m !! r;
  hrr ← avl_height m (right rn);
  hrl ← avl_height m (left rn);
  m ← (if hrr <? hrl then
         '(m, r') ← rot_right m r;
         store_upd m node (with_right (Some r'))
       else Some m);
  rot_left m node.

(** An [AVLNode **from] of avl.cpp: a local variable of the function, or the
    [left] or [right] field of a node. *)
Inductive aloc :=
  | ALocal
  | ALeft (p : ptr)
  | ARight (p : ptr).

(** [parent->left == node ? &parent->left : &parent->right] *)
Definition child_slot (m : amem) (par node : ptr) : option aloc :=
  p ← m !! par;
  Some (if decide (left p = Some node) then ALeft par else ARight par).

(** [*from = x] when [from] is a field; [local] is the local variable. *)
Definition aloc_store (m : amem) (local : option ptr) (from : aloc)
    (x : option ptr) : option (amem * option ptr) :=
  match from with
  | ALocal => Some (m, x)
  | ALeft p => m ← store_upd m p (with_left x); Some (m, local)
  | ARight p => m ← store_upd m p (with_right x); Some (m, local)
  end.

(** One iteration of the loop of [avl_fix] works on [node]; the result is the
    store and either the parent to continue with or the root to return. *)
Definition avl_fix_step (m : amem) (node : ptr) :
    option (amem * (ptr + option ptr)) :=
  n ← m !! node;
  let par := parent n in
  (* save the fixed subtree here *)
  from ← (match par with
          | Some par => child_slot m par node
          | None => Some ALocal
          end);
  (* auxiliary data *)
  m ← avl_update m node;
  (* fix the height difference of 2 *)
  n ← m !! node;
  l ← avl_height m (left n);
  r ← avl_height m (right n);
  '(m, node') ←
    (if l =? u32 (r + 2) then
       '(m, x) ← avl_fix_left m node;
       aloc_store m (Some node) from (Some x)
     else if u32 (l + 2) =? r then
       '(m, x) ← avl_fix_right m node;
       aloc_store m (Some node) from (Some x)
     else Some (m, Some node));
  match par with
  | None => Some (m, inr node')         (* root node, stop *)
  | Some par => Some (m, inl par)       (* continue to the parent node *)
  end.

Fixpoint avl_fix_loop (fuel : nat) (m : amem) (node : ptr) :
    option (amem * option ptr) :=
  match fuel with
  | O => None
  | S fuel =>
      '(m, next) ← avl_fix_step m node;
      match next with
      | inl par => avl_fix_loop fuel m par
      | inr root => Some (m, root)
      end
  end.

(** Fixes imbalanced nodes up to the root; a path to the root visits each node
    of the store at most once. *)
Definition avl_fix (m : amem) (node : ptr) : option (amem * option ptr) :=
  avl_fix_loop (S (size m)) m node.

(** Detaches a node where one of its children is empty. *)
Definition avl_del_easy (m : amem) (node : ptr) : option (amem * option ptr) :=
  n ← m !! node;
  (* assert(!node->left || !node->right) *)
  guard (left n = None \/ right n = None);;
  let child := match left n with Some l => Some l | None => right n end in
  (* update the child's parent pointer *)
  m ← set_parent_if m child (parent n);
  (* attach the child to the grandparent *)
  match parent n with
  | None => Some (m, child)             (* removing the root node *)
  | Some par =>
      from ← child_slot m par node;
      '(m, _) ← aloc_store m None from child;
      (* rebalance the updated tree *)
      avl_fix m par
  end.

(** [while (victim->left) victim = victim->left;] *)
Fixpoint leftmost_loop (fuel : nat) (m : amem) (victim : ptr) : option ptr :=
  match fuel with
  | O => None
  | S fuel =>
      n ← m !! victim;
      match left n with
      | Some l => leftmost_loop fuel m l
      | None => Some victim
      end
  end.

(** The second half of [avl_del]: [victim], already detached, takes the place
    of [node] in the tree whose root is [root]. *)
Definition avl_swap (m : amem) (root : option ptr) (node victim : ptr) :
    option (amem * option ptr) :=
  n ← m !! node;
  m ← store_upd m victim (fun _ => n);   (* *victim = *node; left, right, parent *)
  m ← set_parent_if m (left n) (Some victim);
  m ← set_parent_if m (right n) (Some victim);
  (* attach the successor to the parent, or update the root pointer *)
  n ← m !! node;
  from ← (match parent n with
          | Some par => child_slot m par node
          | None => Some ALocal
          end);
  aloc_store m root from (Some victim).

(** Detaches a node and returns the new root of the tree. *)
Definition avl_del (m : amem) (node : ptr) : option (amem * option ptr) :=
  n ← m !! node;
  match left n, right n with
  | Some _, Some r =>
      victim ← leftmost_loop (S (size m)) m r;    (* find the successor *)
      '(m, root) ← avl_del_easy m victim;         (* detach the successor *)
      avl_swap m root node victim                 (* swap with the successor *)
  | _, _ => avl_del_easy m node                   (* the easy case of 0 or 1 child *)
  end.

(** Offset into the succeeding or preceding node: one loop iteration per unit
    of fuel; [pos] is the rank difference from the starting node (an
    [int64_t]; the counts it adds are below 2^32, see AvlProofs). *)
Fixpoint avl_offset_loop (fuel : nat) (m : amem) (offset pos : Z) (node : ptr) :
    option (option ptr) :=
  if offset =? pos then Some (Some node) else
  match fuel with
  | O => None
  | S fuel =>
      n ← m !! node;
      cr ← avl_cnt m (right n);
      cl ← avl_cnt m (left n);
      if (pos <? offset) && (offset <=? i64 (pos + cr)) then
        (* the target is inside the right subtree *)
        node' ← right n;
        n' ← m !! node';
        c ← avl_cnt m (left n');
        avl_offset_loop fuel m offset (i64 (pos + u32 (c + 1))) node'
      else if (offset <? pos) && (i64 (pos - cl) <=? offset) then
        (* the target is inside the left subtree *)
        node' ← left n;
        n' ← m !! node';
        c ← avl_cnt m (right n');
        avl_offset_loop fuel m offset (i64 (pos - u32 (c + 1))) node'
      else
        (* go to the parent *)
        match parent n with
        | None => Some NULL                 (* out of bounds *)
        | Some par =>
            p ← m !! par;
            pos' ← (if decide (right p = Some node) then Some (i64 (pos - u32 (cl + 1)))
                    else Some (i64 (pos + u32 (cr + 1))));
            avl_offset_loop fuel m offset pos' par
        end
  end.

(** Each node of the store is visited at most twice: once on the way up, once
    on the way down. *)
Definition avl_offset (m : amem) (node : ptr) (offset : Z) : option (option ptr) :=
  avl_offset_loop (2 * S (size m)) m offset 0 node.
