(* ===== verification/AvlTree.v ===== *)
(** * The abstract tree behind avl.cpp

    Binary trees of node pointers, contexts (the path from a subtree to the
    root), rebalancing as a function, and the facts about them that AvlProofs
    transports to the store: order of the nodes, balance, sizes. *)

From S2P Require Import Prelude.
Local Open Scope Z_scope.

Inductive tree :=
  | Leaf
  | Node (l : tree) (i : ptr) (r : tree).

Definition root (t : tree) : option ptr :=
  match t with Leaf => None | Node _ i _ => Some i end.

(** The nodes in key order. *)
Fixpoint inorder (t : tree) : list ptr :=
  match t with Leaf => [] | Node l i r => inorder l ++ i :: inorder r end.

Fixpoint hgt (t : tree) : Z :=
  match t with Leaf => 0 | Node l _ r => 1 + Z.max (hgt l) (hgt r) end.

Definition tsize (t : tree) : Z := Z.of_nat (length (inorder t)).

(** Every node has subtrees whose heights differ by at most 1. *)
Fixpoint balanced (t : tree) : Prop :=
  match t with
  | Leaf => True
  | Node l _ r => balanced l /\ balanced r /\ Z.abs (hgt l - hgt r) <= 1
  end.

(** The same as a test, the way [avl_verify] of test_avl.cpp checks it. *)
Fixpoint balancedb (t : tree) : bool :=
  match t with
  | Leaf => true
  | Node l _ r => balancedb l && balancedb r && (Z.abs (hgt l - hgt r) <=? 1)
  end.

Definition rotl (t : tree) : tree :=
  match t with Node l i (Node rl j rr) => Node (Node l i rl) j rr | _ => t end.

Definition rotr (t : tree) : tree :=
  match t with Node (Node ll j lr) i r => Node ll j (Node lr i r) | _ => t end.

Definition bal_left (t : tree) : tree :=
  match t with
  | Node (Node ll j lr) i r =>
      rotr (Node (if hgt ll <? hgt lr then rotl (Node ll j lr) else Node ll j lr) i r)
  | _ => t
  end.

Definition bal_right (t : tree) : tree :=
  match t with
  | Node l i (Node rl j rr) =>
      rotl (Node l i (if hgt rr <? hgt rl then rotr (Node rl j rr) else Node rl j rr))
  | _ => t
  end.

Definition balance (t : tree) : tree :=
  match t with
  | Leaf => Leaf
  | Node l _ r =>
      if hgt l =? hgt r + 2 then bal_left t
      else if hgt l + 2 =? hgt r then bal_right t
      else t
  end.

(** A context, innermost frame first: the hole is the left (right) subtree of
    the frame's node. *)
Inductive frame :=
  | InL (i : ptr) (r : tree)
  | InR (l : tree) (i : ptr).

Definition fill (f : frame) (t : tree) : tree :=
  match f with InL i r => Node t i r | InR l i => Node l i t end.

Definition fnode (f : frame) : ptr := match f with InL i _ | InR _ i => i end.

Fixpoint plug (c : list frame) (t : tree) : tree :=
  match c with [] => t | f :: c => plug c (fill f t) end.

(** The nodes before and after the hole. *)
Fixpoint before (c : list frame) : list ptr :=
  match c with
  | [] => []
  | InL _ _ :: c => before c
  | InR l i :: c => before c ++ inorder l ++ [i]
  end.

Fixpoint after (c : list frame) : list ptr :=
  match c with
  | [] => []
  | InL i r :: c => i :: inorder r ++ after c
  | InR _ _ :: c => after c
  end.

(** What [avl_fix] computes from a node whose subtree is [t] in context [c]. *)
Fixpoint fix_up (c : list frame) (t : tree) : tree :=
  match c with
  | [] => balance t
  | f :: c => fix_up c (fill f (balance t))
  end.

(** The same, starting from the parent of the hole. *)
Definition fix_ctx (c : list frame) (t : tree) : tree :=
  match c with [] => t | f :: c => fix_up c (fill f t) end.

(** The context [c] is balanced when its hole holds a tree of height [h]. *)
Fixpoint ctx_balanced (h : Z) (c : list frame) : Prop :=
  match c with
  | [] => True
  | f :: c =>
      match f with
      | InL _ t | InR t _ =>
          balanced t /\ Z.abs (h - hgt t) <= 1 /\
          ctx_balanced (1 + Z.max h (hgt t)) c
      end
  end.

(** The leftmost path of [t], ending in the context of its first node. *)
Fixpoint min_ctx (t : tree) (c : list frame) : option (list frame * ptr * tree) :=
  match t with
  | Leaf => None
  | Node l i r =>
      match min_ctx l (InL i r :: c) with
      | Some x => Some x
      | None => Some (c, i, r)
      end
  end.

(** Puts node [b] in the place of node [a]. *)
Fixpoint rename (a b : ptr) (t : tree) : tree :=
  match t with
  | Leaf => Leaf
  | Node l i r => Node (rename a b l) (if decide (i = a) then b else i) (rename a b r)
  end.

(** ** Shape *)

Lemma hgt_nonneg t : 0 <= hgt t.
Proof. induction t; simpl; lia. Qed.

Lemma tsize_node l i r : tsize (Node l i r) = 1 + tsize l + tsize r.
Proof. unfold tsize. simpl. rewrite length_app. simpl. lia. Qed.

Lemma tsize_nonneg t : 0 <= tsize t.
Proof. unfold tsize. lia. Qed.

Lemma hgt_le_tsize t : hgt t <= tsize t.
Proof.
  induction t as [|l IHl i r IHr]; [done|].
  rewrite tsize_node. simpl. pose proof (tsize_nonneg l). pose proof (tsize_nonneg r). lia.
Qed.

Lemma root_None t : root t = None <-> t = Leaf.
Proof. destruct t; naive_solver. Qed.

Lemma root_in t i : root t = Some i -> i ∈ inorder t.
Proof. destruct t; simpl; intros; simplify_eq. set_solver. Qed.

Lemma hgt_pos_node t : 0 < hgt t -> exists l i r, t = Node l i r.
Proof. destruct t; simpl; [lia|eauto]. Qed.

Lemma balancedb_spec t : balancedb t = true <-> balanced t.
Proof.
  induction t as [|l IHl i r IHr]; simpl; [done|].
  rewrite !andb_true_iff, IHl, IHr, Z.leb_le. tauto.
Qed.

#[export] Instance balanced_decision t : Decision (balanced t).
Proof.
  destruct (balancedb t) eqn:E; [left|right]; rewrite <- balancedb_spec; congruence.
Defined.

(** ** Order of the nodes *)

Lemma inorder_fill f t : inorder (fill f t) = before [f] ++ inorder t ++ after [f].
Proof. destruct f; simpl; rewrite ?app_nil_r, <- ?app_assoc; done. Qed.

Lemma inorder_plug c t : inorder (plug c t) = before c ++ inorder t ++ after c.
Proof.
  revert t. induction c as [|f c IH]; intros t; simpl; [by rewrite app_nil_r|].
  rewrite IH, inorder_fill. destruct f; simpl; rewrite ?app_nil_r, <- ?app_assoc; done.
Qed.

Lemma inorder_rotl t : inorder (rotl t) = inorder t.
Proof. destruct t as [|l i [|rl j rr]]; simpl; [done..|]. by rewrite <- app_assoc. Qed.

Lemma inorder_rotr t : inorder (rotr t) = inorder t.
Proof. destruct t as [|[|ll j lr] i r]; simpl; [done..|]. by rewrite <- app_assoc. Qed.

Lemma inorder_node l1 l2 r1 r2 i :
  inorder l1 = inorder l2 -> inorder r1 = inorder r2 ->
  inorder (Node l1 i r1) = inorder (Node l2 i r2).
Proof. simpl. congruence. Qed.

Lemma inorder_balance t : inorder (balance t) = inorder t.
Proof.
  destruct t as [|l i r]; [done|]. unfold balance.
  repeat case_match; try done.
  - destruct l as [|ll j lr]; [done|]. unfold bal_left. rewrite inorder_rotr.
    apply inorder_node; [|done]. case_match; [apply inorder_rotl|done].
  - destruct r as [|rl j rr]; [done|]. unfold bal_right. rewrite inorder_rotl.
    apply inorder_node; [done|]. case_match; [apply inorder_rotr|done].
Qed.

Lemma inorder_fix_up c t : inorder (fix_up c t) = inorder (plug c t).
Proof.
  revert t. induction c as [|f c IH]; intros t; simpl; [apply inorder_balance|].
  rewrite IH, !inorder_plug, !inorder_fill. by rewrite inorder_balance.
Qed.

Lemma inorder_fix_ctx c t : inorder (fix_ctx c t) = before c ++ inorder t ++ after c.
Proof.
  destruct c as [|f c]; simpl; [by rewrite app_nil_r|].
  rewrite inorder_fix_up. apply (inorder_plug (f :: c)).
Qed.

Lemma inorder_min_ctx t c c' i r :
  min_ctx t c = Some (c', i, r) ->
  before c' ++ i :: inorder r ++ after c' = before c ++ inorder t ++ after c.
Proof.
  revert c. induction t as [|l IHl j r' IHr]; intros c; simpl; [done|].
  destruct (min_ctx l (InL j r' :: c)) as [x|] eqn:E.
  - intros [= ->]. rewrite (IHl _ E). simpl. by rewrite <- app_assoc.
  - intros [= <- <- <-]. destruct l; simpl in *; [done|].
    by destruct (min_ctx l1 _).
Qed.

Lemma min_ctx_Some t c : t <> Leaf -> exists x, min_ctx t c = Some x.
Proof. destruct t; simpl; [done|]. intros _. destruct (min_ctx _ _); eauto. Qed.

Lemma min_ctx_plug t c c' i r :
  min_ctx t c = Some (c', i, r) -> plug c' (Node Leaf i r) = plug c t.
Proof.
  revert c. induction t as [|l IHl j r' IHr]; intros c; simpl; [done|].
  destruct (min_ctx l (InL j r' :: c)) as [x|] eqn:E.
  - intros [= ->]. by rewrite (IHl _ E).
  - intros [= <- <- <-]. destruct l; simpl in *; [done|]. by destruct (min_ctx l1 _).
Qed.

(** Every node of a tree has a context. *)
Lemma inorder_split t i :
  i ∈ inorder t -> exists c l r, t = plug c (Node l i r).
Proof.
  induction t as [|l IHl j r IHr]; simpl; [set_solver|].
  rewrite elem_of_app, elem_of_cons. intros [H|[->|H]].
  - destruct (IHl H) as (c & l' & r' & ->). exists (c ++ [InL j r]), l', r'.
    clear. generalize (Node l' i r'). induction c as [|f c IH]; intros t; simpl; [done|apply IH].
  - by exists [], l, r.
  - destruct (IHr H) as (c & l' & r' & ->). exists (c ++ [InR l j]), l', r'.
    clear. generalize (Node l' i r'). induction c as [|f c IH]; intros t; simpl; [done|apply IH].
Qed.

(** ** Balance *)

(** Closes a goal about the parts of rebalanced nodes. *)
Local Ltac solve_balance :=
  simpl in *; destruct_and?; repeat split; try assumption; try lia.

Lemma balance_balanced l i r :
  balanced l -> balanced r -> Z.abs (hgt l - hgt r) <= 2 ->
  balanced (balance (Node l i r)).
Proof.
  intros Hl Hr Hd. unfold balance.
  destruct (Z.eqb_spec (hgt l) (hgt r + 2)) as [E|E].
  - pose proof (hgt_nonneg r). destruct l as [|ll j lr]; [simpl in *; lia|]. simpl.
    destruct (Z.ltb_spec (hgt ll) (hgt lr)); [|solve_balance].
    pose proof (hgt_nonneg ll). destruct lr as [|lrl k lrr]; [simpl in *; lia|solve_balance].
  - destruct (Z.eqb_spec (hgt l + 2) (hgt r)) as [E'|E']; [|solve_balance].
    pose proof (hgt_nonneg l). destruct r as [|rl j rr]; [simpl in *; lia|]. simpl.
    destruct (Z.ltb_spec (hgt rr) (hgt rl)); [|solve_balance].
    pose proof (hgt_nonneg rr). destruct rl as [|rll k rlr]; [simpl in *; lia|solve_balance].
Qed.

(** Rebalancing leaves the height or lowers it by one, and only lowers it when
    the node was out of balance. *)
Lemma balance_height l i r :
  balanced l -> balanced r -> Z.abs (hgt l - hgt r) <= 2 ->
  let h := hgt (balance (Node l i r)) in
  let h0 := 1 + Z.max (hgt l) (hgt r) in
  (Z.abs (hgt l - hgt r) <= 1 -> h = h0) /\ h0 - 1 <= h <= h0.
Proof.
  intros Hl Hr Hd. unfold balance.
  destruct (Z.eqb_spec (hgt l) (hgt r + 2)) as [E|E].
  - pose proof (hgt_nonneg r). destruct l as [|ll j lr]; [simpl in *; lia|]. simpl.
    destruct (Z.ltb_spec (hgt ll) (hgt lr)); [|solve_balance].
    pose proof (hgt_nonneg ll). destruct lr as [|lrl k lrr]; [simpl in *; lia|solve_balance].
  - destruct (Z.eqb_spec (hgt l + 2) (hgt r)) as [E'|E']; [|solve_balance].
    pose proof (hgt_nonneg l). destruct r as [|rl j rr]; [simpl in *; lia|]. simpl.
    destruct (Z.ltb_spec (hgt rr) (hgt rl)); [|solve_balance].
    pose proof (hgt_nonneg rr). destruct rl as [|rll k rlr]; [simpl in *; lia|solve_balance].
Qed.

(** A subtree whose height changed by at most one can be fixed up to the root. *)
Lemma fix_up_balanced c l i r h :
  balanced l -> balanced r -> Z.abs (hgt l - hgt r) <= 2 ->
  Z.abs (hgt (balance (Node l i r)) - h) <= 1 ->
  ctx_balanced h c ->
  balanced (fix_up c (Node l i r)).
Proof.
  revert l i r h. induction c as [|f c IH]; intros l i r h Hl Hr Hd Hh Hc.
  - by apply balance_balanced.
  - pose proof (balance_balanced l i r Hl Hr Hd) as Hb.
    cbn [fix_up]. destruct f as [j t|t j]; destruct Hc as (Ht & Hht & Hc); simpl fill.
    + refine (IH _ _ _ _ Hb Ht _ _ Hc); [lia|].
      pose proof (balance_height (balance (Node l i r)) j t Hb Ht ltac:(lia)). simpl in *. lia.
    + refine (IH _ _ _ _ Ht Hb _ _ Hc); [lia|].
      pose proof (balance_height t j (balance (Node l i r)) Ht Hb ltac:(lia)). simpl in *. lia.
Qed.

Lemma fix_ctx_balanced c t h :
  balanced t -> Z.abs (hgt t - h) <= 1 -> ctx_balanced h c -> balanced (fix_ctx c t).
Proof.
  intros Ht Hh Hc. destruct c as [|f c]; [done|]. cbn [fix_ctx].
  destruct f as [j u|u j]; destruct Hc as (Hu & Hd & Hc); simpl fill.
  - apply (fix_up_balanced c t j u (1 + Z.max h (hgt u))); try done; [lia|].
    pose proof (balance_height t j u Ht Hu ltac:(lia)). simpl in *. lia.
  - apply (fix_up_balanced c u j t (1 + Z.max h (hgt u))); try done; [lia|].
    pose proof (balance_height u j t Hu Ht ltac:(lia)). simpl in *. lia.
Qed.

Lemma balanced_plug c t :
  balanced (plug c t) -> balanced t /\ ctx_balanced (hgt t) c.
Proof.
  revert t. induction c as [|f c IH]; intros t; simpl; [done|].
  intros H. apply IH in H as [Hf Hc]. destruct f as [i r|l i]; simpl in *.
  - destruct Hf as (? & ? & ?). repeat split; try done.
  - destruct Hf as (? & ? & ?). repeat split; try done; [lia|].
    by rewrite Z.max_comm.
Qed.

Lemma rename_hgt a b t : hgt (rename a b t) = hgt t.
Proof. induction t; simpl; congruence. Qed.

Lemma rename_balanced a b t : balanced (rename a b t) <-> balanced t.
Proof.
  induction t as [|l IHl i r IHr]; simpl; [done|]. rewrite !rename_hgt. tauto.
Qed.

Lemma rename_inorder a b t :
  inorder (rename a b t) = (fun i => if decide (i = a) then b else i) <$> inorder t.
Proof.
  induction t as [|l IHl i r IHr]; simpl; [done|].
  rewrite IHl, IHr, fmap_app. done.
Qed.

Lemma rename_id (a b : ptr) (l : list ptr) :
  a ∉ l -> (fun i : ptr => if decide (i = a) then b else i) <$> l = l.
Proof.
  induction l as [|x l IH]; simpl; [done|]. intros H.
  rewrite decide_False by set_solver. f_equal. apply IH. set_solver.
Qed.

(** ** Deletion *)

(** What [avl_del] computes for node [i] with subtrees [l] and [r] in context
    [c]: the successor takes the place of a node with two children. *)
Definition del_tree (c : list frame) (l : tree) (i : ptr) (r : tree) : tree :=
  match l, r with
  | Leaf, _ => fix_ctx c r
  | _, Leaf => fix_ctx c l
  | _, _ =>
      match min_ctx r (InR l i :: c) with
      | Some (c', v, vr) => rename i v (fix_ctx c' vr)
      | None => Leaf
      end
  end.

Lemma min_ctx_before t c c' i r :
  min_ctx t c = Some (c', i, r) -> before c' = before c.
Proof.
  revert c. induction t as [|l IHl j r' IHr]; intros c; simpl; [done|].
  destruct (min_ctx l (InL j r' :: c)) as [x|] eqn:E.
  - intros [= ->]. by rewrite (IHl _ E).
  - by intros [= <- <- <-].
Qed.

Lemma inorder_del_tree c l i r :
  NoDup (inorder (plug c (Node l i r))) ->
  inorder (del_tree c l i r) = before c ++ inorder l ++ inorder r ++ after c.
Proof.
  intros Hnd. rewrite inorder_plug in Hnd. unfold del_tree.
  destruct l as [|ll li lr]; [by rewrite inorder_fix_ctx|].
  destruct r as [|rl ri rr]; [by rewrite inorder_fix_ctx|].
  set (l := Node ll li lr) in *. set (r := Node rl ri rr) in *.
  destruct (min_ctx_Some r (InR l i :: c)) as [[[c' v] vr] E]; [done|]. rewrite E.
  pose proof (inorder_min_ctx _ _ _ _ _ E) as Ho. pose proof (min_ctx_before _ _ _ _ _ E) as Hb.
  cbn [before after] in Ho, Hb. rewrite Hb in Ho. apply (inj (app _)) in Ho.
  rewrite rename_inorder, inorder_fix_ctx, Hb.
  rewrite <- !app_assoc, !fmap_app, list_fmap_singleton, decide_True by done.
  cbn [inorder] in Hnd. rewrite <- app_assoc, <- app_comm_cons, <- Ho in Hnd. nodup_split.
  rewrite !rename_id by (intros ?; eauto 3). by rewrite <- Ho.
Qed.

Lemma plug_balanced c t : balanced t -> ctx_balanced (hgt t) c -> balanced (plug c t).
Proof.
  revert t. induction c as [|f c IH]; intros t Ht Hc; [done|].
  cbn [plug]. destruct f as [j u|u j]; destruct Hc as (Hu & Hd & Hc); apply IH; simpl.
  - done.
  - done.
  - split_and!; try done. lia.
  - by rewrite Z.max_comm.
Qed.

Lemma del_tree_balanced c l i r :
  balanced (plug c (Node l i r)) -> balanced (del_tree c l i r).
Proof.
  intros Hb. apply balanced_plug in Hb as ((Hl & Hr & Hd) & Hc). unfold del_tree.
  destruct l as [|ll li lr].
  { eapply fix_ctx_balanced, Hc; [done|]. pose proof (hgt_nonneg r). simpl in *. lia. }
  destruct r as [|rl ri rr].
  { eapply fix_ctx_balanced, Hc; [done|]. pose proof (hgt_nonneg ll). pose proof (hgt_nonneg lr).
    simpl in *. lia. }
  set (l := Node ll li lr) in *. set (r := Node rl ri rr) in *.
  destruct (min_ctx_Some r (InR l i :: c)) as [[[c' v] vr] E]; [done|]. rewrite E.
  rewrite rename_balanced.
  assert (Hb : balanced (plug c' (Node Leaf v vr))).
  { rewrite (min_ctx_plug _ _ _ _ _ E). by apply (plug_balanced c (Node l i r)). }
  apply balanced_plug in Hb as ((_ & Hvr & Hdv) & Hc').
  eapply fix_ctx_balanced, Hc'; [done|]. pose proof (hgt_nonneg vr). simpl in *. lia.
Qed.

(** A tree of height [2 n - 1] has at least [2^n - 1] nodes. *)
Lemma balanced_pow t : balanced t -> forall n : nat, 2 * Z.of_nat n - 1 <= hgt t -> 2 ^ Z.of_nat n <= tsize t + 1.
Proof.
  induction t as [|l IHl i r IHr]; cbn [balanced hgt].
  - intros _ n Hn. assert (n = 0%nat) as -> by lia. done.
  - intros (Hl & Hr & Hd) n Hn. rewrite tsize_node. destruct n as [|n].
    + pose proof (tsize_nonneg l). pose proof (tsize_nonneg r). change (2 ^ Z.of_nat 0) with 1. lia.
    + specialize (IHl Hl n ltac:(lia)). specialize (IHr Hr n ltac:(lia)).
      rewrite Nat2Z.inj_succ, Z.pow_succ_r by lia. lia.
Qed.
