(* ===== verification/AvlProofs.v ===== *)
(** * avl.cpp implements the abstract tree

    [tree_rep m par t] says that the store [m] holds the tree [t] under the
    parent pointer [par], with exact [height] and [cnt] fields; [ctx_rep] says
    the same of the path to the root, whose heights and counts may be stale.
    Each function of avl.cpp is shown to run without undefined behaviour and
    to compute its counterpart of AvlTree. *)

From S2P Require Import Prelude Avl AvlTree.
Local Open Scope Z_scope.

Fixpoint tree_rep (m : amem) (par : option ptr) (t : tree) : Prop :=
  match t with
  | Leaf => True
  | Node l i r =>
      m !! i = Some (mkAVLNode par (root l) (root r) (hgt t) (tsize t)) /\
      tree_rep m (Some i) l /\ tree_rep m (Some i) r
  end.

(** The links of a node are right, its [height] and [cnt] are anything. *)
Definition linked (m : amem) (i : ptr) (par l r : option ptr) : Prop :=
  exists h c, m !! i = Some (mkAVLNode par l r h c).

Definition ctx_par (c : list frame) : option ptr :=
  match c with [] => None | f :: _ => Some (fnode f) end.

Fixpoint ctx_rep (m : amem) (c : list frame) (hole : option ptr) : Prop :=
  match c with
  | [] => True
  | f :: c =>
      match f with
      | InL i r => linked m i (ctx_par c) hole (root r) /\ tree_rep m (Some i) r
      | InR l i => linked m i (ctx_par c) (root l) hole /\ tree_rep m (Some i) l
      end /\ ctx_rep m c (Some (fnode f))
  end.

Definition nodes (t : tree) : gset ptr := list_to_set (inorder t).
Definition ctx_nodes (c : list frame) : gset ptr := list_to_set (before c ++ after c).

Arguments nodes : simpl never.
Arguments ctx_nodes : simpl never.

(** ** Disjointness bookkeeping *)

Lemma elem_of_nodes i t : i ∈ nodes t <-> i ∈ inorder t.
Proof. apply elem_of_list_to_set. Qed.

Lemma elem_of_ctx_nodes i c : i ∈ ctx_nodes c <-> i ∈ before c ++ after c.
Proof. apply elem_of_list_to_set. Qed.

(** Closes a disjointness goal about tree nodes from the [NoDup] clauses. *)
Ltac nodes_unfold :=
  repeat match goal with
  | H : context [_ ∈ nodes _] |- _ => rewrite elem_of_nodes in H
  | H : context [_ ∈ ctx_nodes _] |- _ => rewrite elem_of_ctx_nodes in H
  | |- context [_ ∈ nodes _] => rewrite elem_of_nodes
  | |- context [_ ∈ ctx_nodes _] => rewrite elem_of_ctx_nodes
  end; cbn [inorder before after] in *.

Ltac nodes_solver := nodes_unfold; unfold not in *; mem_absurd.

Lemma nodes_node l i r : nodes (Node l i r) = nodes l ∪ ({[i]} ∪ nodes r).
Proof. unfold nodes. simpl. rewrite list_to_set_app_L. done. Qed.

(** Normalises the concatenations of node lists. *)
Ltac reassoc := cbn [inorder before after]; repeat (rewrite <- app_assoc; cbn [app]).

(** ** Framing *)

Lemma tree_rep_frame m m' par t :
  (forall j, j ∈ inorder t -> m' !! j = m !! j) ->
  tree_rep m par t -> tree_rep m' par t.
Proof.
  revert par. induction t as [|l IHl i r IHr]; intros par Hm; [done|].
  cbn [tree_rep inorder] in *. intros (Hi & Hl & Hr). split_and!.
  - rewrite Hm; [done|set_solver].
  - apply IHl; [|done]. intros. apply Hm. set_solver.
  - apply IHr; [|done]. intros. apply Hm. set_solver.
Qed.

Lemma linked_frame m m' i par l r :
  m' !! i = m !! i -> linked m i par l r -> linked m' i par l r.
Proof. unfold linked. by intros ->. Qed.

Lemma ctx_rep_frame m m' c hole :
  (forall j, j ∈ before c ++ after c -> m' !! j = m !! j) ->
  ctx_rep m c hole -> ctx_rep m' c hole.
Proof.
  revert hole. induction c as [|f c IH]; intros hole Hm; [done|].
  cbn [ctx_rep]. intros (Hf & Hc). split.
  - destruct f as [i r|l i]; destruct Hf as (Hi & Ht); (split;
      [eapply linked_frame, Hi; apply Hm; simpl; set_solver
      |eapply tree_rep_frame, Ht; intros; apply Hm; simpl; set_solver]).
  - apply IH; [|done]. intros j Hj. apply Hm. destruct f; simpl; set_solver.
Qed.

Lemma tree_rep_dom m par t i : tree_rep m par t -> i ∈ inorder t -> is_Some (m !! i).
Proof.
  revert par. induction t as [|l IHl j r IHr]; intros par; [set_solver|].
  cbn [tree_rep inorder]. intros (Hj & Hl & Hr).
  rewrite elem_of_app, elem_of_cons. intros [H|[->|H]]; eauto.
Qed.

Lemma ctx_rep_dom m c hole i :
  ctx_rep m c hole -> i ∈ before c ++ after c -> is_Some (m !! i).
Proof.
  revert hole. induction c as [|f c IH]; intros hole; [set_solver|].
  cbn [ctx_rep]. intros (Hf & Hc) Hi.
  assert (i = fnode f \/ i ∈ before c ++ after c \/
    match f with InL _ r => i ∈ inorder r | InR l _ => i ∈ inorder l end) as [->|[H|H]]
    by (destruct f; simpl in *; set_solver).
  - destruct f; simpl; destruct Hf as ((? & ? & Hf) & _); rewrite Hf; eauto.
  - eauto.
  - destruct f; destruct Hf as (_ & Ht); eauto using tree_rep_dom.
Qed.

(** ** No function allocates or frees a node *)

Lemma set_parent_if_dom m p q m' : set_parent_if m p q = Some m' -> dom m' = dom m.
Proof. destruct p; simpl; [apply store_upd_dom|congruence]. Qed.

Lemma avl_update_dom m i m' : avl_update m i = Some m' -> dom m' = dom m.
Proof. unfold avl_update. intros H. opt_inv. by eapply store_upd_dom. Qed.

(** Follows an execution and chains the domain equalities of its calls. *)
Ltac dom_fact H :=
  first [apply store_upd_dom in H | apply set_parent_if_dom in H | apply avl_update_dom in H].

Ltac dom_chain :=
  repeat (opt_inv; case_match); opt_inv;
  repeat match goal with H : _ = Some _ |- _ => progress dom_fact H end;
  try congruence.

Lemma rot_left_dom m i m' x : rot_left m i = Some (m', x) -> dom m' = dom m.
Proof. unfold rot_left. intros. dom_chain. Qed.

Lemma rot_right_dom m i m' x : rot_right m i = Some (m', x) -> dom m' = dom m.
Proof. unfold rot_right. intros. dom_chain. Qed.

Ltac dom_fact H ::=
  first [apply store_upd_dom in H | apply set_parent_if_dom in H | apply avl_update_dom in H
    |apply rot_left_dom in H | apply rot_right_dom in H].

Lemma avl_fix_left_dom m i m' x : avl_fix_left m i = Some (m', x) -> dom m' = dom m.
Proof. unfold avl_fix_left. intros. dom_chain. Qed.

Lemma avl_fix_right_dom m i m' x : avl_fix_right m i = Some (m', x) -> dom m' = dom m.
Proof. unfold avl_fix_right. intros. dom_chain. Qed.

Lemma aloc_store_dom m loc from x m' loc' :
  aloc_store m loc from x = Some (m', loc') -> dom m' = dom m.
Proof. unfold aloc_store. intros. dom_chain. Qed.

Ltac dom_fact H ::=
  first [apply store_upd_dom in H | apply set_parent_if_dom in H | apply avl_update_dom in H
    |apply avl_fix_left_dom in H | apply avl_fix_right_dom in H | apply aloc_store_dom in H].

Lemma avl_fix_step_dom m i m' next : avl_fix_step m i = Some (m', next) -> dom m' = dom m.
Proof. unfold avl_fix_step. intros. dom_chain. Qed.

Lemma avl_fix_loop_dom fuel m i m' x : avl_fix_loop fuel m i = Some (m', x) -> dom m' = dom m.
Proof.
  revert m i. induction fuel as [|fuel IH]; intros m i; cbn [avl_fix_loop]; [done|].
  intros ([m1 next] & E%avl_fix_step_dom & H)%bind_Some. rewrite <- E.
  destruct next; [eauto|congruence].
Qed.

Lemma avl_fix_dom m i m' x : avl_fix m i = Some (m', x) -> dom m' = dom m.
Proof. apply avl_fix_loop_dom. Qed.

Ltac dom_fact H ::=
  first [apply store_upd_dom in H | apply set_parent_if_dom in H | apply avl_fix_dom in H
    |apply aloc_store_dom in H].

Lemma avl_del_easy_dom m i m' x : avl_del_easy m i = Some (m', x) -> dom m' = dom m.
Proof. unfold avl_del_easy. intros. dom_chain. Qed.

Lemma avl_swap_dom m rt i v m' x : avl_swap m rt i v = Some (m', x) -> dom m' = dom m.
Proof. unfold avl_swap. intros. dom_chain. Qed.

Lemma avl_del_dom m i m' x : avl_del m i = Some (m', x) -> dom m' = dom m.
Proof.
  unfold avl_del. intros (n & _ & H)%bind_Some.
  destruct (left n), (right n); try by apply avl_del_easy_dom in H.
  apply bind_Some in H as (v & _ & H). apply bind_Some in H as ([m1 rt] & E%avl_del_easy_dom & H).
  apply avl_swap_dom in H. congruence.
Qed.

(** ** Reading a represented tree *)

Lemma avl_height_rep m par t : tree_rep m par t -> avl_height m (root t) = Some (hgt t).
Proof. destruct t; simpl; [done|]. intros (-> & _). done. Qed.

Lemma avl_cnt_rep m par t : tree_rep m par t -> avl_cnt m (root t) = Some (tsize t).
Proof. destruct t; [done|]. intros (H & _). simpl. rewrite H. done. Qed.

Lemma max_Zmax a b : max a b = Z.max a b.
Proof. unfold max. destruct (Z.ltb_spec a b); lia. Qed.

Lemma avl_update_spec m i par l r h c q q' :
  m !! i = Some (mkAVLNode par (root l) (root r) h c) ->
  tree_rep m q l -> tree_rep m q' r -> tsize (Node l i r) < 2 ^ 32 ->
  avl_update m i =
    Some (<[i := mkAVLNode par (root l) (root r) (hgt (Node l i r)) (tsize (Node l i r))]> m).
Proof.
  intros Hi Hl Hr Hs. unfold avl_update. rewrite Hi. cbn.
  rewrite (avl_height_rep _ _ _ Hl), (avl_height_rep _ _ _ Hr). cbn.
  rewrite (avl_cnt_rep _ _ _ Hl), (avl_cnt_rep _ _ _ Hr). cbn.
  rewrite (store_upd_Some _ _ _ _ Hi). unfold with_height_cnt. cbn.
  rewrite max_Zmax. rewrite tsize_node in *.
  pose proof (hgt_le_tsize l). pose proof (hgt_le_tsize r).
  pose proof (hgt_nonneg l). pose proof (hgt_nonneg r).
  pose proof (tsize_nonneg l). pose proof (tsize_nonneg r).
  rewrite !u32_small; rewrite ?u32_small; try lia. done.
Qed.

Lemma set_parent_if_spec m q q' t :
  tree_rep m q t -> NoDup (inorder t) ->
  exists m', set_parent_if m (root t) q' = Some m' /\ tree_rep m' q' t /\
    (forall j, root t <> Some j -> m' !! j = m !! j).
Proof.
  destruct t as [|l i r]; [by exists m|]. intros (Hi & Hl & Hr) Hnd.
  simpl in Hnd. nodup_split.
  cbn [root set_parent_if]. rewrite (store_upd_Some _ _ _ _ Hi). eexists. split; [done|].
  split; [|intros j Hj; apply lookup_insert_ne; congruence].
  cbn [tree_rep]. rewrite lookup_insert_eq. split_and!; [done| |].
  - eapply tree_rep_frame, Hl. intros. apply lookup_insert_ne. set_solver.
  - eapply tree_rep_frame, Hr. intros. apply lookup_insert_ne. set_solver.
Qed.

(** ** Rotations *)

(** Store lookups through updates, by the disequalities in the context. *)
Ltac look := repeat first
  [ rewrite lookup_insert_eq | rewrite lookup_insert_ne by (congruence || nodes_solver) ].

(** A subtree is untouched by the updates of nodes outside it. *)
Ltac frame_tree H :=
  eapply tree_rep_frame, H; intros; look; try reflexivity.

Lemma rot_left_spec m i j par l rl rr h c h' c' :
  m !! i = Some (mkAVLNode par (root l) (Some j) h c) ->
  m !! j = Some (mkAVLNode (Some i) (root rl) (root rr) h' c') ->
  tree_rep m (Some i) l -> tree_rep m (Some j) rl -> tree_rep m (Some j) rr ->
  NoDup (inorder (Node l i (Node rl j rr))) -> tsize (Node l i (Node rl j rr)) < 2 ^ 32 ->
  exists m', rot_left m i = Some (m', j) /\
    tree_rep m' par (Node (Node l i rl) j rr) /\
    same_off (nodes (Node l i (Node rl j rr))) m m'.
Proof.
  intros Hi Hj Hl Hrl Hrr Hnd Hsz. simpl in Hnd. nodup_split.
  assert (i <> j) by nodes_solver.
  unfold rot_left. rewrite Hi. cbn. rewrite Hj. cbn.
  rewrite (store_upd_Some _ _ _ _ Hi). cbn.
  match goal with |- context [set_parent_if ?m1 _ _] =>
    destruct (set_parent_if_spec m1 (Some j) (Some i) rl) as (m2 & E & Hrl2 & Hoff); [|done|]
  end.
  { frame_tree Hrl. }
  rewrite E. cbn.
  assert (Hrli : root rl <> Some i) by (intros ?%root_in; nodes_solver).
  assert (Hrlj : root rl <> Some j) by (intros ?%root_in; nodes_solver).
  assert (Hi2 : m2 !! i = Some (mkAVLNode par (root l) (root rl) h c))
    by (rewrite Hoff; look; done).
  assert (Hj2 : m2 !! j = Some (mkAVLNode (Some i) (root rl) (root rr) h' c'))
    by (rewrite Hoff; look; done).
  assert (Hk : forall k, k ∉ inorder rl -> k <> i -> m2 !! k = m !! k).
  { intros k ? ?. rewrite Hoff; [look; done|]. intros ?%root_in. done. }
  rewrite (store_upd_Some _ _ _ _ Hj2). cbn.
  erewrite store_upd_Some by (look; done). cbn.
  erewrite store_upd_Some by (look; done). cbn.
  rewrite !tsize_node in Hsz.
  pose proof (tsize_nonneg l). pose proof (tsize_nonneg rl). pose proof (tsize_nonneg rr).
  erewrite (avl_update_spec _ i (Some j) l rl);
    [|look; done|frame_tree Hl; apply Hk; nodes_solver|frame_tree Hrl2|rewrite tsize_node; lia].
  cbn [mbind option_bind].
  erewrite (avl_update_spec _ j par (Node l i rl) rr);
    [|look; done| |frame_tree Hrr; apply Hk; nodes_solver|rewrite !tsize_node; lia].
  2: { split_and!; [look; done|frame_tree Hl; apply Hk; nodes_solver|frame_tree Hrl2]. }
  cbn [mbind option_bind]. eexists. split; [done|]. split.
  - cbn [tree_rep]. look. split_and!; try done.
    + frame_tree Hl. apply Hk; nodes_solver.
    + frame_tree Hrl2.
    + frame_tree Hrr. apply Hk; nodes_solver.
  - intros k Hk'. look. apply Hk; nodes_solver.
Qed.

Lemma rot_right_spec m i j par ll lr r h c h' c' :
  m !! i = Some (mkAVLNode par (Some j) (root r) h c) ->
  m !! j = Some (mkAVLNode (Some i) (root ll) (root lr) h' c') ->
  tree_rep m (Some j) ll -> tree_rep m (Some j) lr -> tree_rep m (Some i) r ->
  NoDup (inorder (Node (Node ll j lr) i r)) -> tsize (Node (Node ll j lr) i r) < 2 ^ 32 ->
  exists m', rot_right m i = Some (m', j) /\
    tree_rep m' par (Node ll j (Node lr i r)) /\
    same_off (nodes (Node (Node ll j lr) i r)) m m'.
Proof.
  intros Hi Hj Hll Hlr Hr Hnd Hsz. simpl in Hnd. nodup_split.
  assert (i <> j) by nodes_solver.
  unfold rot_right. rewrite Hi. cbn. rewrite Hj. cbn.
  rewrite (store_upd_Some _ _ _ _ Hi). cbn.
  match goal with |- context [set_parent_if ?m1 _ _] =>
    destruct (set_parent_if_spec m1 (Some j) (Some i) lr) as (m2 & E & Hlr2 & Hoff); [|done|]
  end.
  { frame_tree Hlr. }
  rewrite E. cbn.
  assert (Hlri : root lr <> Some i) by (intros ?%root_in; nodes_solver).
  assert (Hlrj : root lr <> Some j) by (intros ?%root_in; nodes_solver).
  assert (Hi2 : m2 !! i = Some (mkAVLNode par (root lr) (root r) h c))
    by (rewrite Hoff; look; done).
  assert (Hj2 : m2 !! j = Some (mkAVLNode (Some i) (root ll) (root lr) h' c'))
    by (rewrite Hoff; look; done).
  assert (Hk : forall k, k ∉ inorder lr -> k <> i -> m2 !! k = m !! k).
  { intros k ? ?. rewrite Hoff; [look; done|]. intros ?%root_in. done. }
  rewrite (store_upd_Some _ _ _ _ Hj2). cbn.
  erewrite store_upd_Some by (look; done). cbn.
  erewrite store_upd_Some by (look; done). cbn.
  rewrite !tsize_node in Hsz.
  pose proof (tsize_nonneg ll). pose proof (tsize_nonneg lr). pose proof (tsize_nonneg r).
  erewrite (avl_update_spec _ i (Some j) lr r);
    [|look; done|frame_tree Hlr2|frame_tree Hr; apply Hk; nodes_solver|rewrite tsize_node; lia].
  cbn [mbind option_bind].
  erewrite (avl_update_spec _ j par ll (Node lr i r));
    [|look; done|frame_tree Hll; apply Hk; nodes_solver| |rewrite !tsize_node; lia].
  2: { split_and!; [look; done|frame_tree Hlr2|frame_tree Hr; apply Hk; nodes_solver]. }
  cbn [mbind option_bind]. eexists. split; [done|]. split.
  - cbn [tree_rep]. look. split_and!; try done.
    + frame_tree Hll. apply Hk; nodes_solver.
    + frame_tree Hlr2.
    + frame_tree Hr. apply Hk; nodes_solver.
  - intros k Hk'. look. apply Hk; nodes_solver.
Qed.

(** ** Rebalancing one node *)

Lemma nodes_inorder t t' : inorder t = inorder t' -> nodes t = nodes t'.
Proof. unfold nodes. by intros ->. Qed.

Lemma avl_fix_left_spec m i par l r h c :
  m !! i = Some (mkAVLNode par (root l) (root r) h c) ->
  tree_rep m (Some i) l -> tree_rep m (Some i) r ->
  NoDup (inorder (Node l i r)) -> tsize (Node l i r) < 2 ^ 32 ->
  0 < hgt l ->
  exists m' x, avl_fix_left m i = Some (m', x) /\
    root (bal_left (Node l i r)) = Some x /\
    tree_rep m' par (bal_left (Node l i r)) /\ same_off (nodes (Node l i r)) m m'.
Proof.
  intros Hi Hl Hr Hnd Hsz Hh. destruct l as [|ll j lr]; [simpl in Hh; lia|].
  destruct Hl as (Hj & Hll & Hlr). unfold avl_fix_left.
  rewrite Hi. cbn. rewrite Hj. cbn.
  rewrite (avl_height_rep _ _ _ Hll), (avl_height_rep _ _ _ Hlr). cbn.
  destruct (Z.ltb_spec (hgt ll) (hgt lr)) as [Hlt|Hge]; cbn.
  - (* Transformation 2 first *)
    destruct (hgt_pos_node lr) as (lrl & k & lrr & ->); [pose proof (hgt_nonneg ll); lia|].
    destruct Hlr as (Hk & Hlrl & Hlrr).
    assert (Hnd' : NoDup (inorder (Node ll j (Node lrl k lrr)))) by (cbn in *; by apply NoDup_app in Hnd as (? & _)).
    rewrite tsize_node in Hsz. pose proof (tsize_nonneg r).
    destruct (rot_left_spec m j k (Some i) ll lrl lrr _ _ _ _ Hj Hk Hll Hlrl Hlrr Hnd' ltac:(lia))
      as (m1 & E1 & Ht1 & Hoff1).
    rewrite E1. cbn. pose proof Hnd as Hnd0. simpl in Hnd, Hnd'. nodup_split.
    erewrite store_upd_Some by (rewrite (same_off_lookup _ _ _ _ Hoff1); [exact Hi|nodes_solver]). cbn.
    destruct Ht1 as (Hk1 & (Hj1 & Hll1 & Hlrl1) & Hlrr1).
    match goal with |- context [rot_right ?m2 _] =>
      destruct (rot_right_spec m2 i k par (Node ll j lrl) lrr r h c
        (hgt (Node (Node ll j lrl) k lrr)) (tsize (Node (Node ll j lrl) k lrr)))
        as (m' & E & Ht & Hoff) end.
    + look. done.
    + look. exact Hk1.
    + cbn [tree_rep]. look. split_and!; [done|frame_tree Hll1|frame_tree Hlrl1].
    + frame_tree Hlrr1.
    + frame_tree Hr. apply Hoff1. nodes_solver.
    + revert Hnd0. reassoc. done.
    + rewrite !tsize_node in *. lia.
    + exists m', k. split; [done|]. split; [done|]. split; [exact Ht|].
      intros p Hp. rewrite (same_off_lookup _ _ _ _ Hoff), lookup_insert_ne,
        (same_off_lookup _ _ _ _ Hoff1); [done|nodes_solver..].
  - destruct (rot_right_spec m i j par ll lr r _ _ _ _ Hi Hj Hll Hlr Hr Hnd Hsz)
      as (m' & E & Ht & Hoff).
    exists m', j. done.
Qed.

Lemma avl_fix_right_spec m i par l r h c :
  m !! i = Some (mkAVLNode par (root l) (root r) h c) ->
  tree_rep m (Some i) l -> tree_rep m (Some i) r ->
  NoDup (inorder (Node l i r)) -> tsize (Node l i r) < 2 ^ 32 ->
  0 < hgt r ->
  exists m' x, avl_fix_right m i = Some (m', x) /\
    root (bal_right (Node l i r)) = Some x /\
    tree_rep m' par (bal_right (Node l i r)) /\ same_off (nodes (Node l i r)) m m'.
Proof.
  intros Hi Hl Hr Hnd Hsz Hh. destruct r as [|rl j rr]; [simpl in Hh; lia|].
  destruct Hr as (Hj & Hrl & Hrr). unfold avl_fix_right.
  rewrite Hi. cbn. rewrite Hj. cbn.
  rewrite (avl_height_rep _ _ _ Hrl), (avl_height_rep _ _ _ Hrr). cbn.
  destruct (Z.ltb_spec (hgt rr) (hgt rl)) as [Hlt|Hge]; cbn.
  - destruct (hgt_pos_node rl) as (rll & k & rlr & ->); [pose proof (hgt_nonneg rr); lia|].
    destruct Hrl as (Hk & Hrll & Hrlr).
    assert (Hnd' : NoDup (inorder (Node (Node rll k rlr) j rr)))
      by (cbn in *; by apply NoDup_app in Hnd as (_ & _ & ?%NoDup_cons_1_2)).
    rewrite tsize_node in Hsz. pose proof (tsize_nonneg l).
    destruct (rot_right_spec m j k (Some i) rll rlr rr _ _ _ _ Hj Hk Hrll Hrlr Hrr Hnd' ltac:(lia))
      as (m1 & E1 & Ht1 & Hoff1).
    rewrite E1. cbn. pose proof Hnd as Hnd0. simpl in Hnd, Hnd'. nodup_split.
    erewrite store_upd_Some by (rewrite (same_off_lookup _ _ _ _ Hoff1); [exact Hi|nodes_solver]). cbn.
    destruct Ht1 as (Hk1 & Hrll1 & (Hj1 & Hrlr1 & Hrr1)).
    match goal with |- context [rot_left ?m2 _] =>
      destruct (rot_left_spec m2 i k par l rll (Node rlr j rr) h c
        (hgt (Node rll k (Node rlr j rr))) (tsize (Node rll k (Node rlr j rr))))
        as (m' & E & Ht & Hoff) end.
    + look. done.
    + look. exact Hk1.
    + frame_tree Hl. apply Hoff1. nodes_solver.
    + frame_tree Hrll1.
    + cbn [tree_rep]. look. split_and!; [done|frame_tree Hrlr1|frame_tree Hrr1].
    + revert Hnd0. reassoc. done.
    + rewrite !tsize_node in *. lia.
    + exists m', k. split; [done|]. split; [done|]. split; [exact Ht|].
      intros p Hp. rewrite (same_off_lookup _ _ _ _ Hoff), lookup_insert_ne,
        (same_off_lookup _ _ _ _ Hoff1); [done|nodes_solver..].
  - destruct (rot_left_spec m i j par l rl rr _ _ _ _ Hi Hj Hl Hrl Hrr Hnd Hsz)
      as (m' & E & Ht & Hoff).
    exists m', j. done.
Qed.

(** ** One iteration of avl_fix *)

(** The location of the frame that holds the subtree in the hole. *)
Definition frame_slot (f : frame) : aloc :=
  match f with InL i _ => ALeft i | InR _ i => ARight i end.

Lemma child_slot_spec m f c i :
  ctx_rep m (f :: c) (Some i) -> i ∉ before (f :: c) ++ after (f :: c) ->
  child_slot m (fnode f) i = Some (frame_slot f).
Proof.
  intros (Hf & _) Hi. unfold child_slot.
  destruct f as [j r|l j]; destruct Hf as ((h & n & Hj) & _); simpl; rewrite Hj; cbn.
  - by rewrite decide_True.
  - rewrite decide_False; [done|]. intros ?%root_in. apply Hi. simpl. set_solver.
Qed.

(** Storing a new subtree root in its slot. *)
Lemma aloc_store_frame m f c hole x local :
  ctx_rep m (f :: c) hole -> NoDup (before (f :: c) ++ after (f :: c)) ->
  exists m', aloc_store m local (frame_slot f) x = Some (m', local) /\
    ctx_rep m' (f :: c) x /\ same_off {[fnode f]} m m'.
Proof.
  intros (Hf & Hc) Hnd.
  assert (Hfr : forall n, ctx_rep (<[fnode f := n]> m) c (Some (fnode f))).
  { intros n. eapply ctx_rep_frame, Hc. intros j Hj. apply lookup_insert_ne.
    destruct f; cbn [before after fnode] in *; nodup_split; nodes_solver. }
  destruct f as [j r|l j]; cbn [before after fnode ctx_rep] in *; destruct Hf as ((h & n & Hj) & Ht);
    nodup_split; cbn [frame_slot aloc_store];
    rewrite (store_upd_Some _ _ _ _ Hj); eexists; (split; [done|]);
    (split; [|auto with redis]); (split; [|apply Hfr]);
    (split; [by do 2 eexists; rewrite lookup_insert_eq|frame_tree Ht]).
Qed.

Lemma aloc_store_same m f c i :
  ctx_rep m (f :: c) (Some i) ->
  aloc_store m (Some i) (frame_slot f) (Some i) = Some (m, Some i).
Proof.
  intros (Hf & _). destruct f; destruct Hf as ((h & n & Hj) & _); simpl;
    rewrite (store_upd_Some _ _ _ _ Hj); simpl; by rewrite insert_id.
Qed.

Lemma avl_update_rep m i par l r :
  linked m i par (root l) (root r) -> tree_rep m (Some i) l -> tree_rep m (Some i) r ->
  NoDup (inorder (Node l i r)) -> tsize (Node l i r) < 2 ^ 32 ->
  exists m', avl_update m i = Some m' /\ tree_rep m' par (Node l i r) /\
    same_off {[i]} m m'.
Proof.
  intros (h & c & Hi) Hl Hr Hnd Hsz.
  rewrite (avl_update_spec _ _ _ _ _ _ _ _ _ Hi Hl Hr Hsz).
  cbn [inorder] in Hnd. nodup_split. eexists. split; [done|].
  split; [|auto with redis].
  cbn [tree_rep]. split_and!; [look; done|frame_tree Hl|frame_tree Hr].
Qed.

(** The branches on the height difference store the balanced subtree. *)
Lemma rebalance_spec m par l i r from :
  tree_rep m par (Node l i r) -> NoDup (inorder (Node l i r)) ->
  tsize (Node l i r) < 2 ^ 32 - 1 ->
  aloc_store m (Some i) from (Some i) = Some (m, Some i) ->
  exists m' x, root (balance (Node l i r)) = Some x /\
    tree_rep m' par (balance (Node l i r)) /\ same_off (nodes (Node l i r)) m m' /\
    (if hgt l =? u32 (hgt r + 2) then
       '(m, x) ← avl_fix_left m i; aloc_store m (Some i) from (Some x)
     else if u32 (hgt l + 2) =? hgt r then
       '(m, x) ← avl_fix_right m i; aloc_store m (Some i) from (Some x)
     else Some (m, Some i)) = aloc_store m' (Some i) from (Some x).
Proof.
  intros (Hi & Hl & Hr) Hnd Hsz Hfrom.
  pose proof (hgt_nonneg l). pose proof (hgt_nonneg r).
  pose proof (hgt_le_tsize l). pose proof (hgt_le_tsize r).
  pose proof Hsz as Hsz'. rewrite tsize_node in Hsz'.
  rewrite !u32_small by lia. unfold balance.
  destruct (Z.eqb_spec (hgt l) (hgt r + 2)) as [E|E];
    [|destruct (Z.eqb_spec (hgt l + 2) (hgt r)) as [E'|E']].
  - destruct (avl_fix_left_spec _ _ _ _ _ _ _ Hi Hl Hr Hnd) as (m' & x & Ex & Hx & Ht & Ho); [lia..|].
    exists m', x. by rewrite Ex.
  - destruct (avl_fix_right_spec _ _ _ _ _ _ _ Hi Hl Hr Hnd) as (m' & x & Ex & Hx & Ht & Ho); [lia..|].
    exists m', x. by rewrite Ex.
  - exists m, i. by rewrite Hfrom.
Qed.

Lemma NoDup_plug_parts c t :
  NoDup (before c ++ inorder t ++ after c) ->
  NoDup (inorder t) /\ NoDup (before c ++ after c) /\
  (forall i, i ∈ inorder t -> i ∉ before c ++ after c).
Proof.
  intros H. apply NoDup_app in H as (Hb & Hba & H). apply NoDup_app in H as (Ht & Hta & Ha).
  rewrite NoDup_app. split_and!; try done; [|set_solver]. intros x Hx Hx'. apply (Hba x); set_solver.
Qed.

Lemma avl_fix_step_root m i l r :
  linked m i None (root l) (root r) -> tree_rep m (Some i) l -> tree_rep m (Some i) r ->
  NoDup (inorder (Node l i r)) -> tsize (Node l i r) < 2 ^ 32 - 1 ->
  exists m', avl_fix_step m i = Some (m', inr (root (balance (Node l i r)))) /\
    tree_rep m' None (balance (Node l i r)) /\ same_off (nodes (Node l i r)) m m'.
Proof.
  intros Hi Hl Hr Hnd Hsz.
  destruct (avl_update_rep m i None l r) as (m1 & E1 & Ht1 & Ho1); [done..|lia|].
  destruct (rebalance_spec m1 None l i r ALocal) as (m' & x & Hx & Ht & Ho & E); [done..|].
  exists m'. destruct Hi as (h & c & Hi). destruct Ht1 as (Hi1 & Hl1 & Hr1).
  unfold avl_fix_step. rewrite Hi. cbn [mbind option_bind parent].
  rewrite E1. cbn [mbind option_bind]. rewrite Hi1. cbn [mbind option_bind left right].
  rewrite (avl_height_rep _ _ _ Hl1), (avl_height_rep _ _ _ Hr1). cbn [mbind option_bind].
  rewrite E. rewrite Hx. cbn. split_and!; [done..|].
  transitivity m1; [|done].
  eapply same_off_weaken, Ho1. rewrite nodes_node. set_solver.
Qed.

Lemma avl_fix_step_ctx m f c i l r :
  linked m i (Some (fnode f)) (root l) (root r) ->
  tree_rep m (Some i) l -> tree_rep m (Some i) r -> ctx_rep m (f :: c) (Some i) ->
  NoDup (before (f :: c) ++ inorder (Node l i r) ++ after (f :: c)) ->
  tsize (Node l i r) < 2 ^ 32 - 1 ->
  exists m', avl_fix_step m i = Some (m', inl (fnode f)) /\
    tree_rep m' (Some (fnode f)) (balance (Node l i r)) /\
    ctx_rep m' (f :: c) (root (balance (Node l i r))) /\
    same_off (nodes (Node l i r) ∪ {[fnode f]}) m m'.
Proof.
  intros Hi Hl Hr Hc Hnd Hsz. apply NoDup_plug_parts in Hnd as (Hndt & Hndc & Hdisj).
  assert (Hslot : child_slot m (fnode f) i = Some (frame_slot f)).
  { apply (child_slot_spec _ _ c); [done|]. apply Hdisj. simpl. set_solver. }
  destruct (avl_update_rep m i (Some (fnode f)) l r) as (m1 & E1 & Ht1 & Ho1); [done..|lia|].
  assert (Hc1 : ctx_rep m1 (f :: c) (Some i)).
  { eapply ctx_rep_frame, Hc. intros j Hj. apply Ho1. rewrite elem_of_singleton.
    intros ->. apply (Hdisj i); [simpl; set_solver|done]. }
  destruct (rebalance_spec m1 (Some (fnode f)) l i r (frame_slot f))
    as (m2 & x & Hx & Ht & Ho & E); [done..|by eapply aloc_store_same|].
  assert (Hc2 : ctx_rep m2 (f :: c) (Some i)).
  { eapply ctx_rep_frame, Hc1. intros j Hj. apply Ho. rewrite elem_of_nodes.
    intros Hj'. by apply (Hdisj j). }
  destruct (aloc_store_frame m2 f c (Some i) (Some x) (Some i) Hc2 Hndc) as (m' & Es & Hc' & Ho').
  exists m'. destruct Hi as (h & n & Hi). destruct Ht1 as (Hi1 & Hl1 & Hr1).
  unfold avl_fix_step. rewrite Hi. cbn [mbind option_bind parent]. rewrite Hslot. cbn [mbind option_bind].
  rewrite E1. cbn [mbind option_bind]. rewrite Hi1. cbn [mbind option_bind left right].
  rewrite (avl_height_rep _ _ _ Hl1), (avl_height_rep _ _ _ Hr1). cbn [mbind option_bind].
  rewrite E, Es, Hx. cbn [mbind option_bind]. split; [done|]. split; [|split; [done|]].
  - eapply tree_rep_frame, Ht. intros j Hj. apply Ho'. rewrite elem_of_singleton. intros ->.
    rewrite inorder_balance in Hj. apply (Hdisj _ Hj). destruct f; simpl; set_solver.
  - transitivity m1; [|transitivity m2].
    + eapply same_off_weaken, Ho1. rewrite nodes_node. set_solver.
    + eapply same_off_weaken, Ho. set_solver.
    + eapply same_off_weaken, Ho'. set_solver.
Qed.

(** ** avl_fix *)

Lemma avl_fix_loop_spec c m i l r fuel :
  linked m i (ctx_par c) (root l) (root r) ->
  tree_rep m (Some i) l -> tree_rep m (Some i) r -> ctx_rep m c (Some i) ->
  NoDup (before c ++ inorder (Node l i r) ++ after c) ->
  tsize (plug c (Node l i r)) < 2 ^ 32 - 1 -> (length c < fuel)%nat ->
  exists m', avl_fix_loop fuel m i = Some (m', root (fix_up c (Node l i r))) /\
    tree_rep m' None (fix_up c (Node l i r)) /\
    same_off (nodes (plug c (Node l i r))) m m'.
Proof.
  revert m i l r fuel. induction c as [|f c IH]; intros m i l r fuel Hi Hl Hr Hc Hnd Hsz Hfuel;
    (destruct fuel as [|fuel]; [simpl in Hfuel; lia|]); cbn [avl_fix_loop].
  - simpl in Hnd. rewrite app_nil_r in Hnd.
    destruct (avl_fix_step_root m i l r) as (m' & E & Ht & Ho); [done..|].
    rewrite E. cbn. by exists m'.
  - assert (tsize (Node l i r) <= tsize (plug (f :: c) (Node l i r))).
    { unfold tsize. rewrite inorder_plug, !length_app. lia. }
    destruct (avl_fix_step_ctx m f c i l r) as (m1 & E & Ht & Hc1 & Ho); [done..|lia|].
    rewrite E. cbn [mbind option_bind].
    destruct Hc1 as (Hf & Hc1).
    assert (Hperm : before c ++ inorder (fill f (balance (Node l i r))) ++ after c =
      before (f :: c) ++ inorder (Node l i r) ++ after (f :: c)).
    { rewrite <- !inorder_plug. cbn [plug]. rewrite !inorder_plug, !inorder_fill.
      by rewrite inorder_balance. }
    assert (Hsize : tsize (plug c (fill f (balance (Node l i r)))) = tsize (plug (f :: c) (Node l i r))).
    { unfold tsize. rewrite !inorder_plug. by rewrite Hperm. }
    simpl in Hfuel. cbn [fix_up]. fold (fix_up c).
    assert (Hn : nodes (plug c (fill f (balance (Node l i r)))) = nodes (plug (f :: c) (Node l i r))).
    { apply nodes_inorder. rewrite !inorder_plug. by rewrite Hperm. }
    destruct f as [j u|u j]; destruct Hf as (Hj & Hu); cbn [fill fnode] in *.
    + destruct (IH m1 j (balance (Node l i r)) u fuel) as (m' & E' & Ht' & Ho');
        [done..|by rewrite Hperm|lia|lia|].
      exists m'. split_and!; [done..|]. transitivity m1; [|by rewrite <- Hn].
      eapply same_off_weaken, Ho. intros k. rewrite elem_of_union, elem_of_singleton, !elem_of_nodes.
      rewrite inorder_plug. simpl. set_solver.
    + destruct (IH m1 j u (balance (Node l i r)) fuel) as (m' & E' & Ht' & Ho');
        [done..|by rewrite Hperm|lia|lia|].
      exists m'. split_and!; [done..|]. transitivity m1; [|by rewrite <- Hn].
      eapply same_off_weaken, Ho. intros k. rewrite elem_of_union, elem_of_singleton, !elem_of_nodes.
      rewrite inorder_plug. simpl. set_solver.
Qed.

(** A list of distinct nodes of the store is no longer than the store. *)
Lemma ctx_length c : (length c <= length (before c ++ after c))%nat.
Proof.
  induction c as [|f c IH]; [done|]. rewrite length_app in *.
  destruct f; simpl; rewrite ?length_app; simpl; rewrite ?length_app; lia.
Qed.

Lemma ctx_length_le m c hole :
  ctx_rep m c hole -> NoDup (before c ++ after c) -> (length c <= size m)%nat.
Proof.
  intros Hc Hnd. etransitivity; [apply ctx_length|].
  apply nodes_length_le; [done|]. intros i. by apply (ctx_rep_dom _ _ hole).
Qed.

Lemma avl_fix_spec c m i l r :
  linked m i (ctx_par c) (root l) (root r) ->
  tree_rep m (Some i) l -> tree_rep m (Some i) r -> ctx_rep m c (Some i) ->
  NoDup (before c ++ inorder (Node l i r) ++ after c) ->
  tsize (plug c (Node l i r)) < 2 ^ 32 - 1 ->
  exists m', avl_fix m i = Some (m', root (fix_up c (Node l i r))) /\
    tree_rep m' None (fix_up c (Node l i r)) /\
    same_off (nodes (plug c (Node l i r))) m m'.
Proof.
  intros Hi Hl Hr Hc Hnd Hsz. apply avl_fix_loop_spec; try done.
  apply NoDup_plug_parts in Hnd as (_ & Hnd & _). pose proof (ctx_length_le _ _ _ Hc Hnd). lia.
Qed.

(** ** Contexts with exact heights and counts *)

Fixpoint ctx_exact (m : amem) (c : list frame) (t : tree) : Prop :=
  match c with
  | [] => True
  | f :: c =>
      match f with
      | InL i r =>
          m !! i = Some (mkAVLNode (ctx_par c) (root t) (root r) (hgt (fill f t)) (tsize (fill f t)))
          /\ tree_rep m (Some i) r
      | InR l i =>
          m !! i = Some (mkAVLNode (ctx_par c) (root l) (root t) (hgt (fill f t)) (tsize (fill f t)))
          /\ tree_rep m (Some i) l
      end /\ ctx_exact m c (fill f t)
  end.

Lemma tree_rep_plug m c t :
  tree_rep m None (plug c t) <-> tree_rep m (ctx_par c) t /\ ctx_exact m c t.
Proof.
  revert t. induction c as [|f c IH]; intros t; [simpl; tauto|].
  cbn [plug ctx_par ctx_exact]. rewrite IH.
  destruct f as [i r|l i]; cbn [fill tree_rep fnode]; tauto.
Qed.

Lemma ctx_exact_rep m c t : ctx_exact m c t -> ctx_rep m c (root t).
Proof.
  revert t. induction c as [|f c IH]; intros t; [done|]. cbn [ctx_exact ctx_rep].
  intros (Hf & Hc). split; [|by destruct f; apply (IH _ Hc)].
  destruct f; destruct Hf as (Hi & Ht); (split; [by do 2 eexists|done]).
Qed.

Lemma ctx_exact_frame m m' c t :
  (forall j, j ∈ before c ++ after c -> m' !! j = m !! j) ->
  ctx_exact m c t -> ctx_exact m' c t.
Proof.
  revert t. induction c as [|f c IH]; intros t Hm; [done|].
  cbn [ctx_exact]. intros (Hf & Hc). split.
  - destruct f as [i r|l i]; destruct Hf as (Hi & Ht); (split;
      [rewrite Hm; [done|simpl; set_solver]
      |eapply tree_rep_frame, Ht; intros; apply Hm; simpl; set_solver]).
  - apply IH; [|done]. intros j Hj. apply Hm. destruct f; simpl; set_solver.
Qed.

(** The context only sees the root, the height and the size of the hole. *)
Lemma ctx_exact_same m c t t' :
  root t = root t' -> hgt t = hgt t' -> tsize t = tsize t' ->
  ctx_exact m c t -> ctx_exact m c t'.
Proof.
  revert t t'. induction c as [|f c IH]; intros t t' Hr Hh Hs; [done|].
  assert (Hf : root (fill f t) = root (fill f t') /\ hgt (fill f t) = hgt (fill f t') /\
    tsize (fill f t) = tsize (fill f t')).
  { destruct f; cbn [fill]; rewrite !tsize_node; cbn [hgt root]; split_and!; congruence. }
  destruct Hf as (Hfr & Hfh & Hfs). cbn [ctx_exact]. rewrite Hr, Hfh, Hfs.
  intros (? & Hc). split; [done|]. by apply (IH _ _ Hfr Hfh Hfs).
Qed.

Lemma aloc_store_exact m f c t t' local :
  hgt t = hgt t' -> tsize t = tsize t' ->
  ctx_exact m (f :: c) t -> NoDup (before (f :: c) ++ after (f :: c)) ->
  exists m', aloc_store m local (frame_slot f) (root t') = Some (m', local) /\
    ctx_exact m' (f :: c) t' /\ same_off {[fnode f]} m m'.
Proof.
  intros Hh Hs (Hf & Hc) Hnd.
  assert (Hff : root (fill f t) = root (fill f t') /\ hgt (fill f t) = hgt (fill f t') /\
    tsize (fill f t) = tsize (fill f t')).
  { destruct f; cbn [fill]; rewrite !tsize_node; cbn [hgt root]; split_and!; congruence. }
  destruct Hff as (Hfr & Hfh & Hfs).
  apply (ctx_exact_same _ _ _ _ Hfr Hfh Hfs) in Hc.
  assert (Hfc : forall n, ctx_exact (<[fnode f := n]> m) c (fill f t')).
  { intros n. eapply ctx_exact_frame, Hc. intros j Hj. apply lookup_insert_ne.
    destruct f; cbn [before after fnode] in *; nodup_split; nodes_solver. }
  cbn [ctx_exact]. rewrite <- Hfh, <- Hfs.
  destruct f as [j r|l j]; cbn [before after fnode] in *; destruct Hf as (Hj & Ht);
    nodup_split; cbn [frame_slot aloc_store];
    rewrite (store_upd_Some _ _ _ _ Hj); eexists; (split; [done|]);
    (split; [|auto with redis]); (split; [|apply Hfc]);
    (split; [by rewrite lookup_insert_eq|frame_tree Ht]).
Qed.

Lemma root_plug c t t' : root t = root t' -> root (plug c t) = root (plug c t').
Proof.
  revert t t'. induction c as [|f c IH]; intros t t' H; [done|]. simpl. apply IH. by destruct f.
Qed.

(** ** Deletion *)

(** [avl_fix] from the parent of a subtree that replaced another. *)
Lemma avl_fix_ctx_spec m f c t :
  tree_rep m (Some (fnode f)) t -> ctx_rep m (f :: c) (root t) ->
  NoDup (before (f :: c) ++ inorder t ++ after (f :: c)) ->
  tsize (plug (f :: c) t) < 2 ^ 32 - 1 ->
  exists m', avl_fix m (fnode f) = Some (m', root (fix_ctx (f :: c) t)) /\
    tree_rep m' None (fix_ctx (f :: c) t) /\ same_off (nodes (plug (f :: c) t)) m m'.
Proof.
  intros Ht (Hf & Hc) Hnd Hsz. cbn [fix_ctx plug] in *.
  assert (Heq : before (f :: c) ++ inorder t ++ after (f :: c) =
    before c ++ inorder (fill f t) ++ after c).
  { rewrite <- !inorder_plug. done. }
  rewrite Heq in Hnd. destruct f as [i r|l i]; destruct Hf as (Hi & Hu); cbn [fill fnode] in *;
    by apply avl_fix_spec.
Qed.

(** Removing a node from its place keeps the others distinct. *)
Lemma NoDup_drop_node (a x y b : list ptr) i :
  NoDup (a ++ (x ++ i :: y) ++ b) -> NoDup (a ++ (x ++ y) ++ b).
Proof.
  assert (a ++ (x ++ i :: y) ++ b ≡ₚ i :: a ++ (x ++ y) ++ b) as -> by solve_Permutation.
  by intros (_ & ?)%NoDup_cons.
Qed.

Lemma elem_of_plug j c t :
  j ∈ nodes (plug c t) <-> j ∈ before c ++ after c \/ j ∈ inorder t.
Proof. rewrite elem_of_nodes, inorder_plug, !elem_of_app. tauto. Qed.

Lemma fnode_in_ctx f c : fnode f ∈ before (f :: c) ++ after (f :: c).
Proof. rewrite elem_of_app. destruct f; simpl; rewrite ?elem_of_app, ?elem_of_cons; tauto. Qed.

Lemma elem_of_inorder_node j l i r :
  j ∈ inorder (Node l i r) <-> j ∈ inorder l ++ inorder r \/ j = i.
Proof. cbn [inorder]. rewrite !elem_of_app, elem_of_cons. tauto. Qed.

Lemma avl_del_easy_spec m c l i r t :
  tree_rep m None (plug c (Node l i r)) ->
  NoDup (inorder (plug c (Node l i r))) -> tsize (plug c (Node l i r)) < 2 ^ 32 - 1 ->
  (l = Leaf /\ t = r) \/ (l <> Leaf /\ r = Leaf /\ t = l) ->
  exists m', avl_del_easy m i = Some (m', root (fix_ctx c t)) /\
    tree_rep m' None (fix_ctx c t) /\ same_off (nodes (plug c (Node l i r))) m m'.
Proof.
  intros Hrep Hnd Hsz Hlr. apply tree_rep_plug in Hrep as ((Hi & Hl & Hr) & Hc).
  rewrite inorder_plug in Hnd. pose proof (NoDup_plug_parts _ _ Hnd) as (Hndt & Hndc & Hdisj).
  assert (Hin : inorder l ++ inorder r = inorder t).
  { destruct Hlr as [(-> & ->)|(_ & -> & ->)]; [done|]. by rewrite app_nil_r. }
  assert (Hchild : match root l with Some l0 => Some l0 | None => root r end = root t /\
    tree_rep m (Some i) t /\ (root l = None \/ root r = None)).
  { destruct Hlr as [(-> & ->)|(? & -> & ->)]; [by auto|]. destruct l; by auto. }
  destruct Hchild as (Hchild & Ht & Hassert).
  assert (Hndtt : NoDup (before c ++ inorder t ++ after c)) by (rewrite <- Hin; by eapply NoDup_drop_node).
  assert (Hsize : tsize (plug c t) <= tsize (plug c (Node l i r))).
  { unfold tsize. rewrite !inorder_plug, <- Hin. cbn [inorder].
    rewrite !length_app; simpl. rewrite ?length_app; simpl. lia. }
  assert (Hsub : forall j, j ∈ inorder t -> j ∈ inorder (Node l i r))
    by (intros j; rewrite elem_of_inorder_node, Hin; tauto).
  clear Hin Hr Hl Hlr.
  destruct (set_parent_if_spec m _ (ctx_par c) t Ht) as (m1 & E1 & Ht1 & Ho1);
    [by apply NoDup_plug_parts in Hndtt as (? & _)|].
  assert (Ho1' : same_off (nodes t) m m1).
  { intros j Hj. apply Ho1. intros ?%root_in. by rewrite elem_of_nodes in Hj. }
  unfold avl_del_easy. rewrite Hi. cbn [mbind option_bind left right parent].
  rewrite option_guard_True by done. cbn [mbind option_bind]. rewrite Hchild, E1.
  cbn [mbind option_bind].
  destruct c as [|f c]; cbn [ctx_par].
  { exists m1. split_and!; [done..|]. eapply same_off_weaken, Ho1'. intros j.
    rewrite !elem_of_nodes. apply Hsub. }
  apply ctx_exact_rep in Hc. cbn [root] in Hc.
  assert (Hc1 : ctx_rep m1 (f :: c) (Some i)).
  { eapply ctx_rep_frame, Hc. intros j Hj. apply Ho1'. rewrite elem_of_nodes.
    intros Hj'. by apply (Hdisj j); [apply Hsub|]. }
  rewrite (child_slot_spec _ _ _ _ Hc1) by (apply Hdisj, elem_of_inorder_node; by right).
  cbn [mbind option_bind].
  destruct (aloc_store_frame m1 f c (Some i) (root t) None Hc1 Hndc) as (m2 & E2 & Hc2 & Ho2).
  rewrite E2. cbn [mbind option_bind].
  destruct (avl_fix_ctx_spec m2 f c t) as (m' & E' & Ht' & Ho'); [|done|done|lia|].
  { eapply tree_rep_frame, Ht1. intros j Hj. apply Ho2. rewrite elem_of_singleton. intros ->.
    apply (Hdisj (fnode f)); [eauto|apply fnode_in_ctx]. }
  exists m'. split_and!; [done..|]. transitivity m1; [|transitivity m2].
  - eapply same_off_weaken, Ho1'. intros j. rewrite elem_of_nodes, elem_of_plug. eauto.
  - eapply same_off_weaken, Ho2. intros j. rewrite elem_of_singleton, elem_of_plug. intros ->.
    left. apply fnode_in_ctx.
  - eapply same_off_weaken, Ho'. intros j. rewrite !elem_of_plug. naive_solver.
Qed.

Lemma leftmost_loop_spec t : forall m par c c' v vr i fuel,
  tree_rep m par t -> root t = Some i -> min_ctx t c = Some (c', v, vr) ->
  (length (inorder t) <= fuel)%nat -> leftmost_loop fuel m i = Some v.
Proof.
  induction t as [|l IHl j r IHr]; intros m par c c' v vr i fuel; [done|].
  intros (Hj & Hl & _) [= <-] Hmin Hfuel. cbn [inorder] in Hfuel. rewrite length_app in Hfuel.
  cbn [length] in Hfuel. destruct fuel as [|fuel]; [lia|].
  cbn [leftmost_loop]. rewrite Hj. cbn [mbind option_bind left].
  destruct l as [|ll li lr]; [by injection Hmin as <- <- <-|].
  set (l := Node ll li lr) in *. cbn [root]. cbn [min_ctx] in Hmin.
  destruct (min_ctx_Some l (InL j r :: c)) as [[[c1 v1] vr1] E]; [done|]. rewrite E in Hmin.
  injection Hmin as -> -> ->. eapply IHl; [done|done|exact E|]. lia.
Qed.

(** Putting [v] in the place of [i], which the second half of [avl_del] does. *)
Lemma plug_rename c l i r v :
  NoDup (inorder (plug c (Node l i r))) ->
  rename i v (plug c (Node l i r)) = plug c (Node l v r).
Proof.
  assert (Hid : forall t, i ∉ inorder t -> rename i v t = t).
  { induction t as [|tl IHl j tr IHr]; cbn [inorder rename]; [done|].
    rewrite elem_of_app, elem_of_cons. intros Hn.
    rewrite IHl, IHr, decide_False; naive_solver. }
  assert (Hplug : forall c t, i ∉ before c ++ after c ->
    rename i v (plug c t) = plug c (rename i v t)).
  { clear c l r. induction c as [|f c IH]; intros t Hi; [done|]. cbn [plug].
    destruct f as [j u|u j]; cbn [before after] in Hi; rewrite IH by set_solver; f_equal;
      cbn [fill rename]; rewrite decide_False, (Hid u) by set_solver; done. }
  rewrite inorder_plug. intros (Ht & _ & Hd)%NoDup_plug_parts.
  rewrite Hplug by (apply Hd, elem_of_inorder_node; by right).
  cbn [inorder] in Ht. nodup_split. cbn [rename]. by rewrite decide_True, !Hid by (by auto).
Qed.

(** The last step of [avl_swap]: the successor, already a copy of the node,
    takes its place under the parent. *)
Lemma swap_parent_spec m c l i r v :
  ctx_exact m c (Node l i r) -> tree_rep m (ctx_par c) (Node l v r) ->
  i ∉ before c ++ after c -> NoDup (before c ++ after c) ->
  (forall j, j ∈ inorder (Node l v r) -> j ∉ before c ++ after c) ->
  exists m', (from ← (match ctx_par c with
                      | Some par => child_slot m par i
                      | None => Some ALocal
                      end);
              aloc_store m (root (plug c (Node l i r))) from (Some v)) =
      Some (m', root (plug c (Node l v r))) /\
    tree_rep m' None (plug c (Node l v r)) /\ same_off (ctx_nodes c) m m'.
Proof.
  intros Hc Ht Hic Hnd Hd. destruct c as [|f c]; cbn [ctx_par].
  { exists m. by split_and!. }
  pose proof (ctx_exact_rep _ _ _ Hc) as Hcr. cbn [root] in Hcr.
  rewrite (child_slot_spec _ _ _ _ Hcr Hic). cbn [mbind option_bind].
  destruct (aloc_store_exact m f c (Node l i r) (Node l v r) (root (plug (f :: c) (Node l i r))))
    as (m3 & E3 & Hc3 & Ho3); [done|by rewrite !tsize_node|done|done|].
  cbn [root] in E3. exists m3. rewrite E3. split; [|split].
  - do 2 f_equal. cbn [plug]. apply root_plug. by destruct f.
  - apply tree_rep_plug. split; [|done]. eapply tree_rep_frame, Ht. intros j Hj. apply Ho3.
    rewrite elem_of_singleton. intros ->. by apply (Hd _ Hj), fnode_in_ctx.
  - eapply same_off_weaken, Ho3. intros j. rewrite elem_of_singleton, elem_of_ctx_nodes. intros ->. apply fnode_in_ctx.
Qed.

Lemma avl_swap_spec m c l i r v :
  tree_rep m None (plug c (Node l i r)) -> NoDup (inorder (plug c (Node l i r))) ->
  is_Some (m !! v) -> v ∉ inorder (plug c (Node l i r)) ->
  exists m', avl_swap m (root (plug c (Node l i r))) i v =
      Some (m', root (plug c (Node l v r))) /\
    tree_rep m' None (plug c (Node l v r)) /\
    same_off ({[v]} ∪ nodes (plug c (Node l i r))) m m'.
Proof.
  intros Hrep Hnd (nv & Hv) Hvn. apply tree_rep_plug in Hrep as ((Hi & Hl & Hr) & Hc).
  rewrite inorder_plug in Hnd, Hvn. apply NoDup_plug_parts in Hnd as (Hndt & Hndc & Hdisj).
  assert (Hvt : v ∉ inorder (Node l i r)) by set_solver.
  assert (Hvc : v ∉ before c ++ after c) by set_solver. clear Hvn.
  assert (Hic : i ∉ before c ++ after c) by (apply Hdisj, elem_of_inorder_node; by right).
  assert (Hlt : forall j, j ∈ inorder l -> j ∈ inorder (Node l i r))
    by (intros; apply elem_of_inorder_node; rewrite elem_of_app; auto).
  assert (Hrt : forall j, j ∈ inorder r -> j ∈ inorder (Node l i r))
    by (intros; apply elem_of_inorder_node; rewrite elem_of_app; auto).
  assert (Hkeep : id (NoDup (before c ++ after c))) by done.   (* not split below *)
  assert (Hndt' := Hndt). cbn [inorder] in Hndt'. nodup_split.
  cbn [inorder] in Hvt. unfold not in Hvt. nodup_split.
  set (n := mkAVLNode (ctx_par c) (root l) (root r) (hgt (Node l i r)) (tsize (Node l i r))) in Hi.
  unfold avl_swap. rewrite Hi. cbn [mbind option_bind]. rewrite (store_upd_Some _ _ _ _ Hv).
  cbn [mbind option_bind].
  destruct (set_parent_if_spec (<[v := n]> m) (Some i) (Some v) l) as (m1 & E1 & Hl1 & Ho1);
    [frame_tree Hl|done|].
  destruct (set_parent_if_spec m1 (Some i) (Some v) r) as (m2 & E2 & Hr2 & Ho2); [|done|].
  { eapply tree_rep_frame, Hr. intros j Hj. rewrite Ho1; [by look|]. intros ?%root_in. eauto. }
  assert (Ho : forall j, j ∉ inorder l -> j ∉ inorder r -> m2 !! j = <[v := n]> m !! j).
  { intros j ??. rewrite Ho2, Ho1; [done|..]; by intros ?%root_in. }
  assert (Hi2 : m2 !! i = Some n) by (rewrite Ho by done; by look).
  assert (Hv2 : m2 !! v = Some n) by (rewrite Ho by done; by look).
  cbn [left right n]. rewrite E1. cbn [mbind option_bind]. rewrite E2. cbn [mbind option_bind].
  rewrite Hi2. cbn [mbind option_bind parent n].
  assert (Hc2 : ctx_exact m2 c (Node l i r)).
  { eapply ctx_exact_frame, Hc. intros j Hj.
    assert (j ∉ inorder l) by (intros ?; apply (Hdisj j); auto).
    assert (j ∉ inorder r) by (intros ?; apply (Hdisj j); auto).
    rewrite Ho, lookup_insert_ne by (done || congruence). done. }
  assert (Hl2 : tree_rep m2 (Some v) l).
  { eapply tree_rep_frame, Hl1. intros j Hj. apply Ho2. intros ?%root_in. eauto. }
  assert (Hoff2 : same_off ({[v]} ∪ nodes (plug c (Node l i r))) m m2).
  { intros j Hj. rewrite elem_of_union, elem_of_singleton, elem_of_plug in Hj.
    rewrite Ho, lookup_insert_ne; [done|intros ->; by apply Hj; left|..];
      intros ?; apply Hj; auto. }
  destruct (swap_parent_spec m2 c l i r v) as (m3 & E3 & Hrep3 & Ho3); [done| |done..| |].
  { cbn [tree_rep]. rewrite Hv2. unfold n. by rewrite tsize_node, <- (tsize_node l v r). }
  { intros j [Hj| ->]%elem_of_inorder_node; [|done]. apply elem_of_app in Hj as [Hj|Hj]; apply Hdisj; auto. }
  exists m3. split; [done|]. split; [done|]. transitivity m2; [done|]. eapply same_off_weaken, Ho3.
  intros j. rewrite elem_of_ctx_nodes, elem_of_union, elem_of_plug. auto.
Qed.

Lemma avl_del_two_spec m c l i r :
  tree_rep m None (plug c (Node l i r)) ->
  NoDup (inorder (plug c (Node l i r))) -> tsize (plug c (Node l i r)) < 2 ^ 32 - 1 ->
  l <> Leaf -> r <> Leaf ->
  exists m', avl_del m i = Some (m', root (del_tree c l i r)) /\
    tree_rep m' None (del_tree c l i r) /\ same_off (nodes (plug c (Node l i r))) m m'.
Proof.
  intros Hrep Hnd Hsz Hl Hr.
  destruct (min_ctx_Some r (InR l i :: c)) as [[[c' v] vr] E]; [done|].
  pose proof (min_ctx_plug _ _ _ _ _ E) as Hplug. cbn [plug fill] in Hplug.
  pose proof (min_ctx_before _ _ _ _ _ E) as Hb. cbn [before] in Hb.
  assert (Hdel : del_tree c l i r = rename i v (fix_ctx c' vr))
    by (unfold del_tree; destruct l, r; by rewrite ?E).
  destruct (avl_del_easy_spec m c' Leaf v vr vr) as (m1 & E1 & Ht1 & Ho1);
    [by rewrite Hplug..|by left|].
  rewrite Hplug in Ho1. assert (HT := inorder_fix_ctx c' vr).
  assert (Hnd' : NoDup (before c' ++ (v :: inorder vr) ++ after c'))
    by (rewrite <- Hplug, inorder_plug in Hnd; done).
  assert (Hperm : before c' ++ (v :: inorder vr) ++ after c' ≡ₚ v :: inorder (fix_ctx c' vr))
    by (rewrite HT; solve_Permutation).
  rewrite Hperm, NoDup_cons in Hnd'. destruct Hnd' as (HvT & HndT).
  assert (Hmem : forall j, j ∈ nodes (plug c (Node l i r)) <-> j = v \/ j ∈ inorder (fix_ctx c' vr)).
  { intros j. rewrite elem_of_nodes, <- Hplug, inorder_plug. cbn [inorder app].
    by rewrite Hperm, elem_of_cons. }
  assert (Hsplit : exists c2 l2 r2, fix_ctx c' vr = plug c2 (Node l2 i r2)).
  { apply inorder_split. rewrite HT, Hb, !elem_of_app, list_elem_of_singleton. tauto. }
  destruct Hsplit as (c2 & l2 & r2 & HT1). rewrite HT1 in *.
  destruct (avl_swap_spec m1 c2 l2 i r2 v) as (m2 & E2 & Ht2 & Ho2); [done..| |done|].
  { apply elem_of_dom. rewrite (avl_del_easy_dom _ _ _ _ E1). apply elem_of_dom.
    apply (tree_rep_dom _ _ _ v Hrep), elem_of_nodes, Hmem. by left. }
  rewrite Hdel, plug_rename by done. exists m2. split_and!; [|done|].
  - apply tree_rep_plug in Hrep as ((Hi & Hlr & Hrr) & _).
    unfold avl_del. rewrite Hi. cbn [mbind option_bind left right].
    destruct l as [|ll li lr]; [done|]. destruct r as [|rl ri rr]; [done|]. cbn [root].
    erewrite leftmost_loop_spec; [|exact Hrr|done|exact E|].
    2: { etransitivity; [apply (nodes_length_le m)|lia].
      - rewrite inorder_plug in Hnd. apply NoDup_plug_parts in Hnd as (Hnd & _).
        cbn [inorder] in Hnd. by apply NoDup_app in Hnd as (_ & _ & (_ & ?)%NoDup_cons).
      - intros j. by apply tree_rep_dom with (Some i). }
    cbn [mbind option_bind]. rewrite E1. exact E2.
  - transitivity m1; [done|]. eapply same_off_weaken, Ho2. intros j.
    rewrite elem_of_union, elem_of_singleton, Hmem, elem_of_nodes. tauto.
Qed.

Lemma avl_del_spec m c l i r :
  tree_rep m None (plug c (Node l i r)) ->
  NoDup (inorder (plug c (Node l i r))) -> tsize (plug c (Node l i r)) < 2 ^ 32 - 1 ->
  exists m', avl_del m i = Some (m', root (del_tree c l i r)) /\
    tree_rep m' None (del_tree c l i r) /\ same_off (nodes (plug c (Node l i r))) m m'.
Proof.
  intros Hrep Hnd Hsz.
  assert (Hi := Hrep). apply tree_rep_plug in Hi as ((Hi & _) & _).
  destruct (decide (root l = None)) as [Hl|Hl]; [|destruct (decide (root r = None)) as [Hr|Hr]].
  - apply root_None in Hl as ->. unfold avl_del. rewrite Hi. cbn [mbind option_bind left right root].
    cbn [del_tree]. by apply avl_del_easy_spec; [..|left].
  - apply root_None in Hr as ->. unfold avl_del. rewrite Hi. cbn [mbind option_bind left right root].
    destruct l as [|ll li lr]; [done|]. cbn [root del_tree].
    by apply avl_del_easy_spec; [..|right].
  - rewrite root_None in Hl, Hr. by apply avl_del_two_spec.
Qed.

(** ** Order statistics *)

Lemma tsize_plug c t : tsize (plug c t) = zlen (before c) + tsize t + zlen (after c).
Proof. unfold tsize, zlen. rewrite inorder_plug, !length_app. lia. Qed.

Lemma arr_get_app_mid {A} (a b : list A) x k :
  k = zlen a -> arr_get (a ++ x :: b) k = Some x.
Proof.
  intros ->. unfold zlen. rewrite arr_get_nat, lookup_app_r by lia. by rewrite Nat.sub_diag.
Qed.

Lemma arr_get_None {A} (l : list A) k : ~ (0 <= k < zlen l) -> arr_get l k = None.
Proof. intros H. unfold arr_get. by rewrite decide_False. Qed.

(** One visit of node [i]: the fields read, and what each branch computes. *)
Lemma avl_offset_loop_node fuel m offset pos c l i r :
  tree_rep m None (plug c (Node l i r)) -> NoDup (inorder (plug c (Node l i r))) ->
  tsize (plug c (Node l i r)) < 2 ^ 32 - 1 ->
  Z.abs pos < 2 ^ 33 -> offset <> pos ->
  avl_offset_loop (S fuel) m offset pos i =
    if decide (pos < offset <= pos + tsize r) then
      match r with
      | Node rl j _ => avl_offset_loop fuel m offset (pos + tsize rl + 1) j
      | Leaf => None
      end
    else if decide (pos - tsize l <= offset < pos) then
      match l with
      | Node _ j lr => avl_offset_loop fuel m offset (pos - tsize lr - 1) j
      | Leaf => None
      end
    else
      match c with
      | [] => Some NULL
      | InR _ j :: _ => avl_offset_loop fuel m offset (pos - tsize l - 1) j
      | InL j _ :: _ => avl_offset_loop fuel m offset (pos + tsize r + 1) j
      end.
Proof.
  intros Hrep Hnd Hsz Hpos Hne.
  rewrite tsize_plug, tsize_node in Hsz. unfold zlen in Hsz.
  pose proof (tsize_nonneg l). pose proof (tsize_nonneg r).
  apply tree_rep_plug in Hrep as ((Hi & Hl & Hr) & Hc).
  cbn [avl_offset_loop]. rewrite (proj2 (Z.eqb_neq offset pos) Hne), Hi.
  cbn [mbind option_bind left right].
  rewrite (avl_cnt_rep _ _ _ Hl), (avl_cnt_rep _ _ _ Hr). cbn [mbind option_bind].
  rewrite !i64_small, !u32_small by (rewrite ?u32_small; lia).
  destruct (decide (pos < offset <= pos + tsize r)) as [Hb|Hb].
  { rewrite (proj2 (Z.ltb_lt pos offset)), (proj2 (Z.leb_le offset (pos + tsize r))) by lia.
    cbn [andb]. destruct r as [|rl j rr]; [simpl in *; unfold tsize in *; simpl in *; lia|].
    destruct Hr as (Hj & Hrl & Hrr). cbn [root mbind option_bind]. rewrite Hj.
    cbn [mbind option_bind left]. rewrite (avl_cnt_rep _ _ _ Hrl). cbn [mbind option_bind].
    rewrite tsize_node in *. pose proof (tsize_nonneg rl). pose proof (tsize_nonneg rr).
    rewrite u32_small, i64_small by lia. f_equal. lia. }
  destruct (Z.ltb_spec pos offset); [rewrite (proj2 (Z.leb_gt offset (pos + tsize r))) by lia|];
    cbn [andb].
  all: destruct (decide (pos - tsize l <= offset < pos)) as [Hb'|Hb'].
  1,3: try lia.
  { rewrite (proj2 (Z.ltb_lt offset pos)), (proj2 (Z.leb_le (pos - tsize l) offset)) by lia.
    cbn [andb]. destruct l as [|ll j lr]; [unfold tsize in *; simpl in *; lia|].
    destruct Hl as (Hj & Hll & Hlr). cbn [root mbind option_bind]. rewrite Hj.
    cbn [mbind option_bind right]. rewrite (avl_cnt_rep _ _ _ Hlr). cbn [mbind option_bind].
    rewrite tsize_node in *. pose proof (tsize_nonneg ll). pose proof (tsize_nonneg lr).
    rewrite u32_small, i64_small by lia. f_equal. lia. }
  all: assert (Hlt : (offset <? pos) && (pos - tsize l <=? offset) = false)
    by (destruct (Z.ltb_spec offset pos), (Z.leb_spec (pos - tsize l) offset); simpl; lia);
    rewrite Hlt; clear Hlt.
  all: destruct c as [|[j u|u j] c]; cbn [ctx_par parent]; [done| |]; destruct Hc as ((Hj & Hu) & _);
    cbn [fnode]; rewrite Hj; cbn [mbind option_bind right root].
  all: first [rewrite decide_True by done
    |rewrite decide_False by (intros ?%root_in; rewrite inorder_plug in Hnd;
       cbn [before after inorder] in Hnd; nodup_split; eauto 3)].
  all: cbn [mbind option_bind]; f_equal; lia.
Qed.

Section offset.
Context (m : amem) (T : tree) (tgt base : Z).
Hypothesis Hrep : tree_rep m None T.
Hypothesis Hnd : NoDup (inorder T).
Hypothesis Hsz : tsize T < 2 ^ 32 - 1.
Hypothesis Hbase : 0 <= base <= tsize T.

(** The position of the root of the subtree in the hole. *)
Let idx c l := zlen (before c) + tsize l.

Lemma offset_range c l i r : T = plug c (Node l i r) -> Z.abs (idx c l - base) < 2 ^ 33.
Proof.
  intros ->. unfold idx, zlen in *. rewrite tsize_plug, tsize_node in *. unfold zlen in *.
  pose proof (tsize_nonneg l). pose proof (tsize_nonneg r). lia.
Qed.

Lemma offset_found c l i r : T = plug c (Node l i r) -> arr_get (inorder T) (idx c l) = Some i.
Proof.
  intros ->. rewrite inorder_plug. cbn [inorder].
  replace (before c ++ (inorder l ++ i :: inorder r) ++ after c)
    with ((before c ++ inorder l) ++ i :: inorder r ++ after c) by (by rewrite <- !app_assoc).
  apply arr_get_app_mid. unfold idx, zlen, tsize. rewrite length_app. lia.
Qed.

(** Downwards: the target is in the subtree. *)
Lemma avl_offset_down t : forall c l i r fuel,
  t = Node l i r -> T = plug c t ->
  zlen (before c) <= tgt < zlen (before c) + tsize t ->
  (length (inorder t) <= fuel)%nat ->
  avl_offset_loop fuel m (tgt - base) (idx c l - base) i = Some (arr_get (inorder T) tgt).
Proof.
  induction t as [|tl IHl j tr IHr]; intros c l i r fuel; [done|].
  intros [= -> -> ->] HT Htgt Hfuel. rewrite tsize_node in Htgt.
  destruct (decide (tgt = idx c l)) as [->|Hne].
  { destruct fuel; simpl; rewrite Z.eqb_refl; by rewrite (offset_found c l i r). }
  destruct fuel as [|fuel]; [cbn [inorder] in Hfuel; rewrite length_app in Hfuel; simpl in Hfuel; lia|].
  pose proof (offset_range _ _ _ _ HT). unfold idx in *.
  rewrite (avl_offset_loop_node _ _ _ _ c l i r) by (by rewrite <- ?HT || lia).
  cbn [inorder] in Hfuel. rewrite length_app in Hfuel. cbn [length] in Hfuel.
  destruct (decide _) as [Hr|Hr]; [|destruct (decide _) as [Hl|Hl]; [|lia]].
  - destruct r as [|rl k rr]; [unfold tsize in *; simpl in *; lia|].
    rewrite <- (IHr (InR l i :: c) rl k rr fuel); try done; try lia.
    + f_equal. cbn [before]. unfold zlen. rewrite !length_app. unfold tsize. simpl. lia.
    + cbn [before]. unfold zlen in *. rewrite !length_app. unfold tsize in *. simpl in *. lia.
  - destruct l as [|ll k lr]; [unfold tsize in *; simpl in *; lia|].
    rewrite <- (IHl (InL i r :: c) ll k lr fuel); try done; try lia.
    + f_equal. cbn [before]. rewrite tsize_node. lia.
    + cbn [before]. lia.
Qed.

(** Upwards until the target is in the subtree, or past the root. *)
Lemma avl_offset_up c : forall l i r fuel,
  T = plug c (Node l i r) -> (length c + length (inorder T) <= fuel)%nat ->
  avl_offset_loop fuel m (tgt - base) (idx c l - base) i = Some (arr_get (inorder T) tgt).
Proof.
  induction c as [|f c IH]; intros l i r fuel HT Hfuel;
    match type of HT with T = plug ?c ?t =>
      destruct (decide (zlen (before c) <= tgt < zlen (before c) + tsize t)) as [Hin|Hout];
      [apply (avl_offset_down t c l i r); try done;
       transitivity (length (inorder T)); [rewrite HT, inorder_plug, !length_app; lia|lia]|]
    end.
  all: rewrite tsize_node in Hout; pose proof (offset_range _ _ _ _ HT); unfold idx in *.
  all: pose proof (tsize_nonneg l); pose proof (tsize_nonneg r).
  all: destruct fuel as [|fuel];
    [rewrite HT, inorder_plug, !length_app in Hfuel; simpl in Hfuel;
     rewrite length_app in Hfuel; simpl in Hfuel; lia|].
  - rewrite (avl_offset_loop_node _ _ _ _ [] l i r) by (by rewrite <- ?HT || lia).
    rewrite !decide_False by (cbn [before] in *; lia). rewrite arr_get_None; [done|].
    rewrite HT. change (zlen (inorder (plug [] (Node l i r)))) with (tsize (Node l i r)).
    rewrite tsize_node. simpl in Hout. unfold zlen in Hout. simpl in Hout. lia.
  - rewrite (avl_offset_loop_node _ _ _ _ (f :: c) l i r) by (by rewrite <- ?HT || lia).
    rewrite !decide_False by lia. cbn [length] in Hfuel.
    destruct f as [j u|u j]; cbn [plug fill before] in *.
    + rewrite <- (IH (Node l i r) j u fuel HT) by lia. rewrite tsize_node. f_equal. lia.
    + rewrite <- (IH u j (Node l i r) fuel HT) by lia. f_equal.
      unfold zlen, tsize. rewrite !length_app. simpl. lia.
Qed.

End offset.

(** From the node at position [k], offset [off] reaches position [k + off]. *)
Lemma avl_offset_spec m c l i r off :
  tree_rep m None (plug c (Node l i r)) -> NoDup (inorder (plug c (Node l i r))) ->
  tsize (plug c (Node l i r)) < 2 ^ 32 - 1 ->
  avl_offset m i off =
    Some (arr_get (inorder (plug c (Node l i r))) (zlen (before c) + tsize l + off)).
Proof.
  intros Hrep Hnd Hsz. unfold avl_offset.
  set (T := plug c (Node l i r)) in *. set (base := zlen (before c) + tsize l).
  replace off with ((base + off) - base) at 1 by lia. replace 0 with (base - base) by lia.
  apply (avl_offset_up m T (base + off) base Hrep Hnd Hsz) with r; [|done|].
  - subst T base. rewrite tsize_plug, tsize_node. unfold zlen.
    pose proof (tsize_nonneg l). pose proof (tsize_nonneg r). lia.
  - assert (length c <= size m)%nat.
    { apply tree_rep_plug in Hrep as (_ & Hc%ctx_exact_rep). subst T. rewrite inorder_plug in Hnd.
      apply NoDup_plug_parts in Hnd as (_ & Hnd & _). by eapply ctx_length_le. }
    assert (length (inorder T) <= size m)%nat.
    { apply nodes_length_le; [done|]. intros j. by apply tree_rep_dom with None. }
    lia.
Qed.

(** ** For the clients: attaching and detaching a node *)

(** The field that points to the subtree in a context. *)
Definition ctx_slot (c : list frame) : aloc :=
  match c with [] => ALocal | f :: _ => frame_slot f end.

(** Attaching a new leaf at the end of a search path. *)
Lemma attach_spec m c node :
  tree_rep m None (plug c Leaf) -> NoDup (inorder (plug c Leaf)) ->
  node ∉ inorder (plug c Leaf) -> m !! node = Some avl_init ->
  exists m1, (t ← ('(t, _) ← aloc_store m (root (plug c Leaf)) (ctx_slot c) (Some node); Some t);
     store_upd t node (with_parent (ctx_par c))) = Some m1 /\
    linked m1 node (ctx_par c) None None /\ ctx_rep m1 c (Some node) /\
    same_off ({[node]} ∪ ctx_nodes c) m m1 /\ dom m1 = dom m.
Proof.
  intros Hrep Hnd Hn Hm. pose proof (proj1 (tree_rep_plug _ _ _) Hrep) as (_ & Hc%ctx_exact_rep).
  rewrite inorder_plug in Hnd, Hn. cbn [inorder app] in Hnd, Hn.
  assert (Hlast : forall m1, same_off (ctx_nodes c) m m1 -> ctx_rep m1 c (Some node) -> dom m1 = dom m ->
    exists m2, store_upd m1 node (with_parent (ctx_par c)) = Some m2 /\
      linked m2 node (ctx_par c) None None /\ ctx_rep m2 c (Some node) /\
      same_off ({[node]} ∪ ctx_nodes c) m m2 /\ dom m2 = dom m).
  { intros m1 Ho Hc1 Hd. assert (Hm1 : m1 !! node = Some avl_init).
    { rewrite (same_off_lookup _ _ _ _ Ho); [done|]. by rewrite elem_of_ctx_nodes. }
    rewrite (store_upd_Some _ _ _ _ Hm1). eexists. split; [done|]. split_and!.
    - do 2 eexists. by rewrite lookup_insert_eq.
    - eapply ctx_rep_frame, Hc1. intros j Hj. rewrite lookup_insert_ne; [done|]. by intros ->.
    - transitivity m1; [eapply same_off_weaken, Ho; set_solver|]. auto with redis.
    - rewrite dom_insert_lookup_L; eauto. }
  destruct c as [|f c].
  - cbn [ctx_slot aloc_store mbind option_bind]. by apply Hlast.
  - cbn [ctx_slot]. destruct (aloc_store_frame m f c None (Some node) (root (plug (f :: c) Leaf)) Hc Hnd)
      as (m1 & E1 & Hc1 & Ho1).
    rewrite E1. cbn [mbind option_bind]. apply Hlast; [|done|].
    + eapply same_off_weaken, Ho1. intros j. rewrite elem_of_singleton, elem_of_ctx_nodes.
      intros ->. apply fnode_in_ctx.
    + by eapply aloc_store_dom.
Qed.

(** A node attached at a leaf, then [avl_fix]. *)
Lemma tree_attach m c node :
  tree_rep m None (plug c Leaf) -> NoDup (inorder (plug c Leaf)) -> balanced (plug c Leaf) ->
  node ∉ inorder (plug c Leaf) -> m !! node = Some avl_init -> tsize (plug c Leaf) + 1 < 2 ^ 32 - 1 ->
  exists m1 loc m2 m3 T, aloc_store m (root (plug c Leaf)) (ctx_slot c) (Some node) = Some (m1, loc) /\
    store_upd m1 node (with_parent (ctx_par c)) = Some m2 /\ avl_fix m2 node = Some (m3, root T) /\
    tree_rep m3 None T /\ balanced T /\ inorder T = before c ++ node :: after c /\
    same_off ({[node]} ∪ nodes (plug c Leaf)) m m3 /\ dom m3 = dom m.
Proof.
  intros Hrep Hnd Hbal Hn Hinit Hsize.
  destruct (attach_spec m c node Hrep Hnd Hn Hinit) as (m2 & E & Hl & Hc & Ho & Hd).
  apply bind_Some in E as (t1 & E1 & E2). apply bind_Some in E1 as ([m1 loc] & E1 & [= ->]).
  rewrite inorder_plug in Hnd, Hn. cbn [inorder app] in Hnd, Hn.
  assert (HndT : NoDup (before c ++ inorder (Node Leaf node Leaf) ++ after c)).
  { cbn [inorder app]. rewrite <- Permutation_middle. by apply NoDup_cons. }
  assert (Hsz' : tsize (plug c (Node Leaf node Leaf)) = tsize (plug c Leaf) + 1).
  { unfold tsize. rewrite !inorder_plug, !length_app. cbn. lia. }
  destruct (avl_fix_spec c m2 node Leaf Leaf) as (m3 & E3 & Hrep3 & Ho3); [done..|lia|].
  exists t1, loc, m2, m3, (fix_up c (Node Leaf node Leaf)). split_and!; try done.
  - apply (fix_up_balanced c Leaf node Leaf 0); [done|done|simpl; lia|simpl; lia|].
    by apply balanced_plug in Hbal as [_ ?].
  - by rewrite inorder_fix_up, inorder_plug.
  - transitivity m2; (eapply same_off_weaken; [|eassumption]); intros j.
    + rewrite elem_of_union, elem_of_singleton, elem_of_ctx_nodes. intros [->|Hj]; [set_solver|].
      apply elem_of_union_r, elem_of_nodes. by rewrite inorder_plug.
    + rewrite elem_of_union, elem_of_singleton, !elem_of_nodes, !inorder_plug. cbn [inorder app].
      rewrite !elem_of_app, elem_of_cons. tauto.
  - by rewrite (avl_fix_dom _ _ _ _ E3).
Qed.

(** [avl_del] of any node. *)
Lemma tree_detach m T p :
  tree_rep m None T -> NoDup (inorder T) -> balanced T -> tsize T < 2 ^ 32 - 1 -> p ∈ inorder T ->
  exists m' T' a b, avl_del m p = Some (m', root T') /\ tree_rep m' None T' /\ balanced T' /\
    inorder T = a ++ p :: b /\ inorder T' = a ++ b /\ same_off (nodes T) m m' /\ dom m' = dom m.
Proof.
  intros Hrep Hnd Hbal Hsize Hp. destruct (inorder_split T p Hp) as (c & l & u & ->).
  destruct (avl_del_spec _ _ _ _ _ Hrep Hnd Hsize) as (m' & E & Hrep' & Ho).
  pose proof (inorder_del_tree _ _ _ _ Hnd) as HT'.
  exists m', (del_tree c l p u), (before c ++ inorder l), (inorder u ++ after c).
  split_and!; [done|done|by apply del_tree_balanced| | |done|by eapply avl_del_dom].
  - rewrite inorder_plug. cbn [inorder]. by rewrite <- !app_assoc.
  - by rewrite HT', <- !app_assoc.
Qed.
