(* ===== verification/Hashtable.v ===== *)
(** * hashtable.h and hashtable.cpp: chaining with progressive rehashing

    The memory of the tables has two parts: the [HNode] objects, which are fields
    of the payloads, and the arrays of buckets, which [calloc] returns and
    [free] takes back.  A table refers to its array by address, so an access
    after [free], a second [free] and an array nobody frees are all visible.  The
    [eq] callback of the lookups is a function of the visited node (the key it
    compares with is fixed by the caller), and may itself fail. *)

From S2P Require Import Prelude.
Local Open Scope Z_scope.

Record HNode := mkHNode {
  next : option ptr;
  hcode : Z             (* uint64_t *)
}.

(** An array of buckets: the heads of the chains. *)
Notation buckets := (list (option ptr)).

Record hmem := mkHmem {
  hm_nodes : gmap ptr HNode;
  hm_arrays : gmap ptr buckets
}.

Definition with_nodes (m : hmem) (ns : gmap ptr HNode) : hmem := mkHmem ns (hm_arrays m).
Definition with_arrays (m : hmem) (ts : gmap ptr buckets) : hmem := mkHmem (hm_nodes m) ts.

(** No node, no array. *)
#[export] Instance hmem_empty : Empty hmem := mkHmem ∅ ∅.

(** [free] of an array: nothing for [NULL]; the array must be live. *)
Definition free_array (m : hmem) (a : option ptr) : option hmem :=
  match a with
  | None => Some m
  | Some a => _ ← hm_arrays m !! a; Some (with_arrays m (delete a (hm_arrays m)))
  end.

Record HTab := mkHTab {
  tab : option ptr;     (* the address of the array of buckets, or NULL *)
  mask : Z;
  tab_size : Z
}.

(** [HTab{}] *)
Definition htab_null : HTab := mkHTab None 0 0.

Record HMap := mkHMap {
  newer : HTab;
  older : HTab;
  migrate_pos : Z
}.

(** [HMap{}] *)
Definition hmap_null : HMap := mkHMap htab_null htab_null 0.

Definition with_next (q : option ptr) (n : HNode) : HNode := mkHNode q (hcode n).

(** [assert(n > 0 && ((n - 1) & n) == 0)], then a new array of null buckets. *)
Definition h_init (m : hmem) (n : Z) : option (hmem * HTab) :=
  guard (0 < n /\ Z.land (n - 1) n = 0);;
  let a := fresh (dom (hm_arrays m)) in                                (* calloc *)
  Some (with_arrays m (<[a := replicate (Z.to_nat n) NULL]> (hm_arrays m)), mkHTab (Some a) (n - 1) 0).

(** An [HNode **from]: the address of a bucket, or of the [next] field of a node. *)
Inductive slot :=
  | Bucket (a : ptr) (pos : Z)
  | NextOf (p : ptr).

Definition slot_read (m : hmem) (from : slot) : option (option ptr) :=
  match from with
  | Bucket a pos => t ← hm_arrays m !! a; arr_get t pos
  | NextOf p => n ← hm_nodes m !! p; Some (next n)
  end.

Definition slot_write (m : hmem) (from : slot) (x : option ptr) : option hmem :=
  match from with
  | Bucket a pos =>
      t ← hm_arrays m !! a; t ← arr_set t pos x; Some (with_arrays m (<[a := t]> (hm_arrays m)))
  | NextOf p => ns ← store_upd (hm_nodes m) p (with_next x); Some (with_nodes m ns)
  end.

Definition h_insert (m : hmem) (htab : HTab) (node : ptr) : option (hmem * HTab) :=
  n ← hm_nodes m !! node;
  let pos := Z.land (hcode n) (mask htab) in
  a ← tab htab;
  nxt ← slot_read m (Bucket a pos);
  m ← slot_write m (NextOf node) nxt;
  m ← slot_write m (Bucket a pos) (Some node);
  Some (m, mkHTab (tab htab) (mask htab) (u64 (tab_size htab + 1))).

(** [for (HNode *cur; (cur = *from) != NULL; from = &cur->next)] *)
Fixpoint h_lookup_loop (fuel : nat) (m : hmem)
    (key_hcode : Z) (eq : ptr -> option bool) (from : slot) : option (option slot) :=
  match fuel with
  | O => None
  | S fuel =>
      cur ← slot_read m from;
      match cur with
      | None => Some None
      | Some cur =>
          n ← hm_nodes m !! cur;
          hit ← (if hcode n =? key_hcode then eq cur else Some false);
          if (hit : bool) then Some (Some from)
          else h_lookup_loop fuel m key_hcode eq (NextOf cur)
      end
  end.

(** Returns the pointer that points to the node; a chain visits each node of
    the store at most once. *)
Definition h_lookup (m : hmem) (htab : HTab) (key_hcode : Z) (eq : ptr -> option bool) :
    option (option slot) :=
  match tab htab with
  | None => Some None
  | Some a =>
      let pos := Z.land key_hcode (mask htab) in
      h_lookup_loop (S (size (hm_nodes m))) m key_hcode eq (Bucket a pos)
  end.

Definition h_detach (m : hmem) (htab : HTab) (from : slot) : option (hmem * HTab * ptr) :=
  cur ← slot_read m from;
  node ← cur;
  n ← hm_nodes m !! node;
  m ← slot_write m from (next n);
  Some (m, mkHTab (tab htab) (mask htab) (u64 (tab_size htab - 1)), node).

Definition k_rehashing_work : Z := 128.

(** The loop of [hm_help_rehashing]; one unit of fuel per iteration. *)
Fixpoint hm_help_loop (fuel : nat) (nwork : Z) (m : hmem) (hm : HMap) : option (hmem * HMap) :=
  if (nwork <? k_rehashing_work) && (0 <? tab_size (older hm)) then
    match fuel with
    | O => None
    | S fuel =>
        (* find a non-empty slot *)
        a ← tab (older hm);
        head ← slot_read m (Bucket a (migrate_pos hm));
        match head with
        | None =>
            hm_help_loop fuel nwork m
              (mkHMap (newer hm) (older hm) (u64 (migrate_pos hm + 1)))
        | Some _ =>
            (* move the first list item to the newer table *)
            '(m, old', node) ← h_detach m (older hm) (Bucket a (migrate_pos hm));
            '(m, new') ← h_insert m (newer hm) node;
            hm_help_loop fuel (nwork + 1) m (mkHMap new' old' (migrate_pos hm))
        end
    end
  else Some (m, hm).

(** Discards the old table if done: [free(older.tab)], [older = HTab{}]. *)
Definition hm_discard (m : hmem) (hm : HMap) : option (hmem * HMap) :=
  if (tab_size (older hm) =? 0) && bool_decide (is_Some (tab (older hm)))
  then m ← free_array m (tab (older hm)); Some (m, mkHMap (newer hm) htab_null (migrate_pos hm))
  else Some (m, hm).

(** The fuel: every iteration moves a node or skips a bucket. *)
Definition help_fuel (m : hmem) (hm : HMap) : nat :=
  128 + length (default [] (a ← tab (older hm); hm_arrays m !! a)).

Definition hm_help_rehashing (m : hmem) (hm : HMap) : option (hmem * HMap) :=
  '(m, hm) ← hm_help_loop (help_fuel m hm) 0 m hm;
  hm_discard m hm.

Definition hm_trigger_rehashing (m : hmem) (hm : HMap) : option (hmem * HMap) :=
  '(m, new') ← h_init m (u64 ((mask (newer hm) + 1) * 2));
  Some (m, mkHMap new' (newer hm) 0).

Definition hm_lookup (m : hmem) (hm : HMap) (key_hcode : Z) (eq : ptr -> option bool) :
    option (hmem * HMap * option ptr) :=
  '(m, hm) ← hm_help_rehashing m hm;
  from ← h_lookup m (newer hm) key_hcode eq;
  match from with
  | Some from => node ← slot_read m from; Some (m, hm, node)
  | None =>
      from ← h_lookup m (older hm) key_hcode eq;
      match from with
      | Some from => node ← slot_read m from; Some (m, hm, node)
      | None => Some (m, hm, NULL)
      end
  end.

Definition k_max_load_factor : Z := 8.

Definition hm_insert (m : hmem) (hm : HMap) (node : ptr) : option (hmem * HMap) :=
  '(m, new') ← (match tab (newer hm) with
                | None => h_init m 4
                | Some _ => Some (m, newer hm)
                end);
  '(m, new') ← h_insert m new' node;
  let hm := mkHMap new' (older hm) (migrate_pos hm) in
  '(m, hm) ← (match tab (older hm) with
              | None =>
                  let shreshold := u64 (u64 (mask (newer hm) + 1) * k_max_load_factor) in
                  if shreshold <=? tab_size (newer hm) then hm_trigger_rehashing m hm else Some (m, hm)
              | Some _ => Some (m, hm)
              end);
  hm_help_rehashing m hm.

Definition hm_delete (m : hmem) (hm : HMap) (key_hcode : Z) (eq : ptr -> option bool) :
    option (hmem * HMap * option ptr) :=
  '(m, hm) ← hm_help_rehashing m hm;
  from ← h_lookup m (newer hm) key_hcode eq;
  match from with
  | Some from =>
      '(m, new', node) ← h_detach m (newer hm) from;
      Some (m, mkHMap new' (older hm) (migrate_pos hm), Some node)
  | None =>
      from ← h_lookup m (older hm) key_hcode eq;
      match from with
      | Some from =>
          '(m, old', node) ← h_detach m (older hm) from;
          Some (m, mkHMap (newer hm) old' (migrate_pos hm), Some node)
      | None => Some (m, hm, NULL)
      end
  end.

(** Frees both arrays of buckets; the nodes belong to the payloads. *)
Definition hm_clear (m : hmem) (hm : HMap) : option (hmem * HMap) :=
  m ← free_array m (tab (newer hm));
  m ← free_array m (tab (older hm));
  Some (m, hmap_null).

Definition hm_size (hm : HMap) : Z := u64 (tab_size (newer hm) + tab_size (older hm)).

(** The callback of the iterations is a state transformer that also says
    whether to go on. *)
Section foreach.
Context {S : Type} (f : ptr -> S -> option (bool * S)).

Fixpoint chain_foreach (fuel : nat) (m : hmem) (node : option ptr) (s : S) :
    option (bool * S) :=
  match node with
  | None => Some (true, s)
  | Some node =>
      match fuel with
      | O => None
      | Datatypes.S fuel =>
          '(go, s) ← f node s;
          if (go : bool) then n ← hm_nodes m !! node; chain_foreach fuel m (next n) s
          else Some (false, s)
      end
  end.

(** The loop over the buckets from index [i] on. *)
Fixpoint buckets_foreach (m : hmem) (bs : list (option ptr)) (s : S) : option (bool * S) :=
  match bs with
  | [] => Some (true, s)
  | b :: bs =>
      '(go, s) ← chain_foreach (size (hm_nodes m)) m b s;
      if (go : bool) then buckets_foreach m bs s else Some (false, s)
  end.

(** [for (size_t i = 0; htab->mask != 0 && i <= htab->mask; i++)] *)
Definition h_foreach (m : hmem) (htab : HTab) (s : S) : option (bool * S) :=
  if mask htab =? 0 then Some (true, s)
  else
    a ← tab htab;
    t ← hm_arrays m !! a;
    guard (mask htab < Z.of_nat (length t));;
    buckets_foreach m (take (Z.to_nat (mask htab + 1)) t) s.

Definition hm_foreach (m : hmem) (hm : HMap) (s : S) : option S :=
  '(go, s) ← h_foreach m (newer hm) s;
  if (go : bool) then '(_, s) ← h_foreach m (older hm) s; Some s else Some s.
End foreach.
