(* ===== verification/HashtableProofs.v ===== *)
(** * hashtable.cpp implements a set of nodes indexed by hash code

    [tab_rep] relates a table to the list of its chains, [hm_rep] a map to the
    set of nodes it holds; [others] is the memory of arrays that is not the map's,
    which no operation changes.  The operations never fail on a represented map, a
    lookup finds exactly the nodes the callback accepts, and the bookkeeping of
    progressive rehashing (work per call, load factor, table sizes) is part of
    the invariant. *)

From S2P Require Import Prelude Hashtable.
Local Open Scope Z_scope.

(** ** Lists of buckets *)

Section buckets.
Context {A : Type}.
Implicit Types (bs : list (list A)) (b : list A).

Lemma concat_insert bs i b b' :
  bs !! i = Some b -> concat (<[i := b']> bs) ++ b ≡ₚ concat bs ++ b'.
Proof.
  intros Hi. rewrite <- (take_drop_middle bs i b Hi) at 2.
  rewrite insert_take_drop by (by apply lookup_lt_Some in Hi).
  rewrite !concat_app. simpl. solve_Permutation.
Qed.

Lemma concat_add bs i b x :
  bs !! i = Some b -> concat (<[i := x :: b]> bs) ≡ₚ x :: concat bs.
Proof.
  intros Hi. apply (Permutation_app_inv_r b). rewrite (concat_insert bs i b _ Hi).
  simpl. solve_Permutation.
Qed.

Lemma concat_remove bs i l1 x l2 :
  bs !! i = Some (l1 ++ x :: l2) -> x :: concat (<[i := l1 ++ l2]> bs) ≡ₚ concat bs.
Proof.
  intros Hi. apply (Permutation_app_inv_r (l1 ++ l2)). rewrite <- (concat_insert bs i _ _ Hi).
  simpl. solve_Permutation.
Qed.

Lemma elem_of_concat x bs : x ∈ concat bs <-> exists i b, bs !! i = Some b /\ x ∈ b.
Proof.
  rewrite list_elem_of_In, in_concat. split.
  - intros (b & Hb & Hx). apply list_elem_of_In, list_elem_of_lookup in Hb as [i Hi].
    exists i, b. by rewrite list_elem_of_In.
  - intros (i & b & Hi & Hx). exists b. rewrite <- !list_elem_of_In.
    split; [|done]. by eapply list_elem_of_lookup_2.
Qed.

Lemma NoDup_concat_bucket bs i b : NoDup (concat bs) -> bs !! i = Some b -> NoDup b.
Proof.
  intros Hnd Hi. rewrite <- (take_drop_middle bs i b Hi), concat_app in Hnd. simpl in Hnd.
  by apply NoDup_app in Hnd as (_ & _ & (? & _)%NoDup_app).
Qed.

(** An element is in one bucket only. *)
Lemma NoDup_concat_index bs i j b b' x :
  NoDup (concat bs) -> bs !! i = Some b -> bs !! j = Some b' -> x ∈ b -> x ∈ b' -> i = j.
Proof.
  revert i j. induction bs as [|c bs IH]; intros i j; [done|]. simpl.
  rewrite NoDup_app. intros (_ & Hd & Hnd).
  destruct i as [|i], j as [|j]; simpl; intros; simplify_eq; [done| | |f_equal; by eapply IH];
    exfalso; eapply Hd; try done; apply elem_of_concat; eauto.
Qed.

Lemma concat_replicate_nil n : concat (replicate n (@nil A)) = [].
Proof. by induction n. Qed.

End buckets.

(** ** Powers of two *)

Lemma land_pow2_pred h k : 0 <= k -> Z.land h (2 ^ k - 1) = h mod 2 ^ k.
Proof.
  intros. replace (2 ^ k - 1) with (Z.ones k); [by apply Z.land_ones|].
  rewrite Z.ones_equiv. lia.
Qed.

Lemma land_pow2_self k : 0 <= k -> Z.land (2 ^ k - 1) (2 ^ k) = 0.
Proof. intros. rewrite Z.land_comm, land_pow2_pred by done. apply Z.mod_same. lia. Qed.

(** ** Chains *)

Fixpoint chain (m : gmap ptr HNode) (h : option ptr) (l : list ptr) : Prop :=
  match l with
  | [] => h = None
  | p :: l => h = Some p /\ exists n, m !! p = Some n /\ chain m (next n) l
  end.

Lemma chain_frame m m' h l :
  (forall p, p ∈ l -> m' !! p = m !! p) -> chain m h l -> chain m' h l.
Proof.
  revert h. induction l as [|p l IH]; intros h Hm; [done|]. cbn [chain].
  intros (-> & n & Hn & Hl). split; [done|]. exists n. split; [rewrite Hm; [done|set_solver]|].
  apply IH; [|done]. intros. apply Hm. set_solver.
Qed.

Lemma chain_head m h l : chain m h l -> h = head l.
Proof. destruct l; simpl; naive_solver. Qed.

Lemma chain_mid m h l1 q l2 :
  chain m h (l1 ++ q :: l2) -> exists n, m !! q = Some n /\ chain m (next n) l2.
Proof.
  revert h. induction l1 as [|p l1 IH]; intros h; simpl; [naive_solver|].
  intros (_ & n & _ & H). by apply IH in H.
Qed.

Lemma chain_dom m h l p : chain m h l -> p ∈ l -> is_Some (m !! p).
Proof.
  intros Hc Hp. apply list_elem_of_split in Hp as (l1 & l2 & ->).
  apply chain_mid in Hc as (n & -> & _). eauto.
Qed.

(** The location that points to the node after [l1] in bucket [i] of array [a]. *)
Definition slot_at (a : ptr) (i : nat) (l1 : list ptr) : slot :=
  match last l1 with None => Bucket a (Z.of_nat i) | Some q => NextOf q end.

Lemma slot_read_at m a t i h l1 l2 :
  hm_arrays m !! a = Some t -> t !! i = Some h -> chain (hm_nodes m) h (l1 ++ l2) ->
  slot_read m (slot_at a i l1) = Some (head l2).
Proof.
  intros Ha Hi Hc. unfold slot_at.
  destruct (last l1) as [q|] eqn:E; simpl.
  - apply last_Some in E as (l1' & ->). rewrite <- app_assoc in Hc.
    apply chain_mid in Hc as (n & -> & Hc). simpl. by rewrite (chain_head _ _ _ Hc).
  - apply last_None in E as ->. rewrite Ha. cbn [mbind option_bind].
    rewrite arr_get_nat, Hi. f_equal. by eapply chain_head.
Qed.

(** Writing the slot after [l1] replaces the tail of the chain. *)
Lemma slot_write_at m a t i h l1 l2 l2' :
  hm_arrays m !! a = Some t -> t !! i = Some h -> chain (hm_nodes m) h (l1 ++ l2) ->
  NoDup l1 -> (forall q, q ∈ l1 -> q ∉ l2') -> chain (hm_nodes m) (head l2') l2' ->
  exists m', slot_write m (slot_at a i l1) (head l2') = Some m' /\
    (exists h', hm_arrays m' = <[a := <[i := h']> t]> (hm_arrays m) /\ chain (hm_nodes m') h' (l1 ++ l2')) /\
    same_off (list_to_set l1) (hm_nodes m) (hm_nodes m') /\ hcode <$> hm_nodes m' = hcode <$> hm_nodes m.
Proof.
  intros Ha Hi Hc Hnd Hd Hl2'. unfold slot_at.
  destruct (last l1) as [q|] eqn:E; simpl.
  - apply last_Some in E as (l1' & ->). rewrite <- app_assoc in Hc. simpl in Hc.
    destruct (chain_mid _ _ _ _ _ Hc) as (n & Hq & _).
    rewrite (store_upd_Some _ _ _ _ Hq). simpl. eexists. split; [done|]. cbn [hm_nodes hm_arrays with_nodes].
    apply NoDup_app in Hnd as (_ & Hdq & _). split_and!.
    + exists h. split; [by rewrite list_insert_id, insert_id|].
      rewrite <- app_assoc. simpl. clear Hi. revert h Hc.
      induction l1' as [|p l1' IH]; intros h; simpl.
      * intros (-> & _). split; [done|]. eexists. rewrite lookup_insert_eq. split; [done|].
        simpl. eapply chain_frame, Hl2'. intros r Hr. apply lookup_insert_ne.
        intros ->. apply (Hd r); set_solver.
      * intros (-> & n' & Hn' & Hc). split; [done|]. exists n'. split.
        { rewrite lookup_insert_ne; [done|]. intros ->. apply (Hdq p); set_solver. }
        apply IH; [intros; apply Hd; set_solver|intros; apply Hdq; set_solver|done].
    + auto with redis.
    + rewrite fmap_insert. apply insert_id. rewrite lookup_fmap, Hq. done.
  - apply last_None in E as ->. rewrite Ha. cbn [mbind option_bind].
    rewrite arr_set_nat by (by eapply lookup_lt_Some). simpl.
    eexists. split_and!; [done| |done|done]. by eexists.
Qed.

(** ** Tables *)

(** Bucket [i] holds the nodes whose hash code selects [i]. *)
Definition hashed (m : gmap ptr HNode) (msk : Z) (bs : list (list ptr)) : Prop :=
  forall i b p, bs !! i = Some b -> p ∈ b ->
    exists n, m !! p = Some n /\ Z.land (hcode n) msk = Z.of_nat i.

(** The array [t] of a table and its chains. *)
Record table_ok (m : gmap ptr HNode) (htab : HTab) (t : buckets) (bs : list (list ptr)) : Prop := {
  to_chains : Forall2 (chain m) t bs;
  to_mask : mask htab = zlen bs - 1;
  to_pow : exists k, 0 < k /\ zlen bs = 2 ^ k;
  to_size : tab_size htab = zlen (concat bs);
  to_hashed : hashed m (mask htab) bs
}.

Definition tab_rep (m : hmem) (htab : HTab) (bs : list (list ptr)) : Prop :=
  match tab htab with
  | None => htab = htab_null /\ bs = []
  | Some a => exists t, hm_arrays m !! a = Some t /\ table_ok (hm_nodes m) htab t bs
  end.

Lemma table_ok_frame m m' htab t bs :
  (forall p, p ∈ concat bs -> m' !! p = m !! p) -> table_ok m htab t bs -> table_ok m' htab t bs.
Proof.
  intros Hm [Ht Hmask Hk Hsz Hh]. split; try done.
  - apply Forall2_same_length_lookup_2; [by eapply Forall2_length|].
    intros i h b Hi Hb. eapply chain_frame; [|by eapply Forall2_lookup_lr].
    intros p Hp. apply Hm, elem_of_concat. eauto.
  - intros i b p Hb Hp. destruct (Hh _ _ _ Hb Hp) as (n & Hn & Hl). exists n. split; [|done].
    rewrite Hm; [done|]. apply elem_of_concat. eauto.
Qed.

Lemma tab_rep_frame m m' htab bs :
  (forall p, p ∈ concat bs -> hm_nodes m' !! p = hm_nodes m !! p) ->
  (forall a, tab htab = Some a -> hm_arrays m' !! a = hm_arrays m !! a) ->
  tab_rep m htab bs -> tab_rep m' htab bs.
Proof.
  unfold tab_rep. intros Hm Ha. destruct (tab htab) as [a|]; [|done]. rewrite (Ha a eq_refl).
  intros (t & Ht & Hok). exists t. split; [done|]. by eapply table_ok_frame.
Qed.

Lemma tab_rep_size m htab bs : tab_rep m htab bs -> tab_size htab = zlen (concat bs).
Proof. unfold tab_rep. destruct (tab htab); [by intros (t & _ & [])|]. by intros (-> & ->). Qed.

Lemma tab_rep_dom m htab bs p : tab_rep m htab bs -> p ∈ concat bs -> is_Some (hm_nodes m !! p).
Proof.
  unfold tab_rep. destruct (tab htab) as [a|].
  - intros (t & _ & Hok) (i & b & Hi & Hp)%elem_of_concat.
    destruct (to_hashed _ _ _ _ Hok _ _ _ Hi Hp) as (n & -> & _). eauto.
  - intros (_ & ->) Hp. by apply elem_of_nil in Hp.
Qed.

(** ** The arrays of the other tables *)

(** [drop a ts]: the arrays without the one at [a]. *)
Definition drop_array (a : option ptr) (ts : gmap ptr buckets) : gmap ptr buckets :=
  match a with None => ts | Some a => delete a ts end.

Lemma drop_array_comm a b ts : drop_array a (drop_array b ts) = drop_array b (drop_array a ts).
Proof. destruct a, b; try done. apply delete_delete. Qed.

(** The same arrays but the one at [a]. *)
Definition same_arrays (a : option ptr) (m m' : hmem) : Prop :=
  drop_array a (hm_arrays m') = drop_array a (hm_arrays m).

Lemma same_arrays_lookup a m m' b : same_arrays a m m' -> a <> Some b -> hm_arrays m' !! b = hm_arrays m !! b.
Proof.
  unfold same_arrays. destruct a as [a|]; cbn [drop_array]; [|congruence]. intros H Hb.
  apply (f_equal (.!! b)) in H. by rewrite !lookup_delete_ne in H by congruence.
Qed.

Lemma same_arrays_insert m ns a t : same_arrays (Some a) m (mkHmem ns (<[a := t]> (hm_arrays m))).
Proof. apply delete_insert_eq. Qed.

Lemma fresh_array m : hm_arrays m !! fresh (dom (hm_arrays m)) = None.
Proof. apply not_elem_of_dom, is_fresh. Qed.

(** A new table; the other arrays are as before. *)
Lemma h_init_spec m k :
  0 < k -> exists m' htab, h_init m (2 ^ k) = Some (m', htab) /\ tab htab <> None /\
    tab_rep m' htab (replicate (Z.to_nat (2 ^ k)) []) /\
    hm_nodes m' = hm_nodes m /\ drop_array (tab htab) (hm_arrays m') = hm_arrays m /\
    (forall a, tab htab = Some a -> hm_arrays m !! a = None).
Proof.
  intros Hk. assert (0 < 2 ^ k) by (apply Z.pow_pos_nonneg; lia).
  unfold h_init. rewrite option_guard_True by (split; [done|apply land_pow2_self; lia]).
  simpl. do 2 eexists. split_and!; [done|done| |done|by apply delete_insert_id, fresh_array|by intros a [= <-]; apply fresh_array].
  eexists. split; [apply lookup_insert_eq|].
  split; cbn [mask tab_size]; unfold zlen; rewrite ?length_replicate, ?concat_replicate_nil, ?Z2Nat.id by lia; try done.
  - apply Forall2_same_length_lookup_2; [by rewrite !length_replicate|].
    intros i h b. rewrite !lookup_replicate. intros (-> & _) (-> & _). done.
  - eauto.
  - intros i b p (-> & _)%lookup_replicate Hp. by apply elem_of_nil in Hp.
Qed.

(** The bucket a hash code selects is a bucket of the table. *)
Lemma table_bucket m htab t bs h :
  table_ok m htab t bs ->
  exists i b hd, Z.land h (mask htab) = Z.of_nat i /\ bs !! i = Some b /\
    t !! i = Some hd /\ chain m hd b.
Proof.
  intros [Hf Hmask (k & Hk & Hlen) _ _].
  rewrite Hmask, Hlen, land_pow2_pred by lia.
  assert (0 < 2 ^ k) by (apply Z.pow_pos_nonneg; lia).
  pose proof (Z.mod_pos_bound h (2 ^ k) ltac:(lia)) as Hr.
  destruct (lookup_lt_is_Some_2 bs (Z.to_nat (h mod 2 ^ k))) as [b Hb]; [unfold zlen in *; lia|].
  destruct (Forall2_lookup_r _ _ _ _ _ Hf Hb) as (hd & Hhd & Hc).
  exists (Z.to_nat (h mod 2 ^ k)), b, hd. split_and!; try done. lia.
Qed.

(** One chain changes: the others need only their nodes. *)
Lemma chains_insert m m' t bs i h' b' :
  Forall2 (chain m) t bs -> chain m' h' b' ->
  (forall j b, j <> i -> bs !! j = Some b -> forall p, p ∈ b -> m' !! p = m !! p) ->
  Forall2 (chain m') (<[i := h']> t) (<[i := b']> bs).
Proof.
  intros Hf Hc Ho. pose proof (Forall2_length _ _ _ Hf) as Hlen.
  apply Forall2_same_length_lookup_2; [by rewrite !length_insert|]. intros j h b Hj Hb.
  apply list_lookup_insert_Some in Hb as [(<- & <- & Hi)|[Hne Hb]].
  - rewrite list_lookup_insert_eq in Hj by lia. by injection Hj as <-.
  - rewrite list_lookup_insert_ne in Hj by done. eapply chain_frame; [|by eapply Forall2_lookup_lr]. eauto.
Qed.

Lemma h_insert_table m htab t bs p n i b hd :
  table_ok m htab t bs -> m !! p = Some n -> p ∉ concat bs -> zlen (concat bs) + 1 < 2 ^ 64 ->
  Z.land (hcode n) (mask htab) = Z.of_nat i -> bs !! i = Some b -> chain m hd b ->
  table_ok (<[p := with_next hd n]> m) (mkHTab (tab htab) (mask htab) (u64 (tab_size htab + 1)))
    (<[i := Some p]> t) (<[i := p :: b]> bs).
Proof.
  intros [Hf Hmask Hk Hts Hh] Hp Hn Hsz Hl Hb Hc.
  assert (Hlen : zlen (concat (<[i:=p :: b]> bs)) = zlen (concat bs) + 1).
  { pose proof (concat_add bs i b p Hb) as H%Permutation_length. unfold zlen. simpl in *. lia. }
  assert (Hpc : forall j b', bs !! j = Some b' -> p ∉ b')
    by (intros j b' Hj Hpb; apply Hn, elem_of_concat; eauto).
  assert (Hoff : forall j b', bs !! j = Some b' -> forall q, q ∈ b' -> <[p := with_next hd n]> m !! q = m !! q).
  { intros j b' Hj q Hq. apply lookup_insert_ne. intros ->. by eapply Hpc. }
  split; cbn [mask tab_size]; rewrite ?zlen_insert, ?Hts, ?Hlen; try done.
  - apply (chains_insert m); [done| |intros j b' _; apply Hoff]. split; [done|]. eexists. rewrite lookup_insert_eq. split; [done|].
    eapply chain_frame, Hc. by eapply Hoff.
  - rewrite u64_small; [done|]. pose proof (zlen_nonneg (concat bs)). lia.
  - intros j b' q [(<- & <- & _)|[Hne Hb']]%list_lookup_insert_Some Hq.
    + apply elem_of_cons in Hq as [->|Hq]; [rewrite lookup_insert_eq; by eexists|].
      rewrite (Hoff _ _ Hb) by done. by eapply Hh.
    + rewrite (Hoff _ _ Hb') by done. by eapply Hh.
Qed.

Lemma h_insert_spec m htab bs p n :
  tab_rep m htab bs -> tab htab <> None -> hm_nodes m !! p = Some n -> p ∉ concat bs ->
  zlen (concat bs) + 1 < 2 ^ 64 ->
  exists m' htab' i b, h_insert m htab p = Some (m', htab') /\
    bs !! i = Some b /\ tab_rep m' htab' (<[i := p :: b]> bs) /\ tab htab' = tab htab /\
    same_off {[p]} (hm_nodes m) (hm_nodes m') /\ hcode <$> hm_nodes m' = hcode <$> hm_nodes m /\
    same_arrays (tab htab) m m'.
Proof.
  unfold tab_rep at 1. intros Hrep Hne Hp Hn Hsz. destruct (tab htab) as [a|] eqn:Ea; [clear Hne|done].
  destruct Hrep as (t & Ht & Hok). destruct (table_bucket _ _ _ _ (hcode n) Hok) as (i & b & hd & Hl & Hb & Hhd & Hc).
  pose proof (h_insert_table _ _ _ _ p n i b hd Hok Hp Hn Hsz Hl Hb Hc) as Hok'.
  unfold h_insert. rewrite Hp, bind_Some_l, Ea, bind_Some_l, Hl. cbn [slot_read]. rewrite Ht, bind_Some_l, arr_get_nat, Hhd, bind_Some_l.
  cbn [slot_write]. rewrite (store_upd_Some _ _ _ _ Hp), !bind_Some_l. cbn [hm_arrays with_nodes].
  rewrite Ht, bind_Some_l, arr_set_nat, !bind_Some_l by (by eapply lookup_lt_Some).
  eexists _, _, i, b. split; [done|]. split; [done|]. rewrite Ea in Hok'. split; [|split; [done|split; [|split]]].
  - eexists. split; [apply lookup_insert_eq|exact Hok'].
  - cbn. auto with redis.
  - cbn. rewrite fmap_insert. apply insert_id. by rewrite lookup_fmap, Hp.
  - apply same_arrays_insert.
Qed.

Lemma lookup_hcode (m m' : gmap ptr HNode) p n :
  hcode <$> m' = hcode <$> m -> m !! p = Some n -> exists n', m' !! p = Some n' /\ hcode n' = hcode n.
Proof.
  intros H Hp. assert (Hq : (hcode <$> m') !! p = Some (hcode n)) by (by rewrite H, lookup_fmap, Hp).
  rewrite lookup_fmap in Hq. destruct (m' !! p) as [n'|]; simplify_eq/=. eauto.
Qed.

Lemma h_detach_table m m' htab t bs i l1 p l2 h' :
  table_ok m htab t bs -> NoDup (concat bs) -> bs !! i = Some (l1 ++ p :: l2) -> zlen (concat bs) < 2 ^ 64 ->
  chain m' h' (l1 ++ l2) -> same_off (list_to_set l1) m m' -> hcode <$> m' = hcode <$> m ->
  table_ok m' (mkHTab (tab htab) (mask htab) (u64 (tab_size htab - 1))) (<[i := h']> t) (<[i := l1 ++ l2]> bs).
Proof.
  intros [Hf Hmask Hk Hts Hh] Hnd Hb Hsz Hc' Hoff Hcode.
  assert (Hlen : zlen (concat (<[i:=l1 ++ l2]> bs)) = zlen (concat bs) - 1 /\ 1 <= zlen (concat bs)).
  { pose proof (concat_remove bs i _ _ _ Hb) as H%Permutation_length. unfold zlen. simpl in *. lia. }
  destruct Hlen as [Hlen Hlen1].
  split; cbn [mask tab_size]; rewrite ?zlen_insert, ?Hts, ?Hlen; try done.
  - apply (chains_insert m); [done..|]. intros j b' Hne Hb' q Hq. apply Hoff. rewrite elem_of_list_to_set. intros Hq1.
    apply Hne. symmetry. eapply (NoDup_concat_index bs i j); [done..| |done]. set_solver.
  - rewrite u64_small; lia.
  - intros j b' q Hb' Hq.
    apply list_lookup_insert_Some in Hb'.
    assert (exists b0, bs !! j = Some b0 /\ q ∈ b0) as (b0 & Hb0 & Hq0).
    { destruct Hb' as [(<- & <- & _)|[_ Hb']]; [|by exists b']. eexists. split; [done|]. set_solver. }
    destruct (Hh _ _ _ Hb0 Hq0) as (nq & Hnq & Hl).
    destruct (lookup_hcode _ _ _ _ Hcode Hnq) as (nq' & ? & ?). exists nq'. split; congruence.
Qed.

Lemma h_detach_spec m htab bs a i l1 p l2 :
  tab_rep m htab bs -> tab htab = Some a -> NoDup (concat bs) -> bs !! i = Some (l1 ++ p :: l2) ->
  zlen (concat bs) < 2 ^ 64 ->
  exists m' htab', h_detach m htab (slot_at a i l1) = Some (m', htab', p) /\
    tab_rep m' htab' (<[i := l1 ++ l2]> bs) /\ tab htab' = tab htab /\
    same_off (list_to_set (concat bs)) (hm_nodes m) (hm_nodes m') /\ hcode <$> hm_nodes m' = hcode <$> hm_nodes m /\
    same_arrays (tab htab) m m'.
Proof.
  unfold tab_rep at 1. intros Hrep Ea Hnd Hb Hsz. rewrite Ea in Hrep. destruct Hrep as (t & Ht & Hok).
  destruct (Forall2_lookup_r _ _ _ _ _ (to_chains _ _ _ _ Hok) Hb) as (hd & Hhd & Hc).
  pose proof (NoDup_concat_bucket _ _ _ Hnd Hb) as Hndb.
  unfold h_detach. rewrite (slot_read_at _ _ _ _ _ _ _ Ht Hhd Hc). cbn [head]. rewrite !bind_Some_l.
  destruct (chain_mid _ _ _ _ _ Hc) as (n & Hp & Hc2). rewrite Hp, bind_Some_l.
  assert (Hnx : next n = head l2) by (by eapply chain_head). rewrite Hnx in Hc2. rewrite Hnx.
  apply NoDup_app in Hndb as (Hnd1 & Hd1 & _).
  destruct (slot_write_at m a t i hd l1 (p :: l2) l2) as (m' & Ew & (h' & Ha' & Hc') & Hoff & Hcode);
    [done|done|done|done|set_solver|done|].
  rewrite Ew, bind_Some_l. do 2 eexists. split; [done|].
  pose proof (h_detach_table _ _ _ _ _ _ _ _ _ _ Hok Hnd Hb Hsz Hc' Hoff Hcode) as Hok'.
  split; [|split; [done|split; [|split; [done|]]]].
  - unfold tab_rep. cbn [tab]. rewrite Ea in Hok' |- *. eexists. rewrite Ha'. split; [apply lookup_insert_eq|exact Hok'].
  - eapply same_off_weaken, Hoff. intros q. rewrite !elem_of_list_to_set. intros Hq.
    apply elem_of_concat. do 2 eexists. split; [done|]. set_solver.
  - rewrite Ea. unfold same_arrays. rewrite Ha'. apply delete_insert_eq.
Qed.

(** ** Maps *)

(** The chains of the two tables; the buckets of the older table before
    [migrate_pos] are empty; sizes stay far from the word size. *)
Record hm_shape (m : hmem) (hm : HMap) (bn bo : list (list ptr)) : Prop := {
  shape_newer : tab_rep m (newer hm) bn;
  shape_older : tab_rep m (older hm) bo;
  shape_nodup : NoDup (concat bn ++ concat bo);
  shape_both : tab (older hm) <> None -> tab (newer hm) <> None;
  shape_apart : tab (newer hm) <> None -> tab (newer hm) <> tab (older hm);
  shape_pos : 0 <= migrate_pos hm;
  shape_pos_max : tab (older hm) <> None -> migrate_pos hm <= zlen bo;
  shape_migrated : forall i b, bo !! i = Some b -> Z.of_nat i < migrate_pos hm -> b = [];
  shape_buckets : zlen bn <= 2 ^ 58 /\ zlen bo <= 2 ^ 58;
  shape_nodes : zlen (concat bn ++ concat bo) < 2 ^ 60
}.

(** The load: below 8 nodes per bucket when no rehashing is in progress, and
    during rehashing enough room to finish before the next resize. *)
Definition hm_load (bn bo : list (list ptr)) : Prop :=
  match bo with
  | [] => bn = [] \/ zlen (concat bn) < 8 * zlen bn
  | _ => 128 * zlen (concat bn ++ concat bo) + zlen (concat bo) <= 1024 * zlen bn - 129
  end.

Definition hm_rep (m : hmem) (hm : HMap) (X : gset ptr) : Prop :=
  exists bn bo, hm_shape m hm bn bo /\ hm_load bn bo /\
    X = list_to_set (concat bn ++ concat bo).

(** The arrays that are not the map's. *)
Definition others (m : hmem) (hm : HMap) : gmap ptr buckets :=
  drop_array (tab (newer hm)) (drop_array (tab (older hm)) (hm_arrays m)).

(** The arrays of the map. *)
Definition own_arrays (hm : HMap) : gset ptr :=
  list_to_set (omap id [tab (newer hm); tab (older hm)]).

Lemma elem_of_own a hm : a ∈ own_arrays hm <-> tab (newer hm) = Some a \/ tab (older hm) = Some a.
Proof.
  unfold own_arrays. rewrite elem_of_list_to_set, list_elem_of_omap. split.
  - intros (x & Hx & E). cbn in E. subst x. apply elem_of_cons in Hx as [->|Hx]; [by left|].
    apply list_elem_of_singleton in Hx as ->. by right.
  - intros [H|H]; exists (Some a); (split; [|done]); rewrite <- H; set_solver.
Qed.

Lemma others_newer m m' new' old' pos hm :
  same_arrays (tab (newer hm)) m m' -> tab new' = tab (newer hm) -> tab old' = tab (older hm) ->
  others m' (mkHMap new' old' pos) = others m hm.
Proof.
  unfold others, same_arrays. cbn [newer older]. intros H -> ->.
  by rewrite (drop_array_comm (tab (newer hm))), H, drop_array_comm.
Qed.

Lemma others_older m m' new' old' pos hm :
  same_arrays (tab (older hm)) m m' -> tab new' = tab (newer hm) -> tab old' = tab (older hm) ->
  others m' (mkHMap new' old' pos) = others m hm.
Proof. unfold others, same_arrays. cbn [newer older]. intros H -> ->. by rewrite H. Qed.

(** What every operation preserves of the store: the hash codes, the set of
    nodes, and the nodes outside the map. *)
Definition hstep (X : gset ptr) (m m' : hmem) : Prop :=
  same_off X (hm_nodes m) (hm_nodes m') /\ hcode <$> hm_nodes m' = hcode <$> hm_nodes m.

#[export] Instance hstep_preorder X : PreOrder (hstep X).
Proof.
  split.
  - intros m. by split.
  - intros m1 m2 m3 [H1 H1'] [H2 H2']. split; [by transitivity (hm_nodes m2)|congruence].
Qed.

Lemma hstep_weaken X Y m m' : X ⊆ Y -> hstep X m m' -> hstep Y m m'.
Proof. intros ? [? ?]. split; [by eapply same_off_weaken|done]. Qed.

Lemma hstep_hcode X m m' p n :
  hstep X m m' -> hm_nodes m !! p = Some n -> exists n', hm_nodes m' !! p = Some n' /\ hcode n' = hcode n.
Proof. intros [_ H]. by apply lookup_hcode. Qed.

Lemma hstep_dom X m m' : hstep X m m' -> dom (hm_nodes m') = dom (hm_nodes m).
Proof. intros [_ H]. rewrite <- (dom_fmap_L hcode (hm_nodes m')), H. apply dom_fmap_L. Qed.

(** Only the nodes count. *)
Lemma hstep_nodes X m m' : hm_nodes m' = hm_nodes m -> hstep X m m'.
Proof. intros H. unfold hstep. by rewrite H. Qed.

Lemma zlen_perm {A} (l k : list A) : l ≡ₚ k -> zlen l = zlen k.
Proof. unfold zlen. by intros ->. Qed.

(** A non-empty bucket of the older table is at [migrate_pos] or after. *)
Lemma shape_migrate_bound m hm bn bo :
  hm_shape m hm bn bo -> 0 < zlen (concat bo) ->
  exists b, bo !! Z.to_nat (migrate_pos hm) = Some b.
Proof.
  intros Hs Hpos. destruct (concat bo) as [|p l] eqn:E; [unfold zlen in Hpos; simpl in Hpos; lia|].
  assert (Hp : p ∈ concat bo) by (rewrite E; set_solver).
  apply elem_of_concat in Hp as (i & b & Hi & Hp).
  assert (migrate_pos hm <= Z.of_nat i).
  { destruct (Z.le_gt_cases (migrate_pos hm) (Z.of_nat i)); [done|].
    rewrite (shape_migrated _ _ _ _ Hs i b Hi) in Hp by lia. by apply elem_of_nil in Hp. }
  apply lookup_lt_Some in Hi. pose proof (shape_pos _ _ _ _ Hs).
  apply lookup_lt_is_Some_2. lia.
Qed.

(** Moving the first node of the bucket at [migrate_pos]. *)
Lemma hm_move_spec m hm bn bo p rest a :
  hm_shape m hm bn bo -> tab (older hm) = Some a -> bo !! Z.to_nat (migrate_pos hm) = Some (p :: rest) ->
  exists m1 old' m2 new' bn' bo',
    h_detach m (older hm) (Bucket a (migrate_pos hm)) = Some (m1, old', p) /\
    h_insert m1 (newer hm) p = Some (m2, new') /\
    hm_shape m2 (mkHMap new' old' (migrate_pos hm)) bn' bo' /\
    concat bn' ++ concat bo' ≡ₚ concat bn ++ concat bo /\
    zlen bn' = zlen bn /\ zlen bo' = zlen bo /\ zlen (concat bo') = zlen (concat bo) - 1 /\
    hstep (list_to_set (concat bn ++ concat bo)) m m2 /\ tab old' = tab (older hm) /\
    others m2 (mkHMap new' old' (migrate_pos hm)) = others m hm.
Proof.
  intros Hs Ea Hb. assert (Hs' := Hs). destruct Hs' as [Hnr Hor Hnd Hboth Hap Hpos Hpmax Hmig Hbk Hmax].
  rewrite zlen_app in Hmax. pose proof (zlen_nonneg (concat bn)). pose proof (zlen_nonneg (concat bo)).
  pose proof Hnd as (Hndn & Hdisj & Hndo)%NoDup_app.
  destruct (h_detach_spec m (older hm) bo a _ [] p rest Hor Ea Hndo Hb)
    as (m1 & old' & Ed & Hold & Hto & Hoff1 & Hcode1 & Har1); [lia|].
  unfold slot_at in Ed. cbn [last] in Ed. rewrite Z2Nat.id in Ed by done. cbn [app] in Hold.
  pose proof (concat_remove bo _ [] _ _ Hb) as Hperm1. cbn [app] in Hperm1.
  set (bo' := <[Z.to_nat (migrate_pos hm):=rest]> bo) in *.
  assert (Hpo : p ∈ concat bo) by (rewrite <- Hperm1; set_solver).
  assert (Hpn : p ∉ concat bn) by (intros Hp; by apply (Hdisj p)).
  assert (Hpo' : p ∉ concat bo') by (rewrite <- Hperm1 in Hndo; by apply NoDup_cons in Hndo as (? & _)).
  assert (Hstep1 : hstep (list_to_set (concat bo)) m m1) by (by split).
  destruct (tab_rep_dom _ _ _ p Hor Hpo) as [n0 Hn0].
  destruct (hstep_hcode _ _ _ _ _ Hstep1 Hn0) as (n & Hn & _).
  assert (Htn : tab (newer hm) <> None) by (apply Hboth; congruence).
  assert (Hnew1 : tab_rep m1 (newer hm) bn).
  { eapply tab_rep_frame, Hnr.
    - intros q Hq. apply Hoff1. rewrite elem_of_list_to_set. intros ?. by apply (Hdisj q).
    - intros b Eb. apply (same_arrays_lookup _ _ _ _ Har1). intros Eo. apply Hap; congruence. }
  destruct (h_insert_spec m1 (newer hm) bn p n Hnew1) as
    (m2 & new' & i & b & Ei & Hbi & Hnew & Hnn & Hoff2 & Hcode2 & Har2); [done|done|done|lia|].
  pose proof (concat_add bn i b p Hbi) as Hperm2.
  assert (Hperm : concat (<[i:=p :: b]> bn) ++ concat bo' ≡ₚ concat bn ++ concat bo).
  { rewrite Hperm2, <- Hperm1. simpl. solve_Permutation. }
  assert (Hlo : zlen bo' = zlen bo) by apply zlen_insert.
  exists m1, old', m2, new', (<[i:=p :: b]> bn), bo'.
  split; [exact Ed|]. split; [exact Ei|]. split; [|split_and!; try done].
  - split; cbn [newer older migrate_pos]; rewrite ?zlen_insert, ?Hlo, ?Hnn, ?Hto; try done.
    + eapply tab_rep_frame, Hold.
      * intros q Hq. apply Hoff2. rewrite elem_of_singleton. by intros ->.
      * intros b' Eb. apply (same_arrays_lookup _ _ _ _ Har2). intros En. rewrite Hto in Eb. apply Hap; congruence.
    + by rewrite Hperm.
    + intros j b' Hj Hlt. unfold bo' in Hj. rewrite list_lookup_insert_ne in Hj by lia. eauto.
    + rewrite (zlen_perm _ _ Hperm), zlen_app. lia.
  - by rewrite zlen_insert.
  - apply zlen_perm in Hperm1. unfold zlen in *. simpl in *. lia.
  - transitivity m1; [eapply hstep_weaken, Hstep1; rewrite list_to_set_app; set_solver|].
    split; [|done]. eapply same_off_weaken, Hoff2. rewrite list_to_set_app. set_solver.
  - rewrite (others_newer m1 m2 _ _ _ (mkHMap (newer hm) old' 0)); [|done..].
    by apply others_older.
Qed.

(** Same nodes, same numbers of buckets, and how many nodes are left to move. *)
Definition hm_moved (work : Z) (m m' : hmem) (bn bo bn' bo' : list (list ptr)) : Prop :=
  concat bn' ++ concat bo' ≡ₚ concat bn ++ concat bo /\
  zlen bn' = zlen bn /\ zlen bo' = zlen bo /\
  zlen (concat bo') = zlen (concat bo) - Z.min work (zlen (concat bo)) /\
  hstep (list_to_set (concat bn ++ concat bo)) m m'.

Lemma list_to_set_perm (l k : list ptr) : l ≡ₚ k -> list_to_set (C := gset ptr) l = list_to_set k.
Proof. intros H. apply leibniz_equiv. intros x. rewrite !elem_of_list_to_set. by rewrite H. Qed.

(** Skipping an empty bucket. *)
Lemma shape_skip m hm bn bo :
  hm_shape m hm bn bo -> 0 < zlen (concat bo) -> bo !! Z.to_nat (migrate_pos hm) = Some [] ->
  u64 (migrate_pos hm + 1) = migrate_pos hm + 1 /\
  hm_shape m (mkHMap (newer hm) (older hm) (migrate_pos hm + 1)) bn bo.
Proof.
  intros Hs Hpos Hb. pose proof (lookup_lt_Some _ _ _ Hb) as Hlb. pose proof (shape_pos _ _ _ _ Hs) as Hp0.
  split; [pose proof (shape_buckets _ _ _ _ Hs) as [_ Hbo]; apply u64_small; unfold zlen in Hbo; lia|].
  destruct Hs as [? ? ? ? ? ? ? Hmig ? ?]. split; cbn [newer older migrate_pos]; try done; [lia| |].
  - intros _. unfold zlen. lia.
  - intros i b Hi Hlt'. destruct (decide (Z.of_nat i = migrate_pos hm)) as [Hi'|Hi'].
    + rewrite <- Hi', Nat2Z.id in Hb. by simplify_eq.
    + apply (Hmig i b Hi). lia.
Qed.

Lemma hm_help_loop_spec fuel : forall nwork m hm bn bo,
  hm_shape m hm bn bo -> 0 <= nwork <= 128 ->
  (Z.to_nat (128 - nwork) + (length bo - Z.to_nat (migrate_pos hm)) <= fuel)%nat ->
  exists m' hm' bn' bo', hm_help_loop fuel nwork m hm = Some (m', hm') /\
    hm_shape m' hm' bn' bo' /\ hm_moved (128 - nwork) m m' bn bo bn' bo' /\
    tab (older hm') = tab (older hm) /\ others m' hm' = others m hm.
Proof.
  induction fuel as [|fuel IH]; intros nwork m hm bn bo Hs Hw Hfuel; cbn [hm_help_loop];
    unfold k_rehashing_work;
    rewrite (tab_rep_size _ _ _ (shape_older _ _ _ _ Hs)); pose proof (zlen_nonneg (concat bo)).
  all: destruct (Z.ltb_spec nwork 128) as [Hlt|Hge]; cbn [andb];
    [destruct (Z.ltb_spec 0 (zlen (concat bo))) as [Hpos|Hzero]|].
  all: try solve [exists m, hm, bn, bo; unfold hm_moved; split_and!; try done; try reflexivity; lia].
  destruct (shape_migrate_bound _ _ _ _ Hs Hpos) as [b Hb].
  pose proof (shape_pos _ _ _ _ Hs) as Hp0.
  destruct (tab (older hm)) as [a|] eqn:Et.
  2: { pose proof (shape_older _ _ _ _ Hs) as Hr. unfold tab_rep in Hr. rewrite Et in Hr.
       destruct Hr as (_ & ->). done. }
  rewrite bind_Some_l. pose proof (shape_older _ _ _ _ Hs) as Hr. unfold tab_rep in Hr. rewrite Et in Hr.
  destruct Hr as (t & Ht & Hok).
  destruct (Forall2_lookup_r _ _ _ _ _ (to_chains _ _ _ _ Hok) Hb) as (hd & Hhd & Hc).
  cbn [slot_read]. rewrite Ht, bind_Some_l, arr_get_Z, Hhd, bind_Some_l by done.
  pose proof (lookup_lt_Some _ _ _ Hb) as Hlb. destruct b as [|p rest]; cbn [chain] in Hc.
  - subst hd. destruct (shape_skip _ _ _ _ Hs Hpos Hb) as [Hu Hs'].
    destruct (IH nwork m (mkHMap (newer hm) (older hm) (migrate_pos hm + 1)) bn bo)
      as (m' & hm' & bn' & bo' & E & H'); [done|done|cbn [migrate_pos]; lia|].
    rewrite Hu. exists m', hm', bn', bo'. split; [exact E|]. by rewrite <- Et.
  - destruct Hc as (-> & _).
    destruct (hm_move_spec _ _ _ _ _ _ _ Hs Et Hb) as
      (m1 & old' & m2 & new' & bn1 & bo1 & Ed & Ei & Hs1 & Hperm & Hn & Ho & Hsz & Hst & Hto & Hot).
    rewrite Ed, bind_Some_l, Ei, bind_Some_l.
    destruct (IH (nwork + 1) m2 (mkHMap new' old' (migrate_pos hm)) bn1 bo1)
      as (m' & hm' & bn' & bo' & E & Hs' & (Hperm' & Hn' & Ho' & Hsz' & Hst') & Hnull & Hot');
      [done|lia|cbn [migrate_pos]; unfold zlen in Ho; lia|].
    exists m', hm', bn', bo'. split; [exact E|]. split; [done|]. split; [|cbn [older] in Hnull; split; congruence].
    unfold hm_moved. split_and!; [by rewrite Hperm', Hperm|congruence|congruence|lia|].
    transitivity m2; [done|]. by rewrite <- (list_to_set_perm _ _ Hperm).
Qed.

Lemma tab_rep_null m htab bs : tab_rep m htab bs -> tab htab = None <-> bs = [].
Proof.
  unfold tab_rep. destruct (tab htab) as [a|]; [|tauto]. intros (t & _ & [_ _ (k & Hk & Hlen) _ _]).
  split; [done|]. intros ->. unfold zlen in Hlen. simpl in Hlen. pose proof (Z.pow_pos_nonneg 2 k). lia.
Qed.

(** [free(older.tab)] when the older table is empty: the array is gone. *)
Lemma hm_discard_spec m hm bn bo :
  hm_shape m hm bn bo ->
  exists m' hm' bo', hm_discard m hm = Some (m', hm') /\ hm_shape m' hm' bn bo' /\ concat bo' = concat bo /\
    (concat bo = [] -> bo' = []) /\ (concat bo <> [] -> bo' = bo) /\
    hm_nodes m' = hm_nodes m /\ others m' hm' = others m hm.
Proof.
  intros Hs. unfold hm_discard. rewrite (tab_rep_size _ _ _ (shape_older _ _ _ _ Hs)).
  pose proof (tab_rep_null _ _ _ (shape_older _ _ _ _ Hs)) as Hnull.
  destruct (Z.eqb_spec (zlen (concat bo)) 0) as [Hz|Hz]; cbn [andb].
  - assert (Hnil : concat bo = []) by (destruct (concat bo); [done|unfold zlen in Hz; simpl in Hz; lia]).
    pose proof (shape_older _ _ _ _ Hs) as Hr. unfold tab_rep in Hr.
    destruct (tab (older hm)) as [a|] eqn:Ea.
    + rewrite bool_decide_eq_true_2 by done. cbn [free_array]. destruct Hr as (t & Ht & _).
      rewrite Ht, !bind_Some_l. exists (with_arrays m (delete a (hm_arrays m))), (mkHMap (newer hm) htab_null (migrate_pos hm)), [].
      split; [done|]. split; [|split; [done|split; [done|split; [done|split; [done|]]]]].
      * destruct Hs as [Hnr ? Hnd1 ? Hap ? ? ? [? ?] Hmax]. rewrite Hnil, app_nil_r in *.
        split; cbn [newer older migrate_pos concat]; rewrite ?app_nil_r; try done.
        eapply tab_rep_frame, Hnr; [done|]. intros b Eb. cbn. apply lookup_delete_ne. intros <-. apply Hap; congruence.
      * unfold others. cbn [newer older hm_arrays with_arrays]. by rewrite Ea.
    + rewrite bool_decide_eq_false_2 by (by intros [? ?]). exists m, hm, bo. split_and!; try done. by intros _; apply Hnull.
  - exists m, hm, bo. split_and!; try done. intros E. by rewrite E in Hz.
Qed.

(** One call of [hm_help_rehashing] moves up to 128 nodes, and frees the older
    table as soon as it is empty. *)
Lemma hm_help_rehashing_spec m hm bn bo :
  hm_shape m hm bn bo ->
  exists m' hm' bn' bo', hm_help_rehashing m hm = Some (m', hm') /\
    hm_shape m' hm' bn' bo' /\
    concat bn' ++ concat bo' ≡ₚ concat bn ++ concat bo /\
    zlen bn' = zlen bn /\
    zlen (concat bo') = zlen (concat bo) - Z.min 128 (zlen (concat bo)) /\
    (concat bo' = [] -> bo' = []) /\ (bo = [] -> bo' = []) /\
    (tab (older hm') = None <-> bo' = []) /\
    hstep (list_to_set (concat bn ++ concat bo)) m m' /\ others m' hm' = others m hm.
Proof.
  intros Hs. unfold hm_help_rehashing.
  assert (Hbo : length (default [] (a ← tab (older hm); hm_arrays m !! a)) = length bo).
  { pose proof (shape_older _ _ _ _ Hs) as Hr. unfold tab_rep in Hr.
    destruct (tab (older hm)) as [a|]; [|by destruct Hr as [_ ->]].
    destruct Hr as (t & Ht & Hok). rewrite bind_Some_l, Ht. by eapply Forall2_length, to_chains. }
  destruct (hm_help_loop_spec (help_fuel m hm) 0 m hm bn bo Hs) as
    (m1 & hm1 & bn1 & bo1 & E & Hs1 & (Hperm & Hn & Ho & Hsz & Hst) & Hnull & Hot); [lia| |].
  { unfold help_fuel. rewrite Hbo. lia. }
  rewrite E, bind_Some_l. destruct (hm_discard_spec m1 hm1 bn1 bo1 Hs1) as
    (m2 & hm2 & bo2 & E2 & Hs2 & Hc & Hnil & Hsame & Hns & Hot2).
  exists m2, hm2, bn1, bo2. rewrite Hc. split_and!; try done.
  - intros ->. assert (bo1 = []) as -> by (unfold zlen in Ho; simpl in Ho; by destruct bo1). by apply Hnil.
  - by apply tab_rep_null with m2, shape_older with bn1.
  - transitivity m1; [done|by apply hstep_nodes].
  - congruence.
Qed.

(** ** Lookup *)

(** Node [p] is one the callback accepts for hash code [h]. *)
Definition hits (m : hmem) (h : Z) (eq : ptr -> option bool) (p : ptr) : Prop :=
  exists n, hm_nodes m !! p = Some n /\ hcode n = h /\ eq p = Some true.

(** The callback is defined on the nodes [l] it can be called on. *)
Definition eq_total (m : hmem) (h : Z) (eq : ptr -> option bool) (l : list ptr) : Prop :=
  forall p n, p ∈ l -> hm_nodes m !! p = Some n -> hcode n = h -> is_Some (eq p).

Lemma hits_step X m m' h eq p : hstep X m m' -> hits m' h eq p -> hits m h eq p.
Proof.
  intros [_ Hs] (n & Hn & Hh & He). destruct (lookup_hcode _ _ _ _ (eq_sym Hs) Hn) as (n' & ? & ?).
  exists n'. split_and!; congruence.
Qed.

Lemma hits_step_inv X m m' h eq p : hstep X m m' -> hits m h eq p -> hits m' h eq p.
Proof.
  intros Hs (n & Hn & Hh & He). destruct (hstep_hcode _ _ _ _ _ Hs Hn) as (n' & Hn' & Hc).
  exists n'. split_and!; congruence.
Qed.

Lemma eq_total_step X m m' h eq l : hstep X m m' -> eq_total m h eq l -> eq_total m' h eq l.
Proof.
  intros [_ Hs] H p n Hp Hn Hh. destruct (lookup_hcode _ _ _ _ (eq_sym Hs) Hn) as (n' & ? & ?).
  eapply H; [done|done|congruence].
Qed.

Lemma slot_at_next a i l1 q : slot_at a i (l1 ++ [q]) = NextOf q.
Proof. unfold slot_at. by rewrite last_snoc. Qed.

Lemma h_lookup_loop_spec m a t i hd h eq l2 : forall l1 fuel,
  hm_arrays m !! a = Some t -> t !! i = Some hd -> chain (hm_nodes m) hd (l1 ++ l2) -> eq_total m h eq l2 ->
  (length l2 < fuel)%nat ->
  (exists la p lb, l2 = la ++ p :: lb /\ hits m h eq p /\
     h_lookup_loop fuel m h eq (slot_at a i l1) = Some (Some (slot_at a i (l1 ++ la)))) \/
  (h_lookup_loop fuel m h eq (slot_at a i l1) = Some None /\
     forall p, p ∈ l2 -> ~ hits m h eq p).
Proof.
  induction l2 as [|q l2 IH]; intros l1 fuel Ha Hi Hc Ht Hfuel;
    (destruct fuel as [|fuel]; [simpl in Hfuel; lia|]); cbn [h_lookup_loop];
    rewrite (slot_read_at _ _ _ _ _ _ _ Ha Hi Hc); cbn [head mbind option_bind].
  { right. split; [done|]. set_solver. }
  destruct (chain_mid _ _ _ _ _ Hc) as (n & Hq & _). rewrite Hq. cbn [mbind option_bind].
  assert (Hgo : hits m h eq q \/ ((if hcode n =? h then eq q else Some false) = Some false /\
    ~ hits m h eq q)).
  { destruct (Z.eqb_spec (hcode n) h) as [Hh|Hh].
    - destruct (Ht q n) as [b Hb]; [set_solver|done..|]. destruct b.
      + left. by exists n.
      + right. split; [done|]. intros (n' & _ & _ & ?). congruence.
    - right. split; [done|]. intros (n' & ? & ? & _). congruence. }
  destruct Hgo as [Hit|[-> Hno]]; cbn [mbind option_bind].
  - destruct Hit as (n' & Hq' & Hh & He). simplify_eq. rewrite Z.eqb_refl, He.
    cbn [mbind option_bind]. left. exists [], q, l2. split; [done|].
    split; [by eexists|]. by rewrite app_nil_r.
  - rewrite <- (slot_at_next a i l1 q).
    destruct (IH (l1 ++ [q]) fuel) as [(la & p & lb & -> & Hit & E)|[E Hn]].
    + done.
    + done.
    + by rewrite <- app_assoc.
    + intros p' n' Hp'. apply Ht. set_solver.
    + simpl in Hfuel. lia.
    + left. exists (q :: la), p, lb. split_and!; [done|done|]. by rewrite E, <- app_assoc.
    + right. split; [done|]. intros p [->|Hp]%elem_of_cons; [done|]. by apply Hn.
Qed.

Lemma h_lookup_spec m htab bs h eq :
  tab_rep m htab bs -> NoDup (concat bs) -> eq_total m h eq (concat bs) ->
  (exists a i l1 p l2, tab htab = Some a /\ bs !! i = Some (l1 ++ p :: l2) /\ hits m h eq p /\
     h_lookup m htab h eq = Some (Some (slot_at a i l1))) \/
  (h_lookup m htab h eq = Some None /\ forall p, p ∈ concat bs -> ~ hits m h eq p).
Proof.
  intros Hrep Hnd Heq. unfold h_lookup. unfold tab_rep in Hrep.
  destruct (tab htab) as [a|] eqn:Ea; [|destruct Hrep as (_ & ->); right; set_solver].
  destruct Hrep as (t & Ht & Hok). destruct (table_bucket _ _ _ _ h Hok) as (i & b & hd & Hl & Hb & Hhd & Hc).
  rewrite Hl. change (Bucket a (Z.of_nat i)) with (slot_at a i []).
  assert (Hsub : forall p, p ∈ b -> p ∈ concat bs) by (intros p Hp; apply elem_of_concat; eauto).
  destruct (h_lookup_loop_spec m a t i hd h eq b [] (S (size (hm_nodes m))) Ht Hhd Hc)
    as [(la & p & lb & -> & Hit & E)|[E Hn]].
  - intros p n Hp. apply Heq. by apply Hsub.
  - apply Nat.lt_succ_r, nodes_length_le; [by eapply NoDup_concat_bucket|]. intros p Hp. by eapply chain_dom.
  - left. exists a, i, la, p, lb. done.
  - right. split; [done|]. intros p (j & b' & Hj & Hp)%elem_of_concat (n & Hn' & Hh & He).
    destruct (to_hashed _ _ _ _ Hok _ _ _ Hj Hp) as (n' & Hn'' & Hland). simplify_eq.
    rewrite Hland in Hl. apply Nat2Z.inj in Hl. subst j. simplify_eq.
    apply (Hn p Hp). eexists. by split_and!.
Qed.

Lemma slot_read_found m htab bs a i l1 p l2 :
  tab_rep m htab bs -> tab htab = Some a -> bs !! i = Some (l1 ++ p :: l2) ->
  slot_read m (slot_at a i l1) = Some (Some p).
Proof.
  intros Hrep Ea Hb. unfold tab_rep in Hrep. rewrite Ea in Hrep. destruct Hrep as (t & Ht & Hok).
  destruct (Forall2_lookup_r _ _ _ _ _ (to_chains _ _ _ _ Hok) Hb) as (hd & Hhd & Hc).
  by rewrite (slot_read_at _ _ _ _ _ _ _ Ht Hhd Hc).
Qed.

(** ** The operations *)

(** The load after one round of helping. *)
Lemma hm_load_help bn bo bn' bo' :
  concat bn' ++ concat bo' ≡ₚ concat bn ++ concat bo -> zlen bn' = zlen bn ->
  zlen (concat bo') = zlen (concat bo) - Z.min 128 (zlen (concat bo)) ->
  (concat bo' = [] -> bo' = []) -> (bo = [] -> bo' = []) ->
  (bo = [] -> hm_load bn bo) ->
  (bo <> [] -> 128 * zlen (concat bn ++ concat bo) + zlen (concat bo) <= 1024 * zlen bn - 1) ->
  hm_load bn' bo'.
Proof.
  intros Hperm Hn Ho Hnil Hbo Hl1 Hl2. apply zlen_perm in Hperm. rewrite !zlen_app in *.
  destruct bo as [|b bo].
  - rewrite Hbo in * by done. specialize (Hl1 eq_refl). cbn [hm_load concat] in *.
    destruct Hl1 as [->|Hl1]; [left|right; lia].
    unfold zlen in Hn. simpl in Hn. by destruct bn'.
  - specialize (Hl2 ltac:(done)). pose proof (zlen_nonneg (concat (b :: bo))).
    destruct bo' as [|b' bo']; cbn [hm_load].
    + right. cbn [concat] in *. change (zlen []) with 0 in *. lia.
    + rewrite zlen_app. assert (0 < zlen (concat (b' :: bo'))); [|lia].
      destruct (concat (b' :: bo')); [by specialize (Hnil eq_refl)|unfold zlen; simpl; lia].
Qed.

Lemma hm_help_rep m hm X :
  hm_rep m hm X ->
  exists m' hm' bn bo, hm_help_rehashing m hm = Some (m', hm') /\
    hm_shape m' hm' bn bo /\ hm_load bn bo /\ X = list_to_set (concat bn ++ concat bo) /\
    hstep X m m' /\ others m' hm' = others m hm.
Proof.
  intros (bn & bo & Hs & Hl & ->).
  destruct (hm_help_rehashing_spec m hm bn bo Hs) as
    (m' & hm' & bn' & bo' & E & Hs' & Hperm & Hn & Ho & Hnil & Hbo & _ & Hst & Hot).
  exists m', hm', bn', bo'. rewrite (list_to_set_perm _ _ Hperm). split_and!; try done.
  apply (hm_load_help bn bo); try done.
  intros Hne. destruct bo; [done|]. cbn [hm_load] in Hl. lia.
Qed.

Definition eq_total_on (m : hmem) (h : Z) (eq : ptr -> option bool) (X : gset ptr) : Prop :=
  forall p n, p ∈ X -> hm_nodes m !! p = Some n -> hcode n = h -> is_Some (eq p).

Lemma eq_total_on_sub m h eq X (l : list ptr) :
  (forall p, p ∈ l -> p ∈ X) -> eq_total_on m h eq X -> eq_total m h eq l.
Proof. intros Hl H p n Hp. apply H. by apply Hl. Qed.

(** The tables after a round of helping, ready for [h_lookup]. *)
Lemma hm_help_search m hm X h eq :
  hm_rep m hm X -> eq_total_on m h eq X ->
  exists m' hm' bn bo, hm_help_rehashing m hm = Some (m', hm') /\ hm_shape m' hm' bn bo /\ hm_load bn bo /\
    X = list_to_set (concat bn ++ concat bo) /\ hstep X m m' /\ others m' hm' = others m hm /\
    (NoDup (concat bn) /\ eq_total m' h eq (concat bn)) /\ (NoDup (concat bo) /\ eq_total m' h eq (concat bo)).
Proof.
  intros Hrep Heq. destruct (hm_help_rep m hm X Hrep) as (m' & hm' & bn & bo & E & Hs & Hl & -> & Hst & Hot).
  exists m', hm', bn, bo. pose proof (shape_nodup _ _ _ _ Hs) as (Hndn & _ & Hndo)%NoDup_app.
  split_and!; try done; (eapply eq_total_step; [exact Hst|]); eapply eq_total_on_sub, Heq;
    intros p Hp; rewrite elem_of_list_to_set, elem_of_app; auto.
Qed.

Lemma elem_of_bucket (bs : list (list ptr)) i l1 p l2 : bs !! i = Some (l1 ++ p :: l2) -> p ∈ concat bs.
Proof. intros Hb. apply elem_of_concat. do 2 eexists. split; [done|set_solver]. Qed.

Lemma hm_lookup_spec m hm X h eq :
  hm_rep m hm X -> eq_total_on m h eq X ->
  exists m' hm' r, hm_lookup m hm h eq = Some (m', hm', r) /\
    hm_rep m' hm' X /\ hstep X m m' /\ others m' hm' = others m hm /\
    match r with
    | Some p => p ∈ X /\ hits m h eq p
    | None => forall p, p ∈ X -> ~ hits m h eq p
    end.
Proof.
  intros Hrep Heq. destruct (hm_help_search m hm X h eq Hrep Heq) as
    (m' & hm' & bn & bo & E & Hs & Hl & -> & Hst & Hot & [Hndn Heqn] & [Hndo Heqo]).
  unfold hm_lookup. rewrite E, bind_Some_l.
  assert (Hrep' : hm_rep m' hm' (list_to_set (concat bn ++ concat bo))) by (by exists bn, bo).
  assert (Hin : forall p, p ∈ (list_to_set (concat bn ++ concat bo) : gset ptr) <-> p ∈ concat bn \/ p ∈ concat bo)
    by (intros p; by rewrite elem_of_list_to_set, elem_of_app).
  destruct (h_lookup_spec m' (newer hm') bn h eq (shape_newer _ _ _ _ Hs) Hndn Heqn)
    as [(a & i & l1 & p & l2 & Ea & Hb & Hit & El)|[El Hno]]; rewrite El, bind_Some_l.
  - rewrite (slot_read_found _ _ _ _ _ _ _ _ (shape_newer _ _ _ _ Hs) Ea Hb), bind_Some_l.
    do 3 eexists. split_and!; [done..|]. split; [|by eapply hits_step]. apply Hin. left. by eapply elem_of_bucket.
  - destruct (h_lookup_spec m' (older hm') bo h eq (shape_older _ _ _ _ Hs) Hndo Heqo)
      as [(a & i & l1 & p & l2 & Ea & Hb & Hit & El')|[El' Hno']]; rewrite El', bind_Some_l.
    + rewrite (slot_read_found _ _ _ _ _ _ _ _ (shape_older _ _ _ _ Hs) Ea Hb), bind_Some_l.
      do 3 eexists. split_and!; [done..|]. split; [|by eapply hits_step]. apply Hin. right. by eapply elem_of_bucket.
    + do 3 eexists. split_and!; [done..|]. intros p [Hp|Hp]%Hin Hit.
      * by eapply Hno, hits_step_inv.
      * by eapply Hno', hits_step_inv.
Qed.

Lemma size_concat_set (l : list ptr) : NoDup l -> Z.of_nat (size (list_to_set l : gset ptr)) = zlen l.
Proof. intros. unfold zlen. by rewrite size_list_to_set. Qed.

(** The newer table, allocated when it is not. *)
Lemma hm_newer_init m hm bn bo :
  hm_shape m hm bn bo ->
  exists m0 new0 bn0,
    (match tab (newer hm) with None => h_init m 4 | Some _ => Some (m, newer hm) end) = Some (m0, new0) /\
    tab new0 <> None /\ hm_shape m0 (mkHMap new0 (older hm) (migrate_pos hm)) bn0 bo /\ concat bn0 = concat bn /\
    (zlen bn0 = zlen bn \/ bn = [] /\ zlen bn0 = 4) /\ hm_nodes m0 = hm_nodes m /\
    others m0 (mkHMap new0 (older hm) (migrate_pos hm)) = others m hm.
Proof.
  intros Hs. pose proof (shape_newer _ _ _ _ Hs) as Hnr. pose proof (tab_rep_null _ _ _ Hnr) as Hnull.
  destruct (tab (newer hm)) as [a|] eqn:Ea.
  - exists m, (newer hm), bn. split_and!; try done; [congruence|by destruct hm|by left].
  - destruct (h_init_spec m 2) as (m0 & new0 & E0 & Ht0 & Hr0 & Hns & Hdrop & Hfresh); [lia|].
    specialize (proj1 Hnull eq_refl) as ->.
    assert (Hold : tab (older hm) = None) by (destruct (tab (older hm)) eqn:Eo; [|done]; by destruct (shape_both _ _ _ _ Hs); rewrite ?Eo).
    exists m0, new0, (replicate 4 []). split_and!; try done; [|by right|].
    + destruct Hs as [_ Hor Hnd Hboth Hap Hpos Hpmax Hmig Hbk Hmax].
      split; cbn [newer older migrate_pos]; try done; rewrite ?Hold; try done.
      unfold tab_rep in Hor |- *. by rewrite Hold in Hor |- *.
    + unfold others. cbn [newer older]. rewrite Hold, Ea. exact Hdrop.
Qed.

(** Inserting in the newer table, before any resize or helping. *)
Lemma hm_insert_newer m hm bn bo p n :
  hm_shape m hm bn bo -> hm_nodes m !! p = Some n ->
  p ∉ concat bn ++ concat bo -> zlen (concat bn ++ concat bo) + 1 < 2 ^ 60 ->
  exists m0 m1 new0 new1 bn1,
    (match tab (newer hm) with None => h_init m 4 | Some _ => Some (m, newer hm) end) = Some (m0, new0) /\
    h_insert m0 new0 p = Some (m1, new1) /\ tab new1 <> None /\
    hm_shape m1 (mkHMap new1 (older hm) (migrate_pos hm)) bn1 bo /\
    concat bn1 ++ concat bo ≡ₚ p :: concat bn ++ concat bo /\
    (zlen bn1 = zlen bn \/ bn = [] /\ zlen bn1 = 4) /\ hstep {[p]} m m1 /\
    others m1 (mkHMap new1 (older hm) (migrate_pos hm)) = others m hm.
Proof.
  intros Hs0 Hp Hn Hmax. destruct (hm_newer_init m hm bn bo Hs0) as (m0 & new0 & bn0 & E0 & Ht0 & Hs & Hcat & Hlen0 & Hns & Hot0).
  assert (Hs' := Hs). destruct Hs' as [Hnr Hor Hnd Hboth Hap Hpos Hpmax Hmig Hbk _].
  cbn [newer older migrate_pos] in *. rewrite <- Hcat in *. rewrite <- Hns in Hp.
  rewrite zlen_app in Hmax. pose proof (zlen_nonneg (concat bo)). rewrite elem_of_app in Hn.
  destruct (h_insert_spec m0 new0 bn0 p n Hnr Ht0 Hp) as
    (m1 & new1 & i & b & Ei & Hb & Hr1 & Ht1 & Hoff & Hcode & Har); [tauto|lia|].
  pose proof (concat_add bn0 i b p Hb) as Hperm1.
  assert (Hperm : concat (<[i:=p :: b]> bn0) ++ concat bo ≡ₚ p :: concat bn0 ++ concat bo)
    by (rewrite Hperm1; done).
  exists m0, m1, new0, new1, (<[i:=p :: b]> bn0).
  split; [done|]. split; [exact Ei|]. split; [by rewrite Ht1|]. split; [|split; [done|split; [by rewrite zlen_insert|split]]].
  - split; cbn [newer older migrate_pos]; rewrite ?zlen_insert, ?Ht1; try done.
    + eapply tab_rep_frame, Hor.
      * intros q Hq. apply Hoff. rewrite elem_of_singleton. intros ->. tauto.
      * intros a Ea. apply (same_arrays_lookup _ _ _ _ Har). intros En. apply Hap; congruence.
    + rewrite Hperm. apply NoDup_cons. by rewrite elem_of_app.
    + rewrite (zlen_perm _ _ Hperm). unfold zlen in *. simpl. rewrite length_app. lia.
  - unfold hstep. rewrite <- Hns. by split.
  - rewrite <- Hot0. by apply (others_newer m0 m1 new1 (older hm) _ (mkHMap new0 (older hm) (migrate_pos hm))).
Qed.

Lemma hm_trigger_spec m hm bn :
  hm_shape m hm bn [] -> tab (newer hm) <> None -> zlen bn <= 2 ^ 57 ->
  exists m' hm' bn', hm_trigger_rehashing m hm = Some (m', hm') /\ hm_shape m' hm' bn' bn /\
    concat bn' = [] /\ zlen bn' = 2 * zlen bn /\ hm_nodes m' = hm_nodes m /\ others m' hm' = others m hm.
Proof.
  intros Hs Ht Hb. assert (Hs' := Hs). destruct Hs' as [Hnr Hor Hnd Hboth Hap Hpos Hpmax Hmig Hbk Hmax].
  pose proof (proj2 (tab_rep_null _ _ _ Hor) eq_refl) as Hold.
  assert (Hr := Hnr). unfold tab_rep in Hr. destruct (tab (newer hm)) as [a|] eqn:Ea; [|done].
  destruct Hr as (t & Hta & [_ Hmask (k & Hk & Hlen) _ _]).
  unfold hm_trigger_rehashing. rewrite Hmask.
  replace (zlen bn - 1 + 1) with (zlen bn) by lia. pose proof (zlen_nonneg bn).
  rewrite u64_small by lia.
  replace (zlen bn * 2) with (2 ^ (k + 1)) by (rewrite Z.pow_add_r, <- Hlen; lia).
  destruct (h_init_spec m (k + 1)) as (m' & new' & E & Ht' & Hr' & Hns & Hdrop & Hfresh); [lia|].
  rewrite E, bind_Some_l.
  assert (Hlen' : zlen (replicate (Z.to_nat (2 ^ (k + 1))) (@nil ptr)) = 2 * zlen bn).
  { unfold zlen at 1. rewrite length_replicate, Z2Nat.id by (apply Z.pow_nonneg; lia).
    rewrite Z.pow_add_r, <- Hlen by lia. lia. }
  assert (Hne : tab new' <> Some a) by (intros Ha; rewrite (Hfresh a Ha) in Hta; done).
  do 3 eexists. split; [done|]. rewrite concat_replicate_nil. split; [|split_and!; try done].
  - cbn [concat] in *. rewrite app_nil_r in *.
    split; cbn [newer older migrate_pos]; rewrite ?concat_replicate_nil, ?Hlen', ?Ea; try done; try lia.
    eapply tab_rep_frame, Hnr; [by rewrite Hns|]. intros b Eb. rewrite Ea in Eb. injection Eb as <-.
    rewrite <- Hdrop. destruct (tab new') as [a'|]; [|done]. cbn. rewrite lookup_delete_ne; [done|congruence].
  - unfold others. cbn [newer older]. by rewrite drop_array_comm, Hdrop, Hold.
Qed.

(** Room to finish the rehashing in progress, before a round of helping. *)
Definition hm_room (bn bo : list (list ptr)) : Prop :=
  (bo = [] -> hm_load bn bo) /\
  (bo <> [] -> 128 * zlen (concat bn ++ concat bo) + zlen (concat bo) <= 1024 * zlen bn - 1).

Lemma hm_help_room m hm bn bo :
  hm_shape m hm bn bo -> hm_room bn bo ->
  exists m' hm', hm_help_rehashing m hm = Some (m', hm') /\
    hm_rep m' hm' (list_to_set (concat bn ++ concat bo)) /\
    hstep (list_to_set (concat bn ++ concat bo)) m m' /\ others m' hm' = others m hm.
Proof.
  intros Hs [Hr1 Hr2].
  destruct (hm_help_rehashing_spec m hm bn bo Hs) as
    (m' & hm' & bn' & bo' & E & Hs' & Hperm & Hn & Ho & Hnil & Hbo & _ & Hst & Hot).
  exists m', hm'. split_and!; try done. exists bn', bo'.
  rewrite (list_to_set_perm _ _ Hperm). split_and!; try done.
  by apply (hm_load_help bn bo).
Qed.

Lemma tab_rep_some m htab bs :
  tab_rep m htab bs -> tab htab <> None -> 0 < zlen bs /\ mask htab = zlen bs - 1.
Proof.
  unfold tab_rep. destruct (tab htab); [|done]. intros (t & _ & [_ -> (k & ? & ->) _ _]) _.
  split; [|done]. apply Z.pow_pos_nonneg; lia.
Qed.

Lemma hm_load_insert bn bo bn1 p :
  hm_load bn bo -> concat bn1 ++ concat bo ≡ₚ p :: concat bn ++ concat bo ->
  (zlen bn1 = zlen bn \/ bn = [] /\ zlen bn1 = 4) -> 0 < zlen bn1 ->
  (bo = [] -> zlen (concat bn1) <= 8 * zlen bn1) /\
  (bo <> [] -> 128 * zlen (concat bn1 ++ concat bo) + zlen (concat bo) <= 1024 * zlen bn1 - 1).
Proof.
  intros Hl Hperm%zlen_perm Hlen Hpos.
  change (p :: concat bn ++ concat bo) with ([p] ++ (concat bn ++ concat bo)) in Hperm.
  rewrite !zlen_app in *. change (zlen [p]) with 1 in Hperm.
  pose proof (zlen_nonneg (concat bo)). split; intros Hbo.
  - subst bo. cbn [hm_load concat] in *. change (zlen (@nil ptr)) with 0 in *.
    destruct Hl as [->|Hl]; [|destruct Hlen as [?|[-> ?]]; [lia|]]; cbn [concat] in *;
      change (zlen (@nil ptr)) with 0 in *; change (zlen (@nil (list ptr))) with 0 in *; lia.
  - destruct bo as [|b bo]; [done|]. cbn [hm_load] in Hl. rewrite zlen_app in Hl.
    destruct Hlen as [?|[-> ?]]; [lia|].
    change (zlen (@nil (list ptr))) with 0 in Hl. pose proof (zlen_nonneg (concat (@nil (list ptr)))). lia.
Qed.

Lemma hm_insert_spec m hm X p n :
  hm_rep m hm X -> hm_nodes m !! p = Some n -> p ∉ X -> Z.of_nat (size X) + 1 < 2 ^ 60 ->
  exists m' hm', hm_insert m hm p = Some (m', hm') /\
    hm_rep m' hm' ({[p]} ∪ X) /\ hstep ({[p]} ∪ X) m m' /\ others m' hm' = others m hm.
Proof.
  intros (bn & bo & Hs & Hl & ->) Hp Hn Hmax.
  rewrite size_concat_set in Hmax by apply Hs. rewrite elem_of_list_to_set in Hn.
  destruct (hm_insert_newer m hm bn bo p n Hs Hp Hn Hmax) as
    (m0 & m1 & new0 & new1 & bn1 & E0 & E1 & Ht1 & Hs1 & Hperm & Hlen & Hst1 & Hot1).
  assert (HX : list_to_set (concat bn1 ++ concat bo) = {[p]} ∪ (list_to_set (concat bn ++ concat bo) : gset ptr))
    by (by rewrite (list_to_set_perm _ _ Hperm)).
  destruct (tab_rep_some _ _ _ (shape_newer _ _ _ _ Hs1) Ht1) as [Hpos Hmask].
  destruct (hm_load_insert bn bo bn1 p Hl Hperm Hlen Hpos) as [Hload1 Hload2].
  cbn [newer] in Hmask. pose proof (proj1 (shape_buckets _ _ _ _ Hs1)) as Hb1.
  assert (Hst : forall m', hstep (list_to_set (concat bn1 ++ concat bo)) m1 m' ->
    hstep ({[p]} ∪ list_to_set (concat bn ++ concat bo)) m m').
  { intros m' H. rewrite <- HX. transitivity m1; [|done]. eapply hstep_weaken, Hst1.
    rewrite HX. set_solver. }
  unfold hm_insert. rewrite E0, bind_Some_l, E1, bind_Some_l. cbn [older newer].
  pose proof (tab_rep_null _ _ _ (shape_older _ _ _ _ Hs1)) as Hnull. cbn [older] in Hnull. rewrite <- HX.
  destruct (tab (older hm)) as [to|] eqn:Eo.
  - assert (Hbo : bo <> []) by (intros H; by apply Hnull in H).
    rewrite bind_Some_l. destruct (hm_help_room m1 _ bn1 bo Hs1) as (m' & hm' & E & Hr & Hst' & Hot).
    { split; [by intros ?|done]. }
    exists m', hm'. split_and!; [done|done|rewrite HX; by apply Hst|congruence].
  - pose proof (proj1 Hnull eq_refl) as ->.
    specialize (Hload1 eq_refl). rewrite Hmask. replace (zlen bn1 - 1 + 1) with (zlen bn1) by lia.
    rewrite (u64_small (zlen bn1)) by lia. unfold k_max_load_factor. rewrite u64_small by lia.
    pose proof (tab_rep_size _ _ _ (shape_newer _ _ _ _ Hs1)) as Hsz. cbn [newer concat] in *.
    rewrite Hsz. rewrite ?app_nil_r in *.
    destruct (Z.leb_spec (zlen bn1 * 8) (zlen (concat bn1))) as [Hth|Hth].
    + pose proof (shape_nodes _ _ _ _ Hs1) as Hmax1. cbn [concat] in Hmax1. rewrite app_nil_r in Hmax1.
      destruct (hm_trigger_spec m1 _ bn1 Hs1 Ht1) as (m2 & hm2 & bn2 & E2 & Hs2 & Hc2 & Hl2 & Hns2 & Hot2); [lia|].
      rewrite E2, bind_Some_l.
      destruct (hm_help_room m2 hm2 bn2 bn1 Hs2) as (m' & hm' & E & Hr & Hst' & Hot).
      { split; [intros ->; unfold zlen in Hpos; simpl in Hpos; lia|].
        intros _. rewrite Hc2. simpl. lia. }
      rewrite Hc2 in *. cbn [app] in *. exists m', hm'. split_and!; [done|done| |congruence].
      rewrite HX. apply Hst. transitivity m2; [by apply hstep_nodes|done].
    + rewrite bind_Some_l. destruct (hm_help_room m1 _ bn1 [] Hs1) as (m' & hm' & E & Hr & Hst' & Hot).
      { split; [intros _; cbn [hm_load]; right; lia|done]. }
      cbn [concat] in *. rewrite ?app_nil_r in *.
      exists m', hm'. split_and!; [done|done|rewrite HX; by apply Hst|congruence].
Qed.

(** ** Removal *)

Lemma hm_load_remove bn bo bn' bo' p :
  hm_load bn bo -> zlen bn' = zlen bn -> zlen bo' = zlen bo ->
  concat bn ++ concat bo ≡ₚ p :: concat bn' ++ concat bo' ->
  zlen (concat bo') <= zlen (concat bo) -> hm_load bn' bo'.
Proof.
  intros Hl Hn Ho Hperm%zlen_perm Hle. rewrite zlen_cons, !zlen_app in Hperm.
  destruct bo as [|b bo], bo' as [|b' bo']; try (unfold zlen in Ho; simpl in Ho; lia);
    cbn [hm_load] in *.
  - destruct Hl as [->|Hl]; [|right; cbn [concat] in *; change (zlen (@nil ptr)) with 0 in *; lia].
    destruct bn'; [by left|]. unfold zlen in Hn. simpl in Hn. lia.
  - rewrite !zlen_app in *. lia.
Qed.

(** The map after the node [p] is unlinked from one of its tables. *)
Lemma hm_remove_rep m hm bn bo m' hm' bn' bo' p :
  hm_shape m hm bn bo -> hm_load bn bo ->
  tab_rep m' (newer hm') bn' -> tab_rep m' (older hm') bo' ->
  tab (newer hm') = tab (newer hm) -> tab (older hm') = tab (older hm) ->
  migrate_pos hm' = migrate_pos hm -> zlen bn' = zlen bn -> zlen bo' = zlen bo ->
  (forall i b, bo' !! i = Some b -> exists b0, bo !! i = Some b0 /\ (b0 = [] -> b = [])) ->
  concat bn ++ concat bo ≡ₚ p :: concat bn' ++ concat bo' ->
  zlen (concat bo') <= zlen (concat bo) ->
  hm_rep m' hm' (list_to_set (concat bn ++ concat bo) ∖ {[p]}).
Proof.
  intros Hs Hl Hn Ho Htn Hto Hmp Hln Hlo Hb Hperm Hle. exists bn', bo'.
  pose proof (hm_load_remove _ _ _ _ _ Hl Hln Hlo Hperm Hle) as Hl'.
  pose proof (shape_nodup _ _ _ _ Hs) as Hnd. rewrite Hperm in Hnd.
  apply NoDup_cons in Hnd as [Hp Hnd].
  split_and!; [|done|].
  - destruct Hs as [_ _ _ Hboth Hap Hpos Hpmax Hmig Hbk Hmax]. split; rewrite ?Hmp, ?Hln, ?Hlo, ?Htn, ?Hto; try done.
    + intros i b Hib Hi. destruct (Hb i b Hib) as (b0 & Hb0 & Himp). apply Himp. by eapply Hmig.
    + apply zlen_perm in Hperm. rewrite zlen_cons in Hperm. lia.
  - rewrite (list_to_set_perm _ _ Hperm). cbn [list_to_set]. apply set_eq. intros q.
    rewrite elem_of_difference, elem_of_union, elem_of_singleton, elem_of_list_to_set.
    split; [tauto|]. intros Hq. split; [by right|by intros ->].
Qed.

Lemma insert_bucket_shrink (bo : list (list ptr)) i l1 p l2 j b :
  bo !! i = Some (l1 ++ p :: l2) -> <[i := l1 ++ l2]> bo !! j = Some b ->
  exists b0, bo !! j = Some b0 /\ (b0 = [] -> b = []).
Proof.
  intros Hi Hj. destruct (decide (i = j)) as [<-|Hij].
  - exists (l1 ++ p :: l2). split; [done|]. by destruct l1.
  - rewrite list_lookup_insert_ne in Hj by done. eauto.
Qed.

Lemma hstep_intro X Y m m' :
  same_off Y (hm_nodes m) (hm_nodes m') -> hcode <$> hm_nodes m' = hcode <$> hm_nodes m -> Y ⊆ X -> hstep X m m'.
Proof. intros ? ? ?. split; [by eapply same_off_weaken|done]. Qed.

Lemma hm_detach_newer m hm bn bo a i l1 p l2 :
  hm_shape m hm bn bo -> hm_load bn bo -> tab (newer hm) = Some a -> bn !! i = Some (l1 ++ p :: l2) ->
  exists m' new', h_detach m (newer hm) (slot_at a i l1) = Some (m', new', p) /\
    hm_rep m' (mkHMap new' (older hm) (migrate_pos hm))
      (list_to_set (concat bn ++ concat bo) ∖ {[p]}) /\
    hstep (list_to_set (concat bn ++ concat bo)) m m' /\
    others m' (mkHMap new' (older hm) (migrate_pos hm)) = others m hm.
Proof.
  intros Hs Hl Ea Hb. pose proof (shape_nodes _ _ _ _ Hs) as Hmax. rewrite zlen_app in Hmax.
  pose proof (zlen_nonneg (concat bo)).
  pose proof (shape_nodup _ _ _ _ Hs) as Hnd. pose proof Hnd as (Hndn & Hdis & Hndo)%NoDup_app.
  destruct (h_detach_spec m _ _ a _ _ _ _ (shape_newer _ _ _ _ Hs) Ea Hndn Hb) as
    (m' & new' & E & Hr & Ht & Hoff & Hcode & Har); [lia|].
  exists m', new'. split; [done|]. split; [|split; [|by apply others_newer]].
  - eapply hm_remove_rep; cbn [newer older migrate_pos]; try done; rewrite ?zlen_insert; try done.
    + eapply tab_rep_frame, Hs.
      * intros q Hq. apply Hoff. rewrite elem_of_list_to_set. intros Hq'. by eapply Hdis.
      * intros b Eb. apply (same_arrays_lookup _ _ _ _ Har). intros En. apply (shape_apart _ _ _ _ Hs); congruence.
    + by eauto.
    + by rewrite <- (concat_remove _ _ _ _ _ Hb).
  - eapply hstep_intro; [done|done|]. intros q. rewrite !elem_of_list_to_set, elem_of_app. tauto.
Qed.

Lemma hm_detach_older m hm bn bo a i l1 p l2 :
  hm_shape m hm bn bo -> hm_load bn bo -> tab (older hm) = Some a -> bo !! i = Some (l1 ++ p :: l2) ->
  exists m' old', h_detach m (older hm) (slot_at a i l1) = Some (m', old', p) /\
    hm_rep m' (mkHMap (newer hm) old' (migrate_pos hm))
      (list_to_set (concat bn ++ concat bo) ∖ {[p]}) /\
    hstep (list_to_set (concat bn ++ concat bo)) m m' /\
    others m' (mkHMap (newer hm) old' (migrate_pos hm)) = others m hm.
Proof.
  intros Hs Hl Ea Hb. pose proof (shape_nodes _ _ _ _ Hs) as Hmax. rewrite zlen_app in Hmax.
  pose proof (zlen_nonneg (concat bn)).
  pose proof (shape_nodup _ _ _ _ Hs) as Hnd. pose proof Hnd as (Hndn & Hdis & Hndo)%NoDup_app.
  destruct (h_detach_spec m _ _ a _ _ _ _ (shape_older _ _ _ _ Hs) Ea Hndo Hb) as
    (m' & old' & E & Hr & Ht & Hoff & Hcode & Har); [lia|].
  exists m', old'. split; [done|]. pose proof (concat_remove _ _ _ _ _ Hb) as Hcr. split; [|split; [|by apply others_older]].
  - eapply hm_remove_rep; cbn [newer older migrate_pos]; try done; rewrite ?zlen_insert; try done.
    + eapply tab_rep_frame, Hs.
      * intros q Hq. apply Hoff. rewrite elem_of_list_to_set. intros Hq'. by eapply Hdis.
      * intros b Eb. apply (same_arrays_lookup _ _ _ _ Har). intros En. apply (shape_apart _ _ _ _ Hs); congruence.
    + intros j b. by eapply insert_bucket_shrink.
    + by rewrite <- Hcr, Permutation_middle.
    + apply zlen_perm in Hcr. rewrite zlen_cons in Hcr. lia.
  - eapply hstep_intro; [done|done|]. intros q. rewrite !elem_of_list_to_set, elem_of_app. tauto.
Qed.

Lemma hm_delete_spec m hm X h eq :
  hm_rep m hm X -> eq_total_on m h eq X ->
  exists m' hm' r, hm_delete m hm h eq = Some (m', hm', r) /\ hstep X m m' /\ others m' hm' = others m hm /\
    match r with
    | Some p => p ∈ X /\ hits m h eq p /\ hm_rep m' hm' (X ∖ {[p]})
    | None => (forall p, p ∈ X -> ~ hits m h eq p) /\ hm_rep m' hm' X
    end.
Proof.
  intros Hrep Heq. destruct (hm_help_search m hm X h eq Hrep Heq) as
    (m1 & hm1 & bn & bo & E & Hs & Hl & -> & Hst & Hot & [Hndn Heqn] & [Hndo Heqo]).
  unfold hm_delete. rewrite E, bind_Some_l.
  assert (Hin : forall p, p ∈ (list_to_set (concat bn ++ concat bo) : gset ptr) <-> p ∈ concat bn \/ p ∈ concat bo)
    by (intros p; by rewrite elem_of_list_to_set, elem_of_app).
  destruct (h_lookup_spec m1 (newer hm1) bn h eq (shape_newer _ _ _ _ Hs) Hndn Heqn)
    as [(a & i & l1 & p & l2 & Ea & Hb & Hit & El)|[El Hno]]; rewrite El, bind_Some_l.
  - destruct (hm_detach_newer m1 hm1 bn bo a i l1 p l2 Hs Hl Ea Hb) as (m' & new' & Ed & Hr & Hst' & Hot').
    rewrite Ed, bind_Some_l. do 3 eexists. split; [done|].
    split; [by transitivity m1|]. split; [congruence|]. split; [|split; [by eapply hits_step|done]].
    apply Hin. left. by eapply elem_of_bucket.
  - destruct (h_lookup_spec m1 (older hm1) bo h eq (shape_older _ _ _ _ Hs) Hndo Heqo)
      as [(a & i & l1 & p & l2 & Ea & Hb & Hit & El')|[El' Hno']]; rewrite El', bind_Some_l.
    + destruct (hm_detach_older m1 hm1 bn bo a i l1 p l2 Hs Hl Ea Hb) as (m' & old' & Ed & Hr & Hst' & Hot').
      rewrite Ed, bind_Some_l. do 3 eexists. split; [done|].
      split; [by transitivity m1|]. split; [congruence|]. split; [|split; [by eapply hits_step|done]].
      apply Hin. right. by eapply elem_of_bucket.
    + do 3 eexists. split; [done|]. split; [done|]. split; [done|]. split; [|by exists bn, bo].
      intros p [Hp|Hp]%Hin Hit.
      * by eapply Hno, hits_step_inv.
      * by eapply Hno', hits_step_inv.
Qed.

(** ** hm_clear *)

Lemma free_array_spec m a t : hm_arrays m !! a = Some t -> free_array m (Some a) = Some (with_arrays m (delete a (hm_arrays m))).
Proof. intros H. unfold free_array. by rewrite H. Qed.

(** Each array is freed once; the others are as before. *)
Lemma hm_clear_spec m hm X :
  hm_rep m hm X ->
  exists m', hm_clear m hm = Some (m', hmap_null) /\ hm_nodes m' = hm_nodes m /\ hm_arrays m' = others m hm.
Proof.
  intros (bn & bo & Hs & _ & _). pose proof (shape_newer _ _ _ _ Hs) as Hn. pose proof (shape_older _ _ _ _ Hs) as Ho.
  pose proof (shape_apart _ _ _ _ Hs) as Hap. unfold hm_clear, others. unfold tab_rep in Hn, Ho.
  destruct (tab (newer hm)) as [a|].
  - destruct Hn as (t & Ht & _). rewrite (free_array_spec _ _ _ Ht), bind_Some_l.
    destruct (tab (older hm)) as [b|]; [|eexists; by split_and!].
    destruct Ho as (t' & Ht' & _). rewrite (free_array_spec _ _ t'), bind_Some_l.
    + eexists. split_and!; [done|done|]. cbn. apply delete_delete.
    + cbn. rewrite lookup_delete_ne; [done|]. intros ->. by destruct Hap.
  - destruct (tab (older hm)) as [b|]; [|eexists; by split_and!].
    destruct Ho as (t' & Ht' & _). cbn [free_array]. rewrite bind_Some_l. cbn [free_array]. rewrite Ht', !bind_Some_l.
    eexists. by split_and!.
Qed.

(** ** Size, iteration, and frames *)

Lemma hm_size_spec m hm X : hm_rep m hm X -> hm_size hm = Z.of_nat (size X).
Proof.
  intros (bn & bo & Hs & _ & ->). rewrite size_concat_set by apply Hs. unfold hm_size.
  rewrite (tab_rep_size _ _ _ (shape_newer _ _ _ _ Hs)), (tab_rep_size _ _ _ (shape_older _ _ _ _ Hs)).
  rewrite zlen_app. pose proof (shape_nodes _ _ _ _ Hs) as H. rewrite zlen_app in H.
  pose proof (zlen_nonneg (concat bn)). pose proof (zlen_nonneg (concat bo)). apply u64_small. lia.
Qed.

Lemma hm_rep_frame m m' hm X :
  (forall p, p ∈ X -> hm_nodes m' !! p = hm_nodes m !! p) ->
  (forall a, a ∈ own_arrays hm -> hm_arrays m' !! a = hm_arrays m !! a) ->
  hm_rep m hm X -> hm_rep m' hm X.
Proof.
  intros Hf Ha (bn & bo & Hs & Hl & ->). exists bn, bo. split_and!; [|done|done].
  destruct Hs as [H1 H2 H3 H4 H5 H6 H7 H8 H9 H10]. split; try done.
  - eapply tab_rep_frame, H1.
    + intros q Hq. apply Hf. rewrite elem_of_list_to_set, elem_of_app. by left.
    + intros a Ea. apply Ha, elem_of_own. by left.
  - eapply tab_rep_frame, H2.
    + intros q Hq. apply Hf. rewrite elem_of_list_to_set, elem_of_app. by right.
    + intros a Ea. apply Ha, elem_of_own. by right.
Qed.

Lemma hm_rep_null m : hm_rep m hmap_null ∅.
Proof.
  exists [], []. split_and!; [|by left|done].
  split; cbn; try done; unfold zlen; simpl; try lia. constructor.
Qed.

(** An array is the map's, or one of the others. *)
Lemma others_lookup m hm a : a ∉ own_arrays hm -> others m hm !! a = hm_arrays m !! a.
Proof.
  rewrite elem_of_own. intros Ha. unfold others.
  destruct (tab (newer hm)) as [b|] eqn:Eb, (tab (older hm)) as [c|] eqn:Ec; cbn [drop_array];
    rewrite ?lookup_delete_ne; try done; intros ->; tauto.
Qed.

Lemma others_own m hm a : a ∈ own_arrays hm -> others m hm !! a = None.
Proof.
  rewrite elem_of_own. unfold others. intros [->| ->].
  - apply lookup_delete_eq.
  - rewrite drop_array_comm. apply lookup_delete_eq.
Qed.

Lemma dom_others m hm : dom (others m hm) = dom (hm_arrays m) ∖ own_arrays hm.
Proof.
  apply set_eq. intros a. rewrite elem_of_difference, !elem_of_dom. destruct (decide (a ∈ own_arrays hm)) as [Hin|Hno].
  - rewrite others_own by done. split; [by intros [? ?]|tauto].
  - rewrite others_lookup by done. tauto.
Qed.

Lemma shape_live m hm bn bo a : hm_shape m hm bn bo -> a ∈ own_arrays hm -> is_Some (hm_arrays m !! a).
Proof.
  intros Hs Ha. pose proof (shape_newer _ _ _ _ Hs) as Hn. pose proof (shape_older _ _ _ _ Hs) as Ho.
  unfold tab_rep in Hn, Ho. apply elem_of_own in Ha as [Ea|Ea]; rewrite Ea in Hn || rewrite Ea in Ho.
  - destruct Hn as (t & Ht & _). by exists t.
  - destruct Ho as (t & Ht & _). by exists t.
Qed.

Lemma own_live m hm X a : hm_rep m hm X -> a ∈ own_arrays hm -> is_Some (hm_arrays m !! a).
Proof. intros (bn & bo & Hs & _ & _). by eapply shape_live. Qed.

Lemma shape_arrays m hm bn bo : hm_shape m hm bn bo -> dom (hm_arrays m) = own_arrays hm ∪ dom (others m hm).
Proof.
  intros Hs. rewrite dom_others. apply set_eq. intros a. rewrite elem_of_union, elem_of_difference.
  split; [destruct (decide (a ∈ own_arrays hm)); tauto|]. intros [Ha|[Ha _]]; [|done].
  apply elem_of_dom. by eapply shape_live.
Qed.

(** ** Iteration *)

Section visit.
Context {St : Type} (f : ptr -> St -> option (bool * St)).

(** Calls the callback on the nodes in order, until it says stop. *)
Fixpoint visit (l : list ptr) (s : St) : option (bool * St) :=
  match l with
  | [] => Some (true, s)
  | p :: l => '(go, s) ← f p s; if (go : bool) then visit l s else Some (false, s)
  end.

Lemma visit_app l k s :
  visit (l ++ k) s = '(go, s) ← visit l s; if (go : bool) then visit k s else Some (false, s).
Proof.
  revert s. induction l as [|p l IH]; intros s; cbn [visit app mbind option_bind]; [done|].
  destruct (f p s) as [[[] s']|]; cbn [mbind option_bind]; [apply IH|done|done].
Qed.

Lemma chain_foreach_spec m l : forall h fuel s,
  chain (hm_nodes m) h l -> (length l <= fuel)%nat -> chain_foreach f fuel m h s = visit l s.
Proof.
  induction l as [|p l IH]; intros h fuel s Hc Hf; cbn [chain] in Hc.
  - subst h. by destruct fuel.
  - destruct Hc as (-> & n & Hn & Hc). destruct fuel as [|fuel]; [simpl in Hf; lia|].
    cbn [chain_foreach visit]. destruct (f p s) as [[[] s']|]; cbn [mbind option_bind]; try done.
    rewrite Hn. cbn [mbind option_bind]. apply IH; [done|]. simpl in Hf. lia.
Qed.

Lemma buckets_foreach_spec m t bs : forall s,
  Forall2 (chain (hm_nodes m)) t bs -> NoDup (concat bs) ->
  buckets_foreach f m t s = visit (concat bs) s.
Proof.
  intros s Hf. revert s. induction Hf as [|hd b t bs Hc Hf IH]; intros s Hnd; [done|].
  cbn [concat] in Hnd |- *. apply NoDup_app in Hnd as (Hnd & _ & Hnd').
  cbn [buckets_foreach]. rewrite visit_app.
  rewrite (chain_foreach_spec m b); [|done|apply nodes_length_le; [done|]; intros; by eapply chain_dom].
  destruct (visit b s) as [[[] s']|]; cbn [mbind option_bind]; [by apply IH|done|done].
Qed.

Lemma h_foreach_spec m htab bs s :
  tab_rep m htab bs -> NoDup (concat bs) -> h_foreach f m htab s = visit (concat bs) s.
Proof.
  intros Hrep Hnd. unfold tab_rep in Hrep. destruct (tab htab) as [a|] eqn:Ea.
  - destruct Hrep as (t & Ht & [Hf Hmask (k & Hk & Hlen) _ _]). unfold h_foreach.
    assert (2 ^ 1 <= 2 ^ k) by (apply Z.pow_le_mono_r; lia). pose proof (Forall2_length _ _ _ Hf) as Hl.
    unfold zlen in *. destruct (Z.eqb_spec (mask htab) 0); [lia|]. rewrite Ea, bind_Some_l, Ht, bind_Some_l.
    rewrite option_guard_True by lia. cbn [mbind option_bind].
    rewrite take_ge by lia. by apply buckets_foreach_spec.
  - destruct Hrep as (-> & ->). done.
Qed.

Lemma hm_foreach_spec m hm X s :
  hm_rep m hm X ->
  exists l, list_to_set l = X /\ NoDup l /\ hm_foreach f m hm s = snd <$> visit l s.
Proof.
  intros (bn & bo & Hs & _ & ->). exists (concat bn ++ concat bo).
  split; [done|]. split; [apply Hs|]. pose proof (shape_nodup _ _ _ _ Hs) as (Hn & _ & Ho)%NoDup_app.
  unfold hm_foreach. rewrite (h_foreach_spec _ _ _ _ (shape_newer _ _ _ _ Hs) Hn), visit_app.
  destruct (visit (concat bn) s) as [[[] s']|]; cbn [mbind option_bind fmap option_fmap option_map];
    [|done|done].
  rewrite (h_foreach_spec _ _ _ _ (shape_older _ _ _ _ Hs) Ho).
  by destruct (visit (concat bo) s') as [[]|].
Qed.
End visit.
