(* ===== verification/KeyedNodes.v ===== *)
(** * What the hash table promises to its clients

    The sorted sets look nodes up by name, the commands look entries up by key,
    and the timers by address.  Each states, as an instance of [KeyedNodes],
    what the hash codes and the callback it passes have to do with its keys;
    the table then is a map from keys to nodes. *)

From S2P Require Import Prelude Hashtable HashtableProofs.
Local Open Scope Z_scope.

(** The nodes [X] carry the hash codes of their keys, and the callback made for
    a key compares it with the key of the node it is given. *)
Class KeyedNodes {K} `{EqDecision K} (m : hmem) (X : gset ptr) (hash : K -> Z)
    (eqk : K -> ptr -> option bool) (key_of : ptr -> K) : Prop := {
  keyed_hash p : p ∈ X -> exists n, hm_nodes m !! p = Some n /\ hcode n = hash (key_of p);
  keyed_eq k p : p ∈ X -> eqk k p = Some (bool_decide (key_of p = k))
}.

Section keyed.
Context {K : Type} `{EqDecision K} {m : hmem} {X : gset ptr} {hash : K -> Z}.
Context {eqk : K -> ptr -> option bool} {key_of : ptr -> K} `{Hkeyed : !KeyedNodes m X hash eqk key_of}.

Lemma keyed_total k : eq_total_on m (hash k) (eqk k) X.
Proof. intros p n Hp _ _. rewrite keyed_eq by done. by eexists. Qed.

Lemma keyed_hits k p : p ∈ X -> hits m (hash k) (eqk k) p <-> key_of p = k.
Proof.
  intros Hp. destruct (keyed_hash p Hp) as (n & Hn & Hh). unfold hits. rewrite keyed_eq by done. split.
  - intros (_ & _ & _ & [= H]). by apply bool_decide_eq_true in H.
  - intros <-. exists n. by rewrite bool_decide_eq_true_2.
Qed.

(** A lookup finds a node with the key, if there is one. *)
Lemma keyed_lookup hm k :
  hm_rep m hm X ->
  exists m' hm' r, hm_lookup m hm (hash k) (eqk k) = Some (m', hm', r) /\ hm_rep m' hm' X /\ hstep X m m' /\
    others m' hm' = others m hm /\
    match r with
    | Some p => p ∈ X /\ key_of p = k
    | None => forall p, p ∈ X -> key_of p <> k
    end.
Proof.
  intros Hm. destruct (hm_lookup_spec m hm X (hash k) (eqk k) Hm (keyed_total k)) as (m' & hm' & r & E & Hm' & Hst & Hot & Hr).
  exists m', hm', r. split_and!; [done..|]. destruct r as [p|].
  - destruct Hr as [Hp Hh]. split; [done|]. by apply keyed_hits in Hh.
  - intros p Hp Hk. by apply (Hr p Hp), keyed_hits.
Qed.

(** A deletion takes out a node with the key, if there is one. *)
Lemma keyed_delete hm k :
  hm_rep m hm X ->
  exists m' hm' r, hm_delete m hm (hash k) (eqk k) = Some (m', hm', r) /\ hstep X m m' /\
    others m' hm' = others m hm /\
    match r with
    | Some p => p ∈ X /\ key_of p = k /\ hm_rep m' hm' (X ∖ {[p]})
    | None => (forall p, p ∈ X -> key_of p <> k) /\ hm_rep m' hm' X
    end.
Proof.
  intros Hm. destruct (hm_delete_spec m hm X (hash k) (eqk k) Hm (keyed_total k)) as (m' & hm' & r & E & Hst & Hot & Hr).
  exists m', hm', r. split_and!; [done..|]. destruct r as [p|].
  - destruct Hr as (Hp & Hh & Hm'). split_and!; [done| |done]. by apply keyed_hits in Hh.
  - destruct Hr as [Hno Hm']. split; [|done]. intros p Hp Hk. by apply (Hno p Hp), keyed_hits.
Qed.
End keyed.
