(* ===== verification/Heap.v ===== *)
(** * heap.h, heap.cpp, and the timer heap helpers of server.cpp

    The vector of timers is a list; [refs] is the store of the [heap_idx]
    fields the items point to, keyed by the entry that holds the field.  Every
    access out of the array, and every write through a dead [ref], is [None]. *)

From S2P Require Import Prelude.
Local Open Scope Z_scope.

Record HeapItem := mkHeapItem {
  val : Z;             (* uint64_t: the expiration time *)
  ref : option ptr     (* size_t *: the [heap_idx] to keep up to date *)
}.

Notation refmem := (gmap ptr Z).

Definition heap_parent (i : Z) : Z := u64 (u64 (i + 1) / 2 - 1).
Definition heap_left (i : Z) : Z := u64 (u64 (i * 2) + 1).
Definition heap_right (i : Z) : Z := u64 (u64 (i * 2) + 2).

(** [*r = pos] *)
Definition ref_write (refs : refmem) (r : option ptr) (pos : Z) : option refmem :=
  p ← r; store_upd refs p (fun _ => pos).

(** [while (pos > 0 && a[heap_parent(pos)].val > t.val)] *)
Fixpoint heap_up_loop (fuel : nat) (a : list HeapItem) (refs : refmem) (t : HeapItem)
    (pos : Z) : option (list HeapItem * refmem * Z) :=
  if 0 <? pos then
    par ← arr_get a (heap_parent pos);
    if val t <? val par then
      match fuel with
      | O => None
      | S fuel =>
          (* swap with the parent *)
          a ← arr_set a pos par;
          refs ← ref_write refs (ref par) pos;
          heap_up_loop fuel a refs t (heap_parent pos)
      end
    else Some (a, refs, pos)
  else Some (a, refs, pos).

Definition heap_up (a : list HeapItem) (refs : refmem) (pos : Z) :
    option (list HeapItem * refmem) :=
  t ← arr_get a pos;
  '(a, refs, pos) ← heap_up_loop (Z.to_nat pos) a refs t pos;
  a ← arr_set a pos t;
  refs ← ref_write refs (ref t) pos;
  Some (a, refs).

(** The smallest one among the parent, whose value is [min_val], and its kids. *)
Definition heap_min_pos (a : list HeapItem) (pos len min_val : Z) : option Z :=
  let l := heap_left pos in
  let r := heap_right pos in
  '(min_pos, min_val) ←
    (if l <? len then
       x ← arr_get a l;
       if val x <? min_val then Some (l, val x) else Some (pos, min_val)
     else Some (pos, min_val));
  if r <? len then
    x ← arr_get a r;
    if val x <? min_val then Some r else Some min_pos
  else Some min_pos.

(** [while (true)]; one unit of fuel per iteration. *)
Fixpoint heap_down_loop (fuel : nat) (a : list HeapItem) (refs : refmem) (t : HeapItem)
    (pos len : Z) : option (list HeapItem * refmem * Z) :=
  match fuel with
  | O => None
  | S fuel =>
      min_pos ← heap_min_pos a pos len (val t);
      if min_pos =? pos then Some (a, refs, pos)
      else
        (* swap with the kid *)
        kid ← arr_get a min_pos;
        a ← arr_set a pos kid;
        refs ← ref_write refs (ref kid) pos;
        heap_down_loop fuel a refs t min_pos len
  end.

Definition heap_down (a : list HeapItem) (refs : refmem) (pos len : Z) :
    option (list HeapItem * refmem) :=
  t ← arr_get a pos;
  '(a, refs, pos) ← heap_down_loop (S (length a)) a refs t pos len;
  a ← arr_set a pos t;
  refs ← ref_write refs (ref t) pos;
  Some (a, refs).

Definition heap_update (a : list HeapItem) (refs : refmem) (pos len : Z) :
    option (list HeapItem * refmem) :=
  up ← (if 0 <? pos then
          par ← arr_get a (heap_parent pos);
          x ← arr_get a pos;
          Some (val x <? val par)
        else Some false);
  if (up : bool) then heap_up a refs pos else heap_down a refs pos len.

(** ** The helpers of server.cpp *)

Definition heap_delete (a : list HeapItem) (refs : refmem) (pos : Z) :
    option (list HeapItem * refmem) :=
  (* swap the deleted item with the last item, remove the last item *)
  back ← last a;
  a ← arr_set a pos back;
  let a := removelast a in
  if pos <? zlen a then heap_update a refs pos (zlen a) else Some (a, refs).

Definition heap_upsert (a : list HeapItem) (refs : refmem) (pos : Z) (t : HeapItem) :
    option (list HeapItem * refmem) :=
  '(a, pos) ←
    (if pos <? zlen a then
       a ← arr_set a pos t; Some (a, pos)
     else
       let pos := zlen a in Some (a ++ [t], pos));
  heap_update a refs pos (zlen a).
