(* ===== verification/HeapProofs.v ===== *)
(** * heap.cpp keeps a binary heap whose items know their position

    Positions are natural numbers here; a loop of the code works on an array
    with a hole at [pos] and the item [t] in hand, which stands for the array
    [<[pos := t]> a].  The order is a heap but for the hole ([heap_ok]), the
    back references are right but for the hole ([hrefs]). *)

From S2P Require Import Prelude Heap.
Local Open Scope Z_scope.

Implicit Types (a b : list HeapItem) (refs : refmem) (t x : HeapItem).

(** ** Positions *)

Definition par (i : nat) : nat := ((i - 1) / 2)%nat.

Lemma par_kids i c : (0 < c)%nat -> par c = i <-> (c = 2 * i + 1 \/ c = 2 * i + 2)%nat.
Proof.
  intros. unfold par. split; intros Hc.
  - pose proof (Nat.div_mod (c - 1) 2 ltac:(lia)).
    pose proof (Nat.mod_upper_bound (c - 1) 2 ltac:(lia)). lia.
  - symmetry. destruct Hc as [->| ->].
    + apply (Nat.div_unique _ 2 i 0); lia.
    + apply (Nat.div_unique _ 2 i 1); lia.
Qed.

Lemma par_lt i : (0 < i)%nat -> (par i < i)%nat.
Proof. intros Hi. pose proof (proj1 (par_kids (par i) i Hi) eq_refl). lia. Qed.

Lemma heap_parent_nat (i : nat) :
  (0 < i)%nat -> Z.of_nat i < 2 ^ 62 -> heap_parent (Z.of_nat i) = Z.of_nat (par i).
Proof.
  intros Hi Hm. unfold heap_parent. rewrite (u64_small (_ + 1)) by lia.
  pose proof (proj1 (par_kids (par i) i Hi) eq_refl) as Hk.
  assert ((Z.of_nat i + 1) / 2 = Z.of_nat (par i) + 1) as ->.
  { symmetry. destruct Hk.
    - apply (Z.div_unique _ 2 _ 0); lia.
    - apply (Z.div_unique _ 2 _ 1); lia. }
  rewrite u64_small; lia.
Qed.

Lemma heap_left_nat (i : nat) :
  Z.of_nat i < 2 ^ 61 -> heap_left (Z.of_nat i) = Z.of_nat (2 * i + 1).
Proof. intros. unfold heap_left. rewrite (u64_small (_ * _)), u64_small; lia. Qed.

Lemma heap_right_nat (i : nat) :
  Z.of_nat i < 2 ^ 61 -> heap_right (Z.of_nat i) = Z.of_nat (2 * i + 2).
Proof. intros. unfold heap_right. rewrite (u64_small (_ * _)), u64_small; lia. Qed.

(** ** Order *)

(** The value at a position. *)
Definition hv a (i : nat) : Z := from_option val 0 (a !! i).

(** Every position that satisfies [P] is at least its parent. *)
Definition heap_ok (P : nat -> Prop) a : Prop :=
  forall i, (0 < i < length a)%nat -> P i -> hv a (par i) <= hv a i.

Definition heap_ordered a : Prop := heap_ok (fun _ => True) a.

(** The kids of [pos] are at least its parent. *)
Definition kids_ok (pos : nat) a : Prop :=
  (0 < pos)%nat -> forall c, (0 < c < length a)%nat -> par c = pos -> hv a (par pos) <= hv a c.

Lemma hv_lookup a i x : a !! i = Some x -> hv a i = val x.
Proof. unfold hv. by intros ->. Qed.

(** The root has the smallest value. *)
Lemma heap_ordered_min a i :
  heap_ordered a -> (i < length a)%nat -> hv a 0 <= hv a i.
Proof.
  intros Hh. induction i as [i IH] using lt_wf_ind. intros Hi.
  destruct (decide (i = 0%nat)) as [->|Hne]; [done|].
  pose proof (par_lt i ltac:(lia)). pose proof (Hh i ltac:(lia) I).
  pose proof (IH (par i) ltac:(lia) ltac:(lia)). lia.
Qed.

(** ** Back references *)

(** Every item has a live reference, right at the positions in [P], and no two
    items share one. *)
Record hrefs (P : nat -> Prop) b (refs : refmem) : Prop := {
  hrefs_live : forall i x, b !! i = Some x ->
    exists p v, ref x = Some p /\ refs !! p = Some v /\ (P i -> v = Z.of_nat i);
  hrefs_nodup : NoDup (ref <$> b)
}.

Definition heap_refs b refs : Prop := hrefs (fun _ => True) b refs.

Lemma hrefs_ne P b refs i j x y :
  hrefs P b refs -> b !! i = Some x -> b !! j = Some y -> ref x = ref y -> i = j.
Proof.
  intros [_ Hn] Hi Hj Hr. eapply (NoDup_lookup (ref <$> b)); [done|..];
    rewrite list_lookup_fmap, ?Hi, ?Hj; simpl; by rewrite ?Hr.
Qed.

Lemma hrefs_lookup b refs i x p :
  heap_refs b refs -> b !! i = Some x -> ref x = Some p -> refs !! p = Some (Z.of_nat i).
Proof.
  intros [Hl _] Hi Hr. destruct (Hl i x Hi) as (p' & v & Hp & Hv & Hok).
  rewrite Hr in Hp. simplify_eq. by rewrite Hv, Hok.
Qed.

(** What every step keeps: the items, the allocated references, and the
    references of the objects without a timer. *)
Definition hkeeps b refs b' refs' : Prop :=
  b' ≡ₚ b /\ dom refs' = dom refs /\
  forall q, Some q ∉ ref <$> b -> refs' !! q = refs !! q.

Lemma hkeeps_trans b1 r1 b2 r2 b3 r3 :
  hkeeps b1 r1 b2 r2 -> hkeeps b2 r2 b3 r3 -> hkeeps b1 r1 b3 r3.
Proof.
  intros (Hp & Hd & Hf) (Hp' & Hd' & Hf'). split_and!; [by rewrite Hp'|congruence|].
  intros q Hq. rewrite Hf', Hf; [done..|]. by rewrite Hp.
Qed.

(** ** One step with the hole *)

Lemma delete_insert_same {A} (l : list A) i (x : A) : delete i (<[i := x]> l) = delete i l.
Proof. revert i. induction l as [|y l IH]; intros [|i]; simpl; [done..|]. by rewrite IH. Qed.

Lemma perm_move {A} (l : list A) i j (t x : A) :
  i <> j -> (i < length l)%nat -> l !! j = Some x ->
  <[j := t]> (<[i := x]> l) ≡ₚ <[i := t]> l.
Proof.
  intros Hij Hi Hj. pose proof (lookup_lt_Some _ _ _ Hj).
  rewrite (delete_Permutation (<[i:=t]> l) i t) by (by apply list_lookup_insert_eq).
  rewrite (delete_Permutation (<[j:=t]> _) j t)
    by (apply list_lookup_insert_eq; by rewrite length_insert).
  apply Permutation_skip. rewrite !delete_insert_same.
  apply (Permutation_cons_inv (a := x)).
  rewrite <- (delete_Permutation (<[i:=x]> l) j x) by (by rewrite list_lookup_insert_ne).
  rewrite (delete_Permutation (<[i:=x]> l) i x) by (by apply list_lookup_insert_eq).
  by rewrite delete_insert_same.
Qed.

Lemma ref_write_spec P b refs i j x :
  hrefs P b refs -> b !! i = Some x ->
  exists refs', ref_write refs (ref x) (Z.of_nat j) = Some refs' /\
    dom refs' = dom refs /\ (forall q, Some q <> ref x -> refs' !! q = refs !! q) /\
    (exists p, ref x = Some p /\ refs' !! p = Some (Z.of_nat j)).
Proof.
  intros [Hl _] Hi. destruct (Hl i x Hi) as (p & v & Hp & Hv & _).
  unfold ref_write, store_upd. rewrite Hp. cbn [mbind option_bind]. rewrite Hv. cbn [mbind option_bind].
  eexists. split; [done|]. split_and!.
  - apply dom_insert_lookup_L. eauto.
  - intros q Hq. rewrite lookup_insert_ne; [done|]. congruence.
  - eexists. split; [done|]. apply lookup_insert_eq.
Qed.

(** Writing the position of the item the hole leaves behind. *)
Lemma ref_write_hrefs (P Q : nat -> Prop) b refs i x refs' :
  hrefs P b refs -> b !! i = Some x -> (forall k, Q k -> k <> i -> P k) ->
  dom refs' = dom refs -> (forall q, Some q <> ref x -> refs' !! q = refs !! q) ->
  (exists p, ref x = Some p /\ refs' !! p = Some (Z.of_nat i)) ->
  hrefs Q b refs'.
Proof.
  intros Hb Hi HQ Hd Hf (p & Hp & Hv). split; [|apply Hb]. intros k y Hk.
  destruct (decide (k = i)) as [->|Hki].
  - simplify_eq. eauto 7.
  - destruct (hrefs_live _ _ _ Hb k y Hk) as (p' & v & Hp' & Hv' & Hok).
    exists p', v. split_and!; [done| |by auto].
    rewrite Hf; [done|]. intros Heq. apply Hki. eapply hrefs_ne; [done..|]. by rewrite Hp'.
Qed.

Lemma hrefs_perm_but P i j b b' refs :
  hrefs P b refs -> b' ≡ₚ b -> (forall k, k <> i -> k <> j -> b' !! k = b !! k) ->
  hrefs (fun k => P k /\ k <> i /\ k <> j) b' refs.
Proof.
  intros [Hl Hn] Hp Hb. split.
  - intros k x Hk. assert (Hx : x ∈ b) by (rewrite <- Hp; by eapply list_elem_of_lookup_2).
    apply list_elem_of_lookup in Hx as [k' Hk'].
    destruct (decide (k = i \/ k = j)) as [Hij|Hij].
    + destruct (Hl _ _ Hk') as (p & v & ? & ? & _). exists p, v. split_and!; [done..|]. tauto.
    + rewrite Hb in Hk by tauto. destruct (Hl _ _ Hk) as (p & v & ? & ? & ?).
      exists p, v. split_and!; [done..|]. tauto.
  - by rewrite Hp.
Qed.

(** The hole moves from [pos] to [j]: the item at [j] goes to [pos], and its
    reference with it. *)
Lemma hole_move a refs t pos j x :
  hrefs (fun i => i <> pos) (<[pos := t]> a) refs ->
  (pos < length a)%nat -> pos <> j -> a !! j = Some x ->
  exists refs', ref_write refs (ref x) (Z.of_nat pos) = Some refs' /\
    hrefs (fun i => i <> j) (<[j := t]> (<[pos := x]> a)) refs' /\
    hkeeps (<[pos := t]> a) refs (<[j := t]> (<[pos := x]> a)) refs'.
Proof.
  intros Hb Hpos Hij Hj. pose proof (lookup_lt_Some _ _ _ Hj) as Hjl.
  assert (Hj' : <[pos := t]> a !! j = Some x) by (by rewrite list_lookup_insert_ne).
  pose proof (perm_move a pos j t x Hij Hpos Hj) as Hperm.
  destruct (ref_write_spec _ _ _ _ pos _ Hb Hj') as (refs' & Ew & Hd & Hf & Hv).
  exists refs'. split; [done|]. split; [|split; [done|split; [done|]]].
  - eapply (ref_write_hrefs (fun k => k <> pos /\ k <> pos /\ k <> j) _ _ _ pos x);
      [|by rewrite list_lookup_insert_ne, list_lookup_insert_eq|tauto|done..].
    apply (hrefs_perm_but (fun k => k <> pos) pos j (<[pos := t]> a)); [done..|].
    intros k Hk1 Hk2. by rewrite !list_lookup_insert_ne.
  - intros q Hq. apply Hf. intros Hr. apply Hq. rewrite Hr. apply list_elem_of_fmap.
    exists x. split; [done|]. by eapply list_elem_of_lookup_2.
Qed.

(** The item in hand goes into the hole. *)
Lemma hole_fill a refs t pos :
  hrefs (fun i => i <> pos) (<[pos := t]> a) refs -> (pos < length a)%nat ->
  exists refs', ref_write refs (ref t) (Z.of_nat pos) = Some refs' /\
    heap_refs (<[pos := t]> a) refs' /\ hkeeps (<[pos := t]> a) refs (<[pos := t]> a) refs'.
Proof.
  intros Hb Hpos. assert (Ht : <[pos := t]> a !! pos = Some t) by (by apply list_lookup_insert_eq).
  destruct (ref_write_spec _ _ _ _ pos _ Hb Ht) as (refs' & Ew & Hd & Hf & Hv).
  exists refs'. split; [done|]. split; [|split; [done|split; [done|]]].
  - eapply ref_write_hrefs; [done|done| |done..]. tauto.
  - intros q Hq. apply Hf. intros Hr. apply Hq. rewrite Hr. apply list_elem_of_fmap.
    exists t. split; [done|]. by eapply list_elem_of_lookup_2.
Qed.

(** The values after the move. *)
Lemma hv_move a t pos j x i :
  (pos < length a)%nat -> pos <> j -> a !! j = Some x ->
  hv (<[j := t]> (<[pos := x]> a)) i =
    if decide (i = pos) then hv (<[pos := t]> a) j
    else if decide (i = j) then hv (<[pos := t]> a) pos else hv (<[pos := t]> a) i.
Proof.
  intros Hpos Hij Hj. pose proof (lookup_lt_Some _ _ _ Hj) as Hjl. unfold hv.
  case_decide as H1; [subst i|case_decide as H2; [subst i|]].
  - rewrite list_lookup_insert_ne, list_lookup_insert_eq by done.
    by rewrite list_lookup_insert_ne, Hj by done.
  - rewrite !list_lookup_insert_eq by (rewrite ?length_insert; done). done.
  - by rewrite !list_lookup_insert_ne by done.
Qed.

Lemma move_length a t pos j x : length (<[j := t]> (<[pos := x]> a)) = length a.
Proof. by rewrite !length_insert. Qed.

Lemma hv_hole a t pos : (pos < length a)%nat -> hv (<[pos := t]> a) pos = val t.
Proof. intros. unfold hv. by rewrite list_lookup_insert_eq. Qed.

Lemma hv_other a t pos j x : pos <> j -> a !! j = Some x -> hv (<[pos := t]> a) j = val x.
Proof. intros ? Hj. unfold hv. by rewrite list_lookup_insert_ne, Hj. Qed.

(** Case analysis on the positions of [hv_move]. *)
Ltac hv_cases :=
  repeat match goal with
  | |- context [decide (?x = ?y)] => destruct (decide (x = y))
  | H : context [decide (?x = ?y)] |- _ => destruct (decide (x = y))
  end; subst; try lia.

(** Sifting up: the hole moves to the parent. *)
Lemma up_order a t pos x :
  heap_ok (fun i => i <> pos) (<[pos := t]> a) -> kids_ok pos (<[pos := t]> a) ->
  (0 < pos < length a)%nat -> a !! par pos = Some x -> val t < val x ->
  heap_ok (fun i => i <> par pos) (<[par pos := t]> (<[pos := x]> a)) /\
  kids_ok (par pos) (<[par pos := t]> (<[pos := x]> a)).
Proof.
  intros Hh Hk Hpos Hx Hlt. pose proof (par_lt pos ltac:(lia)) as Hp.
  assert (Hvt : hv (<[pos := t]> a) pos = val t) by (apply hv_hole; lia).
  assert (Hvx : hv (<[pos := t]> a) (par pos) = val x) by (apply hv_other; [lia|done]).
  split.
  - intros i Hi Hne. rewrite move_length in Hi. pose proof (par_lt i ltac:(lia)).
    rewrite !(hv_move a t pos (par pos) x) by (done || lia).
    pose proof (Hh i ltac:(rewrite length_insert; lia)) as Hhi.
    pose proof (Hk ltac:(lia) i ltac:(rewrite length_insert; lia)) as Hki.
    destruct (decide (i = pos)) as [->|Hip].
    + hv_cases.
    + specialize (Hhi Hip). hv_cases.
      rewrite e in Hhi. lia.
  - intros Hpp c Hc Hpc. rewrite move_length in Hc. pose proof (par_lt (par pos) Hpp).
    rewrite !(hv_move a t pos (par pos) x) by (done || lia).
    pose proof (Hh (par pos) ltac:(rewrite length_insert; lia) ltac:(cbv beta; lia)) as Hh1.
    pose proof (Hh c ltac:(rewrite length_insert; lia)) as Hh2. rewrite Hpc in Hh2.
    pose proof (par_lt c ltac:(lia)). hv_cases.
Qed.

(** What the loops leave: the array with a hole at [pos']. *)
Definition hole_post a refs t pos a' refs' pos' : Prop :=
  (pos' < length a')%nat /\ hrefs (fun i => i <> pos') (<[pos' := t]> a') refs' /\
  heap_ordered (<[pos' := t]> a') /\ hkeeps (<[pos := t]> a) refs (<[pos' := t]> a') refs'.

Lemma hkeeps_refl b refs : hkeeps b refs b refs.
Proof. by split_and!. Qed.

Lemma heap_up_loop_spec fuel : forall a refs t pos,
  (pos <= fuel)%nat -> (pos < length a)%nat -> zlen a < 2 ^ 60 ->
  hrefs (fun i => i <> pos) (<[pos := t]> a) refs ->
  heap_ok (fun i => i <> pos) (<[pos := t]> a) -> kids_ok pos (<[pos := t]> a) ->
  exists a' refs' pos',
    heap_up_loop fuel a refs t (Z.of_nat pos) = Some (a', refs', Z.of_nat pos') /\
    hole_post a refs t pos a' refs' pos'.
Proof.
  induction fuel as [|fuel IH]; intros a refs t pos Hf Hpos Hlen Hr Hh Hk; unfold zlen in Hlen.
  { assert (pos = 0%nat) as -> by lia. exists a, refs, 0%nat. split; [done|].
    split_and!; [done|done| |apply hkeeps_refl]. intros i Hi _. apply Hh; lia. }
  cbn [heap_up_loop]. destruct (Z.ltb_spec 0 (Z.of_nat pos)) as [Hp|Hp].
  2: { exists a, refs, pos. split; [done|].
       split_and!; [done|done| |apply hkeeps_refl]. intros i Hi _. apply Hh; lia. }
  rewrite heap_parent_nat, arr_get_nat by lia. pose proof (par_lt pos ltac:(lia)) as Hpl.
  destruct (lookup_lt_is_Some_2 a (par pos) ltac:(lia)) as [x Hx]. rewrite Hx. cbn [mbind option_bind].
  assert (Hvt : hv (<[pos := t]> a) pos = val t) by (by apply hv_hole).
  assert (Hvx : hv (<[pos := t]> a) (par pos) = val x) by (apply hv_other; [lia|done]).
  destruct (Z.ltb_spec (val t) (val x)) as [Hlt|Hge].
  - rewrite arr_set_nat by done. cbn [mbind option_bind].
    destruct (hole_move a refs t pos (par pos) x Hr Hpos ltac:(lia) Hx) as (refs1 & Ew & Hr1 & Hk1).
    rewrite Ew. cbn [mbind option_bind].
    destruct (up_order a t pos x Hh Hk ltac:(lia) Hx Hlt) as [Hh2 Hk2].
    destruct (IH (<[pos:=x]> a) refs1 t (par pos)) as (a' & refs' & pos' & E & Hl' & Hr' & Hh' & Hkp);
      [lia|rewrite length_insert; lia|rewrite zlen_insert; unfold zlen; lia|done..|].
    exists a', refs', pos'. split; [done|]. split_and!; [done..|]. by eapply hkeeps_trans.
  - exists a, refs, pos. split; [done|]. split_and!; [done|done| |apply hkeeps_refl].
    intros i Hi _. destruct (decide (i = pos)) as [->|Hne]; [lia|by apply Hh].
Qed.

(** ** Sifting down *)

(** [j] is the position of the smallest of the item in hand and the kids. *)
Definition min_kid a t pos j : Prop :=
  j = pos /\ (forall c, (0 < c < length a)%nat -> par c = pos -> val t <= hv a c) \/
  (0 < j)%nat /\ par j = pos /\ (exists x, a !! j = Some x /\ val x < val t) /\
  (forall c, (0 < c < length a)%nat -> par c = pos -> hv a j <= hv a c).

Lemma heap_min_pos_spec a t pos :
  (pos < length a)%nat -> zlen a < 2 ^ 60 ->
  exists j, heap_min_pos a (Z.of_nat pos) (zlen a) (val t) = Some (Z.of_nat j) /\ min_kid a t pos j.
Proof.
  unfold zlen. intros Hpos Hlen. unfold heap_min_pos.
  rewrite heap_left_nat, heap_right_nat, !arr_get_nat by lia.
  assert (Hkid : forall c, (0 < c)%nat -> par c = pos <-> (c = 2 * pos + 1 \/ c = 2 * pos + 2)%nat)
    by (intros; by apply par_kids).
  pose proof (proj2 (Hkid (2 * pos + 1)%nat ltac:(lia)) ltac:(auto)) as Hkl.
  pose proof (proj2 (Hkid (2 * pos + 2)%nat ltac:(lia)) ltac:(auto)) as Hkr.
  assert (Hl : forall n, (n < length a)%nat -> exists x, a !! n = Some x /\ hv a n = val x).
  { intros n Hn. destruct (lookup_lt_is_Some_2 a n Hn) as [x Hx]. exists x. split; [done|].
    by apply hv_lookup. }
  destruct (Z.ltb_spec (Z.of_nat (2 * pos + 1)) (Z.of_nat (length a))) as [Hlt|Hge];
    [destruct (Hl (2 * pos + 1)%nat ltac:(lia)) as (xl & Exl & Hvl); rewrite Exl; cbn [mbind option_bind];
     destruct (Z.ltb_spec (val xl) (val t)); cbn [mbind option_bind]|cbn [mbind option_bind]];
    (destruct (Z.ltb_spec (Z.of_nat (2 * pos + 2)) (Z.of_nat (length a))) as [Hlt'|Hge'];
     [destruct (Hl (2 * pos + 2)%nat ltac:(lia)) as (xr & Exr & Hvr); rewrite Exr; cbn [mbind option_bind];
      match goal with |- context [val xr <? ?v] => destruct (Z.ltb_spec (val xr) v) end|]).
  all: eexists; split; [done|]; unfold min_kid.
  all: first [ right; split; [lia|]; split; [done|]; split; [eexists; split; [done|lia]|]
             | left; split; [done|] ];
    intros c Hc Hpc; destruct (proj1 (Hkid c ltac:(lia)) Hpc) as [->| ->]; lia.
Qed.

Lemma down_order a t pos j x :
  heap_ok (fun i => par i <> pos) (<[pos := t]> a) -> kids_ok pos (<[pos := t]> a) ->
  (pos < length a)%nat -> (0 < j)%nat -> par j = pos -> a !! j = Some x -> val x < val t ->
  (forall c, (0 < c < length a)%nat -> par c = pos -> hv a j <= hv a c) ->
  heap_ok (fun i => par i <> j) (<[j := t]> (<[pos := x]> a)) /\
  kids_ok j (<[j := t]> (<[pos := x]> a)).
Proof.
  intros Hh Hk Hpos Hj Hpj Hx Hlt Hmin. pose proof (par_lt j Hj) as Hjp.
  assert (Hvx : hv (<[pos := t]> a) j = val x) by (apply hv_other; [lia|done]).
  assert (Hvt : hv (<[pos := t]> a) pos = val t) by (by apply hv_hole).
  assert (Hjl : (j < length a)%nat) by (by eapply lookup_lt_Some).
  assert (Hmin' : forall c, (0 < c < length a)%nat -> par c = pos -> val x <= hv (<[pos := t]> a) c).
  { intros c Hc Hpc. pose proof (par_lt c ltac:(lia)). specialize (Hmin c Hc Hpc).
    rewrite (hv_lookup _ _ _ Hx) in Hmin. unfold hv in *. by rewrite list_lookup_insert_ne by lia. }
  split.
  - intros i Hi Hne. cbv beta in Hne. rewrite move_length in Hi. pose proof (par_lt i ltac:(lia)).
    rewrite !(hv_move a t pos j x) by (done || lia).
    destruct (decide (i = pos)) as [->|Hip].
    + pose proof (Hk ltac:(lia) j ltac:(rewrite length_insert; lia) Hpj). hv_cases.
    + destruct (decide (par i = pos)) as [Hpi|Hpi].
      * specialize (Hmin' i ltac:(lia) Hpi). hv_cases.
      * pose proof (Hh i ltac:(rewrite length_insert; lia) Hpi). hv_cases.
  - intros _ c Hc Hpc. rewrite move_length in Hc. pose proof (par_lt c ltac:(lia)).
    rewrite !(hv_move a t pos j x) by (done || lia).
    pose proof (Hh c ltac:(rewrite length_insert; lia) ltac:(cbv beta; lia)) as Hhc.
    rewrite Hpc in Hhc. hv_cases.
Qed.

Lemma heap_down_loop_spec fuel : forall a refs t pos,
  (length a - pos < fuel)%nat -> (pos < length a)%nat -> zlen a < 2 ^ 60 ->
  hrefs (fun i => i <> pos) (<[pos := t]> a) refs ->
  heap_ok (fun i => par i <> pos) (<[pos := t]> a) -> kids_ok pos (<[pos := t]> a) ->
  exists a' refs' pos',
    heap_down_loop fuel a refs t (Z.of_nat pos) (zlen a) = Some (a', refs', Z.of_nat pos') /\
    hole_post a refs t pos a' refs' pos'.
Proof.
  induction fuel as [|fuel IH]; intros a refs t pos Hf Hpos Hlen Hr Hh Hk; [lia|].
  cbn [heap_down_loop].
  destruct (heap_min_pos_spec a t pos Hpos Hlen) as (j & E & Hj). rewrite E. cbn [mbind option_bind].
  destruct Hj as [[-> Hmin]|(Hj0 & Hpj & (x & Hx & Hlt) & Hmin)].
  - rewrite Z.eqb_refl. exists a, refs, pos. split; [done|].
    split_and!; [done|done| |apply hkeeps_refl]. intros i Hi _. rewrite length_insert in Hi.
    destruct (decide (par i = pos)) as [Hpi|Hpi].
    + rewrite Hpi, hv_hole by done. specialize (Hmin i ltac:(lia) Hpi).
      pose proof (par_lt i ltac:(lia)). unfold hv in *. by rewrite list_lookup_insert_ne by lia.
    + apply Hh; [by rewrite length_insert|done].
  - pose proof (par_lt j Hj0). pose proof (lookup_lt_Some _ _ _ Hx).
    destruct (Z.eqb_spec (Z.of_nat j) (Z.of_nat pos)); [lia|].
    rewrite arr_get_nat, Hx. cbn [mbind option_bind]. rewrite arr_set_nat by done. cbn [mbind option_bind].
    destruct (hole_move a refs t pos j x Hr Hpos ltac:(lia) Hx) as (refs1 & Ew & Hr1 & Hk1).
    rewrite Ew. cbn [mbind option_bind].
    destruct (down_order a t pos j x Hh Hk Hpos Hj0 Hpj Hx Hlt Hmin) as [Hh2 Hk2].
    destruct (IH (<[pos:=x]> a) refs1 t j) as (a' & refs' & pos' & E' & Hl' & Hr' & Hh' & Hkp);
      [rewrite length_insert; lia|rewrite length_insert; lia|by rewrite zlen_insert|done..|].
    rewrite zlen_insert in E'. exists a', refs', pos'. split; [done|].
    split_and!; [done..|]. by eapply hkeeps_trans.
Qed.

(** ** The operations *)

(** A heap with live references, but for the item at [pos]. *)
Record heap_but (pos : nat) a refs : Prop := {
  but_pos : (pos < length a)%nat;
  but_len : zlen a < 2 ^ 60;
  but_refs : hrefs (fun i => i <> pos) a refs;
  but_ok : heap_ok (fun i => i <> pos /\ par i <> pos) a;
  but_kids : kids_ok pos a
}.

Definition heap_rep a refs : Prop := heap_ordered a /\ heap_refs a refs /\ zlen a < 2 ^ 60.

(** A heap again, with the same items. *)
Definition heap_fixed a refs (r : option (list HeapItem * refmem)) : Prop :=
  exists a' refs', r = Some (a', refs') /\ heap_rep a' refs' /\ hkeeps a refs a' refs'.

Lemma heap_finish a refs t pos a' refs' pos' :
  a !! pos = Some t -> zlen a < 2 ^ 60 -> hole_post a refs t pos a' refs' pos' ->
  heap_fixed a refs
    (a ← arr_set a' (Z.of_nat pos') t;
     refs ← ref_write refs' (ref t) (Z.of_nat pos');
     Some (a, refs)).
Proof.
  intros Ht Hlen (Hl & Hr & Hh & Hk). rewrite (list_insert_id a pos t Ht) in Hk.
  rewrite arr_set_nat by done. cbn [mbind option_bind].
  destruct (hole_fill a' refs' t pos' Hr Hl) as (refs2 & Ew & Hr2 & Hk2).
  rewrite Ew. cbn [mbind option_bind]. exists (<[pos' := t]> a'), refs2.
  split; [done|]. split; [|by eapply hkeeps_trans]. split; [done|]. split; [done|].
  destruct Hk as (Hp & _). unfold zlen in *. by rewrite Hp.
Qed.

Lemma heap_up_spec a refs pos :
  heap_but pos a refs -> heap_ok (fun i => i <> pos) a -> heap_fixed a refs (heap_up a refs (Z.of_nat pos)).
Proof.
  intros [Hpos Hlen Hr _ Hk] Hh. unfold heap_up. rewrite arr_get_nat.
  destruct (lookup_lt_is_Some_2 a pos Hpos) as [t Ht]. rewrite Ht. cbn [mbind option_bind].
  rewrite <- (list_insert_id a pos t Ht) in Hr, Hh, Hk.
  destruct (heap_up_loop_spec (Z.to_nat (Z.of_nat pos)) a refs t pos) as (a' & refs' & pos' & E & Hp);
    [lia|done..|].
  rewrite E. cbn [mbind option_bind]. by eapply heap_finish.
Qed.

Lemma heap_down_spec a refs pos :
  heap_but pos a refs -> heap_ok (fun i => par i <> pos) a ->
  heap_fixed a refs (heap_down a refs (Z.of_nat pos) (zlen a)).
Proof.
  intros [Hpos Hlen Hr _ Hk] Hh. unfold heap_down. rewrite arr_get_nat.
  destruct (lookup_lt_is_Some_2 a pos Hpos) as [t Ht]. rewrite Ht. cbn [mbind option_bind].
  rewrite <- (list_insert_id a pos t Ht) in Hr, Hh, Hk.
  destruct (heap_down_loop_spec (S (length a)) a refs t pos) as (a' & refs' & pos' & E & Hp);
    [lia|done..|].
  rewrite E. cbn [mbind option_bind]. by eapply heap_finish.
Qed.

Lemma heap_update_spec a refs pos :
  heap_but pos a refs -> heap_fixed a refs (heap_update a refs (Z.of_nat pos) (zlen a)).
Proof.
  intros Hb. pose proof Hb as [Hpos Hlen Hr Hh Hk]. unfold heap_update.
  destruct (Z.ltb_spec 0 (Z.of_nat pos)) as [Hp|Hp]; cbn [mbind option_bind].
  - pose proof (par_lt pos ltac:(lia)) as Hpl. unfold zlen in Hlen.
    rewrite heap_parent_nat, !arr_get_nat by lia.
    destruct (lookup_lt_is_Some_2 a (par pos) ltac:(lia)) as [x Hx]. rewrite Hx. cbn [mbind option_bind].
    destruct (lookup_lt_is_Some_2 a pos Hpos) as [t Ht]. rewrite Ht. cbn [mbind option_bind].
    pose proof (hv_lookup _ _ _ Hx). pose proof (hv_lookup _ _ _ Ht).
    destruct (Z.ltb_spec (val t) (val x)).
    + apply heap_up_spec; [done|]. intros i Hi Hne. destruct (decide (par i = pos)) as [Hpi|Hpi].
      * specialize (Hk ltac:(lia) i Hi Hpi). rewrite Hpi. lia.
      * by apply Hh.
    + apply heap_down_spec; [done|]. intros i Hi Hne. cbv beta in Hne.
      destruct (decide (i = pos)) as [->|Hpi]; [lia|by apply Hh].
  - apply heap_down_spec; [done|]. intros i Hi Hne. cbv beta in Hne. apply Hh; lia.
Qed.

(** Any item may be stored at a position of a heap before [heap_update]. *)
Lemma heap_but_insert a refs pos t :
  heap_rep a refs -> (pos < length a)%nat ->
  (exists p, ref t = Some p /\ is_Some (refs !! p) /\
     forall i x, a !! i = Some x -> ref x = Some p -> i = pos) ->
  heap_but pos (<[pos := t]> a) refs.
Proof.
  intros (Hh & [Hl Hn] & Hlen) Hpos (p & Hp & [v Hv] & Hu).
  assert (Hpar : forall i, (0 < i)%nat -> (par i < i)%nat) by apply par_lt.
  assert (Ht : <[pos := t]> a !! pos = Some t) by (by apply list_lookup_insert_eq).
  split; rewrite ?length_insert, ?zlen_insert; try done.
  - split.
    + intros i x Hi. destruct (decide (i = pos)) as [->|Hne].
      * simplify_eq. by exists p, v.
      * rewrite list_lookup_insert_ne in Hi by done. destruct (Hl i x Hi) as (p' & v' & ? & ? & Hok).
        exists p', v'. split_and!; [done..|]. intros _. by apply Hok.
    + rewrite list_fmap_insert. apply NoDup_alt. intros i j y Hi Hj.
      assert (Hinv : forall k, <[pos := ref t]> (ref <$> a) !! k = Some y ->
        (k = pos /\ y = Some p) \/ (k <> pos /\ (ref <$> a) !! k = Some y)).
      { intros k Hk. destruct (decide (k = pos)) as [->|Hne].
        - rewrite list_lookup_insert_eq in Hk by (by rewrite length_fmap). left. split; congruence.
        - rewrite list_lookup_insert_ne in Hk by done. by right. }
      assert (Hno : forall k, k <> pos -> (ref <$> a) !! k = Some (Some p) -> False).
      { intros k Hne Hk. rewrite list_lookup_fmap in Hk. destruct (a !! k) eqn:Ek; simplify_eq/=.
        by eapply Hne, Hu. }
      destruct (Hinv i Hi) as [[-> ->]|[Hi1 Hi2]], (Hinv j Hj) as [[-> ?]|[Hj1 Hj2]]; subst;
        try done; try (by exfalso; eapply Hno).
      by eapply (NoDup_lookup (ref <$> a)).
  - intros i Hi [Hne1 Hne2]. rewrite length_insert in Hi. unfold hv.
    rewrite !list_lookup_insert_ne by done. by apply Hh.
  - intros Hp0 c Hc Hpc. rewrite length_insert in Hc. pose proof (Hpar pos Hp0).
    pose proof (Hpar c ltac:(lia)). unfold hv. rewrite !list_lookup_insert_ne by lia.
    pose proof (Hh c Hc I) as H1. rewrite Hpc in H1. pose proof (Hh pos ltac:(lia) I). unfold hv in *. lia.
Qed.

Lemma heap_rep_prefix l x refs : heap_rep (l ++ [x]) refs -> heap_rep l refs.
Proof.
  intros (Hh & [Hl Hn] & Hlen). rewrite zlen_app in Hlen. unfold zlen in *. simpl in *.
  split_and!; [| |unfold zlen; lia].
  - intros i Hi _. pose proof (Hh i ltac:(rewrite length_app; simpl; lia) I) as H.
    pose proof (par_lt i ltac:(lia)). unfold hv in *. by rewrite !lookup_app_l in H by lia.
  - split.
    + intros i y Hi. apply Hl. by apply lookup_app_l_Some.
    + rewrite fmap_app in Hn. by apply NoDup_app in Hn as (? & _).
Qed.

Lemma hrefs_notin P a refs i x p :
  hrefs P a refs -> a !! i = Some x -> ref x = Some p ->
  forall j y, a !! j = Some y -> ref y = Some p -> j = i.
Proof. intros Hr Hi Hx j y Hj Hy. eapply hrefs_ne; [done..|]. congruence. Qed.

(** Removes exactly the timer at [pos]. *)
Lemma heap_delete_spec a refs pos x :
  heap_rep a refs -> a !! pos = Some x ->
  exists a' refs', heap_delete a refs (Z.of_nat pos) = Some (a', refs') /\ heap_rep a' refs' /\
    a ≡ₚ x :: a' /\ dom refs' = dom refs /\
    forall q, Some q ∉ ref <$> a' -> refs' !! q = refs !! q.
Proof.
  intros Hrep Hx. pose proof (lookup_lt_Some _ _ _ Hx) as Hpos. unfold heap_delete.
  destruct (last a) as [back|] eqn:El; [|apply last_None in El; by subst a].
  apply last_Some in El as [l ->]. cbn [mbind option_bind].
  rewrite arr_set_nat by done. cbn [mbind option_bind].
  rewrite length_app in Hpos. simpl in Hpos.
  pose proof (heap_rep_prefix _ _ _ Hrep) as Hl.
  destruct (decide (pos = length l)) as [->|Hne].
  - rewrite insert_app_r_alt, Nat.sub_diag by lia. cbn [insert list_insert]. rewrite removelast_last.
    rewrite lookup_app_r, Nat.sub_diag in Hx by lia. simplify_eq/=.
    destruct (Z.ltb_spec (Z.of_nat (length l)) (zlen l)) as [H|_]; [unfold zlen in H; lia|].
    exists l, refs. split_and!; [done|apply Hl..| |done|done]. by rewrite Permutation_app_comm.
  - assert (Hpl : (pos < length l)%nat) by lia.
    rewrite insert_app_l by done. rewrite removelast_last.
    destruct (Z.ltb_spec (Z.of_nat pos) (zlen (<[pos:=back]> l))) as [_|H];
      [|rewrite zlen_insert in H; unfold zlen in H; lia].
    rewrite lookup_app_l in Hx by done. destruct Hrep as (_ & Hr & _).
    assert (Hbk : (l ++ [back]) !! length l = Some back) by (by rewrite lookup_app_r, Nat.sub_diag by lia).
    destruct (hrefs_live _ _ _ Hr _ _ Hbk) as (p & v & Hp & Hv & _).
    destruct (heap_update_spec (<[pos:=back]> l) refs pos) as (a' & refs' & E & Hrep' & Hk & Hd & Hf).
    { apply heap_but_insert; [done|done|]. exists p. split_and!; [done|eauto|].
      intros i y Hi Hy. exfalso.
      pose proof (hrefs_notin _ _ _ _ _ _ Hr Hbk Hp i y ltac:(by apply lookup_app_l_Some) Hy).
      apply lookup_lt_Some in Hi. lia. }
    exists a', refs'. split; [done|]. split; [done|]. split; [|split; [done|]].
    + rewrite Hk, (delete_Permutation (<[pos:=back]> l) pos back), delete_insert_same
        by (by apply list_lookup_insert_eq).
      rewrite (delete_Permutation l pos x) at 1 by done. rewrite Permutation_app_comm. simpl.
      apply Permutation_swap.
    + intros q Hq. apply Hf. by rewrite <- Hk.
Qed.

(** A timer of an object that has none yet is added. *)
Lemma heap_upsert_new a refs pos t p :
  heap_rep a refs -> zlen a + 1 < 2 ^ 60 -> zlen a <= pos ->
  ref t = Some p -> is_Some (refs !! p) -> Some p ∉ ref <$> a ->
  exists a' refs', heap_upsert a refs pos t = Some (a', refs') /\ heap_rep a' refs' /\
    a' ≡ₚ t :: a /\ dom refs' = dom refs /\
    forall q, Some q ∉ ref <$> a' -> refs' !! q = refs !! q.
Proof.
  intros (Hh & [Hl Hn] & _) Hlen Hpos Hp [v Hv] Hnew. unfold heap_upsert.
  destruct (Z.ltb_spec pos (zlen a)) as [?|_]; [lia|]. cbn [mbind option_bind].
  unfold zlen at 1.
  destruct (heap_update_spec (a ++ [t]) refs (length a)) as (a' & refs' & E & Hrep' & Hk & Hd & Hf).
  { assert (Hlk : forall i, (i < length a)%nat -> (a ++ [t]) !! i = a !! i) by (intros; by apply lookup_app_l).
    split; rewrite ?length_app, ?zlen_app; simpl; try lia; try done.
    - split.
      + intros i x Hi. destruct (decide (i = length a)) as [->|Hne].
        * rewrite lookup_app_r, Nat.sub_diag in Hi by lia. simplify_eq/=. by exists p, v.
        * pose proof (lookup_lt_Some _ _ _ Hi) as Hil. rewrite length_app in Hil. simpl in Hil.
          rewrite Hlk in Hi by lia. destruct (Hl i x Hi) as (p' & v' & ? & ? & Hok).
          exists p', v'. split_and!; [done..|]. intros _. by apply Hok.
      + rewrite fmap_app. apply NoDup_app. split_and!; [done| |apply NoDup_singleton].
        intros y Hy1 Hy2. cbn in Hy2. apply list_elem_of_singleton in Hy2 as ->. by rewrite Hp in Hy1.
    - intros i Hi [Hne _]. rewrite length_app in Hi. simpl in Hi. pose proof (par_lt i ltac:(lia)).
      unfold hv. rewrite !Hlk by lia. apply Hh; [lia|done].
    - intros _ c Hc Hpc. rewrite length_app in Hc. simpl in Hc. pose proof (par_lt c ltac:(lia)). lia. }
  exists a', refs'. split; [done|]. split; [done|]. split; [|split; [done|]].
  - rewrite Hk. by rewrite Permutation_app_comm.
  - intros q Hq. apply Hf. by rewrite <- Hk.
Qed.

(** The timer of an object that has one is replaced. *)
Lemma heap_upsert_old a refs pos t x :
  heap_rep a refs -> a !! pos = Some x -> ref t = ref x ->
  exists a' refs' rest, heap_upsert a refs (Z.of_nat pos) t = Some (a', refs') /\ heap_rep a' refs' /\
    a ≡ₚ x :: rest /\ a' ≡ₚ t :: rest /\ dom refs' = dom refs /\
    forall q, Some q ∉ ref <$> a -> refs' !! q = refs !! q.
Proof.
  intros Hrep Hx Ht. pose proof (lookup_lt_Some _ _ _ Hx) as Hpos. unfold heap_upsert.
  destruct (Z.ltb_spec (Z.of_nat pos) (zlen a)) as [_|?]; [|unfold zlen in *; lia].
  rewrite arr_set_nat by done. cbn [mbind option_bind].
  destruct Hrep as (Hh & Hr & Hlen).
  destruct (hrefs_live _ _ _ Hr pos x Hx) as (p & v & Hp & Hv & _).
  destruct (heap_update_spec (<[pos:=t]> a) refs pos) as (a' & refs' & E & Hrep' & Hk & Hd & Hf).
  { apply heap_but_insert; [done|done|]. exists p. split_and!; [congruence|eauto|].
    intros i y Hi Hy. by eapply hrefs_notin. }
  exists a', refs', (delete pos a). split; [done|]. split; [done|]. split; [|split; [|split; [done|]]].
  - by apply delete_Permutation.
  - rewrite Hk, (delete_Permutation (<[pos:=t]> a) pos t), delete_insert_same
      by (by apply list_lookup_insert_eq). done.
  - intros q Hq. apply Hf. rewrite list_fmap_insert, Ht. rewrite list_insert_id; [done|].
    by rewrite list_lookup_fmap, Hx.
Qed.
