(* ===== verification/DList.v ===== *)
(** * list.h: the intrusive doubly linked list of idle connections

    A node has two links; a list is a ring through a dummy head.  [ring m h l]
    says that the ring of [h] goes through the nodes [l], in this order. *)

From S2P Require Import Prelude.
Local Open Scope Z_scope.

Record DNode := mkDNode {
  prev : option ptr;
  next : option ptr
}.

Notation dmem := (gmap ptr DNode).

Definition set_prev (q : option ptr) (n : DNode) : DNode := mkDNode q (next n).
Definition set_next (q : option ptr) (n : DNode) : DNode := mkDNode (prev n) q.

(** [node->prev = node->next = node] *)
Definition dlist_init (m : dmem) (node : ptr) : option dmem :=
  m ← store_upd m node (set_next (Some node));
  store_upd m node (set_prev (Some node)).

Definition dlist_empty (m : dmem) (node : ptr) : option bool :=
  n ← m !! node; Some (bool_decide (next n = Some node)).

Definition dlist_detach (m : dmem) (node : ptr) : option dmem :=
  n ← m !! node;
  prev ← prev n;
  next ← next n;
  m ← store_upd m prev (set_next (Some next));
  store_upd m next (set_prev (Some prev)).

Definition dlist_insert_before (m : dmem) (target rookie : ptr) : option dmem :=
  t ← m !! target;
  prev ← prev t;
  m ← store_upd m prev (set_next (Some rookie));
  m ← store_upd m rookie (set_prev (Some prev));
  m ← store_upd m rookie (set_next (Some target));
  store_upd m target (set_prev (Some rookie)).

(** ** Rings *)

(** The two links between neighbours. *)
Definition link (m : dmem) (a b : ptr) : Prop :=
  next <$> m !! a = Some (Some b) /\ prev <$> m !! b = Some (Some a).

(** Every node of [h :: l] is linked to its successor; the last one to [h]. *)
Definition ring (m : dmem) (h : ptr) (l : list ptr) : Prop :=
  Forall2 (link m) (h :: l) (l ++ [h]) /\ NoDup (h :: l).

Section links.
Implicit Types (m : dmem) (a b p : ptr).

Definition next_of m a : option (option ptr) := next <$> m !! a.
Definition prev_of m a : option (option ptr) := prev <$> m !! a.

Lemma set_next_spec m p q :
  is_Some (m !! p) -> exists m', store_upd m p (set_next q) = Some m' /\
    next_of m' p = Some q /\ (forall a, a <> p -> next_of m' a = next_of m a) /\
    (forall a, prev_of m' a = prev_of m a) /\ dom m' = dom m /\ same_off {[p]} m m'.
Proof.
  intros [x Hx]. rewrite (store_upd_Some _ _ _ _ Hx). eexists. split; [done|].
  unfold next_of, prev_of. split_and!.
  - by rewrite lookup_insert_eq.
  - intros a Ha. by rewrite lookup_insert_ne.
  - intros a. destruct (decide (a = p)) as [->|]; [by rewrite lookup_insert_eq, Hx|by rewrite lookup_insert_ne].
  - by apply dom_insert_lookup_L.
  - auto with redis.
Qed.

Lemma set_prev_spec m p q :
  is_Some (m !! p) -> exists m', store_upd m p (set_prev q) = Some m' /\
    prev_of m' p = Some q /\ (forall a, a <> p -> prev_of m' a = prev_of m a) /\
    (forall a, next_of m' a = next_of m a) /\ dom m' = dom m /\ same_off {[p]} m m'.
Proof.
  intros [x Hx]. rewrite (store_upd_Some _ _ _ _ Hx). eexists. split; [done|].
  unfold next_of, prev_of. split_and!.
  - by rewrite lookup_insert_eq.
  - intros a Ha. by rewrite lookup_insert_ne.
  - intros a. destruct (decide (a = p)) as [->|]; [by rewrite lookup_insert_eq, Hx|by rewrite lookup_insert_ne].
  - by apply dom_insert_lookup_L.
  - auto with redis.
Qed.

Lemma dom_live m m' p : dom m' = dom m -> is_Some (m !! p) -> is_Some (m' !! p).
Proof. rewrite <- !elem_of_dom. by intros ->. Qed.

Lemma links_frame m m' l k :
  (forall a, a ∈ l -> next_of m' a = next_of m a) ->
  (forall a, a ∈ k -> prev_of m' a = prev_of m a) ->
  Forall2 (link m) l k -> Forall2 (link m') l k.
Proof.
  intros Hn Hp Hf. induction Hf as [|a b l k [H1 H2] Hf IH]; constructor.
  - split; [etransitivity; [apply Hn; set_solver|done]|etransitivity; [apply Hp; set_solver|done]].
  - apply IH; intros; [apply Hn|apply Hp]; set_solver.
Qed.

Lemma ring_live m h l p : ring m h l -> p ∈ h :: l -> is_Some (m !! p).
Proof.
  intros [Hf _] Hp. apply list_elem_of_lookup in Hp as [i Hi].
  destruct (Forall2_lookup_l _ _ _ _ _ Hf Hi) as (y & _ & H & _).
  by destruct (m !! p).
Qed.

Lemma dlist_init_spec m p :
  is_Some (m !! p) -> exists m', dlist_init m p = Some m' /\ ring m' p [] /\
    same_off {[p]} m m' /\ dom m' = dom m.
Proof.
  intros Hp. unfold dlist_init.
  destruct (set_next_spec m p (Some p) Hp) as (m1 & E1 & Hn1 & _ & _ & Hd1 & Ho1).
  destruct (set_prev_spec m1 p (Some p)) as (m2 & E2 & Hp2 & _ & Hn2 & Hd2 & Ho2); [by eapply dom_live|].
  rewrite E1. cbn [mbind option_bind]. rewrite E2. eexists. split; [done|].
  split; [|split; [by transitivity m1|congruence]].
  split; [|apply NoDup_singleton]. constructor; [|constructor].
  split; [etransitivity; [apply Hn2|done]|done].
Qed.

Lemma dlist_empty_spec m h l : ring m h l -> dlist_empty m h = Some (bool_decide (l = [])).
Proof.
  intros [Hf Hn]. unfold dlist_empty. destruct l as [|a l]; inversion Hf as [|? ? ? ? [H1 H2] _];
    simplify_eq; destruct (m !! h) as [n|]; simplify_eq/=; f_equal.
  - rewrite H1. by rewrite bool_decide_eq_true_2.
  - rewrite H1. rewrite bool_decide_eq_false_2; [done|]. intros ?. simplify_eq.
    apply NoDup_cons in Hn as [Hn _]. set_solver.
Qed.

(** The tail of a ring: its last node, and the links up to it. *)
Lemma ring_last m h l :
  ring m h l -> exists A p, h :: l = A ++ [p] /\ Forall2 (link m) A l /\ link m p h.
Proof.
  intros [Hf _]. destruct (exists_last (l := h :: l)) as (A & p & E); [done|].
  exists A, p. split; [done|]. rewrite E in Hf.
  apply Forall2_app_inv in Hf as [H1 H2].
  - split; [done|]. by inversion H2.
  - apply (f_equal length) in E. rewrite length_app in E. simpl in E. lia.
Qed.

(** Inserting before the head: [rookie] becomes the last node. *)
Lemma dlist_insert_spec m h l r :
  ring m h l -> r ∉ h :: l -> is_Some (m !! r) ->
  exists m', dlist_insert_before m h r = Some m' /\ ring m' h (l ++ [r]) /\
    same_off (list_to_set (h :: r :: l)) m m' /\ dom m' = dom m.
Proof.
  intros Hring Hr Hrl. destruct (ring_last _ _ _ Hring) as (A & p & E & HA & Hl1 & Hl2).
  assert (Hnd : NoDup (A ++ [p])) by (rewrite <- E; apply Hring). nodup_split.
  assert (Hp : p ∈ h :: l) by (rewrite E; set_solver).
  assert (HAl : forall a, a ∈ A -> a ∈ h :: l) by (intros a Ha; rewrite E; set_solver).
  pose proof (ring_live _ _ _ h Hring ltac:(set_solver)) as [th Hth].
  unfold dlist_insert_before. rewrite Hth in Hl2 |- *. apply (inj Some) in Hl2.
  cbn [mbind option_bind]. rewrite Hl2. cbn [mbind option_bind].
  destruct (set_next_spec m p (Some r)) as (m1 & E1 & Hn1 & Hn1' & Hp1 & Hd1 & Ho1); [by eapply ring_live|].
  destruct (set_prev_spec m1 r (Some p)) as (m2 & E2 & Hp2 & Hp2' & Hn2 & Hd2 & Ho2); [by eapply dom_live|].
  destruct (set_next_spec m2 r (Some h)) as (m3 & E3 & Hn3 & Hn3' & Hp3 & Hd3 & Ho3);
    [eapply dom_live; [|done]; congruence|].
  destruct (set_prev_spec m3 h (Some r)) as (m4 & E4 & Hp4 & Hp4' & Hn4 & Hd4 & Ho4);
    [eapply dom_live; [|by eexists]; congruence|].
  rewrite E1. cbn [mbind option_bind]. rewrite E2. cbn [mbind option_bind].
  rewrite E3. cbn [mbind option_bind]. exists m4. split; [done|].
  assert (Hpr : p <> r) by (intros ->; done). assert (Hhr : h <> r) by set_solver.
  split; [|split; [|congruence]].
  - destruct Hring as [Hf Hnd]. split.
    + replace (h :: l ++ [r]) with (A ++ [p; r]) by (change (h :: l ++ [r]) with ((h :: l) ++ [r]); by rewrite E, <- app_assoc).
      rewrite <- app_assoc. apply Forall2_app.
      * eapply links_frame, HA; intros a Ha.
        -- rewrite Hn4, Hn3', Hn2, Hn1'; [done|..]; intros ->; [mem_absurd|]. by apply Hr, HAl.
        -- assert (a ∈ h :: l) by set_solver. rewrite Hp4', Hp3, Hp2', Hp1; [done|..]; intros ->; [done|].
           apply NoDup_cons in Hnd as [Hnd _]. done.
      * repeat constructor; fold (next_of m4 p) (prev_of m4 r) (next_of m4 r) (prev_of m4 h).
        -- by rewrite Hn4, Hn3', Hn2.
        -- by rewrite Hp4', Hp3.
        -- by rewrite Hn4.
        -- done.
    + rewrite app_comm_cons. apply NoDup_app. split_and!; [done| |apply NoDup_singleton].
      intros x Hx. rewrite list_elem_of_singleton. by intros ->.
  - transitivity m1; [|transitivity m2; [|transitivity m3]];
      (eapply same_off_weaken; [|eassumption]); intros q ->%elem_of_singleton;
      rewrite elem_of_list_to_set; set_solver.
Qed.

(** Detaching unlinks exactly the node. *)
Lemma dlist_detach_spec m h l1 x l2 :
  ring m h (l1 ++ x :: l2) ->
  exists m', dlist_detach m x = Some m' /\ ring m' h (l1 ++ l2) /\
    same_off (list_to_set (h :: l1 ++ l2)) m m' /\ dom m' = dom m.
Proof.
  intros Hring. pose proof Hring as [Hf Hnd].
  rewrite <- app_assoc in Hf. cbn [app] in Hf.
  change (h :: l1 ++ x :: l2) with ((h :: l1) ++ (x :: l2)) in Hf.
  replace (l1 ++ x :: l2 ++ [h]) with ((l1 ++ [x]) ++ (l2 ++ [h])) in Hf by (by rewrite <- app_assoc).
  apply Forall2_app_inv in Hf as [H1 H2]; [|rewrite length_app; simpl; lia].
  destruct (exists_last (l := h :: l1)) as (A & p & EA); [done|]. rewrite EA in H1.
  apply Forall2_app_inv in H1 as [HA Hpx];
    [|apply (f_equal length) in EA; rewrite length_app in EA; simpl in EA; lia].
  inversion Hpx as [|? ? ? ? [Hpx1 Hpx2] _]; simplify_eq.
  destruct (l2 ++ [h]) as [|n B] eqn:EB; [by destruct l2|].
  inversion H2 as [|? ? ? ? [Hxn1 Hxn2] HB]; simplify_eq.
  assert (Hp : p ∈ h :: l1) by (rewrite EA; set_solver).
  assert (Hn : n ∈ l2 ++ [h]) by (rewrite EB; set_solver).
  assert (Hnd1 : NoDup (A ++ [p])).
  { rewrite <- EA. change (h :: l1 ++ x :: l2) with ((h :: l1) ++ x :: l2) in Hnd.
    by apply NoDup_app in Hnd as (? & _). }
  assert (Hnd2 : NoDup (n :: B)).
  { rewrite <- EB, Permutation_app_comm. nodup_split. apply NoDup_cons. by split. }
  assert (HAp : p ∈ A -> False) by (apply NoDup_app in Hnd1 as (_ & H & _); intros Ha; apply (H p Ha); set_solver).
  apply NoDup_cons in Hnd2 as [HnB _].
  assert (Hpl2 : p ∈ l2 -> False) by (apply elem_of_cons in Hp as [->|Hp]; nodup_split; mem_absurd).
  assert (Hnl1 : n ∈ l1 -> False) by (apply elem_of_app in Hn as [Hn| ->%list_elem_of_singleton]; nodup_split; mem_absurd).
  unfold dlist_detach. destruct (m !! x) as [nx|] eqn:Ex; [|done].
  apply (inj Some) in Hpx2, Hxn1. cbn [mbind option_bind]. rewrite Hpx2, Hxn1. cbn [mbind option_bind].
  destruct (set_next_spec m p (Some n)) as (m1 & E1 & Hn1 & Hn1' & Hp1 & Hd1 & Ho1);
    [by destruct (m !! p)|].
  destruct (set_prev_spec m1 n (Some p)) as (m2 & E2 & Hp2 & Hp2' & Hn2 & Hd2 & Ho2);
    [eapply dom_live; [done|by destruct (m !! n)]|].
  rewrite E1. cbn [mbind option_bind]. exists m2. split; [done|]. split; [|split; [|congruence]].
  - split.
    + change (h :: l1 ++ l2) with ((h :: l1) ++ l2). rewrite EA, <- !app_assoc, EB. cbn [app].
      apply Forall2_app; [|constructor].
      * eapply links_frame, HA; intros a Ha.
        -- rewrite Hn2, Hn1'; [done|]. by intros ->.
        -- rewrite Hp2', Hp1; [done|]. by intros ->.
      * split; fold (next_of m2 p) (prev_of m2 n); [by rewrite Hn2|done].
      * eapply links_frame, HB; intros a Ha.
        -- rewrite Hn2, Hn1'; [done|]. by intros ->.
        -- rewrite Hp2', Hp1; [done|]. by intros ->.
    + rewrite <- Permutation_middle in Hnd. change (NoDup (h :: l1 ++ l2)).
      apply NoDup_cons in Hnd as [Hh Hnd]. apply NoDup_cons in Hnd as [_ Hnd].
      apply NoDup_cons. split; [set_solver|done].
  - transitivity m1; (eapply same_off_weaken; [|eassumption]); intros q ->%elem_of_singleton;
      rewrite elem_of_list_to_set; set_solver.
Qed.
End links.
