(* ===== verification/Common.v ===== *)
(** * common.h and the C library primitives the project shares

    [str_hash]; [memcmp] and the lexicographic order it induces on names; the
    comparison of [double]s, given by their 64-bit patterns, with its agreement
    with the IEEE 754 comparison of the Standard Library's [SpecFloat]. *)

From S2P Require Import Prelude.
From Stdlib Require Import SpecFloat.
Local Open Scope Z_scope.

(** ** str_hash *)

(** [h = (h + data[i]) * 0x01000193] on [uint32_t]. *)
Fixpoint str_hash_loop (h : Z) (data : list byte) : Z :=
  match data with
  | [] => h
  | b :: data => str_hash_loop (u32 (u32 (h + bz b) * 0x01000193)) data
  end.

Definition str_hash (data : list byte) : Z := str_hash_loop 0x811C9DC5 data.

Lemma str_hash_loop_range data : forall h, 0 <= h < 2 ^ 32 -> 0 <= str_hash_loop h data < 2 ^ 32.
Proof.
  induction data as [|b data IH]; intros h Hh; cbn [str_hash_loop]; [done|].
  apply IH, u32_range.
Qed.

Lemma str_hash_range data : 0 <= str_hash data < 2 ^ 32.
Proof. apply str_hash_loop_range. lia. Qed.

(** ** memcmp *)

(** The first [n] bytes as [unsigned char]s; reading past the end of an object
    is undefined. *)
Fixpoint memcmp (a b : list byte) (n : nat) : option Z :=
  match n with
  | O => Some 0
  | S n =>
      match a, b with
      | x :: a, y :: b =>
          if bz x <? bz y then Some (-1)
          else if bz y <? bz x then Some 1
          else memcmp a b n
      | _, _ => None
      end
  end.

Definition min (lhs rhs : Z) : Z := if lhs <? rhs then lhs else rhs.

(** The order on names of zset.cpp: the common prefix, then the length. *)
Fixpoint bytes_ltb (a b : list byte) : bool :=
  match a, b with
  | _, [] => false
  | [], _ :: _ => true
  | x :: a, y :: b => (bz x <? bz y) || (bz x =? bz y) && bytes_ltb a b
  end.

Lemma memcmp_lex a b :
  exists rv, memcmp a b (Z.to_nat (min (zlen a) (zlen b))) = Some rv /\
    (if negb (rv =? 0) then rv <? 0 else zlen a <? zlen b) = bytes_ltb a b.
Proof.
  revert b. induction a as [|x a IH]; intros b.
  - exists 0. unfold min. destruct (Z.ltb_spec (zlen (@nil byte)) (zlen b)) as [Hl|Hl].
    + split; [done|]. destruct b; [done|]. done.
    + replace (Z.to_nat (zlen b)) with 0%nat by (unfold zlen in *; simpl in *; lia).
      split; [done|]. destruct b; [done|]. unfold zlen in Hl; simpl in Hl; lia.
  - destruct b as [|y b].
    + exists 0. unfold min. rewrite zlen_cons. pose proof (zlen_nonneg a).
      change (zlen (@nil byte)) with 0. destruct (Z.ltb_spec (zlen a + 1) 0); [lia|].
      split; [done|]. simpl. by destruct (Z.ltb_spec (zlen a + 1) 0); [lia|].
    + destruct (IH b) as (rv & Hm & Hl). rewrite !zlen_cons.
      assert (Z.to_nat (min (zlen a + 1) (zlen b + 1)) = S (Z.to_nat (min (zlen a) (zlen b)))) as ->.
      { pose proof (zlen_nonneg a). pose proof (zlen_nonneg b). unfold min.
        destruct (Z.ltb_spec (zlen a + 1) (zlen b + 1)), (Z.ltb_spec (zlen a) (zlen b)); lia. }
      cbn [memcmp bytes_ltb]. rewrite Hm.
      destruct (Z.ltb_spec (bz x) (bz y)); [by exists (-1)|].
      destruct (Z.ltb_spec (bz y) (bz x)), (Z.eqb_spec (bz x) (bz y)); try lia; [by exists 1|].
      exists rv. split; [done|]. rewrite <- Hl. cbn.
      destruct (negb (rv =? 0)); [done|].
      destruct (Z.ltb_spec (zlen a + 1) (zlen b + 1)), (Z.ltb_spec (zlen a) (zlen b)); lia || done.
Qed.

(** [0 == memcmp(a, b, len)] on objects of the same length is equality. *)
Lemma memcmp_eq a b :
  zlen a = zlen b ->
  exists rv, memcmp a b (Z.to_nat (zlen a)) = Some rv /\ (rv =? 0) = bool_decide (a = b).
Proof.
  unfold zlen. rewrite Nat2Z.id. revert b. induction a as [|x a IH]; intros [|y b] Hl; simpl in Hl; try lia.
  - exists 0. split; [done|]. by rewrite bool_decide_eq_true_2.
  - destruct (IH b ltac:(lia)) as (rv & Hm & Hr). cbn [length memcmp]. rewrite Hm.
    destruct (Z.ltb_spec (bz x) (bz y)) as [Hlt|Hge].
    { exists (-1). split; [done|]. rewrite bool_decide_eq_false_2; [done|]. intros [= -> _]. lia. }
    destruct (Z.ltb_spec (bz y) (bz x)) as [Hlt'|Hge'].
    { exists 1. split; [done|]. rewrite bool_decide_eq_false_2; [done|]. intros [= -> _]. lia. }
    assert (x = y) as -> by (apply (inj bz); lia).
    exists rv. split; [done|]. rewrite Hr. apply bool_decide_ext. split; congruence.
Qed.

Lemma bytes_ltb_irrefl a : bytes_ltb a a = false.
Proof.
  induction a as [|x a IH]; [done|]. simpl. rewrite IH, Z.eqb_refl.
  by destruct (Z.ltb_spec (bz x) (bz x)); [lia|].
Qed.

Lemma bytes_ltb_trans a b c : bytes_ltb a b = true -> bytes_ltb b c = true -> bytes_ltb a c = true.
Proof.
  revert b c. induction a as [|x a IH]; intros [|y b] [|z c]; simpl; try done.
  rewrite !orb_true_iff, !andb_true_iff, !Z.ltb_lt, !Z.eqb_eq.
  intros [?|[? Hab]] [?|[? Hbc]]; [left; lia..|]. right. split; [lia|eauto].
Qed.

Lemma bytes_ltb_total a b : bytes_ltb a b = false -> bytes_ltb b a = false -> a = b.
Proof.
  revert b. induction a as [|x a IH]; intros [|y b]; simpl; try done.
  rewrite !orb_false_iff, !andb_false_iff, !Z.ltb_ge, !Z.eqb_neq.
  intros [? H1] [? H2]. assert (x = y) as -> by (apply (inj bz); lia). f_equal.
  apply IH; [by destruct H1|by destruct H2].
Qed.

(** ** double: comparison of 64-bit patterns *)

Definition dbl_mag (d : Z) : Z := d mod 2 ^ 63.
Definition dbl_neg (d : Z) : bool := 2 ^ 63 <=? d.
Definition dbl_isnan (d : Z) : bool := 0x7FF0000000000000 <? dbl_mag d.

(** Sign and magnitude as one integer; both zeros are 0. *)
Definition dbl_key (d : Z) : Z := if dbl_neg d then - dbl_mag d else dbl_mag d.

Definition dbl_eqb (x y : Z) : bool :=
  negb (dbl_isnan x) && negb (dbl_isnan y) && (dbl_key x =? dbl_key y).
Definition dbl_ltb (x y : Z) : bool :=
  negb (dbl_isnan x) && negb (dbl_isnan y) && (dbl_key x <? dbl_key y).

(** The number a pattern encodes (binary64: 11 bits of exponent, 52 of
    fraction). *)
Definition dbl_decode (d : Z) : spec_float :=
  let s := dbl_neg d in
  let e := dbl_mag d / 2 ^ 52 in
  let f := dbl_mag d mod 2 ^ 52 in
  if e =? 0 then
    match f with Zpos p => S754_finite s p (-1074) | _ => S754_zero s end
  else if e =? 2047 then
    match f with Zpos _ => S754_nan | _ => S754_infinity s end
  else
    match 2 ^ 52 + f with Zpos p => S754_finite s p (e - 1075) | _ => S754_nan end.

(** The comparison of the patterns is the IEEE comparison of the numbers. *)
Lemma dbl_decode_cases d :
  0 <= d < 2 ^ 64 ->
  let s := dbl_neg d in let m := dbl_mag d in
  (m = 0 /\ dbl_decode d = S754_zero s) \/
  (exists p e, dbl_decode d = S754_finite s p e /\ dbl_isnan d = false /\
     m = (e + 1074) * 2 ^ 52 + Zpos p /\ (e = -1074 /\ Zpos p < 2 ^ 53 \/
        -1074 <= e < 972 /\ 2 ^ 52 <= Zpos p < 2 ^ 53)) \/
  (m = 2047 * 2 ^ 52 /\ dbl_decode d = S754_infinity s) \/
  (dbl_isnan d = true /\ dbl_decode d = S754_nan).
Proof.
  intros Hd s m. unfold dbl_decode. fold s m. unfold dbl_isnan. fold m.
  pose proof (Z.mod_pos_bound d (2 ^ 63) ltac:(lia)) as Hm. fold m in Hm. unfold dbl_mag in m. fold m in Hm.
  pose proof (Z.div_mod m (2 ^ 52) ltac:(lia)) as Hdm.
  pose proof (Z.mod_pos_bound m (2 ^ 52) ltac:(lia)) as Hf.
  assert (0 <= m / 2 ^ 52 < 2048) as He.
  { split; [apply Z.div_pos; lia|]. apply Z.div_lt_upper_bound; lia. }
  set (e := m / 2 ^ 52) in *. set (f := m mod 2 ^ 52) in *.
  destruct (Z.eqb_spec e 0) as [He0|He0]; [|destruct (Z.eqb_spec e 2047) as [He1|He1]].
  - destruct f as [|p|p]; [left|right; left|lia].
    + split; [lia|done].
    + exists p, (-1074). split; [done|]. destruct (Z.ltb_spec 0x7FF0000000000000 m); [lia|].
      split; [done|]. split; [lia|]. left. lia.
  - destruct f as [|p|p]; [right; right; left|right; right; right|lia].
    + split; [lia|done].
    + destruct (Z.ltb_spec 0x7FF0000000000000 m); [done|lia].
  - right. left. destruct (2 ^ 52 + f) as [|p|p] eqn:Ep; [lia| |lia].
    exists p, (e - 1075). split; [done|]. destruct (Z.ltb_spec 0x7FF0000000000000 m); [lia|].
    split; [done|]. split; [lia|]. right. lia.
Qed.

(** The magnitudes of finite numbers compare like (exponent, significand). *)
Lemma dbl_mag_compare (p1 p2 : positive) e1 e2 m1 m2 :
  m1 = (e1 + 1074) * 2 ^ 52 + Zpos p1 -> m2 = (e2 + 1074) * 2 ^ 52 + Zpos p2 ->
  (e1 = -1074 /\ Zpos p1 < 2 ^ 53 \/ -1074 <= e1 < 972 /\ 2 ^ 52 <= Zpos p1 < 2 ^ 53) ->
  (e2 = -1074 /\ Zpos p2 < 2 ^ 53 \/ -1074 <= e2 < 972 /\ 2 ^ 52 <= Zpos p2 < 2 ^ 53) ->
  (m1 ?= m2) = match e1 ?= e2 with Eq => Pos.compare_cont Eq p1 p2 | c => c end.
Proof.
  intros -> -> H1 H2. destruct (Z.compare_spec e1 e2) as [->|Hlt|Hgt].
  - rewrite Z.add_compare_mono_l. reflexivity.
  - apply Z.compare_lt_iff. nia.
  - apply Z.compare_gt_iff. nia.
Qed.

Lemma dbl_compare x y :
  0 <= x < 2 ^ 64 -> 0 <= y < 2 ^ 64 ->
  SFcompare (dbl_decode x) (dbl_decode y) =
    if dbl_isnan x || dbl_isnan y then None else Some (dbl_key x ?= dbl_key y).
Proof.
  intros Hx Hy. unfold dbl_key.
  destruct (dbl_decode_cases x Hx) as [(Hm1 & E1)|[(p1 & e1 & E1 & N1 & Hm1 & B1)|[(Hm1 & E1)|(N1 & E1)]]];
    rewrite E1;
    (destruct (dbl_decode_cases y Hy) as [(Hm2 & E2)|[(p2 & e2 & E2 & N2 & Hm2 & B2)|[(Hm2 & E2)|(N2 & E2)]]];
      rewrite E2; cbn [SFcompare];
      unfold dbl_isnan in *; rewrite ?Hm1, ?Hm2 in *; rewrite ?N1, ?N2; cbn [orb]).
  6: {
    pose proof (dbl_mag_compare p1 p2 e1 e2 _ _ eq_refl eq_refl B1 B2) as Hc.
    destruct (dbl_neg x), (dbl_neg y); f_equal; symmetry.
    - rewrite Z.compare_opp, Z.compare_antisym, Hc. by destruct (e1 ?= e2).
    - apply Z.compare_lt_iff. lia.
    - apply Z.compare_gt_iff. lia.
    - rewrite Hc. by destruct (e1 ?= e2). }
  all: destruct (dbl_neg x), (dbl_neg y); try reflexivity; f_equal; symmetry;
    first [apply Z.compare_eq_iff; lia | apply Z.compare_lt_iff; lia | apply Z.compare_gt_iff; lia
      | by destruct (_ <? _)].
Qed.

(** ** The order of a sorted set: (score, name) tuples *)

Notation tuple := (Z * list byte)%type.

Definition tuple_ltb (a b : tuple) : bool :=
  if dbl_key a.1 =? dbl_key b.1 then bytes_ltb a.2 b.2 else dbl_key a.1 <? dbl_key b.1.

Lemma tuple_ltb_irrefl a : tuple_ltb a a = false.
Proof. unfold tuple_ltb. by rewrite Z.eqb_refl, bytes_ltb_irrefl. Qed.

Lemma tuple_ltb_trans a b c : tuple_ltb a b = true -> tuple_ltb b c = true -> tuple_ltb a c = true.
Proof.
  unfold tuple_ltb.
  destruct (Z.eqb_spec (dbl_key a.1) (dbl_key b.1)), (Z.eqb_spec (dbl_key b.1) (dbl_key c.1)),
    (Z.eqb_spec (dbl_key a.1) (dbl_key c.1)); rewrite ?Z.ltb_lt; try lia; apply bytes_ltb_trans.
Qed.

Lemma tuple_ltb_asym a b : tuple_ltb a b = true -> tuple_ltb b a = false.
Proof.
  intros H. destruct (tuple_ltb b a) eqn:E; [|done].
  rewrite <- (tuple_ltb_irrefl a). symmetry. by eapply tuple_ltb_trans.
Qed.

(** Tuples with different names are comparable. *)
Lemma tuple_ltb_total a b : tuple_ltb a b = false -> tuple_ltb b a = false -> a.2 = b.2.
Proof.
  unfold tuple_ltb. rewrite (Z.eqb_sym (dbl_key b.1)).
  destruct (Z.eqb_spec (dbl_key a.1) (dbl_key b.1)); [apply bytes_ltb_total|].
  rewrite !Z.ltb_ge. lia.
Qed.
