(* ===== verification/Zset.v ===== *)
(** * zset.h and zset.cpp: the sorted set

    A [ZNode] lives in three stores at one address: its [tree] field in
    [trees], its [hmap] field among the nodes of [hnodes], its score and name in [zdata].  The
    nodes of all the sorted sets of the server, and the arrays of their hash
    tables, share these stores.  The length
    of the name is the [len] field. *)

From S2P Require Import Prelude Avl Hashtable Common.
Local Open Scope Z_scope.

Record zdat := mkZdat {
  score : Z;             (* double, as its 64-bit pattern *)
  name : list byte       (* name[0 .. len) *)
}.

Record zstore := mkZstore {
  trees : amem;
  hnodes : hmem;
  zdata : gmap ptr zdat
}.

Record ZSet := mkZSet {
  zroot : option ptr;    (* index by (score, name) *)
  zhmap : HMap           (* index by name *)
}.

(** [ZSet{}] *)
Definition zset_null : ZSet := mkZSet NULL hmap_null.

Definition with_trees (t : amem) (z : zstore) : zstore := mkZstore t (hnodes z) (zdata z).
Definition with_hnodes (h : hmem) (z : zstore) : zstore := mkZstore (trees z) h (zdata z).

(** [malloc]: an address none of the stores uses. *)
Definition znode_alloc (z : zstore) : ptr :=
  fresh (dom (trees z) ∪ dom (hm_nodes (hnodes z)) ∪ dom (zdata z)).

Definition znode_new (z : zstore) (nm : list byte) (sc : Z) : zstore * ptr :=
  let node := znode_alloc z in
  (mkZstore (<[node := avl_init]> (trees z))
     (with_nodes (hnodes z) (<[node := mkHNode NULL (str_hash nm)]> (hm_nodes (hnodes z))))
     (<[node := mkZdat sc nm]> (zdata z)), node).

(** [free]: the address must be live. *)
Definition znode_del (z : zstore) (node : ptr) : option zstore :=
  _ ← zdata z !! node;
  Some (mkZstore (delete node (trees z)) (with_nodes (hnodes z) (delete node (hm_nodes (hnodes z))))
    (delete node (zdata z))).

(** Compares by the (score, name) tuple. *)
Definition zless (z : zstore) (lhs : ptr) (sc : Z) (nm : list byte) : option bool :=
  zl ← zdata z !! lhs;
  if negb (dbl_eqb (score zl) sc) then Some (dbl_ltb (score zl) sc)
  else
    rv ← memcmp (name zl) nm (Z.to_nat (min (zlen (name zl)) (zlen nm)));
    if negb (rv =? 0) then Some (rv <? 0)
    else Some (zlen (name zl) <? zlen nm).

Definition zless_node (z : zstore) (lhs rhs : ptr) : option bool :=
  zr ← zdata z !! rhs;
  zless z lhs (score zr) (name zr).

(** [*from]: the root of the set, or a child field. *)
Definition aloc_read (m : amem) (root : option ptr) (from : aloc) : option (option ptr) :=
  match from with
  | ALocal => Some root
  | ALeft p => n ← m !! p; Some (left n)
  | ARight p => n ← m !! p; Some (right n)
  end.

(** [while ( *from)], the tree search: where to attach, and under which node. *)
Fixpoint tree_search (fuel : nat) (z : zstore) (root : option ptr) (node : ptr)
    (par : option ptr) (from : aloc) : option (option ptr * aloc) :=
  cur ← aloc_read (trees z) root from;
  match cur with
  | None => Some (par, from)
  | Some cur =>
      match fuel with
      | O => None
      | S fuel =>
          b ← zless_node z node cur;
          tree_search fuel z root node (Some cur)
            (if (b : bool) then ALeft cur else ARight cur)
      end
  end.

Definition tree_insert (z : zstore) (zset : ZSet) (node : ptr) : option (zstore * ZSet) :=
  '(par, from) ← tree_search (size (trees z)) z (zroot zset) node NULL ALocal;
  '(t, _) ← aloc_store (trees z) (zroot zset) from (Some node);  (* attach the new node *)
  t ← store_upd t node (with_parent par);
  '(t, root) ← avl_fix t node;
  Some (with_trees t z, mkZSet root (zhmap zset)).

(** Updates the score of an existing node. *)
Definition zset_update (z : zstore) (zset : ZSet) (node : ptr) (sc : Z) :
    option (zstore * ZSet) :=
  d ← zdata z !! node;
  if dbl_eqb (score d) sc then Some (z, zset)
  else
    (* detach the tree node *)
    '(t, root) ← avl_del (trees z) node;
    t ← store_upd t node (fun _ => avl_init);
    (* reinsert the tree node *)
    let z := mkZstore t (hnodes z) (<[node := mkZdat sc (name d)]> (zdata z)) in
    tree_insert z (mkZSet root (zhmap zset)) node.

(** The key is the name of the [HKey]. *)
Definition hcmp (z : zstore) (key : list byte) (node : ptr) : option bool :=
  znode ← zdata z !! node;
  if negb (zlen (name znode) =? zlen key) then Some false
  else
    rv ← memcmp (name znode) key (Z.to_nat (zlen (name znode)));
    Some (0 =? rv).

Definition zset_lookup (z : zstore) (zset : ZSet) (nm : list byte) :
    option (zstore * ZSet * option ptr) :=
  match zroot zset with
  | None => Some (z, zset, NULL)
  | Some _ =>
      '(h, hm, found) ← hm_lookup (hnodes z) (zhmap zset) (str_hash nm) (hcmp z nm);
      Some (with_hnodes h z, mkZSet (zroot zset) hm, found)
  end.

(** Adds a new (score, name) tuple, or updates the score of the existing one. *)
Definition zset_insert (z : zstore) (zset : ZSet) (nm : list byte) (sc : Z) :
    option (zstore * ZSet * bool) :=
  '(z, zset, node) ← zset_lookup z zset nm;
  match node with
  | Some node =>
      '(z, zset) ← zset_update z zset node sc;
      Some (z, zset, false)
  | None =>
      let '(z, node) := znode_new z nm sc in
      '(h, hm) ← hm_insert (hnodes z) (zhmap zset) node;
      '(z, zset) ← tree_insert (with_hnodes h z) (mkZSet (zroot zset) hm) node;
      Some (z, zset, true)
  end.

Definition zset_delete (z : zstore) (zset : ZSet) (node : ptr) : option (zstore * ZSet) :=
  (* remove from the hashtable *)
  n ← hm_nodes (hnodes z) !! node;
  d ← zdata z !! node;
  '(h, hm, found) ← hm_delete (hnodes z) (zhmap zset) (hcode n) (hcmp z (name d));
  _ ← found;                                     (* assert(found) *)
  (* remove from the tree *)
  '(t, root) ← avl_del (trees z) node;
  (* deallocate the node *)
  z ← znode_del (mkZstore t h (zdata z)) node;
  Some (z, mkZSet root hm).

(** The first (score, name) tuple that is >= the key. *)
Fixpoint seekge_loop (fuel : nat) (z : zstore) (sc : Z) (nm : list byte)
    (node found : option ptr) : option (option ptr) :=
  match node with
  | None => Some found
  | Some node =>
      match fuel with
      | O => None
      | S fuel =>
          b ← zless z node sc nm;
          n ← trees z !! node;
          if (b : bool) then seekge_loop fuel z sc nm (right n) found
          else seekge_loop fuel z sc nm (left n) (Some node)
      end
  end.

Definition zset_seekge (z : zstore) (zset : ZSet) (sc : Z) (nm : list byte) :
    option (option ptr) :=
  seekge_loop (size (trees z)) z sc nm (zroot zset) NULL.

(** Offset into the succeeding or preceding node. *)
Definition znode_offset (z : zstore) (node : option ptr) (offset : Z) : option (option ptr) :=
  match node with
  | Some node => avl_offset (trees z) node offset
  | None => Some NULL
  end.

Fixpoint tree_dispose (fuel : nat) (z : zstore) (node : option ptr) : option zstore :=
  match node with
  | None => Some z
  | Some node =>
      match fuel with
      | O => None
      | S fuel =>
          n ← trees z !! node;
          z ← tree_dispose fuel z (left n);
          n ← trees z !! node;
          z ← tree_dispose fuel z (right n);
          znode_del z node
      end
  end.

Definition zset_clear (z : zstore) (zset : ZSet) : option (zstore * ZSet) :=
  '(h, hm) ← hm_clear (hnodes z) (zhmap zset);
  let z := with_hnodes h z in
  z ← tree_dispose (size (trees z)) z (zroot zset);
  Some (z, mkZSet NULL hm).
