(* ===== verification/Wire.v ===== *)
(** * The wire format: buffers, requests, and the tagged values of replies

    Little-endian integers, [Buffer] (a vector of bytes), the request parser
    and the [out_*] serializers of server.cpp. *)

From S2P Require Import Prelude.
Local Open Scope Z_scope.

Notation Buffer := (list byte).

(** ** Little-endian integers: the bytes [memcpy] copies from an integer of
    [n] bytes, and back *)

Fixpoint le_enc (n : nat) (z : Z) : list byte :=
  match n with
  | O => []
  | S n => zb z :: le_enc n (z / 256)
  end.

Fixpoint le_dec (l : list byte) : Z :=
  match l with
  | [] => 0
  | b :: l => bz b + 256 * le_dec l
  end.

Lemma length_le_enc n z : length (le_enc n z) = n.
Proof. revert z. induction n as [|n IH]; intros z; simpl; [done|by rewrite IH]. Qed.

Lemma zlen_le_enc n z : zlen (le_enc n z) = Z.of_nat n.
Proof. unfold zlen. by rewrite length_le_enc. Qed.
#[export] Hint Rewrite zlen_le_enc : zlen.

Lemma le_dec_enc n z : le_dec (le_enc n z) = z mod 256 ^ Z.of_nat n.
Proof.
  revert z. induction n as [|n IH]; intros z.
  - simpl. by rewrite Z.mod_1_r.
  - cbn [le_enc le_dec]. rewrite IH, bz_zb.
    rewrite Nat2Z.inj_succ, Z.pow_succ_r by lia. rewrite Z.rem_mul_r; [lia|lia|].
    apply Z.pow_pos_nonneg; lia.
Qed.

Lemma le_enc_dec l : le_enc (length l) (le_dec l) = l.
Proof.
  induction l as [|b l IH]; [done|]. cbn [le_dec le_enc length].
  f_equal.
  - apply (inj bz). rewrite bz_zb. rewrite Z.mul_comm, Z_mod_plus_full. apply Z.mod_small, bz_range.
  - rewrite Z.mul_comm, Z.div_add by lia. rewrite Z.div_small by apply bz_range. done.
Qed.

Lemma le_dec_range l : 0 <= le_dec l < 256 ^ zlen l.
Proof.
  induction l as [|b l IH]; [done|]. cbn [le_dec]. pose proof (bz_range b).
  rewrite zlen_cons, Z.pow_add_r by (unfold zlen; lia). lia.
Qed.

Lemma le_dec_u32 z : le_dec (le_enc 4 z) = u32 z.
Proof. by rewrite le_dec_enc. Qed.

(** ** Buffer *)

Definition buf_append (buf : Buffer) (data : list byte) : Buffer := buf ++ data.

(** Erasing past the end is undefined. *)
Definition buf_consume (buf : Buffer) (n : Z) : option Buffer :=
  guard (n <= zlen buf);; Some (drop (Z.to_nat n) buf).

(** ** Requests *)

Definition k_max_args : Z := 200 * 1000.

(** A cursor [cur, end) is the list of the bytes left; [cur + n > end] is the
    comparison of [n] with their number. *)
Definition read_u32 (cur : list byte) : option (Z * list byte) :=
  if zlen cur <? 4 then None
  else Some (le_dec (take 4 cur), drop 4 cur).

Definition read_str (cur : list byte) (n : Z) : option (list byte * list byte) :=
  if zlen cur <? n then None
  else Some (take (Z.to_nat n) cur, drop (Z.to_nat n) cur).

(** [while (out.size() < nstr)]; [k] strings are still missing. *)
Fixpoint parse_strs (k : nat) (data : list byte) (out : list (list byte)) :
    option (list (list byte) * list byte) :=
  match k with
  | O => Some (out, data)
  | S k =>
      '(len, data) ← read_u32 data;
      '(s, data) ← read_str data len;
      parse_strs k data (out ++ [s])
  end.

(** [None] is the result -1. *)
Definition parse_req (data : list byte) : option (list (list byte)) :=
  '(nstr, data) ← read_u32 data;
  if k_max_args <? nstr then None
  else
    '(out, data) ← parse_strs (Z.to_nat nstr) data [];
    match data with
    | [] => Some out
    | _ => None                         (* trailing garbage *)
    end.

(** ** Replies *)

(** Error codes of [TAG_ERR], and the tags. *)
Definition ERR_UNKNOWN : Z := 1.
Definition ERR_TOO_BIG : Z := 2.
Definition ERR_BAD_TYP : Z := 3.
Definition ERR_BAD_ARG : Z := 4.

Definition TAG_NIL : Z := 0.
Definition TAG_ERR : Z := 1.
Definition TAG_STR : Z := 2.
Definition TAG_INT : Z := 3.
Definition TAG_DBL : Z := 4.
Definition TAG_ARR : Z := 5.

Definition buf_append_u8 (buf : Buffer) (data : Z) : Buffer := buf ++ [zb data].
Definition buf_append_u32 (buf : Buffer) (data : Z) : Buffer := buf_append buf (le_enc 4 data).
Definition buf_append_i64 (buf : Buffer) (data : Z) : Buffer := buf_append buf (le_enc 8 data).
(** A [double] is its bit pattern. *)
Definition buf_append_dbl (buf : Buffer) (data : Z) : Buffer := buf_append buf (le_enc 8 data).

Definition out_nil (out : Buffer) : Buffer := buf_append_u8 out TAG_NIL.

Definition out_str (out : Buffer) (s : list byte) : Buffer :=
  let out := buf_append_u8 out TAG_STR in
  let out := buf_append_u32 out (u32 (zlen s)) in
  buf_append out s.

Definition out_int (out : Buffer) (val : Z) : Buffer :=
  let out := buf_append_u8 out TAG_INT in
  buf_append_i64 out val.

Definition out_dbl (out : Buffer) (val : Z) : Buffer :=
  let out := buf_append_u8 out TAG_DBL in
  buf_append_dbl out val.

Definition out_err (out : Buffer) (code : Z) (msg : list byte) : Buffer :=
  let out := buf_append_u8 out TAG_ERR in
  let out := buf_append_u32 out code in
  let out := buf_append_u32 out (u32 (zlen msg)) in
  buf_append out msg.

Definition out_arr (out : Buffer) (n : Z) : Buffer :=
  let out := buf_append_u8 out TAG_ARR in
  buf_append_u32 out n.

(** The second component is the position of the length, to be filled in. *)
Definition out_begin_arr (out : Buffer) : Buffer * Z :=
  let out := buf_append_u8 out TAG_ARR in
  let out := buf_append_u32 out 0 in
  (out, zlen out - 4).

(** [memcpy(&buf[pos], data, n)]: the range must be inside the buffer. *)
Definition buf_write (buf : Buffer) (pos : Z) (data : list byte) : option Buffer :=
  guard (0 <= pos /\ pos + zlen data <= zlen buf);;
  Some (take (Z.to_nat pos) buf ++ data ++ drop (Z.to_nat (pos + zlen data)) buf).

Definition out_end_arr (out : Buffer) (ctx n : Z) : option Buffer :=
  tag ← arr_get out (ctx - 1);
  guard (bz tag = TAG_ARR);;            (* assert *)
  buf_write out ctx (le_enc 4 n).

(** ** The values of replies *)

Inductive value :=
  | VNil
  | VErr (code : Z) (msg : list byte)
  | VStr (s : list byte)
  | VInt (val : Z)
  | VDbl (val : Z)
  | VArr (l : list value).

Fixpoint encode (v : value) : Buffer :=
  match v with
  | VNil => [zb TAG_NIL]
  | VErr code msg => zb TAG_ERR :: le_enc 4 code ++ le_enc 4 (zlen msg) ++ msg
  | VStr s => zb TAG_STR :: le_enc 4 (zlen s) ++ s
  | VInt val => zb TAG_INT :: le_enc 8 val
  | VDbl val => zb TAG_DBL :: le_enc 8 val
  | VArr l => zb TAG_ARR :: le_enc 4 (zlen l) ++ flat_map encode l
  end.

(** ** The serializers write the encodings *)

Lemma le_enc_mod n z : le_enc n (z mod 256 ^ Z.of_nat n) = le_enc n z.
Proof.
  rewrite <- le_dec_enc. rewrite <- (length_le_enc n z) at 1. apply le_enc_dec.
Qed.

Lemma le_enc_u32 z : le_enc 4 (u32 z) = le_enc 4 z.
Proof. apply (le_enc_mod 4). Qed.

Lemma out_nil_encode out : out_nil out = out ++ encode VNil.
Proof. done. Qed.

Lemma out_str_encode out s : out_str out s = out ++ encode (VStr s).
Proof.
  unfold out_str, buf_append_u32, buf_append_u8, buf_append. rewrite le_enc_u32, <- !app_assoc. done.
Qed.

Lemma out_int_encode out v : out_int out v = out ++ encode (VInt v).
Proof. unfold out_int, buf_append_i64, buf_append_u8, buf_append. by rewrite <- app_assoc. Qed.

Lemma out_dbl_encode out v : out_dbl out v = out ++ encode (VDbl v).
Proof. unfold out_dbl, buf_append_dbl, buf_append_u8, buf_append. by rewrite <- app_assoc. Qed.

Lemma out_err_encode out code msg : out_err out code msg = out ++ encode (VErr code msg).
Proof.
  unfold out_err, buf_append_u32, buf_append_u8, buf_append.
  rewrite le_enc_u32, <- !app_assoc. done.
Qed.

Lemma out_arr_encode out l :
  out_arr out (u32 (zlen l)) ++ flat_map encode l = out ++ encode (VArr l).
Proof.
  unfold out_arr, buf_append_u32, buf_append_u8, buf_append.
  rewrite le_enc_u32, <- !app_assoc. done.
Qed.

Lemma buf_write_mid a b c d :
  length b = length c -> buf_write (a ++ b ++ d) (zlen a) c = Some (a ++ c ++ d).
Proof.
  intros Hl. unfold buf_write. unfold zlen. rewrite !length_app, Hl.
  rewrite option_guard_True by lia. cbn [mbind option_bind]. rewrite Nat2Z.id, take_app_length.
  replace (Z.to_nat (Z.of_nat (length a) + Z.of_nat (length c))) with (length (a ++ b))
    by (rewrite length_app; lia).
  by rewrite (app_assoc a b d), drop_app_length.
Qed.

(** Filling in the length afterwards gives the encoding of the array. *)
Lemma out_end_arr_encode out l n :
  u32 n = u32 (zlen l) ->
  out_end_arr ((out_begin_arr out).1 ++ flat_map encode l) (out_begin_arr out).2 n =
    Some (out ++ encode (VArr l)).
Proof.
  intros Hn. unfold out_begin_arr, buf_append_u32, buf_append_u8, buf_append. cbn [fst snd].
  assert (Hpos : zlen ((out ++ [zb TAG_ARR]) ++ le_enc 4 0) - 4 = zlen (out ++ [zb TAG_ARR])).
  { rewrite (zlen_app _ (le_enc 4 0)). unfold zlen. rewrite (length_le_enc 4). lia. }
  rewrite Hpos. unfold out_end_arr. rewrite <- app_assoc.
  replace (arr_get _ _) with (Some (zb TAG_ARR)).
  - cbn [mbind option_bind]. rewrite option_guard_True by done. cbn [mbind option_bind].
    rewrite (buf_write_mid _ (le_enc 4 0)) by (by rewrite !length_le_enc).
    cbn [encode]. rewrite <- (le_enc_u32 n), Hn, le_enc_u32, <- app_assoc. done.
  - symmetry. rewrite zlen_app. change (zlen [zb TAG_ARR]) with 1.
    replace (zlen out + 1 - 1) with (zlen out) by lia. unfold zlen. rewrite arr_get_nat, <- app_assoc.
    by rewrite lookup_app_r, Nat.sub_diag by lia.
Qed.

(** ** Round trip of requests *)

(** The body of a request for a command: the number of strings, then each
    string with its length. *)
Definition enc_str (s : list byte) : list byte := le_enc 4 (zlen s) ++ s.
Definition enc_req (cmd : list (list byte)) : list byte :=
  le_enc 4 (zlen cmd) ++ flat_map enc_str cmd.

Lemma read_u32_enc z rest : read_u32 (le_enc 4 z ++ rest) = Some (u32 z, rest).
Proof.
  unfold read_u32, zlen. rewrite length_app, (length_le_enc 4).
  destruct (Z.ltb_spec (Z.of_nat (4 + length rest)) 4); [lia|].
  rewrite (take_app_length' _ _ 4), (drop_app_length' _ _ 4) by (by rewrite length_le_enc).
  by rewrite le_dec_u32.
Qed.

Lemma read_str_app s rest : read_str (s ++ rest) (zlen s) = Some (s, rest).
Proof.
  unfold read_str, zlen. rewrite length_app.
  destruct (Z.ltb_spec (Z.of_nat (length s + length rest)) (Z.of_nat (length s))); [lia|].
  rewrite Nat2Z.id. by rewrite take_app_length, drop_app_length.
Qed.

Lemma parse_strs_enc cmd : forall out rest,
  Forall (fun s => zlen s < 2 ^ 32) cmd ->
  parse_strs (length cmd) (flat_map enc_str cmd ++ rest) out = Some (out ++ cmd, rest).
Proof.
  induction cmd as [|s cmd IH]; intros out rest Hs.
  - cbn. by rewrite app_nil_r.
  - apply Forall_cons in Hs as [Hs Hcmd]. cbn [length parse_strs flat_map]. unfold enc_str at 1.
    rewrite <- !app_assoc, read_u32_enc. cbn [mbind option_bind].
    rewrite u32_small by (pose proof (zlen_nonneg s); lia). rewrite read_str_app. cbn [mbind option_bind].
    rewrite IH by done. by rewrite <- app_assoc.
Qed.

Lemma parse_req_enc cmd :
  zlen cmd <= k_max_args -> Forall (fun s => zlen s < 2 ^ 32) cmd -> parse_req (enc_req cmd) = Some cmd.
Proof.
  intros Hn Hs. unfold parse_req, enc_req. rewrite read_u32_enc. cbn [mbind option_bind].
  pose proof (zlen_nonneg cmd). unfold k_max_args in *. rewrite u32_small by lia.
  destruct (Z.ltb_spec (200 * 1000) (zlen cmd)); [lia|].
  unfold zlen. rewrite Nat2Z.id, <- (app_nil_r (flat_map _ _)), parse_strs_enc by done. done.
Qed.

(** The parser accepts nothing else. *)
Lemma read_u32_inv data z rest :
  read_u32 data = Some (z, rest) -> data = le_enc 4 z ++ rest /\ 0 <= z < 2 ^ 32.
Proof.
  unfold read_u32. destruct (Z.ltb_spec (zlen data) 4) as [|Hl]; [done|]. intros [= <- <-].
  assert (Hl4 : length (take 4 data) = 4%nat) by (rewrite length_take; unfold zlen in Hl; lia).
  split.
  - rewrite <- Hl4 at 1. by rewrite le_enc_dec, take_drop.
  - pose proof (le_dec_range (take 4 data)) as H. unfold zlen in H. rewrite Hl4 in H. exact H.
Qed.

Lemma read_str_inv data n s rest :
  0 <= n -> read_str data n = Some (s, rest) -> data = s ++ rest /\ zlen s = n.
Proof.
  unfold read_str. intros Hn. destruct (Z.ltb_spec (zlen data) n) as [|Hl]; [done|]. intros [= <- <-].
  split; [by rewrite take_drop|]. unfold zlen in *. rewrite length_take. lia.
Qed.

Lemma parse_strs_inv k : forall data out out' rest,
  parse_strs k data out = Some (out', rest) ->
  exists cmd, out' = out ++ cmd /\ length cmd = k /\ data = flat_map enc_str cmd ++ rest /\
    Forall (fun s => zlen s < 2 ^ 32) cmd.
Proof.
  induction k as [|k IH]; intros data out out' rest; cbn [parse_strs].
  - intros [= <- <-]. exists []. by rewrite app_nil_r.
  - intros ([len d1] & E1 & H)%bind_Some. apply bind_Some in H as ([s d2] & E2 & H).
    apply read_u32_inv in E1 as [-> Hlen]. apply read_str_inv in E2 as [-> Hs]; [|lia].
    apply IH in H as (cmd & -> & <- & -> & Hf). exists (s :: cmd). split_and!.
    + by rewrite <- app_assoc.
    + done.
    + cbn [flat_map]. replace (enc_str s) with (le_enc 4 len ++ s) by (unfold enc_str; by rewrite Hs).
      by rewrite <- !app_assoc.
    + constructor; [lia|done].
Qed.

Lemma parse_req_inv data cmd :
  parse_req data = Some cmd ->
  data = enc_req cmd /\ zlen cmd <= k_max_args /\ Forall (fun s => zlen s < 2 ^ 32) cmd.
Proof.
  unfold parse_req. intros ([n d] & E & H)%bind_Some. apply read_u32_inv in E as [-> Hn].
  destruct (Z.ltb_spec k_max_args n) as [|Hle]; [done|].
  apply bind_Some in H as ([out rest] & E & H). destruct rest; [|done]. injection H as ->.
  apply parse_strs_inv in E as (cmd' & -> & Hl & -> & Hf). cbn [app].
  assert (zlen cmd' = n) as Hz by (unfold zlen; lia). rewrite app_nil_r. unfold enc_req. by rewrite Hz.
Qed.
