(* ===== verification/Client.v ===== *)
(** * client.cpp, and the request packer of benchmark.cpp

    The socket is an oracle: the results of the [write] and [read] calls, in
    order; a blocked call has no result and the function none.  What the
    client prints is a list of events. *)

From Stdlib Require Import (notations) String.
From S2P Require Import Prelude Wire.
Local Open Scope Z_scope.

Definition k_max_msg : Z := 4096.

(** ** The socket loops *)

(** [write_all] over the results [rvs] of [write]: the return value, the bytes
    sent, and the results not used. *)
Fixpoint write_all (buf : list byte) (rvs : list Z) : option (Z * list byte * list Z) :=
  match buf with
  | [] => Some (0, [], rvs)
  | _ =>
      match rvs with
      | [] => None
      | rv :: rvs =>
          if rv <=? 0 then Some (-1, [], rvs)
          else
            guard (rv <= zlen buf);;              (* assert *)
            '(err, sent, rvs) ← write_all (drop (Z.to_nat rv) buf) rvs;
            Some (err, take (Z.to_nat rv) buf ++ sent, rvs)
      end
  end.

(** [read_full] of [n] bytes over the data [chunks] that [read] returns ([None]
    is an error, which sets [errno], the empty list the end of the stream): the
    return value, whether [errno] was set, the bytes read, and the results not
    used. *)
Fixpoint read_full (n : Z) (chunks : list (option (list byte))) :
    option (Z * bool * list byte * list (option (list byte))) :=
  if n <=? 0 then Some (0, false, [], chunks)
  else
    match chunks with
    | [] => None
    | None :: chunks => Some (-1, true, [], chunks)
    | Some [] :: chunks => Some (-1, false, [], chunks)
    | Some data :: chunks =>
        guard (zlen data <= n);;                  (* assert *)
        '(err, errno, got, chunks) ← read_full (n - zlen data) chunks;
        Some (err, errno, data ++ got, chunks)
    end.

(** ** Requests *)

(** [uint32_t len = 4; for (...) len += 4 + s.size();] *)
Definition req_len (cmd : list (list byte)) : Z :=
  foldl (fun len s => u32 (len + (4 + zlen s))) 4 cmd.

(** Copies [data] after the bytes already in [wbuf], a buffer of [cap] bytes. *)
Definition copy_in (cap : Z) (wbuf data : list byte) : option (list byte) :=
  guard (zlen wbuf + zlen data <= cap);; Some (wbuf ++ data).

Fixpoint copy_strs (cap : Z) (wbuf : list byte) (cmd : list (list byte)) : option (list byte) :=
  match cmd with
  | [] => Some wbuf
  | s :: cmd =>
      wbuf ← copy_in cap wbuf (le_enc 4 (zlen s));
      wbuf ← copy_in cap wbuf s;
      copy_strs cap wbuf cmd
  end.

(** The message of [send_req], or [inl (-1)]. *)
Definition send_req_buf (cmd : list (list byte)) : option (Z + list byte) :=
  let len := req_len cmd in
  if k_max_msg <? len then Some (inl (-1))
  else
    let cap := 4 + k_max_msg in
    wbuf ← copy_in cap [] (le_enc 4 len);
    wbuf ← copy_in cap wbuf (le_enc 4 (zlen cmd));
    wbuf ← copy_strs cap wbuf cmd;
    (* write_all(fd, wbuf, 4 + len) *)
    Some (inr (take (Z.to_nat (4 + len)) wbuf)).

Definition send_req (cmd : list (list byte)) (rvs : list Z) : option (Z * list byte * list Z) :=
  r ← send_req_buf cmd;
  match r with
  | inl err => Some (err, [], rvs)
  | inr wbuf => write_all wbuf rvs
  end.

(** benchmark.cpp: the same request, in a vector. *)
Definition pack_command (buf : list byte) (args : list (list byte)) : list byte :=
  let buf := buf_append buf (le_enc 4 (req_len args)) in
  let buf := buf_append buf (le_enc 4 (zlen args)) in
  foldl (fun buf s => buf_append (buf_append buf (le_enc 4 (zlen s))) s) buf args.

(** ** Replies *)

Inductive event :=
  | EvNil
  | EvErr (code : Z) (msg : list byte)
  | EvStr (s : list byte)
  | EvInt (val : Z)
  | EvDbl (val : Z)
  | EvArr (len : Z)
  | EvArrEnd
  | EvMsg (text : list byte).        (* msg(), on the standard error *)

Definition msg_bad : list byte := String.list_byte_of_string "bad response".
Definition msg_eof : list byte := String.list_byte_of_string "EOF".
Definition msg_read : list byte := String.list_byte_of_string "read() error".
Definition msg_long : list byte := String.list_byte_of_string "too long".

(** [memcpy(&x, &data[pos], n)] *)
Definition fetch (data : list byte) (pos : Z) (n : nat) : option Z :=
  guard (0 <= pos /\ pos + Z.of_nat n <= zlen data);;
  Some (le_dec (take n (drop (Z.to_nat pos) data))).

(** What [%.*s] prints: the bytes up to a NUL, at most [prec] of them unless
    the precision is negative; reading past the buffer is undefined. *)
Fixpoint printf_s (prec : Z) (s : list byte) : option (list byte) :=
  if prec =? 0 then Some []
  else
    match s with
    | [] => None
    | b :: s =>
        if bz b =? 0 then Some []
        else r ← printf_s (prec - 1) s; Some (b :: r)
    end.

(** The loop over the [len] elements of an array: element [i] is at
    [arr_bytes].  Every element that is accepted is at least a byte, so [k], the
    fuel, is at most the size of the data. *)
Fixpoint print_elements (print : list byte -> option (Z * list event)) (data : list byte)
    (len : Z) (k : nat) (i arr_bytes : Z) : option (Z * Z * list event) :=
  if i <? len then
    match k with
    | O => None
    | S k =>
        guard (0 <= arr_bytes <= zlen data);;
        '(rv, evs) ← print (drop (Z.to_nat arr_bytes) data);
        if rv <? 0 then Some (rv, arr_bytes, evs)
        else
          '(rv, arr_bytes, evs') ← print_elements print data len k (i + 1) (arr_bytes + rv);
          Some (rv, arr_bytes, evs ++ evs')
    end
  else Some (0, arr_bytes, []).

(** The value returned and the events printed.  The recursion takes fuel. *)
Fixpoint print_response (fuel : nat) (data : list byte) : option (Z * list event) :=
  match fuel with
  | O => None
  | S fuel =>
      let size := zlen data in
      if size <? 1 then Some (-1, [EvMsg msg_bad])
      else
        tag ← fetch data 0 1;
        if tag =? TAG_NIL then Some (1, [EvNil])
        else if tag =? TAG_ERR then
          if size <? 1 + 8 then Some (-1, [EvMsg msg_bad])
          else
            code ← fetch data 1 4;
            len ← fetch data (1 + 4) 4;
            if size <? u32 (1 + 8 + len) then Some (-1, [EvMsg msg_bad])
            else
              s ← printf_s (i32 len) (drop (1 + 8) data);
              Some (i32 (u32 (1 + 8 + len)), [EvErr (i32 code) s])
        else if tag =? TAG_STR then
          if size <? 1 + 4 then Some (-1, [EvMsg msg_bad])
          else
            len ← fetch data 1 4;
            if size <? u32 (1 + 4 + len) then Some (-1, [EvMsg msg_bad])
            else
              s ← printf_s (i32 len) (drop (1 + 4) data);
              Some (i32 (u32 (1 + 4 + len)), [EvStr s])
        else if tag =? TAG_INT then
          if size <? 1 + 8 then Some (-1, [EvMsg msg_bad])
          else val ← fetch data 1 8; Some (1 + 8, [EvInt (i64 val)])
        else if tag =? TAG_DBL then
          if size <? 1 + 8 then Some (-1, [EvMsg msg_bad])
          else val ← fetch data 1 8; Some (1 + 8, [EvDbl val])
        else if tag =? TAG_ARR then
          if size <? 1 + 4 then Some (-1, [EvMsg msg_bad])
          else
            len ← fetch data 1 4;
            '(rv, arr_bytes, evs) ←
              print_elements (print_response fuel) data len (S (length data)) 0 (1 + 4);
            if rv <? 0 then Some (rv, EvArr len :: evs)
            else Some (i32 arr_bytes, EvArr len :: evs ++ [EvArrEnd])
        else Some (-1, [EvMsg msg_bad])
  end.

(** Nothing of an array may be empty: the depth is at most the size. *)
Definition print_fuel (data : list byte) : nat := S (length data).

(** The return value, and what is printed. *)
Definition read_res (chunks : list (option (list byte))) : option (Z * list event) :=
  '(err, errno, hdr, chunks) ← read_full 4 chunks;
  if negb (err =? 0) then Some (err, [EvMsg (if (errno : bool) then msg_read else msg_eof)])
  else
    len ← fetch hdr 0 4;
    if k_max_msg <? len then Some (-1, [EvMsg msg_long])
    else
      '(err, _, body, _) ← read_full len chunks;
      if negb (err =? 0) then Some (err, [EvMsg msg_read])
      else
        '(rv, evs) ← print_response (print_fuel body) body;
        if (0 <? rv) && negb (u32 rv =? len) then Some (-1, evs ++ [EvMsg msg_bad])
        else Some (rv, evs).

(** [main] after the connection is made on [fd]: the bytes sent, what is
    printed, and the descriptors closed.  [argv] starts with the name of the
    program. *)
Definition main (fd : Z) (argv : list (list byte)) (rvs : list Z) (chunks : list (option (list byte))) :
    option (list byte * list event * list Z) :=
  let cmd := tail argv in
  '(err, sent, _) ← send_req cmd rvs;
  '(_, evs) ← (if negb (err =? 0) then Some (err, []) else read_res chunks);
  Some (sent, evs, [fd]).                         (* L_DONE: close(fd) *)

(** ** The socket loops are complete *)

Lemma write_all_sent rvs : forall buf err sent rest,
  write_all buf rvs = Some (err, sent, rest) ->
  err = 0 /\ sent = buf \/ err = -1 /\ exists tl, buf = sent ++ tl.
Proof.
  induction rvs as [|rv rvs IH]; intros [|b buf] err sent rest; cbn [write_all];
    try (intros [= <- <- <-]; by left).
  destruct (Z.leb_spec rv 0) as [|Hrv]; [intros [= <- <- <-]; right; split; [done|by eexists]|].
  intros (_ & _ & H)%bind_Some. apply bind_Some in H as ([[e s] r] & E & [= <- <- <-]).
  apply IH in E as [[-> ->]|[-> [tl Htl]]].
  - left. by rewrite take_drop.
  - right. split; [done|]. exists tl. by rewrite <- app_assoc, <- Htl, take_drop.
Qed.

Lemma write_all_total rvs : forall buf,
  Forall (fun rv => 0 < rv) rvs -> foldr Z.add 0 rvs = zlen buf ->
  write_all buf rvs = Some (0, buf, []).
Proof.
  induction rvs as [|rv rvs IH]; intros buf Hp Hs.
  - destruct buf; [done|]. unfold zlen in Hs. simpl in Hs. lia.
  - apply Forall_cons in Hp as [Hrv Hp]. cbn [foldr] in Hs.
    assert (0 <= foldr Z.add 0 rvs) by (clear -Hp; induction Hp; cbn; lia).
    destruct buf as [|b buf]; [unfold zlen in Hs; simpl in Hs; lia|]. cbn [write_all].
    destruct (Z.leb_spec rv 0); [lia|]. rewrite option_guard_True by lia. cbn [mbind option_bind].
    rewrite IH; [|done|]. 
    + cbn [mbind option_bind]. by rewrite take_drop.
    + unfold zlen in *. rewrite length_drop. lia.
Qed.

Lemma read_full_ok chunks : forall n err errno got rest,
  0 <= n -> read_full n chunks = Some (err, errno, got, rest) ->
  err = 0 /\ zlen got = n \/ err = -1 /\ zlen got < n.
Proof.
  assert (Hnil : zlen (@nil byte) = 0) by done.
  induction chunks as [|c chunks IH]; intros n err errno got rest Hn; cbn [read_full];
    (destruct (Z.leb_spec n 0); [intros [= <- <- <- <-]; left; split; [done|lia]|]).
  { done. }
  destruct c as [[|b data]|]; try (intros [= <- <- <- <-]; right; split; [done|lia]).
  case_guard; [|done]. cbn [mbind option_bind mret option_ret].
  intros ([[[e n1] s] r] & E & [= <- <- <- <-])%bind_Some.
  apply IH in E; [|lia]. rewrite zlen_cons, zlen_app; rewrite zlen_cons in E; rewrite zlen_cons in H0. destruct E as [[-> ?]|[-> ?]]; [left|right]; lia.
Qed.

(** ** Requests: the message is the length and the encoded command *)

Definition body_len (cmd : list (list byte)) : Z := foldr (fun s n => 4 + zlen s + n) 4 cmd.

Lemma foldr_body_shift cmd k : foldr (fun s n => 4 + zlen s + n) k cmd = body_len cmd + (k - 4).
Proof. unfold body_len. induction cmd as [|s cmd IH]; cbn; lia. Qed.

Lemma body_len_nonneg cmd : 4 <= body_len cmd.
Proof. unfold body_len. induction cmd as [|s cmd IH]; cbn; [lia|]. pose proof (zlen_nonneg s). lia. Qed.

Lemma body_len_args cmd : 4 * zlen cmd <= body_len cmd.
Proof.
  unfold body_len. induction cmd as [|s cmd IH]; [done|]. rewrite zlen_cons. cbn [foldr].
  pose proof (zlen_nonneg s). lia.
Qed.

Lemma zlen_enc_req cmd : zlen (enc_req cmd) = body_len cmd.
Proof.
  unfold enc_req, body_len. rewrite zlen_app. unfold zlen at 1. rewrite length_le_enc.
  induction cmd as [|s cmd IH]; [done|]. cbn [flat_map foldr]. rewrite zlen_app.
  unfold enc_str at 1. rewrite zlen_app. unfold zlen at 1. rewrite length_le_enc. lia.
Qed.

(** The sum is computed modulo 2^32. *)
Lemma req_len_mod cmd : req_len cmd = u32 (body_len cmd).
Proof.
  unfold req_len. enough (forall k, foldl (fun len s => u32 (len + (4 + zlen s))) (u32 k) cmd =
    u32 (foldr (fun s n => 4 + zlen s + n) k cmd)) as H by apply (H 4).
  induction cmd as [|s cmd IH]; intros k; [done|]. cbn [foldl foldr].
  replace (u32 (u32 k + (4 + zlen s))) with (u32 (k + (4 + zlen s)))
    by (unfold u32; by rewrite Zplus_mod_idemp_l).
  rewrite IH, !foldr_body_shift. f_equal. lia.
Qed.

Lemma copy_in_ok cap wbuf data :
  zlen wbuf + zlen data <= cap -> copy_in cap wbuf data = Some (wbuf ++ data).
Proof. intros. unfold copy_in. by rewrite option_guard_True. Qed.

Lemma copy_strs_ok cap cmd : forall wbuf,
  zlen wbuf + (body_len cmd - 4) <= cap ->
  copy_strs cap wbuf cmd = Some (wbuf ++ flat_map enc_str cmd).
Proof.
  induction cmd as [|s cmd IH]; intros wbuf Hcap; [by rewrite app_nil_r|].
  cbn [copy_strs flat_map]. unfold body_len in Hcap. cbn [foldr] in Hcap. fold (body_len cmd) in Hcap.
  pose proof (zlen_nonneg s). pose proof (body_len_nonneg cmd).
  rewrite copy_in_ok by (rewrite zlen_le_enc; lia). cbn [mbind option_bind].
  rewrite copy_in_ok by (rewrite zlen_app, zlen_le_enc; lia). cbn [mbind option_bind].
  rewrite IH by (autorewrite with zlen; lia). unfold enc_str at 2. by rewrite <- !app_assoc.
Qed.

Lemma send_req_buf_spec cmd :
  body_len cmd < 2 ^ 32 ->
  send_req_buf cmd = Some (if k_max_msg <? body_len cmd then inl (-1)
    else inr (le_enc 4 (body_len cmd) ++ enc_req cmd)).
Proof.
  intros Hb. pose proof (body_len_nonneg cmd). unfold send_req_buf.
  rewrite req_len_mod, u32_small by lia. destruct (Z.ltb_spec k_max_msg (body_len cmd)) as [|Hle]; [done|].
  unfold k_max_msg in *.
  rewrite copy_in_ok by (rewrite zlen_le_enc; change (zlen []) with 0; lia). cbn [mbind option_bind app].
  rewrite copy_in_ok by (rewrite !zlen_le_enc; lia). cbn [mbind option_bind].
  rewrite copy_strs_ok by (autorewrite with zlen; lia). cbn [mbind option_bind].
  do 2 f_equal. rewrite <- app_assoc. fold (enc_req cmd). apply take_ge.
  rewrite length_app, length_le_enc. pose proof (zlen_enc_req cmd) as Hz. unfold zlen in Hz. lia.
Qed.

Lemma pack_command_spec buf args :
  pack_command buf args = buf ++ le_enc 4 (body_len args) ++ enc_req args.
Proof.
  unfold pack_command, buf_append. rewrite req_len_mod, le_enc_u32.
  enough (forall b, foldl (fun b s => (b ++ le_enc 4 (zlen s)) ++ s) b args = b ++ flat_map enc_str args) as ->
    by (unfold enc_req; by rewrite <- !app_assoc).
  induction args as [|s args IH]; intros b; cbn [foldl flat_map]; [by rewrite app_nil_r|].
  rewrite IH. unfold enc_str at 2. by rewrite <- !app_assoc.
Qed.

(** ** Replies: the client prints what the server encoded *)

(** The part of a string that [%.*s] prints. *)
Fixpoint until_nul (s : list byte) : list byte :=
  match s with
  | [] => []
  | b :: s => if bz b =? 0 then [] else b :: until_nul s
  end.

(** What the value says, in the order of the protocol. *)
Fixpoint events (v : value) : list event :=
  match v with
  | VNil => [EvNil]
  | VErr code msg => [EvErr (i32 code) msg]
  | VStr s => [EvStr s]
  | VInt val => [EvInt (i64 val)]
  | VDbl val => [EvDbl (u64 val)]
  | VArr l => EvArr (zlen l) :: flat_map events l ++ [EvArrEnd]
  end.

(** [printf] stops at the first NUL of a text. *)
Definition shown (e : event) : event :=
  match e with
  | EvErr code msg => EvErr code (until_nul msg)
  | EvStr s => EvStr (until_nul s)
  | e => e
  end.

(** The texts of a value. *)
Fixpoint texts (v : value) : list (list byte) :=
  match v with
  | VErr _ msg => [msg]
  | VStr s => [s]
  | VArr l => flat_map texts l
  | _ => []
  end.

(** What is printed of a value. *)
Fixpoint prints (v : value) : list event :=
  match v with
  | VNil => [EvNil]
  | VErr code msg => [EvErr (i32 code) (until_nul msg)]
  | VStr s => [EvStr (until_nul s)]
  | VInt val => [EvInt (i64 val)]
  | VDbl val => [EvDbl (u64 val)]
  | VArr l => EvArr (zlen l) :: flat_map prints l ++ [EvArrEnd]
  end.

Lemma printf_s_app s rest : printf_s (zlen s) (s ++ rest) = Some (until_nul s).
Proof.
  induction s as [|b s IH]; [by destruct rest|]. rewrite zlen_cons. cbn [app printf_s until_nul].
  pose proof (zlen_nonneg s). destruct (Z.eqb_spec (zlen s + 1) 0); [lia|].
  destruct (bz b =? 0); [done|]. replace (zlen s + 1 - 1) with (zlen s) by lia. by rewrite IH.
Qed.

Lemma fetch_enc a n z rest :
  fetch (a ++ le_enc n z ++ rest) (zlen a) n = Some (z mod 256 ^ Z.of_nat n).
Proof.
  unfold fetch. autorewrite with zlen. pose proof (zlen_nonneg a). pose proof (zlen_nonneg rest).
  rewrite option_guard_True by lia. cbn [mbind option_bind].
  unfold zlen. rewrite Nat2Z.id, drop_app_length.
  rewrite (take_app_length' _ _ n) by (by rewrite length_le_enc). by rewrite le_dec_enc.
Qed.

(** Induction over nested values. *)
Lemma value_nested_ind (P : value -> Prop) :
  P VNil -> (forall c m, P (VErr c m)) -> (forall s, P (VStr s)) -> (forall z, P (VInt z)) ->
  (forall z, P (VDbl z)) -> (forall l, Forall P l -> P (VArr l)) -> forall v, P v.
Proof.
  intros Hn He Hs Hi Hd Ha. fix IH 1. intros [| | | | |l]; [done..|].
  apply Ha. induction l as [|v l IHl]; constructor; [apply IH|done].
Qed.

(** A code fits in 32 bits. *)
Fixpoint value_ok (v : value) : Prop :=
  match v with
  | VErr code _ => 0 <= code < 2 ^ 32
  | VArr l => fold_right (fun v P => value_ok v /\ P) True l
  | _ => True
  end.

Lemma encode_nonempty v : 1 <= zlen (encode v).
Proof. destruct v; cbn [encode]; unfold zlen; simpl; lia. Qed.

Lemma fetch_tag t rest : 0 <= t < 256 -> fetch (zb t :: rest) 0 1 = Some t.
Proof.
  intros Ht. pose proof (fetch_enc [] 1 t rest) as H. cbn [le_enc app] in H.
  change (zlen (@nil byte)) with 0 in H. rewrite H. f_equal. apply Z.mod_small. simpl. lia.
Qed.

Lemma fetch_at (a : list byte) k n z rest :
  zlen a = k -> fetch (a ++ le_enc n z ++ rest) k n = Some (z mod 256 ^ Z.of_nat n).
Proof. intros <-. apply fetch_enc. Qed.

Lemma fetch_second (b : byte) z rest : fetch (b :: le_enc 4 z ++ rest) 1 4 = Some (u32 z).
Proof. by apply (fetch_at [b] 1 4 z rest). Qed.

Lemma fetch_second_64 (b : byte) z rest : fetch (b :: le_enc 8 z ++ rest) 1 8 = Some (u64 z).
Proof. by apply (fetch_at [b] 1 8 z rest). Qed.

Lemma fetch_third (b : byte) x z rest :
  fetch (b :: le_enc 4 x ++ le_enc 4 z ++ rest) 5 4 = Some (u32 z).
Proof. by apply (fetch_at (b :: le_enc 4 x) 5 4 z rest). Qed.

Lemma i32_small_len z : 0 <= z < 2 ^ 31 -> i32 (u32 z) = z.
Proof. intros. rewrite u32_small by lia. apply i32_small. lia. Qed.

Lemma print_elements_ok print l : forall data pre rest k i,
  Forall (fun v => forall r, zlen (encode v ++ r) < 2 ^ 31 ->
    print (encode v ++ r) = Some (zlen (encode v), prints v)) l ->
  data = pre ++ flat_map encode l ++ rest -> zlen data < 2 ^ 31 -> pre <> [] -> (length l < k)%nat ->
  print_elements print data (i + zlen l) k i (zlen pre) =
    Some (0, zlen pre + zlen (flat_map encode l), flat_map prints l).
Proof.
  induction l as [|v l IH]; intros data pre rest k i Hf Hd Hlen Hpre Hk.
  - change (zlen []) with 0. destruct k; [simpl in Hk; lia|]. cbn [print_elements flat_map].
    destruct (Z.ltb_spec i (i + 0)); [lia|]. by rewrite Z.add_0_r.
  - apply Forall_cons in Hf as [Hv Hf]. cbn [flat_map] in *. destruct k as [|k]; [simpl in Hk; lia|].
    cbn [length] in Hk. rewrite zlen_cons. pose proof (zlen_nonneg l). pose proof (encode_nonempty v).
    pose proof (zlen_nonneg pre). pose proof (zlen_nonneg (flat_map encode l)). pose proof (zlen_nonneg rest).
    assert (Hdl : zlen data = zlen pre + zlen (encode v) + zlen (flat_map encode l) + zlen rest)
      by (rewrite Hd, !zlen_app; lia).
    assert (Hpp : 0 < zlen pre) by (destruct pre; [done|]; unfold zlen; simpl; lia).
    cbn [print_elements]. destruct (Z.ltb_spec i (i + (zlen l + 1))); [|lia].
    rewrite option_guard_True by lia. cbn [mbind option_bind].
    replace (drop (Z.to_nat (zlen pre)) data) with (encode v ++ flat_map encode l ++ rest).
    2: { rewrite Hd. unfold zlen. by rewrite Nat2Z.id, drop_app_length, <- app_assoc. }
    rewrite Hv by (rewrite !zlen_app; lia). cbn [mbind option_bind].
    destruct (Z.ltb_spec (zlen (encode v)) 0); [lia|].
    replace (zlen pre + zlen (encode v)) with (zlen (pre ++ encode v)) by (by rewrite zlen_app).
    replace (i + (zlen l + 1)) with ((i + 1) + zlen l) by lia.
    rewrite (IH data (pre ++ encode v) rest k (i + 1)); [|done| |done| |lia].
    + cbn [mbind option_bind]. rewrite !zlen_app. do 3 f_equal. lia.
    + by rewrite Hd, <- !app_assoc.
    + by destruct pre.
Qed.

(** One value of each kind, in front of [rest]. *)
Section one_value.
Context (fuel : nat) (rest : list byte).

Ltac reduce_tags :=
  cbv [TAG_NIL TAG_ERR TAG_STR TAG_INT TAG_DBL TAG_ARR]; cbn [Z.eqb Pos.eqb].

Ltac enough_bytes :=
  match goal with |- context [if ?x <? ?y then _ else _] => destruct (Z.ltb_spec x y); [lia|] end.

Lemma print_tag t D (k : Z -> option (Z * list event)) :
  0 <= t < 256 ->
  (if zlen (zb t :: D) <? 1 then Some (-1, [EvMsg msg_bad]) else tag ← fetch (zb t :: D) 0 1; k tag) = k t.
Proof.
  intros Ht. rewrite zlen_cons. pose proof (zlen_nonneg D). enough_bytes. by rewrite fetch_tag.
Qed.

Lemma print_nil : print_response (S fuel) (encode VNil ++ rest) = Some (1, [EvNil]).
Proof. cbn [print_response encode app]. cbv zeta. by rewrite print_tag. Qed.

Lemma print_str s :
  zlen (encode (VStr s) ++ rest) < 2 ^ 31 ->
  print_response (S fuel) (encode (VStr s) ++ rest) = Some (zlen (encode (VStr s)), [EvStr (until_nul s)]).
Proof.
  cbn [print_response encode app]. cbv zeta. rewrite <- app_assoc, print_tag by done. reduce_tags.
  autorewrite with zlen. intros Hlen.
  pose proof (zlen_nonneg s). pose proof (zlen_nonneg rest). enough_bytes.
  rewrite fetch_second. cbn [mbind option_bind].
  rewrite (i32_small_len (zlen s)), (u32_small (zlen s)) by lia.
  rewrite u32_small by lia. enough_bytes.
  change (drop (1 + 4) _) with (s ++ rest).
  rewrite printf_s_app. cbn [mbind option_bind]. rewrite i32_small by lia. do 2 f_equal. lia.
Qed.

Lemma print_err code msg :
  0 <= code < 2 ^ 32 -> zlen (encode (VErr code msg) ++ rest) < 2 ^ 31 ->
  print_response (S fuel) (encode (VErr code msg) ++ rest) =
    Some (zlen (encode (VErr code msg)), [EvErr (i32 code) (until_nul msg)]).
Proof.
  intros Hc. cbn [print_response encode app]. cbv zeta. rewrite <- !app_assoc, print_tag by done. reduce_tags.
  autorewrite with zlen. intros Hlen.
  pose proof (zlen_nonneg msg). pose proof (zlen_nonneg rest). enough_bytes.
  rewrite fetch_second. cbn [mbind option_bind].
  change (1 + 4) with 5. rewrite fetch_third. cbn [mbind option_bind].
  rewrite (i32_small_len (zlen msg)), (u32_small (zlen msg)), (u32_small code) by lia.
  rewrite u32_small by lia. enough_bytes.
  change (drop (1 + 8) _) with (msg ++ rest).
  rewrite printf_s_app. cbn [mbind option_bind]. rewrite i32_small by lia. do 2 f_equal. lia.
Qed.

Lemma i64_u64 z : i64 (u64 z) = i64 z.
Proof. unfold i64, u64. by rewrite Zplus_mod_idemp_l. Qed.

Lemma print_int z :
  print_response (S fuel) (encode (VInt z) ++ rest) = Some (zlen (encode (VInt z)), [EvInt (i64 z)]).
Proof.
  cbn [print_response encode app]. cbv zeta. rewrite print_tag by done. reduce_tags.
  autorewrite with zlen. pose proof (zlen_nonneg rest). enough_bytes.
  rewrite fetch_second_64. cbn [mbind option_bind]. by rewrite i64_u64.
Qed.

Lemma print_dbl z :
  print_response (S fuel) (encode (VDbl z) ++ rest) = Some (zlen (encode (VDbl z)), [EvDbl (u64 z)]).
Proof.
  cbn [print_response encode app]. cbv zeta. rewrite print_tag by done. reduce_tags.
  autorewrite with zlen. pose proof (zlen_nonneg rest). enough_bytes.
  by rewrite fetch_second_64.
Qed.

Lemma zlen_flat_map_le l : zlen l <= zlen (flat_map encode l).
Proof.
  induction l as [|v l IH]; [done|]. cbn [flat_map]. rewrite zlen_cons, zlen_app.
  pose proof (encode_nonempty v). lia.
Qed.

Lemma print_arr l :
  Forall (fun v => forall r, zlen (encode v ++ r) < 2 ^ 31 ->
    print_response fuel (encode v ++ r) = Some (zlen (encode v), prints v)) l ->
  zlen (encode (VArr l) ++ rest) < 2 ^ 31 ->
  print_response (S fuel) (encode (VArr l) ++ rest) = Some (zlen (encode (VArr l)), prints (VArr l)).
Proof.
  cbn [print_response encode app]. cbv zeta. rewrite <- app_assoc, print_tag by done. reduce_tags.
  intros Hf. autorewrite with zlen. intros Hlen.
  pose proof (zlen_nonneg rest). pose proof (zlen_flat_map_le l). pose proof (zlen_nonneg l). enough_bytes.
  rewrite fetch_second. cbn [mbind option_bind].
  rewrite (u32_small (zlen l)) by lia.
  pose proof (print_elements_ok (print_response fuel) l _ (zb 5 :: le_enc 4 (zlen l)) rest
    (S (length (zb 5 :: le_enc 4 (zlen l) ++ flat_map encode l ++ rest))) 0 Hf eq_refl) as H'.
  change (zb TAG_ARR) with (zb 5). cbn [app] in H'. rewrite Z.add_0_l, !zlen_cons, zlen_le_enc in H'.
  change (Z.of_nat 4 + 1) with (1 + 4) in H'. rewrite H'; [|autorewrite with zlen; lia|done|].
  - cbn [mbind option_bind]. destruct (Z.ltb_spec 0 0); [lia|]. rewrite i32_small by lia.
    do 2 f_equal. lia.
  - unfold zlen in *. rewrite !length_cons, !length_app. lia.
Qed.
End one_value.

Lemma print_response_encode v : forall fuel rest,
  value_ok v -> zlen (encode v ++ rest) < 2 ^ 31 -> (length (encode v) < fuel)%nat ->
  print_response fuel (encode v ++ rest) = Some (zlen (encode v), prints v).
Proof.
  induction v as [|code msg|s|z|z|l IH] using value_nested_ind; intros [|fuel] rest Hok Hlen Hfuel; try lia.
  - apply print_nil.
  - by apply print_err.
  - by apply print_str.
  - apply print_int.
  - apply print_dbl.
  - apply print_arr; [|done]. cbn [encode value_ok] in *. rewrite length_cons, length_app, length_le_enc in Hfuel.
    assert (Hall : Forall (fun v => value_ok v /\ (length (encode v) < fuel)%nat) l).
    { assert (Hl : (length (flat_map encode l) < fuel)%nat) by lia. clear -Hok Hl.
      induction l as [|v l IHl]; constructor; cbn [flat_map] in Hl; rewrite length_app in Hl; destruct Hok as [Hv Hok].
      - split; [done|lia].
      - apply IHl; [done|lia]. }
    apply Forall_forall. intros v Hv r Hr. rewrite Forall_forall in IH, Hall.
    destruct (Hall v Hv). by apply IH.
Qed.

(** ** What is printed of a value: all of it, up to the NULs *)

Lemma prints_shown v : prints v = map shown (events v).
Proof.
  induction v as [|code msg|s|z|z|l IH] using value_nested_ind; [done..|].
  cbn [prints events map shown]. rewrite map_app. cbn [map shown]. do 2 f_equal.
  induction IH as [|v l Hv _ IH]; [done|]. cbn [flat_map]. by rewrite map_app, Hv, IH.
Qed.

Lemma until_nul_id s : Byte.x00 ∉ s -> until_nul s = s.
Proof.
  induction s as [|b s IH]; intros Hs; [done|]. apply not_elem_of_cons in Hs as [Hb Hs]. cbn [until_nul].
  rewrite IH by done. destruct (Z.eqb_spec (bz b) 0) as [E|]; [|done]. destruct Hb. by destruct b.
Qed.

Lemma prints_exact v : Forall (fun s => Byte.x00 ∉ s) (texts v) -> prints v = events v.
Proof.
  induction v as [|code msg|s|z|z|l IH] using value_nested_ind; intros Hv; cbn [texts prints events] in *; try done.
  1-2: apply Forall_cons in Hv as [Hv _]; by rewrite until_nul_id.
  do 2 f_equal. induction IH as [|v l Hx _ IH]; [done|]. cbn [flat_map] in *. apply Forall_app in Hv as [Hv Hl].
  by rewrite Hx, IH.
Qed.
