(* ===== verification/Numeric.v ===== *)
(** * The numbers of a command: [strtoll] and [strtod], [str2int] and [str2dbl]

    The C library parsers (C locale, round to nearest even), and the two
    functions of server.cpp that accept a string only if the parser consumes
    all of it.  A parser returns its value and the bytes it leaves. *)

From S2P Require Import Prelude Common.
Local Open Scope Z_scope.

Definition isspace (b : byte) : bool := (bz b =? 32) || (9 <=? bz b) && (bz b <=? 13).
Definition isdigit (b : byte) : bool := (48 <=? bz b) && (bz b <=? 57).
Definition tolower (b : byte) : Z := if (65 <=? bz b) && (bz b <=? 90) then bz b + 32 else bz b.

(** The value of a hexadecimal digit. *)
Definition hexval (b : byte) : option Z :=
  if isdigit b then Some (bz b - 48)
  else if (97 <=? tolower b) && (tolower b <=? 102) then Some (tolower b - 87)
  else None.

Fixpoint skip_space (s : list byte) : list byte :=
  match s with
  | b :: s' => if isspace b then skip_space s' else s
  | [] => []
  end.

(** An optional sign. *)
Definition take_sign (s : list byte) : bool * list byte :=
  match s with
  | b :: s' => if bz b =? 45 then (true, s') else if bz b =? 43 then (false, s') else (false, s)
  | [] => (false, [])
  end.

(** The longest prefix of decimal digits: its value after [acc], its length. *)
Fixpoint take_digits (s : list byte) (acc n : Z) : Z * Z * list byte :=
  match s with
  | b :: s' => if isdigit b then take_digits s' (acc * 10 + (bz b - 48)) (n + 1) else (acc, n, s)
  | [] => (acc, n, [])
  end.

Fixpoint take_hex (s : list byte) (acc n : Z) : Z * Z * list byte :=
  match s with
  | b :: s' =>
      match hexval b with
      | Some d => take_hex s' (acc * 16 + d) (n + 1)
      | None => (acc, n, s)
      end
  | [] => (acc, n, [])
  end.

(** ** strtoll, base 10: values out of range are clamped *)

Definition clamp64 (z : Z) : Z := Z.max (- 2 ^ 63) (Z.min (2 ^ 63 - 1) z).

Definition strtoll (s : list byte) : Z * list byte :=
  let '(neg, s1) := take_sign (skip_space s) in
  let '(v, n, rest) := take_digits s1 0 0 in
  if n =? 0 then (0, s)                       (* no conversion *)
  else (clamp64 (if (neg : bool) then - v else v), rest).

Definition str2int (s : list byte) : option Z :=
  let '(out, rest) := strtoll s in
  match rest with [] => Some out | _ => None end.

(** ** strtod *)

(** The integer nearest to [n / d], ties to even. *)
Definition round_even (n d : Z) : Z :=
  let q := n / d in
  let r := n mod d in
  if 2 * r <? d then q
  else if d <? 2 * r then q + 1
  else if Z.even q then q else q + 1.

Definition dbl_inf : Z := 0x7FF0000000000000.
Definition dbl_nan : Z := 0x7FF8000000000000.

(** The exponent of the last place of the double nearest to [num / den]. *)
Definition ulp_exp (num den : Z) : Z :=
  let t := Z.log2 num - Z.log2 den in
  let lower := if 0 <=? t then num <? den * 2 ^ t else num * 2 ^ (- t) <? den in
  Z.max (-1074) ((if lower then t - 1 else t) - 52).

(** The magnitude of the double nearest to [num / den]. *)
Definition dbl_round (num den : Z) : Z :=
  if num =? 0 then 0
  else
    let e := ulp_exp num den in
    let m := round_even (num * 2 ^ (Z.max 0 (- e))) (den * 2 ^ (Z.max 0 e)) in
    Z.min dbl_inf ((e + 1074) * 2 ^ 52 + m).

Definition dbl_signed (neg : bool) (mag : Z) : Z := if neg then 2 ^ 63 + mag else mag.

(** [mant * base ^ ex], rounded. *)
Definition dbl_scale (mant base ex : Z) : Z :=
  if 0 <=? ex then dbl_round (mant * base ^ ex) 1 else dbl_round mant (base ^ (- ex)).

(** An exponent part [c sign digits], where [c] is the letter; 0 when it is
    not there. *)
Definition take_exp (c : Z) (s : list byte) : Z * list byte :=
  match s with
  | b :: s1 =>
      if tolower b =? c then
        let '(neg, s2) := take_sign s1 in
        let '(v, n, rest) := take_digits s2 0 0 in
        if n =? 0 then (0, s) else ((if (neg : bool) then - v else v), rest)
      else (0, s)
  | [] => (0, [])
  end.

(** Digits, an optional fraction, an optional exponent: mantissa, number of
    digits, exponent of the base, rest. *)
Definition take_number (take : list byte -> Z -> Z -> Z * Z * list byte) (unit c : Z) (s : list byte) :
    Z * Z * Z * list byte :=
  let '(v, n, s1) := take s 0 0 in
  let '(v, k, s2) :=
    (match s1 with
     | b :: s1' => if bz b =? 46 then let '(v, k, s2) := take s1' v 0 in
                     if n + k =? 0 then (v, 0, s1) else (v, k, s2)
                   else (v, 0, s1)
     | [] => (v, 0, [])
     end) in
  if n + k =? 0 then (0, 0, 0, s)
  else let '(ex, s3) := take_exp c s2 in (v, n + k, ex - k * unit, s3).

(** A case-insensitive prefix. *)
Fixpoint take_word (w : list Z) (s : list byte) : option (list byte) :=
  match w, s with
  | [], _ => Some s
  | c :: w, b :: s => if tolower b =? c then take_word w s else None
  | _ :: _, [] => None
  end.

Definition word_inf : list Z := [105; 110; 102].                      (* inf *)
Definition word_inity : list Z := [105; 110; 105; 116; 121].          (* inity *)
Definition word_nan : list Z := [110; 97; 110].                       (* nan *)
Definition word_0x : list Z := [48; 120].                             (* 0x *)

Definition strtod (s : list byte) : Z * list byte :=
  let '(neg, s1) := take_sign (skip_space s) in
  match take_word word_inf s1 with
  | Some s2 => (dbl_signed neg dbl_inf, default s2 (take_word word_inity s2))
  | None =>
  match take_word word_nan s1 with
  | Some s2 => (dbl_signed neg dbl_nan, s2)
  | None =>
      let hex := s2 ← take_word word_0x s1;
                 let '(v, n, ex, s3) := take_number take_hex 4 112 s2 in
                 if n =? 0 then None else Some (dbl_scale v 2 ex, s3) in
      match hex with
      | Some (mag, s3) => (dbl_signed neg mag, s3)
      | None =>
          let '(v, n, ex, s2) := take_number take_digits 1 101 s1 in
          if n =? 0 then (0, s)                 (* no conversion *)
          else (dbl_signed neg (dbl_scale v 10 ex), s2)
      end
  end end.

Definition str2dbl (s : list byte) : option Z :=
  let '(out, rest) := strtod s in
  match rest with
  | [] => if dbl_isnan out then None else Some out
  | _ => None
  end.

(** ** Ranges *)

Lemma clamp64_range z : - 2 ^ 63 <= clamp64 z < 2 ^ 63.
Proof. unfold clamp64. lia. Qed.

Lemma str2int_range s v : str2int s = Some v -> - 2 ^ 63 <= v < 2 ^ 63.
Proof.
  unfold str2int, strtoll. destruct (take_sign _) as [neg s1], (take_digits s1 0 0) as [[w n] rest].
  destruct (n =? 0); case_match; intros [= <-]; try lia; apply clamp64_range.
Qed.

Lemma round_even_near n d :
  0 < d -> 2 * Z.abs (n - round_even n d * d) <= d.
Proof.
  intros Hd. unfold round_even. pose proof (Z.div_mod n d ltac:(lia)) as Hdm.
  pose proof (Z.mod_pos_bound n d Hd). set (q := n / d) in *. set (r := n mod d) in *.
  destruct (Z.ltb_spec (2 * r) d); [|destruct (Z.ltb_spec d (2 * r)); [|destruct (Z.even q)]]; nia.
Qed.

Lemma round_even_nonneg n d : 0 <= n -> 0 < d -> 0 <= round_even n d.
Proof.
  intros Hn Hd. unfold round_even. pose proof (Z.div_pos n d Hn Hd).
  destruct (_ <? _); [done|]. destruct (_ <? _); [lia|]. destruct (Z.even _); lia.
Qed.

Lemma dbl_round_range num den : 0 <= num -> 0 < den -> 0 <= dbl_round num den <= dbl_inf.
Proof.
  intros Hn Hd. unfold dbl_round. destruct (num =? 0); [unfold dbl_inf; lia|].
  set (e := ulp_exp num den). cbv zeta.
  assert (-1074 <= e) by (unfold e, ulp_exp; lia).
  assert (0 <= round_even (num * 2 ^ (Z.max 0 (- e))) (den * 2 ^ (Z.max 0 e))).
  { apply round_even_nonneg; [|apply Z.mul_pos_pos; [done|]; apply Z.pow_pos_nonneg; lia].
    apply Z.mul_nonneg_nonneg; [done|]. apply Z.pow_nonneg. lia. }
  unfold dbl_inf. nia.
Qed.

Lemma take_digits_nonneg s : forall acc n, 0 <= acc -> 0 <= n ->
  let '(v, k, _) := take_digits s acc n in 0 <= v /\ n <= k.
Proof.
  induction s as [|b s IH]; intros acc n Ha Hn; cbn [take_digits]; [lia|].
  unfold isdigit. destruct (Z.leb_spec 48 (bz b)), (Z.leb_spec (bz b) 57); cbn [andb]; try lia.
  specialize (IH (acc * 10 + (bz b - 48)) (n + 1) ltac:(lia) ltac:(lia)).
  destruct (take_digits _ _ _) as [[v k] r]. lia.
Qed.

Lemma hexval_nonneg b d : hexval b = Some d -> 0 <= d.
Proof.
  unfold hexval, isdigit. destruct (Z.leb_spec 48 (bz b)), (Z.leb_spec (bz b) 57); cbn [andb];
    try (intros [= <-]; lia);
    (destruct (Z.leb_spec 97 (tolower b)), (Z.leb_spec (tolower b) 102); cbn [andb]; intros [= <-]; lia).
Qed.

Lemma take_hex_nonneg s : forall acc n, 0 <= acc -> 0 <= n ->
  let '(v, k, _) := take_hex s acc n in 0 <= v /\ n <= k.
Proof.
  induction s as [|b s IH]; intros acc n Ha Hn; cbn [take_hex]; [lia|].
  destruct (hexval b) as [d|] eqn:E; [|lia]. apply hexval_nonneg in E.
  specialize (IH (acc * 16 + d) (n + 1) ltac:(lia) ltac:(lia)).
  destruct (take_hex _ _ _) as [[v k] r]. lia.
Qed.

Lemma take_number_nonneg take unit c s :
  (forall s acc n, 0 <= acc -> 0 <= n -> let '(v, k, _) := take s acc n in 0 <= v /\ n <= k) ->
  let '(v, _, _, _) := take_number take unit c s in 0 <= v.
Proof.
  intros Ht. unfold take_number. pose proof (Ht s 0 0 ltac:(lia) ltac:(lia)) as H1.
  destruct (take s 0 0) as [[v n] s1]. destruct s1 as [|b s1].
  - destruct (n + 0 =? 0); [lia|]. destruct (take_exp _ _). lia.
  - destruct (bz b =? 46).
    + pose proof (Ht s1 v 0 ltac:(lia) ltac:(lia)) as H2. destruct (take s1 v 0) as [[v2 k] s2].
      destruct (n + k =? 0); [destruct (n + 0 =? 0)|destruct (n + k =? 0)]; try lia;
        destruct (take_exp _ _); lia.
    + destruct (n + 0 =? 0); [lia|]. destruct (take_exp _ _). lia.
Qed.

Lemma dbl_scale_range v base ex : 0 <= v -> 0 < base -> 0 <= dbl_scale v base ex <= dbl_inf.
Proof.
  intros Hv Hb. unfold dbl_scale. destruct (Z.leb_spec 0 ex).
  - apply dbl_round_range; [|lia]. apply Z.mul_nonneg_nonneg; [done|]. apply Z.pow_nonneg. lia.
  - apply dbl_round_range; [done|]. apply Z.pow_pos_nonneg; lia.
Qed.

Lemma strtod_range s : 0 <= (strtod s).1 < 2 ^ 64.
Proof.
  assert (Hs : forall neg mag, 0 <= mag <= dbl_nan -> 0 <= dbl_signed neg mag < 2 ^ 64).
  { intros [] mag H; unfold dbl_signed, dbl_nan in *; lia. }
  assert (Hsc : forall neg v base ex, 0 <= v -> 0 < base -> 0 <= dbl_signed neg (dbl_scale v base ex) < 2 ^ 64).
  { intros neg v base ex Hv Hb. apply Hs. pose proof (dbl_scale_range v base ex Hv Hb).
    unfold dbl_inf, dbl_nan in *. lia. }
  unfold strtod. destruct (take_sign _) as [neg s1].
  destruct (take_word word_inf s1) as [s2|]; [cbn; apply Hs; unfold dbl_inf, dbl_nan; lia|].
  destruct (take_word word_nan s1) as [s2|]; [cbn; apply Hs; unfold dbl_nan; lia|].
  assert (Hdec : 0 <= (let '(v, n, ex, s2) := take_number take_digits 1 101 s1 in
    if n =? 0 then (0, s) else (dbl_signed neg (dbl_scale v 10 ex), s2)).1 < 2 ^ 64).
  { pose proof (take_number_nonneg take_digits 1 101 s1 take_digits_nonneg).
    destruct (take_number _ _ _ s1) as [[[v n] ex] s3]. destruct (n =? 0); [cbn; lia|]. cbn [fst].
    apply Hsc; lia. }
  destruct (take_word word_0x s1) as [s2|]; cbn [mbind option_bind]; [|exact Hdec].
  pose proof (take_number_nonneg take_hex 4 112 s2 take_hex_nonneg).
  destruct (take_number _ _ _ s2) as [[[v n] ex] s3]. destruct (n =? 0); [exact Hdec|]. cbn [fst].
  apply Hsc; lia.
Qed.

Lemma str2dbl_ok s d : str2dbl s = Some d -> dbl_isnan d = false /\ 0 <= d < 2 ^ 64.
Proof.
  unfold str2dbl. pose proof (strtod_range s). destruct (strtod s) as [out rest]. cbn [fst] in *.
  destruct rest; [|done]. destruct (dbl_isnan out) eqn:E; [done|]. by intros [= <-].
Qed.

(** ** Decimal text *)

(** [std::to_string]: the decimal text of a number; [fuel] bounds its binary digits. *)
Fixpoint dec_digits (fuel : nat) (z : Z) : list byte :=
  match fuel with
  | O => [zb (48 + z)]
  | S fuel => if z <? 10 then [zb (48 + z)] else dec_digits fuel (z / 10) ++ [zb (48 + z mod 10)]
  end.

Definition dec_text (z : Z) : list byte :=
  let digits := dec_digits (S (Z.to_nat (Z.log2 (Z.abs z)))) (Z.abs z) in
  if z <? 0 then zb 45 :: digits else digits.

Lemma digit_byte d : 0 <= d < 10 -> bz (zb (48 + d)) = 48 + d /\ isdigit (zb (48 + d)) = true.
Proof.
  intros Hd. assert (E : bz (zb (48 + d)) = 48 + d) by (rewrite bz_zb; apply Z.mod_small; lia).
  split; [done|]. unfold isdigit. rewrite E. apply andb_true_iff. split; apply Z.leb_le; lia.
Qed.

Lemma digit_head d :
  0 <= d < 10 -> isspace (zb (48 + d)) = false /\ bz (zb (48 + d)) <> 45 /\ bz (zb (48 + d)) <> 43.
Proof.
  intros Hd. destruct (digit_byte d Hd) as [E _]. unfold isspace. rewrite E. split; [|lia].
  apply orb_false_iff. split; [apply Z.eqb_neq; lia|]. apply andb_false_iff. right. apply Z.leb_gt. lia.
Qed.

Lemma take_digits_dec fuel : forall z acc n rest,
  0 <= z < 2 ^ Z.of_nat fuel ->
  take_digits (dec_digits fuel z ++ rest) acc n =
    take_digits rest (acc * 10 ^ zlen (dec_digits fuel z) + z) (n + zlen (dec_digits fuel z)).
Proof.
  assert (Hone : forall z acc n rest, 0 <= z < 10 ->
    take_digits ([zb (48 + z)] ++ rest) acc n = take_digits rest (acc * 10 ^ 1 + z) (n + 1)).
  { intros z acc n rest Hz. destruct (digit_byte z Hz) as [E1 E2]. cbn [app take_digits]. rewrite E2, E1. f_equal. lia. }
  induction fuel as [|fuel IH]; intros z acc n rest Hz; cbn [dec_digits].
  - apply Hone. cbn in Hz. lia.
  - destruct (Z.ltb_spec z 10) as [Hlt|Hge]; [apply Hone; lia|].
    rewrite <- app_assoc. rewrite Nat2Z.inj_succ, Z.pow_succ_r in Hz by lia.
    pose proof (Z.mod_pos_bound z 10 ltac:(lia)) as Hm. pose proof (Z.div_mod z 10 ltac:(lia)) as Hdm.
    rewrite IH by (split; [apply Z.div_pos; lia|]; pose proof (Z.div_le_mono z (10 * 2 ^ Z.of_nat fuel - 1) 10); nia).
    rewrite Hone, zlen_app by lia. change (zlen [zb (48 + z mod 10)]) with 1.
    rewrite Z.pow_add_r by (try apply zlen_nonneg; lia). f_equal; [|lia].
    generalize (10 ^ zlen (dec_digits fuel (z / 10))). intros P. change (10 ^ 1) with 10. nia.
Qed.

Lemma dec_digits_head fuel z : 0 <= z ->
  exists b s, dec_digits fuel z = b :: s /\ isspace b = false /\ bz b <> 45 /\ bz b <> 43 \/ z >= 2 ^ Z.of_nat fuel.
Proof.
  revert z. induction fuel as [|fuel IH]; intros z Hz; cbn [dec_digits].
  - destruct (Z.ltb_spec z 10) as [Hlt|Hge]; [|exists Byte.x00, []; right; cbn; lia].
    exists (zb (48 + z)), []. left. split; [done|]. by apply digit_head.
  - destruct (Z.ltb_spec z 10) as [Hlt|Hge].
    + exists (zb (48 + z)), []. left. split; [done|]. by apply digit_head.
    + destruct (IH (z / 10)) as (b & s & [(-> & H)|Hbig]); [by apply Z.div_pos; lia| |].
      * exists b, (s ++ [zb (48 + z mod 10)]). by left.
      * exists Byte.x00, []. right. rewrite Nat2Z.inj_succ, Z.pow_succ_r by lia.
        pose proof (Z.mul_div_le z 10). lia.
Qed.

(** What every parser sees of the text of a number that is not negative. *)
Lemma dec_text_digits z : 0 <= z ->
  exists fuel, dec_text z = dec_digits fuel z /\ 0 <= z < 2 ^ Z.of_nat fuel /\ Z.of_nat fuel <= Z.log2 z + 1.
Proof.
  intros Hz. unfold dec_text. rewrite Z.abs_eq by done. destruct (Z.ltb_spec z 0); [lia|].
  pose proof (Z.log2_nonneg z). eexists. split; [done|]. rewrite Nat2Z.inj_succ, Z2Nat.id by done.
  split; [|lia]. split; [done|]. destruct (Z.eq_dec z 0) as [->|Hne]; [done|]. apply Z.log2_spec. lia.
Qed.

Lemma take_digits_text z acc n rest : 0 <= z ->
  take_digits (dec_text z ++ rest) acc n =
    take_digits rest (acc * 10 ^ zlen (dec_text z) + z) (n + zlen (dec_text z)).
Proof. intros Hz. destruct (dec_text_digits z Hz) as (fuel & -> & Hf & _). by apply take_digits_dec. Qed.

Lemma dec_text_head z : 0 <= z ->
  exists b s, dec_text z = b :: s /\ isspace b = false /\ bz b <> 45 /\ bz b <> 43.
Proof.
  intros Hz. destruct (dec_text_digits z Hz) as (fuel & -> & Hf & _).
  destruct (dec_digits_head fuel z Hz) as (b & s & [H|H]); [by exists b, s|lia].
Qed.

Lemma dec_text_inj i j : 0 <= i -> 0 <= j -> dec_text i = dec_text j -> i = j.
Proof.
  intros Hi Hj E. pose proof (take_digits_text i 0 0 [] Hi) as H1. pose proof (take_digits_text j 0 0 [] Hj) as H2.
  rewrite E, H2 in H1. cbn [take_digits] in H1. injection H1. lia.
Qed.

Lemma length_dec_digits fuel : forall z, (length (dec_digits fuel z) <= S fuel)%nat.
Proof.
  induction fuel as [|fuel IH]; intros z; cbn [dec_digits]; [done|]. destruct (z <? 10); [cbn; lia|].
  rewrite length_app. specialize (IH (z / 10)). cbn. lia.
Qed.

Lemma zlen_dec_text z : 0 <= z -> zlen (dec_text z) <= Z.log2 z + 2.
Proof.
  intros Hz. destruct (dec_text_digits z Hz) as (fuel & -> & _ & Hf). unfold zlen.
  pose proof (length_dec_digits fuel z). lia.
Qed.

(** Digits, signs and points come before the letters. *)
Definition no_letter (b : byte) : Prop := bz b < 60.

Lemma dec_digits_no_letter fuel : forall z, 0 <= z < 2 ^ Z.of_nat fuel -> Forall no_letter (dec_digits fuel z).
Proof.
  assert (Hd : forall d, 0 <= d < 10 -> Forall no_letter [zb (48 + d)]).
  { intros d Hd. apply Forall_singleton. unfold no_letter. destruct (digit_byte d Hd) as [-> _]. lia. }
  induction fuel as [|fuel IH]; intros z Hz; cbn [dec_digits]; [apply Hd; cbn in Hz; lia|].
  destruct (Z.ltb_spec z 10); [apply Hd; lia|]. rewrite Nat2Z.inj_succ, Z.pow_succ_r in Hz by lia.
  apply Forall_app. split; [|apply Hd, Z.mod_pos_bound; lia]. apply IH.
  split; [apply Z.div_pos; lia|]. apply Z.div_lt_upper_bound; lia.
Qed.

Lemma take_word_letter w c s : Forall no_letter s -> c ∈ w -> 60 <= c -> take_word w s = None.
Proof.
  intros Hs. revert w. induction Hs as [|b s Hb _ IH]; intros [|d w] Hc H60; try by apply elem_of_nil in Hc.
  { done. }
  cbn [take_word]. destruct (Z.eqb_spec (tolower b) d) as [E|]; [|done].
  apply elem_of_cons in Hc as [->|Hc]; [|by apply IH].
  unfold tolower, no_letter in *. destruct (Z.leb_spec 65 (bz b)); cbn [andb] in E; lia.
Qed.

(** [str2dbl] reads a number written with the fraction [.0]. *)
Lemma str2dbl_point_zero z rest : 0 <= z -> rest = [zb 46; zb 48] ->
  str2dbl (dec_text z ++ rest) = Some (dbl_scale (z * 10) 10 (-1)).
Proof.
  intros Hz ->. destruct (dec_text_head z Hz) as (b & s & E & Hsp & H45 & H43).
  assert (Hnl : Forall no_letter (dec_text z ++ [zb 46; zb 48])).
  { apply Forall_app. split; [|by repeat constructor].
    destruct (dec_text_digits z Hz) as (fuel & -> & Hf & _). by apply dec_digits_no_letter. }
  assert (Hsign : take_sign (skip_space (dec_text z ++ [zb 46; zb 48])) = (false, dec_text z ++ [zb 46; zb 48])).
  { rewrite E. cbn [app skip_space]. rewrite Hsp. cbn [take_sign].
    destruct (Z.eqb_spec (bz b) 45); [done|]. by destruct (Z.eqb_spec (bz b) 43). }
  assert (Hlen : 0 < zlen (dec_text z)) by (rewrite E, zlen_cons; pose proof (zlen_nonneg s); lia).
  unfold str2dbl, strtod. rewrite Hsign. cbv beta iota.
  rewrite (take_word_letter word_inf 105), (take_word_letter word_nan 110), (take_word_letter word_0x 120)
    by (try done; set_solver). cbn [mbind option_bind].
  unfold take_number. rewrite take_digits_text by done. cbn [take_digits].
  change (isdigit (zb 46)) with false. cbv beta iota. change (bz (zb 46) =? 46) with true. cbv beta iota.
  change (take_digits [zb 48]) with (fun acc n : Z => (acc * 10 + 0, n + 1, @nil byte)). cbv beta iota.
  assert ((0 + zlen (dec_text z) + (0 + 1) =? 0) = false) as Hne by (apply Z.eqb_neq; lia).
  rewrite !Hne. cbn [take_exp]. rewrite !Hne. cbn [dbl_signed].
  replace ((0 * 10 ^ zlen (dec_text z) + z) * 10 + 0) with (z * 10) by lia.
  change (0 - (0 + 1) * 1) with (-1).
  pose proof (dbl_scale_range (z * 10) 10 (-1) ltac:(lia) ltac:(lia)) as Hr. set (d := dbl_scale _ _ _) in *.
  assert (dbl_isnan d = false) as ->; [|done]. unfold dbl_isnan, dbl_mag, dbl_inf in *. apply Z.ltb_ge.
  rewrite ?Z.mod_small by lia. lia.
Qed.
