(* ===== verification/Server.v ===== *)
(** * server.cpp, the database: entries, timers and commands

    The fields of an [Entry] live in three stores at one address: its hash
    node, its [heap_idx], and the rest.  [gdata] is the part of [g_data] the
    commands use.  A command takes the clock reading [now], appends its reply
    to the output buffer, and is [None] where the code would be undefined. *)

From Stdlib Require Import (notations) String.
From S2P Require Import Prelude Common Hashtable Heap Avl Zset Wire Numeric.
Local Open Scope Z_scope.

(** Value types. *)
Definition T_INIT : Z := 0.
Definition T_STR : Z := 1.
Definition T_ZSET : Z := 2.

Record Entry := mkEntry {
  ekey : list byte;
  etype : Z;
  estr : list byte;
  ezset : ZSet
}.

Record gdata := mkG {
  db : HMap;                  (* top-level hashtable *)
  dbnodes : hmem;             (* Entry::node, and the arrays of [db] *)
  entries : gmap ptr Entry;
  heap_idx : refmem;          (* Entry::heap_idx *)
  heap : list HeapItem;
  zs : zstore                 (* the nodes and arrays of the sorted sets *)
}.

(** [g_data] before the first command. *)
Definition gdata_init : gdata := mkG hmap_null ∅ ∅ ∅ [] (mkZstore ∅ ∅ ∅).

Definition with_db (h : hmem) (hm : HMap) (g : gdata) : gdata :=
  mkG hm h (entries g) (heap_idx g) (heap g) (zs g).
Definition with_heap (a : list HeapItem) (refs : refmem) (g : gdata) : gdata :=
  mkG (db g) (dbnodes g) (entries g) refs a (zs g).
Definition with_entry (p : ptr) (e : Entry) (g : gdata) : gdata :=
  mkG (db g) (dbnodes g) (<[p := e]> (entries g)) (heap_idx g) (heap g) (zs g).
Definition with_zs (z : zstore) (g : gdata) : gdata :=
  mkG (db g) (dbnodes g) (entries g) (heap_idx g) (heap g) z.

Definition set_estr (s : list byte) (e : Entry) : Entry := mkEntry (ekey e) (etype e) s (ezset e).
Definition set_ezset (x : ZSet) (e : Entry) : Entry := mkEntry (ekey e) (etype e) (estr e) x.

(** ** Entries *)

(** The address [new Entry()] returns. *)
Definition entry_alloc (g : gdata) : ptr :=
  fresh (dom (hm_nodes (dbnodes g)) ∪ dom (entries g) ∪ dom (heap_idx g)).

(** [entry_new(type)], then the assignments of its key and hash code. *)
Definition entry_new (g : gdata) (type : Z) (key : list byte) (hcode : Z) : gdata * ptr :=
  let ent := entry_alloc g in
  (mkG (db g) (with_nodes (dbnodes g) (<[ent := mkHNode NULL hcode]> (hm_nodes (dbnodes g))))
     (<[ent := mkEntry key type [] zset_null]> (entries g))
     (<[ent := size_max]> (heap_idx g)) (heap g) (zs g), ent).

(** [delete ent] *)
Definition entry_free (g : gdata) (ent : ptr) : gdata :=
  mkG (db g) (with_nodes (dbnodes g) (delete ent (hm_nodes (dbnodes g)))) (delete ent (entries g))
    (delete ent (heap_idx g)) (heap g) (zs g).

Definition entry_del (g : gdata) (ent : ptr) : option gdata :=
  (* remove from the TTL heap if it has a timer *)
  idx ← heap_idx g !! ent;
  g ← (if negb (idx =? size_max) then
         '(a, refs) ← heap_delete (heap g) (heap_idx g) idx;
         refs ← store_upd refs ent (fun _ => size_max);
         Some (with_heap a refs g)
       else Some g);
  e ← entries g !! ent;
  g ← (if etype e =? T_ZSET then
         '(z, x) ← zset_clear (zs g) (ezset e);
         Some (with_zs z (with_entry ent (set_ezset x e) g))
       else Some g);
  Some (entry_free g ent).

Definition entry_set_ttl (now : Z) (g : gdata) (ent : ptr) (ttl_ms : Z) : option gdata :=
  idx ← heap_idx g !! ent;
  if (ttl_ms <? 0) && negb (idx =? size_max) then
    (* a negative TTL means "remove the timer" *)
    '(a, refs) ← heap_delete (heap g) (heap_idx g) idx;
    refs ← store_upd refs ent (fun _ => size_max);
    Some (with_heap a refs g)
  else if 0 <=? ttl_ms then
    (* add or update the timer in the heap *)
    let expire_at := u64 (now + u64 ttl_ms) in
    '(a, refs) ← heap_upsert (heap g) (heap_idx g) idx (mkHeapItem expire_at (Some ent));
    Some (with_heap a refs g)
  else Some g.

(** Equality comparison for the top-level hashtable. *)
Definition entry_eq (g : gdata) (key : list byte) (node : ptr) : option bool :=
  ent ← entries g !! node; Some (bool_decide (ekey ent = key)).

(** The lookup every command starts with: a [LookupKey] with the hash code of
    the key, and [hm_lookup]. *)
Definition lookup_entry (g : gdata) (key : list byte) : option (gdata * option ptr) :=
  '(h, hm, node) ← hm_lookup (dbnodes g) (db g) (str_hash key) (entry_eq g key);
  Some (with_db h hm g, node).

(** Inserts a new entry in the database. *)
Definition insert_entry (g : gdata) (type : Z) (key : list byte) : option (gdata * ptr) :=
  let '(g, ent) := entry_new g type key (str_hash key) in
  '(h, hm) ← hm_insert (dbnodes g) (db g) ent;
  Some (with_db h hm g, ent).

(** ** Commands *)

Notation command := (list (list byte)).

(** The texts of the messages. *)
Definition msg_not_string : list byte := String.list_byte_of_string "not a string value".
Definition msg_non_string : list byte := String.list_byte_of_string "a non-string value exists".
Definition msg_int64 : list byte := String.list_byte_of_string "expect int64".
Definition msg_float : list byte := String.list_byte_of_string "expect float".
Definition msg_fp : list byte := String.list_byte_of_string "expect fp number".
Definition msg_int : list byte := String.list_byte_of_string "expect int".
Definition msg_zset : list byte := String.list_byte_of_string "expect zset".
Definition msg_unknown : list byte := String.list_byte_of_string "unknown command.".
Definition msg_too_big : list byte := String.list_byte_of_string "response is too big.".

Definition do_get (g : gdata) (cmd : command) (out : Buffer) : option (gdata * Buffer) :=
  key ← cmd !! 1%nat;
  '(g, node) ← lookup_entry g key;
  match node with
  | None => Some (g, out_nil out)
  | Some ent =>
      e ← entries g !! ent;
      if negb (etype e =? T_STR) then Some (g, out_err out ERR_BAD_TYP msg_not_string)
      else Some (g, out_str out (estr e))
  end.

Definition do_set (g : gdata) (cmd : command) (out : Buffer) : option (gdata * Buffer) :=
  key ← cmd !! 1%nat;
  val ← cmd !! 2%nat;
  '(g, node) ← lookup_entry g key;
  match node with
  | Some ent =>
      (* found, update the value *)
      e ← entries g !! ent;
      if negb (etype e =? T_STR) then Some (g, out_err out ERR_BAD_TYP msg_non_string)
      else Some (with_entry ent (set_estr val e) g, out_nil out)
  | None =>
      (* not found, allocate & insert a new pair *)
      '(g, ent) ← insert_entry g T_STR key;
      e ← entries g !! ent;
      Some (with_entry ent (set_estr val e) g, out_nil out)
  end.

Definition do_del (g : gdata) (cmd : command) (out : Buffer) : option (gdata * Buffer) :=
  key ← cmd !! 1%nat;
  '(h, hm, node) ← hm_delete (dbnodes g) (db g) (str_hash key) (entry_eq g key);
  let g := with_db h hm g in
  match node with
  | Some ent => g ← entry_del g ent; Some (g, out_int out 1)
  | None => Some (g, out_int out 0)
  end.

Definition do_expire (now : Z) (g : gdata) (cmd : command) (out : Buffer) :
    option (gdata * Buffer) :=
  key ← cmd !! 1%nat;
  arg ← cmd !! 2%nat;
  match str2int arg with
  | None => Some (g, out_err out ERR_BAD_ARG msg_int64)
  | Some ttl_ms =>
      '(g, node) ← lookup_entry g key;
      match node with
      | Some ent => g ← entry_set_ttl now g ent ttl_ms; Some (g, out_int out 1)
      | None => Some (g, out_int out 0)
      end
  end.

Definition do_ttl (now : Z) (g : gdata) (cmd : command) (out : Buffer) :
    option (gdata * Buffer) :=
  key ← cmd !! 1%nat;
  '(g, node) ← lookup_entry g key;
  match node with
  | None => Some (g, out_int out (-2))          (* key not found *)
  | Some ent =>
      idx ← heap_idx g !! ent;
      if idx =? size_max then Some (g, out_int out (-1))     (* no TTL set *)
      else
        item ← arr_get (heap g) idx;
        let expire_at := val item in
        Some (g, out_int out (i64 (if now <? expire_at then expire_at - now else 0)))
  end.

(** The callback of [do_keys] appends the key to the buffer. *)
Definition cb_keys (g : gdata) (node : ptr) (out : Buffer) : option (bool * Buffer) :=
  e ← entries g !! node; Some (true, out_str out (ekey e)).

Definition do_keys (g : gdata) (out : Buffer) : option (gdata * Buffer) :=
  let out := out_arr out (u32 (hm_size (db g))) in
  out ← hm_foreach (cb_keys g) (dbnodes g) (db g) out;
  Some (g, out).

(** Stores the sorted set of an entry back after an operation on it. *)
Definition put_zset (g : gdata) (ent : ptr) (z : zstore) (x : ZSet) : option gdata :=
  e ← entries g !! ent; Some (with_zs z (with_entry ent (set_ezset x e) g)).

Definition do_zadd (g : gdata) (cmd : command) (out : Buffer) : option (gdata * Buffer) :=
  key ← cmd !! 1%nat;
  arg ← cmd !! 2%nat;
  name ← cmd !! 3%nat;
  match str2dbl arg with
  | None => Some (g, out_err out ERR_BAD_ARG msg_float)
  | Some score =>
      (* look up or create the zset *)
      '(g, hnode) ← lookup_entry g key;
      '(g, ent) ←
        (match hnode with
         | None => '(g, ent) ← insert_entry g T_ZSET key; Some (g, Some ent)
         | Some ent =>
             e ← entries g !! ent;
             if negb (etype e =? T_ZSET) then Some (g, None) else Some (g, Some ent)
         end);
      match ent with
      | None => Some (g, out_err out ERR_BAD_TYP msg_zset)
      | Some ent =>
          (* add or update the tuple *)
          e ← entries g !! ent;
          '(z, x, added) ← zset_insert (zs g) (ezset e) name score;
          g ← put_zset g ent z x;
          Some (g, out_int out (if (added : bool) then 1 else 0))
      end
  end.

(** A [ZSet *]: [k_empty_zset], or the sorted set of an entry. *)
Inductive zref :=
  | ZEmpty
  | ZEntry (ent : ptr).

Definition expect_zset (g : gdata) (s : list byte) : option (gdata * option zref) :=
  '(g, hnode) ← lookup_entry g s;
  match hnode with
  | None => Some (g, Some ZEmpty)       (* a non-existent key is an empty zset *)
  | Some ent =>
      e ← entries g !! ent;
      Some (g, if etype e =? T_ZSET then Some (ZEntry ent) else None)
  end.

#[export] Instance HTab_eq_decision : EqDecision HTab.
Proof. solve_decision. Defined.
#[export] Instance HMap_eq_decision : EqDecision HMap.
Proof. solve_decision. Defined.
#[export] Instance ZSet_eq_decision : EqDecision ZSet.
Proof. solve_decision. Defined.

Definition zref_get (g : gdata) (r : zref) : option ZSet :=
  match r with
  | ZEmpty => Some zset_null
  | ZEntry ent => e ← entries g !! ent; Some (ezset e)
  end.

(** [k_empty_zset] is constant: writing to it would be undefined. *)
Definition zref_put (g : gdata) (r : zref) (z : zstore) (x : ZSet) : option gdata :=
  match r with
  | ZEmpty => guard (x = zset_null);; Some (with_zs z g)
  | ZEntry ent => put_zset g ent z x
  end.

(** [zset_lookup] in the set a command expects. *)
Definition lookup_znode (g : gdata) (r : zref) (name : list byte) : option (gdata * option ptr) :=
  x ← zref_get g r;
  '(z, x, znode) ← zset_lookup (zs g) x name;
  g ← zref_put g r z x;
  Some (g, znode).

Definition do_zrem (g : gdata) (cmd : command) (out : Buffer) : option (gdata * Buffer) :=
  key ← cmd !! 1%nat;
  name ← cmd !! 2%nat;
  '(g, zset) ← expect_zset g key;
  match zset with
  | None => Some (g, out_err out ERR_BAD_TYP msg_zset)
  | Some r =>
      '(g, znode) ← lookup_znode g r name;
      match znode with
      | Some znode =>
          x ← zref_get g r;
          '(z, x) ← zset_delete (zs g) x znode;
          g ← zref_put g r z x;
          Some (g, out_int out 1)
      | None => Some (g, out_int out 0)
      end
  end.

Definition do_zscore (g : gdata) (cmd : command) (out : Buffer) : option (gdata * Buffer) :=
  key ← cmd !! 1%nat;
  name ← cmd !! 2%nat;
  '(g, zset) ← expect_zset g key;
  match zset with
  | None => Some (g, out_err out ERR_BAD_TYP msg_zset)
  | Some r =>
      '(g, znode) ← lookup_znode g r name;
      match znode with
      | Some znode => d ← zdata (zs g) !! znode; Some (g, out_dbl out (score d))
      | None => Some (g, out_nil out)
      end
  end.

(** [while (znode && n < limit)]; the walk visits every node at most once. *)
Fixpoint zquery_loop (fuel : nat) (z : zstore) (znode : option ptr) (n limit : Z) (out : Buffer) :
    option (Z * Buffer) :=
  match znode with
  | None => Some (n, out)
  | Some p =>
      if n <? limit then
        match fuel with
        | O => None
        | S fuel =>
            d ← zdata z !! p;
            let out := out_str out (name d) in
            let out := out_dbl out (score d) in
            next ← znode_offset z (Some p) 1;
            zquery_loop fuel z next (i64 (n + 2)) limit out
        end
      else Some (n, out)
  end.

Definition do_zquery (g : gdata) (cmd : command) (out : Buffer) : option (gdata * Buffer) :=
  key ← cmd !! 1%nat;
  arg_score ← cmd !! 2%nat;
  name ← cmd !! 3%nat;
  arg_offset ← cmd !! 4%nat;
  arg_limit ← cmd !! 5%nat;
  match str2dbl arg_score with
  | None => Some (g, out_err out ERR_BAD_ARG msg_fp)
  | Some score =>
  match str2int arg_offset, str2int arg_limit with
  | Some offset, Some limit =>
      '(g, zset) ← expect_zset g key;
      match zset with
      | None => Some (g, out_err out ERR_BAD_TYP msg_zset)
      | Some r =>
          if limit <=? 0 then Some (g, out_arr out 0)
          else
            (* seek to the key *)
            x ← zref_get g r;
            znode ← zset_seekge (zs g) x score name;
            znode ← znode_offset (zs g) znode offset;
            (* output *)
            let '(out, ctx) := out_begin_arr out in
            '(n, out) ← zquery_loop (size (trees (zs g))) (zs g) znode 0 limit out;
            out ← out_end_arr out ctx (u32 n);
            Some (g, out)
      end
  | _, _ => Some (g, out_err out ERR_BAD_ARG msg_int)
  end end.

(** The names of the commands. *)
Definition cmd_get : list byte := String.list_byte_of_string "get".
Definition cmd_set : list byte := String.list_byte_of_string "set".
Definition cmd_del : list byte := String.list_byte_of_string "del".
Definition cmd_keys : list byte := String.list_byte_of_string "keys".
Definition cmd_zadd : list byte := String.list_byte_of_string "zadd".
Definition cmd_zrem : list byte := String.list_byte_of_string "zrem".
Definition cmd_zscore : list byte := String.list_byte_of_string "zscore".
Definition cmd_zquery : list byte := String.list_byte_of_string "zquery".
Definition cmd_pexpire : list byte := String.list_byte_of_string "pexpire".
Definition cmd_pttl : list byte := String.list_byte_of_string "pttl".

(** [cmd.size() == n && cmd[0] == name] *)
Definition is_cmd (cmd : command) (n : nat) (name : list byte) : bool :=
  bool_decide (length cmd = n) && bool_decide (cmd !! 0%nat = Some name).

Definition do_request (now : Z) (g : gdata) (cmd : command) (out : Buffer) :
    option (gdata * Buffer) :=
  if is_cmd cmd 2 cmd_get then do_get g cmd out
  else if is_cmd cmd 3 cmd_set then do_set g cmd out
  else if is_cmd cmd 2 cmd_del then do_del g cmd out
  else if is_cmd cmd 1 cmd_keys then do_keys g out
  else if is_cmd cmd 4 cmd_zadd then do_zadd g cmd out
  else if is_cmd cmd 3 cmd_zrem then do_zrem g cmd out
  else if is_cmd cmd 3 cmd_zscore then do_zscore g cmd out
  else if is_cmd cmd 6 cmd_zquery then do_zquery g cmd out
  else if is_cmd cmd 2 cmd_del then do_del g cmd out
  else if is_cmd cmd 3 cmd_pexpire then do_expire now g cmd out
  else if is_cmd cmd 2 cmd_pttl then do_ttl now g cmd out
  else Some (g, out_err out ERR_UNKNOWN msg_unknown).

(** ** Expiration of keys *)

Definition k_max_works : Z := 2000.

(** The callback that compares the addresses of two nodes. *)
Definition hnode_same (key node : ptr) : option bool := Some (bool_decide (node = key)).

(** The second loop of [process_timers]: an entry whose [heap_idx] the root of
    the heap refers to is deleted.  [fuel] counts the iterations. *)
Fixpoint expire_loop (fuel : nat) (now nworks : Z) (g : gdata) : option gdata :=
  match heap g with
  | [] => Some g
  | item :: _ =>
      if val item <? now then
        match fuel with
        | O => None
        | S fuel =>
            ent ← ref item;                     (* container_of(heap[0].ref, ...) *)
            n ← hm_nodes (dbnodes g) !! ent;
            '(h, hm, node) ← hm_delete (dbnodes g) (db g) (hcode n) (hnode_same ent);
            let g := with_db h hm g in
            match node with
            | None =>
                (* the key was already missing *)
                refs ← store_upd (heap_idx g) ent (fun _ => size_max);
                g ← entry_del (with_heap (heap g) refs g) ent;
                expire_loop fuel now nworks g
            | Some _ =>
                g ← entry_del g ent;
                if k_max_works <=? nworks then Some g
                else expire_loop fuel now (nworks + 1) g
            end
        end
      else Some g
  end.

(** Every iteration removes a timer. *)
Definition process_timers_keys (now : Z) (g : gdata) : option gdata :=
  expire_loop (length (heap g)) now 0 g.
