(* ===== verification/Spec.v ===== *)
(** * The abstract database: what the commands promise

    A database maps keys to values with an optional expiration time; a sorted
    set is a sorted list of (score, name) tuples with distinct names.  The
    commands are functions on it; ZsetProofs and ServerProofs show that the
    server refines them. *)

From Stdlib Require Import (notations) String.
From S2P Require Import Prelude Common Numeric Wire Server.
Local Open Scope Z_scope.

(** ** The abstract set: a sorted list of tuples with distinct names *)

(** Adds a tuple at its place. *)
Fixpoint zput (t : tuple) (l : list tuple) : list tuple :=
  match l with
  | [] => [t]
  | u :: l => if tuple_ltb u t then u :: zput t l else t :: u :: l
  end.

(** Removes the tuple of a name. *)
Definition zdel (nm : list byte) (l : list tuple) : list tuple :=
  filter (fun t => t.2 <> nm) l.

Definition zfind (nm : list byte) (l : list tuple) : option tuple :=
  head (filter (fun t => t.2 = nm) l).

(** ZADD on the abstract set: a score equal to the old one changes nothing. *)
Definition zadd (sc : Z) (nm : list byte) (l : list tuple) : list tuple :=
  match zfind nm l with
  | Some t => if dbl_eqb t.1 sc then l else zput (sc, nm) (zdel nm l)
  | None => zput (sc, nm) l
  end.

(** The names of a set. *)
Definition znames (l : list tuple) : list (list byte) := l.*2.

(** ZQUERY: from the first tuple that is not below the key, [offset] tuples
    further, one tuple per two units of [limit]. *)
Definition zrange (key : tuple) (offset limit : Z) (l : list tuple) : list tuple :=
  match filter (fun t => tuple_ltb t key = false) l with
  | [] => []
  | u =>
      let start := zlen l - zlen u + offset in
      if decide (0 <= start < zlen l)
      then take (Z.to_nat ((limit + 1) / 2)) (drop (Z.to_nat start) l)
      else []
  end.

(** ** The database *)

Notation key := (list byte).

Inductive aval :=
  | AStr (s : list byte)
  | AZset (l : list tuple).

(** A value and the time it expires. *)
Record arec := mkArec { a_val : aval; a_ttl : option Z }.

Notation adb := (gmap key arec).

Inductive acmd :=
  | CGet (k : key)
  | CSet (k : key) (v : list byte)
  | CDel (k : key)
  | CKeys
  | CZadd (k : key) (score name : list byte)
  | CZrem (k : key) (name : list byte)
  | CZscore (k : key) (name : list byte)
  | CZquery (k : key) (score name offset limit : list byte)
  | CPexpire (k : key) (ttl : list byte)
  | CPttl (k : key)
  | CUnknown.

(** The command of a request: its name and its number of arguments. *)
Definition decode_cmd (cmd : command) : acmd :=
  match cmd with
  | [c] => if decide (c = cmd_keys) then CKeys else CUnknown
  | [c; k] =>
      if decide (c = cmd_get) then CGet k
      else if decide (c = cmd_del) then CDel k
      else if decide (c = cmd_pttl) then CPttl k else CUnknown
  | [c; k; a] =>
      if decide (c = cmd_set) then CSet k a
      else if decide (c = cmd_zrem) then CZrem k a
      else if decide (c = cmd_zscore) then CZscore k a
      else if decide (c = cmd_pexpire) then CPexpire k a else CUnknown
  | [c; k; a; b] => if decide (c = cmd_zadd) then CZadd k a b else CUnknown
  | [c; k; a; b; x; y] => if decide (c = cmd_zquery) then CZquery k a b x y else CUnknown
  | _ => CUnknown
  end.

Definition err_type (msg : list byte) : value := VErr ERR_BAD_TYP msg.
Definition err_arg (msg : list byte) : value := VErr ERR_BAD_ARG msg.

Definition vbool (b : bool) : value := VInt (if b then 1 else 0).

(** The sorted set a command works on: a missing key is an empty set. *)
Definition get_zset (D : adb) (k : key) : option (list tuple) :=
  match D !! k with
  | None => Some []
  | Some (mkArec (AZset l) _) => Some l
  | Some (mkArec (AStr _) _) => None
  end.

Definition set_val (v : aval) (r : arec) : arec := mkArec v (a_ttl r).
Definition set_ttl (t : option Z) (r : arec) : arec := mkArec (a_val r) t.

(** The new database and the reply of every command but KEYS. *)
Definition spec_cmd (now : Z) (D : adb) (c : acmd) : adb * value :=
  match c with
  | CGet k =>
      (D, match D !! k with
          | None => VNil
          | Some (mkArec (AStr s) _) => VStr s
          | Some (mkArec (AZset _) _) => err_type msg_not_string
          end)
  | CSet k v =>
      match D !! k with
      | None => (<[k := mkArec (AStr v) None]> D, VNil)
      | Some (mkArec (AStr _) t) => (<[k := mkArec (AStr v) t]> D, VNil)
      | Some (mkArec (AZset _) _) => (D, err_type msg_non_string)
      end
  | CDel k => (delete k D, vbool (bool_decide (is_Some (D !! k))))
  | CKeys => (D, VNil)
  | CZadd k sc nm =>
      match str2dbl sc with
      | None => (D, err_arg msg_float)
      | Some sc =>
          match D !! k with
          | None => (<[k := mkArec (AZset (zadd sc nm [])) None]> D, vbool true)
          | Some (mkArec (AZset l) t) =>
              (<[k := mkArec (AZset (zadd sc nm l)) t]> D, vbool (bool_decide (nm ∉ znames l)))
          | Some (mkArec (AStr _) _) => (D, err_type msg_zset)
          end
      end
  | CZrem k nm =>
      match D !! k with
      | None => (D, vbool false)
      | Some (mkArec (AZset l) t) =>
          (<[k := mkArec (AZset (zdel nm l)) t]> D, vbool (bool_decide (nm ∈ znames l)))
      | Some (mkArec (AStr _) _) => (D, err_type msg_zset)
      end
  | CZscore k nm =>
      (D, match get_zset D k with
          | None => err_type msg_zset
          | Some l => match zfind nm l with Some t => VDbl t.1 | None => VNil end
          end)
  | CZquery k sc nm off lim =>
      (D, match str2dbl sc, str2int off, str2int lim with
          | None, _, _ => err_arg msg_fp
          | Some sc, Some off, Some lim =>
              match get_zset D k with
              | None => err_type msg_zset
              | Some l => VArr (flat_map (fun t => [VStr t.2; VDbl t.1]) (zrange (sc, nm) off lim l))
              end
          | Some _, _, _ => err_arg msg_int
          end)
  | CPexpire k ttl =>
      match str2int ttl with
      | None => (D, err_arg msg_int64)
      | Some ttl =>
          match D !! k with
          | None => (D, vbool false)
          | Some r =>
              (<[k := set_ttl (if ttl <? 0 then None else Some (u64 (now + ttl))) r]> D, vbool true)
          end
      end
  | CPttl k =>
      (D, VInt (match D !! k with
                | None => -2
                | Some (mkArec _ None) => -1
                | Some (mkArec _ (Some t)) => i64 (Z.max 0 (t - now))
                end))
  | CUnknown => (D, VErr ERR_UNKNOWN msg_unknown)
  end.

(** The reply of KEYS lists the keys in some order. *)
Definition spec_reply (now : Z) (D : adb) (c : acmd) (v : value) : Prop :=
  match c with
  | CKeys => exists ks, v = VArr (map VStr ks) /\ ks ≡ₚ (map_to_list D).*1
  | _ => v = (spec_cmd now D c).2
  end.

(** The effect of expiration at [now] when no limit is reached: the keys whose
    time is past are gone. *)
Definition expired (now : Z) (r : arec) : bool :=
  match a_ttl r with Some t => t <? now | None => false end.
