(* ===== verification/ZsetProofs.v ===== *)
(** * zset.cpp keeps a set of (score, name) tuples, sorted and indexed by name

    [ztree] relates the AVL side of a sorted set to an abstract tree whose
    nodes are sorted by tuple; [zset_rep] adds the hash index.  The abstract
    value of a set is the list of its tuples ([zview]). *)

From Stdlib Require Import Sorting.Sorted.
From S2P Require Import Prelude Common Avl AvlTree AvlProofs Hashtable HashtableProofs KeyedNodes Zset Spec.
Local Open Scope Z_scope.

Implicit Types (z : zstore) (zs : ZSet) (T : tree).

(** The tuple of a node. *)
Definition tup z (p : ptr) : tuple := from_option (fun d => (score d, name d)) (0, []) (zdata z !! p).

Definition zview z (l : list ptr) : list tuple := tup z <$> l.

Definition tlt (a b : tuple) : Prop := tuple_ltb a b = true.

#[export] Instance tlt_trans : Transitive tlt.
Proof. intros a b c. apply tuple_ltb_trans. Qed.

#[export] Instance tlt_irrefl : Irreflexive tlt.
Proof. intros a. unfold complement, tlt. by rewrite tuple_ltb_irrefl. Qed.

(** A node with a name and a number for a score. *)
Definition zlive z (p : ptr) : Prop :=
  exists d, zdata z !! p = Some d /\ dbl_isnan (score d) = false.

Lemma zless_spec z p sc nm :
  zlive z p -> dbl_isnan sc = false -> zless z p sc nm = Some (tuple_ltb (tup z p) (sc, nm)).
Proof.
  intros (d & Hd & Hn) Hs. unfold zless, tup, tuple_ltb. rewrite Hd. cbn [mbind option_bind from_option fst snd].
  unfold dbl_eqb, dbl_ltb. rewrite Hn, Hs. cbn [negb andb].
  destruct (dbl_key (score d) =? dbl_key sc); [|done]. cbn [negb].
  destruct (memcmp_lex (name d) nm) as (rv & Hm & Hl). rewrite Hm. cbn [mbind option_bind].
  rewrite <- Hl. by destruct (negb (rv =? 0)).
Qed.

Lemma zless_node_spec z p q :
  zlive z p -> zlive z q -> zless_node z p q = Some (tuple_ltb (tup z p) (tup z q)).
Proof.
  intros Hp Hq. unfold zless_node. pose proof Hq as (d & Hd & Hn).
  rewrite Hd. cbn [mbind option_bind]. rewrite zless_spec by done. unfold tup at 3. by rewrite Hd.
Qed.

(** ** The tree side *)

Record ztree z (r : option ptr) T : Prop := {
  zt_rep : tree_rep (trees z) None T;
  zt_root : r = root T;
  zt_balanced : balanced T;
  zt_nodup : NoDup (inorder T);
  zt_live : forall p, p ∈ inorder T -> zlive z p;
  zt_sorted : StronglySorted tlt (zview z (inorder T));
  zt_size : tsize T < 2 ^ 32 - 1
}.

Lemma zview_app z l k : zview z (l ++ k) = zview z l ++ zview z k.
Proof. apply fmap_app. Qed.

Lemma zview_cons z p l : zview z (p :: l) = tup z p :: zview z l.
Proof. done. Qed.

Lemma elem_of_zview z l t : t ∈ zview z l <-> exists p, p ∈ l /\ t = tup z p.
Proof. unfold zview. rewrite list_elem_of_fmap. naive_solver. Qed.

(** ** Searching *)

Lemma aloc_read_spec m c t :
  ctx_rep m c (root t) -> aloc_read m (root (plug c t)) (ctx_slot c) = Some (root t).
Proof.
  destruct c as [|f c]; [done|]. intros [Hf _].
  destruct f; destruct Hf as ((h & n & Hi) & _); simpl; by rewrite Hi.
Qed.

(** The search ends in the leaf between the smaller and the greater nodes. *)
Lemma tree_search_spec z node t : forall c fuel,
  tree_rep (trees z) None (plug c t) ->
  (forall p, p ∈ inorder t -> zlive z p) -> zlive z node ->
  StronglySorted tlt (zview z (inorder t)) -> (length (inorder t) <= fuel)%nat ->
  exists c', tree_search fuel z (root (plug c t)) node (ctx_par c) (ctx_slot c) =
      Some (ctx_par c', ctx_slot c') /\ plug c t = plug c' Leaf /\
    exists a b, before c' = before c ++ a /\ after c' = b ++ after c /\
      (forall p, p ∈ a -> ~ tlt (tup z node) (tup z p)) /\ (forall p, p ∈ b -> tlt (tup z node) (tup z p)).
Proof.
  induction t as [|l IHl i r IHr]; intros c fuel Hrep Hlive Hnode Hsort Hfuel;
    pose proof (proj1 (tree_rep_plug _ _ _) Hrep) as (Ht & Hc%ctx_exact_rep).
  - exists c. pose proof (aloc_read_spec _ _ _ Hc) as Hr. split; [|split; [done|]].
    + destruct fuel; cbn [tree_search]; rewrite Hr; done.
    + exists [], []. rewrite app_nil_r. split_and!; [done..|set_solver|set_solver].
  - cbn [inorder] in Hlive, Hsort, Hfuel. rewrite length_app in Hfuel. cbn [length] in Hfuel.
    destruct fuel as [|fuel]; [lia|]. cbn [tree_search]. rewrite (aloc_read_spec _ _ _ Hc).
    cbn [root mbind option_bind]. rewrite zless_node_spec by (done || (apply Hlive; set_solver)).
    cbn [mbind option_bind]. rewrite zview_app in Hsort. change (zview z (i :: inorder r)) with
      (tup z i :: zview z (inorder r)) in Hsort.
    apply sorted_app in Hsort as (Hsl & [Hsr Hir]%StronglySorted_inv & Hlr).
    destruct (tuple_ltb (tup z node) (tup z i)) eqn:Hb.
    + destruct (IHl (InL i r :: c) fuel) as (c' & E & Hp & a & b & Ha & Hbb & Hna & Hnb);
        [done|intros; apply Hlive; set_solver|done|done|lia|].
      exists c'. split; [exact E|]. split; [done|]. exists a, (b ++ i :: inorder r).
      cbn [before after] in Ha, Hbb. split_and!; [done|by rewrite Hbb, <- app_assoc|done|].
      intros p [Hp'|[->|Hp']%elem_of_cons]%elem_of_app; [by apply Hnb|done|].
      etrans; [exact Hb|]. rewrite Forall_forall in Hir. apply Hir, elem_of_zview. eauto.
    + destruct (IHr (InR l i :: c) fuel) as (c' & E & Hp & a & b & Ha & Hbb & Hna & Hnb);
        [done|intros; apply Hlive; set_solver|done|done|lia|].
      exists c'. split; [exact E|]. split; [done|]. exists (inorder l ++ [i] ++ a), b.
      cbn [before after] in Ha, Hbb. split_and!; [|done| |done].
      * rewrite Ha. by rewrite <- !app_assoc.
      * unfold tlt in *. intros p [Hp'|[->|Hp']%elem_of_cons]%elem_of_app Hlt.
        -- rewrite (tuple_ltb_trans (tup z node) (tup z p) (tup z i)) in Hb; [done|done|].
           apply Hlr; [apply elem_of_zview; eauto|set_solver].
        -- by rewrite Hb in Hlt.
        -- by eapply Hna.
Qed.

(** ** Inserting in the tree *)

Lemma zlive_frame z z' p : zdata z' !! p = zdata z !! p -> zlive z p -> zlive z' p.
Proof. unfold zlive. by intros ->. Qed.

Lemma zview_frame z z' l :
  (forall p, p ∈ l -> zdata z' !! p = zdata z !! p) -> zview z' l = zview z l.
Proof.
  intros H. apply list_fmap_ext. intros i p Hp. unfold tup. rewrite H; [done|].
  by eapply list_elem_of_lookup_2.
Qed.

(** ** The abstract operations on a sorted list *)

Lemma zput_middle t a b :
  (forall u, u ∈ a -> tlt u t) -> (forall u, u ∈ b -> tlt t u) -> zput t (a ++ b) = a ++ t :: b.
Proof.
  intros Ha Hb. induction a as [|u a IH]; cbn [app zput].
  - destruct b as [|u b]; [done|]. cbn [zput]. rewrite tuple_ltb_asym; [done|]. apply Hb. set_solver.
  - rewrite (Ha u) by set_solver. f_equal. apply IH. set_solver.
Qed.

Lemma zdel_absent nm l : nm ∉ l.*2 -> zdel nm l = l.
Proof.
  intros H. unfold zdel. induction l as [|t l IH]; [done|]. rewrite fmap_cons, elem_of_cons in H.
  rewrite filter_cons_True by naive_solver. f_equal. apply IH. tauto.
Qed.

Lemma zdel_middle t a b : NoDup (a ++ t :: b).*2 -> zdel t.2 (a ++ t :: b) = a ++ b.
Proof.
  rewrite fmap_app, fmap_cons. intros Hn. rewrite <- Permutation_middle in Hn.
  apply NoDup_cons in Hn as [Hn _]. rewrite elem_of_app in Hn.
  unfold zdel. rewrite filter_app, filter_cons_False by naive_solver.
  fold (zdel t.2 a) (zdel t.2 b). rewrite !zdel_absent by tauto. done.
Qed.

Lemma zfind_middle t a b : NoDup (a ++ t :: b).*2 -> zfind t.2 (a ++ t :: b) = Some t.
Proof.
  rewrite fmap_app, fmap_cons. intros Hn. rewrite <- Permutation_middle in Hn.
  apply NoDup_cons in Hn as [Hn _]. rewrite elem_of_app in Hn.
  unfold zfind. rewrite filter_app, (filter_cons_True _ _ b) by done.
  assert (filter (fun u : tuple => u.2 = t.2) a = []) as ->; [|done].
  induction a as [|u a IH]; [done|]. rewrite filter_cons_False; [apply IH|]; rewrite fmap_cons, elem_of_cons in Hn; naive_solver.
Qed.

Lemma zfind_absent nm l : nm ∉ l.*2 -> zfind nm l = None.
Proof.
  intros H. unfold zfind. induction l as [|t l IH]; [done|]. rewrite fmap_cons, elem_of_cons in H.
  rewrite filter_cons_False by naive_solver. apply IH. tauto.
Qed.

(** ** Inserting into the tree *)

Record tree_inserted z zs T node (z' : zstore) (zs' : ZSet) T' : Prop := {
  ti_tree : exists t', z' = with_trees t' z /\ same_off ({[node]} ∪ nodes T) (trees z) t' /\
    dom t' = dom (trees z) /\ zs' = mkZSet (root T') (zhmap zs);
  ti_rep : ztree z' (zroot zs') T';
  ti_perm : inorder T' ≡ₚ node :: inorder T;
  ti_view : zview z (inorder T') = zput (tup z node) (zview z (inorder T))
}.

(** A tuple put between those before it and those after it. *)
Lemma zview_put z a node b :
  (forall p, p ∈ a -> tlt (tup z p) (tup z node)) -> (forall p, p ∈ b -> tlt (tup z node) (tup z p)) ->
  zview z (a ++ node :: b) = zput (tup z node) (zview z (a ++ b)).
Proof.
  intros Ha Hb. rewrite !zview_app, zview_cons, zput_middle; [done|..];
    intros u (p & Hp & ->)%elem_of_zview; auto.
Qed.

Lemma sorted_put t a b :
  (forall u, u ∈ a -> tlt u t) -> (forall u, u ∈ b -> tlt t u) ->
  StronglySorted tlt (a ++ b) -> StronglySorted tlt (a ++ t :: b).
Proof.
  intros Ha Hb (H1 & H2 & H12)%sorted_app. apply sorted_app. split_and!; [done| |].
  - constructor; [done|]. by apply Forall_forall.
  - intros x y Hx [->|Hy]%elem_of_cons; auto.
Qed.

(** The end of a search path is between the smaller nodes and the greater. *)
Lemma path_order z l node :
  (tup z node).2 ∉ (zview z l).*2 ->
  (forall p, p ∈ l -> tlt (tup z node) (tup z p) -> False) -> forall p, p ∈ l -> tlt (tup z p) (tup z node).
Proof.
  intros Hname Hno p Hp. destruct (tuple_ltb (tup z p) (tup z node)) eqn:El; [done|].
  destruct (tuple_ltb (tup z node) (tup z p)) eqn:El2; [by exfalso; eapply Hno|].
  exfalso. apply Hname. rewrite <- (tuple_ltb_total _ _ El El2). apply list_elem_of_fmap_2, elem_of_zview. eauto.
Qed.

Lemma tree_insert_spec z zs T node :
  ztree z (zroot zs) T -> node ∉ inorder T -> trees z !! node = Some avl_init -> zlive z node ->
  (tup z node).2 ∉ (zview z (inorder T)).*2 -> tsize T + 1 < 2 ^ 32 - 1 ->
  exists z' zs' T', tree_insert z zs node = Some (z', zs') /\ tree_inserted z zs T node z' zs' T'.
Proof.
  intros [Hrep Hroot Hbal Hnd Hlive Hsort _] Hn Hinit Hnode Hname Hsize.
  assert (Hfuel : (length (inorder T) <= size (trees z))%nat).
  { apply nodes_length_le; [done|]. intros i. by apply tree_rep_dom with None. }
  destruct (tree_search_spec z node T [] (size (trees z)) Hrep Hlive Hnode Hsort Hfuel)
    as (c & E & Hp & a & b & Ha & Hb & Hna & Hnb).
  cbn [plug ctx_par ctx_slot before after app] in E, Hp, Ha, Hb. rewrite app_nil_r in Hb. subst a b.
  assert (HT : inorder T = before c ++ after c) by (rewrite Hp, inorder_plug; done).
  pose proof Hrep as Hrepc. pose proof Hnd as Hndc. pose proof Hbal as Hbalc. pose proof Hn as Hnc. pose proof Hsize as Hszc.
  rewrite Hp in Hrepc, Hndc, Hbalc, Hnc, Hszc.
  destruct (tree_attach (trees z) c node Hrepc Hndc Hbalc Hnc Hinit Hszc)
    as (m1 & loc & m2 & m3 & T' & E1 & E2 & E3 & Hrep' & Hbal' & HT' & Ho & Hd).
  unfold tree_insert. rewrite Hroot, E, bind_Some_l, Hp, E1, bind_Some_l, E2, bind_Some_l, E3, bind_Some_l.
  assert (Hlt : forall p, p ∈ before c -> tlt (tup z p) (tup z node)).
  { apply path_order; [|done]. rewrite HT, zview_app, fmap_app in Hname. set_solver. }
  exists (with_trees m3 z), (mkZSet (root T') (zhmap zs)), T'. split; [done|]. rewrite <- Hp in Ho |- *. split.
  - by exists m3.
  - cbn [zroot]. split; try done.
    + rewrite HT', <- Permutation_middle, <- HT. by apply NoDup_cons.
    + intros p. rewrite HT', elem_of_app, elem_of_cons. intros [?|[->|?]]; [|done|];
        apply (Hlive p); rewrite HT; set_solver.
    + change (zview (with_trees m3 z)) with (zview z). rewrite HT', zview_app. rewrite HT, zview_app in Hsort.
      apply sorted_put; [..|done]; intros u (p & Hpp & ->)%elem_of_zview; auto.
    + unfold tsize. rewrite HT'. unfold tsize in Hsize. rewrite HT in Hsize. rewrite !length_app in *.
      cbn [length]. lia.
  - by rewrite HT', HT, Permutation_middle.
  - rewrite HT', HT. by apply zview_put.
Qed.

(** ** Detaching from the tree *)

Lemma avl_del_ztree z r T p :
  ztree z r T -> p ∈ inorder T ->
  exists t' T' a b, avl_del (trees z) p = Some (t', root T') /\
    ztree (with_trees t' z) (root T') T' /\ inorder T = a ++ p :: b /\ inorder T' = a ++ b /\
    same_off (nodes T) (trees z) t' /\ dom t' = dom (trees z).
Proof.
  intros [Hrep Hroot Hbal Hnd Hlive Hsort Hsize] Hp.
  destruct (tree_detach (trees z) T p Hrep Hnd Hbal Hsize Hp) as (t' & T' & a & b & E & Hrep' & Hbal' & HT & HT' & Ho & Hd).
  exists t', T', a, b. split_and!; try done. rewrite HT in Hnd, Hlive, Hsort. split; try done.
  - rewrite HT'. rewrite <- Permutation_middle in Hnd. by apply NoDup_cons in Hnd as [_ ?].
  - intros q Hq. apply (Hlive q). rewrite HT', elem_of_app in Hq. rewrite elem_of_app, elem_of_cons. tauto.
  - change (zview (with_trees t' z)) with (zview z). rewrite HT', zview_app. rewrite zview_app, zview_cons in Hsort.
    apply sorted_app in Hsort as (H1 & [H2 _]%StronglySorted_inv & H3). apply sorted_app.
    split_and!; [done|done|]. intros x y Hx Hy. apply H3; [done|]. by apply elem_of_cons; right.
  - unfold tsize in *. rewrite HT'. rewrite HT in Hsize. rewrite !length_app in *. cbn [length] in Hsize. lia.
Qed.

(** ** The whole sorted set *)

Notation znodes z := (hm_nodes (hnodes z)).
Notation zarrays z := (hm_arrays (hnodes z)).

(** The arrays of a set, and those of the others. *)
Definition zown zs : gset ptr := own_arrays (zhmap zs).
Definition zothers z zs : gmap ptr buckets := others (hnodes z) (zhmap zs).

Record zset_rep z zs T : Prop := {
  zr_tree : ztree z (zroot zs) T;
  zr_map : hm_rep (hnodes z) (zhmap zs) (nodes T);
  zr_hash : forall p, p ∈ inorder T ->
    exists n, znodes z !! p = Some n /\ hcode n = str_hash (tup z p).2;
  zr_names : NoDup (zview z (inorder T)).*2
}.

(** The operations of a set change no node outside it. *)
Definition zkeep (X : gset ptr) z z' : Prop :=
  same_off X (trees z) (trees z') /\ same_off X (znodes z) (znodes z') /\
  same_off X (zdata z) (zdata z').

#[export] Instance zkeep_preorder X : PreOrder (zkeep X).
Proof.
  split; [by intros z|]. intros z1 z2 z3 (? & ? & ?) (? & ? & ?).
  split_and!; by etransitivity.
Qed.

Lemma zkeep_weaken X Y z z' : X ⊆ Y -> zkeep X z z' -> zkeep Y z z'.
Proof. intros ? (? & ? & ?). split_and!; by eapply same_off_weaken. Qed.

Lemma tup_frame z z' p : zdata z' !! p = zdata z !! p -> tup z' p = tup z p.
Proof. unfold tup. by intros ->. Qed.

Lemma zset_rep_frame z z' zs T :
  (forall p, p ∈ inorder T -> trees z' !! p = trees z !! p /\ znodes z' !! p = znodes z !! p /\
     zdata z' !! p = zdata z !! p) ->
  (forall a, a ∈ zown zs -> zarrays z' !! a = zarrays z !! a) ->
  zset_rep z zs T -> zset_rep z' zs T.
Proof.
  intros Hf Ha [[Hrep Hroot Hbal Hnd Hlive Hsort Hsize] Hmap Hhash Hnames].
  assert (Hview : zview z' (inorder T) = zview z (inorder T)) by (apply zview_frame; intros p Hp; apply (Hf p Hp)).
  split; [split|..]; rewrite ?Hview; try done.
  - eapply tree_rep_frame, Hrep. intros p Hp. apply (Hf p Hp).
  - intros p Hp. eapply zlive_frame, Hlive; [apply (Hf p Hp)|done].
  - eapply hm_rep_frame, Hmap; [|exact Ha]. intros p Hp%elem_of_nodes. apply (Hf p Hp).
  - intros p Hp. destruct (Hf p Hp) as (_ & Eh & Ed). rewrite Eh, (tup_frame z z' p Ed). by apply Hhash.
Qed.

Lemma zset_rep_keep X z z' zs T :
  zkeep X z z' -> (forall p, p ∈ inorder T -> p ∉ X) ->
  (forall a, a ∈ zown zs -> zarrays z' !! a = zarrays z !! a) -> zset_rep z zs T -> zset_rep z' zs T.
Proof.
  intros (Ht & Hh & Hd) HX Ha. apply zset_rep_frame; [|done]. intros p Hp. specialize (HX p Hp).
  split_and!; by eapply same_off_lookup.
Qed.

(** ** Lookup *)

Lemma hcmp_spec z key p :
  zlive z p -> hcmp z key p = Some (bool_decide ((tup z p).2 = key)).
Proof.
  intros (d & Hd & _). unfold hcmp, tup. rewrite Hd. cbn [mbind option_bind from_option snd].
  destruct (Z.eqb_spec (zlen (name d)) (zlen key)) as [Hl|Hl]; cbn [negb].
  - destruct (memcmp_eq _ _ Hl) as (rv & Hm & Hr). rewrite Hm. cbn [mbind option_bind].
    by rewrite Z.eqb_sym, Hr.
  - rewrite bool_decide_eq_false_2; [done|]. congruence.
Qed.

(** The nodes of a set are keyed by their names. *)
#[local] Instance zset_keyed z zs T (Hr : zset_rep z zs T) :
  KeyedNodes (hnodes z) (nodes T) str_hash (hcmp z) (fun p => (tup z p).2).
Proof.
  split; [intros p Hp%elem_of_nodes|intros k p Hp%elem_of_nodes].
  - by apply (zr_hash _ _ _ Hr).
  - by apply hcmp_spec, (zt_live _ _ _ (zr_tree _ _ _ Hr)).
Qed.

Lemma with_hnodes_rep z zs T h hm :
  zset_rep z zs T -> hm_rep h hm (nodes T) -> hstep (nodes T) (hnodes z) h ->
  zset_rep (with_hnodes h z) (mkZSet (zroot zs) hm) T /\ zkeep (nodes T) z (with_hnodes h z).
Proof.
  intros [Ht Hm Hh Hn] Hm' Hst. split; [|by split_and!; [..|apply Hst|]].
  split; try done; [by destruct Ht|].
  intros p Hp. destruct (Hh p Hp) as (n & Hnp & Hc).
  destruct (hstep_hcode _ _ _ _ _ Hst Hnp) as (n' & Hn' & Hc'). exists n'. split; [done|].
  rewrite Hc', Hc. done.
Qed.

(** The node a name leads to, in the list of nodes. *)
Definition znamed z T (nm : list byte) (r : option ptr) : Prop :=
  match r with
  | Some p => p ∈ inorder T /\ (tup z p).2 = nm
  | None => forall p, p ∈ inorder T -> (tup z p).2 <> nm
  end.

Lemma zset_lookup_spec z zs T nm :
  zset_rep z zs T ->
  exists z' zs' r, zset_lookup z zs nm = Some (z', zs', r) /\ zset_rep z' zs' T /\
    zkeep (nodes T) z z' /\ zothers z' zs' = zothers z zs /\
    trees z' = trees z /\ zdata z' = zdata z /\ zroot zs' = zroot zs /\
    dom (znodes z') = dom (znodes z) /\ znamed z T nm r.
Proof.
  intros Hr. unfold zset_lookup. pose proof (zt_root _ _ _ (zr_tree _ _ _ Hr)) as Hroot.
  destruct (zroot zs) as [rt|] eqn:Ert.
  - destruct (keyed_lookup (Hkeyed := zset_keyed z zs T Hr) _ nm (zr_map _ _ _ Hr))
      as (h & hm & r & E & Hm & Hst & Hot & Hres).
    rewrite E. cbn [mbind option_bind]. destruct (with_hnodes_rep _ _ _ _ _ Hr Hm Hst) as [Hr' Hk].
    do 3 eexists. split; [done|]. rewrite Ert in Hr'. split_and!; try done; [by eapply hstep_dom|].
    destruct r as [p|]; cbn; [by rewrite <- elem_of_nodes|]. intros p Hp. by apply Hres, elem_of_nodes.
  - exists z, zs, NULL. split; [done|]. split_and!; try done. symmetry in Hroot.
    apply root_None in Hroot as ->. cbn. set_solver.
Qed.

(** ** Names *)

Lemma elem_of_names z l nm : nm ∈ (zview z l).*2 <-> exists p, p ∈ l /\ (tup z p).2 = nm.
Proof.
  rewrite list_elem_of_fmap. setoid_rewrite elem_of_zview. naive_solver.
Qed.

(** ** Updating a score *)

Lemma ztree_frame z z' r T :
  (forall p, p ∈ inorder T -> trees z' !! p = trees z !! p /\ zdata z' !! p = zdata z !! p) ->
  ztree z r T -> ztree z' r T.
Proof.
  intros Hf [Hrep Hroot Hbal Hnd Hlive Hsort Hsize]. split; try done.
  - eapply tree_rep_frame, Hrep. intros p Hp. apply (Hf p Hp).
  - intros p Hp. eapply zlive_frame, Hlive; [apply (Hf p Hp)|done].
  - by rewrite (zview_frame z z') by (intros p Hp; apply (Hf p Hp)).
Qed.

Lemma znode_score z p d : zdata z !! p = Some d -> tup z p = (score d, name d).
Proof. unfold tup. by intros ->. Qed.

Lemma zview_fmap_perm z l k : l ≡ₚ k -> zview z l ≡ₚ zview z k.
Proof. intros H. unfold zview. by rewrite H. Qed.

(** A set after its tree received a node its hash table already holds. *)
Lemma inserted_rep z zs T node z' zs' T' :
  tree_inserted z zs T node z' zs' T' ->
  hm_rep (hnodes z) (zhmap zs) ({[node]} ∪ nodes T) ->
  (forall p, p ∈ node :: inorder T -> exists n, znodes z !! p = Some n /\ hcode n = str_hash (tup z p).2) ->
  NoDup (zview z (node :: inorder T)).*2 ->
  zset_rep z' zs' T'.
Proof.
  intros [(t' & -> & _ & _ & Hzs) Ht Hperm _] Hm Hh Hn. split; [done| | |].
  - rewrite Hzs. unfold nodes at 1. by rewrite (list_to_set_perm _ _ Hperm).
  - intros p Hp. rewrite Hperm in Hp. by apply Hh.
  - change (zview (with_trees t' z)) with (zview z). by rewrite (zview_fmap_perm z _ _ Hperm).
Qed.

(** The store after a node is detached from the tree and given a new score. *)
Definition rescored z (t : amem) p d sc : zstore :=
  mkZstore (<[p := avl_init]> t) (hnodes z) (<[p := mkZdat sc (name d)]> (zdata z)).

Lemma rescored_tup z t p d sc : tup (rescored z t p d sc) p = (sc, name d).
Proof. unfold tup. cbn. by rewrite lookup_insert_eq. Qed.

Lemma rescored_spec z zs T p d sc :
  zset_rep z zs T -> p ∈ inorder T -> zdata z !! p = Some d ->
  exists t n T1, avl_del (trees z) p = Some (t, root T1) /\ t !! p = Some n /\ p ∉ inorder T1 /\
    inorder T ≡ₚ p :: inorder T1 /\ ztree (rescored z t p d sc) (root T1) T1 /\
    zview (rescored z t p d sc) (inorder T1) = zdel (name d) (zview z (inorder T)) /\
    zfind (name d) (zview z (inorder T)) = Some (score d, name d) /\
    zkeep (nodes T) z (rescored z t p d sc).
Proof.
  intros Hr Hp Hd. pose proof (zr_tree _ _ _ Hr) as Ht. pose proof (zr_names _ _ _ Hr) as Hnames.
  pose proof (znode_score _ _ _ Hd) as Htup.
  destruct (avl_del_ztree _ _ _ p Ht Hp) as (t & T1 & a & b & E & Ht1 & HT & HT1 & Ho & Hdom).
  assert (is_Some (t !! p)) as [n Hn].
  { apply elem_of_dom. rewrite Hdom. apply elem_of_dom. eapply tree_rep_dom, Hp. apply Ht. }
  pose proof (zt_nodup _ _ _ Ht) as Hnd. rewrite HT, <- Permutation_middle in Hnd. apply NoDup_cons in Hnd as [Hpn _].
  rewrite <- HT1 in Hpn. assert (Hne : forall q, q ∈ inorder T1 -> p <> q) by (by intros q ? ->).
  assert (Hview : zview z (inorder T) = zview z a ++ (score d, name d) :: zview z b) by (by rewrite HT, zview_app, <- Htup).
  rewrite Hview in Hnames |- *. exists t, n, T1. split_and!; try done.
  - by rewrite HT, HT1, <- Permutation_middle.
  - eapply ztree_frame, Ht1. intros q Hq. cbn. by rewrite !lookup_insert_ne by auto.
  - rewrite (zdel_middle (score d, name d)) by done. rewrite <- zview_app, <- HT1. apply zview_frame.
    intros q Hq. cbn. by rewrite lookup_insert_ne by auto.
  - by apply (zfind_middle (score d, name d)).
  - split_and!; [transitivity t; [done|]|done|]; by apply same_off_insert, elem_of_nodes.
Qed.

Lemma zdel_names nm l : nm ∉ (zdel nm l).*2.
Proof. intros (t & -> & [Ht _]%list_elem_of_filter)%list_elem_of_fmap. done. Qed.

Lemma zset_update_spec z zs T p sc :
  zset_rep z zs T -> p ∈ inorder T -> dbl_isnan sc = false ->
  exists z' zs' T', zset_update z zs p sc = Some (z', zs') /\ zset_rep z' zs' T' /\
    zkeep (nodes T) z z' /\ zothers z' zs' = zothers z zs /\ inorder T' ≡ₚ inorder T /\
    zview z' (inorder T') = zadd sc (tup z p).2 (zview z (inorder T)).
Proof.
  intros Hr Hp Hnan. destruct (zt_live _ _ _ (zr_tree _ _ _ Hr) p Hp) as (d & Hd & _).
  destruct (rescored_spec z zs T p d sc Hr Hp Hd) as (t & n & T1 & E1 & Hn & Hpn & Hperm1 & Ht1 & Hv1 & Hf & Hk1).
  unfold zset_update, zadd. rewrite (znode_score _ _ _ Hd), Hd, bind_Some_l. cbn [snd]. rewrite Hf. cbn [fst].
  destruct (dbl_eqb (score d) sc); [by exists z, zs, T|]. rewrite E1, bind_Some_l, (store_upd_Some _ _ _ _ Hn), bind_Some_l.
  change (mkZstore _ _ _) with (rescored z t p d sc). set (z1 := rescored z t p d sc) in *.
  pose proof (rescored_tup z t p d sc : tup z1 p = _) as Htup.
  destruct (tree_insert_spec z1 (mkZSet (root T1) (zhmap zs)) T1 p) as (z2 & zs2 & T2 & E2 & Hti).
  - done.
  - done.
  - cbn. by rewrite lookup_insert_eq.
  - exists (mkZdat sc (name d)). cbn. by rewrite lookup_insert_eq.
  - rewrite Htup, Hv1. apply zdel_names.
  - pose proof (zt_size _ _ _ (zr_tree _ _ _ Hr)) as Hsz. unfold tsize in *. rewrite Hperm1 in Hsz. cbn [length] in Hsz. lia.
  - pose proof Hti as [(t2 & -> & Ho2 & _ & Hzs2) _ Hperm Hv]. rewrite <- Hperm1 in Hperm.
    assert (Hns : {[p]} ∪ nodes T1 = nodes T).
    { unfold nodes. by rewrite (list_to_set_perm _ _ Hperm1). }
    exists (with_trees t2 z1), zs2, T2. split; [exact E2|]. split_and!; [| |by rewrite Hzs2|done|].
    + apply (inserted_rep z1 (mkZSet (root T1) (zhmap zs)) T1 p _ _ _ Hti); [rewrite Hns; apply Hr| |].
      * intros q Hq. rewrite <- Hperm1 in Hq. destruct (zr_hash _ _ _ Hr q Hq) as (nq & Hnq & Hh). exists nq.
        split; [done|]. rewrite Hh. destruct (decide (q = p)) as [->|Hqp]; [by rewrite Htup, (znode_score _ _ _ Hd)|].
        unfold tup. cbn. by rewrite lookup_insert_ne.
      * rewrite zview_cons, Htup, Hv1, fmap_cons. apply NoDup_cons. split; [apply zdel_names|].
        eapply sublist_NoDup; [apply (zr_names _ _ _ Hr)|]. apply fmap_sublist, sublist_filter.
    + destruct Hk1 as (H1 & H2 & H3). split_and!; [|done|done]. transitivity (trees z1); [done|]. by rewrite <- Hns.
    + change (zview (with_trees t2 z1)) with (zview z1). by rewrite Hv, Htup, Hv1.
Qed.

(** ** Insertion *)

(** An address none of the stores uses. *)
Definition znew z (p : ptr) : Prop :=
  trees z !! p = None /\ znodes z !! p = None /\ zdata z !! p = None.

Lemma znode_alloc_new z : znew z (znode_alloc z).
Proof.
  pose proof (is_fresh (dom (trees z) ∪ dom (znodes z) ∪ dom (zdata z))) as H.
  fold (znode_alloc z) in H. rewrite !not_elem_of_union, !not_elem_of_dom in H. by destruct H as [[? ?] ?].
Qed.

Lemma zr_in_live z zs T p : zset_rep z zs T -> p ∈ inorder T -> ~ znew z p.
Proof. intros Hr Hp (H & _). destruct (tree_rep_dom _ _ _ p (zt_rep _ _ _ (zr_tree _ _ _ Hr)) Hp). congruence. Qed.

Lemma same_off_fresh {A} (m : gmap ptr A) p x : same_off {[p]} m (<[p := x]> m).
Proof. auto with redis. Qed.

Lemma nodes_size T : NoDup (inorder T) -> Z.of_nat (size (nodes T)) = tsize T.
Proof. intros H. unfold nodes. by rewrite size_list_to_set. Qed.

(** Inserting a node whose name is not in the set. *)
Lemma zset_new_spec z zs T nm sc :
  zset_rep z zs T -> dbl_isnan sc = false -> nm ∉ (zview z (inorder T)).*2 ->
  tsize T + 1 < 2 ^ 32 - 1 ->
  exists z' zs' T' node,
    (let '(z, node) := znode_new z nm sc in
     '(h, hm) ← hm_insert (hnodes z) (zhmap zs) node;
     '(z, zset) ← tree_insert (with_hnodes h z) (mkZSet (zroot zs) hm) node;
     Some (z, zset, true)) = Some (z', zs', true) /\
    zset_rep z' zs' T' /\ znew z node /\ zkeep ({[node]} ∪ nodes T) z z' /\
    zothers z' zs' = zothers z zs /\ inorder T' ≡ₚ node :: inorder T /\
    zview z' (inorder T') = zput (sc, nm) (zview z (inorder T)).
Proof.
  intros Hr Hnan Hname Hsz. set (node := znode_alloc z). pose proof (znode_alloc_new z) as Hnew. fold node in Hnew.
  assert (Hnin : node ∉ inorder T) by (intros H; by eapply zr_in_live).
  assert (Hne : forall q, q ∈ inorder T -> node <> q) by (by intros q ? ->).
  pose proof Hr as [Ht Hm Hh Hnames]. pose proof (zt_nodup _ _ _ Ht) as Hnd.
  unfold znode_new. fold node.
  set (z1 := mkZstore _ _ _). cbv beta iota.
  assert (Hr1 : zset_rep z1 zs T).
  { apply (zset_rep_frame z); [|done|done]. intros q Hq. cbn. by rewrite !lookup_insert_ne by auto. }
  assert (Hmem : node ∉ nodes T) by (by rewrite elem_of_nodes).
  assert (Hh1 : znodes z1 !! node = Some (mkHNode NULL (str_hash nm))) by (cbn; by rewrite lookup_insert_eq).
  destruct (hm_insert_spec _ _ _ node _ (zr_map _ _ _ Hr1) Hh1 Hmem) as (h & hm & E & Hm' & Hst & Hot).
  { rewrite (nodes_size _ Hnd). lia. }
  rewrite E. cbn [mbind option_bind]. set (z2 := with_hnodes h z1).
  assert (Htup : tup z2 node = (sc, nm)) by (unfold tup; cbn; by rewrite lookup_insert_eq).
  assert (Hview : zview z2 (inorder T) = zview z (inorder T)).
  { apply zview_frame. intros q Hq. cbn. by rewrite lookup_insert_ne by auto. }
  destruct (tree_insert_spec z2 (mkZSet (zroot zs) hm) T node) as (z3 & zs3 & T3 & E3 & Hti).
  - apply (ztree_frame z1); [done|]. apply Hr1.
  - done.
  - cbn. by rewrite lookup_insert_eq.
  - exists (mkZdat sc nm). cbn. by rewrite lookup_insert_eq.
  - by rewrite Htup, Hview.
  - done.
  - rewrite E3. cbn [mbind option_bind]. pose proof Hti as [(t3 & -> & Ho3 & _ & Hzs3) _ Hperm Hv].
    exists (with_trees t3 z2), zs3, T3, node. split; [done|]. split_and!; [|apply Hnew..|split_and!; cbn|by rewrite Hzs3|done|].
    + apply (inserted_rep _ _ _ _ _ _ _ Hti); [done| |].
      * intros q [->|Hq]%elem_of_cons.
        -- destruct (hstep_hcode _ _ _ _ _ Hst Hh1) as (n & Hn & Hc). exists n. by rewrite Hc, Htup.
        -- destruct (zr_hash _ _ _ Hr1 q Hq) as (n & Hn & Hc).
           destruct (hstep_hcode _ _ _ _ _ Hst Hn) as (n' & Hn' & Hc'). exists n'. by rewrite Hc', Hc.
      * rewrite zview_cons, Hview, Htup. by apply NoDup_cons.
    + transitivity (<[node:=avl_init]> (trees z)); [|done]. eapply same_off_weaken, same_off_fresh. set_solver.
    + transitivity (<[node:=mkHNode NULL (str_hash nm)]> (znodes z)); [|apply Hst].
      eapply same_off_weaken, same_off_fresh. set_solver.
    + eapply same_off_weaken, same_off_fresh. set_solver.
    + change (zview (with_trees t3 z2)) with (zview z2). by rewrite Hv, Hview, Htup.
Qed.

Lemma zset_insert_spec z zs T nm sc :
  zset_rep z zs T -> dbl_isnan sc = false -> tsize T + 1 < 2 ^ 32 - 1 ->
  exists z' zs' T' X, zset_insert z zs nm sc =
      Some (z', zs', bool_decide (nm ∉ (zview z (inorder T)).*2)) /\
    zset_rep z' zs' T' /\ zkeep (X ∪ nodes T) z z' /\ zothers z' zs' = zothers z zs /\ (forall p, p ∈ X -> znew z p) /\
    (forall p, p ∈ inorder T' <-> p ∈ X \/ p ∈ inorder T) /\ (size X <= 1)%nat /\
    zview z' (inorder T') = zadd sc nm (zview z (inorder T)).
Proof.
  intros Hr Hnan Hsz. unfold zset_insert.
  destruct (zset_lookup_spec _ _ _ nm Hr) as (z1 & zs1 & r & E & Hr1 & Hk1 & Hot1 & Ht1 & Hd1 & _ & Hdom & Hnamed).
  rewrite E. cbn [mbind option_bind].
  assert (Htup1 : forall q, tup z1 q = tup z q) by (intros; unfold tup; by rewrite Hd1).
  assert (Hview1 : zview z1 (inorder T) = zview z (inorder T)) by (apply zview_frame; intros; by rewrite Hd1).
  destruct r as [p|]; cbn in Hnamed.
  - destruct Hnamed as [Hp Hname].
    destruct (zset_update_spec _ _ _ _ sc Hr1 Hp Hnan) as (z2 & zs2 & T2 & E2 & Hr2 & Hk2 & Hot2 & Hperm & Hv).
    rewrite E2. cbn [mbind option_bind]. exists z2, zs2, T2, ∅.
    rewrite bool_decide_eq_false_2.
    2: { intros Hn. apply Hn, elem_of_names. eauto. }
    split; [done|]. split; [done|]. split_and!; [|congruence|set_solver|intros q; rewrite Hperm; set_solver|by rewrite size_empty; lia|].
    + rewrite union_empty_l_L. by transitivity z1.
    + by rewrite Hv, Hview1, Htup1, Hname.
  - assert (Hn : nm ∉ (zview z (inorder T)).*2).
    { intros (q & Hq & Hqn)%elem_of_names. by eapply Hnamed. }
    rewrite <- Hview1 in Hn.
    destruct (zset_new_spec _ _ _ nm sc Hr1 Hnan Hn Hsz) as (z2 & zs2 & T2 & node & E2 & Hr2 & Hnew & Hk2 & Hot2 & Hperm & Hv).
    rewrite Hview1 in Hn. rewrite bool_decide_eq_true_2 by done. exists z2, zs2, T2, {[node]}.
    split; [exact E2|]. split; [done|]. split_and!.
    + transitivity z1; [eapply zkeep_weaken, Hk1; set_solver|done].
    + congruence.
    + intros q ->%elem_of_singleton. destruct Hnew as (H1 & H2 & H3). split_and!; [congruence| |congruence].
      apply not_elem_of_dom. rewrite <- Hdom. by apply not_elem_of_dom.
    + intros q. rewrite Hperm, elem_of_cons, elem_of_singleton. done.
    + by rewrite size_singleton.
    + unfold zadd. rewrite zfind_absent by done. by rewrite Hv, Hview1.
Qed.

(** ** Deletion *)

Lemma znames_inj z zs T p q :
  zset_rep z zs T -> p ∈ inorder T -> q ∈ inorder T -> (tup z p).2 = (tup z q).2 -> p = q.
Proof.
  intros Hr Hp Hq Heq. pose proof (zr_names _ _ _ Hr) as Hn.
  apply list_elem_of_lookup in Hp as [i Hi], Hq as [j Hj].
  assert (i = j) as ->; [|congruence].
  eapply (NoDup_lookup (zview z (inorder T)).*2); [done|..]; unfold zview;
    rewrite !list_lookup_fmap, ?Hi, ?Hj; simpl; by rewrite ?Heq.
Qed.

Lemma zset_delete_spec z zs T p :
  zset_rep z zs T -> p ∈ inorder T ->
  exists z' zs' T', zset_delete z zs p = Some (z', zs') /\ zset_rep z' zs' T' /\
    zkeep (nodes T) z z' /\ zothers z' zs' = zothers z zs /\ inorder T ≡ₚ p :: inorder T' /\ znew z' p /\
    zview z' (inorder T') = zdel (tup z p).2 (zview z (inorder T)).
Proof.
  intros Hr Hp. pose proof Hr as [Ht Hm Hh Hnames]. unfold zset_delete.
  destruct (Hh p Hp) as (n & Hn & Hc). destruct (zt_live _ _ _ Ht p Hp) as (d & Hd & Hdn).
  rewrite Hn, bind_Some_l, Hd, bind_Some_l.
  assert (Htup : (tup z p).2 = name d) by (unfold tup; by rewrite Hd). rewrite Hc, Htup.
  destruct (keyed_delete (Hkeyed := zset_keyed z zs T Hr) _ (name d) Hm) as (h & hm & r & E & Hst & Hot & Hres).
  rewrite E. cbn [mbind option_bind].
  destruct r as [q|]; [|destruct Hres as [Hno _]; by destruct (Hno p); [apply elem_of_nodes|]].
  destruct Hres as (Hq%elem_of_nodes & Hqh & Hm').
  assert (q = p) as -> by (eapply znames_inj; [done..|by rewrite Htup]).
  destruct (avl_del_ztree _ _ _ p Ht Hp) as (t1 & T1 & a & b & E1 & Ht1 & HT & HT1 & Ho1 & Hd1).
  cbn [mbind option_bind]. rewrite E1. cbn [mbind option_bind]. unfold znode_del. cbn [zdata trees hnodes].
  rewrite Hd. cbn [mbind option_bind].
  assert (Hperm : inorder T ≡ₚ p :: inorder T1) by (by rewrite HT, HT1, <- Permutation_middle).
  pose proof (zt_nodup _ _ _ Ht) as Hnd. rewrite Hperm in Hnd. apply NoDup_cons in Hnd as [Hpn _].
  assert (Hne : forall q, q ∈ inorder T1 -> p <> q) by (by intros q ? ->).
  set (z' := mkZstore _ _ _). exists z', (mkZSet (root T1) hm), T1. split; [done|].
  assert (Hv : zview z' (inorder T1) = zview z (inorder T1)).
  { apply zview_frame. intros q Hq'. cbn. by rewrite lookup_delete_ne by auto. }
  assert (Hview : zview z (inorder T) = zview z a ++ tup z p :: zview z b) by (by rewrite HT, zview_app).
  rewrite Hview in Hnames.
  split; [|split; [|split; [exact Hot|split; [done|split]]]].
  - split.
    + eapply ztree_frame, Ht1. intros q Hq'. cbn. by rewrite !lookup_delete_ne by auto.
    + apply (hm_rep_frame h).
      * intros q Hq'%elem_of_nodes. cbn. by rewrite lookup_delete_ne by auto.
      * done.
      * cbn. replace (nodes T1) with (nodes T ∖ {[p]}); [done|]. apply set_eq. intros q.
        rewrite elem_of_difference, elem_of_singleton, !elem_of_nodes, Hperm, elem_of_cons.
        split; [tauto|]. intros Hq'. split; [by right|]. by intros ->.
    + intros q Hq'. destruct (Hh q) as (nq & Hnq & Hcq); [rewrite Hperm; by apply elem_of_cons; right|].
      destruct (hstep_hcode _ _ _ _ _ Hst Hnq) as (n' & Hn' & Hc'). exists n'. cbn.
      rewrite lookup_delete_ne by auto. split; [done|]. rewrite Hc', Hcq.
      unfold tup. cbn. by rewrite lookup_delete_ne by auto.
    + rewrite Hv, HT1, zview_app. rewrite fmap_app, fmap_cons, <- Permutation_middle in Hnames.
      apply NoDup_cons in Hnames as [_ Hnames]. by rewrite fmap_app.
  - assert (Hdel : forall {A} (m : gmap ptr A), same_off (nodes T) m (delete p m)).
    { intros A m q Hq'. apply lookup_delete_ne. intros ->. by apply Hq', elem_of_nodes. }
    split_and!; cbn; [by transitivity t1|transitivity (hm_nodes h); [apply Hst|done]|done].
  - split_and!; cbn; apply lookup_delete_eq.
  - rewrite Hv, Hview, <- Htup, zdel_middle by done. by rewrite HT1, zview_app.
Qed.

(** ** Range queries *)

(** The node is not below the key. *)
Definition zge z (key : tuple) (p : ptr) : Prop := tuple_ltb (tup z p) key = false.

#[export] Instance zge_decision z key p : Decision (zge z key p).
Proof. unfold zge. apply _. Defined.

Lemma head_filter_app {A} (P : A -> Prop) `{!forall x, Decision (P x)} (l k : list A) :
  head (filter P (l ++ k)) = match head (filter P l) with Some x => Some x | None => head (filter P k) end.
Proof. rewrite filter_app. by destruct (filter P l). Qed.

Lemma filter_none {A} (P : A -> Prop) `{!forall x, Decision (P x)} (l : list A) :
  (forall x, x ∈ l -> ~ P x) -> filter P l = [].
Proof.
  induction l as [|x l IH]; intros Hno; [done|].
  rewrite filter_cons_False by (apply Hno; set_solver). apply IH. intros. apply Hno. set_solver.
Qed.

Lemma seekge_loop_spec z sc nm t : forall fuel par found,
  tree_rep (trees z) par t -> (forall p, p ∈ inorder t -> zlive z p) -> dbl_isnan sc = false ->
  StronglySorted tlt (zview z (inorder t)) -> (length (inorder t) <= fuel)%nat ->
  seekge_loop fuel z sc nm (root t) found =
    Some (match head (filter (zge z (sc, nm)) (inorder t)) with Some p => Some p | None => found end).
Proof.
  induction t as [|l IHl i r IHr]; intros fuel par found Ht Hlive Hn Hsort Hfuel; [by destruct fuel|].
  cbn [inorder] in *. rewrite length_app in Hfuel. cbn [length] in Hfuel. destruct Ht as (Hi & Hl & Hr).
  destruct fuel as [|fuel]; [lia|]. cbn [seekge_loop root].
  rewrite zless_spec by (done || (apply Hlive; set_solver)). rewrite bind_Some_l, Hi, bind_Some_l. cbn [left right].
  rewrite zview_app, zview_cons in Hsort. apply sorted_app in Hsort as (Hsl & [Hsr Hir]%StronglySorted_inv & Hlr).
  rewrite head_filter_app.
  destruct (tuple_ltb (tup z i) (sc, nm)) eqn:Hb.
  - rewrite (IHr fuel (Some i)) by (done || lia || (intros; apply Hlive; set_solver)).
    rewrite (filter_none _ (inorder l)), filter_cons_False; [done|unfold zge; congruence|].
    intros p Hp. unfold zge. rewrite (tuple_ltb_trans _ (tup z i)); [done| |done].
    apply Hlr; [|set_solver]. apply elem_of_zview. eauto.
  - rewrite (IHl fuel (Some i)) by (done || lia || (intros; apply Hlive; set_solver)).
    rewrite (filter_cons_True _ i) by done. by destruct (head (filter _ (inorder l))).
Qed.

Lemma zset_seekge_spec z zs T sc nm :
  ztree z (zroot zs) T -> dbl_isnan sc = false ->
  zset_seekge z zs sc nm = Some (head (filter (zge z (sc, nm)) (inorder T))).
Proof.
  intros [Hrep Hroot _ Hnd Hlive Hsort _] Hn. unfold zset_seekge. rewrite Hroot.
  rewrite (seekge_loop_spec z sc nm T _ None) by
    (done || (apply nodes_length_le; [done|]; intros i; by apply tree_rep_dom with None)).
  by destruct (head _).
Qed.

(** In a sorted list, the tuples that are not below the key are a suffix. *)
Lemma zge_suffix z key l :
  StronglySorted tlt (zview z l) ->
  exists a b, l = a ++ b /\ filter (zge z key) l = b /\
    (forall p, p ∈ a -> tlt (tup z p) key) /\ (forall p, p ∈ b -> zge z key p).
Proof.
  induction l as [|p l IH]; [exists [], []; set_solver|]. rewrite zview_cons.
  intros [Hs Hp]%StronglySorted_inv. destruct (tuple_ltb (tup z p) key) eqn:Hb.
  - destruct (IH Hs) as (a & b & -> & Hf & Ha & Hbb). exists (p :: a), b.
    rewrite filter_cons_False by (unfold zge; congruence). split_and!; [done|done| |done].
    intros q [->|Hq]%elem_of_cons; [done|by apply Ha].
  - assert (Hall : forall q, q ∈ l -> zge z key q).
    { intros q Hq. unfold zge. destruct (tuple_ltb (tup z q) key) eqn:Hq2; [|done]. rewrite <- Hb. symmetry.
      eapply tuple_ltb_trans, Hq2. rewrite Forall_forall in Hp. apply Hp, elem_of_zview. eauto. }
    exists [], (p :: l). split_and!; [done| |set_solver|].
    + rewrite filter_cons_True by done. f_equal. clear -Hall. induction l as [|q l IH]; [done|].
      rewrite filter_cons_True by (apply Hall; set_solver). f_equal. apply IH. intros. apply Hall. set_solver.
    + intros q [->|Hq]%elem_of_cons; [done|by apply Hall].
Qed.

Lemma znode_offset_spec z r T i p off :
  ztree z r T -> inorder T !! i = Some p ->
  znode_offset z (Some p) off = Some (arr_get (inorder T) (Z.of_nat i + off)).
Proof.
  intros [Hrep _ _ Hnd _ _ Hsize] Hi. unfold znode_offset.
  assert (Hp : p ∈ inorder T) by (by eapply list_elem_of_lookup_2).
  destruct (inorder_split T p Hp) as (c & l & u & ->).
  rewrite (avl_offset_spec _ _ _ _ _ _ Hrep Hnd Hsize). do 2 f_equal.
  assert (i = length (before c) + length (inorder l))%nat as ->; [|unfold zlen, tsize; lia].
  eapply NoDup_lookup; [exact Hnd|exact Hi|]. rewrite inorder_plug. cbn [inorder].
  rewrite lookup_app_r by lia. rewrite lookup_app_l by (rewrite length_app; simpl; lia).
  rewrite lookup_app_r by lia. by replace (_ - _)%nat with 0%nat by lia.
Qed.

(** ** Destroying a set *)

Lemma znode_del_keep z p z' : znode_del z p = Some z' -> zkeep {[p]} z z' /\ znew z' p /\ zarrays z' = zarrays z.
Proof.
  unfold znode_del. intros (d & _ & [= <-])%bind_Some.
  assert (Hdel : forall {A} (m : gmap ptr A), same_off {[p]} m (delete p m)).
  { intros A m q Hq. apply lookup_delete_ne. set_solver. }
  split; [split_and!; apply Hdel|]. split; [|done]. split_and!; apply lookup_delete_eq.
Qed.

Lemma tree_dispose_spec t : forall fuel z par,
  tree_rep (trees z) par t -> NoDup (inorder t) -> (forall p, p ∈ inorder t -> is_Some (zdata z !! p)) ->
  (length (inorder t) <= fuel)%nat ->
  exists z', tree_dispose fuel z (root t) = Some z' /\ zkeep (nodes t) z z' /\ zarrays z' = zarrays z /\
    forall p, p ∈ inorder t -> znew z' p.
Proof.
  induction t as [|l IHl i r IHr]; intros fuel z par Ht Hnd Hlive Hfuel.
  { exists z. split; [by destruct fuel|]. split; [done|]. split; [done|]. set_solver. }
  cbn [inorder] in *. rewrite length_app in Hfuel. cbn [length] in Hfuel.
  destruct fuel as [|fuel]; [lia|]. cbn [tree_dispose root]. destruct Ht as (Hi & Hl & Hr).
  rewrite Hi, bind_Some_l. cbn [left right]. nodup_split.
  destruct (IHl fuel z (Some i)) as (z1 & E1 & Hk1 & Ha1 & Hn1); [done|done|intros; apply Hlive; set_solver|lia|].
  rewrite E1, bind_Some_l. pose proof Hk1 as (Hkt & _ & Hkd).
  assert (Hil : i ∉ nodes l) by nodes_solver.
  rewrite (same_off_lookup _ _ _ _ Hkt Hil), Hi, bind_Some_l. cbn [left right].
  assert (Hrl : forall p, p ∈ inorder r -> p ∉ nodes l) by (intros; nodes_solver).
  destruct (IHr fuel z1 (Some i)) as (z2 & E2 & Hk2 & Ha2 & Hn2); [|done| |lia|].
  { eapply tree_rep_frame, Hr. intros p Hp. by apply (same_off_lookup _ _ _ _ Hkt), Hrl. }
  { intros p Hp. rewrite (same_off_lookup _ _ _ _ Hkd) by (by apply Hrl). apply Hlive. set_solver. }
  rewrite E2, bind_Some_l. pose proof Hk2 as (Hkt2 & Hkh2 & Hkd2).
  assert (Hir : i ∉ nodes r) by nodes_solver.
  destruct (Hlive i) as [d Hd]; [set_solver|].
  assert (Hd2 : zdata z2 !! i = Some d).
  { rewrite (same_off_lookup _ _ _ _ Hkd2 Hir), (same_off_lookup _ _ _ _ Hkd Hil). done. }
  destruct (znode_del z2 i) as [z3|] eqn:E3; [|unfold znode_del in E3; by rewrite Hd2 in E3].
  apply znode_del_keep in E3 as (Hk3 & Hn3 & Ha3). exists z3. split; [done|]. rewrite nodes_node.
  split; [|split; [congruence|]].
  - transitivity z1; [eapply zkeep_weaken, Hk1; set_solver|].
    transitivity z2; [eapply zkeep_weaken, Hk2; set_solver|]. eapply zkeep_weaken, Hk3. set_solver.
  - destruct Hk3 as (Hkt3 & Hkh3 & Hkd3).
    assert (Hgone : forall p, p <> i -> znew z2 p -> znew z3 p).
    { intros p Hp (? & ? & ?). assert (p ∉ ({[i]} : gset ptr)) by set_solver.
      split_and!; (etransitivity; [eapply same_off_lookup; eassumption|done]). }
    intros p. rewrite elem_of_app, elem_of_cons. intros [Hp|[->|Hp]]; [|done|].
    + apply Hgone; [by intros ->|]. destruct (Hn1 p Hp) as (? & ? & ?).
      assert (p ∉ nodes r) by nodes_solver.
      split_and!; (etransitivity; [eapply same_off_lookup; eassumption|done]).
    + apply Hgone; [by intros ->|by apply Hn2].
Qed.

(** Every node and both arrays are freed; the rest is as before. *)
Lemma zset_clear_spec z zs T :
  zset_rep z zs T ->
  exists z', zset_clear z zs = Some (z', zset_null) /\ zkeep (nodes T) z z' /\ zarrays z' = zothers z zs /\
    forall p, p ∈ inorder T -> znew z' p.
Proof.
  intros [[Hrep Hroot _ Hnd Hlive _ _] Hm _ _]. unfold zset_clear. rewrite Hroot.
  destruct (hm_clear_spec _ _ _ Hm) as (h & Eh & Hns & Har). rewrite Eh, bind_Some_l.
  destruct (tree_dispose_spec T (size (trees z)) (with_hnodes h z) None) as (z' & E & Hk & Ha & Hn); [done..| | |].
  - intros p Hp. destruct (Hlive p Hp) as (d & Hd & _). by exists d.
  - apply nodes_length_le; [done|]. intros i. by apply tree_rep_dom with None.
  - change (trees (with_hnodes h z)) with (trees z). rewrite E, bind_Some_l. exists z'. split; [done|].
    split; [|split; [by rewrite Ha|done]]. destruct Hk as (? & Hkn & ?). cbn in Hkn. rewrite Hns in Hkn. done.
Qed.

Lemma zset_rep_null z : zset_rep z zset_null Leaf.
Proof.
  split; [split| | |].
  all: try done.
  all: try (intros p Hp; by apply elem_of_nil in Hp).
  all: try constructor.
  apply hm_rep_null.
Qed.
