(* ===== verification/Owners.v ===== *)
(** * Who owns the arrays of the sorted sets

    The hash tables of all sorted sets allocate their arrays of buckets from one
    memory.  [owns ents z]: each live array is in exactly one table of exactly one
    entry, and a table refers to live arrays only; so nothing is leaked, nothing
    is shared, and nothing dangles. *)

From S2P Require Import Prelude Hashtable HashtableProofs Zset Server ZsetProofs.
Local Open Scope Z_scope.

Implicit Types (ents : gmap ptr Entry) (z : zstore) (e : Entry) (x : ZSet).

Record owns ents z : Prop := {
  ow_str : forall p e, ents !! p = Some e -> etype e = T_STR -> ezset e = zset_null;
  ow_live : forall p e a, ents !! p = Some e -> a ∈ zown (ezset e) -> is_Some (zarrays z !! a);
  ow_apart : forall p q e e' a, ents !! p = Some e -> ents !! q = Some e' ->
    a ∈ zown (ezset e) -> a ∈ zown (ezset e') -> p = q;
  ow_all : forall a, is_Some (zarrays z !! a) -> exists p e, ents !! p = Some e /\ a ∈ zown (ezset e)
}.

Lemma zown_null a : a ∉ zown zset_null.
Proof. done. Qed.

Lemma owns_init z : zarrays z = ∅ -> owns ∅ z.
Proof.
  intros Hz. split; try (intros * Hp; by rewrite lookup_empty in Hp).
  intros a [t Ha]. by rewrite Hz, lookup_empty in Ha.
Qed.

(** An operation on the set of [p] leaves the arrays of the other entries. *)
Lemma owns_frame ents z z' p e x' q e' a :
  owns ents z -> ents !! p = Some e -> zothers z' x' = zothers z (ezset e) ->
  ents !! q = Some e' -> q <> p -> a ∈ zown (ezset e') -> zarrays z' !! a = zarrays z !! a /\ a ∉ zown x'.
Proof.
  intros Ho Hp Hot Hq Hne Ha.
  assert (Hna : a ∉ zown (ezset e)) by (intros Ha'; by apply Hne, (ow_apart _ _ Ho q p e' e a)).
  destruct (ow_live _ _ Ho q e' a Hq Ha) as [t Ht].
  assert (Hz : zothers z' x' !! a = Some t) by (rewrite Hot; unfold zothers; by rewrite others_lookup).
  assert (Hnx : a ∉ zown x') by (intros Ha'; unfold zothers in Hz; by rewrite others_own in Hz).
  split; [|done]. unfold zothers in Hz. rewrite others_lookup in Hz by done. congruence.
Qed.

(** The set of [p] becomes [x']: its arrays are live, the others are as before. *)
Lemma owns_put ents z z' p e e' :
  owns ents z -> ents !! p = Some e -> zothers z' (ezset e') = zothers z (ezset e) ->
  (etype e' = T_STR -> ezset e' = zset_null) ->
  (forall a, a ∈ zown (ezset e') -> is_Some (zarrays z' !! a)) -> owns (<[p := e']> ents) z'.
Proof.
  intros Ho Hp Hot Hstr Hlive. split.
  - intros q e1 [[_ <-]|[_ Hq]]%lookup_insert_Some; [done|by apply (ow_str _ _ Ho q)].
  - intros q e1 a [[_ <-]|[Hne Hq]]%lookup_insert_Some Ha; [by apply Hlive|].
    destruct (owns_frame _ _ _ _ _ _ q e1 a Ho Hp Hot Hq (not_eq_sym Hne) Ha) as [-> _]. by apply (ow_live _ _ Ho q e1).
  - intros q r e1 e2 a [[<- <-]|[Hne Hq]]%lookup_insert_Some [[<- <-]|[Hne' Hr]]%lookup_insert_Some H1 H2.
    + done.
    + by destruct (owns_frame _ _ _ _ _ _ r e2 a Ho Hp Hot Hr (not_eq_sym Hne') H2) as [_ []].
    + by destruct (owns_frame _ _ _ _ _ _ q e1 a Ho Hp Hot Hq (not_eq_sym Hne) H1) as [_ []].
    + by apply (ow_apart _ _ Ho q r e1 e2 a).
  - intros a [t Ha]. destruct (decide (a ∈ zown (ezset e'))) as [Hin|Hno].
    { exists p, e'. by rewrite lookup_insert_eq. }
    assert (Hz : zothers z (ezset e) !! a = Some t) by (rewrite <- Hot; unfold zothers; by rewrite others_lookup).
    assert (Hna : a ∉ zown (ezset e)) by (intros Ha'; unfold zothers in Hz; by rewrite others_own in Hz).
    unfold zothers in Hz. rewrite others_lookup in Hz by done.
    destruct (ow_all _ _ Ho a) as (q & e1 & Hq & Hin); [by exists t|].
    exists q, e1. rewrite lookup_insert_ne; [done|]. intros <-. congruence.
Qed.

(** A new entry has no arrays. *)
Lemma owns_new ents z p e : owns ents z -> ents !! p = None -> ezset e = zset_null -> owns (<[p := e]> ents) z.
Proof.
  intros Ho Hp He. split.
  - intros q e1 [[_ <-]|[_ Hq]]%lookup_insert_Some; [done|by apply (ow_str _ _ Ho q)].
  - intros q e1 a [[_ <-]|[_ Hq]]%lookup_insert_Some Ha; [by rewrite He in Ha|by apply (ow_live _ _ Ho q e1)].
  - intros q r e1 e2 a [[<- <-]|[Hne Hq]]%lookup_insert_Some [[<- <-]|[Hne' Hr]]%lookup_insert_Some H1 H2;
      rewrite ?He in *; try done. by apply (ow_apart _ _ Ho q r e1 e2 a).
  - intros a (q & e1 & Hq & Hin)%(ow_all _ _ Ho). exists q, e1. rewrite lookup_insert_ne; [done|]. intros <-. congruence.
Qed.

(** An entry without arrays is freed. *)
Lemma owns_delete ents z p e : owns ents z -> ents !! p = Some e -> ezset e = zset_null -> owns (delete p ents) z.
Proof.
  intros Ho Hp He. split.
  - intros q e1 [_ Hq]%lookup_delete_Some. by apply (ow_str _ _ Ho q).
  - intros q e1 a [_ Hq]%lookup_delete_Some. by apply (ow_live _ _ Ho q e1).
  - intros q r e1 e2 a [_ Hq]%lookup_delete_Some [_ Hr]%lookup_delete_Some. by apply (ow_apart _ _ Ho q r e1 e2 a).
  - intros a (q & e1 & Hq & Hin)%(ow_all _ _ Ho). exists q, e1. rewrite lookup_delete_ne; [done|].
    intros <-. rewrite Hp in Hq. injection Hq as <-. by rewrite He in Hin.
Qed.
