(* ===== verification/ServerProofs.v ===== *)
(** * The database commands of server.cpp refine the abstract database

    [db_inv g M] relates the state to a map [M] from the addresses of the
    entries to their keys, values and sorted-set trees; [db_rep g D] forgets
    the addresses.  Every command runs without undefined behaviour, keeps the
    representation, and replies as [Spec] says. *)

From S2P Require Import Prelude Common AvlTree AvlProofs Hashtable HashtableProofs KeyedNodes Heap HeapProofs Zset Wire Numeric Server Spec ZsetProofs Owners.
Local Open Scope Z_scope.

(** What is recorded of an entry: its key, its value, the tree of its set. *)
Record erec := mkErec { er_key : key; er_rec : arec; er_tree : tree }.

Implicit Types (g : gdata) (M : gmap ptr erec) (D : adb).

(** ** The representation *)

Definition node_rep (h : hmem) (p : ptr) (k : key) : Prop :=
  exists n, hm_nodes h !! p = Some n /\ hcode n = str_hash k.

Definition data_rep (ents : gmap ptr Entry) (z : zstore) (p : ptr) (k : key) (v : aval) (T : tree) : Prop :=
  exists e, ents !! p = Some e /\ ekey e = k /\
    match v with
    | AStr s => etype e = T_STR /\ estr e = s /\ T = Leaf
    | AZset l => etype e = T_ZSET /\ zset_rep z (ezset e) T /\ zview z (inorder T) = l
    end.

(** The timer of an entry: its item in the heap, or no position. *)
Definition ttl_rep (a : list HeapItem) (refs : refmem) (p : ptr) (t : option Z) : Prop :=
  match t with
  | None => refs !! p = Some size_max
  | Some t => mkHeapItem t (Some p) ∈ a
  end.

(** Everything but the hash table. *)
Record db_core g M : Prop := {
  core_nodes : dom (hm_nodes (dbnodes g)) = dom M;
  core_ents : dom (entries g) = dom M;
  core_idx : dom (heap_idx g) = dom M;
  core_node : forall p r, M !! p = Some r -> node_rep (dbnodes g) p (er_key r);
  core_data : forall p r, M !! p = Some r ->
    data_rep (entries g) (zs g) p (er_key r) (a_val (er_rec r)) (er_tree r);
  core_ttl : forall p r, M !! p = Some r -> ttl_rep (heap g) (heap_idx g) p (a_ttl (er_rec r));
  core_keys : forall p q r r', M !! p = Some r -> M !! q = Some r' -> er_key r = er_key r' -> p = q;
  core_disj : forall p q r r' i, M !! p = Some r -> M !! q = Some r' -> p <> q ->
    i ∈ inorder (er_tree r) -> i ∈ inorder (er_tree r') -> False;
  core_heap : heap_rep (heap g) (heap_idx g);
  core_live : forall i, ~ znew (zs g) i -> exists p r, M !! p = Some r /\ i ∈ inorder (er_tree r);
  core_owns : owns (entries g) (zs g)
}.

Record db_inv g M : Prop := {
  inv_core : db_core g M;
  inv_map : hm_rep (dbnodes g) (db g) (dom M);
  inv_arrays : others (dbnodes g) (db g) = ∅       (* no array but the two of [db] *)
}.

(** The abstract database of a map of entries. *)
Definition db_rep g D : Prop :=
  exists M, db_inv g M /\
    forall k r, D !! k = Some r <-> exists p T, M !! p = Some (mkErec k r T).

(** ** The heap of timers *)

Lemma refs_item_pos a refs i x p :
  heap_rep a refs -> a !! i = Some x -> ref x = Some p -> refs !! p = Some (Z.of_nat i).
Proof. intros (_ & Hr & _). by apply hrefs_lookup. Qed.

Lemma heap_small a refs : heap_rep a refs -> zlen a < 2 ^ 60.
Proof. by intros (_ & _ & ?). Qed.

(** An entry whose index is -1 has no item. *)
Lemma no_item a refs p :
  heap_rep a refs -> refs !! p = Some size_max -> Some p ∉ ref <$> a.
Proof.
  intros Hr Hp (x & Hx & Hin)%list_elem_of_fmap. apply list_elem_of_lookup in Hin as [i Hi].
  pose proof (refs_item_pos _ _ _ _ _ Hr Hi (eq_sym Hx)) as Hi'. rewrite Hp in Hi'.
  apply heap_small in Hr. apply lookup_lt_Some in Hi. unfold zlen, size_max in *. simplify_eq. lia.
Qed.

Lemma item_index a refs p t :
  heap_rep a refs -> mkHeapItem t (Some p) ∈ a ->
  exists i, a !! i = Some (mkHeapItem t (Some p)) /\ refs !! p = Some (Z.of_nat i) /\
    Z.of_nat i < 2 ^ 60 /\ Z.of_nat i <> size_max.
Proof.
  intros Hr [i Hi]%list_elem_of_lookup. exists i. split; [done|].
  split; [by eapply refs_item_pos|]. apply heap_small in Hr. pose proof (lookup_lt_Some _ _ _ Hi).
  unfold zlen, size_max in *. lia.
Qed.

Lemma item_unique a refs x y :
  heap_rep a refs -> x ∈ a -> y ∈ a -> ref x = ref y -> x = y.
Proof.
  intros (_ & Hr & _) [i Hi]%list_elem_of_lookup [j Hj]%list_elem_of_lookup E.
  pose proof (hrefs_ne _ _ _ _ _ _ _ Hr Hi Hj E). subst j. congruence.
Qed.

(** A reference that no item uses may be written. *)
Lemma heap_rep_write a refs p v :
  heap_rep a refs -> Some p ∉ ref <$> a -> heap_rep a (<[p := v]> refs).
Proof.
  intros (Hh & [Hl Hn] & Hlen) Hp. split_and!; [done| |done]. split; [|done].
  intros i x Hi. destruct (Hl i x Hi) as (q & w & Hq & Hw & Hok). exists q, w.
  split_and!; [done| |done]. rewrite lookup_insert_ne; [done|]. intros ->.
  apply Hp. rewrite <- Hq. apply list_elem_of_fmap_2. by eapply list_elem_of_lookup_2.
Qed.

Lemma heap_rep_delete_ref a refs p :
  heap_rep a refs -> Some p ∉ ref <$> a -> heap_rep a (delete p refs).
Proof.
  intros (Hh & [Hl Hn] & Hlen) Hp. split_and!; [done| |done]. split; [|done].
  intros i x Hi. destruct (Hl i x Hi) as (q & w & Hq & Hw & Hok). exists q, w.
  split_and!; [done| |done]. rewrite lookup_delete_ne; [done|]. intros ->.
  apply Hp. rewrite <- Hq. apply list_elem_of_fmap_2. by eapply list_elem_of_lookup_2.
Qed.

(** Removing the timer of [p], the way every caller of [heap_delete] does. *)
Lemma timer_remove_spec a refs p t :
  heap_rep a refs -> mkHeapItem t (Some p) ∈ a ->
  exists idx a' refs' refs'', refs !! p = Some idx /\ idx <> size_max /\
    heap_delete a refs idx = Some (a', refs') /\
    store_upd refs' p (fun _ => size_max) = Some refs'' /\
    heap_rep a' refs'' /\ refs'' !! p = Some size_max /\ dom refs'' = dom refs /\
    a ≡ₚ mkHeapItem t (Some p) :: a' /\
    forall q s, q <> p -> ttl_rep a refs q s -> ttl_rep a' refs'' q s.
Proof.
  intros Hr Hin. destruct (item_index _ _ _ _ Hr Hin) as (i & Hi & Hidx & _ & Hne).
  destruct (heap_delete_spec a refs i _ Hr Hi) as (a' & refs' & E & Hr' & Hperm & Hd & Hf).
  assert (Hp' : is_Some (refs' !! p)) by (apply elem_of_dom; rewrite Hd; by apply elem_of_dom_2 in Hidx).
  destruct Hp' as [v Hv]. pose proof (proj1 (proj2 Hr)) as [_ Hn]. rewrite Hperm, fmap_cons in Hn.
  apply NoDup_cons in Hn as [Hn _]. cbn [ref] in Hn.
  exists (Z.of_nat i), a', refs', (<[p := size_max]> refs'). split_and!; try done.
  - by apply (store_upd_Some _ _ _ v).
  - by apply heap_rep_write.
  - by rewrite lookup_insert_eq.
  - rewrite dom_insert_lookup_L by eauto. done.
  - intros q [s|] Hq; cbn.
    + rewrite Hperm. intros [[= -> ->]|?]%elem_of_cons; done.
    + intros Hnone. rewrite lookup_insert_ne by done. rewrite Hf; [done|].
      pose proof (no_item _ _ _ Hr Hnone) as Hni. rewrite Hperm, fmap_cons in Hni. intros ?. apply Hni.
      apply elem_of_cons; by right.
Qed.

(** Setting the timer of [p]. *)
Lemma timer_set_spec a refs p t old :
  heap_rep a refs -> ttl_rep a refs p old -> zlen a + 1 < 2 ^ 60 ->
  exists idx a' refs', refs !! p = Some idx /\
    heap_upsert a refs idx (mkHeapItem t (Some p)) = Some (a', refs') /\
    heap_rep a' refs' /\ ttl_rep a' refs' p (Some t) /\ dom refs' = dom refs /\
    forall q s, q <> p -> ttl_rep a refs q s -> ttl_rep a' refs' q s.
Proof.
  intros Hr Hold Hlen. destruct old as [t0|]; cbn in Hold.
  - destruct (item_index _ _ _ _ Hr Hold) as (i & Hi & Hidx & _ & Hne).
    destruct (heap_upsert_old a refs i (mkHeapItem t (Some p)) _ Hr Hi eq_refl)
      as (a' & refs' & rest & E & Hr' & Hperm & Hperm' & Hd & Hf).
    exists (Z.of_nat i), a', refs'. split_and!; try done.
    + cbn. rewrite Hperm'. apply elem_of_cons; by left.
    + intros q [s|] Hq; cbn.
      * rewrite Hperm, Hperm'. intros [[= -> ->]|?]%elem_of_cons; [done|apply elem_of_cons; by right].
      * intros Hnone. rewrite Hf; [done|]. by eapply no_item.
  - assert (Hlive : is_Some (refs !! p)) by eauto.
    destruct (heap_upsert_new a refs size_max (mkHeapItem t (Some p)) p Hr Hlen)
      as (a' & refs' & E & Hr' & Hperm & Hd & Hf); [unfold size_max; lia|done|done|by eapply no_item|].
    exists size_max, a', refs'. split_and!; try done.
    + cbn. rewrite Hperm. apply elem_of_cons; by left.
    + intros q [s|] Hq; cbn.
      * rewrite Hperm. intros ?. apply elem_of_cons; by right.
      * intros Hnone. rewrite Hf; [done|]. rewrite Hperm, fmap_cons. cbn [ref].
        intros [[= ->]|Hin]%elem_of_cons; [done|]. exact (no_item _ _ _ Hr Hnone Hin).
Qed.

(** ** Updates of the representation *)

Lemma data_live ents z p k v T i :
  data_rep ents z p k v T -> i ∈ inorder T -> ~ znew z i.
Proof.
  intros (e & _ & _ & Hv). destruct v as [s|l].
  - destruct Hv as (_ & _ & ->). intros Hi. by apply elem_of_nil in Hi.
  - destruct Hv as (_ & Hr & _). by eapply zr_in_live.
Qed.

Lemma data_rep_keep ents ents' z z' X p k v T :
  ents' !! p = ents !! p -> zkeep X z z' -> (forall i, i ∈ inorder T -> i ∉ X) ->
  (forall e a, ents !! p = Some e -> a ∈ zown (ezset e) -> zarrays z' !! a = zarrays z !! a) ->
  data_rep ents z p k v T -> data_rep ents' z' p k v T.
Proof.
  intros He Hk HX Har (e & Hp & Hkey & Hv). exists e. split; [congruence|]. split; [done|].
  destruct v as [s|l]; [done|]. destruct Hv as (Ht & Hr & Hl). split; [done|].
  split; [eapply zset_rep_keep; eauto|]. rewrite <- Hl. apply zview_frame. intros i Hi.
  destruct Hk as (_ & _ & Hk). apply (same_off_lookup _ _ _ _ Hk). by apply HX.
Qed.

Lemma lookup_insert_cases {A} (m : gmap ptr A) p q x y :
  <[p := x]> m !! q = Some y -> q = p /\ y = x \/ q <> p /\ m !! q = Some y.
Proof.
  destruct (decide (q = p)) as [->|]; [rewrite lookup_insert_eq; naive_solver|].
  rewrite lookup_insert_ne by done. naive_solver.
Qed.

Lemma dom_M_insert M p r r' : M !! p = Some r -> dom (<[p := r']> M) = dom M.
Proof. intros H. apply dom_insert_lookup_L. eauto. Qed.

(** A new value for the entry [p]. *)
Lemma core_put g M p r z' e e' v' T' X :
  db_core g M -> M !! p = Some r -> entries g !! p = Some e ->
  zothers z' (ezset e') = zothers (zs g) (ezset e) -> (etype e' = T_STR -> ezset e' = zset_null) ->
  data_rep (<[p := e']> (entries g)) z' p (er_key r) v' T' ->
  zkeep (X ∪ nodes (er_tree r)) (zs g) z' -> (forall i, i ∈ X -> znew (zs g) i) ->
  (forall i, i ∈ inorder T' -> i ∈ X \/ i ∈ inorder (er_tree r)) ->
  (forall i, ~ znew z' i -> i ∈ X \/ i ∈ inorder (er_tree r) -> i ∈ inorder T') ->
  db_core (with_zs z' (with_entry p e' g)) (<[p := mkErec (er_key r) (set_val v' (er_rec r)) T']> M).
Proof.
  intros [Hn He Hi Hnode Hdata Httl Hkeys Hdisj Hheap Hlive Hown] Hp Hpe Hot Hstr Hd Hk Hnew Hsub Hback.
  assert (Hout : forall q r' i, M !! q = Some r' -> q <> p -> i ∈ inorder (er_tree r') ->
    i ∉ X ∪ nodes (er_tree r)).
  { intros q r' i Hq Hne Hin [HX|HX%elem_of_nodes]%elem_of_union; [|by eapply (Hdisj q p)].
    eapply data_live; [by apply Hdata|done|by apply Hnew]. }
  split; cbn [dbnodes entries heap_idx heap zs with_zs with_entry]; rewrite ?(dom_M_insert _ _ _ _ Hp); try done.
  - rewrite dom_insert_lookup_L; [done|]. apply elem_of_dom. rewrite He. by apply elem_of_dom_2 in Hp.
  - intros q r' [[-> ->]|[Hq Hr']]%lookup_insert_cases; [by apply (Hnode p r)|by apply Hnode].
  - intros q r' [[-> ->]|[Hq Hr']]%lookup_insert_cases; [done|].
    eapply data_rep_keep; [|exact Hk| | |by apply Hdata]; [by rewrite lookup_insert_ne|intros i; by apply (Hout q)|].
    intros e1 a He1 Ha. by apply (owns_frame _ _ _ _ _ _ q e1 a Hown Hpe Hot He1 Hq Ha).
  - intros q r' [[-> ->]|[Hq Hr']]%lookup_insert_cases; [by apply (Httl p r)|by apply Httl].
  - intros q q' r1 r2 [[-> ->]|[Hq Hr1]]%lookup_insert_cases [[-> ->]|[Hq' Hr2]]%lookup_insert_cases; cbn;
      intros Hk'; [done|by apply (Hkeys p q' r r2)|by apply (Hkeys q p r1 r)|by apply (Hkeys q q' r1 r2)].
  - intros q q' r1 r2 i [[-> ->]|[Hq Hr1]]%lookup_insert_cases [[-> ->]|[Hq' Hr2]]%lookup_insert_cases; cbn;
      intros Hne H1 H2; [done| | |by apply (Hdisj q q' r1 r2 i)].
    + apply (Hout q' r2 i Hr2 Hq' H2). rewrite elem_of_union, elem_of_nodes. by apply Hsub.
    + apply (Hout q r1 i Hr1 Hq H1). rewrite elem_of_union, elem_of_nodes. by apply Hsub.
  - intros i Hi'. destruct (decide (i ∈ X \/ i ∈ inorder (er_tree r))) as [Hin|Hin].
    + exists p. eexists. rewrite lookup_insert_eq. split; [done|]. by apply Hback.
    + assert (Hold : ~ znew (zs g) i).
      { intros (H1 & H2 & H3). apply Hi'. destruct Hk as (Ht & Hh & Hz). rewrite <- elem_of_nodes, <- elem_of_union in Hin.
        split_and!; (etransitivity; [eapply same_off_lookup; eassumption|done]). }
      destruct (Hlive i Hold) as (q & r' & Hq & Hin').
      exists q, r'. rewrite lookup_insert_ne; [done|]. intros ->. simplify_eq. tauto.
  - apply (owns_put _ (zs g) _ _ e); try done. intros a Ha. destruct Hd as (e1 & He1 & _ & Hv).
    rewrite lookup_insert_eq in He1. injection He1 as <-. destruct v' as [s|l].
    + destruct Hv as (Ht & _). by rewrite (Hstr Ht) in Ha.
    + destruct Hv as (_ & Hr & _). by eapply own_live, Ha; apply Hr.
Qed.

(** A new timer for the entry [p]. *)
Lemma core_ttl_put g M p r a' refs' t :
  db_core g M -> M !! p = Some r -> heap_rep a' refs' -> dom refs' = dom (heap_idx g) ->
  ttl_rep a' refs' p t ->
  (forall q s, q <> p -> ttl_rep (heap g) (heap_idx g) q s -> ttl_rep a' refs' q s) ->
  db_core (with_heap a' refs' g) (<[p := mkErec (er_key r) (set_ttl t (er_rec r)) (er_tree r)]> M).
Proof.
  intros [Hn He Hi Hnode Hdata Httl Hkeys Hdisj Hheap Hlive Hown] Hp Hh Hd Ht Hothers.
  split; cbn [dbnodes entries heap_idx heap zs with_heap]; rewrite ?(dom_M_insert _ _ _ _ Hp); try done.
  - congruence.
  - intros q r' [[-> ->]|[Hq Hr']]%lookup_insert_cases; [by apply (Hnode p r)|by apply Hnode].
  - intros q r' [[-> ->]|[Hq Hr']]%lookup_insert_cases; [by apply (Hdata p r)|by apply Hdata].
  - intros q r' [[-> ->]|[Hq Hr']]%lookup_insert_cases; [done|]. apply Hothers; [done|by apply Httl].
  - intros q q' r1 r2 [[-> ->]|[Hq Hr1]]%lookup_insert_cases [[-> ->]|[Hq' Hr2]]%lookup_insert_cases; cbn;
      intros Hk'; [done|by apply (Hkeys p q' r r2)|by apply (Hkeys q p r1 r)|by apply (Hkeys q q' r1 r2)].
  - intros q q' r1 r2 i [[-> ->]|[Hq Hr1]]%lookup_insert_cases [[-> ->]|[Hq' Hr2]]%lookup_insert_cases; cbn;
      intros Hne H1 H2; [done|by apply (Hdisj p q' r r2 i)|by apply (Hdisj q p r1 r i)|by apply (Hdisj q q' r1 r2 i)].
  - intros i Hi'. destruct (Hlive i Hi') as (q & r' & Hq & Hin). destruct (decide (q = p)) as [->|Hqp].
    + simplify_eq. eexists p, _. rewrite lookup_insert_eq. by split.
    + exists q, r'. by rewrite lookup_insert_ne.
Qed.

Lemma with_db_core g M h hm :
  db_core g M -> hstep (dom M) (dbnodes g) h -> db_core (with_db h hm g) M.
Proof.
  intros [Hn He Hi Hnode Hdata Httl Hkeys Hdisj Hheap Hlive Hown] Hst.
  split; cbn [dbnodes entries heap_idx heap zs with_db]; try done.
  - by rewrite (hstep_dom _ _ _ Hst).
  - intros p r Hp. destruct (Hnode p r Hp) as (n & Hn' & Hc).
    destruct (hstep_hcode _ _ _ _ _ Hst Hn') as (n' & ? & ?). exists n'. split; [done|congruence].
Qed.

(** Freeing an entry that has neither timer nor nodes. *)
Lemma core_free g M p r e :
  db_core g M -> M !! p = Some r -> a_ttl (er_rec r) = None -> er_tree r = Leaf ->
  entries g !! p = Some e -> ezset e = zset_null ->
  db_core (entry_free g p) (delete p M).
Proof.
  intros [Hn He Hi Hnode Hdata Httl Hkeys Hdisj Hheap Hlive Hown] Hp Ht HT Hpe Hz.
  assert (Hitem : Some p ∉ ref <$> heap g).
  { eapply no_item; [done|]. pose proof (Httl p r Hp) as H. by rewrite Ht in H. }
  assert (Hdel : forall q r', delete p M !! q = Some r' -> q <> p /\ M !! q = Some r').
  { intros q r' [Hq Hr]%lookup_delete_Some. done. }
  split; cbn [dbnodes entries heap_idx heap zs entry_free hm_nodes with_nodes]; rewrite ?dom_delete_L; try congruence.
  - intros q r' [Hq Hr']%Hdel. destruct (Hnode q r' Hr') as (n & ? & ?). exists n.
    cbn. by rewrite lookup_delete_ne.
  - intros q r' [Hq Hr']%Hdel. destruct (Hdata q r' Hr') as (e1 & ? & ?). exists e1. by rewrite lookup_delete_ne.
  - intros q r' [Hq Hr']%Hdel. pose proof (Httl q r' Hr') as H. destruct (a_ttl (er_rec r')); [done|].
    cbn in *. by rewrite lookup_delete_ne.
  - intros q q' r1 r2 [_ H1]%Hdel [_ H2]%Hdel. by apply Hkeys.
  - intros q q' r1 r2 i [_ H1]%Hdel [_ H2]%Hdel. by apply Hdisj.
  - by apply heap_rep_delete_ref.
  - intros i Hi'. destruct (Hlive i Hi') as (q & r' & Hq & Hin). exists q, r'.
    rewrite lookup_delete_ne; [done|]. intros ->. simplify_eq. rewrite HT in Hin. by apply elem_of_nil in Hin.
  - by apply (owns_delete _ _ _ e).
Qed.

(** ** entry_del *)

Lemma entry_del_timer g M p r :
  db_core g M -> M !! p = Some r ->
  exists idx g', heap_idx g !! p = Some idx /\
    (if negb (idx =? size_max) then
       '(a, refs) ← heap_delete (heap g) (heap_idx g) idx;
       refs ← store_upd refs p (fun _ => size_max);
       Some (with_heap a refs g)
     else Some g) = Some g' /\
    db_core g' (<[p := mkErec (er_key r) (set_ttl None (er_rec r)) (er_tree r)]> M) /\
    dbnodes g' = dbnodes g /\ db g' = db g /\ entries g' = entries g /\ zs g' = zs g /\
    (length (heap g') <= length (heap g))%nat /\
    (idx <> size_max -> length (heap g) = S (length (heap g'))).
Proof.
  intros Hc Hp. pose proof (core_ttl _ _ Hc p r Hp) as Ht. pose proof (core_heap _ _ Hc) as Hh.
  destruct (a_ttl (er_rec r)) as [t|] eqn:Et.
  - destruct (timer_remove_spec _ _ _ _ Hh Ht) as (idx & a' & refs' & refs'' & Hidx & Hne & E1 & E2 & Hh' & Hp' & Hd & Hperm & Ho).
    apply Permutation_length in Hperm. cbn [length] in Hperm.
    exists idx, (with_heap a' refs'' g). split; [done|]. destruct (Z.eqb_spec idx size_max); [done|]. cbn [negb].
    rewrite E1, bind_Some_l, E2, bind_Some_l. split; [done|]. split; [|by split_and!; try done; cbn; lia].
    by apply core_ttl_put.
  - exists size_max, g. split; [exact Ht|]. rewrite Z.eqb_refl. split; [done|]. split; [|done].
    rewrite insert_id; [done|]. rewrite Hp. by destruct r as [k [v s] T]; cbn in *; subst.
Qed.

Lemma type_of_val ents z p k v T e :
  data_rep ents z p k v T -> ents !! p = Some e ->
  ekey e = k /\ match v with
    | AStr s => etype e = T_STR /\ estr e = s /\ T = Leaf
    | AZset l => etype e = T_ZSET /\ zset_rep z (ezset e) T /\ zview z (inorder T) = l
    end.
Proof. intros (e' & He & ? & ?) Hp. by simplify_eq. Qed.

Lemma entry_del_spec g M p r :
  db_core g M -> M !! p = Some r -> hm_rep (dbnodes g) (db g) (dom M ∖ {[p]}) ->
  others (dbnodes g) (db g) = ∅ ->
  exists g', entry_del g p = Some g' /\ db_inv g' (delete p M) /\
    (length (heap g') <= length (heap g))%nat /\
    (a_ttl (er_rec r) <> None -> length (heap g) = S (length (heap g'))).
Proof.
  intros Hc Hp Hm Hot. destruct (entry_del_timer g M p r Hc Hp) as (idx & g1 & Hidx & E1 & Hc1 & Hdn & Hdb & He & Hz & Hlen & Hlen').
  assert (Hidx' : a_ttl (er_rec r) <> None -> idx <> size_max).
  { intros Hne. pose proof (core_ttl _ _ Hc p r Hp) as Ht. destruct (a_ttl (er_rec r)) as [t|]; [|done].
    destruct (item_index _ _ _ _ (core_heap _ _ Hc) Ht) as (i & _ & Hi & _ & Hne'). by simplify_eq. }
  unfold entry_del. rewrite Hidx, bind_Some_l, E1, bind_Some_l.
  set (r1 := mkErec (er_key r) (set_ttl None (er_rec r)) (er_tree r)) in *.
  assert (Hp1 : <[p:=r1]> M !! p = Some r1) by apply lookup_insert_eq.
  destruct (core_data _ _ Hc1 p r1 Hp1) as (e & Hpe & Hek & Hv). rewrite Hpe, bind_Some_l.
  assert (Hfree : forall g2 r2 e2, db_core g2 (<[p := r2]> M) -> a_ttl (er_rec r2) = None -> er_tree r2 = Leaf ->
    entries g2 !! p = Some e2 -> ezset e2 = zset_null ->
    dbnodes g2 = dbnodes g -> db g2 = db g -> db_inv (entry_free g2 p) (delete p M)).
  { intros g2 r2 e2 Hc2 Ht2 HT2 He2 Hz2 Hn2 Hd2. split.
    - rewrite <- (delete_insert_eq M p r2). apply (core_free _ _ _ r2 e2); [done|by rewrite lookup_insert_eq|done..].
    - rewrite dom_delete_L. cbn [dbnodes db entry_free]. rewrite Hn2, Hd2.
      apply (hm_rep_frame (dbnodes g)); [|done|done]. intros q [_ Hq]%elem_of_difference. cbn.
      rewrite lookup_delete_ne; [done|]. set_solver.
    - cbn [dbnodes db entry_free]. rewrite Hn2, Hd2. exact Hot. }
  cbn [er_rec er_tree er_key r1 set_ttl a_val] in Hv.
  destruct (a_val (er_rec r)) as [s|l] eqn:Ev.
  - destruct Hv as (Ht & _ & HT). rewrite Ht. cbn [Z.eqb T_STR T_ZSET Pos.eqb]. rewrite bind_Some_l.
    exists (entry_free g1 p). split; [done|]. split; [|split; [done|]].
    { eapply Hfree; try done. by apply (ow_str _ _ (core_owns _ _ Hc1) p). }
    intros Hne. by apply Hlen', Hidx'.
  - destruct Hv as (Ht & Hr & _). rewrite Ht, Z.eqb_refl.
    destruct (zset_clear_spec _ _ _ Hr) as (z' & E2 & Hk & Har & Hn). rewrite E2, bind_Some_l, bind_Some_l.
    exists (entry_free (with_zs z' (with_entry p (set_ezset zset_null e) g1)) p). split; [done|].
    split; [|split; [done|intros Hne; by apply Hlen', Hidx']].
    assert (Hput : db_core (with_zs z' (with_entry p (set_ezset zset_null e) g1))
      (<[p := mkErec (er_key r1) (set_val (AZset []) (er_rec r1)) Leaf]> (<[p := r1]> M))).
    { apply (core_put _ _ _ r1 _ e _ _ _ ∅); try done.
      - exists (set_ezset zset_null e). rewrite lookup_insert_eq. split_and!; try done. apply zset_rep_null.
      - cbn [er_tree r1]. by rewrite union_empty_l_L.
      - intros i Hi. by apply elem_of_nil in Hi.
      - intros i Hi [Hin|Hin]; [by apply elem_of_empty in Hin|]. cbn [er_tree r1] in Hin.
        by destruct (Hi (Hn i Hin)). }
    rewrite insert_insert_eq in Hput. eapply Hfree; try done; [cbn; apply lookup_insert_eq|done].
Qed.

(** ** Lookup and insertion of entries *)

Lemma entry_eq_spec g M k p r :
  db_core g M -> M !! p = Some r -> entry_eq g k p = Some (bool_decide (er_key r = k)).
Proof.
  intros Hc Hp. destruct (core_data _ _ Hc p r Hp) as (e & He & Hk & _).
  unfold entry_eq. rewrite He, bind_Some_l. by rewrite Hk.
Qed.

(** The key of the entry at an address. *)
Definition entry_key M (p : ptr) : key := default [] (er_key <$> M !! p).

#[local] Instance entries_keyed g M (Hc : db_core g M) :
  KeyedNodes (dbnodes g) (dom M) str_hash (entry_eq g) (entry_key M).
Proof.
  split; [intros p [r Hp]%elem_of_dom|intros k p [r Hp]%elem_of_dom]; unfold entry_key; rewrite Hp.
  - by apply (core_node _ _ Hc).
  - by apply (entry_eq_spec g M).
Qed.

(** What a lookup finds. *)
Definition found M (k : key) (r : option ptr) : Prop :=
  match r with
  | Some p => exists rc T, M !! p = Some (mkErec k rc T)
  | None => forall p r, M !! p = Some r -> er_key r <> k
  end.

Lemma found_keyed M k r :
  match r with
  | Some p => p ∈ dom M /\ entry_key M p = k
  | None => forall p, p ∈ dom M -> entry_key M p <> k
  end -> found M k r.
Proof.
  unfold entry_key. destruct r as [p|]; cbn.
  - intros [[[k' rc T] Hp]%elem_of_dom Hk]. rewrite Hp in Hk. cbn in Hk. subst. eauto.
  - intros Hno p r Hp Hk. apply (Hno p); [by apply elem_of_dom_2 in Hp|]. by rewrite Hp.
Qed.

Lemma lookup_entry_spec g M k :
  db_inv g M ->
  exists h hm r, lookup_entry g k = Some (with_db h hm g, r) /\ db_inv (with_db h hm g) M /\ found M k r.
Proof.
  intros [Hc Hm Hot]. unfold lookup_entry.
  destruct (keyed_lookup (Hkeyed := entries_keyed g M Hc) _ k Hm) as (h & hm & r & E & Hm' & Hst & Hot' & Hres).
  rewrite E, bind_Some_l. exists h, hm, r. split; [done|]. split; [|by apply found_keyed].
  split; [by apply with_db_core|done|by cbn; rewrite Hot'].
Qed.

Lemma entry_alloc_new g :
  hm_nodes (dbnodes g) !! entry_alloc g = None /\ entries g !! entry_alloc g = None /\ heap_idx g !! entry_alloc g = None.
Proof.
  pose proof (is_fresh (dom (hm_nodes (dbnodes g)) ∪ dom (entries g) ∪ dom (heap_idx g))) as H.
  fold (entry_alloc g) in H. rewrite !not_elem_of_union, !not_elem_of_dom in H. by destruct H as [[? ?] ?].
Qed.

Lemma insert_entry_spec g M k type v :
  db_inv g M -> found M k None -> Z.of_nat (size M) + 1 < 2 ^ 60 ->
  type = T_STR /\ v = AStr [] \/ type = T_ZSET /\ v = AZset [] ->
  exists g' ent, insert_entry g type k = Some (g', ent) /\ M !! ent = None /\
    db_inv g' (<[ent := mkErec k (mkArec v None) Leaf]> M).
Proof.
  intros [Hc Hm Hot] Hno Hsz Htype. pose proof (entry_alloc_new g) as (Hnn & Hne & Hni).
  unfold insert_entry, entry_new. set (ent := entry_alloc g) in *. set (g1 := mkG _ _ _ _ _ _).
  assert (HM : M !! ent = None).
  { apply not_elem_of_dom. rewrite <- (core_nodes _ _ Hc). by apply not_elem_of_dom. }
  assert (Hneq : forall q r, M !! q = Some r -> ent <> q) by (intros q r Hq ->; congruence).
  assert (Hm1 : hm_rep (dbnodes g1) (db g1) (dom M)).
  { apply (hm_rep_frame (dbnodes g)); [|done|done]. intros q [r Hq]%elem_of_dom. cbn.
    by rewrite lookup_insert_ne by (by eapply Hneq). }
  destruct (hm_insert_spec (dbnodes g1) (db g1) (dom M) ent (mkHNode NULL (str_hash k)) Hm1) as (h & hm & E & Hm' & Hst & Hot').
  { cbn. apply lookup_insert_eq. }
  { by apply not_elem_of_dom. }
  { by rewrite size_dom. }
  rewrite E, bind_Some_l. exists (with_db h hm g1), ent. split; [done|]. split; [done|].
  rewrite <- dom_insert_L with (x := mkErec k (mkArec v None) Leaf) in Hm', Hst.
  split; [|done|cbn [dbnodes db with_db]; rewrite Hot'; exact Hot]. apply with_db_core; [|done].
  destruct Hc as [Hn He Hi Hnode Hdata Httl Hkeys Hdisj Hheap Hlive Hown].
  assert (Hitem : Some ent ∉ ref <$> heap g).
  { intros (x & Hx & [i Hix]%list_elem_of_lookup)%list_elem_of_fmap.
    pose proof (refs_item_pos _ _ _ _ _ Hheap Hix (eq_sym Hx)). congruence. }
  split; cbn [dbnodes entries heap_idx heap zs g1 hm_nodes with_nodes]; rewrite ?dom_insert_L; try congruence.
  - intros q r [[-> ->]|[Hq Hr]]%lookup_insert_cases.
    + eexists. cbn. by rewrite lookup_insert_eq.
    + destruct (Hnode q r Hr) as (n & ? & ?). exists n. cbn. by rewrite lookup_insert_ne by done.
  - intros q r [[-> ->]|[Hq Hr]]%lookup_insert_cases.
    + eexists. rewrite lookup_insert_eq. split; [done|]. split; [done|]. cbn.
      destruct Htype as [[-> ->]|[-> ->]]; [done|]. split_and!; [done|apply zset_rep_null|done].
    + destruct (Hdata q r Hr) as (e & ? & ?). exists e. by rewrite lookup_insert_ne by done.
  - intros q r [[-> ->]|[Hq Hr]]%lookup_insert_cases; [apply lookup_insert_eq|].
    pose proof (Httl q r Hr) as H. destruct (a_ttl (er_rec r)); [done|]. cbn in *. by rewrite lookup_insert_ne by done.
  - intros q q' r1 r2 [[-> ->]|[Hq Hr1]]%lookup_insert_cases [[-> ->]|[Hq' Hr2]]%lookup_insert_cases; cbn;
      intros Hk'; [done|by exfalso; eapply (Hno q')|by exfalso; eapply (Hno q)|by apply (Hkeys q q' r1 r2)].
  - intros q q' r1 r2 i [[-> ->]|[Hq Hr1]]%lookup_insert_cases [[-> ->]|[Hq' Hr2]]%lookup_insert_cases; cbn;
      intros Hne' H1 H2; [done|by apply elem_of_nil in H1|by apply elem_of_nil in H2|by apply (Hdisj q q' r1 r2 i)].
  - by apply heap_rep_write.
  - intros i Hi'. destruct (Hlive i Hi') as (q & r & Hq & Hin). exists q, r.
    rewrite lookup_insert_ne by (by eapply Hneq). done.
  - by apply owns_new.
Qed.

(** ** From entries to the abstract database *)

Definition abs M D : Prop := forall k r, D !! k = Some r <-> exists p T, M !! p = Some (mkErec k r T).

Lemma abs_found g M D k p rc T :
  abs M D -> M !! p = Some (mkErec k rc T) -> D !! k = Some rc.
Proof. intros Ha Hp. apply Ha. eauto. Qed.

Lemma abs_none M D k : abs M D -> found M k None -> D !! k = None.
Proof.
  intros Ha Hno. destruct (D !! k) as [r|] eqn:E; [|done]. apply Ha in E as (p & T & Hp).
  exfalso. by apply (Hno _ _ Hp).
Qed.

Lemma abs_insert M D p k rc T :
  abs M D -> (forall q r, M !! q = Some r -> er_key r = k -> q = p) ->
  (forall r, M !! p = Some r -> er_key r = k) ->
  abs (<[p := mkErec k rc T]> M) (<[k := rc]> D).
Proof.
  intros Ha Hu Hpk k' r. destruct (decide (k' = k)) as [->|Hne].
  - rewrite lookup_insert_eq. split.
    + intros [= ->]. exists p, T. apply lookup_insert_eq.
    + intros (q & T' & [[-> [= -> ->]]|[Hq Hr]]%lookup_insert_cases); [done|]. by destruct (Hq (Hu _ _ Hr eq_refl)).
  - rewrite lookup_insert_ne by done. rewrite (Ha k' r). split; intros (q & T' & Hq).
    + exists q, T'. rewrite lookup_insert_ne; [done|]. intros ->. apply Hpk in Hq. by cbn in Hq.
    + apply lookup_insert_cases in Hq as [[-> [= -> _ _]]|[_ Hq]]; [done|eauto].
Qed.

Lemma abs_put g M D p k rc T rc' T' :
  db_core g M -> abs M D -> M !! p = Some (mkErec k rc T) ->
  abs (<[p := mkErec k rc' T']> M) (<[k := rc']> D).
Proof.
  intros Hc Ha Hp. apply abs_insert; [done| |].
  - intros q r Hq Hk. by apply (core_keys _ _ Hc q p r (mkErec k rc T)).
  - intros r Hr. by simplify_eq.
Qed.

Lemma abs_new M D p k rc T :
  abs M D -> found M k None -> M !! p = None -> abs (<[p := mkErec k rc T]> M) (<[k := rc]> D).
Proof.
  intros Ha Hno Hp. apply abs_insert; [done| |congruence].
  intros q r Hq Hk. by destruct (Hno q r Hq).
Qed.

Lemma abs_delete g M D p k rc T :
  db_core g M -> abs M D -> M !! p = Some (mkErec k rc T) -> abs (delete p M) (delete k D).
Proof.
  intros Hc Ha Hp k' r. rewrite lookup_delete_Some, (Ha k' r). split.
  - intros (Hne & q & T' & Hq). exists q, T'. rewrite lookup_delete_ne; [done|]. intros ->. by simplify_eq.
  - intros (q & T' & [Hqp Hq]%lookup_delete_Some). split; [|eauto]. intros <-. apply Hqp.
    apply (core_keys _ _ Hc p q _ _ Hp Hq). done.
Qed.

Lemma nodup_size {A} `{Countable A} (l : list A) (X : gset A) :
  NoDup l -> (forall x, x ∈ l -> x ∈ X) -> (length l <= size X)%nat.
Proof.
  intros Hn Hl. rewrite <- (size_list_to_set (C := gset A) l Hn). apply subseteq_size.
  intros x. rewrite elem_of_list_to_set. apply Hl.
Qed.

(** The keys of the entries, in the order of the map. *)
Lemma keys_nodup g M : db_core g M -> NoDup ((fun pr => er_key pr.2) <$> map_to_list M).
Proof.
  intros Hc. apply NoDup_fmap_2_strong; [|apply NoDup_map_to_list].
  intros [p r] [q r'] H1%elem_of_map_to_list H2%elem_of_map_to_list Hk. cbn in Hk.
  assert (p = q) as -> by (by eapply (core_keys _ _ Hc)). congruence.
Qed.

Lemma abs_size g M D : db_core g M -> abs M D -> (size M <= size D)%nat.
Proof.
  intros Hc Ha. pose proof (keys_nodup _ _ Hc) as Hn.
  rewrite <- (size_dom D). rewrite <- (length_map_to_list M).
  rewrite <- (length_fmap (fun pr => er_key pr.2) (map_to_list M)). apply nodup_size; [done|].
  intros k ([p [k' rc T]] & -> & Hin%elem_of_map_to_list)%list_elem_of_fmap. apply elem_of_dom. cbn.
  exists rc. apply Ha. eauto.
Qed.

Lemma heap_size g M : db_core g M -> (length (heap g) <= size M)%nat.
Proof.
  intros Hc. destruct (core_heap _ _ Hc) as (_ & [Hl Hn] & _).
  rewrite <- (length_fmap ref (heap g)), <- size_dom.
  assert (H : (length (omap id (ref <$> heap g)) <= size (dom M))%nat).
  { apply nodup_size.
    - clear -Hn. induction (ref <$> heap g) as [|[p|] l IH]; cbn; [constructor| |];
        apply NoDup_cons in Hn as [Hp Hn]; [|by apply IH].
      apply NoDup_cons. split; [|by apply IH]. intros (x & Hx & Hxp)%list_elem_of_omap. cbn in Hxp. by subst.
    - intros p (x & Hx & Hxp)%list_elem_of_omap. cbn in Hxp. subst x.
      apply list_elem_of_fmap in Hx as (it & Hit & Hin). apply list_elem_of_lookup in Hin as [i Hi].
      destruct (Hl i it Hi) as (q & v & Hq & Hv & _). rewrite <- (core_idx _ _ Hc). apply elem_of_dom.
      exists v. congruence. }
  enough (length (omap id (ref <$> heap g)) = length (ref <$> heap g)) by lia.
  clear -Hl. assert (Hall : forall x, x ∈ ref <$> heap g -> is_Some x).
  { intros x (it & -> & Hin)%list_elem_of_fmap. apply list_elem_of_lookup in Hin as [i Hi].
    destruct (Hl i it Hi) as (q & v & -> & _). eauto. }
  induction (ref <$> heap g) as [|x l IH]; [done|]. cbn.
  destruct (Hall x) as [p ->]; [set_solver|]. cbn. f_equal. apply IH. set_solver.
Qed.

(** Room for one more entry, and for one more tuple in every set. *)
Record db_room D : Prop := {
  room_keys : Z.of_nat (size D) + 1 < 2 ^ 60;
  room_sets : forall k l t, D !! k = Some (mkArec (AZset l) t) -> zlen l + 1 < 2 ^ 32 - 1
}.

(** The result of a command: the new database and the reply. *)
Definition replies (r : option (gdata * Buffer)) (out : Buffer) (D : adb) (v : value) : Prop :=
  exists g', r = Some (g', out ++ encode v) /\ db_rep g' D.

(** A lookup, in terms of the abstract database. *)
Lemma lookup_abs g D k :
  db_rep g D ->
  exists g' M r, lookup_entry g k = Some (g', r) /\ db_inv g' M /\ abs M D /\
    match r with
    | Some p => exists rc T, M !! p = Some (mkErec k rc T) /\ D !! k = Some rc
    | None => found M k None /\ D !! k = None
    end.
Proof.
  intros (M & Hi & Ha). destruct (lookup_entry_spec g M k Hi) as (h & hm & r & E & Hi' & Hf).
  exists (with_db h hm g), M, r. split_and!; [done|done|done|]. destruct r as [p|].
  - destruct Hf as (rc & T & Hp). exists rc, T. split; [done|]. by eapply abs_found.
  - split; [done|]. by eapply abs_none.
Qed.

(** The entry a lookup found, in the shape of its value. *)
Lemma entry_shape g M p k rc T :
  db_inv g M -> M !! p = Some (mkErec k rc T) ->
  exists e, entries g !! p = Some e /\ ekey e = k /\
    match a_val rc with
    | AStr s => etype e = T_STR /\ estr e = s /\ T = Leaf
    | AZset l => etype e = T_ZSET /\ zset_rep (zs g) (ezset e) T /\ zview (zs g) (inorder T) = l
    end.
Proof. intros [Hc _] Hp. exact (core_data _ _ Hc p _ Hp). Qed.

(** ** The commands *)

Lemma replies_intro g' out D v : db_rep g' D -> replies (Some (g', out ++ encode v)) out D v.
Proof. intros. by exists g'. Qed.

(** Turns the reply the code writes into an encoding. *)
Ltac reply :=
  rewrite ?out_nil_encode, ?out_str_encode, ?out_int_encode, ?out_dbl_encode, ?out_err_encode;
  apply replies_intro.

Lemma do_get_refines g D c k out :
  db_rep g D -> replies (do_get g [c; k] out) out D (spec_cmd 0 D (CGet k)).2.
Proof.
  intros Hr. destruct (lookup_abs g D k Hr) as (g1 & M & r & E & Hi & Ha & Hf).
  unfold do_get. cbn [lookup list_lookup]. rewrite bind_Some_l, E, bind_Some_l. cbn [spec_cmd snd].
  destruct r as [p|].
  - destruct Hf as (rc & T & Hp & HD). rewrite HD.
    destruct (entry_shape _ _ _ _ _ _ Hi Hp) as (e & He & _ & Hv). rewrite He, bind_Some_l.
    destruct rc as [[s|l] t]; cbn [a_val] in Hv; destruct Hv as (Ht & Hv & _); rewrite Ht; cbn.
    + rewrite Hv. reply. by exists M.
    + reply. by exists M.
  - destruct Hf as [_ ->]. reply. by exists M.
Qed.

(** Storing a string in an entry that holds one. *)
Lemma put_str g M p k s t T e v :
  db_inv g M -> M !! p = Some (mkErec k (mkArec (AStr s) t) T) -> entries g !! p = Some e ->
  db_inv (with_entry p (set_estr v e) g) (<[p := mkErec k (mkArec (AStr v) t) Leaf]> M).
Proof.
  intros [Hc Hm Hot] Hp He.
  destruct (type_of_val _ _ _ _ _ _ _ (core_data _ _ Hc p _ Hp) He) as (Hk & Ht & _ & HT). cbn in Hk, Ht, HT.
  split; [|cbn; by rewrite (dom_M_insert _ _ _ _ Hp)|exact Hot].
  apply (core_put g M p _ (zs g) e (set_estr v e) (AStr v) Leaf ∅) in Hp; [exact Hp|done|done|done|..].
  - intros Ht'. by apply (ow_str _ _ (core_owns _ _ Hc) p e).
  - exists (set_estr v e). rewrite lookup_insert_eq. by split_and!.
  - done.
  - intros i Hi. by apply elem_of_empty in Hi.
  - intros i Hi. by apply elem_of_nil in Hi.
  - intros i _ [Hi|Hi]; [by apply elem_of_empty in Hi|]. cbn in Hi. subst T. done.
Qed.

Lemma do_set_refines g D c k v out :
  db_rep g D -> db_room D ->
  replies (do_set g [c; k; v] out) out (spec_cmd 0 D (CSet k v)).1 (spec_cmd 0 D (CSet k v)).2.
Proof.
  intros Hr Hroom. destruct (lookup_abs g D k Hr) as (g1 & M & r & E & Hi & Ha & Hf).
  unfold do_set. cbn [lookup list_lookup]. rewrite !bind_Some_l, E, bind_Some_l. cbn [spec_cmd].
  destruct r as [p|].
  - destruct Hf as (rc & T & Hp & HD). rewrite HD.
    destruct (entry_shape _ _ _ _ _ _ Hi Hp) as (e & He & _ & Hv). rewrite He, bind_Some_l.
    destruct rc as [[s|l] t]; cbn [a_val] in Hv; destruct Hv as (Ht & _); rewrite Ht; cbn.
    + reply. eexists. split; [by eapply put_str|]. eapply abs_put; [apply Hi|done..].
    + reply. by exists M.
  - destruct Hf as [Hno HD]. rewrite HD. cbn [fst snd].
    destruct (insert_entry_spec g1 M k T_STR (AStr []) Hi Hno) as (g2 & ent & E2 & Hent & Hi2);
      [|by left|].
    { pose proof (abs_size _ _ _ (inv_core _ _ Hi) Ha). pose proof (room_keys _ Hroom). lia. }
    rewrite E2, bind_Some_l. assert (Hp2 : (<[ent := mkErec k (mkArec (AStr []) None) Leaf]> M) !! ent =
      Some (mkErec k (mkArec (AStr []) None) Leaf)) by apply lookup_insert_eq.
    destruct (entry_shape _ _ _ _ _ _ Hi2 Hp2) as (e & He & _). rewrite He, bind_Some_l. reply.
    eexists. split; [by eapply put_str|]. rewrite insert_insert_eq. by apply abs_new.
Qed.

Lemma do_del_refines g D c k out :
  db_rep g D ->
  replies (do_del g [c; k] out) out (spec_cmd 0 D (CDel k)).1 (spec_cmd 0 D (CDel k)).2.
Proof.
  intros (M & [Hc Hm Hot] & Ha). unfold do_del. cbn [lookup list_lookup]. rewrite bind_Some_l. cbn [spec_cmd fst snd].
  destruct (keyed_delete (Hkeyed := entries_keyed g M Hc) _ k Hm) as (h & hm & r & E & Hst & Hot' & Hres).
  rewrite Hot in Hot'. rewrite E, bind_Some_l. pose proof (with_db_core _ _ h hm Hc Hst) as Hc1. destruct r as [p|].
  - destruct Hres as (Hdom & Hk & Hm'). destruct (found_keyed M k (Some p) (conj Hdom Hk)) as (rc & T & Hp).
    destruct (entry_del_spec (with_db h hm g) M p _ Hc1 Hp Hm' Hot') as (g' & E' & Hi' & _).
    rewrite E', bind_Some_l. pose proof (abs_found g _ _ _ _ _ _ Ha Hp) as HD.
    rewrite bool_decide_eq_true_2 by eauto. unfold vbool. reply. exists (delete p M). split; [done|].
    by eapply abs_delete.
  - destruct Hres as (Hno & Hm'). pose proof (abs_none _ _ _ Ha (found_keyed M k None Hno)) as HD.
    rewrite bool_decide_eq_false_2 by (rewrite HD; by intros [? ?]). rewrite delete_id by done.
    unfold vbool. reply. exists M. done.
Qed.

Lemma inv_ttl_put g M p r a' refs' t :
  db_inv g M -> M !! p = Some r -> heap_rep a' refs' -> dom refs' = dom (heap_idx g) ->
  ttl_rep a' refs' p t ->
  (forall q s, q <> p -> ttl_rep (heap g) (heap_idx g) q s -> ttl_rep a' refs' q s) ->
  db_inv (with_heap a' refs' g) (<[p := mkErec (er_key r) (set_ttl t (er_rec r)) (er_tree r)]> M).
Proof.
  intros [Hc Hm Hot] Hp Hh Hd Ht Ho. split; [by apply core_ttl_put| |done].
  by rewrite (dom_M_insert _ _ _ _ Hp).
Qed.

(** Both branches of [entry_set_ttl], and the one that does nothing. *)
Lemma entry_set_ttl_spec now g M p r ttl :
  db_inv g M -> M !! p = Some r -> zlen (heap g) + 1 < 2 ^ 60 ->
  exists g', entry_set_ttl now g p ttl = Some g' /\
    db_inv g' (<[p := mkErec (er_key r)
      (set_ttl (if ttl <? 0 then None else Some (u64 (now + ttl))) (er_rec r)) (er_tree r)]> M).
Proof.
  intros Hi Hp Hlen. pose proof (core_ttl _ _ (inv_core _ _ Hi) p r Hp) as Ht.
  pose proof (core_heap _ _ (inv_core _ _ Hi)) as Hh. unfold entry_set_ttl.
  destruct (Z.ltb_spec ttl 0) as [Hneg|Hpos].
  - destruct (entry_del_timer g M p r (inv_core _ _ Hi) Hp)
      as (idx & g' & Hidx & E & Hc' & Hn & Hd & _).
    rewrite Hidx, bind_Some_l. exists g'. split; [|split; [done|by rewrite (dom_M_insert _ _ _ _ Hp), Hn, Hd; apply Hi|rewrite Hn, Hd; apply Hi]].
    cbn [andb]. destruct (negb (idx =? size_max)); [done|]. destruct (Z.leb_spec 0 ttl); [lia|done].
  - destruct (timer_set_spec (heap g) (heap_idx g) p (u64 (now + u64 ttl)) _ Hh Ht Hlen)
      as (idx & a' & refs' & Hidx & E & Hh' & Ht' & Hd & Ho).
    rewrite Hidx, bind_Some_l. cbn [andb]. destruct (Z.leb_spec 0 ttl); [|lia].
    rewrite E, bind_Some_l. exists (with_heap a' refs' g). split; [done|].
    apply inv_ttl_put; try done. unfold u64 in *. by rewrite Zplus_mod_idemp_r in Ht'.
Qed.

Lemma do_expire_refines now g D c k ttl out :
  db_rep g D -> db_room D ->
  replies (do_expire now g [c; k; ttl] out) out
    (spec_cmd now D (CPexpire k ttl)).1 (spec_cmd now D (CPexpire k ttl)).2.
Proof.
  intros Hr Hroom. unfold do_expire. cbn [lookup list_lookup]. rewrite !bind_Some_l. cbn [spec_cmd].
  destruct (str2int ttl) as [t|]; [|reply; exact Hr].
  destruct (lookup_abs g D k Hr) as (g1 & M & r & E & Hi & Ha & Hf). rewrite E, bind_Some_l.
  destruct r as [p|].
  - destruct Hf as (rc & T & Hp & HD). rewrite HD.
    destruct (entry_set_ttl_spec now g1 M p _ t Hi Hp) as (g2 & E2 & Hi2).
    { pose proof (abs_size _ _ _ (inv_core _ _ Hi) Ha). pose proof (heap_size _ _ (inv_core _ _ Hi)).
      pose proof (room_keys _ Hroom). unfold zlen. lia. }
    rewrite E2, bind_Some_l. unfold vbool. reply. eexists. split; [exact Hi2|].
    eapply abs_put; [apply Hi|done..].
  - destruct Hf as [_ ->]. unfold vbool. reply. by exists M.
Qed.

Lemma do_ttl_refines now g D c k out :
  db_rep g D -> replies (do_ttl now g [c; k] out) out D (spec_cmd now D (CPttl k)).2.
Proof.
  intros Hr. unfold do_ttl. cbn [lookup list_lookup]. rewrite bind_Some_l. cbn [spec_cmd snd].
  destruct (lookup_abs g D k Hr) as (g1 & M & r & E & Hi & Ha & Hf). rewrite E, bind_Some_l.
  destruct r as [p|].
  - destruct Hf as (rc & T & Hp & HD). rewrite HD.
    pose proof (core_ttl _ _ (inv_core _ _ Hi) p _ Hp) as Ht. cbn [er_rec] in Ht.
    destruct rc as [v [t|]]; cbn [a_ttl] in Ht.
    + destruct (item_index _ _ _ _ (core_heap _ _ (inv_core _ _ Hi)) Ht) as (i & Hix & Hidx & _ & Hne).
      rewrite Hidx, bind_Some_l. destruct (Z.eqb_spec (Z.of_nat i) size_max); [done|].
      rewrite arr_get_nat, Hix, bind_Some_l. cbn [val].
      replace (if now <? t then t - now else 0) with (Z.max 0 (t - now))
        by (destruct (Z.ltb_spec now t); lia).
      reply. by exists M.
    + cbn in Ht. rewrite Ht, bind_Some_l, Z.eqb_refl. reply. by exists M.
  - destruct Hf as [_ ->]. reply. by exists M.
Qed.

(** KEYS visits every entry of the table. *)
Lemma visit_keys g M l out :
  db_core g M -> (forall p, p ∈ l -> p ∈ dom M) ->
  exists ks, snd <$> visit (cb_keys g) l out = Some (out ++ flat_map encode (map VStr ks)) /\
    ks = (fun p => from_option er_key [] (M !! p)) <$> l.
Proof.
  intros Hc. revert out. induction l as [|p l IH]; intros out Hl.
  - exists []. cbn. by rewrite app_nil_r.
  - assert (Hp : p ∈ dom M) by (apply Hl; set_solver). apply elem_of_dom in Hp as [r Hp].
    destruct (core_data _ _ Hc p r Hp) as (e & He & Hk & _).
    destruct (IH (out_str out (ekey e))) as (ks & E & Hks); [set_solver|].
    exists (er_key r :: ks). cbn [visit].
    assert (Hcb : cb_keys g p out = Some (true, out_str out (ekey e))) by (unfold cb_keys; by rewrite He).
    rewrite Hcb, bind_Some_l. split.
    + rewrite E, out_str_encode, Hk. cbn [map flat_map]. by rewrite <- app_assoc.
    + rewrite fmap_cons, Hks, Hp. done.
Qed.

Lemma do_keys_refines g D out :
  db_rep g D -> exists v, replies (do_keys g out) out D v /\ spec_reply 0 D CKeys v.
Proof.
  intros (M & [Hc Hm Hot] & Ha). unfold do_keys.
  destruct (hm_foreach_spec (cb_keys g) (dbnodes g) (db g) (dom M) (out_arr out (u32 (hm_size (db g)))) Hm)
    as (l & Hl & Hnd & E).
  assert (Hdom : forall p, p ∈ l <-> p ∈ dom M) by (intros p; by rewrite <- Hl, elem_of_list_to_set).
  destruct (visit_keys g M l (out_arr out (u32 (hm_size (db g)))) Hc) as (ks & Ev & Hks); [by intros p; rewrite Hdom|].
  rewrite E, Ev, bind_Some_l.
  assert (Hlen : hm_size (db g) = zlen (map VStr ks)).
  { rewrite (hm_size_spec _ _ _ Hm), <- Hl, (size_list_to_set l Hnd). unfold zlen.
    by rewrite length_map, Hks, length_fmap. }
  rewrite Hlen, out_arr_encode. exists (VArr (map VStr ks)). split; [apply replies_intro; by exists M|].
  exists ks. split; [done|]. apply NoDup_Permutation.
  - rewrite Hks. apply NoDup_fmap_2_strong; [|done]. intros p q Hp Hq Heq.
    apply Hdom, elem_of_dom in Hp as [r Hp], Hq as [r' Hq]. rewrite Hp, Hq in Heq. by eapply (core_keys _ _ Hc).
  - apply NoDup_fst_map_to_list.
  - intros k. rewrite Hks, list_elem_of_fmap, list_elem_of_fmap. split.
    + intros (p & -> & Hp). apply Hdom, elem_of_dom in Hp as [[k rc T] Hp]. rewrite Hp. cbn.
      exists (k, rc). split; [done|]. apply elem_of_map_to_list, Ha. eauto.
    + intros ([k' rc] & -> & Hin%elem_of_map_to_list). apply Ha in Hin as (p & T & Hp). exists p.
      rewrite Hp. split; [done|]. apply Hdom. by apply elem_of_dom_2 in Hp.
Qed.

(** ** Sorted sets *)

(** Storing the result of an operation on the sorted set of an entry. *)
Lemma put_zset_spec g M p k l t T z' x e x' l' T' X :
  db_inv g M -> M !! p = Some (mkErec k (mkArec (AZset l) t) T) ->
  entries g !! p = Some e -> ezset e = x -> zothers z' x' = zothers (zs g) x ->
  zset_rep z' x' T' -> zview z' (inorder T') = l' ->
  zkeep (X ∪ nodes T) (zs g) z' -> (forall i, i ∈ X -> znew (zs g) i) ->
  (forall i, i ∈ inorder T' -> i ∈ X \/ i ∈ inorder T) ->
  (forall i, ~ znew z' i -> i ∈ X \/ i ∈ inorder T -> i ∈ inorder T') ->
  exists g', put_zset g p z' x' = Some g' /\ zs g' = z' /\
    db_inv g' (<[p := mkErec k (mkArec (AZset l') t) T']> M) /\
    exists e, entries g' !! p = Some e /\ ezset e = x'.
Proof.
  intros [Hc Hm Hot] Hp He Hx Hzo Hr Hv Hk Hnew Hsub Hback. unfold put_zset.
  destruct (type_of_val _ _ _ _ _ _ _ (core_data _ _ Hc p _ Hp) He) as (Hek & Ht & _). rewrite He, bind_Some_l.
  eexists. split; [done|]. split; [done|]. split.
  - split; [|cbn; by rewrite (dom_M_insert _ _ _ _ Hp)|exact Hot].
    apply (core_put g M p _ z' e (set_ezset x' e) (AZset l') T' X) in Hp; [exact Hp|try done..].
    + cbn. by rewrite Hx.
    + cbn. by rewrite Ht.
    + exists (set_ezset x' e). rewrite lookup_insert_eq. by split_and!.
  - exists (set_ezset x' e). cbn. by rewrite lookup_insert_eq.
Qed.

Lemma zview_length z T l : zview z (inorder T) = l -> tsize T = zlen l.
Proof. intros <-. unfold tsize, zlen, zview. by rewrite length_fmap. Qed.

(** The part of ZADD that follows the choice of the entry. *)
Lemma zadd_entry g M p k l t T nm sc out :
  db_inv g M -> M !! p = Some (mkErec k (mkArec (AZset l) t) T) -> dbl_isnan sc = false ->
  zlen l + 1 < 2 ^ 32 - 1 ->
  exists g' T', (e ← entries g !! p;
      '(z, x, added) ← zset_insert (zs g) (ezset e) nm sc;
      g ← put_zset g p z x;
      Some (g, out_int out (if (added : bool) then 1 else 0))) =
    Some (g', out ++ encode (vbool (bool_decide (nm ∉ znames l)))) /\
    db_inv g' (<[p := mkErec k (mkArec (AZset (zadd sc nm l)) t) T']> M).
Proof.
  intros Hi Hp Hnan Hlen. destruct (entry_shape _ _ _ _ _ _ Hi Hp) as (e & He & _ & Ht & Hr & Hv).
  rewrite He, bind_Some_l.
  destruct (zset_insert_spec _ _ _ nm sc Hr Hnan) as (z' & x' & T' & X & E & Hr' & Hk & Hzo & Hnew & Hiff & _ & Hv').
  { by rewrite (zview_length _ _ _ Hv). }
  rewrite Hv in E, Hv'. rewrite E, bind_Some_l.
  destruct (put_zset_spec g M p k l t T z' _ e x' _ T' X Hi Hp He eq_refl Hzo Hr' Hv' Hk Hnew) as (g' & E' & _ & Hi' & _).
  { intros i. by apply Hiff. }
  { intros i _. by apply Hiff. }
  rewrite E', bind_Some_l. exists g', T'. split; [|done]. by rewrite out_int_encode.
Qed.

Lemma do_zadd_refines g D c k sc nm out :
  db_rep g D -> db_room D ->
  replies (do_zadd g [c; k; sc; nm] out) out
    (spec_cmd 0 D (CZadd k sc nm)).1 (spec_cmd 0 D (CZadd k sc nm)).2.
Proof.
  intros Hr Hroom. unfold do_zadd. cbn [lookup list_lookup]. rewrite !bind_Some_l. cbn [spec_cmd].
  destruct (str2dbl sc) as [s|] eqn:Es; [|reply; exact Hr]. apply str2dbl_ok in Es as [Hnan _].
  destruct (lookup_abs g D k Hr) as (g1 & M & r & E & Hi & Ha & Hf). rewrite E, bind_Some_l.
  destruct r as [p|].
  - destruct Hf as (rc & T & Hp & HD). rewrite HD.
    destruct (entry_shape _ _ _ _ _ _ Hi Hp) as (e & He & _ & Hv). rewrite He, bind_Some_l.
    destruct rc as [[v|l] t]; cbn [a_val] in Hv; destruct Hv as (Ht & _); rewrite Ht;
      cbn [Z.eqb T_STR T_ZSET Pos.eqb negb]; rewrite bind_Some_l.
    + reply. by exists M.
    + destruct (zadd_entry g1 M p k l t T nm s out Hi Hp Hnan) as (g2 & T' & E2 & Hi2);
        [by eapply room_sets|].
      rewrite He, bind_Some_l in E2. rewrite He, bind_Some_l, E2. apply replies_intro. eexists.
      split; [exact Hi2|]. eapply abs_put; [apply Hi|done..].
  - destruct Hf as [Hno HD]. rewrite HD. cbn [fst snd].
    destruct (insert_entry_spec g1 M k T_ZSET (AZset []) Hi Hno) as (g2 & ent & E2 & Hent & Hi2);
      [|by right|].
    { pose proof (abs_size _ _ _ (inv_core _ _ Hi) Ha). pose proof (room_keys _ Hroom). lia. }
    rewrite E2, bind_Some_l, bind_Some_l.
    destruct (zadd_entry g2 _ ent k [] None Leaf nm s out Hi2) as (g3 & T' & E3 & Hi3);
      [apply lookup_insert_eq|done|change (zlen (@nil tuple)) with 0; lia|].
    rewrite E3. rewrite insert_insert_eq in Hi3.
    assert (Hnil : bool_decide (nm ∉ znames []) = true).
    { apply bool_decide_eq_true_2. cbn. intros H. by apply elem_of_nil in H. }
    rewrite Hnil. apply replies_intro. eexists. split; [exact Hi3|]. by apply abs_new.
Qed.

(** What a command that expects a set gets, and the tree of that set. *)
Definition zref_rep M D (k : key) (T : tree) (r : option zref) : Prop :=
  match r with
  | None => get_zset D k = None
  | Some ZEmpty => D !! k = None /\ T = Leaf
  | Some (ZEntry p) => exists l t, M !! p = Some (mkErec k (mkArec (AZset l) t) T) /\
      D !! k = Some (mkArec (AZset l) t)
  end.

Lemma expect_zset_spec g D k :
  db_rep g D ->
  exists g' M r T, expect_zset g k = Some (g', r) /\ db_inv g' M /\ abs M D /\ zref_rep M D k T r.
Proof.
  intros Hr. unfold expect_zset.
  destruct (lookup_abs g D k Hr) as (g1 & M & r & E & Hi & Ha & Hf). rewrite E, bind_Some_l.
  exists g1, M. destruct r as [p|].
  - destruct Hf as (rc & T & Hp & HD).
    destruct (entry_shape _ _ _ _ _ _ Hi Hp) as (e & He & _ & Hv). rewrite He, bind_Some_l.
    destruct rc as [[v|l] t]; cbn [a_val] in Hv; destruct Hv as (Ht & _); rewrite Ht;
      cbn [Z.eqb T_STR T_ZSET Pos.eqb]; eexists _, T; (split; [done|]); (split; [done|]); (split; [done|]);
      cbn; unfold get_zset; rewrite ?HD; [done|].
    by exists l, t.
  - destruct Hf as [_ HD]. eexists _, Leaf. by split_and!.
Qed.

(** The set behind a reference. *)
Lemma zref_read g M D k T r :
  db_inv g M -> zref_rep M D k T (Some r) ->
  exists x, zref_get g r = Some x /\ zset_rep (zs g) x T /\ get_zset D k = Some (zview (zs g) (inorder T)).
Proof.
  intros Hi. destruct r as [|p]; cbn.
  - intros [HD ->]. exists zset_null. split_and!; [done|apply zset_rep_null|]. unfold get_zset. by rewrite HD.
  - intros (l & t & Hp & HD). destruct (entry_shape _ _ _ _ _ _ Hi Hp) as (e & He & _ & _ & Hr & Hv).
    exists (ezset e). rewrite He. split_and!; [done|done|]. unfold get_zset. by rewrite HD, Hv.
Qed.

(** Looking up a name leaves the abstract database alone. *)
Lemma lookup_znode_spec g M D k T r nm :
  db_inv g M -> zref_rep M D k T (Some r) ->
  exists g' n, lookup_znode g r nm = Some (g', n) /\ db_inv g' M /\ znamed (zs g') T nm n.
Proof.
  intros Hi Hz. destruct (zref_read g M D k T r Hi Hz) as (x & Hx & Hr & _). unfold lookup_znode.
  rewrite Hx, bind_Some_l.
  destruct (zset_lookup_spec _ _ _ nm Hr) as (z' & x' & n & E & Hr' & Hk & Hzo & Ht' & Hd' & Hroot & _ & Hn).
  destruct r as [|p].
  - destruct Hz as [_ ->]. cbn in Hx. injection Hx as <-. unfold zset_lookup. cbn [zroot zset_null].
    rewrite bind_Some_l. cbn. exists (with_zs (zs g) g), None. split; [done|].
    split; [by destruct Hi as [[] ? ?]|]. intros p Hp. by apply elem_of_nil in Hp.
  - destruct Hz as (l & t & Hp & HD). rewrite E, bind_Some_l. cbn [zref_put].
    destruct (entry_shape _ _ _ _ _ _ Hi Hp) as (e & He & _ & _ & _ & Hv).
    cbn [zref_get] in Hx. rewrite He, bind_Some_l in Hx. injection Hx as Hx.
    assert (Hv' : zview z' (inorder T) = l) by (rewrite <- Hv; apply zview_frame; intros; by rewrite Hd').
    destruct (put_zset_spec g M p k l t T z' x e x' l T ∅ Hi Hp He Hx Hzo Hr' Hv') as (g' & E' & Hz' & Hi' & _).
    { by rewrite union_empty_l_L. }
    { intros i H. by apply elem_of_empty in H. }
    { intros i H. by right. }
    { intros i _ [H|H]; [by apply elem_of_empty in H|done]. }
    rewrite E', bind_Some_l. rewrite insert_id in Hi' by done.
    exists g', n. subst z'. split_and!; try done.
    destruct n as [q|]; cbn in *; unfold tup in *; by rewrite Hd'.
Qed.

Lemma znamed_find z zs T nm n :
  zset_rep z zs T -> znamed z T nm n ->
  zfind nm (zview z (inorder T)) = match n with Some p => Some (tup z p) | None => None end /\
  bool_decide (nm ∈ znames (zview z (inorder T))) = bool_decide (is_Some n).
Proof.
  intros Hr Hn. pose proof (zr_names _ _ _ Hr) as Hnd. destruct n as [p|]; cbn in Hn.
  - destruct Hn as [Hp <-]. split.
    + apply list_elem_of_split in Hp as (a & b & E). rewrite E in *. rewrite zview_app, zview_cons in *.
      by apply zfind_middle.
    + rewrite !bool_decide_eq_true_2; [done|eauto|]. apply elem_of_names. eauto.
  - assert (Hno : nm ∉ (zview z (inorder T)).*2) by (intros (p & Hp & Hq)%elem_of_names; by eapply Hn).
    split; [by apply zfind_absent|]. rewrite !bool_decide_eq_false_2; [done|by intros [? ?]|done].
Qed.

Lemma abs_id M D k r : D !! k = Some r -> <[k := r]> D = D.
Proof. intros. by apply insert_id. Qed.

Lemma zdel_same z zs T nm :
  znamed z T nm None -> zset_rep z zs T -> zdel nm (zview z (inorder T)) = zview z (inorder T).
Proof. intros Hn _. apply zdel_absent. intros (p & Hp & Hq)%elem_of_names. by eapply Hn. Qed.

Lemma do_zrem_refines g D c k nm out :
  db_rep g D ->
  replies (do_zrem g [c; k; nm] out) out (spec_cmd 0 D (CZrem k nm)).1 (spec_cmd 0 D (CZrem k nm)).2.
Proof.
  intros Hr. unfold do_zrem. cbn [lookup list_lookup]. rewrite !bind_Some_l. cbn [spec_cmd].
  destruct (expect_zset_spec g D k Hr) as (g1 & M & r & T & E & Hi & Ha & Hz). rewrite E, bind_Some_l.
  destruct r as [r|].
  2: { cbn in Hz. unfold get_zset in Hz. destruct (D !! k) as [[[s|l] t]|]; [|done|done].
       reply. by exists M. }
  destruct (lookup_znode_spec g1 M D k T r nm Hi Hz) as (g2 & n & E2 & Hi2 & Hn). rewrite E2, bind_Some_l.
  destruct (zref_read g2 M D k T r Hi2 Hz) as (x & Hx & Hr2 & Hg).
  destruct (znamed_find _ _ _ _ _ Hr2 Hn) as [_ Hin]. destruct r as [|p].
  - destruct Hz as [HD ->]. rewrite HD.
    destruct n as [q|]; [destruct Hn as [Hq _]; by apply elem_of_nil in Hq|].
    unfold vbool. reply. by exists M.
  - destruct Hz as (l & t & Hp & HD). unfold get_zset in Hg. rewrite HD in Hg |- *. injection Hg as ->.
    rewrite Hin. destruct n as [q|].
    + rewrite Hx, bind_Some_l. destruct Hn as [Hq Hqn].
      destruct (zset_delete_spec _ _ _ q Hr2 Hq) as (z3 & x3 & T3 & E3 & Hr3 & Hk3 & Hzo3 & Hperm & Hnew3 & Hv3).
      destruct (entry_shape _ _ _ _ _ _ Hi2 Hp) as (e & He & _).
      cbn [zref_get] in Hx. rewrite He, bind_Some_l in Hx. injection Hx as Hx.
      rewrite E3, bind_Some_l. rewrite Hqn in Hv3. cbn [zref_put].
      destruct (put_zset_spec g2 M p k _ t T z3 x e x3 _ T3 ∅ Hi2 Hp He Hx Hzo3 Hr3 Hv3) as (g4 & E4 & _ & Hi4 & _).
      { by rewrite union_empty_l_L. }
      { intros i H. by apply elem_of_empty in H. }
      { intros i H. right. rewrite Hperm. apply elem_of_cons. by right. }
      { intros i Hl [H|H]; [by apply elem_of_empty in H|]. rewrite Hperm in H.
        apply elem_of_cons in H as [->|H]; [|done]. by destruct (Hl Hnew3). }
      rewrite E4, bind_Some_l, bool_decide_eq_true_2 by eauto. unfold vbool. reply. eexists.
      split; [exact Hi4|]. eapply abs_put; [apply Hi2|done..].
    + rewrite bool_decide_eq_false_2 by (by intros [? ?]). rewrite (zdel_same _ _ _ _ Hn Hr2), abs_id by done.
      unfold vbool. reply. by exists M.
Qed.

Lemma do_zscore_refines g D c k nm out :
  db_rep g D -> replies (do_zscore g [c; k; nm] out) out D (spec_cmd 0 D (CZscore k nm)).2.
Proof.
  intros Hr. unfold do_zscore. cbn [lookup list_lookup]. rewrite !bind_Some_l. cbn [spec_cmd snd].
  destruct (expect_zset_spec g D k Hr) as (g1 & M & r & T & E & Hi & Ha & Hz). rewrite E, bind_Some_l.
  destruct r as [r|]; [|cbn in Hz; rewrite Hz; reply; by exists M].
  destruct (lookup_znode_spec g1 M D k T r nm Hi Hz) as (g2 & n & E2 & Hi2 & Hn). rewrite E2, bind_Some_l.
  destruct (zref_read g2 M D k T r Hi2 Hz) as (x & Hx & Hr2 & Hg). rewrite Hg.
  destruct (znamed_find _ _ _ _ _ Hr2 Hn) as [-> _]. destruct n as [q|]; [|reply; by exists M].
  destruct Hn as [Hq _]. destruct (zt_live _ _ _ (zr_tree _ _ _ Hr2) q Hq) as (d & Hd & _).
  rewrite Hd, bind_Some_l. unfold tup. rewrite Hd. reply. by exists M.
Qed.

(** ** ZQUERY *)

(** The elements of the reply for a list of tuples. *)
Definition zvalues (l : list tuple) : list value := flat_map (fun t => [VStr t.2; VDbl t.1]) l.

Lemma zvalues_length l : zlen (zvalues l) = 2 * zlen l.
Proof.
  induction l as [|t l IH]; [done|]. change (zvalues (t :: l)) with (VStr t.2 :: VDbl t.1 :: zvalues l).
  rewrite !zlen_cons, IH. lia.
Qed.

Lemma zquery_loop_spec z r T l : forall fuel pre n limit out,
  ztree z r T -> inorder T = pre ++ l -> (length l <= fuel)%nat -> 0 <= n -> n + 2 * zlen l < 2 ^ 63 ->
  let items := take (Z.to_nat ((limit - n + 1) / 2)) (zview z l) in
  zquery_loop fuel z (head l) n limit out =
    Some (n + 2 * zlen items, out ++ flat_map encode (zvalues items)).
Proof.
  induction l as [|p l IH]; intros fuel pre n limit out Ht HT Hf Hn Hmax; cbv zeta.
  { cbn [zview fmap list_fmap]. rewrite take_nil. cbn. rewrite app_nil_r.
    change (zlen (@nil tuple)) with 0. rewrite Z.mul_0_r, Z.add_0_r. by destruct fuel. }
  rewrite zlen_cons in Hmax. pose proof (zlen_nonneg l). cbn [length] in Hf. destruct fuel as [|fuel]; [lia|].
  cbn [zquery_loop head]. rewrite zview_cons. destruct (Z.ltb_spec n limit) as [Hlt|Hge].
  - assert (Hp : p ∈ inorder T) by (rewrite HT; set_solver).
    destruct (zt_live _ _ _ Ht p Hp) as (d & Hd & _). rewrite Hd, bind_Some_l.
    assert (Hi : inorder T !! length pre = Some p) by (by rewrite HT, list_lookup_middle).
    rewrite (znode_offset_spec z r T (length pre) p 1 Ht Hi), bind_Some_l.
    assert (Hnext : arr_get (inorder T) (Z.of_nat (length pre) + 1) = head l).
    { replace (Z.of_nat (length pre) + 1) with (Z.of_nat (length (pre ++ [p]))) by (rewrite length_app; simpl; lia).
      rewrite arr_get_nat, HT. replace (pre ++ p :: l) with ((pre ++ [p]) ++ l) by (by rewrite <- app_assoc).
      rewrite lookup_app_r, Nat.sub_diag by lia. by destruct l. }
    rewrite Hnext. rewrite i64_small by lia.
    rewrite (IH fuel (pre ++ [p])); [|done|by rewrite <- app_assoc|lia|lia|lia].
    replace ((limit - n + 1) / 2) with ((limit - (n + 2) + 1) / 2 + 1)
      by (replace (limit - n + 1) with ((limit - (n + 2) + 1) + 1 * 2) by lia; rewrite Z.div_add; lia).
    assert (0 <= (limit - (n + 2) + 1) / 2) by (apply Z.div_pos; lia).
    replace (Z.to_nat ((limit - (n + 2) + 1) / 2 + 1)) with (S (Z.to_nat ((limit - (n + 2) + 1) / 2))) by lia.
    cbn [take]. f_equal. f_equal.
    + rewrite zlen_cons. lia.
    + rewrite out_str_encode, out_dbl_encode. rewrite (znode_score _ _ _ Hd). cbn [zvalues flat_map app fst snd].
      by rewrite <- !app_assoc.
  - replace (Z.to_nat ((limit - n + 1) / 2)) with 0%nat.
    2: { assert ((limit - n + 1) / 2 < 1); [|lia]. apply Z.div_lt_upper_bound; lia. }
    cbn. rewrite app_nil_r. change (zlen (@nil tuple)) with 0. by rewrite Z.mul_0_r, Z.add_0_r.
Qed.

Lemma zview_filter z kt l :
  zview z (filter (zge z kt) l) = filter (fun t => tuple_ltb t kt = false) (zview z l).
Proof.
  induction l as [|p l IH]; [done|]. rewrite zview_cons. destruct (tuple_ltb (tup z p) kt) eqn:E.
  - rewrite !filter_cons_False by (unfold zge; congruence). done.
  - rewrite !filter_cons_True by done. by rewrite zview_cons, IH.
Qed.

Lemma zview_drop z n l : zview z (drop n l) = drop n (zview z l).
Proof. apply fmap_drop. Qed.

(** Where ZQUERY starts, and what follows. *)
Lemma zquery_start z x T sc nm off lim :
  zset_rep z x T -> dbl_isnan sc = false ->
  exists suf pre, inorder T = pre ++ suf /\
    (znode ← zset_seekge z x sc nm; znode_offset z znode off) = Some (head suf) /\
    zrange (sc, nm) off lim (zview z (inorder T)) = take (Z.to_nat ((lim + 1) / 2)) (zview z suf).
Proof.
  intros Hr Hn. pose proof (zr_tree _ _ _ Hr) as Ht.
  rewrite (zset_seekge_spec z x T sc nm Ht Hn), bind_Some_l. unfold zrange. rewrite <- zview_filter.
  destruct (zge_suffix z (sc, nm) (inorder T) (zt_sorted _ _ _ Ht)) as (a & b & Hab & -> & _ & _).
  destruct b as [|p b].
  - exists [], (inorder T). rewrite app_nil_r. split_and!; [done|done|by rewrite (take_nil : forall n, take n (zview z []) = [])].
  - rewrite zview_cons. cbn [head].
    assert (Hi : inorder T !! length a = Some p) by (by rewrite Hab, list_lookup_middle).
    rewrite (znode_offset_spec z _ T (length a) p off Ht Hi).
    assert (Hpos : zlen (zview z (inorder T)) - zlen (tup z p :: zview z b) + off = Z.of_nat (length a) + off).
    { rewrite Hab, zview_app, zlen_app, zview_cons. unfold zlen, zview. rewrite length_fmap. lia. }
    rewrite Hpos. assert (Hzl : zlen (zview z (inorder T)) = zlen (inorder T)) by (unfold zlen, zview; by rewrite length_fmap).
    rewrite Hzl. case_decide as Hd.
    + set (i := Z.to_nat (Z.of_nat (length a) + off)). exists (drop i (inorder T)), (take i (inorder T)).
      rewrite take_drop. split_and!; [done| |by rewrite zview_drop].
      rewrite arr_get_Z by lia. fold i. f_equal. by rewrite head_lookup, lookup_drop, Nat.add_0_r.
    + exists [], (inorder T). rewrite app_nil_r. split_and!; [done|by rewrite arr_get_None|].
      by rewrite (take_nil : forall n, take n (zview z []) = []).
Qed.

Lemma do_zquery_refines g D c k sc nm off lim out :
  db_rep g D ->
  replies (do_zquery g [c; k; sc; nm; off; lim] out) out D (spec_cmd 0 D (CZquery k sc nm off lim)).2.
Proof.
  intros Hr. unfold do_zquery. cbn [lookup list_lookup]. rewrite !bind_Some_l. cbn [spec_cmd snd].
  destruct (str2dbl sc) as [s|] eqn:Es; [|reply; exact Hr]. apply str2dbl_ok in Es as [Hnan _].
  destruct (str2int off) as [o|]; [|reply; exact Hr].
  destruct (str2int lim) as [m|]; [|reply; exact Hr].
  destruct (expect_zset_spec g D k Hr) as (g1 & M & r & T & E & Hi & Ha & Hz). rewrite E, bind_Some_l.
  destruct r as [r|]; [|cbn in Hz; rewrite Hz; reply; by exists M].
  destruct (zref_read g1 M D k T r Hi Hz) as (x & Hx & Hr1 & Hg). rewrite Hg.
  destruct (zquery_start (zs g1) x T s nm o m Hr1 Hnan) as (suf & pre & HT & Es & ->).
  destruct (Z.leb_spec m 0) as [Hm|Hm].
  - replace (Z.to_nat ((m + 1) / 2)) with 0%nat.
    2: { assert ((m + 1) / 2 < 1); [|lia]. apply Z.div_lt_upper_bound; lia. }
    cbn [take flat_map]. exists g1. split; [|by exists M].
    rewrite <- out_arr_encode. cbn [flat_map]. by rewrite app_nil_r.
  - rewrite Hx, bind_Some_l. apply bind_Some in Es as (zn & Es1 & Es2).
    rewrite Es1, bind_Some_l, Es2, bind_Some_l.
    destruct (out_begin_arr out) as [out1 ctx] eqn:Eb.
    pose proof (zt_size _ _ _ (zr_tree _ _ _ Hr1)) as Hsz. unfold tsize in Hsz.
    rewrite HT, length_app in Hsz. pose proof (zlen_nonneg suf).
    rewrite (zquery_loop_spec (zs g1) (zroot x) T suf _ pre 0 m out1); [|by apply Hr1|done| |lia|unfold zlen; lia].
    2: { etransitivity; [|apply (nodes_length_le (trees (zs g1)) (inorder T))].
         - rewrite HT, length_app. lia.
         - apply Hr1.
         - intros i. apply (tree_rep_dom _ None). apply Hr1. }
    rewrite bind_Some_l, Z.sub_0_r. set (items := take _ _).
    assert (Hend : out_end_arr (out1 ++ flat_map encode (zvalues items)) ctx (u32 (0 + 2 * zlen items)) =
      Some (out ++ encode (VArr (zvalues items)))).
    { pose proof (out_end_arr_encode out (zvalues items) (u32 (0 + 2 * zlen items))) as H'.
      rewrite Eb in H'. apply H'. rewrite zvalues_length. unfold u32. by rewrite Zmod_mod. }
    rewrite Hend, bind_Some_l. apply replies_intro. by exists M.
Qed.

(** ** Dispatch *)

Lemma is_cmd_length cmd n nm : length cmd <> n -> is_cmd cmd n nm = false.
Proof. intros H. unfold is_cmd. by rewrite bool_decide_eq_false_2. Qed.

Lemma is_cmd_decide c args n nm :
  length (c :: args) = n -> is_cmd (c :: args) n nm = bool_decide (c = nm).
Proof.
  intros H. unfold is_cmd. rewrite bool_decide_eq_true_2 by done. cbn [andb lookup list_lookup].
  apply bool_decide_ext. split; [by intros [= ->]|by intros ->].
Qed.

(** The dispatcher calls the function of the command. *)
Definition run_cmd (now : Z) g (cmd : command) (out : Buffer) : option (gdata * Buffer) :=
  match decode_cmd cmd with
  | CGet _ => do_get g cmd out
  | CSet _ _ => do_set g cmd out
  | CDel _ => do_del g cmd out
  | CKeys => do_keys g out
  | CZadd _ _ _ => do_zadd g cmd out
  | CZrem _ _ => do_zrem g cmd out
  | CZscore _ _ => do_zscore g cmd out
  | CZquery _ _ _ _ _ => do_zquery g cmd out
  | CPexpire _ _ => do_expire now g cmd out
  | CPttl _ => do_ttl now g cmd out
  | CUnknown => Some (g, out_err out ERR_UNKNOWN msg_unknown)
  end.

Lemma do_request_dispatch now g cmd out : do_request now g cmd out = run_cmd now g cmd out.
Proof.
  unfold do_request, run_cmd.
  destruct cmd as [|c [|a1 [|a2 [|a3 [|a4 [|a5 [|a6 args]]]]]]]; cbn [decode_cmd];
    repeat match goal with
    | |- context [is_cmd ?l ?n ?nm] => rewrite (is_cmd_length l n nm) by (simpl; lia)
    | |- context [is_cmd (c :: ?l) ?n ?nm] => rewrite (is_cmd_decide c l n nm) by done
    end; try done;
    repeat match goal with
    | |- context [bool_decide (c = ?x)] =>
        destruct (decide (c = x));
        [rewrite (bool_decide_eq_true_2 (c = x)) by done|rewrite (bool_decide_eq_false_2 (c = x)) by done]
    end; try done; subst; try done.
Qed.

(** ** The refinement *)

Lemma decode_cases cmd :
  match decode_cmd cmd with
  | CGet k | CDel k | CPttl k => exists c, cmd = [c; k]
  | CSet k v => exists c, cmd = [c; k; v]
  | CZrem k v | CZscore k v | CPexpire k v => exists c, cmd = [c; k; v]
  | CKeys => exists c, cmd = [c]
  | CZadd k a b => exists c, cmd = [c; k; a; b]
  | CZquery k a b x y => exists c, cmd = [c; k; a; b; x; y]
  | CUnknown => True
  end.
Proof.
  destruct cmd as [|c [|a1 [|a2 [|a3 [|a4 [|a5 [|a6 args]]]]]]]; cbn [decode_cmd]; repeat case_decide; eauto.
Qed.

Lemma do_request_refines now g D cmd out :
  db_rep g D -> db_room D ->
  exists v, replies (do_request now g cmd out) out (spec_cmd now D (decode_cmd cmd)).1 v /\
    spec_reply now D (decode_cmd cmd) v.
Proof.
  intros Hr Hroom. rewrite do_request_dispatch. unfold run_cmd. pose proof (decode_cases cmd) as Hc.
  destruct (decode_cmd cmd) as [k|k v|k| |k sc nm|k nm|k nm|k sc nm off lim|k ttl|k|]; cbn [spec_reply];
    try (destruct Hc as [c ->]).
  - eexists. split; [by apply do_get_refines|done].
  - eexists. split; [by apply do_set_refines|done].
  - eexists. split; [by apply do_del_refines|done].
  - destruct (do_keys_refines g D out Hr) as (v & H1 & H2). by exists v.
  - eexists. split; [by apply do_zadd_refines|done].
  - eexists. split; [by apply do_zrem_refines|done].
  - eexists. split; [by apply do_zscore_refines|done].
  - eexists. split; [by apply do_zquery_refines|done].
  - eexists. split; [by apply do_expire_refines|done].
  - eexists. split; [by apply do_ttl_refines|done].
  - eexists. split; [|done]. cbn [spec_cmd fst snd]. reply. exact Hr.
Qed.

(** The empty database. *)
Lemma db_rep_init : db_rep gdata_init ∅.
Proof.
  assert (Hno : forall A (p : ptr) (x : A), (∅ : gmap ptr A) !! p = Some x -> False)
    by (intros A p x; by rewrite lookup_empty).
  exists ∅. split; [split; [split| |]|]; cbn;
    rewrite ?dom_empty_L; try done; try (by intros; exfalso; eapply Hno).
  - split; [intros i Hi; cbn in Hi; lia|]. split; [|done]. split; [|constructor].
    intros i x Hi. by rewrite lookup_nil in Hi.
  - intros i Hx. by destruct Hx.
  - by apply owns_init.
  - apply hm_rep_null.
  - intros k r. split; [by rewrite lookup_empty|]. intros (p & T & Hp). by apply Hno in Hp.
Qed.

(** ** Expiration *)

(** The root of the heap is the timer of an entry of the hash table, so the
    fallback branch of [process_timers] is never taken. *)
Lemma timer_entry g M item rest :
  db_core g M -> heap g = item :: rest ->
  exists p r, ref item = Some p /\ M !! p = Some r /\ a_ttl (er_rec r) = Some (val item).
Proof.
  intros Hc Hh. pose proof (core_heap _ _ Hc) as Hrep. pose proof Hrep as (_ & [Hl _] & _).
  destruct (Hl 0%nat item) as (p & v & Hr & Hv & _); [by rewrite Hh|].
  assert (Hp : p ∈ dom M) by (rewrite <- (core_idx _ _ Hc); by apply elem_of_dom_2 in Hv).
  apply elem_of_dom in Hp as [r Hp]. exists p, r. split_and!; [done..|].
  pose proof (core_ttl _ _ Hc p r Hp) as Ht. destruct (a_ttl (er_rec r)) as [t|]; cbn in Ht.
  - f_equal. apply (item_unique (heap g) (heap_idx g) (mkHeapItem t (Some p)) item) in Hrep;
      [by rewrite <- Hrep|done|rewrite Hh; set_solver|done].
  - exfalso. apply (no_item _ _ _ Hrep Ht). rewrite Hh, <- Hr. cbn. set_solver.
Qed.

(** The nodes of the table are keyed by their addresses. *)
Definition hcode_at (m : hmem) (p : ptr) : Z := from_option hcode 0 (hm_nodes m !! p).

#[local] Instance addresses_keyed g M (Hc : db_core g M) :
  KeyedNodes (dbnodes g) (dom M) (hcode_at (dbnodes g)) hnode_same id.
Proof.
  split; [|done]. intros p [r Hp]%elem_of_dom. destruct (core_node _ _ Hc p r Hp) as (n & Hn & _).
  exists n. unfold hcode_at. cbn [id]. by rewrite Hn.
Qed.

Lemma timer_delete g M item rest :
  db_inv g M -> heap g = item :: rest ->
  exists p r n h hm, ref item = Some p /\ M !! p = Some r /\ a_ttl (er_rec r) = Some (val item) /\
    hm_nodes (dbnodes g) !! p = Some n /\
    hm_delete (dbnodes g) (db g) (hcode n) (hnode_same p) =
      Some (h, hm, Some p) /\
    exists g', entry_del (with_db h hm g) p = Some g' /\ db_inv g' (delete p M) /\
      length (heap g) = S (length (heap g')).
Proof.
  intros [Hc Hm Hot] Hh. destruct (timer_entry _ _ _ _ Hc Hh) as (p & r & Hr & Hp & Ht).
  destruct (core_node _ _ Hc p r Hp) as (n & Hn & Hcode).
  destruct (keyed_delete (Hkeyed := addresses_keyed g M Hc) _ p Hm) as (h & hm & o & E & Hst & Hot' & Hres). rewrite Hot in Hot'.
  pose proof (with_db_core _ _ h hm Hc Hst) as Hc1. unfold hcode_at in E. rewrite Hn in E. cbn [from_option] in E.
  destruct o as [q|]; [|destruct Hres as [Hno _]; by destruct (Hno p); [apply elem_of_dom_2 in Hp|]].
  destruct Hres as (_ & Hq & Hm'). cbn [id] in Hq. subst q. exists p, r, n, h, hm. split_and!; [done..|].
  destruct (entry_del_spec (with_db h hm g) M p _ Hc1 Hp Hm' Hot') as (g' & E' & Hi' & _ & Hlen).
  exists g'. split_and!; [done..|]. apply Hlen. by rewrite Ht.
Qed.

Definition all_unexpired (now : Z) D : Prop := forall k r, D !! k = Some r -> expired now r = false.

(** The root of the heap is the first timer. *)
Lemma timer_min g M D k r t :
  db_core g M -> abs M D -> D !! k = Some r -> a_ttl r = Some t ->
  exists item rest, heap g = item :: rest /\ val item <= t.
Proof.
  intros Hc Ha (p & T & Hp)%Ha Et.
  pose proof (core_ttl _ _ Hc p _ Hp) as Ht. cbn in Ht. rewrite Et in Ht. cbn in Ht.
  apply list_elem_of_lookup in Ht as [i Hi]. pose proof (core_heap _ _ Hc) as (Ho & _ & _).
  pose proof (heap_ordered_min _ i Ho (lookup_lt_Some _ _ _ Hi)) as Hle.
  rewrite (hv_lookup _ _ _ Hi) in Hle. cbn in Hle. destruct (heap g) as [|item rest] eqn:Eh; [done|].
  by exists item, rest.
Qed.

(** The loop stops early only when every timer left is in the future. *)
Lemma heap_unexpired now g M D :
  db_core g M -> abs M D -> (forall item rest, heap g = item :: rest -> now <= val item) ->
  all_unexpired now D.
Proof.
  intros Hc Ha Hmin k r Hk. unfold expired. destruct (a_ttl r) as [t|] eqn:Et; [|done].
  destruct (timer_min _ _ _ _ _ _ Hc Ha Hk Et) as (item & rest & Eh & Hle).
  specialize (Hmin item rest Eh). apply Z.ltb_ge. lia.
Qed.

(** What [n] further iterations may do to the abstract database. *)
Record expires (now : Z) (n : Z) D D' : Prop := {
  expires_sub : D' ⊆ D;
  expires_only : forall k r, D !! k = Some r -> D' !! k = None -> expired now r = true;
  expires_most : Z.of_nat (size D) <= Z.of_nat (size D') + n;
  expires_stop : all_unexpired now D' \/ Z.of_nat (size D) = Z.of_nat (size D') + n
}.

Lemma expires_refl now n D : 0 <= n -> all_unexpired now D -> expires now n D D.
Proof. intros Hn Hu. split; [done|congruence|lia|by left]. Qed.

Lemma expires_step now n D D' k r :
  D !! k = Some r -> expired now r = true -> expires now n (delete k D) D' -> expires now (n + 1) D D'.
Proof.
  intros Hk He [Hs Ho Hm Hst]. pose proof (map_size_delete_Some k D ltac:(eauto)) as Hsz.
  assert (Hpos : size D <> 0%nat) by (intros ->%map_size_empty_iff; by rewrite lookup_empty in Hk).
  split.
  - etransitivity; [done|]. apply delete_subseteq.
  - intros k' r' Hk' Hn. destruct (decide (k' = k)) as [->|Hne]; [congruence|].
    apply (Ho k'); [|done]. by rewrite lookup_delete_ne.
  - lia.
  - destruct Hst as [?|?]; [by left|right; lia].
Qed.

Lemma expire_loop_spec now fuel : forall g D n,
  db_rep g D -> 0 <= n <= k_max_works -> (length (heap g) <= fuel)%nat ->
  exists g' D', expire_loop fuel now n g = Some g' /\ db_rep g' D' /\
    expires now (k_max_works + 1 - n) D D'.
Proof.
  induction fuel as [|fuel IH]; intros g D n Hrep Hn Hf; pose proof Hrep as (M & Hi & Ha); cbn [expire_loop];
    destruct (heap g) as [|item rest] eqn:Eh; cbn [length] in Hf; try lia.
  1,2: exists g, D; split_and!; [done..|]; apply expires_refl; [unfold k_max_works in *; lia|];
    apply (heap_unexpired _ g M); [apply Hi|done|by rewrite Eh].
  destruct (Z.ltb_spec (val item) now) as [Hlt|Hge].
  2:{ exists g, D. split_and!; [done..|]. apply expires_refl; [unfold k_max_works in *; lia|].
      apply (heap_unexpired _ g M); [apply Hi|done|]. intros ? ? E. rewrite Eh in E. by simplify_eq. }
  destruct (timer_delete g M item rest Hi Eh) as (p & r & nd & h & hm & Hr & Hp & Ht & Hnd & E1 & g' & E2 & Hi' & Hlen).
  rewrite Hr, bind_Some_l, Hnd, bind_Some_l, E1, bind_Some_l, E2, bind_Some_l.
  destruct r as [k rc T]. pose proof (abs_found g _ _ _ _ _ _ Ha Hp) as Hk.
  assert (Hrep' : db_rep g' (delete k D)).
  { exists (delete p M). split; [done|]. eapply abs_delete; [apply Hi|done..]. }
  assert (Hexp : expired now rc = true) by (unfold expired; cbn in Ht; rewrite Ht; by apply Z.ltb_lt).
  destruct (Z.leb_spec k_max_works n) as [Hle|Hgt].
  - exists g', (delete k D). split_and!; [done..|]. replace (k_max_works + 1 - n) with (0 + 1) by lia.
    apply (expires_step _ _ _ _ k rc); [done..|]. split; [done|congruence|lia|right; lia].
  - destruct (IH g' (delete k D) (n + 1)) as (g2 & D2 & E3 & Hrep2 & Hex); [done|lia|rewrite Eh in Hlen; cbn in Hlen; lia|].
    exists g2, D2. split_and!; [done..|]. replace (k_max_works + 1 - n) with ((k_max_works + 1 - (n + 1)) + 1) by lia.
    by apply (expires_step _ _ _ _ k rc).
Qed.
