(* ===== verification/Depth.v ===== *)
(** * The depth of the trees of a database

    [chain m r k]: from the node [r], [k] nodes follow one another by the child
    pointers of the store [m].  In a represented database the trees of the sorted
    sets are balanced, so a search visits few nodes. *)

From S2P Require Import Prelude Avl AvlTree AvlProofs Zset Server Spec ZsetProofs ServerProofs.
Local Open Scope Z_scope.

Inductive chain (m : amem) : option ptr -> nat -> Prop :=
  | chain_nil r : chain m r 0
  | chain_left p n k : m !! p = Some n -> chain m (left n) k -> chain m (Some p) (S k)
  | chain_right p n k : m !! p = Some n -> chain m (right n) k -> chain m (Some p) (S k).

Lemma chain_hgt m T : forall par k, tree_rep m par T -> chain m (root T) k -> Z.of_nat k <= hgt T.
Proof.
  induction T as [|l IHl i r IHr]; intros par k Hr Hk; cbn [root tree_rep hgt] in *.
  - inversion Hk. lia.
  - destruct Hr as (Hi & Hl & Hr). pose proof (hgt_nonneg l). pose proof (hgt_nonneg r).
    inversion Hk as [|? n k' Hn Hc|? n k' Hn Hc]; subst; [lia|..]; rewrite Hi in Hn; injection Hn as <-; cbn in Hc.
    + specialize (IHl _ _ Hl Hc). lia.
    + specialize (IHr _ _ Hr Hc). lia.
Qed.

(** A chain of a balanced tree. *)
Lemma chain_short m T k :
  tree_rep m None T -> balanced T -> chain m (root T) k -> Z.of_nat k <= 2 * Z.log2 (tsize T + 1).
Proof.
  intros Hr Hb Hk. pose proof (chain_hgt m T None k Hr Hk) as Hh. pose proof (tsize_nonneg T).
  set (n := ((k + 1) / 2)%nat). assert (Hn : (2 * n <= k + 1 < 2 * n + 2)%nat).
  { pose proof (Nat.div_mod_eq (k + 1) 2). pose proof (Nat.mod_upper_bound (k + 1) 2). unfold n. lia. }
  pose proof (balanced_pow T Hb n ltac:(lia)) as Hp.
  apply Z.log2_le_pow2 in Hp; lia.
Qed.

(** The entry of a sorted set. *)
Lemma zset_entry g D p e :
  db_rep g D -> entries g !! p = Some e -> etype e = T_ZSET ->
  exists l t T, D !! ekey e = Some (mkArec (AZset l) t) /\ zset_rep (zs g) (ezset e) T /\ tsize T = zlen l.
Proof.
  intros (M & [Hc _] & Ha) Hp Ht.
  assert (Hd : p ∈ dom M) by (rewrite <- (core_ents _ _ Hc); by apply elem_of_dom_2 in Hp).
  apply elem_of_dom in Hd as [[k [v t] T] Hr]. destruct (core_data _ _ Hc p _ Hr) as (e' & He & Hk & Hv).
  rewrite Hp in He. injection He as <-. cbn in *. destruct v as [s|l]; destruct Hv as (Ht' & Hv & HT); [by rewrite Ht in Ht'|].
  exists l, t, T. split; [rewrite Hk; apply Ha; eauto|]. split; [done|].
  unfold tsize, zlen. by rewrite <- HT, length_fmap.
Qed.
