(* ===== verification/Types.v ===== *)
(** * The types of the entries

    [Entry::type] says which of [str] and [zset] an entry uses.  The tag agrees
    with the value of the key in the abstract database, and no command changes
    the type of a key that stays.  The abstract database itself is a function of
    the state. *)

From S2P Require Import Prelude Common AvlTree AvlProofs Heap Zset ZsetProofs Wire Server Spec ServerProofs.
Local Open Scope Z_scope.

Implicit Types (g : gdata) (D : adb).

(** The tag of a value. *)
Definition type_tag (v : aval) : Z := match v with AStr _ => T_STR | AZset _ => T_ZSET end.

Lemma tag_cases v : type_tag v = T_STR \/ type_tag v = T_ZSET.
Proof. destruct v; [by left|by right]. Qed.

(** Every live entry is the entry of a key, with its tag. *)
Lemma entry_type g D p e :
  db_rep g D -> entries g !! p = Some e -> exists r, D !! ekey e = Some r /\ etype e = type_tag (a_val r).
Proof.
  intros (M & [Hc _] & Ha) Hp.
  assert (Hd : p ∈ dom M) by (rewrite <- (core_ents _ _ Hc); by apply elem_of_dom_2 in Hp).
  apply elem_of_dom in Hd as [[k r T] Hr]. destruct (core_data _ _ Hc p _ Hr) as (e' & He & Hk & Hv).
  rewrite Hp in He. injection He as <-. cbn in *. exists r. split; [apply Ha; rewrite Hk; eauto|].
  by destruct (a_val r); destruct Hv as [? _].
Qed.

(** A key that stays keeps its type. *)
Definition same_types D D' : Prop :=
  forall k r r', D !! k = Some r -> D' !! k = Some r' -> type_tag (a_val r') = type_tag (a_val r).

Lemma same_types_refl D : same_types D D.
Proof. intros k r r' H H'. congruence. Qed.

Lemma same_types_insert D k r :
  (forall r0, D !! k = Some r0 -> type_tag (a_val r) = type_tag (a_val r0)) -> same_types D (<[k := r]> D).
Proof.
  intros Hr k' r1 r2 H1 H2. apply lookup_insert_Some in H2 as [[<- <-]|[_ H2]]; [by apply Hr|congruence].
Qed.

Lemma same_types_sub D D' : D' ⊆ D -> same_types D D'.
Proof. intros Hs k r r' H H'. pose proof (lookup_weaken _ _ _ _ H' Hs). congruence. Qed.

Lemma spec_cmd_types now D c : same_types D (spec_cmd now D c).1.
Proof.
  destruct c; cbn [spec_cmd fst]; repeat case_match; cbn [fst]; try apply same_types_refl;
    try (apply same_types_sub, delete_subseteq); apply same_types_insert; intros ? ?; simplify_eq; done.
Qed.

(** ** The database of a state *)

Lemma tree_rep_unique m t : forall par par' t',
  root t = root t' -> tree_rep m par t -> tree_rep m par' t' -> t = t'.
Proof.
  induction t as [|l IHl i r IHr]; intros par par' [|l' i' r'] Hroot H H'; try done. cbn in Hroot. injection Hroot as <-.
  destruct H as (Hi & Hl & Hr), H' as (Hi' & Hl' & Hr'). rewrite Hi in Hi'. injection Hi' as _ Hrl Hrr _ _.
  f_equal; [by eapply IHl|by eapply IHr].
Qed.

Lemma data_rep_unique ents z p k v T k' v' T' :
  data_rep ents z p k v T -> data_rep ents z p k' v' T' -> k = k' /\ v = v' /\ T = T'.
Proof.
  intros (e & He & Hk & Hv) (e' & He' & Hk' & Hv'). rewrite He in He'. injection He' as <-. split; [congruence|].
  destruct v as [s|l], v' as [s'|l'].
  - destruct Hv as (_ & <- & ->), Hv' as (_ & <- & ->). done.
  - destruct Hv as (Ht & _), Hv' as (Ht' & _). by rewrite Ht in Ht'.
  - destruct Hv as (Ht & _), Hv' as (Ht' & _). by rewrite Ht in Ht'.
  - destruct Hv as (_ & Hr & <-), Hv' as (_ & Hr' & <-).
    assert (T = T') as ->; [|done]. destruct Hr as [Hr _ _ _], Hr' as [Hr' _ _ _].
    apply (tree_rep_unique (trees z) T None None); [|apply Hr|apply Hr'].
    by rewrite <- (zt_root _ _ _ Hr), <- (zt_root _ _ _ Hr').
Qed.

Lemma ttl_rep_unique a refs p t t' :
  HeapProofs.heap_rep a refs -> ttl_rep a refs p t -> ttl_rep a refs p t' -> t = t'.
Proof.
  intros Hr. assert (Hno : forall x, mkHeapItem x (Some p) ∈ a -> refs !! p = Some size_max -> False).
  { intros x Hx Hp. apply (no_item _ _ _ Hr Hp). apply list_elem_of_fmap. by exists (mkHeapItem x (Some p)). }
  destruct t as [x|], t' as [x'|]; cbn; intros H H'; [|by destruct (Hno x)|by destruct (Hno x')|done].
  pose proof (item_unique _ _ _ _ Hr H H' eq_refl) as E. by injection E as ->.
Qed.

Lemma core_unique g M M' p r r' :
  db_core g M -> db_core g M' -> M !! p = Some r -> M' !! p = Some r' -> r = r'.
Proof.
  intros Hc Hc' Hp Hp'. destruct (data_rep_unique _ _ _ _ _ _ _ _ _ (core_data _ _ Hc p r Hp) (core_data _ _ Hc' p r' Hp'))
    as (Hk & Hv & HT).
  pose proof (ttl_rep_unique _ _ _ _ _ (core_heap _ _ Hc) (core_ttl _ _ Hc p r Hp) (core_ttl _ _ Hc' p r' Hp')) as Ht.
  destruct r as [k [v t] T], r' as [k' [v' t'] T']. cbn in *. by subst.
Qed.

Lemma abs_sub g M M' D D' k r :
  db_core g M -> db_core g M' -> abs M D -> abs M' D' -> D !! k = Some r -> D' !! k = Some r.
Proof.
  intros Hc Hc' Ha Ha' (p & T & Hp)%Ha. apply Ha'. exists p, T.
  assert (Hd : p ∈ dom M') by (rewrite <- (core_ents _ _ Hc'), (core_ents _ _ Hc); by apply elem_of_dom_2 in Hp).
  apply elem_of_dom in Hd as [r' Hr']. by rewrite Hr', (core_unique g M M' p _ _ Hc Hc' Hp Hr').
Qed.

(** A state represents one database. *)
Lemma db_rep_unique g D D' : db_rep g D -> db_rep g D' -> D = D'.
Proof.
  intros (M & [Hc _] & Ha) (M' & [Hc' _] & Ha'). apply map_eq. intros k. apply option_eq. intros r.
  split; [by apply (abs_sub g M M')|by apply (abs_sub g M' M)].
Qed.
