(* ===== verification/EventLoop.v ===== *)
(** * server.cpp, the connections: framing, readiness, timeouts, the event loop

    The operating system is an input: the results of [read], [write], [accept]
    and [poll], and the readings of the clock, are arguments of the functions
    that make these calls.  What the server asks of it is an output: the calls
    on descriptors are recorded, with the bytes given to [write]. *)

From S2P Require Import Prelude Hashtable Zset Heap DList Wire Server.
Local Open Scope Z_scope.

Definition k_max_msg : Z := Z.shiftl 32 20.

Record Conn := mkConn {
  fd : Z;
  want_read : bool;
  want_write : bool;
  want_close : bool;
  incoming : Buffer;
  outgoing : Buffer;
  last_active_ms : Z
}.

(** [Conn{}] *)
Definition conn_null : Conn := mkConn (-1) false false false [] [] 0.

Definition set_want (r w : bool) (c : Conn) : Conn :=
  mkConn (fd c) r w (want_close c) (incoming c) (outgoing c) (last_active_ms c).
Definition set_close (c : Conn) : Conn :=
  mkConn (fd c) (want_read c) (want_write c) true (incoming c) (outgoing c) (last_active_ms c).
Definition set_incoming (b : Buffer) (c : Conn) : Conn :=
  mkConn (fd c) (want_read c) (want_write c) (want_close c) b (outgoing c) (last_active_ms c).
Definition set_outgoing (b : Buffer) (c : Conn) : Conn :=
  mkConn (fd c) (want_read c) (want_write c) (want_close c) (incoming c) b (last_active_ms c).
Definition set_active (t : Z) (c : Conn) : Conn :=
  mkConn (fd c) (want_read c) (want_write c) (want_close c) (incoming c) (outgoing c) t.

(** The results of the system calls on a connection.  [write] is a function of
    the number of bytes it is given. *)
Inductive io_read :=
  | ReadAgain
  | ReadError
  | ReadData (data : list byte).    (* empty: end of the stream *)

Inductive io_write :=
  | WriteAgain
  | WriteError
  | Wrote (n : Z).

(** A call on a descriptor, with its result: a connection that was accepted,
    a [read], a [write] of the bytes of a buffer, a [close]. *)
Inductive sys_call :=
  | CallAccept (n : Z)
  | CallRead (n : Z) (rv : io_read)
  | CallWrite (n : Z) (buf : list byte) (rv : io_write)
  | CallClose (n : Z).

(** ** One request *)

(** The position of the header, whose four bytes are reserved. *)
Definition response_begin (out : Buffer) : Buffer * Z :=
  (buf_append_u32 out 0, zlen out).

Definition response_size (out : Buffer) (header : Z) : Z := u64 (zlen out - header - 4).

Definition response_end (out : Buffer) (header : Z) : option Buffer :=
  let msg_size := response_size out header in
  let '(out, msg_size) :=
    (if k_max_msg <? msg_size then
       let out := take (Z.to_nat (header + 4)) out in      (* resize *)
       let out := out_err out ERR_TOO_BIG msg_too_big in
       (out, response_size out header)
     else (out, msg_size)) in
  buf_write out header (le_enc 4 (u32 msg_size)).

(** Processes one request if there is enough data. *)
Definition try_one_request (now : Z) (g : gdata) (conn : Conn) : option (gdata * Conn * bool) :=
  if zlen (incoming conn) <? 4 then Some (g, conn, false)             (* want read *)
  else
    let len := le_dec (take 4 (incoming conn)) in
    if k_max_msg <? len then Some (g, set_close conn, false)          (* want close *)
    else if zlen (incoming conn) <? u32 (4 + len) then Some (g, conn, false)
    else
      let request := take (Z.to_nat len) (drop 4 (incoming conn)) in
      match parse_req request with
      | None => Some (g, set_close conn, false)                       (* bad request *)
      | Some cmd =>
          let '(out, header_pos) := response_begin (outgoing conn) in
          '(g, out) ← do_request now g cmd out;
          out ← response_end out header_pos;
          inc ← buf_consume (incoming conn) (4 + len);
          Some (g, set_incoming inc (set_outgoing out conn), true)
      end.

(** [while (try_one_request(conn)) {}]: a request is at least 8 bytes; request
    number [k] reads the clock as [clock k]. *)
Fixpoint request_loop (fuel : nat) (clock : nat -> Z) (k : nat) (g : gdata) (conn : Conn) :
    option (gdata * Conn) :=
  match fuel with
  | O => None
  | S fuel =>
      '(g, conn, more) ← try_one_request (clock k) g conn;
      if (more : bool) then request_loop fuel clock (S k) g conn else Some (g, conn)
  end.

(** ** Readiness callbacks *)

(** With the call of [write]: all pending bytes are given to it. *)
Definition handle_write (conn : Conn) (write : Z -> io_write) : option (Conn * sys_call) :=
  guard (0 < zlen (outgoing conn));;                                   (* assert *)
  let rv := write (zlen (outgoing conn)) in
  let call := CallWrite (fd conn) (outgoing conn) rv in
  match rv with
  | WriteAgain => Some (conn, call)                                    (* actually not ready *)
  | WriteError => Some (set_close conn, call)
  | Wrote n =>
      out ← buf_consume (outgoing conn) n;
      let conn := set_outgoing out conn in
      if zlen out =? 0 then Some (set_want true false conn, call)      (* all data written *)
      else Some (conn, call)                                           (* want write *)
  end.

(** With the calls of [read] and [write], in order. *)
Definition handle_read (clock : nat -> Z) (g : gdata) (conn : Conn) (rv : io_read)
    (write : Z -> io_write) : option (gdata * Conn * list sys_call) :=
  let call := CallRead (fd conn) rv in
  match rv with
  | ReadAgain => Some (g, conn, [call])
  | ReadError => Some (g, set_close conn, [call])
  | ReadData [] => Some (g, set_close conn, [call])                    (* EOF *)
  | ReadData data =>
      guard (zlen data <= 64 * 1024);;
      let conn := set_incoming (buf_append (incoming conn) data) conn in
      '(g, conn) ← request_loop (S (length (incoming conn))) clock 0 g conn;
      if 0 <? zlen (outgoing conn) then                                (* has a response *)
        '(conn, wcall) ← handle_write (set_want false true conn) write;
        Some (g, conn, [call; wcall])
      else Some (g, conn, [call])
  end.

(** ** The connections *)

Record server := mkServer {
  gd : gdata;
  conns : gmap ptr Conn;             (* the Conn objects *)
  idle : dmem;                       (* Conn::idle_node, and g_data.idle_list *)
  fd2conn : list (option ptr);
  calls : list sys_call              (* the calls made so far *)
}.

(** The address of [g_data.idle_list]. *)
Definition idle_list : ptr := 1%positive.

Definition with_conn (p : ptr) (c : Conn) (s : server) : server :=
  mkServer (gd s) (<[p := c]> (conns s)) (idle s) (fd2conn s) (calls s).
Definition with_gd (g : gdata) (s : server) : server :=
  mkServer g (conns s) (idle s) (fd2conn s) (calls s).
Definition with_idle (m : dmem) (s : server) : server :=
  mkServer (gd s) (conns s) m (fd2conn s) (calls s).
Definition with_calls (xs : list sys_call) (s : server) : server :=
  mkServer (gd s) (conns s) (idle s) (fd2conn s) (calls s ++ xs).

(** The initial state: [dlist_init(&g_data.idle_list)] and empty containers. *)
Definition server_init : option server :=
  m ← dlist_init {[idle_list := mkDNode NULL NULL]} idle_list;
  Some (mkServer gdata_init ∅ m [] []).

(** [accept] returned descriptor [connfd]; the time is [now]. *)
Definition handle_accept (now connfd : Z) (s : server) : option (server * ptr) :=
  let conn := fresh (dom (conns s) ∪ dom (idle s)) in
  let c := mkConn connfd true false false [] [] now in
  m ← dlist_insert_before (<[conn := mkDNode NULL NULL]> (idle s)) idle_list conn;
  Some (mkServer (gd s) (<[conn := c]> (conns s)) m (fd2conn s) (calls s ++ [CallAccept connfd]), conn).

(** [fd2conn.resize(connfd + 1)] when too small, then the new entry. *)
Definition register_conn (connfd : Z) (conn : ptr) (l : list (option ptr)) :
    option (list (option ptr)) :=
  let l := if zlen l <=? connfd then l ++ replicate (Z.to_nat (connfd + 1 - zlen l)) None else l in
  old ← arr_get l connfd;
  guard (old = None);;                                                 (* assert *)
  arr_set l connfd (Some conn).

Definition accept_conn (now connfd : Z) (s : server) : option server :=
  '(s, conn) ← handle_accept now connfd s;
  l ← register_conn connfd conn (fd2conn s);
  Some (mkServer (gd s) (conns s) (idle s) l (calls s)).

Definition conn_destroy (s : server) (conn : ptr) : option server :=
  c ← conns s !! conn;
  let s := with_calls [CallClose (fd c)] s in                          (* close(conn->fd) *)
  l ← arr_set (fd2conn s) (fd c) None;
  m ← dlist_detach (idle s) conn;
  Some (mkServer (gd s) (delete conn (conns s)) (delete conn m) l (calls s)).

(** ** Timers *)

Definition k_idle_timeout_ms : Z := 5 * 1000.

(** [g_data.idle_list.next] *)
Definition idle_first (s : server) : option ptr :=
  n ← idle s !! idle_list; next n.

Definition next_timer_ms (now_ms : Z) (s : server) : option Z :=
  empty ← dlist_empty (idle s) idle_list;
  next_ms ← (if (empty : bool) then Some (u64 (-1))
             else p ← idle_first s; c ← conns s !! p;
                  Some (u64 (last_active_ms c + k_idle_timeout_ms)));
  let next_ms :=
    match heap (gd s) with
    | item :: _ => if val item <? next_ms then val item else next_ms
    | [] => next_ms
    end in
  Some (i32 (if next_ms =? u64 (-1) then u32 (-1)                      (* no timers at all *)
             else if next_ms <=? now_ms then 0                         (* already expired *)
             else i32 (next_ms - now_ms))).

(** The first loop of [process_timers]: each iteration destroys a connection. *)
Fixpoint idle_loop (fuel : nat) (now_ms : Z) (s : server) : option server :=
  empty ← dlist_empty (idle s) idle_list;
  if (empty : bool) then Some s
  else
    p ← idle_first s;
    c ← conns s !! p;
    let next_timeout := u64 (last_active_ms c + k_idle_timeout_ms) in
    if now_ms <? next_timeout then Some s
    else
      match fuel with
      | O => None
      | S fuel => s ← conn_destroy s p; idle_loop fuel now_ms s
      end.

Definition process_timers (now_ms : Z) (s : server) : option server :=
  s ← idle_loop (size (conns s)) now_ms s;
  g ← process_timers_keys now_ms (gd s);
  Some (with_gd g s).

(** ** The event loop *)

(** What [poll] reports for a descriptor, and the results of the calls the
    loop makes on it. *)
Record conn_event := mkEvent {
  ev_in : bool;
  ev_out : bool;
  ev_err : bool;
  ev_now : Z;                        (* the clock when the descriptor is handled *)
  ev_clock : nat -> Z;               (* the clock at each of its requests *)
  ev_read : io_read;
  ev_read_write : Z -> io_write;     (* the write at the end of handle_read *)
  ev_write : Z -> io_write
}.

(** The descriptors in [poll_args], and what they wait for. *)
Definition poll_args (s : server) : option (list (Z * bool * bool)) :=
  mapM (fun p => c ← conns s !! p; Some (fd c, want_read c, want_write c)) (omap id (fd2conn s)).

(** The body of the loop over the connection sockets. *)
Definition handle_conn (s : server) (pfd : Z) (ev : conn_event) : option server :=
  slot ← arr_get (fd2conn s) pfd;
  conn ← slot;
  (* the timer is refreshed *)
  c ← conns s !! conn;
  let c := set_active (ev_now ev) c in
  m ← dlist_detach (idle s) conn;
  m ← dlist_insert_before m idle_list conn;
  let s := with_idle m s in
  '(g, c, xs) ← (if ev_in ev then handle_read (ev_clock ev) (gd s) c (ev_read ev) (ev_read_write ev)
                 else Some (gd s, c, []));
  '(c, ys) ← (if ev_out ev then '(c, y) ← handle_write c (ev_write ev); Some (c, [y])
              else Some (c, []));
  let s := with_calls (xs ++ ys) (with_gd g (with_conn conn c s)) in
  if ev_err ev || want_close c then conn_destroy s conn else Some s.

Fixpoint handle_conns (s : server) (pfds : list Z) (evs : list conn_event) : option server :=
  match pfds, evs with
  | pfd :: pfds, ev :: evs => s ← handle_conn s pfd ev; handle_conns s pfds evs
  | _, _ => Some s
  end.

(** One iteration: the time when the timeout of [poll] is computed; what [poll]
    returns, as the new connection, if any, with its time, and the events of the
    descriptors that were polled; the time of [process_timers]. *)
Definition loop_iteration (s : server) (t0 : Z) (acc : option (Z * Z)) (evs : list conn_event)
    (now : Z) : option server :=
  args ← poll_args s;
  timeout_ms ← next_timer_ms t0 s;                                     (* how long poll may wait *)
  s ← match acc with
      | Some (t, connfd) => accept_conn t connfd s
      | None => Some s
      end;
  s ← handle_conns s (map (fun a => a.1.1) args) evs;
  process_timers now s.
