(* ===== verification/Calls.v ===== *)
(** * The calls on descriptors, and what they mean for the clients

    A server records the calls it makes on descriptors.  [received] and [written]
    are the bytes these calls moved; [fds_after] replays them on the set of the
    open descriptors, and fails when a descriptor that is not open is used or
    closed, or one that is open is accepted again. *)

From S2P Require Import Prelude EventLoop.
Local Open Scope Z_scope.

Implicit Types (x : sys_call) (xs ys : list sys_call) (n : Z) (o : gset Z).

(** ** The bytes *)

Definition call_received x : list byte :=
  match x with CallRead _ (ReadData data) => data | _ => [] end.

(** [write] took the first bytes of the buffer. *)
Definition call_written x : list byte :=
  match x with CallWrite _ buf (Wrote k) => take (Z.to_nat k) buf | _ => [] end.

Definition received xs : list byte := flat_map call_received xs.
Definition written xs : list byte := flat_map call_written xs.

Lemma received_app xs ys : received (xs ++ ys) = received xs ++ received ys.
Proof. apply flat_map_app. Qed.

Lemma written_app xs ys : written (xs ++ ys) = written xs ++ written ys.
Proof. apply flat_map_app. Qed.

(** ** The descriptors *)

Definition fd_step (x : sys_call) (o : gset Z) : option (gset Z) :=
  match x with
  | CallAccept n => guard (n ∉ o);; Some ({[n]} ∪ o)
  | CallRead n _ | CallWrite n _ _ => guard (n ∈ o);; Some o
  | CallClose n => guard (n ∈ o);; Some (o ∖ {[n]})
  end.

Fixpoint fds_after (xs : list sys_call) (o : gset Z) : option (gset Z) :=
  match xs with
  | [] => Some o
  | x :: xs => o ← fd_step x o; fds_after xs o
  end.

Lemma fds_after_app xs ys o : fds_after (xs ++ ys) o = (o' ← fds_after xs o; fds_after ys o').
Proof.
  revert o. induction xs as [|x xs IH]; intros o; [done|]. cbn [app fds_after].
  destruct (fd_step x o); [apply IH|done].
Qed.

(** Reading and writing only. *)
Definition uses n x : Prop :=
  match x with CallRead m _ | CallWrite m _ _ => m = n | _ => False end.

Lemma fds_after_uses n xs o : n ∈ o -> Forall (uses n) xs -> fds_after xs o = Some o.
Proof.
  intros Hn. induction 1 as [|x xs Hx _ IH]; [done|]. cbn [fds_after].
  destruct x; try done; cbn in Hx; subst; cbn [fd_step]; by rewrite option_guard_True.
Qed.

(** Closing only takes away. *)
Lemma fds_after_closes (ns : list Z) : forall o o', fds_after (map CallClose ns) o = Some o' -> o' ⊆ o.
Proof.
  induction ns as [|n ns IH]; intros o o' E; [by injection E as <-|].
  cbn [map fds_after] in E. apply bind_Some in E as (o1 & E1 & E). apply IH in E.
  cbn [fd_step] in E1. apply bind_Some in E1 as (_ & _ & [= <-]). set_solver.
Qed.

(** ** The descriptors of connections *)

(** The calls leave open the descriptors of the connections [m]. *)
Definition opened xs (m : gmap ptr Conn) : Prop :=
  exists o, fds_after xs ∅ = Some o /\ forall n, n ∈ o <-> exists p c, m !! p = Some c /\ fd c = n.

Lemma opened_init : opened [] ∅.
Proof.
  exists ∅. split; [done|]. intros n. split; [intros Hn; by apply elem_of_empty in Hn|].
  intros (p & c & Hp & _). by rewrite lookup_empty in Hp.
Qed.

Lemma opened_put xs m p c c' : opened xs m -> m !! p = Some c -> fd c' = fd c -> opened xs (<[p := c']> m).
Proof.
  intros (o & E & Ho) Hp Hfd. exists o. split; [done|]. intros n. rewrite Ho. split.
  - intros (q & c1 & Hq & <-). destruct (decide (q = p)) as [->|Hne].
    + exists p, c'. rewrite lookup_insert_eq. split; [done|]. congruence.
    + exists q, c1. by rewrite lookup_insert_ne.
  - intros (q & c1 & [[<- <-]|[_ Hq]]%lookup_insert_Some & <-); [by exists p, c|by exists q, c1].
Qed.

Lemma opened_uses xs ys m p c : opened xs m -> m !! p = Some c -> Forall (uses (fd c)) ys -> opened (xs ++ ys) m.
Proof.
  intros (o & E & Ho) Hp Hys. exists o. split; [|done]. rewrite fds_after_app, E, bind_Some_l.
  apply (fds_after_uses (fd c)); [|done]. apply Ho. by exists p, c.
Qed.

Lemma opened_accept xs m p c :
  opened xs m -> m !! p = None -> (forall q c', m !! q = Some c' -> fd c' <> fd c) ->
  opened (xs ++ [CallAccept (fd c)]) (<[p := c]> m).
Proof.
  intros (o & E & Ho) Hp Hfree. exists ({[fd c]} ∪ o). split.
  - rewrite fds_after_app, E, bind_Some_l. cbn [fds_after fd_step]. rewrite option_guard_True; [done|].
    intros (q & c' & Hq & Hn)%Ho. by apply (Hfree q c').
  - intros n. rewrite elem_of_union, elem_of_singleton, Ho. split.
    + intros [->|(q & c' & Hq & Hn)]; [exists p, c; by rewrite lookup_insert_eq|].
      exists q, c'. rewrite lookup_insert_ne; [done|]. congruence.
    + intros (q & c' & [[<- <-]|[_ Hq]]%lookup_insert_Some & Hn); [by left|right; by exists q, c'].
Qed.

Lemma opened_close xs m p c :
  opened xs m -> m !! p = Some c -> (forall q c', m !! q = Some c' -> fd c' = fd c -> q = p) ->
  opened (xs ++ [CallClose (fd c)]) (delete p m).
Proof.
  intros (o & E & Ho) Hp Hinj. exists (o ∖ {[fd c]}). split.
  - rewrite fds_after_app, E, bind_Some_l. cbn [fds_after fd_step]. rewrite option_guard_True; [done|].
    apply Ho. by exists p, c.
  - intros n. rewrite elem_of_difference, elem_of_singleton, Ho. split.
    + intros [(q & c' & Hq & <-) Hn]. exists q, c'. rewrite lookup_delete_ne; [done|]. intros <-. congruence.
    + intros (q & c' & [Hne Hq]%lookup_delete_Some & <-). split; [by exists q, c'|].
      intros Hfd. by destruct Hne; rewrite (Hinj q c').
Qed.
