(* ===== verification/Process.v ===== *)
(** * The processes: start-up, clock, descriptors, and the two [main]s

    What server.cpp and client.cpp do around the functions of the other files:
    they ask the operating system, and [die] when it fails.  The results of the
    system calls are arguments, as raw integers with the [errno] of the call;
    the constants are those of Linux. *)

From Stdlib Require Import (notations) String.
From S2P Require Import Prelude Wire Client Server EventLoop.
Local Open Scope Z_scope.

(** ** Outcomes *)

(** What running a part of the process gives: a value, the message of [die],
    which aborts, or undefined behaviour. *)
Inductive outcome (A : Type) :=
  | Done (a : A)
  | Died (msg : list byte)
  | Undefined.
Arguments Done {A} a.
Arguments Died {A} msg.
Arguments Undefined {A}.

#[export] Instance outcome_ret : MRet outcome := fun A a => Done a.
#[export] Instance outcome_bind : MBind outcome := fun A B f m =>
  match m with
  | Done a => f a
  | Died msg => Died msg
  | Undefined => Undefined
  end.

(** A function that cannot [die]. *)
Definition lift {A} (o : option A) : outcome A :=
  match o with Some a => Done a | None => Undefined end.

Definition msg_socket : list byte := String.list_byte_of_string "socket()".
Definition msg_bind : list byte := String.list_byte_of_string "bind()".
Definition msg_listen : list byte := String.list_byte_of_string "listen()".
Definition msg_poll : list byte := String.list_byte_of_string "poll".
Definition msg_fcntl : list byte := String.list_byte_of_string "fcntl error".
Definition msg_connect : list byte := String.list_byte_of_string "connect".

(** [if (failed) die(msg)] *)
Definition die_if (failed : bool) (msg : list byte) : outcome unit :=
  if failed then Died msg else Done tt.

(** ** Constants of the operating system *)

Definition EINTR : Z := 4.
Definition EAGAIN : Z := 11.
Definition O_NONBLOCK : Z := 2048.
Definition POLLIN : Z := 1.
Definition POLLOUT : Z := 4.
Definition POLLERR : Z := 8.

(** [flags & bit], as a condition. *)
Definition has_flag (flags bit : Z) : bool := negb (Z.land flags bit =? 0).

(** ** The clock *)

Record timespec := mkTimespec { tv_sec : Z; tv_nsec : Z }.

Definition get_monotonic_msec (tv : timespec) : Z :=
  u64 (u64 (u64 (tv_sec tv) * 1000) + u64 (Z.quot (Z.quot (tv_nsec tv) 1000) 1000)).

(** ** Descriptors *)

(** The result and the [errno] of the first [fcntl], the [errno] of the second;
    the flags that are set. *)
Definition fd_set_nb (getfl : Z * Z) (setfl : Z -> Z) : outcome Z :=
  let '(flags, errno) := getfl in
  die_if (negb (errno =? 0)) msg_fcntl;;
  let flags := Z.lor flags O_NONBLOCK in
  die_if (negb (setfl flags =? 0)) msg_fcntl;;
  Done flags.

(** How [handle_read] reads the result of [read]: the returned value, [errno]
    and the buffer. *)
Definition read_result (call : Z * Z * list byte) : io_read :=
  let '(rv, errno, buf) := call in
  if (rv <? 0) && (errno =? EAGAIN) then ReadAgain
  else if rv <? 0 then ReadError
  else ReadData (take (Z.to_nat rv) buf).

(** How [handle_write] reads the result of [write]. *)
Definition write_result (call : Z * Z) : io_write :=
  let '(rv, errno) := call in
  if (rv <? 0) && (errno =? EAGAIN) then WriteAgain
  else if rv <? 0 then WriteError
  else Wrote rv.

(** ** New connections *)

(** The calls [handle_accept] makes. *)
Record accept_call := mkAccept {
  ac_fd : Z;                         (* accept *)
  ac_getfl : Z * Z;                  (* fcntl(F_GETFL) *)
  ac_setfl : Z -> Z;                 (* fcntl(F_SETFL) *)
  ac_time : timespec
}.

(** The whole of [handle_accept]. *)
Definition accept_client (a : accept_call) (s : server) : outcome (server * option ptr) :=
  if ac_fd a <? 0 then Done (s, None)                                  (* accept() error *)
  else
    fd_set_nb (ac_getfl a) (ac_setfl a);;
    '(s, conn) ← lift (handle_accept (get_monotonic_msec (ac_time a)) (ac_fd a) s);
    Done (s, Some conn).

(** The branch of [main] for the listening socket. *)
Definition accept_ready (a : accept_call) (s : server) : outcome server :=
  '(s, conn) ← accept_client a s;
  match conn with
  | None => Done s
  | Some conn =>
      c ← lift (conns s !! conn);
      l ← lift (register_conn (fd c) conn (fd2conn s));
      Done (mkServer (gd s) (conns s) (idle s) l (calls s))
  end.

(** ** [poll] *)

(** The descriptor and the [events] of each [pollfd]; the listening socket is
    the first. *)
Definition conn_pollfd (a : Z * bool * bool) : Z * Z :=
  let '(fd, want_read, want_write) := a in
  let events := POLLERR in
  let events := if want_read : bool then Z.lor events POLLIN else events in
  let events := if want_write : bool then Z.lor events POLLOUT else events in
  (fd, events).

Definition main_poll_args (listen_fd : Z) (s : server) : option (list (Z * Z)) :=
  args ← poll_args s;
  Some ((listen_fd, POLLIN) :: map conn_pollfd args).

(** What happens on a polled connection: its [revents], and the calls made if
    they ask for it. *)
Record os_event := mkOsEvent {
  oe_revents : Z;
  oe_time : timespec;
  oe_clock : nat -> timespec;
  oe_read : Z * Z * list byte;
  oe_read_write : Z -> Z * Z;
  oe_write : Z -> Z * Z
}.

Definition conn_event_of (e : os_event) : conn_event :=
  mkEvent (has_flag (oe_revents e) POLLIN) (has_flag (oe_revents e) POLLOUT) (has_flag (oe_revents e) POLLERR)
    (get_monotonic_msec (oe_time e)) (fun k => get_monotonic_msec (oe_clock e k))
    (read_result (oe_read e)) (fun n => write_result (oe_read_write e n)) (fun n => write_result (oe_write e n)).

(** ** The loop of the server *)

(** The operating system during an iteration. *)
Record os_iter := mkIter {
  os_t0 : timespec;                  (* the clock in next_timer_ms *)
  os_poll : Z * Z;                   (* poll and its errno *)
  os_listen : Z;                     (* revents of the listening socket *)
  os_accept : accept_call;
  os_conns : list os_event;          (* the other descriptors, in order *)
  os_now : timespec                  (* the clock in process_timers *)
}.

(** [rv < 0 && errno == EINTR] *)
Definition interrupted (call : Z * Z) : bool := (call.1 <? 0) && (call.2 =? EINTR).

Definition main_iteration (listen_fd : Z) (s : server) (io : os_iter) : outcome server :=
  pfds ← lift (main_poll_args listen_fd s);
  timeout_ms ← lift (next_timer_ms (get_monotonic_msec (os_t0 io)) s);
  if interrupted (os_poll io) then Done s                              (* continue *)
  else
    die_if ((os_poll io).1 <? 0) msg_poll;;
    s ← (if os_listen io =? 0 then Done s else accept_ready (os_accept io) s);
    s ← lift (handle_conns s (map fst (tail pfds)) (map conn_event_of (os_conns io)));
    lift (process_timers (get_monotonic_msec (os_now io)) s).

(** [while (true)], as long as the operating system answers. *)
Fixpoint main_loop (listen_fd : Z) (s : server) (ios : list os_iter) : outcome server :=
  match ios with
  | [] => Done s
  | io :: ios => s ← main_iteration listen_fd s io; main_loop listen_fd s ios
  end.

(** The calls before the loop; the result of [setsockopt] is not looked at. *)
Record os_start := mkStart { st_socket : Z; st_bind : Z; st_listen : Z }.

Definition main_start (st : os_start) : outcome (Z * server) :=
  s ← lift server_init;
  die_if (st_socket st <? 0) msg_socket;;
  die_if (negb (st_bind st =? 0)) msg_bind;;
  die_if (negb (st_listen st =? 0)) msg_listen;;
  Done (st_socket st, s).

(** [main] of server.cpp. *)
Definition server_main (st : os_start) (ios : list os_iter) : outcome server :=
  '(listen_fd, s) ← main_start st;
  main_loop listen_fd s ios.

(** ** The client *)

(** [main] of client.cpp: the results of [socket] and [connect], then those
    of the calls on the socket. *)
Definition client_main (socket connect : Z) (argv : list (list byte)) (rvs : list Z)
    (chunks : list (option (list byte))) : outcome (list byte * list event * list Z) :=
  die_if (socket <? 0) msg_socket;;
  die_if (negb (connect =? 0)) msg_connect;;
  lift (Client.main socket argv rvs chunks).
