(* ===== verification/Framing.v ===== *)
(** * Framing and pipelining: the requests in a byte stream and their replies

    [take_frame] is the decision [try_one_request] makes on the bytes received
    so far, and [stream] splits the bytes into requests.  The loop of
    [handle_read] answers every complete request in order, keeps the rest, and
    does not depend on how the stream was cut into reads. *)

From S2P Require Import Prelude Common Numeric Wire Server Spec ServerProofs EventLoop.
Local Open Scope Z_scope.

Implicit Types (g : gdata) (D : adb) (c : Conn) (buf : Buffer).

(** ** The reply of one request *)

Definition reply_too_big : Buffer := encode (VErr ERR_TOO_BIG msg_too_big).

(** The bytes sent for a reply: its length, then the reply or an error. *)
Definition frame (body : Buffer) : Buffer :=
  let body := if k_max_msg <? zlen body then reply_too_big else body in
  le_enc 4 (zlen body) ++ body.

Lemma response_size_app out hdr body :
  zlen hdr = 4 -> response_size (out ++ hdr ++ body) (zlen out) = u64 (zlen body).
Proof. intros Hh. unfold response_size. rewrite !zlen_app, Hh. f_equal. lia. Qed.

Lemma response_end_total out body :
  exists o, response_end ((response_begin out).1 ++ body) (response_begin out).2 = Some (out ++ o) /\
    o <> [] /\ (zlen body < 2 ^ 64 -> o = frame body).
Proof.
  unfold response_end, response_begin, buf_append_u32, buf_append. cbn [fst snd].
  rewrite <- app_assoc, response_size_app by apply zlen_le_enc.
  assert (Hw : forall b z, exists o, buf_write (out ++ le_enc 4 0 ++ b) (zlen out) (le_enc 4 z) = Some (out ++ o) /\
    o = le_enc 4 z ++ b).
  { intros b z. eexists. split; [|done]. apply buf_write_mid. by rewrite !length_le_enc. }
  assert (Hne : forall z b, le_enc 4 z ++ b <> []) by done.
  destruct (Z.ltb_spec k_max_msg (u64 (zlen body))) as [Hlt|Hge].
  - replace (take _ _) with (out ++ le_enc 4 0).
    + rewrite out_err_encode, <- app_assoc, response_size_app by apply zlen_le_enc.
      destruct (Hw (encode (VErr ERR_TOO_BIG msg_too_big)) (u32 (u64 (zlen (encode (VErr ERR_TOO_BIG msg_too_big))))))
        as (o & E & ->).
      rewrite E. eexists. split_and!; [done|apply Hne|]. intros Hb. unfold frame.
      rewrite u64_small in Hlt by (pose proof (zlen_nonneg body); lia).
      destruct (Z.ltb_spec k_max_msg (zlen body)); [|lia]. done.
    + rewrite app_assoc, take_app_length'; [done|].
      pose proof (zlen_nonneg out). unfold zlen. rewrite length_app, length_le_enc. unfold zlen in *. lia.
  - destruct (Hw body (u32 (u64 (zlen body)))) as (o & E & ->). rewrite E. eexists. split_and!; [done|apply Hne|].
    intros Hb. unfold frame. rewrite u64_small in Hge |- * by (pose proof (zlen_nonneg body); lia).
    destruct (Z.ltb_spec k_max_msg (zlen body)); [lia|]. by rewrite le_enc_u32.
Qed.

(** ** One request *)

Inductive frame_result :=
  | Partial                                  (* more data is needed *)
  | Bad                                      (* too long, or malformed *)
  | Req (cmd : command) (rest : Buffer).

Definition take_frame (buf : Buffer) : frame_result :=
  if zlen buf <? 4 then Partial
  else
    let len := le_dec (take 4 buf) in
    if k_max_msg <? len then Bad
    else if zlen buf <? 4 + len then Partial
    else match parse_req (take (Z.to_nat len) (drop 4 buf)) with
         | None => Bad
         | Some cmd => Req cmd (drop (Z.to_nat (4 + len)) buf)
         end.

Lemma frame_len buf : 4 <= zlen buf -> 0 <= le_dec (take 4 buf) < 2 ^ 32.
Proof.
  intros Hl. pose proof (le_dec_range (take 4 buf)) as H. unfold zlen in *.
  rewrite length_take in H. replace (4 `min` length buf)%nat with 4%nat in H by lia. exact H.
Qed.

Lemma try_one_request_frame now g c :
  try_one_request now g c =
  match take_frame (incoming c) with
  | Partial => Some (g, c, false)
  | Bad => Some (g, set_close c, false)
  | Req cmd rest =>
      '(g, out) ← do_request now g cmd (response_begin (outgoing c)).1;
      out ← response_end out (response_begin (outgoing c)).2;
      Some (g, set_incoming rest (set_outgoing out c), true)
  end.
Proof.
  unfold try_one_request, take_frame. destruct (Z.ltb_spec (zlen (incoming c)) 4) as [|Hl]; [done|].
  pose proof (frame_len _ Hl) as Hlen. set (len := le_dec _) in *.
  destruct (Z.ltb_spec k_max_msg len) as [|Hmax]; [done|].
  assert (Hk : k_max_msg = 33554432) by done.
  rewrite u32_small by lia. destruct (Z.ltb_spec (zlen (incoming c)) (4 + len)) as [|Hall]; [done|].
  destruct (parse_req _) as [cmd|]; [|done]. cbn [response_begin fst snd].
  destruct (do_request _ _ _ _) as [[g' out]|]; [|done]. rewrite !bind_Some_l.
  destruct (response_end _ _) as [out'|]; [|done]. rewrite !bind_Some_l.
  unfold buf_consume. by rewrite option_guard_True by lia.
Qed.

(** A complete request is taken off the front of the buffer. *)
Lemma take_frame_enc cmd rest :
  zlen (enc_req cmd) <= k_max_msg -> zlen cmd <= k_max_args ->
  take_frame (le_enc 4 (zlen (enc_req cmd)) ++ enc_req cmd ++ rest) = Req cmd rest.
Proof.
  intros Hm Ha. set (req := enc_req cmd) in *. unfold take_frame. pose proof (zlen_nonneg rest).
  assert (Hk : k_max_msg = 33554432) by done. pose proof (zlen_nonneg req).
  autorewrite with zlen.
  destruct (Z.ltb_spec (Z.of_nat 4 + (zlen req + zlen rest)) 4); [lia|].
  rewrite take_app_length', le_dec_u32, u32_small by (rewrite ?length_le_enc; lia).
  destruct (Z.ltb_spec k_max_msg (zlen req)); [lia|].
  destruct (Z.ltb_spec (Z.of_nat 4 + (zlen req + zlen rest)) (4 + zlen req)); [lia|].
  rewrite drop_app_length' by (by rewrite length_le_enc).
  replace (Z.to_nat (zlen req)) with (length req) by (unfold zlen; lia). rewrite take_app_length.
  unfold req at 1. rewrite parse_req_enc; [|done|].
  - f_equal. rewrite app_assoc, drop_app_length'; [done|]. rewrite length_app, length_le_enc. unfold zlen. lia.
  - apply Forall_forall. intros s Hs. assert (zlen s <= zlen req); [|lia]. clear -Hs. subst req.
    unfold enc_req. rewrite zlen_app, zlen_le_enc. apply list_elem_of_split in Hs as (l1 & l2 & ->).
    rewrite flat_map_app. cbn [flat_map]. unfold enc_str at 2.
    rewrite !zlen_app. unfold zlen. lia.
Qed.

Lemma take_frame_inv buf cmd rest :
  take_frame buf = Req cmd rest ->
  buf = le_enc 4 (zlen (enc_req cmd)) ++ enc_req cmd ++ rest /\
  zlen (enc_req cmd) <= k_max_msg /\ zlen cmd <= k_max_args.
Proof.
  unfold take_frame. destruct (Z.ltb_spec (zlen buf) 4) as [|Hl]; [done|].
  pose proof (frame_len _ Hl) as Hlen. set (len := le_dec _) in *.
  destruct (Z.ltb_spec k_max_msg len) as [|Hm]; [done|].
  destruct (Z.ltb_spec (zlen buf) (4 + len)) as [|Hall]; [done|].
  destruct (parse_req _) as [cmd'|] eqn:E; [|done]. intros [= -> <-].
  apply parse_req_inv in E as (E & Ha & _). rewrite <- E.
  assert (Hz : zlen (take (Z.to_nat len) (drop 4 buf)) = len).
  { unfold zlen in *. rewrite length_take, length_drop. lia. }
  rewrite Hz. split; [|done]. replace (Z.to_nat (4 + len)) with (4 + Z.to_nat len)%nat by lia.
  rewrite <- drop_drop, take_drop. unfold len.
  replace (le_enc 4 (le_dec (take 4 buf))) with (take 4 buf); [by rewrite take_drop|].
  replace 4%nat with (length (take 4 buf)) at 2 by (rewrite length_take; unfold zlen in Hl; lia).
  by rewrite le_enc_dec.
Qed.

Lemma take_frame_shorter buf cmd rest : take_frame buf = Req cmd rest -> zlen rest + 8 <= zlen buf.
Proof.
  intros (-> & _ & _)%take_frame_inv. unfold enc_req. autorewrite with zlen.
  pose proof (zlen_nonneg (flat_map enc_str cmd)). lia.
Qed.

(** A request is waited for only as long as it is not too long. *)
Lemma take_frame_partial buf : take_frame buf = Partial -> zlen buf < 4 + k_max_msg.
Proof.
  unfold take_frame. assert (k_max_msg = 33554432) by done.
  destruct (Z.ltb_spec (zlen buf) 4); [lia|]. destruct (Z.ltb_spec k_max_msg (le_dec (take 4 buf))); [done|].
  destruct (Z.ltb_spec (zlen buf) (4 + le_dec (take 4 buf))); [lia|]. by destruct (parse_req _).
Qed.

(** Bytes that arrive later change neither a request nor an error. *)
Lemma take_frame_app buf more :
  match take_frame buf with
  | Partial => True
  | Bad => take_frame (buf ++ more) = Bad
  | Req cmd rest => take_frame (buf ++ more) = Req cmd (rest ++ more)
  end.
Proof.
  unfold take_frame. destruct (Z.ltb_spec (zlen buf) 4) as [|Hl]; [done|].
  pose proof (frame_len _ Hl) as Hlen. rewrite zlen_app. pose proof (zlen_nonneg more).
  destruct (Z.ltb_spec (zlen buf + zlen more) 4); [lia|].
  rewrite (take_app_le buf more 4) by (unfold zlen in Hl; lia). set (len := le_dec _) in *.
  destruct (Z.ltb_spec k_max_msg len) as [|Hm]; [done|].
  destruct (Z.ltb_spec (zlen buf) (4 + len)) as [|Hall]; [done|].
  destruct (Z.ltb_spec (zlen buf + zlen more) (4 + len)); [lia|].
  rewrite drop_app_le, take_app_le by (rewrite ?length_drop; unfold zlen in *; lia).
  destruct (parse_req _) as [cmd|]; [|done]. by rewrite drop_app_le by (unfold zlen in *; lia).
Qed.

(** ** The stream of requests *)

(** [stream buf cmds rest bad]: the complete requests of [buf] are [cmds], then
    comes [rest], the start of a request or, if [bad], a malformed one. *)
Inductive stream : Buffer -> list command -> Buffer -> bool -> Prop :=
  | stream_partial buf : take_frame buf = Partial -> stream buf [] buf false
  | stream_bad buf : take_frame buf = Bad -> stream buf [] buf true
  | stream_req buf cmd rest cmds last bad :
      take_frame buf = Req cmd rest -> stream rest cmds last bad -> stream buf (cmd :: cmds) last bad.

Lemma stream_split buf :
  exists cmds rest bad, stream buf cmds rest bad /\ (8 * length cmds <= length buf)%nat.
Proof.
  remember (length buf) as n eqn:Hn. revert buf Hn. induction n as [n IH] using lt_wf_ind. intros buf ->.
  destruct (take_frame buf) as [| |cmd rest] eqn:E.
  - exists [], buf, false. split; [by constructor|cbn; lia].
  - exists [], buf, true. split; [by constructor|cbn; lia].
  - pose proof (take_frame_shorter _ _ _ E) as Hs. unfold zlen in Hs.
    destruct (IH (length rest) ltac:(lia) rest eq_refl) as (cmds & last & bad & Hst & Hl).
    exists (cmd :: cmds), last, bad. split; [by econstructor|cbn [length]; lia].
Qed.

(** Encoded requests, then the beginning of another. *)
Definition enc_frame (cmd : command) : Buffer := le_enc 4 (zlen (enc_req cmd)) ++ enc_req cmd.

(** A request within the limits of the server. *)
Definition sendable (cmd : command) : Prop := zlen (enc_req cmd) <= k_max_msg /\ zlen cmd <= k_max_args.

Lemma stream_enc cmds rest :
  Forall sendable cmds ->
  take_frame rest = Partial -> stream (flat_map enc_frame cmds ++ rest) cmds rest false.
Proof.
  intros Hc Hr. induction Hc as [|cmd cmds [Hm Ha] _ IH]; cbn [flat_map app]; [by constructor|].
  eapply stream_req; [|exact IH]. unfold enc_frame at 1. rewrite <- !app_assoc. by apply take_frame_enc.
Qed.

(** ** The loop over the requests *)

(** Room for [n] more entries and tuples. *)
Record room_for (n : Z) D : Prop := {
  rf_few : n < 2 ^ 32 - 1;
  rf_keys : Z.of_nat (size D) + n < 2 ^ 60;
  rf_sets : forall k l t, D !! k = Some (mkArec (AZset l) t) -> zlen l + n < 2 ^ 32 - 1
}.

Lemma room_for_le n m D : m <= n -> room_for n D -> room_for m D.
Proof. intros Hm [H0 H1 H2]. split; [lia|lia|]. intros k l t Hk. specialize (H2 _ _ _ Hk). lia. Qed.

Lemma room_for_one n D : 0 < n -> room_for n D -> db_room D.
Proof. intros Hn [_ H1 H2]. split; [lia|]. intros k l t Hk. specialize (H2 _ _ _ Hk). lia. Qed.

Lemma zlen_zput t l : zlen (zput t l) = zlen l + 1.
Proof.
  induction l as [|u l IH]; [done|]. cbn [zput]. destruct (tuple_ltb u t); rewrite !zlen_cons; lia.
Qed.

Lemma zlen_zdel nm l : zlen (zdel nm l) <= zlen l.
Proof. unfold zdel, zlen. pose proof (length_filter (fun t : tuple => t.2 <> nm) l). lia. Qed.

Lemma zlen_zadd sc nm l : zlen (zadd sc nm l) <= zlen l + 1.
Proof.
  unfold zadd. destruct (zfind nm l) as [t|]; [|by rewrite zlen_zput].
  destruct (dbl_eqb t.1 sc); [lia|]. rewrite zlen_zput. pose proof (zlen_zdel nm l). lia.
Qed.

(** A command adds at most one entry, and one tuple to a set. *)
Lemma room_insert n D k r :
  room_for (n + 1) D ->
  (forall l, a_val r = AZset l -> zlen l + n < 2 ^ 32 - 1) -> room_for n (<[k := r]> D).
Proof.
  intros [H0 H1 H2] Hr. split; [lia| |].
  - enough (size (<[k := r]> D) <= S (size D))%nat by lia.
    rewrite map_size_insert. destruct (D !! k); cbn; lia.
  - intros k' l t [[<- Hk]|[_ Hk]]%lookup_insert_Some; [by apply Hr; subst|]. specialize (H2 _ _ _ Hk). lia.
Qed.

Lemma room_spec n now D cmd : room_for (n + 1) D -> room_for n (spec_cmd now D cmd).1.
Proof.
  intros Hr. pose proof (room_for_le (n + 1) n D (Z.le_succ_diag_r n) Hr) as Hr'.
  assert (Hold : forall k r l, D !! k = Some r -> a_val r = AZset l -> zlen l + (n + 1) < 2 ^ 32 - 1).
  { intros k [v t] l Hk Hv. cbn in Hv. subst. by apply (rf_sets _ _ Hr k l t). }
  destruct cmd as [k|k v|k| |k sc nm|k nm|k nm|k sc nm off lim|k ttl|k|]; cbn [spec_cmd fst]; try done.
  - destruct (D !! k) as [[[s|l] t]|] eqn:E; cbn [fst]; [|done|]; by apply room_insert.
  - split; [apply Hr'| |intros k' l t [_ Hk]%lookup_delete_Some; by apply (rf_sets _ _ Hr' k' l t)].
    destruct Hr' as [_ H1 _]. pose proof (map_subseteq_size _ _ (delete_subseteq D k)). lia.
  - destruct (str2dbl sc) as [s|]; [|done]. destruct (D !! k) as [[[s'|l] t]|] eqn:E; cbn [fst]; [done| |].
    + apply room_insert; [done|]. intros l' [= <-]. specialize (Hold k _ l E eq_refl).
      pose proof (zlen_zadd s nm l). lia.
    + apply room_insert; [done|]. intros l' [= <-]. pose proof (rf_few _ _ Hr). unfold zlen. cbn. lia.
  - destruct (D !! k) as [[[s'|l] t]|] eqn:E; cbn [fst]; [done| |done].
    apply room_insert; [done|]. intros l' [= <-]. specialize (Hold k _ l E eq_refl).
    pose proof (zlen_zdel nm l). lia.
  - destruct (str2int ttl) as [t|]; [|done]. destruct (D !! k) as [r|] eqn:E; [|done]. cbn [fst].
    apply room_insert; [done|]. cbn. intros l Hl. specialize (Hold k r l E Hl). lia.
Qed.

(** The abstract run of a sequence of requests, request [k] at [clock k]. *)
Inductive runs (clock : nat -> Z) : nat -> adb -> list command -> list value -> adb -> Prop :=
  | runs_nil k D : runs clock k D [] [] D
  | runs_cons k D cmd cmds v vs D' :
      spec_reply (clock k) D (decode_cmd cmd) v ->
      runs clock (S k) (spec_cmd (clock k) D (decode_cmd cmd)).1 cmds vs D' ->
      runs clock k D (cmd :: cmds) (v :: vs) D'.

(** The bytes sent for a reply: its frame, unless its size is not a [size_t]. *)
Definition sent (v : value) (o : Buffer) : Prop :=
  o <> [] /\ (zlen (encode v) < 2 ^ 64 -> o = frame (encode v)).

(** The connection after its requests are answered. *)
Definition answered (outs : list Buffer) (rest : Buffer) (bad : bool) c : Conn :=
  mkConn (fd c) (want_read c) (want_write c) (bad || want_close c) rest
    (outgoing c ++ concat outs) (last_active_ms c).

Lemma answer_one now g D c cmd rest :
  db_rep g D -> db_room D -> take_frame (incoming c) = Req cmd rest ->
  exists g' v o, try_one_request now g c =
      Some (g', set_incoming rest (set_outgoing (outgoing c ++ o) c), true) /\
    db_rep g' (spec_cmd now D (decode_cmd cmd)).1 /\ spec_reply now D (decode_cmd cmd) v /\ sent v o.
Proof.
  intros Hr Hroom E. rewrite try_one_request_frame, E.
  destruct (do_request_refines now g D cmd (response_begin (outgoing c)).1 Hr Hroom)
    as (v & (g' & E' & Hr') & Hv).
  rewrite E', bind_Some_l. destruct (response_end_total (outgoing c) (encode v)) as (o & E2 & Hne & Ho).
  rewrite E2, bind_Some_l. by exists g', v, o.
Qed.

Lemma request_loop_spec clock cmds buf rest bad :
  stream buf cmds rest bad ->
  forall fuel k g D c, incoming c = buf -> db_rep g D -> room_for (zlen cmds) D ->
  (length cmds < fuel)%nat ->
  exists g' D' vs outs,
    request_loop fuel clock k g c = Some (g', answered outs rest bad c) /\
    db_rep g' D' /\ runs clock k D cmds vs D' /\ Forall2 sent vs outs.
Proof.
  induction 1 as [buf E|buf E|buf cmd rest cmds last bad E Hst IH]; intros fuel k g D c <- Hr Hroom Hf;
    (destruct fuel as [|fuel]; [cbn in Hf; lia|]); cbn [request_loop length] in *.
  1,2: rewrite try_one_request_frame, E, bind_Some_l; exists g, D, [], [];
    split_and!; [|done|constructor..]; unfold answered; cbn [concat]; rewrite app_nil_r; by destruct c.
  rewrite zlen_cons in Hroom. pose proof (zlen_nonneg cmds) as Hn.
  destruct (answer_one (clock k) g D c cmd rest Hr (room_for_one (zlen cmds + 1) D ltac:(lia) Hroom) E) as (g1 & v & o & E1 & Hr1 & Hv & Ho).
  rewrite E1, bind_Some_l.
  destruct (IH fuel (S k) g1 (spec_cmd (clock k) D (decode_cmd cmd)).1
    (set_incoming rest (set_outgoing (outgoing c ++ o) c)) eq_refl Hr1 (room_spec _ _ _ _ Hroom) ltac:(lia))
    as (g2 & D2 & vs & outs & E2 & Hr2 & Hruns & Hs).
  exists g2, D2, (v :: vs), (o :: outs). split_and!; [|done|by econstructor|by constructor].
  rewrite E2. unfold answered. cbn. by rewrite <- app_assoc.
Qed.

Lemma sent_frames vs outs :
  Forall2 sent vs outs -> Forall (fun v => zlen (encode v) < 2 ^ 64) vs ->
  concat outs = flat_map (fun v => frame (encode v)) vs.
Proof.
  intros H. induction H as [|v o vs outs [_ Ho] _ IH]; intros Hv; [done|].
  apply Forall_cons in Hv as [Hv Hvs]. cbn. by rewrite Ho, IH.
Qed.

Lemma stream_rest buf cmds rest bad : stream buf cmds rest bad -> bad = false -> take_frame rest = Partial.
Proof. induction 1; [done|done|auto]. Qed.

Lemma sent_nonempty vs outs o : Forall2 sent vs outs -> o ∈ outs -> o <> [].
Proof.
  intros Hs [i Hi]%list_elem_of_lookup. destruct (Forall2_lookup_r _ _ _ _ _ Hs Hi) as (v & _ & Hne & _). done.
Qed.

Lemma runs_room clock k D cmds vs D' :
  runs clock k D cmds vs D' -> forall m, room_for (zlen cmds + m) D -> room_for m D'.
Proof.
  induction 1 as [|? ? ? ? ? ? ? ? _ IH]; intros m Hroom; [done|].
  apply IH, room_spec. by rewrite zlen_cons, <- Z.add_assoc, (Z.add_comm 1), Z.add_assoc in Hroom.
Qed.

(** The loop on any bytes: never undefined, never out of fuel. *)
Lemma request_loop_total clock g D c n :
  db_rep g D -> zlen (incoming c) <= 8 * n -> room_for n D ->
  exists g' D' cmds vs outs rest bad, request_loop (S (length (incoming c))) clock 0 g c =
      Some (g', answered outs rest bad c) /\
    db_rep g' D' /\ stream (incoming c) cmds rest bad /\ runs clock 0 D cmds vs D' /\ Forall2 sent vs outs /\
    forall m, 0 <= m -> room_for (n + m) D -> room_for m D'.
Proof.
  intros Hr Hlen Hroom. destruct (stream_split (incoming c)) as (cmds & rest & bad & Hst & Hc).
  assert (Hcn : zlen cmds <= n) by (unfold zlen in *; lia).
  destruct (request_loop_spec clock cmds _ rest bad Hst (S (length (incoming c))) 0%nat g D c)
    as (g' & D' & vs & outs & E & Hr' & Hruns & Hs); [done|done|by eapply room_for_le|lia|].
  exists g', D', cmds, vs, outs, rest, bad. split_and!; [done..|].
  intros m Hm Hroom'. eapply runs_room; [exact Hruns|]. eapply room_for_le; [|exact Hroom']. lia.
Qed.

(** ** Reads may be cut anywhere *)

Lemma request_loop_fuel clock f1 : forall f2 k g c r,
  request_loop f1 clock k g c = Some r -> (f1 <= f2)%nat -> request_loop f2 clock k g c = Some r.
Proof.
  induction f1 as [|f1 IH]; intros [|f2] k g c r E Hf; cbn [request_loop] in *; try done; [lia|].
  destruct (try_one_request (clock k) g c) as [[[g' c'] more]|]; [|done]. rewrite bind_Some_l in E |- *.
  destruct more; [|done]. apply IH; [done|lia].
Qed.

(** The connection with [more] bytes received. *)
Definition receive (more : Buffer) c : Conn := set_incoming (buf_append (incoming c) more) c.

Lemma try_one_receive now g c more :
  match try_one_request now g c with
  | Some (g', c', true) => try_one_request now g (receive more c) = Some (g', receive more c', true)
  | Some (g', c', false) => g' = g /\ (c' = c \/ c' = set_close c)
  | None => True
  end.
Proof.
  rewrite !try_one_request_frame. cbn [incoming receive set_incoming]. pose proof (take_frame_app (incoming c) more) as H.
  unfold buf_append. destruct (take_frame (incoming c)) as [| |cmd rest]; [by auto..|]. rewrite H.
  cbn [outgoing set_incoming receive].
  destruct (do_request _ _ _ _) as [[g' out]|]; [|done]. rewrite !bind_Some_l.
  destruct (response_end _ _) as [out'|]; [|done]. by rewrite !bind_Some_l.
Qed.

(** Serving the bytes at once is serving the first part, then the rest. *)
Lemma request_loop_chunks clock more f1 : forall k g c g1 c1,
  want_close c = false -> request_loop f1 clock k g c = Some (g1, c1) -> want_close c1 = false ->
  exists m, (m < f1)%nat /\ forall f2 r,
    request_loop f2 clock (k + m) g1 (receive more c1) = Some r ->
    request_loop (f1 + f2) clock k g (receive more c) = Some r.
Proof.
  induction f1 as [|f1 IH]; intros k g c g1 c1 Hw E Hw1; cbn [request_loop] in E; [done|].
  pose proof (try_one_receive (clock k) g c more) as H.
  destruct (try_one_request (clock k) g c) as [[[g' c'] more']|] eqn:Et; [|done]. rewrite bind_Some_l in E.
  destruct more'.
  - assert (Hw' : want_close c' = false).
    { rewrite try_one_request_frame in Et. destruct (take_frame _); [done..|].
      destruct (do_request _ _ _ _) as [[? ?]|]; [|done]. rewrite bind_Some_l in Et.
      destruct (response_end _ _); [|done]. rewrite bind_Some_l in Et. by injection Et as <- <-. }
    destruct (IH (S k) g' c' g1 c1 Hw' E Hw1) as (m & Hm & Hrun). exists (S m). split; [lia|].
    intros f2 r Hr. cbn [plus request_loop]. rewrite H, bind_Some_l. apply Hrun.
    by replace (S k + m)%nat with (k + S m)%nat by lia.
  - destruct H as [-> [->| ->]]; injection E as <- <-; [|done].
    exists 0%nat. split; [lia|]. intros f2 r Hr. rewrite Nat.add_0_r in Hr.
    eapply request_loop_fuel; [done|lia].
Qed.

(** Any fuel above the number of bytes is enough. *)
Lemma try_one_shorter now g c g' c' :
  try_one_request now g c = Some (g', c', true) -> (length (incoming c') + 8 <= length (incoming c))%nat.
Proof.
  rewrite try_one_request_frame. destruct (take_frame (incoming c)) as [| |cmd rest] eqn:E; [done..|].
  destruct (do_request _ _ _ _) as [[g1 out]|]; [|done]. rewrite bind_Some_l.
  destruct (response_end _ _) as [o|]; [|done]. rewrite bind_Some_l. intros [= <- <-].
  pose proof (take_frame_shorter _ _ _ E). unfold zlen in *. cbn [incoming set_incoming]. lia.
Qed.

Lemma request_loop_enough clock f1 : forall f2 k g c r,
  request_loop f1 clock k g c = Some r -> (length (incoming c) < f2)%nat -> request_loop f2 clock k g c = Some r.
Proof.
  induction f1 as [|f1 IH]; intros [|f2] k g c r E Hf; cbn [request_loop] in *; try done; [lia|].
  destruct (try_one_request (clock k) g c) as [[[g' c'] more]|] eqn:Et; [|done]. rewrite bind_Some_l in E |- *.
  destruct more; [|done]. apply IH; [done|]. pose proof (try_one_shorter _ _ _ _ _ Et). lia.
Qed.

Lemma enc_frames_length cmds : (8 * length cmds <= length (flat_map enc_frame cmds))%nat.
Proof.
  induction cmds as [|cmd cmds IH]; [done|]. cbn [flat_map length]. rewrite length_app.
  unfold enc_frame at 1, enc_req at 1. rewrite !length_app, !length_le_enc. unfold enc_req. rewrite length_app, length_le_enc. lia.
Qed.
