(* ===== verification/EventLoopProofs.v ===== *)
(** * The connections and the event loop: safety, service, timeouts

    [srv_inv t s D l]: at time [t] the database of [s] is [D], and the
    connections, in the order of the idle list, are [l].  [served] says what a
    callback does to the database and to the streams of its connection, and
    [turns] what an iteration does, one connection after the other. *)

From S2P Require Import Prelude Hashtable Zset Heap HeapProofs DList Common Wire Server Spec ServerProofs EventLoop Calls Framing.
Local Open Scope Z_scope.

Implicit Types (g : gdata) (D : adb) (c : Conn) (s : server) (l : list ptr).

(** ** Readiness *)

(** What the operating system promises. *)
Definition write_ok (write : Z -> io_write) : Prop :=
  forall n k, write n = Wrote k -> 0 <= k <= n.
Definition read_ok (rv : io_read) : Prop :=
  forall data, rv = ReadData data -> zlen data <= 64 * 1024.

(** A connection waits to write exactly while it has a response to send, and
    has answered every complete request it received. *)
Record conn_ok c : Prop := {
  ok_open : want_close c = false;
  ok_read : want_read c = negb (want_write c);
  ok_write : want_write c = bool_decide (outgoing c <> []);
  ok_incoming : take_frame (incoming c) = Partial
}.

(** A callback keeps the identity of the connection. *)
Definition same_conn c c' : Prop := fd c' = fd c /\ last_active_ms c' = last_active_ms c.

(** The call of [write] that [handle_write] makes. *)
Definition write_call c (write : Z -> io_write) : sys_call :=
  CallWrite (fd c) (outgoing c) (write (zlen (outgoing c))).

(** What [write] took is removed from the pending bytes, and nothing else. *)
Lemma handle_write_spec c write :
  outgoing c <> [] -> write_ok write ->
  exists c', handle_write c write = Some (c', write_call c write) /\ same_conn c c' /\
    incoming c' = incoming c /\ outgoing c = written [write_call c write] ++ outgoing c' /\
    (want_close c = true -> want_close c' = true) /\
    (want_close c' = true \/
      want_close c' = false /\ want_write c' = (want_write c && bool_decide (outgoing c' <> [])) /\
      want_read c' = (want_read c || bool_decide (outgoing c' = []))).
Proof.
  intros Hne Hw. unfold handle_write, write_call.
  assert (Hpos : 0 < zlen (outgoing c)) by (destruct (outgoing c); [done|unfold zlen; cbn; lia]).
  rewrite option_guard_True by done.
  destruct (write (zlen (outgoing c))) as [| |n] eqn:E; cbn [written flat_map call_written]; rewrite app_nil_r.
  - exists c. split_and!; try done. destruct (want_close c); [by left|right].
    rewrite bool_decide_eq_true_2, bool_decide_eq_false_2 by done. by rewrite andb_true_r, orb_false_r.
  - exists (set_close c). by repeat split; try left.
  - apply Hw in E. unfold buf_consume. rewrite option_guard_True, bind_Some_l by lia.
    pose proof (eq_sym (take_drop (Z.to_nat n) (outgoing c))) as Ho.
    generalize dependent (drop (Z.to_nat n) (outgoing c)). intros out Ho.
    destruct (Z.eqb_spec (zlen out) 0) as [Hz|Hz].
    + assert (out = []) as Hout by (destruct out; [done|unfold zlen in Hz; cbn in Hz; lia]).
      exists (set_want true false (set_outgoing out c)). subst out. split_and!; try done. cbn.
      destruct (want_close c); [by left|right]. rewrite andb_false_r, orb_true_r. done.
    + exists (set_outgoing out c). split_and!; try done. cbn.
      destruct (want_close c); [by left|right]. assert (out <> []) by (intros Hout; by rewrite Hout in Hz).
      rewrite bool_decide_eq_true_2, bool_decide_eq_false_2 by done. by rewrite andb_true_r, orb_false_r.
Qed.

(** The requests one read can complete. *)
Definition read_budget : Z := (4 + k_max_msg + 64 * 1024 + 7) / 8.

(** What the calls [xs] of a callback do on the database and on the streams of a
    connection: the complete requests among the bytes kept and received are
    executed in order, their replies join the pending output; what [write] took
    are the first of these bytes, and the others are pending. *)
Definition served (clock : nat -> Z) D c (xs : list sys_call) D' c' : Prop :=
  exists cmds bad vs outs,
    stream (incoming c ++ received xs) cmds (incoming c') bad /\ runs clock 0 D cmds vs D' /\ Forall2 sent vs outs /\
    outgoing c ++ concat outs = written xs ++ outgoing c'.

(** Nothing received. *)
Lemma served_nothing clock D c c' xs :
  conn_ok c -> received xs = [] -> incoming c' = incoming c -> outgoing c = written xs ++ outgoing c' ->
  served clock D c xs D c'.
Proof.
  intros Hc Hx Hi Ho. exists [], false, [], []. rewrite Hx, Hi, app_nil_r. cbn [concat]. rewrite app_nil_r.
  split_and!; [|constructor|constructor|done]. constructor. apply Hc.
Qed.

Lemma handle_write_ok c write :
  conn_ok c -> want_write c = true -> write_ok write ->
  exists c', handle_write c write = Some (c', write_call c write) /\ same_conn c c' /\
    (want_close c' = true \/ conn_ok c') /\ forall clock D, served clock D c [write_call c write] D c'.
Proof.
  intros Hok Hww Hw. pose proof Hok as [H1 H2 H3 H4]. rewrite Hww in *. symmetry in H3. apply bool_decide_eq_true in H3.
  destruct (handle_write_spec c write H3 Hw) as (c' & E & Hs & Hi & Ho & _ & Hc). exists c'.
  split_and!; [done|done| |intros; by apply served_nothing]. destruct Hc as [?|(Hcl & Hw' & Hr')]; [by left|right].
  rewrite Hww in Hw'. rewrite H2 in Hr'. cbn in Hw', Hr'. split; [done| |done|by rewrite Hi].
  by rewrite Hw', Hr', bool_decide_not, negb_involutive.
Qed.

(** The bytes of a read. *)
Definition read_data (rv : io_read) : Buffer := match rv with ReadData data => data | _ => [] end.

(** No call, or one [write] on the descriptor [n]. *)
Definition write_once n (write : Z -> io_write) (ws : list sys_call) : Prop :=
  ws = [] \/ exists buf, ws = [CallWrite n buf (write (zlen buf))].

Lemma write_once_received n write ws : write_once n write ws -> received ws = [].
Proof. by intros [->|(buf & ->)]. Qed.

Lemma write_once_uses n write ws : write_once n write ws -> Forall (uses n) ws.
Proof. intros [->|(buf & ->)]; by repeat constructor. Qed.

(** The replies are written at once, or the connection goes on reading. *)
Lemma answer_ok c1 outs rest bad write g x :
  want_read c1 = true -> want_write c1 = false -> want_close c1 = false -> outgoing c1 = [] ->
  (bad = false -> take_frame rest = Partial) -> write_ok write ->
  let c2 := answered outs rest bad c1 in
  exists c' ws,
    (if 0 <? zlen (outgoing c2) then '(conn, w) ← handle_write (set_want false true c2) write; Some (g, conn, [x; w])
     else Some (g, c2, [x])) = Some (g, c', x :: ws) /\ write_once (fd c1) write ws /\
    same_conn c1 c' /\ incoming c' = rest /\
    concat outs = written ws ++ outgoing c' /\ (want_close c' = true \/ conn_ok c').
Proof.
  intros Hr Hww Hcl Ho Hrest Hw. cbn [outgoing answered]. rewrite Ho, app_nil_l. destruct (concat outs) as [|b' o] eqn:Eo.
  - rewrite (proj2 (Z.ltb_ge _ _)) by done. exists (answered outs rest bad c1), [].
    split_and!; [done|by left|done|done|by cbn; rewrite Ho, Eo|]. destruct bad; [by left|right].
    split; cbn; [done|by rewrite Hr, Hww| |by apply Hrest]. rewrite Ho, Eo. by rewrite Hww, bool_decide_eq_false_2; [|intros []].
  - rewrite (proj2 (Z.ltb_lt _ _)) by (unfold zlen; cbn; lia).
    destruct (handle_write_spec (set_want false true (answered outs rest bad c1)) write) as
      (c' & E' & Hs & Hi & Hout & Hcl' & Hc); [by cbn; rewrite Ho, Eo|done|].
    rewrite E', bind_Some_l. eexists c', [_]. split; [done|]. split; [right; by eexists|].
    split; [done|]. split; [done|]. split; [rewrite <- Hout; cbn; by rewrite Ho, Eo|].
    destruct Hc as [?|(Hcl2 & Hw' & Hr'')]; [by left|right]. destruct bad; [by rewrite Hcl' in Hcl2|].
    split; [done| |done|by rewrite Hi; apply Hrest].
    by rewrite Hw', Hr'', bool_decide_not; cbn; rewrite negb_involutive.
Qed.

Lemma handle_read_ok clock g D c rv write :
  conn_ok c -> want_read c = true -> read_ok rv -> write_ok write -> db_rep g D -> room_for read_budget D ->
  exists g' c' D' ws, handle_read clock g c rv write = Some (g', c', CallRead (fd c) rv :: ws) /\
    write_once (fd c) write ws /\ same_conn c c' /\
    (want_close c' = true \/ conn_ok c') /\ db_rep g' D' /\ served clock D c (CallRead (fd c) rv :: ws) D' c' /\
    forall m, 0 <= m -> room_for (read_budget + m) D -> room_for m D'.
Proof.
  intros Hok Hwr Hrd Hw Hr Hroom.
  assert (Hkeep : forall m, 0 <= m -> room_for (read_budget + m) D -> room_for m D).
  { intros m Hm. apply room_for_le. assert (0 < read_budget) by done. lia. }
  unfold handle_read. destruct rv as [| |[|b data]].
  1-3: eexists g, _, D, []; split_and!; [reflexivity|by left|done|..|done| |done];
    [by (left + right)|by apply served_nothing].
  specialize (Hrd _ eq_refl). rewrite option_guard_True by done.
  set (c1 := set_incoming (buf_append (incoming c) (b :: data)) c).
  destruct (request_loop_total clock g D c1 read_budget Hr)
    as (g' & D' & cmds & vs & outs & rest & bad & E & Hr' & Hst & Hruns & Hs & Hm); [|done|].
  { change (incoming c1) with (incoming c ++ (b :: data)). rewrite zlen_app.
    pose proof (take_frame_partial _ (ok_incoming _ Hok)).
    assert (k_max_msg = 33554432) by done. assert (read_budget = 4202497) by done. lia. }
  rewrite E, bind_Some_l. destruct Hok as [H1 H2 H3 H4]. rewrite Hwr in H2. destruct (want_write c) eqn:Hww; [done|].
  assert (Ho : outgoing c = []).
  { symmetry in H3. apply bool_decide_eq_false in H3. by destruct (outgoing c); [|destruct H3]. }
  destruct (answer_ok c1 outs rest bad write g' (CallRead (fd c) (ReadData (b :: data))) Hwr Hww H1 Ho (stream_rest _ _ _ _ Hst) Hw)
    as (c' & ws & E' & Hws & Hs' & Hi & Hg & Hc').
  exists g', c', D', ws. split_and!; [exact E'|done|done|done|done| |done].
  exists cmds, bad, vs, outs. rewrite Hi, Ho.
  change (CallRead (fd c) (ReadData (b :: data)) :: ws) with ([CallRead (fd c) (ReadData (b :: data))] ++ ws).
  rewrite received_app, written_app, (write_once_received _ _ _ Hws). cbn [received written flat_map call_received call_written].
  rewrite !app_nil_r. by split_and!.
Qed.

(** ** The connections *)

(** The times of the last activity of the connections of a list. *)
Definition ages (m : gmap ptr Conn) l : list Z := omap (fun p => last_active_ms <$> m !! p) l.

Record srv_core (t : Z) s D l : Prop := {
  sc_db : db_rep (gd s) D;
  sc_ring : ring (idle s) idle_list l;
  sc_live : forall p, is_Some (conns s !! p) <-> p ∈ l;
  sc_idle : dom (idle s) = {[idle_list]} ∪ dom (conns s);
  sc_slot : forall p c, conns s !! p = Some c -> arr_get (fd2conn s) (fd c) = Some (Some p);
  sc_conn : forall n p, arr_get (fd2conn s) n = Some (Some p) ->
    exists c, conns s !! p = Some c /\ fd c = n;
  sc_order : StronglySorted Z.le (ages (conns s) l);
  sc_time : forall p c, conns s !! p = Some c -> 0 <= last_active_ms c <= t;
  (* the descriptors that the calls made so far leave open *)
  sc_open : opened (calls s) (conns s)
}.

Definition srv_inv (t : Z) s D l : Prop :=
  srv_core t s D l /\ map_Forall (fun _ c => conn_ok c) (conns s).

Lemma ages_app m l1 l2 : ages m (l1 ++ l2) = ages m l1 ++ ages m l2.
Proof. apply omap_app. Qed.

Lemma ages_ext m m' l :
  (forall p, p ∈ l -> last_active_ms <$> m' !! p = last_active_ms <$> m !! p) -> ages m' l = ages m l.
Proof.
  induction l as [|p l IH]; intros H; [done|]. cbn. rewrite (H p) by set_solver.
  fold (ages m' l) (ages m l). rewrite IH; [done|]. intros q Hq. apply H. set_solver.
Qed.

Lemma ages_in m l t : t ∈ ages m l <-> exists p c, p ∈ l /\ m !! p = Some c /\ last_active_ms c = t.
Proof.
  unfold ages. rewrite list_elem_of_omap. split.
  - intros (p & Hp & (c & Hc & Ht)%fmap_Some). eauto.
  - intros (p & c & Hp & Hc & <-). exists p. split; [done|]. by rewrite Hc.
Qed.

Lemma sorted_snoc (l : list Z) t :
  StronglySorted Z.le l -> (forall x, x ∈ l -> x <= t) -> StronglySorted Z.le (l ++ [t]).
Proof.
  intros Hs Hl. induction Hs as [|x l Hs IH Hx]; cbn; [by repeat constructor|].
  constructor; [apply IH; set_solver|]. apply Forall_app. split; [done|]. constructor; [|done]. apply Hl. set_solver.
Qed.

Lemma sorted_remove (l1 l l2 : list Z) :
  StronglySorted Z.le (l1 ++ l ++ l2) -> StronglySorted Z.le (l1 ++ l2).
Proof.
  intros (H1 & (_ & H2 & _)%sorted_app & H3)%sorted_app. apply sorted_app. split_and!; [done..|].
  intros x y Hx Hy. apply H3; set_solver.
Qed.

Lemma ages_remove m l1 p l2 :
  StronglySorted Z.le (ages m (l1 ++ p :: l2)) -> StronglySorted Z.le (ages m (l1 ++ l2)).
Proof.
  change (p :: l2) with ([p] ++ l2). rewrite !ages_app. apply sorted_remove.
Qed.

(** The table of descriptors. *)
Lemma arr_set_ok {A} (tbl : list A) i x y :
  arr_get tbl i = Some y -> exists tbl', arr_set tbl i x = Some tbl' /\
    forall j, arr_get tbl' j = if decide (j = i) then Some x else arr_get tbl j.
Proof.
  unfold arr_set, arr_get. case_decide as Hi; [|done]. intros _. eexists. split; [done|].
  intros j. rewrite length_insert. destruct (decide (j = i)) as [->|Hne].
  - rewrite decide_True by done. apply list_lookup_insert_eq. lia.
  - case_decide; [|done]. rewrite list_lookup_insert_ne; [done|]. lia.
Qed.

Lemma core_notin t s D l1 p l2 : srv_core t s D (l1 ++ p :: l2) -> p ∉ l1 ++ l2 /\ p <> idle_list.
Proof.
  intros Hc. pose proof (sc_ring _ _ _ _ Hc) as [_ Hnd].
  rewrite <- Permutation_middle in Hnd. apply NoDup_cons in Hnd as [Hi Hnd].
  apply NoDup_cons in Hnd as [Hp' _]. split; [done|]. intros ->. apply Hi, list_elem_of_here.
Qed.

Lemma core_split t s D l p c :
  srv_core t s D l -> conns s !! p = Some c -> exists l1 l2, l = l1 ++ p :: l2.
Proof. intros Hc Hp. apply list_elem_of_split, (sc_live _ _ _ _ Hc). eauto. Qed.

(** [conn_destroy] *)
Lemma conn_destroy_spec t s D l1 p l2 c :
  srv_core t s D (l1 ++ p :: l2) -> conns s !! p = Some c ->
  exists s', conn_destroy s p = Some s' /\ srv_core t s' D (l1 ++ l2) /\
    conns s' = delete p (conns s) /\ gd s' = gd s /\ calls s' = calls s ++ [CallClose (fd c)] /\
    forall n, n <> fd c -> arr_get (fd2conn s') n = arr_get (fd2conn s) n.
Proof.
  intros Hc Hp. destruct (core_notin _ _ _ _ _ _ Hc) as [Hpl Hpi].
  unfold conn_destroy. rewrite Hp, bind_Some_l. cbn [fd2conn idle gd conns calls with_calls].
  destruct (arr_set_ok (fd2conn s) (fd c) None _ (sc_slot _ _ _ _ Hc p c Hp)) as (tbl & E1 & Htbl).
  rewrite E1, bind_Some_l. destruct (dlist_detach_spec _ _ _ _ _ (sc_ring _ _ _ _ Hc)) as (m & E2 & Hm & _ & Hd).
  rewrite E2, bind_Some_l. eexists. split; [done|].
  split; [|by split_and!; try done; intros n Hn; cbn; rewrite Htbl, decide_False by done].
  destruct Hc as [Hdb _ Hlive Hidle Hslot Hconn Hord Htime Hopen].
  split; cbn [gd idle conns fd2conn calls]; [done| | | | | | | |].
  - assert (Hk : forall a, a ∈ idle_list :: l1 ++ l2 -> delete p m !! a = m !! a).
    { intros a Ha. apply lookup_delete_ne. intros <-. apply elem_of_cons in Ha as [?|?]; done. }
    destruct Hm as [Hf Hnd]. split; [|done]. eapply links_frame, Hf; unfold next_of, prev_of; intros a Ha.
    + by rewrite Hk.
    + rewrite Hk; [done|]. set_solver.
  - intros q. rewrite lookup_delete_is_Some, Hlive. set_solver.
  - rewrite !dom_delete_L, Hd, Hidle. set_solver.
  - intros q c' [Hq Hc']%lookup_delete_Some. rewrite Htbl, decide_False; [by apply Hslot|].
    intros Hfd. pose proof (Hslot _ _ Hc') as H1. rewrite Hfd, (Hslot _ _ Hp) in H1. by simplify_eq.
  - intros n q. rewrite Htbl. case_decide as Hn; [done|]. intros (c' & Hc' & Hfd)%Hconn. exists c'.
    split; [|done]. rewrite lookup_delete_ne; [done|]. intros <-. simplify_eq.
  - rewrite (ages_ext (conns s)); [|intros q Hq; rewrite lookup_delete_ne; [done|by intros <-]].
    by eapply ages_remove.
  - intros q c' [_ Hc']%lookup_delete_Some. by eapply Htime.
  - apply opened_close; [done..|]. intros q c' Hq Hfd. apply Hslot in Hq. rewrite Hfd, (Hslot _ _ Hp) in Hq. congruence.
Qed.

Lemma dom_put {A} (m : gmap ptr A) p x y : m !! p = Some x -> dom (<[p := y]> m) = dom m.
Proof. intros Hp. apply dom_insert_lookup_L. eauto. Qed.

Lemma live_put {A} (m : gmap ptr A) p x y q :
  m !! p = Some x -> is_Some (<[p := y]> m !! q) <-> is_Some (m !! q).
Proof. intros Hp. by rewrite <- !elem_of_dom, (dom_put _ _ _ _ Hp). Qed.

(** Replacing a connection by one with the same identity, and the database. *)
Lemma core_update t s D l p c c' g' D' :
  srv_core t s D l -> conns s !! p = Some c -> same_conn c c' -> db_rep g' D' ->
  srv_core t (with_gd g' (with_conn p c' s)) D' l.
Proof.
  intros [Hdb Hring Hlive Hidle Hslot Hconn Hord Htime Hopen] Hp [Hfd Hla] Hg.
  split; cbn [gd idle conns fd2conn calls with_gd with_conn]; try done.
  - intros q. by rewrite (live_put _ _ _ _ _ Hp).
  - by rewrite (dom_put _ _ _ _ Hp).
  - intros q c1 [[<- <-]|[_ Hq]]%lookup_insert_Some; [rewrite Hfd|]; by apply Hslot.
  - intros n q (c1 & Hc1 & Hn)%Hconn. destruct (decide (q = p)) as [->|Hne].
    + exists c'. rewrite lookup_insert_eq. split; [done|]. rewrite Hfd. simplify_eq. done.
    + exists c1. by rewrite lookup_insert_ne.
  - rewrite (ages_ext (conns s)); [done|]. intros q _. destruct (decide (q = p)) as [->|Hne].
    + rewrite lookup_insert_eq, Hp. cbn. by rewrite Hla.
    + by rewrite lookup_insert_ne.
  - intros q c1 [[<- <-]|[_ Hq]]%lookup_insert_Some; [rewrite Hla|]; by eapply Htime.
  - by eapply opened_put.
Qed.

(** Calls on the descriptor of a connection. *)
Lemma core_calls t s D l p c xs :
  srv_core t s D l -> conns s !! p = Some c -> Forall (uses (fd c)) xs -> srv_core t (with_calls xs s) D l.
Proof. intros [] Hp Hxs. split; try done. by eapply opened_uses. Qed.

(** The refresh of a timer: the connection becomes the last one. *)
Lemma refresh_spec t now s D l p c :
  srv_core t s D l -> conns s !! p = Some c -> t <= now ->
  exists l1 l2 m1 m, l = l1 ++ p :: l2 /\
    dlist_detach (idle s) p = Some m1 /\ dlist_insert_before m1 idle_list p = Some m /\
    srv_core now (with_conn p (set_active now c) (with_idle m s)) D (l1 ++ l2 ++ [p]).
Proof.
  intros Hc Hp Ht. destruct (core_split _ _ _ _ _ _ Hc Hp) as (l1 & l2 & ->).
  destruct (core_notin _ _ _ _ _ _ Hc) as [Hpl Hpi]. exists l1, l2. destruct (dlist_detach_spec _ _ _ _ _ (sc_ring _ _ _ _ Hc)) as (m1 & E1 & Hm1 & _ & Hd1).
  assert (Hin : p ∉ idle_list :: l1 ++ l2) by (rewrite elem_of_cons; tauto).
  destruct Hc as [Hdb _ Hlive Hidle Hslot Hconn Hord Htime Hopen].
  assert (Hdom : p ∈ dom m1) by (rewrite Hd1, Hidle; apply elem_of_dom_2 in Hp; set_solver).
  apply elem_of_dom in Hdom.
  destruct (dlist_insert_spec _ _ _ _ Hm1 Hin Hdom) as (m2 & E2 & Hm2 & _ & Hd2).
  exists m1, m2. split_and!; [done..|]. rewrite app_assoc.
  assert (Hlk : forall q, q <> p -> <[p:=set_active now c]> (conns s) !! q = conns s !! q)
    by (intros q Hq; by rewrite lookup_insert_ne).
  assert (Hid : forall q c1, <[p:=set_active now c]> (conns s) !! q = Some c1 ->
    exists c2, conns s !! q = Some c2 /\ fd c2 = fd c1 /\ 0 <= last_active_ms c2 <= t /\
      (last_active_ms c1 = now \/ last_active_ms c1 = last_active_ms c2)).
  { intros q c1 [[<- <-]|[_ Hq]]%lookup_insert_Some; [exists c|exists c1];
      (split_and!; [done|done|..]); try (by eapply Htime); [by left|by right]. }
  split; cbn [gd idle conns fd2conn calls with_idle with_conn]; try done.
  - intros q. rewrite (live_put _ _ _ _ _ Hp), Hlive. set_solver.
  - by rewrite Hd2, Hd1, (dom_put _ _ _ _ Hp).
  - intros q c1 (c2 & Hq & <- & _)%Hid. by apply Hslot.
  - intros n q (c1 & Hc1 & Hn)%Hconn. destruct (decide (q = p)) as [->|Hne].
    + exists (set_active now c). rewrite lookup_insert_eq. simplify_eq. done.
    + exists c1. by rewrite Hlk.
  - rewrite ages_app. cbn [ages omap list_omap]. rewrite lookup_insert_eq. cbn [fmap option_fmap option_map].
    rewrite (ages_ext (conns s)); [|intros q Hq; rewrite Hlk; [done|by intros ->]].
    apply sorted_snoc; [by eapply ages_remove|]. intros x (q & c1 & _ & Hq & <-)%ages_in.
    cbn. specialize (Htime _ _ Hq). lia.
  - intros q c1 (c2 & Hq & _ & Ht2 & Hl)%Hid. lia.
  - by eapply opened_put.
Qed.

(** ** Accepting *)

Lemma arr_get_app_l {A} (l k : list A) i x : arr_get l i = Some x -> arr_get (l ++ k) i = Some x.
Proof.
  unfold arr_get. case_decide as Hi; [|done]. intros Hx. rewrite length_app, decide_True by lia.
  rewrite lookup_app_l by lia. done.
Qed.

Lemma register_conn_spec n p (tbl : list (option ptr)) :
  0 <= n -> (forall q, arr_get tbl n <> Some (Some q)) ->
  exists tbl', register_conn n p tbl = Some tbl' /\ arr_get tbl' n = Some (Some p) /\
    forall i q, i <> n -> arr_get tbl' i = Some (Some q) <-> arr_get tbl i = Some (Some q).
Proof.
  intros Hn Hfree. unfold register_conn.
  set (tbl1 := if zlen tbl <=? n then tbl ++ replicate (Z.to_nat (n + 1 - zlen tbl)) None else tbl).
  assert (Hslot : arr_get tbl1 n = Some None).
  { subst tbl1. destruct (Z.leb_spec (zlen tbl) n) as [Hle|Hgt]; unfold zlen in *.
    - unfold arr_get. rewrite length_app, length_replicate, decide_True by lia.
      rewrite lookup_app_r by lia. rewrite lookup_replicate_2; [done|lia].
    - destruct (arr_get tbl n) as [[q|]|] eqn:E; [by destruct (Hfree q)|done|].
      unfold arr_get in E. rewrite decide_True in E by lia. apply lookup_ge_None in E. lia. }
  assert (Hsame : forall i q, arr_get tbl1 i = Some (Some q) <-> arr_get tbl i = Some (Some q)).
  { intros i q. subst tbl1. destruct (zlen tbl <=? n); [|done]. split; [|by apply arr_get_app_l].
    unfold arr_get. case_decide as Hi; [|done]. intros [Hx|[_ Hx]]%lookup_app_Some.
    - apply lookup_lt_Some in Hx as Hl. by rewrite decide_True by lia.
    - by apply lookup_replicate in Hx as [? _]. }
  rewrite Hslot, bind_Some_l, option_guard_True by done.
  destruct (arr_set_ok tbl1 n (Some p) _ Hslot) as (tbl' & E & Htbl). exists tbl'. split; [done|].
  split; [by rewrite Htbl, decide_True|]. intros i q Hi. by rewrite Htbl, decide_False, Hsame.
Qed.

Definition new_conn (now connfd : Z) : Conn := mkConn connfd true false false [] [] now.

Lemma new_conn_ok now connfd : conn_ok (new_conn now connfd).
Proof. by split. Qed.

Lemma accept_conn_spec t now s D l connfd :
  srv_core t s D l -> 0 <= t <= now -> 0 <= connfd ->
  (forall p c, conns s !! p = Some c -> fd c <> connfd) ->
  exists s' p, accept_conn now connfd s = Some s' /\ conns s !! p = None /\
    srv_core now s' D (l ++ [p]) /\ conns s' = <[p := new_conn now connfd]> (conns s) /\ gd s' = gd s /\
    calls s' = calls s ++ [CallAccept connfd] /\
    forall n q, n <> connfd -> arr_get (fd2conn s') n = Some (Some q) <-> arr_get (fd2conn s) n = Some (Some q).
Proof.
  intros [Hdb Hring Hlive Hidle Hslot Hconn Hord Htime Hopen] Ht Hfd Hfree. unfold accept_conn, handle_accept.
  set (p := fresh (dom (conns s) ∪ dom (idle s))).
  assert (Hp : p ∉ dom (conns s) ∪ dom (idle s)) by apply is_fresh. clearbody p.
  apply not_elem_of_union in Hp as [Hp1 Hp2]. pose proof Hp1 as Hp%not_elem_of_dom.
  pose proof Hp2 as Hpi%not_elem_of_dom.
  assert (Hpl : p ∉ idle_list :: l).
  { intros [->|Hin]%elem_of_cons; [set_solver|]. apply Hlive in Hin as [c Hc]. congruence. }
  assert (Hring' : ring (<[p:=mkDNode NULL NULL]> (idle s)) idle_list l).
  { destruct Hring as [Hf Hnd]. split; [|done].
    eapply links_frame, Hf; unfold next_of, prev_of; intros a Ha; rewrite lookup_insert_ne; try done;
      intros <-; apply Hpl; set_solver. }
  destruct (dlist_insert_spec _ _ _ p Hring' Hpl) as (m & E1 & Hm & _ & Hd); [rewrite lookup_insert_eq; eauto|].
  rewrite E1, bind_Some_l, bind_Some_l.
  destruct (register_conn_spec connfd p (fd2conn s) Hfd) as (tbl & E2 & Hnew & Hsame).
  { intros q (c & Hc & Hq)%Hconn. by apply (Hfree q c). }
  cbn [fd2conn]. rewrite E2, bind_Some_l. eexists _, p. split; [done|]. split; [done|].
  split; [|by split_and!]. split; cbn [gd idle conns fd2conn calls]; try done.
  - intros q. rewrite <- elem_of_dom, dom_insert_L, elem_of_union, elem_of_dom, Hlive. set_solver.
  - rewrite Hd, !dom_insert_L, Hidle. set_solver.
  - intros q c [[<- <-]|[Hne Hq]]%lookup_insert_Some; [done|]. apply Hsame; [by eapply Hfree|by apply Hslot].
  - intros n q Hn. destruct (decide (n = connfd)) as [->|Hne].
    + rewrite Hnew in Hn. simplify_eq. eexists. by rewrite lookup_insert_eq.
    + apply (Hsame _ _ Hne), Hconn in Hn as (c & Hc & Hn). exists c. rewrite lookup_insert_ne; [done|].
      intros <-. congruence.
  - rewrite ages_app. cbn [ages omap list_omap]. rewrite lookup_insert_eq. cbn [fmap option_fmap option_map].
    rewrite (ages_ext (conns s)).
    + apply sorted_snoc; [done|]. intros x (q & c1 & _ & Hq & <-)%ages_in. cbn. specialize (Htime _ _ Hq). lia.
    + intros q Hq. rewrite lookup_insert_ne; [done|]. intros <-. apply Hpl. set_solver.
  - intros q c [[<- <-]|[Hne Hq]]%lookup_insert_Some; cbn; [lia|]. specialize (Htime _ _ Hq). lia.
  - by apply (opened_accept _ _ p (new_conn now connfd)).
Qed.

(** ** Idle connections *)

Definition idle_expired (now : Z) c : bool := last_active_ms c + k_idle_timeout_ms <=? now.

Lemma idle_head t s D p l :
  srv_core t s D (p :: l) -> idle_first s = Some p /\ exists c, conns s !! p = Some c.
Proof.
  intros Hc. pose proof (sc_ring _ _ _ _ Hc) as [Hf _]. split; [|apply (sc_live _ _ _ _ Hc); set_solver].
  unfold idle_first. inversion Hf as [|? ? ? ? [Hn _] _]; subst. destruct (idle s !! idle_list) as [n|]; [|done].
  cbn in Hn. by injection Hn as <-.
Qed.

(** The loop destroys exactly the connections idle for [k_idle_timeout_ms]. *)
Lemma idle_loop_spec now t : forall l fuel s D,
  srv_core t s D l -> t + k_idle_timeout_ms < 2 ^ 64 -> (length l <= fuel)%nat ->
  exists s' l' ns, idle_loop fuel now s = Some s' /\ srv_core t s' D l' /\ gd s' = gd s /\
    calls s' = calls s ++ map CallClose ns /\
    (forall p c, conns s' !! p = Some c <-> conns s !! p = Some c /\ idle_expired now c = false).
Proof.
  induction l as [|p l IH]; intros fuel s D Hc Ht Hf.
  - exists s, [], []. assert (E : dlist_empty (idle s) idle_list = Some true)
      by exact (dlist_empty_spec _ _ _ (sc_ring _ _ _ _ Hc)).
    split; [by destruct fuel; cbn [idle_loop]; rewrite E|]. split_and!; [done|done|by rewrite app_nil_r|].
    intros p c. split; [|by intros [? _]]. intros Hp. exfalso.
    apply (elem_of_nil (A := ptr) p), (sc_live _ _ _ _ Hc). eauto.
  - assert (E : dlist_empty (idle s) idle_list = Some false)
      by exact (dlist_empty_spec _ _ _ (sc_ring _ _ _ _ Hc)).
    destruct (idle_head _ _ _ _ _ Hc) as (Ef & c & Hp). destruct (sc_time _ _ _ _ Hc p c Hp) as [Hc0 Hct].
    assert (Hu : u64 (last_active_ms c + k_idle_timeout_ms) = last_active_ms c + k_idle_timeout_ms).
    { apply u64_small. unfold k_idle_timeout_ms in *. lia. }
    destruct fuel as [|fuel]; [cbn in Hf; lia|]. cbn [idle_loop].
    rewrite E, bind_Some_l, Ef, bind_Some_l, Hp, bind_Some_l, Hu.
    destruct (Z.ltb_spec now (last_active_ms c + k_idle_timeout_ms)) as [Hlt|Hge].
    + exists s, (p :: l), []. split_and!; [done..|by rewrite app_nil_r|]. intros q c'. split; [|by intros [? _]]. intros Hq.
      split; [done|]. unfold idle_expired. apply Z.leb_gt.
      assert (last_active_ms c <= last_active_ms c'); [|lia].
      assert (Hin : q ∈ p :: l) by (apply (sc_live _ _ _ _ Hc); eauto).
      apply elem_of_cons in Hin as [->|Hin]; [simplify_eq; lia|].
      pose proof (sc_order _ _ _ _ Hc) as Ho. cbn [ages omap list_omap] in Ho. rewrite Hp in Ho.
      cbn [fmap option_fmap option_map] in Ho. inversion Ho as [|? ? _ Hall]; subst.
      eapply (Forall_forall _ _) in Hall; [done|]. apply ages_in. eauto.
    + destruct (conn_destroy_spec _ _ _ [] _ _ _ Hc Hp) as (s1 & E1 & Hc1 & Hs1 & Hg1 & Hl1 & _).
      rewrite E1, bind_Some_l. cbn [app] in Hc1.
      destruct (IH fuel s1 D Hc1 Ht ltac:(cbn in Hf; lia)) as (s' & l' & ns & E' & Hc' & Hg' & Hl' & Hk).
      exists s', l', (fd c :: ns). split_and!; [done|done|congruence|by rewrite Hl', Hl1, <- app_assoc|]. intros q c'. rewrite Hk, Hs1, lookup_delete_Some.
      split; [naive_solver|]. intros [Hq He]. split; [|done]. split; [|done]. intros <-. simplify_eq.
      unfold idle_expired in He. apply Z.leb_gt in He. lia.
Qed.

(** ** One event *)

(** [poll] reports only what a connection waits for, and the calls keep the
    promises of the operating system. *)
Record event_ok c (ev : conn_event) : Prop := {
  ev_in_ok : ev_in ev = true -> want_read c = true;
  ev_out_ok : ev_out ev = true -> want_write c = true;
  ev_read_ok : read_ok (ev_read ev);
  ev_read_write_ok : write_ok (ev_read_write ev);
  ev_write_ok : write_ok (ev_write ev)
}.

Definition io_step g c (ev : conn_event) : option (gdata * Conn * list sys_call) :=
  '(g, c, xs) ← (if ev_in ev then handle_read (ev_clock ev) g c (ev_read ev) (ev_read_write ev)
                 else Some (g, c, []));
  '(c, ys) ← (if ev_out ev then '(c, y) ← handle_write c (ev_write ev); Some (c, [y])
              else Some (c, []));
  Some (g, c, xs ++ ys).

(** The calls of an event: a [read], and at most one [write] after it, or one
    [write] of what is pending; their results are those of the event. *)
Definition io_calls c (ev : conn_event) (xs : list sys_call) : Prop :=
  if ev_in ev then
    exists ws, xs = CallRead (fd c) (ev_read ev) :: ws /\ write_once (fd c) (ev_read_write ev) ws
  else if ev_out ev then xs = [write_call c (ev_write ev)]
  else xs = [].

Lemma io_calls_uses c ev xs : io_calls c ev xs -> Forall (uses (fd c)) xs.
Proof.
  unfold io_calls. destruct (ev_in ev); [|destruct (ev_out ev); intros ->; by repeat constructor].
  intros (ws & -> & Hws). constructor; [done|by eapply write_once_uses].
Qed.

(** The bytes an event brings. *)
Definition event_data (ev : conn_event) : Buffer := if ev_in ev then read_data (ev_read ev) else [].

Lemma io_calls_received c ev xs : io_calls c ev xs -> received xs = event_data ev.
Proof.
  unfold io_calls, event_data. destruct (ev_in ev); [|destruct (ev_out ev); by intros ->].
  intros (ws & -> & Hws). cbn [received flat_map]. fold (received ws). by rewrite (write_once_received _ _ _ Hws), app_nil_r.
Qed.

Lemma io_step_ok g D c ev :
  conn_ok c -> event_ok c ev -> db_rep g D -> room_for read_budget D ->
  exists g' c' D' xs, io_step g c ev = Some (g', c', xs) /\ io_calls c ev xs /\
    same_conn c c' /\ (want_close c' = true \/ conn_ok c') /\
    db_rep g' D' /\ served (ev_clock ev) D c xs D' c' /\
    forall m, 0 <= m -> room_for (read_budget + m) D -> room_for m D'.
Proof.
  intros Hc [Hin Hout Hr Hrw Hw] Hdb Hroom. unfold io_step, io_calls. destruct (ev_in ev).
  - specialize (Hin eq_refl). destruct (handle_read_ok (ev_clock ev) g D c _ _ Hc Hin Hr Hrw Hdb Hroom)
      as (g' & c' & D' & ws & E & Hws & Hs & Hc' & Hdb' & Hsv & Hm).
    rewrite E, bind_Some_l. destruct (ev_out ev).
    + pose proof (ok_read _ Hc) as Hrd. rewrite Hin, (Hout eq_refl) in Hrd. done.
    + rewrite bind_Some_l, app_nil_r. eexists g', c', D', _. split; [done|]. split; [by exists ws|done].
  - rewrite bind_Some_l.
    assert (Hm : forall m, 0 <= m -> room_for (read_budget + m) D -> room_for m D).
    { intros m _. apply room_for_le. assert (0 < read_budget) by done. lia. }
    destruct (ev_out ev).
    + destruct (handle_write_ok c (ev_write ev) Hc (Hout eq_refl) Hw) as (c' & E & Hs & Hc' & Hsv).
      rewrite E, !bind_Some_l. by eexists g, c', D, _.
    + rewrite bind_Some_l. exists g, c, D, []. split_and!; [done|done|done|by right|done| |done].
      by apply served_nothing.
Qed.

Lemma handle_conn_io s pfd ev p c m1 m2 :
  arr_get (fd2conn s) pfd = Some (Some p) -> conns s !! p = Some c ->
  dlist_detach (idle s) p = Some m1 -> dlist_insert_before m1 idle_list p = Some m2 ->
  handle_conn s pfd ev =
    ('(g, c, xs) ← io_step (gd s) (set_active (ev_now ev) c) ev;
     let s := with_calls xs (with_gd g (with_conn p c (with_idle m2 s))) in
     if ev_err ev || want_close c then conn_destroy s p else Some s).
Proof.
  intros E1 E2 E3 E4. unfold handle_conn, io_step.
  rewrite E1, bind_Some_l, bind_Some_l, E2, bind_Some_l, E3, bind_Some_l, E4, bind_Some_l.
  cbn [gd with_idle]. destruct (if ev_in ev then _ else _) as [[[g c'] xs]|]; [|done]. rewrite !bind_Some_l.
  by destruct (if ev_out ev then _ else _) as [[c2 ys]|].
Qed.

(** What one event leaves alone. *)
Definition others_same (p : ptr) (pfd : Z) s s' : Prop :=
  (forall q, q <> p -> conns s' !! q = conns s !! q) /\
  (forall n, n <> pfd -> arr_get (fd2conn s') n = arr_get (fd2conn s) n).

Lemma conn_ok_active t c : conn_ok c -> conn_ok (set_active t c).
Proof. by intros []. Qed.

Lemma event_ok_active t c ev : event_ok c ev -> event_ok (set_active t c) ev.
Proof. by intros []. Qed.

(** The end of a turn. *)
Definition close_calls c (closing : bool) : list sys_call := if closing then [CallClose (fd c)] else [].

Lemma handle_conn_spec t s D l pfd ev p c :
  srv_inv t s D l -> arr_get (fd2conn s) pfd = Some (Some p) -> conns s !! p = Some c ->
  event_ok c ev -> t <= ev_now ev -> room_for read_budget D ->
  exists s' D' l', handle_conn s pfd ev = Some s' /\ srv_inv (ev_now ev) s' D' l' /\
    others_same p pfd s s' /\ (forall m, 0 <= m -> room_for (read_budget + m) D -> room_for m D') /\
    (ev_in ev = false -> ev_out ev = false -> ev_err ev = false ->
      conns s' = <[p := set_active (ev_now ev) c]> (conns s)) /\
    (exists c2 xs, served (ev_clock ev) D c xs D' c2 /\ io_calls c ev xs /\
      calls s' = calls s ++ xs ++ close_calls c (ev_err ev || want_close c2) /\
      conns s' !! p = (if ev_err ev || want_close c2 then None else Some c2)).
Proof.
  intros [Hc Hok] Hslot Hp Hev Ht Hroom. pose proof (Hok p c Hp) as Hcok.
  assert (Hfd : fd c = pfd).
  { destruct (sc_conn _ _ _ _ Hc _ _ Hslot) as (c1 & Hc1 & <-). by simplify_eq. }
  destruct (refresh_spec t (ev_now ev) s D l p c Hc Hp Ht) as (l1 & l2 & m1 & m2 & -> & E1 & E2 & Hc1).
  rewrite (handle_conn_io s pfd ev p c m1 m2) by done. set (c1 := set_active (ev_now ev) c) in *.
  destruct (io_step_ok (gd s) D c1 ev) as (g2 & c2 & D2 & xs & E3 & Hxs & Hsame & Hc2 & Hdb2 & Hsv & Hm);
    [by apply conn_ok_active|by apply event_ok_active|apply (sc_db _ _ _ _ Hc)|done|].
  rewrite E3, bind_Some_l.
  assert (Hp1 : conns (with_conn p c1 (with_idle m2 s)) !! p = Some c1) by apply lookup_insert_eq.
  pose proof (core_update _ _ _ _ _ _ _ _ _ Hc1 Hp1 Hsame Hdb2) as Hc3.
  assert (Hs3 : with_gd g2 (with_conn p c2 (with_conn p c1 (with_idle m2 s))) = with_gd g2 (with_conn p c2 (with_idle m2 s)))
    by (unfold with_gd, with_conn; cbn; by rewrite insert_insert_eq).
  rewrite Hs3 in Hc3. apply (core_calls _ _ _ _ p c2 xs) in Hc3; [|apply lookup_insert_eq|rewrite (proj1 Hsame); by eapply io_calls_uses].
  set (s3 := with_calls xs (with_gd g2 (with_conn p c2 (with_idle m2 s)))) in *.
  assert (Hoth : others_same p pfd s s3) by (split; [intros q Hq; by apply lookup_insert_ne|done]).
  assert (Hp3 : conns s3 !! p = Some c2) by apply lookup_insert_eq.
  destruct (ev_err ev || want_close c2) eqn:Ecl.
  - rewrite app_assoc in Hc3.
    destruct (conn_destroy_spec _ _ _ _ _ _ _ Hc3 Hp3) as (s4 & E4 & Hc4 & Hs4 & _ & Hl4 & Hfd4).
    rewrite app_nil_r in Hc4. exists s4, D2, (l1 ++ l2). split; [done|]. split; [|split; [split|split; [|split]]].
    + split; [done|]. rewrite Hs4. cbn [conns s3 with_gd with_conn with_idle with_calls]. rewrite delete_insert_eq.
      by apply map_Forall_delete.
    + intros q Hq. rewrite Hs4, lookup_delete_ne by done. by apply Hoth.
    + intros n Hn. rewrite Hfd4; [by apply Hoth|]. destruct Hsame as [-> _]. change (fd c1) with (fd c). by rewrite Hfd.
    + done.
    + intros Hi Ho He. unfold io_step in E3. rewrite Hi, Ho, !bind_Some_l in E3. injection E3 as _ <- _.
      rewrite He in Ecl. cbn in Ecl. by rewrite (ok_open _ Hcok) in Ecl.
    + exists c2, xs. rewrite Ecl. split; [exact Hsv|]. split; [exact Hxs|]. rewrite Hl4, Hs4. split; [|apply lookup_delete_eq].
      cbn [calls s3 with_calls close_calls]. rewrite (proj1 Hsame). by rewrite <- app_assoc.
  - pose proof Ecl as Ecl'. apply orb_false_iff in Ecl as [_ Ecl]. destruct Hc2 as [Hcl|Hc2]; [by rewrite Hcl in Ecl|].
    exists s3, D2, ((l1 ++ l2) ++ [p]). rewrite <- app_assoc. split; [done|]. split.
    { split; [done|]. apply map_Forall_insert_2; [done|]. done. }
    split; [done|]. split; [done|]. split.
    + intros Hi Ho _. unfold io_step in E3. rewrite Hi, Ho in E3. rewrite !bind_Some_l in E3. by injection E3 as _ <- _.
    + exists c2, xs. rewrite Ecl'. cbn [close_calls]. by rewrite app_nil_r.
Qed.

(** ** One iteration *)

(** The events belong to distinct live descriptors, in the order of time. *)
Record events_ok (t : Z) s (pfds : list Z) (evs : list conn_event) : Prop := {
  evs_nodup : NoDup pfds;
  evs_conn : Forall2 (fun pfd ev => exists p c, arr_get (fd2conn s) pfd = Some (Some p) /\
    conns s !! p = Some c /\ event_ok c ev) pfds evs;
  evs_time : StronglySorted Z.le (t :: map ev_now evs)
}.

Lemma events_frame t D l s s1 p pfd pfds evs :
  srv_core t s D l -> arr_get (fd2conn s) pfd = Some (Some p) -> others_same p pfd s s1 -> pfd ∉ pfds ->
  Forall2 (fun pfd ev => exists p c, arr_get (fd2conn s) pfd = Some (Some p) /\
    conns s !! p = Some c /\ event_ok c ev) pfds evs ->
  Forall2 (fun pfd ev => exists p c, arr_get (fd2conn s1) pfd = Some (Some p) /\
    conns s1 !! p = Some c /\ event_ok c ev) pfds evs.
Proof.
  intros Hc Hp [Hoc Hof] Hni H. induction H as [|n ev pfds evs (q & c & Hq & Hqc & Hok) _ IH]; [constructor|].
  apply not_elem_of_cons in Hni as [Hne Hni]. constructor; [|by apply IH]. exists q, c.
  rewrite Hof by congruence. split; [done|]. rewrite Hoc; [done|]. intros ->.
  destruct (sc_conn _ _ _ _ Hc _ _ Hq) as (c1 & H1 & H2). destruct (sc_conn _ _ _ _ Hc _ _ Hp) as (c2 & H3 & H4).
  congruence.
Qed.

(** A turn of the loop over the connections: a connection, its event, what it
    becomes, if it is not closed, and the calls that read and write. *)
Record turn := mkTurn {
  tn_ptr : ptr;
  tn_before : Conn;
  tn_event : conn_event;
  tn_after : Conn;
  tn_calls : list sys_call
}.

(** The calls of a turn. *)
Definition turn_calls (x : turn) : list sys_call :=
  tn_calls x ++ close_calls (tn_before x) (ev_err (tn_event x) || want_close (tn_after x)).

Definition turn_ok s s' (x : turn) : Prop :=
  conns s !! tn_ptr x = Some (tn_before x) /\
  conns s' !! tn_ptr x = (if ev_err (tn_event x) || want_close (tn_after x) then None else Some (tn_after x)).

(** The turns executed one after the other on the database. *)
Inductive turns : adb -> list turn -> adb -> Prop :=
  | turns_nil D : turns D [] D
  | turns_cons D x D1 xs D2 :
      io_calls (tn_before x) (tn_event x) (tn_calls x) ->
      served (ev_clock (tn_event x)) D (tn_before x) (tn_calls x) D1 (tn_after x) ->
      turns D1 xs D2 -> turns D (x :: xs) D2.

(** The connections that have no turn are left alone. *)
Definition untouched s s' (pfds : list Z) : Prop :=
  forall q, (forall n, n ∈ pfds -> arr_get (fd2conn s) n <> Some (Some q)) -> conns s' !! q = conns s !! q.

(** What the loop does, when nothing happens on any connection. *)
Definition quiet s s' (pfds : list Z) (evs : list conn_event) : Prop :=
  (forall ev, ev ∈ evs -> ev_in ev = false /\ ev_out ev = false /\ ev_err ev = false) ->
  dom (conns s') = dom (conns s) /\
  (forall p c, conns s' !! p = Some c ->
    (exists ev, ev ∈ evs /\ last_active_ms c = ev_now ev) \/ conns s !! p = Some c /\ fd c ∉ pfds).

Lemma quiet_step t s D l p c pfd ev pfds evs s1 s' :
  srv_core t s D l -> arr_get (fd2conn s) pfd = Some (Some p) -> conns s !! p = Some c ->
  (ev_in ev = false -> ev_out ev = false -> ev_err ev = false ->
    conns s1 = <[p := set_active (ev_now ev) c]> (conns s)) ->
  quiet s1 s' pfds evs -> quiet s s' (pfd :: pfds) (ev :: evs).
Proof.
  intros Hc Hslot Hp Hsil Hq Hall. destruct (Hall ev) as (H1 & H2 & H3); [set_solver|].
  pose proof (Hsil H1 H2 H3) as Hs1. destruct Hq as [Hd Hc']; [intros ev' Hin; apply Hall; set_solver|].
  split; [by rewrite Hd, Hs1, (dom_put _ _ _ _ Hp)|]. intros q c' Hc1.
  destruct (Hc' q c' Hc1) as [(ev' & Hin & Hl)|[Hc2 Hfd]]; [left; exists ev'; split; [set_solver|done]|].
  rewrite Hs1 in Hc2. apply lookup_insert_Some in Hc2 as [[<- <-]|[Hne Hc2]].
  - left. exists ev. split; [set_solver|done].
  - right. split; [done|]. rewrite elem_of_cons. intros [<-|?]; [|done].
    pose proof (sc_slot _ _ _ _ Hc q c' Hc2) as Hq'. congruence.
Qed.

(** A descriptor other than that of [p] does not lead to [p]. *)
Lemma slot_other t s D l s1 p pfd n :
  srv_core t s D l -> arr_get (fd2conn s) pfd = Some (Some p) -> others_same p pfd s s1 -> n <> pfd ->
  arr_get (fd2conn s1) n <> Some (Some p).
Proof.
  intros Hc Hslot [_ Hof] Hne Hn. rewrite Hof in Hn by done.
  destruct (sc_conn _ _ _ _ Hc _ _ Hslot) as (c1 & H1 & <-), (sc_conn _ _ _ _ Hc _ _ Hn) as (c2 & H2 & <-). congruence.
Qed.

(** The first of the events is handled, and the others can be. *)
Lemma handle_conns_first t s D l pfd pfds ev evs :
  srv_inv t s D l -> events_ok t s (pfd :: pfds) (ev :: evs) -> room_for (zlen (ev :: evs) * read_budget) D ->
  exists p c s1 D1 l1 c2 xs, arr_get (fd2conn s) pfd = Some (Some p) /\ conns s !! p = Some c /\ fd c = pfd /\
    t <= ev_now ev /\ handle_conn s pfd ev = Some s1 /\ srv_inv (ev_now ev) s1 D1 l1 /\ others_same p pfd s s1 /\
    (ev_in ev = false -> ev_out ev = false -> ev_err ev = false ->
      conns s1 = <[p := set_active (ev_now ev) c]> (conns s)) /\
    served (ev_clock ev) D c xs D1 c2 /\ io_calls c ev xs /\
    calls s1 = calls s ++ xs ++ close_calls c (ev_err ev || want_close c2) /\
    conns s1 !! p = (if ev_err ev || want_close c2 then None else Some c2) /\
    events_ok (ev_now ev) s1 pfds evs /\ room_for (zlen evs * read_budget) D1.
Proof.
  intros Hinv [Hnd Hev Ht] Hroom. inversion Hev as [|? ? ? ? (p & c & Hslot & Hp & Hok) Hev']; subst.
  apply NoDup_cons in Hnd as [Hni Hnd]. inversion Ht as [|? ? Hts Htf]; subst.
  apply Forall_cons in Htf as [Ht1 _]. rewrite zlen_cons in Hroom. pose proof (zlen_nonneg evs) as Hz.
  assert (Hb : 0 < read_budget) by done.
  destruct (handle_conn_spec t s D l pfd ev p c Hinv Hslot Hp Hok Ht1)
    as (s1 & D1 & l1 & E1 & Hinv1 & Hoth & Hm & Hsil & c2 & xs & Hsv & Hxs & Hl1 & Hp1).
  { eapply room_for_le; [|exact Hroom]. nia. }
  exists p, c, s1, D1, l1, c2, xs. split_and!; try done.
  - destruct (sc_conn _ _ _ _ (proj1 Hinv) _ _ Hslot) as (c1 & ? & <-). congruence.
  - split; [done| |done]. destruct Hinv as [Hc _]. by eapply events_frame.
  - apply Hm; [nia|]. eapply room_for_le; [|exact Hroom]. nia.
Qed.

Lemma handle_conns_spec : forall pfds evs t s D l,
  srv_inv t s D l -> events_ok t s pfds evs -> room_for (zlen evs * read_budget) D ->
  exists s' D' l' t' xs, handle_conns s pfds evs = Some s' /\ srv_inv t' s' D' l' /\
    t <= t' /\ (forall now, t <= now -> (forall ev, ev ∈ evs -> ev_now ev <= now) -> t' <= now) /\
    quiet s s' pfds evs /\ untouched s s' pfds /\
    map tn_event xs = evs /\ Forall (fun x => turn_ok s s' x /\ fd (tn_before x) ∈ pfds) xs /\ turns D xs D' /\
    calls s' = calls s ++ flat_map turn_calls xs.
Proof.
  induction pfds as [|pfd pfds IH]; intros evs t s D l Hinv Hevs Hroom;
    pose proof (Forall2_length _ _ _ (evs_conn _ _ _ _ Hevs)) as Hlen; destruct evs as [|ev evs]; try done.
  { exists s, D, l, t, []. split_and!; [done|done|lia|auto| |done|done|constructor|constructor|by rewrite app_nil_r].
    intros _. split; [done|]. intros p c Hp. right. set_solver. }
  pose proof (evs_nodup _ _ _ _ Hevs) as [Hni _]%NoDup_cons.
  destruct (handle_conns_first t s D l pfd pfds ev evs Hinv Hevs Hroom)
    as (p & c & s1 & D1 & l1 & c2 & ys & Hslot & Hp & Hfd & Ht1 & E1 & Hinv1 & Hoth & Hsil & Hsv & Hys & Hl1 & Hp1 & Hevs1 & Hroom1).
  cbn [handle_conns]. rewrite E1, bind_Some_l. pose proof Hinv as [Hc _].
  destruct (IH evs (ev_now ev) s1 D1 l1 Hinv1 Hevs1 Hroom1)
    as (s' & D' & l' & t' & xs & E' & Hinv' & Ht' & Hnow & Hq & Hun & Hxe & Hxs & Htn & Hl').
  assert (Hslot1 : forall n, n ∈ pfds -> arr_get (fd2conn s1) n <> Some (Some p))
    by (intros n Hn; eapply slot_other; [done..|by intros ->]).
  exists s', D', l', t', (mkTurn p c ev c2 ys :: xs). split; [done|]. split; [done|]. split; [lia|]. split.
  { intros now Htn' Hall. apply Hnow; [apply Hall|intros ev' Hin; apply Hall]; set_solver. }
  split; [by eapply quiet_step|]. split; [|split; [by cbn; rewrite Hxe|split; [|split; [by econstructor|by rewrite Hl', Hl1, <- app_assoc]]]].
  - intros q Hq'. assert (q <> p) by (intros ->; apply (Hq' pfd); [set_solver|done]).
    rewrite Hun; [by apply Hoth|]. intros n Hn. rewrite (proj2 Hoth) by (by intros ->). apply Hq'. set_solver.
  - constructor.
    + split; [|apply elem_of_cons; by left].
      split; [done|]. cbn [tn_ptr tn_event tn_after]. by rewrite (Hun p Hslot1).
    + eapply Forall_impl; [exact Hxs|]. intros x [[Hx1 Hx2] Hxf]. split; [|set_solver]. split; [|done].
      rewrite <- (proj1 Hoth); [done|]. intros Hxp. apply (Hslot1 _ Hxf). rewrite <- Hxp.
      apply (sc_slot _ _ _ _ (proj1 Hinv1) _ _ Hx1).
Qed.

Lemma core_later t t' s D l : srv_core t s D l -> t <= t' -> srv_core t' s D l.
Proof. intros [] Ht. split; try done. intros p c Hp. specialize (sc_time0 p c Hp). lia. Qed.

Lemma core_length t s D l : srv_core t s D l -> (length l <= size (conns s))%nat.
Proof.
  intros Hc. apply nodes_length_le; [|intros p; apply (sc_live _ _ _ _ Hc)].
  pose proof (sc_ring _ _ _ _ Hc) as [_ Hnd]. by apply NoDup_cons in Hnd as [_ ?].
Qed.

(** [process_timers]: the idle connections and the expired keys. *)
Lemma process_timers_spec t now s D l :
  srv_inv t s D l -> t <= now -> now + k_idle_timeout_ms < 2 ^ 64 ->
  exists s' D' l' ns, process_timers now s = Some s' /\ srv_inv now s' D' l' /\
    expires now (k_max_works + 1) D D' /\ calls s' = calls s ++ map CallClose ns /\
    (forall p c, conns s' !! p = Some c <-> conns s !! p = Some c /\ idle_expired now c = false).
Proof.
  intros [Hc Hok] Ht Hnow. unfold process_timers.
  destruct (idle_loop_spec now now l (size (conns s)) s D) as (s1 & l1 & ns & E1 & Hc1 & Hg1 & Hl1 & Hk);
    [by eapply core_later|done|by eapply core_length|].
  rewrite E1, bind_Some_l. unfold process_timers_keys.
  destruct (expire_loop_spec now (length (heap (gd s1))) (gd s1) D 0) as (g' & D' & E2 & Hr & Hex);
    [apply (sc_db _ _ _ _ Hc1)|done|done|].
  rewrite E2, bind_Some_l. exists (with_gd g' s1), D', l1, ns. split; [done|]. split; [|split; [|done]].
  - split; [by destruct Hc1; split|]. intros p c Hp. apply Hk in Hp as [Hp _]. by apply (Hok p).
  - by rewrite Z.sub_0_r in Hex.
Qed.

(** ** The descriptors that are polled *)

(** What [poll] may report for a descriptor, given what was asked. *)
Definition poll_ok (a : Z * bool * bool) (ev : conn_event) : Prop :=
  (ev_in ev = true -> a.1.2 = true) /\ (ev_out ev = true -> a.2 = true) /\
  read_ok (ev_read ev) /\ write_ok (ev_read_write ev) /\ write_ok (ev_write ev).

Definition poll_arg c : Z * bool * bool := (fd c, want_read c, want_write c).

Lemma poll_ok_event c ev : poll_ok (poll_arg c) ev -> event_ok c ev.
Proof. intros (? & ? & ? & ? & ?). by split. Qed.

Lemma poll_args_list (m : gmap ptr Conn) : forall (tbl : list (option ptr)) k,
  (forall i p, tbl !! i = Some (Some p) -> exists c, m !! p = Some c /\ fd c = k + Z.of_nat i) ->
  exists args, mapM (fun p => c ← m !! p; Some (poll_arg c)) (omap id tbl) = Some args /\
    NoDup args.*1.*1 /\ (forall a, a ∈ args -> k <= a.1.1) /\
    (forall a, a ∈ args -> exists i p c, tbl !! i = Some (Some p) /\ m !! p = Some c /\ a = poll_arg c) /\
    (forall i p c, tbl !! i = Some (Some p) -> m !! p = Some c -> poll_arg c ∈ args).
Proof.
  induction tbl as [|x tbl IH]; intros k Hm.
  { exists []. split_and!; [done|constructor|..].
    - intros a Ha. by apply elem_of_nil in Ha.
    - intros a Ha. by apply elem_of_nil in Ha.
    - intros i p c Hi. by rewrite lookup_nil in Hi. }
  destruct (IH (k + 1)) as (args & E & Hnd & Hge & Hin & Hall).
  { intros i p Hi. destruct (Hm (S i) p Hi) as (c & ? & ?). exists c. split; [done|lia]. }
  destruct x as [p|]; cbn [omap list_omap id].
  - destruct (Hm 0%nat p eq_refl) as (c & Hc & Hfd). exists (poll_arg c :: args). cbn [mapM].
    rewrite Hc, bind_Some_l, bind_Some_l, E, bind_Some_l. split; [done|]. split_and!.
    + rewrite !fmap_cons. apply NoDup_cons. split; [|done]. rewrite <- list_fmap_compose.
      intros (a & Ha & Hi)%list_elem_of_fmap. apply Hge in Hi. cbn in Ha. lia.
    + intros a [->|Ha]%elem_of_cons; [cbn; lia|]. apply Hge in Ha. lia.
    + intros a [->|Ha]%elem_of_cons; [by exists 0%nat, p, c|].
      destruct (Hin a Ha) as (i & p' & c' & ? & ? & ?). by exists (S i), p', c'.
    + intros [|i] p' c' Hi Hp'; [|apply elem_of_cons; right; by eapply Hall].
      cbn in Hi. simplify_eq. apply list_elem_of_here.
  - exists args. split_and!; [done|done| | |].
    + intros a Ha. apply Hge in Ha. lia.
    + intros a Ha. destruct (Hin a Ha) as (i & p' & c' & ? & ? & ?). by exists (S i), p', c'.
    + intros [|i] p' c' Hi Hp'; [done|by eapply Hall].
Qed.

Lemma poll_args_spec t s D l :
  srv_core t s D l ->
  exists args, poll_args s = Some args /\ NoDup (map (fun a => a.1.1) args) /\
    (forall a, a ∈ args -> exists p c, arr_get (fd2conn s) a.1.1 = Some (Some p) /\
      conns s !! p = Some c /\ a = poll_arg c) /\
    (forall p c, conns s !! p = Some c -> poll_arg c ∈ args).
Proof.
  intros Hc. destruct (poll_args_list (conns s) (fd2conn s) 0) as (args & E & Hnd & _ & Hin & Hall).
  { intros i p Hi. rewrite <- arr_get_nat in Hi. destruct (sc_conn _ _ _ _ Hc _ _ Hi) as (c & ? & ?). by exists c. }
  exists args. split; [exact E|]. split; [by rewrite <- list_fmap_compose in Hnd|]. split.
  - intros a Ha. destruct (Hin a Ha) as (i & p & c & _ & Hc' & ->). exists p, c. split; [|done].
    apply (sc_slot _ _ _ _ Hc p c Hc').
  - intros p c Hp. pose proof (sc_slot _ _ _ _ Hc p c Hp) as Hs. unfold arr_get in Hs. case_decide; [|done].
    by eapply Hall.
Qed.

(** ** The event loop *)

(** What the operating system and the clock give to one iteration after [t]:
    a descriptor that is not in use, events for the descriptors polled, times
    in order. *)
Record iteration_ok (t : Z) s (acc : option (Z * Z)) (evs : list conn_event) (now : Z) : Prop := {
  it_accept : forall ta n, acc = Some (ta, n) ->
    t <= ta /\ 0 <= n /\ forall p c, conns s !! p = Some c -> fd c <> n;
  it_events : forall args, poll_args s = Some args -> Forall2 poll_ok args evs;
  it_time : StronglySorted Z.le (from_option fst t acc :: map ev_now evs ++ [now]);
  it_clock : 0 <= t /\ now + k_idle_timeout_ms < 2 ^ 64
}.

(** Accepting, or not. *)
Definition accept_calls (acc : option (Z * Z)) : list sys_call :=
  match acc with Some (_, n) => [CallAccept n] | None => [] end.

Lemma accept_step t s D l acc :
  srv_inv t s D l -> 0 <= t ->
  (forall ta n, acc = Some (ta, n) -> t <= ta /\ 0 <= n /\ forall p c, conns s !! p = Some c -> fd c <> n) ->
  exists s1 l1, match acc with Some (ta, n) => accept_conn ta n s | None => Some s end = Some s1 /\
    srv_inv (from_option fst t acc) s1 D l1 /\ calls s1 = calls s ++ accept_calls acc /\
    (forall p c, conns s !! p = Some c -> conns s1 !! p = Some c) /\
    (forall p c, conns s !! p = Some c -> arr_get (fd2conn s1) (fd c) = Some (Some p)).
Proof.
  intros [Hc Hok] H0 Hacc. destruct acc as [[ta n]|]; cbn [from_option fst].
  - destruct (Hacc ta n eq_refl) as (Ht & Hn & Hfree).
    destruct (accept_conn_spec t ta s D l n Hc) as (s1 & p & E & Hp & Hc1 & Hs1 & _ & Hl1 & Hfd); [done|done|done|].
    exists s1, (l ++ [p]). split; [done|]. split; [|split; [exact Hl1|split]].
    + split; [done|]. rewrite Hs1. apply map_Forall_insert_2; [apply new_conn_ok|done].
    + intros q c Hq. rewrite Hs1, lookup_insert_ne; [done|]. intros <-. congruence.
    + intros q c Hq. apply Hfd; [by eapply Hfree|]. by apply (sc_slot _ _ _ _ Hc).
  - exists s, l. split_and!; [done|done|by rewrite app_nil_r|done|]. apply (sc_slot _ _ _ _ Hc).
Qed.

Lemma sorted_last (l : list Z) x y : StronglySorted Z.le (x :: l ++ [y]) -> x <= y /\ forall z, z ∈ l -> z <= y.
Proof.
  intros H. change (x :: l ++ [y]) with ((x :: l) ++ [y]) in H. apply sorted_app in H as (_ & _ & H).
  split; [|intros z Hz]; apply H; set_solver.
Qed.

(** The descriptors polled, after the connection is accepted. *)
Lemma iteration_events t s D l acc evs now :
  srv_inv t s D l -> iteration_ok t s acc evs now ->
  exists args s1 l1, poll_args s = Some args /\
    match acc with Some (ta, n) => accept_conn ta n s | None => Some s end = Some s1 /\
    srv_inv (from_option fst t acc) s1 D l1 /\ calls s1 = calls s ++ accept_calls acc /\
    events_ok (from_option fst t acc) s1 (map (fun a => a.1.1) args) evs /\
    (from_option fst t acc <= now /\ forall ev, ev ∈ evs -> ev_now ev <= now) /\
    (forall p c, conns s !! p = Some c -> poll_arg c ∈ args) /\
    (forall n p c, n ∈ map (fun a => a.1.1) args -> arr_get (fd2conn s1) n = Some (Some p) ->
      conns s1 !! p = Some c -> conns s !! p = Some c).
Proof.
  intros Hinv [Hacc Hev Htime [H0 Hclk]].
  destruct (poll_args_spec _ _ _ _ (proj1 Hinv)) as (args & Ea & Hnd & Hin & Hall). specialize (Hev args Ea).
  destruct (accept_step t s D l acc Hinv H0 Hacc) as (s1 & l1 & E1 & Hinv1 & Hl & Hk & Hfd).
  apply sorted_last in Htime as Hlast. destruct Hlast as [Hl1 Hl2].
  change (?a :: map ev_now evs ++ [now]) with ((a :: map ev_now evs) ++ [now]) in Htime.
  apply sorted_app in Htime as (Htime & _ & _).
  exists args, s1, l1. split; [done|]. split; [done|]. split; [done|]. split; [done|]. split; [|split; [|split; [done|]]].
  - split; [done| |done]. clear -Hev Hin Hk Hfd. induction Hev as [|a ev args evs Hp _ IH]; cbn; [constructor|].
    constructor; [|apply IH; intros; apply Hin; set_solver].
    destruct (Hin a) as (p & c & _ & Hc & ->); [set_solver|]. exists p, c. split; [by apply Hfd|].
    split; [by apply Hk|]. by apply poll_ok_event.
  - split; [done|]. intros ev He. apply Hl2. apply list_elem_of_fmap. by exists ev.
  - intros n p c (a & -> & Ha)%list_elem_of_fmap Hs1 Hp. destruct (Hin a Ha) as (q & c' & _ & Hq & ->).
    cbn in Hs1. rewrite (Hfd _ _ Hq) in Hs1. injection Hs1 as ->. pose proof (Hk _ _ Hq) as Hq1. congruence.
Qed.

(** The part of the iteration before the timers. *)
Lemma connections_step t s D l acc evs now :
  srv_inv t s D l -> iteration_ok t s acc evs now -> room_for (zlen evs * read_budget) D ->
  exists args s1 s2 D2 l2 xs, poll_args s = Some args /\
    match acc with Some (ta, n) => accept_conn ta n s | None => Some s end = Some s1 /\
    handle_conns s1 (map (fun a => a.1.1) args) evs = Some s2 /\ srv_inv now s2 D2 l2 /\
    map tn_event xs = evs /\ Forall (turn_ok s s2) xs /\ turns D xs D2 /\
    calls s2 = calls s ++ accept_calls acc ++ flat_map turn_calls xs /\
    (acc = None -> (forall ev, ev ∈ evs -> ev_in ev = false /\ ev_out ev = false /\ ev_err ev = false) ->
      dom (conns s2) = dom (conns s) /\
      forall p c, conns s2 !! p = Some c -> exists ev, ev ∈ evs /\ last_active_ms c = ev_now ev).
Proof.
  intros Hinv Hit Hroom.
  destruct (iteration_events t s D l acc evs now Hinv Hit) as (args & s1 & l1 & Ea & E1 & Hinv1 & Hcl1 & Hevs & [Hl1 Hl2] & Hall & Hold).
  destruct (handle_conns_spec (map (fun a => a.1.1) args) evs _ s1 D l1 Hinv1 Hevs Hroom)
    as (s2 & D2 & l2 & t' & xs & E2 & Hinv2 & _ & Ht' & Hsil & _ & Hxe & Hxs & Htn & Hcl2).
  exists args, s1, s2, D2, l2, xs. split_and!; [done..| |done| |done|by rewrite Hcl2, Hcl1, <- app_assoc|].
  - destruct Hinv2 as [Hc2 Hok2]. split; [|done]. eapply core_later; [done|]. by apply Ht'.
  - eapply Forall_impl; [exact Hxs|]. intros x [[Hx1 Hx2] Hxfd]. split; [|done].
    eapply Hold; [exact Hxfd|apply (sc_slot _ _ _ _ (proj1 Hinv1) _ _ Hx1)|done].
  - intros -> Hq. injection E1 as <-. destruct (Hsil Hq) as [Hd Hp]. split; [done|].
    intros p c Hpc. destruct (Hp p c Hpc) as [?|[Hc Hno]]; [done|]. destruct Hno.
    apply list_elem_of_fmap. exists (poll_arg c). split; [done|by eapply Hall].
Qed.

(** The timeout of [poll] is always defined. *)
Lemma next_timer_total t now s D l : srv_core t s D l -> exists ms, next_timer_ms now s = Some ms.
Proof.
  intros Hc. unfold next_timer_ms. rewrite (dlist_empty_spec _ _ _ (sc_ring _ _ _ _ Hc)), bind_Some_l.
  destruct l as [|p l]; [by eexists|]. destruct (idle_head _ _ _ _ _ Hc) as (Ef & c & Hp).
  rewrite bool_decide_eq_false_2 by done. rewrite Ef, bind_Some_l, Hp, !bind_Some_l. by eexists.
Qed.

(** What is left of a connection at the end of an iteration: closed, because of
    an error, of its client, or of its silence; or as its turn left it. *)
Definition turn_done (now : Z) s s' (x : turn) : Prop :=
  conns s !! tn_ptr x = Some (tn_before x) /\
  conns s' !! tn_ptr x =
    (if ev_err (tn_event x) || want_close (tn_after x) || idle_expired now (tn_after x) then None
     else Some (tn_after x)).

(** One iteration never goes wrong, keeps the invariant, and does its turns on
    the database. *)
Lemma loop_iteration_spec t s D l t0 acc evs now :
  srv_inv t s D l -> iteration_ok t s acc evs now -> room_for (zlen evs * read_budget) D ->
  exists s' D1 D' l' xs ns, loop_iteration s t0 acc evs now = Some s' /\ srv_inv now s' D' l' /\
    map tn_event xs = evs /\ Forall (turn_done now s s') xs /\ turns D xs D1 /\
    expires now (k_max_works + 1) D1 D' /\
    calls s' = calls s ++ accept_calls acc ++ flat_map turn_calls xs ++ map CallClose ns.
Proof.
  intros Hinv Hit Hroom.
  destruct (connections_step t s D l acc evs now Hinv Hit Hroom)
    as (args & s1 & s2 & D2 & l2 & xs & Ea & E1 & E2 & Hinv2 & Hxe & Hxs & Htn & Hl2 & _).
  destruct (process_timers_spec now now s2 D2 l2 Hinv2) as (s3 & D3 & l3 & ns & E3 & Hinv3 & Hex & Hl3 & Hk); [lia|apply Hit|].
  destruct (next_timer_total t t0 s D l (proj1 Hinv)) as [ms Et].
  exists s3, D2, D3, l3, xs, ns. split_and!; [|done|done| |done|done|by rewrite Hl3, Hl2, <- !app_assoc].
  - unfold loop_iteration. by rewrite Ea, bind_Some_l, Et, bind_Some_l, E1, bind_Some_l, E2, bind_Some_l.
  - eapply Forall_impl; [exact Hxs|]. intros x [Hx1 Hx2]. split; [done|]. apply option_eq. intros c.
    rewrite Hk, Hx2. destruct (ev_err _ || want_close _); cbn [orb]; [naive_solver|].
    destruct (idle_expired now (tn_after x)) eqn:Ei; (split; [intros [[= <-] ?]|intros [= <-]]); (done || congruence).
Qed.

Lemma server_init_spec t : exists s, server_init = Some s /\ srv_inv t s ∅ [].
Proof.
  unfold server_init.
  destruct (dlist_init_spec {[idle_list := mkDNode NULL NULL]} idle_list) as (m & E & Hr & _ & Hd);
    [eexists; apply lookup_singleton_eq|].
  rewrite E, bind_Some_l. eexists. split; [done|]. split; [|apply map_Forall_empty].
  assert (Hno : forall p c, (∅ : gmap ptr Conn) !! p = Some c -> False) by (intros p c; by rewrite lookup_empty).
  split; cbn [gd conns idle fd2conn calls]; [apply db_rep_init|done| | | | |constructor| |apply opened_init].
  - intros p. split; [intros [c Hc]; by destruct (Hno p c)|intros Hp; by apply elem_of_nil in Hp].
  - rewrite Hd, dom_empty_L, dom_singleton_L. set_solver.
  - intros p c Hc. by destruct (Hno p c).
  - intros n p. unfold arr_get. by case_decide.
  - intros p c Hc. by destruct (Hno p c).
Qed.

(** The states of the server after any number of iterations. *)
Inductive reachable : Z -> server -> Prop :=
  | reach_init s : server_init = Some s -> reachable 0 s
  | reach_step t s t0 acc evs now s' :
      reachable t s -> iteration_ok t s acc evs now ->
      (forall D, db_rep (gd s) D -> room_for (zlen evs * read_budget) D) ->
      loop_iteration s t0 acc evs now = Some s' -> reachable now s'.

(** The databases that turns of connections and expirations lead to. *)
Inductive history : adb -> Prop :=
  | history_init : history ∅
  | history_step D xs D1 now D' :
      history D -> turns D xs D1 -> expires now (k_max_works + 1) D1 D' -> history D'.

Lemma reachable_inv t s : reachable t s -> exists D l, srv_inv t s D l /\ history D.
Proof.
  induction 1 as [s E|t s t0 acc evs now s' _ (D & l & Hinv & Hh) Hit Hroom E].
  - destruct (server_init_spec 0) as (s' & E' & Hs). rewrite E in E'. injection E' as <-.
    exists ∅, []. split; [done|constructor].
  - destruct (loop_iteration_spec t s D l t0 acc evs now Hinv Hit) as (s1 & D1 & D2 & l2 & xs & ns & E1 & Hinv1 & _ & _ & Ht & Hex & _);
      [apply Hroom, (sc_db _ _ _ _ (proj1 Hinv))|]. rewrite E in E1. injection E1 as <-. exists D2, l2.
    split; [done|by econstructor].
Qed.

(** ** The next timer *)

(** The times at which something expires. *)
Definition deadline s D (d : Z) : Prop :=
  (exists p c, conns s !! p = Some c /\ d = last_active_ms c + k_idle_timeout_ms) \/
  (exists k r, D !! k = Some r /\ a_ttl r = Some d).

Definition least_deadline s D (d : Z) : Prop := deadline s D d /\ forall d', deadline s D d' -> d <= d'.

(** The first deadline of the idle list, [2^64 - 1] when it is empty. *)
Lemma idle_deadline t s D l :
  srv_core t s D l -> t + k_idle_timeout_ms < 2 ^ 64 - 1 ->
  exists e n, dlist_empty (idle s) idle_list = Some e /\
    (if (e : bool) then Some (u64 (-1))
     else p ← idle_first s; c ← conns s !! p; Some (u64 (last_active_ms c + k_idle_timeout_ms))) = Some n /\
    ((n = 2 ^ 64 - 1 /\ forall p, conns s !! p = None) \/
     (0 <= n < 2 ^ 64 - 1 /\ (exists p c, conns s !! p = Some c /\ n = last_active_ms c + k_idle_timeout_ms) /\
      forall p c, conns s !! p = Some c -> n <= last_active_ms c + k_idle_timeout_ms)).
Proof.
  intros Hc Ht. rewrite (dlist_empty_spec _ _ _ (sc_ring _ _ _ _ Hc)). destruct l as [|p l].
  - exists true, (2 ^ 64 - 1). split_and!; [done|done|]. left. split; [done|]. intros p.
    apply eq_None_not_Some. intros Hp%(sc_live _ _ _ _ Hc). by apply elem_of_nil in Hp.
  - destruct (idle_head _ _ _ _ _ Hc) as (Ef & c & Hp). destruct (sc_time _ _ _ _ Hc p c Hp) as [Hc0 Hct].
    exists false, (last_active_ms c + k_idle_timeout_ms). split; [done|].
    rewrite Ef, bind_Some_l, Hp, bind_Some_l. assert (0 < k_idle_timeout_ms) by done.
    rewrite u64_small by lia. split; [done|]. right. split; [lia|]. split; [by exists p, c|].
    intros q c' Hq. enough (last_active_ms c <= last_active_ms c') by lia.
    assert (Hin : q ∈ p :: l) by (apply (sc_live _ _ _ _ Hc); eauto).
    apply elem_of_cons in Hin as [->|Hin]; [simplify_eq; lia|].
    pose proof (sc_order _ _ _ _ Hc) as Ho. cbn [ages omap list_omap] in Ho. rewrite Hp in Ho.
    cbn [fmap option_fmap option_map] in Ho. apply StronglySorted_inv in Ho as [_ Hall].
    eapply (Forall_forall _ _) in Hall; [done|]. apply ages_in. eauto.
Qed.

Lemma next_timer_spec t now s D l :
  srv_core t s D l -> t + k_idle_timeout_ms < 2 ^ 64 - 1 ->
  (forall k r d, D !! k = Some r -> a_ttl r = Some d -> 0 <= d < 2 ^ 64 - 1) ->
  (next_timer_ms now s = Some (-1) /\ forall d, ~ deadline s D d) \/
  exists d, least_deadline s D d /\ next_timer_ms now s = Some (if d <=? now then 0 else i32 (d - now)).
Proof.
  intros Hc Ht Hd. destruct (idle_deadline t s D l Hc Ht) as (e & n & E1 & E2 & Hn).
  unfold next_timer_ms. rewrite E1, bind_Some_l, E2, bind_Some_l.
  pose proof (sc_db _ _ _ _ Hc) as (M & Hi & Ha). pose proof (inv_core _ _ Hi) as Hcore.
  assert (Hmin : forall k r d, D !! k = Some r -> a_ttl r = Some d ->
    exists item rest, heap (gd s) = item :: rest /\ val item <= d) by (intros; by eapply timer_min).
  change (u64 (-1)) with (2 ^ 64 - 1).
  assert (Hi32 : forall x, i32 (i32 x) = i32 x).
  { intros x. unfold i32 at 2. unfold i32 at 1. rewrite Z.sub_add, Zmod_mod. done. }
  assert (Hres : forall m, 0 <= m < 2 ^ 64 - 1 ->
    i32 (if m =? 2 ^ 64 - 1 then u32 (-1) else if m <=? now then 0 else i32 (m - now)) =
    if m <=? now then 0 else i32 (m - now)).
  { intros m Hm. destruct (Z.eqb_spec m (2 ^ 64 - 1)); [lia|]. by destruct (m <=? now). }
  destruct (heap (gd s)) as [|item rest] eqn:Eh.
  - assert (Hno : forall k r d, D !! k = Some r -> a_ttl r = Some d -> False)
      by (intros k r d H1 H2; by destruct (Hmin k r d H1 H2) as (? & ? & ? & _)).
    destruct Hn as [[-> Hno']|(Hr & (p & c & Hp & ->) & Hl)].
    + left. split; [done|]. intros d [(p & c & Hp & _)|(k & r & H1 & H2)]; [by rewrite Hno' in Hp|eauto].
    + right. eexists. split; [split|by rewrite Hres]; [left; eauto|].
      intros d' [(q & c' & Hq & ->)|(k & r & H1 & H2)]; [eauto|by destruct (Hno k r d')].
  - destruct (timer_entry _ _ _ _ Hcore Eh) as (p & [k rc T] & _ & Hp & Hv). cbn in Hv.
    pose proof (abs_found (gd s) _ _ _ _ _ _ Ha Hp) as Hk. pose proof (Hd _ _ _ Hk Hv) as Hrange.
    assert (Hmin' : forall k r d, D !! k = Some r -> a_ttl r = Some d -> val item <= d).
    { intros k' r d H1 H2. destruct (Hmin k' r d H1 H2) as (? & ? & ? & ?). by simplify_eq. }
    right. destruct (Z.ltb_spec (val item) n) as [Hlt|Hge].
    + exists (val item). split; [split|by rewrite Hres]; [right; eauto|].
      intros d' [(q & c' & Hq & ->)|(k' & r & H1 & H2)]; [|eauto].
      destruct Hn as [[_ Hno]|(_ & _ & Hl)]; [by rewrite Hno in Hq|]. specialize (Hl _ _ Hq). lia.
    + destruct Hn as [[-> _]|(Hr & (q & c & Hq & ->) & Hl)]; [lia|].
      eexists. split; [split|by rewrite Hres]; [left; eauto|].
      intros d' [(q' & c' & Hq' & ->)|(k' & r & H1 & H2)]; [eauto|]. specialize (Hmin' _ _ _ H1 H2). lia.
Qed.
