(* ===== verification/Service.v ===== *)
(** * The abstract service, and the event loop as an implementation of it

    The service has a database and a session for each connected client.  Its
    steps are what a client or an observer can tell apart: a client connects,
    some bytes arrive, the next request of a session is executed on the one
    database, some bytes leave, a session ends, keys expire.  [loop_iteration]
    refines it: every iteration is a sequence of such steps, and those a client
    can see are the calls the server makes on descriptors, one for one. *)

From S2P Require Import Prelude Common Wire Server Spec ServerProofs EventLoop Calls Framing EventLoopProofs.
Local Open Scope Z_scope.

(** ** The service *)

(** A session: the bytes received from its start and those not executed yet;
    the requests executed, each with its reply; the bytes of replies to send, and
    those sent from its start. *)
Record session := mkSession {
  ss_received : Buffer;
  ss_kept : Buffer;
  ss_log : list (command * value);
  ss_queue : Buffer;
  ss_sent : Buffer
}.

Definition session_new : session := mkSession [] [] [] [] [].

Definition session_receive (data : Buffer) (se : session) : session :=
  mkSession (ss_received se ++ data) (ss_kept se ++ data) (ss_log se) (ss_queue se) (ss_sent se).

Definition session_answer (rest : Buffer) (cmd : command) (v : value) (o : Buffer) (se : session) : session :=
  mkSession (ss_received se) rest (ss_log se ++ [(cmd, v)]) (ss_queue se ++ o) (ss_sent se).

Definition session_send (gone rest : Buffer) (se : session) : session :=
  mkSession (ss_received se) (ss_kept se) (ss_log se) rest (ss_sent se ++ gone).

(** Sessions are known by their descriptor. *)
Record service := mkService { sv_db : adb; sv_sessions : gmap Z session }.

Definition service_init : service := mkService ∅ ∅.

Inductive act :=
  | Connect (n : Z)
  | Receive (n : Z) (data : Buffer)
  | Execute (n : Z) (now : Z) (cmd : command) (v : value)
  | Send (n : Z) (data : Buffer)
  | Close (n : Z)
  | Expire (now : Z).

Inductive step : service -> act -> service -> Prop :=
  | step_connect D S n :
      S !! n = None -> step (mkService D S) (Connect n) (mkService D (<[n := session_new]> S))
  | step_receive D S n data se :
      S !! n = Some se -> data <> [] ->
      step (mkService D S) (Receive n data) (mkService D (<[n := session_receive data se]> S))
  | step_execute D S n now cmd v o rest se :
      S !! n = Some se -> take_frame (ss_kept se) = Req cmd rest ->
      spec_reply now D (decode_cmd cmd) v -> sent v o ->
      step (mkService D S) (Execute n now cmd v)
        (mkService (spec_cmd now D (decode_cmd cmd)).1 (<[n := session_answer rest cmd v o se]> S))
  | step_send D S n gone rest se :
      S !! n = Some se -> ss_queue se = gone ++ rest ->
      step (mkService D S) (Send n gone) (mkService D (<[n := session_send gone rest se]> S))
  | step_close D S n se :
      S !! n = Some se -> step (mkService D S) (Close n) (mkService D (delete n S))
  | step_expire D S now D' :
      expires now (k_max_works + 1) D D' -> step (mkService D S) (Expire now) (mkService D' S).

Inductive steps : service -> list act -> service -> Prop :=
  | steps_nil a : steps a [] a
  | steps_cons a x b xs c : step a x b -> steps b xs c -> steps a (x :: xs) c.

Lemma steps_one a x b : step a x b -> steps a [x] b.
Proof. intros H. econstructor; [done|constructor]. Qed.

Lemma steps_app a xs b ys c : steps a xs b -> steps b ys c -> steps a (xs ++ ys) c.
Proof. induction 1 as [|a x b xs b' Hx _ IH]; intros H; [done|]. econstructor; [done|by apply IH]. Qed.

(** The input of a trace, in order. *)
Definition inputs (xs : list act) : list (Z * Buffer) :=
  omap (fun x => match x with Receive n data => Some (n, data) | _ => None end) xs.

Lemma inputs_app xs ys : inputs (xs ++ ys) = inputs xs ++ inputs ys.
Proof. apply omap_app. Qed.

(** ** What can be seen from outside *)

(** The acts that the operating system sees: all but executions and
    expirations. *)
Definition visible (x : act) : bool :=
  match x with Execute _ _ _ _ | Expire _ => false | _ => true end.

Definition external (xs : list act) : list act := List.filter visible xs.

Lemma external_app xs ys : external (xs ++ ys) = external xs ++ external ys.
Proof. apply List.filter_app. Qed.

Lemma inputs_external xs : inputs (external xs) = inputs xs.
Proof.
  induction xs as [|x xs IH]; [done|]. change (x :: xs) with ([x] ++ xs).
  rewrite external_app, !inputs_app, IH. by destruct x.
Qed.

(** The act of a call: a [read] that fails or finds the end of the stream, and a
    [write] that fails, are none. *)
Definition call_acts (x : sys_call) : list act :=
  match x with
  | CallAccept n => [Connect n]
  | CallRead n (ReadData (b :: data)) => [Receive n (b :: data)]
  | CallRead n _ => []
  | CallWrite n buf (Wrote k) => [Send n (take (Z.to_nat k) buf)]
  | CallWrite n _ _ => []
  | CallClose n => [Close n]
  end.

Definition acts_of (xs : list sys_call) : list act := flat_map call_acts xs.

Lemma acts_of_app xs ys : acts_of (xs ++ ys) = acts_of xs ++ acts_of ys.
Proof. apply flat_map_app. Qed.

Lemma external_acts xs : external (acts_of xs) = acts_of xs.
Proof.
  induction xs as [|x xs IH]; [done|]. cbn [acts_of flat_map]. fold (acts_of xs). rewrite external_app, IH.
  by destruct x as [|n [| |[]]|n buf []|].
Qed.

Lemma acts_of_closes ns : acts_of (map CallClose ns) = map Close ns.
Proof. induction ns as [|n ns IH]; [done|]. cbn. by rewrite <- IH. Qed.

(** The bytes received on, and sent to, the descriptor [n] since the last client
    was accepted on it. *)
Definition received_on (n : Z) (xs : list act) (b : Buffer) : Buffer :=
  foldl (fun b x => match x with
    | Connect m => if m =? n then [] else b
    | Receive m data => if m =? n then b ++ data else b
    | _ => b
    end) b xs.

Definition sent_on (n : Z) (xs : list act) (b : Buffer) : Buffer :=
  foldl (fun b x => match x with
    | Connect m => if m =? n then [] else b
    | Send m data => if m =? n then b ++ data else b
    | _ => b
    end) b xs.

Lemma received_on_external n xs b : received_on n (external xs) b = received_on n xs b.
Proof. revert b. induction xs as [|[] xs IH]; intros b; [done|apply IH..]. Qed.

Lemma sent_on_external n xs b : sent_on n (external xs) b = sent_on n xs b.
Proof. revert b. induction xs as [|[] xs IH]; intros b; [done|apply IH..]. Qed.

(** A session has received and sent exactly these bytes. *)
Lemma step_streams a x b n :
  step a x b -> forall br bs,
  (forall se, sv_sessions a !! n = Some se -> ss_received se = br /\ ss_sent se = bs) ->
  forall se, sv_sessions b !! n = Some se ->
    ss_received se = received_on n [x] br /\ ss_sent se = sent_on n [x] bs.
Proof.
  destruct 1 as [D S m Hm|D S m data se0 Hm _|D S m now cmd v o rest se0 Hm _ _ _|D S m gone rest se0 Hm _|D S m se0 Hm|];
    intros br bs Ha se Hse; cbn [sv_sessions received_on sent_on foldl] in *; [..|by apply Ha];
    try (apply lookup_insert_Some in Hse as [[<- <-]|[Hne Hse]]; rewrite ?Z.eqb_refl;
      [try destruct (Ha se0 Hm) as [<- <-]; done|rewrite ?(proj2 (Z.eqb_neq _ _) Hne); by apply Ha]).
  apply lookup_delete_Some in Hse as [_ Hse]. by apply Ha.
Qed.

Lemma steps_streams a xs b n :
  steps a xs b -> forall br bs,
  (forall se, sv_sessions a !! n = Some se -> ss_received se = br /\ ss_sent se = bs) ->
  forall se, sv_sessions b !! n = Some se ->
    ss_received se = received_on n xs br /\ ss_sent se = sent_on n xs bs.
Proof.
  induction 1 as [|a x b xs c Hx _ IH]; intros br bs Ha; [done|].
  intros se Hse. apply (IH (received_on n [x] br) (sent_on n [x] bs)); [|done].
  by eapply step_streams.
Qed.

(** ** What a session is promised *)

(** [taken buf cmds rest]: the first requests of [buf] are [cmds]; [rest] is
    left. *)
Inductive taken : Buffer -> list command -> Buffer -> Prop :=
  | taken_nil buf : taken buf [] buf
  | taken_cons buf cmd rest cmds last :
      take_frame buf = Req cmd rest -> taken rest cmds last -> taken buf (cmd :: cmds) last.

Lemma taken_more buf cmds rest more : taken buf cmds rest -> taken (buf ++ more) cmds (rest ++ more).
Proof.
  induction 1 as [|buf cmd rest cmds last E _ IH]; [constructor|]. econstructor; [|exact IH].
  pose proof (take_frame_app buf more) as H. by rewrite E in H.
Qed.

Lemma taken_snoc buf cmds rest cmd rest' :
  taken buf cmds rest -> take_frame rest = Req cmd rest' -> taken buf (cmds ++ [cmd]) rest'.
Proof.
  induction 1 as [|buf c rest cmds last E _ IH]; intros E'; cbn; econstructor; try done; [constructor|by apply IH].
Qed.

(** The requests executed are the first of the bytes received, in order, one
    reply for each; the bytes sent and to send are the frames of these replies. *)
Record session_ok (se : session) : Prop := {
  so_in : taken (ss_received se) (ss_log se).*1 (ss_kept se);
  so_out : exists outs, Forall2 sent (ss_log se).*2 outs /\ concat outs = ss_sent se ++ ss_queue se
}.

Lemma session_new_ok : session_ok session_new.
Proof. split; [constructor|]. exists []. split; [constructor|done]. Qed.

Lemma session_receive_ok data se : session_ok se -> session_ok (session_receive data se).
Proof. intros [Hi Ho]. split; [by apply taken_more|exact Ho]. Qed.

Lemma session_answer_ok rest cmd v o se :
  session_ok se -> take_frame (ss_kept se) = Req cmd rest -> sent v o -> session_ok (session_answer rest cmd v o se).
Proof.
  intros [Hi (outs & Hs & Ho)] E Hv. split; cbn; rewrite fmap_app; [by eapply taken_snoc|].
  exists (outs ++ [o]). split; [apply Forall2_app; [exact Hs|constructor; [exact Hv|constructor]]|].
  rewrite concat_app, Ho. cbn. by rewrite app_nil_r, app_assoc.
Qed.

Lemma session_send_ok gone rest se :
  session_ok se -> ss_queue se = gone ++ rest -> session_ok (session_send gone rest se).
Proof. intros [Hi (outs & Hs & Ho)] E. split; [done|]. exists outs. split; [done|]. cbn. by rewrite Ho, E, app_assoc. Qed.

Definition sessions_ok (a : service) : Prop := map_Forall (fun _ se => session_ok se) (sv_sessions a).

Lemma step_sessions_ok a x b : step a x b -> sessions_ok a -> sessions_ok b.
Proof.
  unfold sessions_ok. destruct 1 as [| D S n data se Hn|D S n now cmd v o rest se Hn E Hv Hs|D S n gone rest se Hn E| |];
    cbn [sv_sessions]; intros Hok; try (apply map_Forall_insert_2; [|done]); try (specialize (Hok n se Hn)).
  - apply session_new_ok.
  - by apply session_receive_ok.
  - by apply session_answer_ok.
  - by apply session_send_ok.
  - by apply map_Forall_delete.
  - done.
Qed.

Lemma steps_sessions_ok a xs b : steps a xs b -> sessions_ok a -> sessions_ok b.
Proof. induction 1 as [|a x b xs c Hx _ IH]; [done|]. intros Ha. by apply IH, (step_sessions_ok a x). Qed.
