(* ===== verification/ServiceProofs.v ===== *)
(** * The event loop refines the service

    [sessions_rep s S]: the connections of the server [s] are the sessions [S],
    descriptor by descriptor; the buffers of a connection are the bytes a session
    has kept and the replies it has to send. *)

From S2P Require Import Prelude Common Wire Server Spec ServerProofs EventLoop Calls Framing EventLoopProofs Service.
Local Open Scope Z_scope.

Implicit Types (D : adb) (c : Conn) (s : server) (l : list ptr) (S : gmap Z session) (se : session).

(** ** Connections and sessions *)

Definition conn_at s (n : Z) c : Prop := exists p, conns s !! p = Some c /\ fd c = n.

Definition session_rep c se : Prop := ss_kept se = incoming c /\ ss_queue se = outgoing c.

Definition sessions_rep s S : Prop := forall n,
  match S !! n with
  | Some se => exists c, conn_at s n c /\ session_rep c se
  | None => forall c, ~ conn_at s n c
  end.

Lemma conn_at_unique t s D l n c c' : srv_core t s D l -> conn_at s n c -> conn_at s n c' -> c = c'.
Proof.
  intros Hc (p & Hp & Hn) (q & Hq & Hn'). pose proof (sc_slot _ _ _ _ Hc p c Hp) as H1.
  pose proof (sc_slot _ _ _ _ Hc q c' Hq) as H2. rewrite Hn in H1. rewrite Hn', H1 in H2. congruence.
Qed.

Lemma sessions_at t s D l S n c :
  srv_core t s D l -> sessions_rep s S -> conn_at s n c -> exists se, S !! n = Some se /\ session_rep c se.
Proof.
  intros Hc Hr Hn. specialize (Hr n). destruct (S !! n) as [se|]; [|by destruct (Hr c)].
  destruct Hr as (c' & Hn' & Hse). exists se. split; [done|]. by rewrite (conn_at_unique _ _ _ _ _ _ _ Hc Hn Hn').
Qed.

(** One descriptor changes: its connection goes on, or is closed. *)
Lemma sessions_put s s' S n c se :
  sessions_rep s S -> (forall m c, m <> n -> conn_at s' m c <-> conn_at s m c) -> conn_at s' n c -> session_rep c se ->
  sessions_rep s' (<[n := se]> S).
Proof.
  intros Hr Hoth Hn Hse m. destruct (decide (m = n)) as [->|Hne].
  - rewrite lookup_insert_eq. by exists c.
  - rewrite lookup_insert_ne by done. specialize (Hr m). destruct (S !! m) as [se'|].
    + destruct Hr as (c' & Hm & Hse'). exists c'. split; [by apply Hoth|done].
    + intros c' Hm. apply (Hr c'). by apply (Hoth m).
Qed.

Lemma sessions_drop s s' S n :
  sessions_rep s S -> (forall m c, m <> n -> conn_at s' m c <-> conn_at s m c) -> (forall c, ~ conn_at s' n c) ->
  sessions_rep s' (delete n S).
Proof.
  intros Hr Hoth Hn m. destruct (decide (m = n)) as [->|Hne]; [by rewrite lookup_delete_eq|].
  rewrite lookup_delete_ne by done. specialize (Hr m). destruct (S !! m) as [se'|].
  - destruct Hr as (c' & Hm & Hse'). exists c'. split; [by apply Hoth|done].
  - intros c' Hm. apply (Hr c'). by apply (Hoth m).
Qed.

Lemma sessions_init s : server_init = Some s -> sessions_rep s ∅.
Proof.
  unfold server_init. intros (m & _ & [= <-])%bind_Some n. rewrite lookup_empty. intros c (p & Hp & _).
  cbn [conns] in Hp. by rewrite lookup_empty in Hp.
Qed.

(** ** A new connection *)

Lemma accept_refines s s1 p D S t n :
  sessions_rep s S -> conns s !! p = None -> (forall q c, conns s !! q = Some c -> fd c <> n) ->
  conns s1 = <[p := new_conn t n]> (conns s) ->
  step (mkService D S) (Connect n) (mkService D (<[n := session_new]> S)) /\
    sessions_rep s1 (<[n := session_new]> S).
Proof.
  intros Hr Hp Hfree Hs1. split.
  - constructor. specialize (Hr n). destruct (S !! n) as [se|]; [|done].
    destruct Hr as (c & (q & Hq & Hn) & _). by destruct (Hfree q c).
  - apply (sessions_put s _ _ _ (new_conn t n)); [done| | |done].
    + intros m c Hne. unfold conn_at. rewrite Hs1. split; intros (q & Hq & Hm); exists q.
      * apply lookup_insert_Some in Hq as [[_ <-]|[_ Hq]]; [by destruct Hne|done].
      * rewrite lookup_insert_ne; [done|]. intros <-. congruence.
    + exists p. rewrite Hs1. split; [apply lookup_insert_eq|done].
Qed.

(** ** The turn of a connection *)

Lemma runs_steps clock n cmds : forall k D vs D' S se buf rest bad outs,
  runs clock k D cmds vs D' -> S !! n = Some se -> stream buf cmds rest bad -> ss_kept se = buf -> Forall2 sent vs outs ->
  exists xs se', steps (mkService D S) xs (mkService D' (<[n := se']> S)) /\ external xs = [] /\
    ss_kept se' = rest /\ ss_queue se' = ss_queue se ++ concat outs.
Proof.
  induction cmds as [|cmd cmds IH]; intros k D vs D' S se buf rest bad outs Hr Hn Hst Hk Hs.
  - inversion Hr; subst. inversion Hs; subst. exists [], se. rewrite insert_id by done. split; [constructor|].
    split; [done|]. cbn. rewrite app_nil_r. split; [|done]. by inversion Hst.
  - inversion Hr as [|? ? ? ? v vs' ? Hv Hr']; subst. inversion Hs as [|? o ? outs' Ho Hs']; subst.
    inversion Hst as [| |? ? rest1 ? ? ? E Hst']; subst.
    destruct (IH _ _ _ _ (<[n := session_answer rest1 cmd v o se]> S) _ _ _ _ _ Hr' (lookup_insert_eq _ _ _) Hst' eq_refl Hs')
      as (xs & se' & Hx & Hi & Hk' & Hq').
    exists (Execute n (clock k) cmd v :: xs), se'. rewrite insert_insert_eq in Hx. split.
    + econstructor; [by econstructor|exact Hx].
    + split; [exact Hi|]. split; [done|]. rewrite Hq'. cbn. by rewrite app_assoc.
Qed.

(** The steps [xs] are seen as the calls made between [s] and [s']. *)
Definition performs s s' (xs : list act) : Prop :=
  exists cs, calls s' = calls s ++ cs /\ external xs = acts_of cs.

Lemma performs_nil s s' : calls s' = calls s -> performs s s' [].
Proof. intros E. exists []. by rewrite app_nil_r. Qed.

Lemma performs_app s s1 s' xs ys : performs s s1 xs -> performs s1 s' ys -> performs s s' (xs ++ ys).
Proof.
  intros (cs & E & Hx) (ds & E' & Hy). exists (cs ++ ds). split; [by rewrite E', E, app_assoc|].
  by rewrite external_app, acts_of_app, Hx, Hy.
Qed.

(** A [read] is a reception, or nothing. *)
Lemma read_steps D S n se rs :
  S !! n = Some se -> rs = [] \/ (exists rv, rs = [CallRead n rv]) ->
  exists se', steps (mkService D S) (acts_of rs) (mkService D (<[n := se']> S)) /\
    ss_kept se' = ss_kept se ++ received rs /\ ss_queue se' = ss_queue se.
Proof.
  intros Hn Hrs. assert (Hno : steps (mkService D S) [] (mkService D (<[n := se]> S)))
    by (rewrite insert_id by done; constructor).
  destruct Hrs as [->|([| |[|b data]] & ->)]; cbn [received flat_map call_received]; rewrite ?app_nil_r;
    try (by exists se).
  exists (session_receive (b :: data) se). split; [|done]. by apply steps_one, step_receive.
Qed.

(** A [write] sends, or nothing. *)
Lemma write_steps D S n se ws rest :
  S !! n = Some se -> ws = [] \/ (exists buf rv, ws = [CallWrite n buf rv]) -> ss_queue se = written ws ++ rest ->
  exists se', steps (mkService D S) (acts_of ws) (mkService D (<[n := se']> S)) /\
    ss_kept se' = ss_kept se /\ ss_queue se' = rest.
Proof.
  intros Hn Hws Hq. assert (Hno : steps (mkService D S) [] (mkService D (<[n := se]> S)))
    by (rewrite insert_id by done; constructor).
  destruct Hws as [->|(buf & [| |k] & ->)]; cbn [written flat_map call_written app] in Hq; try (by exists se).
  rewrite app_nil_r in Hq. exists (session_send (take (Z.to_nat k) buf) rest se). split; [|done].
  by apply steps_one, step_send.
Qed.

Lemma io_calls_split c ev xs :
  io_calls c ev xs -> exists rs ws, xs = rs ++ ws /\ (rs = [] \/ exists rv, rs = [CallRead (fd c) rv]) /\
    (ws = [] \/ exists buf rv, ws = [CallWrite (fd c) buf rv]).
Proof.
  unfold io_calls. destruct (ev_in ev); [|destruct (ev_out ev)].
  - intros (ws & -> & Hws). exists [CallRead (fd c) (ev_read ev)], ws. split; [done|]. split; [right; by eexists|].
    destruct Hws as [->|(buf & ->)]; [by left|right; by eexists _, _].
  - intros ->. exists [], [write_call c (ev_write ev)]. split; [done|]. split; [by left|right; by eexists _, _].
  - intros ->. exists [], []. split; [done|]. split; by left.
Qed.

Lemma served_steps clock D c ev cs D' c' S se :
  served clock D c cs D' c' -> io_calls c ev cs -> S !! fd c = Some se -> session_rep c se ->
  exists xs se', steps (mkService D S) xs (mkService D' (<[fd c := se']> S)) /\ external xs = acts_of cs /\ session_rep c' se'.
Proof.
  intros (cmds & bad & vs & outs & Hst & Hr & Hs & Hout) Hcs Hn [Hk Hq].
  destruct (io_calls_split c ev cs Hcs) as (rs & ws & -> & Hrs & Hws).
  assert (received ws = []) as Hwr by (by destruct Hws as [->|(? & ? & ->)]).
  assert (written rs = []) as Hrw by (by destruct Hrs as [->|(? & ->)]).
  rewrite received_app, Hwr, app_nil_r in Hst. rewrite written_app, Hrw in Hout.
  destruct (read_steps D S (fd c) se rs Hn Hrs) as (se1 & Hx1 & Hk1 & Hq1). rewrite Hk in Hk1. rewrite Hq in Hq1.
  destruct (runs_steps clock (fd c) cmds 0 D vs D' _ _ _ (incoming c') bad outs Hr (lookup_insert_eq S (fd c) se1) Hst Hk1 Hs)
    as (xs & se2 & Hx & Hi & Hk2 & Hq2). rewrite insert_insert_eq in Hx.
  destruct (write_steps D' _ (fd c) se2 ws (outgoing c') (lookup_insert_eq S (fd c) se2) Hws) as (se3 & Hx3 & Hk3 & Hq3);
    [by rewrite Hq2, Hq1|]. rewrite insert_insert_eq in Hx3.
  exists (acts_of rs ++ xs ++ acts_of ws), se3. split; [eapply steps_app; [exact Hx1|]; by eapply steps_app|]. split.
  - by rewrite !external_app, !external_acts, Hi, acts_of_app.
  - split; [by rewrite Hk3|done].
Qed.

(** A turn changes the connection of its descriptor only. *)
Lemma turn_others t s D l t1 s1 D1 l1 p c pfd :
  srv_core t s D l -> srv_core t1 s1 D1 l1 -> arr_get (fd2conn s) pfd = Some (Some p) -> conns s !! p = Some c ->
  others_same p pfd s s1 ->
  (forall m c', m <> pfd -> conn_at s1 m c' <-> conn_at s m c') /\
  (forall c', conns s1 !! p = Some c' -> fd c' = pfd) /\ (conns s1 !! p = None -> forall c', ~ conn_at s1 pfd c').
Proof.
  intros Hc Hc1 Hslot Hp [Hoc Hof].
  destruct (sc_conn _ _ _ _ Hc _ _ Hslot) as (c0 & Hp0 & Hfd). rewrite Hp in Hp0. injection Hp0 as <-.
  assert (Hfd1 : forall c', conns s1 !! p = Some c' -> fd c' = pfd).
  { intros c' Hp1. destruct (decide (fd c' = pfd)) as [|Hne]; [done|].
    pose proof (sc_slot _ _ _ _ Hc1 p c' Hp1) as Hs1. rewrite Hof in Hs1 by done.
    destruct (sc_conn _ _ _ _ Hc _ _ Hs1) as (c2 & Hp2 & Hf2). congruence. }
  split; [|split; [done|]].
  - intros m c' Hne. split; intros (q & Hq & Hm); exists q; split; try done.
    + rewrite <- Hoc; [done|]. intros ->. apply Hfd1 in Hq. congruence.
    + rewrite Hoc; [done|]. intros ->. congruence.
  - intros Hno c' (q & Hq & Hn). assert (Hne : q <> p) by congruence. rewrite Hoc in Hq by done.
    pose proof (sc_slot _ _ _ _ Hc q c' Hq) as Hs1. rewrite Hn, Hslot in Hs1. congruence.
Qed.

(** What is read, without the reads that bring nothing. *)
Definition read_input (x : Z * Buffer) : list (Z * Buffer) := match x.2 with [] => [] | _ :: _ => [x] end.
Definition nonempty_reads (xs : list (Z * Buffer)) : list (Z * Buffer) := flat_map read_input xs.

Lemma io_calls_inputs c ev cs : io_calls c ev cs -> inputs (acts_of cs) = read_input (fd c, event_data ev).
Proof.
  unfold io_calls, event_data. destruct (ev_in ev); [|by destruct (ev_out ev); intros ->; cbn; [destruct (ev_write ev _)|]].
  intros (ws & -> & Hws). assert (inputs (acts_of ws) = []) as Hw.
  { destruct Hws as [->|(buf & ->)]; [done|]. cbn. by destruct (ev_read_write ev _). }
  cbn [acts_of flat_map]. fold (acts_of ws). rewrite inputs_app, Hw, app_nil_r. by destruct (ev_read ev) as [| |[]].
Qed.

(** The whole turn of a connection, which may end with its closing. *)
Lemma turn_steps s s1 S D D1 c c2 ev cs se p :
  served (ev_clock ev) D c cs D1 c2 -> io_calls c ev cs ->
  calls s1 = calls s ++ cs ++ close_calls c (ev_err ev || want_close c2) ->
  conns s1 !! p = (if ev_err ev || want_close c2 then None else Some c2) ->
  sessions_rep s S -> (forall m c', m <> fd c -> conn_at s1 m c' <-> conn_at s m c') ->
  (forall c', conns s1 !! p = Some c' -> fd c' = fd c) -> (conns s1 !! p = None -> forall c', ~ conn_at s1 (fd c) c') ->
  S !! fd c = Some se -> session_rep c se ->
  exists S1 xs, steps (mkService D S) xs (mkService D1 S1) /\ sessions_rep s1 S1 /\ performs s s1 xs /\
    inputs xs = read_input (fd c, event_data ev).
Proof.
  intros Hsv Hcs Hl1 Hp1 Hr Ho Hf Hno Hse Hrep.
  destruct (served_steps _ _ _ _ _ _ _ S se Hsv Hcs Hse Hrep) as (xs & se1 & Hx1 & Hi1 & Hrep1).
  pose proof (io_calls_inputs _ _ _ Hcs) as Hin. rewrite <- Hi1, inputs_external in Hin.
  destruct (ev_err ev || want_close c2).
  - exists (delete (fd c) (<[fd c := se1]> S)), (xs ++ [Close (fd c)]).
    split; [eapply steps_app; [exact Hx1|]; apply steps_one; eapply step_close, lookup_insert_eq|].
    split; [rewrite delete_insert_eq; apply (sessions_drop s); [done|done|by apply Hno]|].
    split; [exists (cs ++ [CallClose (fd c)]); split; [done|by rewrite external_app, acts_of_app, Hi1]|].
    by rewrite inputs_app, Hin, app_nil_r.
  - exists (<[fd c := se1]> S), xs. split; [done|].
    split; [apply (sessions_put s _ _ _ c2); [done|done| |done]; exists p; split; [done|by apply Hf]|].
    split; [|done]. exists cs. split; [by rewrite Hl1, app_nil_r|done].
Qed.

Lemma conns_refine pfds : forall evs t s D l S,
  srv_inv t s D l -> events_ok t s pfds evs -> room_for (zlen evs * read_budget) D -> sessions_rep s S ->
  exists s' D' l' t' S' xs, handle_conns s pfds evs = Some s' /\ srv_inv t' s' D' l' /\
    (forall now, t <= now -> (forall ev, ev ∈ evs -> ev_now ev <= now) -> t' <= now) /\
    steps (mkService D S) xs (mkService D' S') /\ sessions_rep s' S' /\ performs s s' xs /\
    inputs xs = nonempty_reads (zip pfds (map event_data evs)).
Proof.
  induction pfds as [|pfd pfds IH]; intros evs t s D l S Hinv Hevs Hroom Hr;
    pose proof (Forall2_length _ _ _ (evs_conn _ _ _ _ Hevs)) as Hlen; destruct evs as [|ev evs]; try done.
  { exists s, D, l, t, S, []. split_and!; [done|done|by auto|constructor|done|by apply performs_nil|done]. }
  destruct (handle_conns_first t s D l pfd pfds ev evs Hinv Hevs Hroom)
    as (p & c & s1 & D1 & l1 & c2 & cs & Hslot & Hp & Hfd & Ht1 & E1 & Hinv1 & Hoth & _ & Hsv & Hcs & Hl1 & Hp1 & Hevs1 & Hroom1).
  destruct (turn_others _ _ _ _ _ _ _ _ p c pfd (proj1 Hinv) (proj1 Hinv1) Hslot Hp Hoth) as (Ho & Hf & Hno).
  destruct (sessions_at _ _ _ _ _ pfd c (proj1 Hinv) Hr) as (se & Hse & Hrep); [by exists p|].
  destruct (turn_steps s s1 S D D1 c c2 ev cs se p Hsv Hcs) as (S1 & xs1 & Hx1 & Hr1 & Hpf1 & Hi1); try (by rewrite Hfd); [done..|].
  destruct (IH evs (ev_now ev) s1 D1 l1 S1 Hinv1 Hevs1 Hroom1 Hr1)
    as (s' & D' & l' & t' & S' & xs & E' & Hinv' & Hnow & Hx & Hr' & Hpf & Hi).
  exists s', D', l', t', S', (xs1 ++ xs). cbn [handle_conns]. rewrite E1, bind_Some_l.
  split; [done|]. split; [done|]. split; [|split; [by eapply steps_app|split; [done|split; [by eapply performs_app|]]]].
  - intros now _ Hall. apply Hnow; [apply Hall|intros ev' Hin; apply Hall]; set_solver.
  - cbn [map zip zip_with nonempty_reads flat_map]. by rewrite inputs_app, Hi1, Hi, Hfd.
Qed.

(** ** The timers *)

(** Closing open sessions, in order. *)
Lemma close_steps D (ns : list Z) : forall S o',
  fds_after (map CallClose ns) (dom S) = Some o' ->
  exists S', steps (mkService D S) (map Close ns) (mkService D S') /\
    forall n, S' !! n = if decide (n ∈ o') then S !! n else None.
Proof.
  induction ns as [|m ns IH]; intros S o' E.
  - injection E as <-. exists S. split; [constructor|]. intros n. destruct (decide (n ∈ dom S)); [done|]. by apply not_elem_of_dom.
  - cbn [map fds_after fd_step] in E. destruct (decide (m ∈ dom S)) as [[se Hm]%elem_of_dom|Hno]; [|by rewrite option_guard_False in E].
    rewrite option_guard_True, bind_Some_l in E by (apply elem_of_dom; by exists se).
    rewrite <- dom_delete_L in E. destruct (IH (delete m S) o' E) as (S' & Hx & Hl). exists S'.
    split; [econstructor; [by eapply step_close|exact Hx]|]. intros n. rewrite Hl.
    destruct (decide (n ∈ o')) as [Hin|]; [|done]. apply lookup_delete_ne. intros <-.
    specialize (Hl m). rewrite decide_True, lookup_delete_eq in Hl by done.
    enough (o' ⊆ dom (delete m S)) as Hsub by (apply Hsub in Hin; rewrite dom_delete_L in Hin; set_solver).
    by apply (fds_after_closes ns).
Qed.

Lemma timers_refine t now s s' D D' l l' S ns :
  srv_core t s D l -> srv_core t s' D' l' -> sessions_rep s S -> calls s' = calls s ++ map CallClose ns ->
  (forall p c, conns s' !! p = Some c <-> conns s !! p = Some c /\ idle_expired now c = false) ->
  expires now (k_max_works + 1) D D' ->
  exists S' xs, steps (mkService D S) xs (mkService D' S') /\ inputs xs = [] /\ performs s s' xs /\ sessions_rep s' S'.
Proof.
  intros Hc Hc' Hr Hl Hk Hex. destruct (sc_open _ _ _ _ Hc) as (o & Eo & Ho), (sc_open _ _ _ _ Hc') as (o' & Eo' & Ho').
  rewrite Hl, fds_after_app, Eo, bind_Some_l in Eo'.
  assert (Hdom : dom S = o).
  { apply set_eq. intros n. rewrite elem_of_dom, Ho. specialize (Hr n). split.
    - intros [se Hn]. rewrite Hn in Hr. destruct Hr as (c & (p & Hp & Hfd) & _). by exists p, c.
    - intros (p & c & Hp & Hn). destruct (S !! n) as [se|]; [by eexists|]. destruct (Hr c). by exists p. }
  rewrite <- Hdom in Eo'. destruct (close_steps D ns S o' Eo') as (S' & Hx & HS').
  exists S', (map Close ns ++ [Expire now]). split; [eapply steps_app; [exact Hx|apply steps_one; by constructor]|].
  split; [rewrite inputs_app, app_nil_r; clear; by induction ns|]. split.
  { exists (map CallClose ns). split; [done|]. by rewrite external_app, acts_of_closes, <- acts_of_closes, external_acts, app_nil_r. }
  intros n. rewrite HS'. specialize (Hr n).
  assert (Hat : forall c, conn_at s' n c -> conn_at s n c) by (intros c (p & [Hp _]%Hk & Hn); by exists p).
  destruct (decide (n ∈ o')) as [(p & c & Hp & Hn)%Ho'|Hno]; [|intros c (p & Hp & Hn); apply Hno, Ho'; by exists p, c].
  assert (Hcn : conn_at s' n c) by (by exists p). specialize (Hat c Hcn).
  destruct (S !! n) as [se|]; [|by destruct (Hr c)]. destruct Hr as (c1 & Hn1 & Hse). exists c. split; [done|].
  by rewrite <- (conn_at_unique _ _ _ _ _ _ _ Hc Hn1 Hat).
Qed.

(** ** The iteration *)

(** The input of an iteration: what is read on each polled descriptor. *)
Definition iteration_inputs s (evs : list conn_event) : list (Z * Buffer) :=
  nonempty_reads (zip (map (fun a => a.1.1) (default [] (poll_args s))) (map event_data evs)).

Lemma iteration_refines t s D l t0 acc evs now S :
  srv_inv t s D l -> iteration_ok t s acc evs now -> room_for (zlen evs * read_budget) D -> sessions_rep s S ->
  exists s' D' l' S' xs, loop_iteration s t0 acc evs now = Some s' /\ srv_inv now s' D' l' /\ sessions_rep s' S' /\
    steps (mkService D S) xs (mkService D' S') /\ performs s s' xs /\ inputs xs = iteration_inputs s evs.
Proof.
  intros Hinv Hit Hroom Hr.
  destruct (iteration_events t s D l acc evs now Hinv Hit) as (args & s1 & l1 & Ea & E1 & Hinv1 & Hcl1 & Hevs & [Hl1 Hl2] & _).
  assert (Hacc : exists S1 xs, steps (mkService D S) xs (mkService D S1) /\ inputs xs = [] /\ performs s s1 xs /\ sessions_rep s1 S1).
  { destruct acc as [[ta n]|]; [|injection E1 as <-; exists S, []; split_and!; [constructor|done|by apply performs_nil|done]].
    destruct (it_accept _ _ _ _ _ Hit ta n eq_refl) as (Hta & Hn & Hfree).
    destruct (accept_conn_spec t ta s D l n (proj1 Hinv)) as (s1' & p & E & Hp & _ & Hs1 & _);
      [split; [apply Hit|done]|done|done|]. rewrite E1 in E. injection E as <-.
    destruct (accept_refines s s1 p D S ta n Hr Hp Hfree Hs1) as [Hst Hr1].
    exists (<[n := session_new]> S), [Connect n]. split_and!; [by apply steps_one|done|by eexists|done]. }
  destruct Hacc as (S1 & xs1 & Hx1 & Hi1 & Hpf1 & Hr1).
  destruct (conns_refine (map (fun a => a.1.1) args) evs _ s1 D l1 S1 Hinv1 Hevs Hroom Hr1)
    as (s2 & D2 & l2 & t' & S2 & xs2 & E2 & Hinv2 & Ht' & Hx2 & Hr2 & Hpf2 & Hi2).
  specialize (Ht' now Hl1 Hl2).
  destruct (process_timers_spec t' now s2 D2 l2 Hinv2) as (s3 & D3 & l3 & ns & E3 & Hinv3 & Hex & Hcl3 & Hk); [done|apply Hit|].
  destruct (timers_refine now now s2 s3 D2 D3 l2 l3 S2 ns) as (S3 & xs3 & Hx3 & Hi3 & Hpf3 & Hr3); try done;
    [by eapply core_later; [apply Hinv2|]|by apply Hinv3|].
  destruct (next_timer_total t t0 s D l (proj1 Hinv)) as [ms Et].
  exists s3, D3, l3, S3, (xs1 ++ xs2 ++ xs3). split.
  { unfold loop_iteration. by rewrite Ea, bind_Some_l, Et, bind_Some_l, E1, bind_Some_l, E2, bind_Some_l. }
  split; [done|]. split; [done|]. split; [eapply steps_app; [exact Hx1|]; by eapply steps_app|].
  split; [eapply performs_app; [exact Hpf1|]; by eapply performs_app|].
  unfold iteration_inputs. rewrite !inputs_app, Hi1, Hi2, Hi3, Ea. cbn [app default from_option id]. by rewrite app_nil_r.
Qed.
