(* ===== verification/Memory.v ===== *)
(** * Memory: nothing is leaked, everything has its owner

    On a represented database the live objects are exactly those the database
    needs: one [Entry] per key, with its node and its timer position, one timer
    per expiring key, one [ZNode] per member of a sorted set, and the arrays of
    buckets the hash tables refer to, each in one table.  In a server, each
    connection has one node in the idle list, one slot in the table of
    descriptors, and the one descriptor that was accepted for it and not closed
    yet. *)

From S2P Require Import Prelude Common AvlTree AvlProofs Hashtable HashtableProofs Heap HeapProofs DList Zset Server Spec ZsetProofs Owners ServerProofs EventLoop Calls EventLoopProofs.
Local Open Scope Z_scope.

Implicit Types (g : gdata) (D : adb) (M : gmap ptr erec).

(** ** What the abstract database needs *)

(** The members of a value. *)
Definition members (v : aval) : nat := match v with AStr _ => 0 | AZset l => length l end.

Definition needed_timers D : nat := length (filter (fun kr => is_Some (a_ttl kr.2)) (map_to_list D)).
Definition needed_members D : nat := sum_list ((fun kr => members (a_val kr.2)) <$> map_to_list D).

(** The live objects are those that are needed. *)
Record accounted g D : Prop := {
  acc_nodes : dom (hm_nodes (dbnodes g)) = dom (entries g);
  acc_idx : dom (heap_idx g) = dom (entries g);
  acc_entries : size (entries g) = size D;
  acc_map : hm_size (db g) = Z.of_nat (size D);
  acc_timers : length (heap g) = needed_timers D;
  acc_members : size (zdata (zs g)) = needed_members D;
  acc_parts : dom (trees (zs g)) = dom (zdata (zs g)) /\ dom (znodes (zs g)) = dom (zdata (zs g));
  (* the arrays of buckets: those of the database, and those of the sets *)
  acc_table : dom (hm_arrays (dbnodes g)) = own_arrays (db g);
  acc_arrays : forall a, a ∈ dom (zarrays (zs g)) <-> exists p e, entries g !! p = Some e /\ a ∈ zown (ezset e);
  acc_single : forall p q e e' a, entries g !! p = Some e -> entries g !! q = Some e' ->
    a ∈ zown (ezset e) -> a ∈ zown (ezset e') -> p = q
}.

(** ** The entries and the keys *)

Definition key_rec (pr : ptr * erec) : key * arec := (er_key pr.2, er_rec pr.2).

Lemma abs_list g M D : db_core g M -> abs M D -> map_to_list D ≡ₚ key_rec <$> map_to_list M.
Proof.
  intros Hc Ha. apply NoDup_Permutation; [apply NoDup_map_to_list| |].
  - apply (NoDup_fmap_1 fst). rewrite <- list_fmap_compose. by apply (keys_nodup g).
  - intros [k r]. rewrite elem_of_map_to_list, (Ha k r), list_elem_of_fmap. split.
    + intros (p & T & Hp). exists (p, mkErec k r T). split; [done|by apply elem_of_map_to_list].
    + intros ([p [k' r' T]] & [= -> ->] & Hp%elem_of_map_to_list). by exists p, T.
Qed.

(** ** The timers *)

Lemma filter_length_fmap {A B} (f : A -> B) (P : B -> Prop) `{!forall x, Decision (P x)} (l : list A) :
  length (filter P (f <$> l)) = length (filter (fun x => P (f x)) l).
Proof.
  induction l as [|x l IH]; [done|]. rewrite fmap_cons, !filter_cons. destruct (decide (P (f x))); cbn; by rewrite IH.
Qed.

(** The entries with a timer. *)
Definition timed (pr : ptr * erec) : Prop := is_Some (a_ttl (er_rec pr.2)).

#[local] Instance timed_dec pr : Decision (timed pr).
Proof. unfold timed. apply _. Defined.

Lemma heap_item_entry g M item :
  db_core g M -> item ∈ heap g -> exists p r, ref item = Some p /\ M !! p = Some r /\ timed (p, r).
Proof.
  intros Hc Hin. pose proof (core_heap _ _ Hc) as Hh. pose proof Hh as (_ & [Hl _] & _).
  pose proof Hin as [i Hi]%list_elem_of_lookup. destruct (Hl i item Hi) as (p & v & Hp & Hv & _).
  assert (Hd : p ∈ dom M) by (rewrite <- (core_idx _ _ Hc); by apply elem_of_dom_2 in Hv).
  apply elem_of_dom in Hd as [r Hr]. exists p, r. split_and!; [done..|]. unfold timed. cbn.
  pose proof (core_ttl _ _ Hc p r Hr) as Ht. destruct (a_ttl (er_rec r)); [done|].
  destruct (no_item _ _ _ Hh Ht). apply list_elem_of_fmap. by exists item.
Qed.

Lemma heap_timed g M :
  db_core g M -> ref <$> heap g ≡ₚ (fun pr => Some pr.1) <$> filter timed (map_to_list M).
Proof.
  intros Hc. pose proof (core_heap _ _ Hc) as (_ & [_ Hn] & _). apply NoDup_Permutation; [done| |].
  - change (fun pr : ptr * erec => Some pr.1) with (Some ∘ (fst : ptr * erec -> ptr)).
    rewrite (list_fmap_compose fst Some). apply (NoDup_fmap_2 Some).
    eapply sublist_NoDup; [apply (NoDup_fst_map_to_list M)|]. apply fmap_sublist, sublist_filter.
  - intros x. rewrite !list_elem_of_fmap. split.
    + intros (item & -> & Hin). destruct (heap_item_entry g M item Hc Hin) as (p & r & -> & Hr & Ht).
      exists (p, r). split; [done|]. apply list_elem_of_filter. split; [done|by apply elem_of_map_to_list].
    + intros ([p r] & -> & [[t Ht] Hr%elem_of_map_to_list]%list_elem_of_filter). cbn in *.
      pose proof (core_ttl _ _ Hc p r Hr) as Hi. rewrite Ht in Hi. by exists (mkHeapItem t (Some p)).
Qed.

Lemma timers_count g M D : db_core g M -> abs M D -> length (heap g) = needed_timers D.
Proof.
  intros Hc Ha. unfold needed_timers. rewrite (abs_list g M D Hc Ha), filter_length_fmap.
  pose proof (Permutation_length (heap_timed g M Hc)) as H. by rewrite !length_fmap in H.
Qed.

(** ** The members of the sorted sets *)

(** The nodes of all sets. *)
Definition set_nodes M : list ptr := map_to_list M ≫= fun pr => inorder (er_tree pr.2).

Lemma core_tree g M p r :
  db_core g M -> M !! p = Some r ->
  NoDup (inorder (er_tree r)) /\ length (inorder (er_tree r)) = members (a_val (er_rec r)) /\
  forall i, i ∈ inorder (er_tree r) ->
    is_Some (trees (zs g) !! i) /\ is_Some (znodes (zs g) !! i) /\ is_Some (zdata (zs g) !! i).
Proof.
  intros Hc Hp. destruct (core_data _ _ Hc p r Hp) as (e & _ & _ & Hv).
  destruct (a_val (er_rec r)) as [s|l]; cbn [members].
  - destruct Hv as (_ & _ & ->). split; [constructor|]. split; [done|]. intros i Hi. by apply elem_of_nil in Hi.
  - destruct Hv as (_ & Hr & Hl). pose proof (zr_tree _ _ _ Hr) as Ht. split; [apply Ht|]. split.
    + apply zview_length in Hl. unfold tsize, zlen in Hl. lia.
    + intros i Hi. destruct (zt_live _ _ _ Ht i Hi) as (d & Hd & _), (zr_hash _ _ _ Hr i Hi) as (n & Hn & _).
      split_and!; [by eapply tree_rep_dom, Hi; apply Ht|by exists n|by exists d].
Qed.

Lemma set_nodes_spec g M :
  db_core g M -> NoDup (set_nodes M) /\ dom (trees (zs g)) = list_to_set (set_nodes M) /\
    dom (znodes (zs g)) = list_to_set (set_nodes M) /\ dom (zdata (zs g)) = list_to_set (set_nodes M).
Proof.
  intros Hc. split.
  { apply NoDup_bind; [|intros [p r] Hr%elem_of_map_to_list; by eapply core_tree|apply NoDup_map_to_list].
    intros [p r] [q r'] i Hp%elem_of_map_to_list Hq%elem_of_map_to_list Hi Hi'. cbn in *.
    destruct (decide (p = q)) as [->|Hne]; [congruence|]. by destruct (core_disj _ _ Hc p q r r' i). }
  assert (Hin : forall i, i ∈ set_nodes M -> is_Some (trees (zs g) !! i) /\ is_Some (znodes (zs g) !! i) /\ is_Some (zdata (zs g) !! i)).
  { intros i ([p r] & Hi & Hp%elem_of_map_to_list)%list_elem_of_bind. by eapply (core_tree g M p r). }
  assert (Hout : forall i, ~ znew (zs g) i -> i ∈ set_nodes M).
  { intros i (p & r & Hp & Hi)%(core_live _ _ Hc). apply list_elem_of_bind. exists (p, r).
    split; [done|by apply elem_of_map_to_list]. }
  split_and!; apply set_eq; intros i; rewrite elem_of_list_to_set, elem_of_dom; (split; [|apply Hin]);
    intros [x Hx]; apply Hout; intros (? & ? & ?); congruence.
Qed.

Lemma length_set_nodes g (l : list (ptr * erec)) M :
  db_core g M -> (forall pr, pr ∈ l -> M !! pr.1 = Some pr.2) ->
  length (l ≫= fun pr => inorder (er_tree pr.2)) = sum_list ((fun pr => members (a_val (er_rec pr.2))) <$> l).
Proof.
  intros Hc. induction l as [|[p r] l IH]; intros Hl; [done|]. rewrite bind_cons, length_app, fmap_cons. cbn.
  rewrite IH by (intros; apply Hl; set_solver).
  destruct (core_tree g M p r Hc) as (_ & -> & _); [apply (Hl (p, r)); set_solver|done].
Qed.

Lemma sum_list_perm (l k : list nat) : l ≡ₚ k -> sum_list l = sum_list k.
Proof. induction 1; cbn; lia. Qed.

Lemma members_count g M D : db_core g M -> abs M D -> size (zdata (zs g)) = needed_members D.
Proof.
  intros Hc Ha. destruct (set_nodes_spec g M Hc) as (Hn & _ & _ & Hd). rewrite <- size_dom, Hd, size_list_to_set by done.
  unfold set_nodes. rewrite (length_set_nodes g _ M Hc) by (intros [p r] Hr; by apply elem_of_map_to_list in Hr).
  unfold needed_members. rewrite (sum_list_perm _ _ (fmap_Permutation _ _ _ (abs_list g M D Hc Ha))).
  by rewrite <- list_fmap_compose.
Qed.

Lemma entries_count g M D : db_core g M -> abs M D -> size M = size D.
Proof.
  intros Hc Ha. pose proof (Permutation_length (abs_list g M D Hc Ha)) as H.
  by rewrite length_fmap, !length_map_to_list in H.
Qed.

(** An array that is not one of the table's would be among the others. *)
Lemma table_arrays m hm X : hm_rep m hm X -> others m hm = ∅ -> dom (hm_arrays m) = own_arrays hm.
Proof.
  intros Hm Hot. apply set_eq. intros a. rewrite elem_of_dom. split; [|by eapply own_live].
  intros [t Ht]. destruct (decide (a ∈ own_arrays hm)) as [|Hno]; [done|].
  rewrite <- others_lookup with (hm := hm) in Ht by done. by rewrite Hot, lookup_empty in Ht.
Qed.

Lemma db_accounted g D : db_rep g D -> accounted g D.
Proof.
  intros (M & [Hc Hm Hot] & Ha). pose proof (entries_count g M D Hc Ha) as Hs.
  destruct (set_nodes_spec g M Hc) as (_ & Ht & Hh & Hd). pose proof (core_owns _ _ Hc) as Hown.
  split; rewrite ?(core_nodes _ _ Hc), ?(core_ents _ _ Hc), ?(core_idx _ _ Hc), ?Ht, ?Hh, ?Hd; try done.
  - by rewrite <- size_dom, (core_ents _ _ Hc), size_dom.
  - by rewrite (hm_size_spec _ _ _ Hm), size_dom, Hs.
  - by apply (timers_count g M).
  - by apply (members_count g M).
  - by apply (table_arrays _ _ (dom M)).
  - intros a. rewrite elem_of_dom. split; [apply Hown|]. intros (p & e & Hp & He). by apply (ow_live _ _ Hown p e).
  - apply Hown.
Qed.

(** ** The connections *)

(** The connections that have a descriptor. *)
Definition registered (s : server) : list ptr := omap id (fd2conn s).

Lemma omap_id_nodup (tbl : list (option ptr)) :
  (forall i j p, tbl !! i = Some (Some p) -> tbl !! j = Some (Some p) -> i = j) -> NoDup (omap id tbl).
Proof.
  induction tbl as [|x tbl IH]; intros Hi; [constructor|].
  assert (Ht : NoDup (omap id tbl)) by (apply IH; intros i j p H1 H2; injection (Hi (S i) (S j) p H1 H2); done).
  destruct x as [p|]; [|done]. cbn. apply NoDup_cons. split; [|done].
  intros (y & Hy & E)%list_elem_of_omap. cbn in E. subst y. apply list_elem_of_lookup in Hy as [i Hp].
  discriminate (Hi 0%nat (S i) p eq_refl Hp).
Qed.

Lemma registered_all t s D l :
  srv_core t s D l -> NoDup (registered s) /\ list_to_set (registered s) = dom (conns s).
Proof.
  intros Hc. split.
  - apply omap_id_nodup. intros i j p Hi Hj. rewrite <- arr_get_nat in Hi, Hj.
    destruct (sc_conn _ _ _ _ Hc _ _ Hi) as (c & Hp & E), (sc_conn _ _ _ _ Hc _ _ Hj) as (c' & Hp' & E').
    rewrite Hp in Hp'. injection Hp' as <-. lia.
  - apply set_eq. intros p. rewrite elem_of_list_to_set, elem_of_dom. unfold registered. rewrite list_elem_of_omap. split.
    + intros (y & [i Hy]%list_elem_of_lookup & E). cbn in E. subst y. rewrite <- arr_get_nat in Hy.
      destruct (sc_conn _ _ _ _ Hc _ _ Hy) as (c & Hp & _). by exists c.
    + intros [c Hp]. exists (Some p). split; [|done]. pose proof (sc_slot _ _ _ _ Hc p c Hp) as Hs.
      unfold arr_get in Hs. case_decide; [|done]. by eapply list_elem_of_lookup_2.
Qed.

(** A connection is its object, its node in the idle list, its slot, and its
    descriptor: of all the descriptors that were accepted, those not closed are
    the connections', and none was used or closed after it was closed. *)
Record conns_accounted (s : server) : Prop := {
  ca_idle : size (idle s) = S (size (conns s));
  ca_slots : length (registered s) = size (conns s);
  ca_fds : exists o, fds_after (calls s) ∅ = Some o /\ size o = size (conns s) /\
    forall n, n ∈ o <-> exists p c, conns s !! p = Some c /\ fd c = n
}.

(** Distinct connections have distinct descriptors. *)
Lemma fds_size t s D l (o : gset Z) :
  srv_core t s D l -> (forall n, n ∈ o <-> exists p c, conns s !! p = Some c /\ fd c = n) -> size o = size (conns s).
Proof.
  intros Hc Ho. rewrite <- length_map_to_list, <- (length_fmap (fun pc => fd pc.2)).
  rewrite <- (size_list_to_set (C := gset Z)).
  - apply f_equal, set_eq. intros n. rewrite Ho, elem_of_list_to_set, list_elem_of_fmap. split.
    + intros (p & c & Hp & <-). exists (p, c). split; [done|by apply elem_of_map_to_list].
    + intros ([p c] & -> & Hp%elem_of_map_to_list). by exists p, c.
  - apply NoDup_fmap_2_strong; [|apply NoDup_map_to_list].
    intros [p c] [q c'] Hp%elem_of_map_to_list Hq%elem_of_map_to_list E. cbn in E.
    pose proof (sc_slot _ _ _ _ Hc p c Hp) as H1. pose proof (sc_slot _ _ _ _ Hc q c' Hq) as H2. congruence.
Qed.

Lemma server_accounted t s D l : srv_core t s D l -> accounted (gd s) D /\ conns_accounted s.
Proof.
  intros Hc. split; [apply db_accounted, Hc|]. destruct (registered_all t s D l Hc) as [Hn Hr]. split.
  - rewrite <- size_dom, (sc_idle _ _ _ _ Hc), size_union, size_singleton, size_dom; [done|].
    intros p ->%elem_of_singleton [c Hp]%elem_of_dom. assert (Hin : idle_list ∈ l) by (apply (sc_live _ _ _ _ Hc); by exists c).
    pose proof (sc_ring _ _ _ _ Hc) as [_ Hn']. by apply NoDup_cons in Hn' as [? _].
  - rewrite <- size_dom, <- Hr. symmetry. by apply size_list_to_set.
  - destruct (sc_open _ _ _ _ Hc) as (o & E & Ho). exists o. split_and!; [done|by eapply fds_size|done].
Qed.
