(* ===== verification/Expiration.v ===== *)
(** * Expiration over time: an idle server forgets every expired key

    One iteration expires at most 2001 keys; here the iterations are put
    together.  While no client sends anything, the database only loses expired
    keys, and after enough iterations none is left. *)

From S2P Require Import Prelude Common Wire Server Spec ServerProofs EventLoop Calls Framing EventLoopProofs.
Local Open Scope Z_scope.

Implicit Types (D : adb) (c : Conn) (s : server) (l : list ptr).

(** ** Iterations without input *)

Lemma served_silent clock D c xs D1 c' : conn_ok c -> received xs = [] -> served clock D c xs D1 c' -> D1 = D.
Proof.
  intros Hc Hx (cmds & bad & vs & outs & Hst & Hr & _). rewrite Hx, app_nil_r in Hst.
  assert (cmds = []) as ->; [|by inversion Hr].
  inversion Hst as [| |? ? ? ? ? ? E]; [done|done|]. by rewrite (ok_incoming _ Hc) in E.
Qed.

Lemma turns_silent D xs D1 :
  turns D xs D1 -> (forall x, x ∈ xs -> conn_ok (tn_before x) /\ ev_in (tn_event x) = false) -> D1 = D.
Proof.
  induction 1 as [|D x D1 xs D2 Hcs Hs _ IH]; intros Hx; [done|]. destruct (Hx x) as [Hc Hi]; [set_solver|].
  apply io_calls_received in Hcs. unfold event_data in Hcs. rewrite Hi in Hcs. apply served_silent in Hs as ->; [|done..]. apply IH. intros y Hy. apply Hx. set_solver.
Qed.

Definition no_input (evs : list conn_event) : Prop := forall ev, ev ∈ evs -> ev_in ev = false.

Lemma silent_iteration t s D l t0 acc evs now :
  srv_inv t s D l -> iteration_ok t s acc evs now -> no_input evs -> room_for (zlen evs * read_budget) D ->
  exists s' D' l', loop_iteration s t0 acc evs now = Some s' /\ srv_inv now s' D' l' /\
    expires now (k_max_works + 1) D D'.
Proof.
  intros Hinv Hit Hq Hroom. destruct (loop_iteration_spec t s D l t0 acc evs now Hinv Hit Hroom)
    as (s' & D1 & D' & l' & xs & ns & E & Hinv' & Hxe & Hxs & Ht & Hex & _).
  exists s', D', l'. split_and!; [done..|]. rewrite (turns_silent D xs D1) in Hex; [done|done|].
  intros x Hx. split.
  - apply (proj1 (Forall_forall _ _) Hxs) in Hx as [Hc _]. by apply (proj2 Hinv) in Hc.
  - apply Hq. rewrite <- Hxe. apply list_elem_of_fmap. by exists x.
Qed.

(** [n] iterations that end at [T] or later, during which no client sends
    anything; clients may connect, receive, and disconnect. *)
Inductive silent_run (T : Z) : nat -> Z -> server -> server -> Prop :=
  | silent_nil t s : silent_run T 0 t s s
  | silent_cons n t s t0 acc evs now s1 s2 :
      iteration_ok t s acc evs now -> no_input evs -> T <= now ->
      (forall D, db_rep (gd s) D -> room_for (zlen evs * read_budget) D) ->
      loop_iteration s t0 acc evs now = Some s1 ->
      silent_run T n now s1 s2 -> silent_run T (S n) t s s2.

(** ** Progress *)

Lemma expired_mono T now r : T <= now -> expired T r = true -> expired now r = true.
Proof. unfold expired. destruct (a_ttl r); [rewrite !Z.ltb_lt; lia|done]. Qed.

Lemma unexpired_mono T now D : T <= now -> all_unexpired now D -> all_unexpired T D.
Proof.
  intros Ht Hu k r Hk. destruct (expired T r) eqn:E; [|done].
  pose proof (Hu k r Hk) as Hn. by rewrite (expired_mono T now r Ht E) in Hn.
Qed.

Lemma unexpired_sub T D D' : D' ⊆ D -> all_unexpired T D -> all_unexpired T D'.
Proof. intros Hs Hu k r Hk. apply (Hu k). by eapply lookup_weaken. Qed.

(** What a silent run has done: it removed keys that carry a time only, and
    expired all that were due, or 2001 in each iteration. *)
Record forgets (T : Z) (n : nat) D D' : Prop := {
  fg_sub : D' ⊆ D;
  fg_keep : forall k r, D !! k = Some r -> a_ttl r = None -> D' !! k = Some r;
  fg_work : all_unexpired T D' \/ Z.of_nat (size D') + Z.of_nat n * (k_max_works + 1) <= Z.of_nat (size D)
}.

Lemma forgets_step T n now D D1 D2 :
  T <= now -> expires now (k_max_works + 1) D D1 -> forgets T n D1 D2 -> forgets T (S n) D D2.
Proof.
  intros Ht [Hs Ho Hm Hst] [Hs2 Hk2 Hw2]. split.
  - by etransitivity.
  - intros k r Hk Hr. apply Hk2; [|done]. destruct (D1 !! k) as [r'|] eqn:E.
    + pose proof (lookup_weaken _ _ _ _ E Hs) as E'. congruence.
    + pose proof (Ho k r Hk E) as Hx. unfold expired in Hx. by rewrite Hr in Hx.
  - destruct Hst as [Hu|Hu]; [left; apply (unexpired_sub T D1 D2 Hs2); by eapply unexpired_mono|].
    destruct Hw2 as [?|Hw2]; [by left|right]. lia.
Qed.

Lemma silent_run_forgets T n t s s' :
  silent_run T n t s s' -> forall D l, srv_inv t s D l ->
  exists t' D' l', srv_inv t' s' D' l' /\ forgets T n D D'.
Proof.
  induction 1 as [t s|n t s t0 acc evs now s1 s2 Hit Hq Ht Hroom E _ IH]; intros D l Hinv.
  - exists t, D, l. split; [done|]. split; [done|done|right; lia].
  - destruct (silent_iteration t s D l t0 acc evs now Hinv Hit Hq) as (s1' & D1 & l1 & E1 & Hinv1 & Hex);
      [apply Hroom, (sc_db _ _ _ _ (proj1 Hinv))|]. rewrite E in E1. injection E1 as <-.
    destruct (IH D1 l1 Hinv1) as (t' & D' & l' & Hinv' & Hf). exists t', D', l'. split; [done|]. by eapply forgets_step.
Qed.

(** Enough iterations leave nothing expired. *)
Lemma forgets_all T n D D' :
  forgets T n D D' -> Z.of_nat (size D) <= Z.of_nat n * (k_max_works + 1) -> all_unexpired T D'.
Proof.
  intros [_ _ [Hu|Hw]] Hn; [done|]. assert (size D' = 0%nat) as Hz by lia.
  apply map_size_empty_iff in Hz as ->. intros k r Hk. by rewrite lookup_empty in Hk.
Qed.
