(* ===== verification/ProcessProofs.v ===== *)
(** * The process of the server: never undefined, dead only when the system fails

    [iter_ok] is what the operating system promises for one iteration, in terms
    of the raw results of its calls; [main_iteration] is then [loop_iteration],
    or stops with the message of the call that failed.  A whole run is a run of
    the service. *)

From S2P Require Import Prelude Common DList Wire Client Server Spec ServerProofs EventLoop Process Calls Framing EventLoopProofs Service ServiceProofs.
Local Open Scope Z_scope.

Implicit Types (D : adb) (c : Conn) (s : server) (l : list ptr) (io : os_iter) (S : gmap Z session).

(** ** The clock *)

(** A time the clock can give: below 2^53 seconds, 285 million years. *)
Definition ts_ok (tv : timespec) : Prop := 0 <= tv_sec tv < 2 ^ 53 /\ 0 <= tv_nsec tv < 10 ^ 9.

Definition ts_le (a b : timespec) : Prop :=
  tv_sec a < tv_sec b \/ tv_sec a = tv_sec b /\ tv_nsec a <= tv_nsec b.

Lemma msec_value tv : ts_ok tv -> get_monotonic_msec tv = tv_sec tv * 1000 + tv_nsec tv / 10 ^ 6.
Proof.
  intros [Hs Hn]. unfold get_monotonic_msec. rewrite !Z.quot_div_nonneg by (try apply Z.quot_pos; lia).
  rewrite Zdiv.Zdiv_Zdiv by lia. change (1000 * 1000) with (10 ^ 6).
  assert (0 <= tv_nsec tv / 10 ^ 6 < 1000) by (split; [apply Z.div_pos|apply Z.div_lt_upper_bound]; lia).
  unfold u64. rewrite (Z.mod_small (tv_sec tv)), (Z.mod_small (tv_sec tv * 1000)), (Z.mod_small (_ / _)), Z.mod_small; lia.
Qed.

Lemma msec_range tv : ts_ok tv -> 0 <= get_monotonic_msec tv < 2 ^ 63.
Proof.
  intros H. rewrite msec_value by done. destruct H as [Hs Hn].
  assert (0 <= tv_nsec tv / 10 ^ 6 < 1000) by (split; [apply Z.div_pos|apply Z.div_lt_upper_bound]; lia). lia.
Qed.

Lemma msec_mono a b : ts_ok a -> ts_ok b -> ts_le a b -> get_monotonic_msec a <= get_monotonic_msec b.
Proof.
  intros Ha Hb Hle. rewrite !msec_value by done. destruct Ha as [Ha Hna], Hb as [Hb Hnb].
  assert (forall n, 0 <= n < 10 ^ 9 -> 0 <= n / 10 ^ 6 < 1000)
    by (intros; split; [apply Z.div_pos|apply Z.div_lt_upper_bound]; lia).
  pose proof (H _ Hna). pose proof (H _ Hnb). destruct Hle as [|[-> Hn]]; [lia|].
  pose proof (Z.div_le_mono _ _ (10 ^ 6) ltac:(lia) Hn). lia.
Qed.

Lemma msec_sorted ts :
  Forall ts_ok ts -> StronglySorted ts_le ts -> StronglySorted Z.le (map get_monotonic_msec ts).
Proof.
  induction 2 as [|tv ts _ IH Hle]; [constructor|]. apply Forall_cons in H as [Htv Hts]. cbn. constructor; [by apply IH|].
  apply Forall_forall. intros z [x [-> Hx]]%list_elem_of_fmap.
  apply msec_mono; [done|by apply (proj1 (Forall_forall _ _) Hts)|by apply (proj1 (Forall_forall _ _) Hle)].
Qed.

(** ** New connections *)

Definition set_nb_ok (a : accept_call) : bool :=
  ((ac_getfl a).2 =? 0) && (ac_setfl a (Z.lor (ac_getfl a).1 O_NONBLOCK) =? 0).

Lemma fd_set_nb_spec a :
  fd_set_nb (ac_getfl a) (ac_setfl a) =
    (if set_nb_ok a then Done (Z.lor (ac_getfl a).1 O_NONBLOCK) else Died msg_fcntl).
Proof.
  unfold fd_set_nb, set_nb_ok. destruct (ac_getfl a) as [flags errno]. cbn [fst snd].
  destruct (errno =? 0); [|done]. cbn [andb negb die_if]. by destruct (ac_setfl a _ =? 0).
Qed.

Lemma lift_bind {A B} (o : option A) (f : A -> option B) : lift (x ← o; f x) = (x ← lift o; lift (f x)).
Proof. by destruct o. Qed.

Lemma accept_ready_spec a s :
  accept_ready a s =
    if ac_fd a <? 0 then Done s
    else if set_nb_ok a then lift (accept_conn (get_monotonic_msec (ac_time a)) (ac_fd a) s)
    else Died msg_fcntl.
Proof.
  unfold accept_ready, accept_client. destruct (ac_fd a <? 0); [done|]. rewrite fd_set_nb_spec.
  destruct (set_nb_ok a); [|done]. unfold accept_conn, handle_accept.
  destruct (dlist_insert_before _ _ _) as [m|]; [|done]. cbn -[register_conn insert fresh].
  rewrite lookup_insert_eq. cbn -[register_conn insert fresh]. by destruct (register_conn _ _ _).
Qed.

(** ** One iteration *)

(** The connection that is accepted, and when. *)
Definition accepting io : bool := negb (os_listen io =? 0) && (0 <=? ac_fd (os_accept io)).
Definition accepted io : option (Z * Z) :=
  if accepting io then Some (get_monotonic_msec (ac_time (os_accept io)), ac_fd (os_accept io)) else None.

Definition poll_fails io : bool := ((os_poll io).1 <? 0) && negb ((os_poll io).2 =? EINTR).
Definition accept_fails io : bool := accepting io && negb (set_nb_ok (os_accept io)).

Lemma accept_branch s io :
  (if os_listen io =? 0 then Done s else accept_ready (os_accept io) s) =
    if accept_fails io then Died msg_fcntl
    else lift (match accepted io with Some (t, n) => accept_conn t n s | None => Some s end).
Proof.
  unfold accept_fails, accepted, accepting. rewrite accept_ready_spec, Z.ltb_antisym.
  destruct (os_listen io =? 0), (0 <=? _), (set_nb_ok _); reflexivity.
Qed.

Lemma map_conn_pollfd (args : list (Z * bool * bool)) : map fst (map conn_pollfd args) = map (fun a => a.1.1) args.
Proof. induction args as [|[[n r] w] args IH]; [done|]. cbn [map]. by rewrite IH. Qed.

(** What an iteration is, in terms of [loop_iteration]. *)
Lemma main_iteration_spec listen_fd s io args ms :
  poll_args s = Some args -> next_timer_ms (get_monotonic_msec (os_t0 io)) s = Some ms ->
  main_iteration listen_fd s io =
    if interrupted (os_poll io) then Done s
    else if poll_fails io then Died msg_poll
    else if accept_fails io then Died msg_fcntl
    else lift (loop_iteration s (get_monotonic_msec (os_t0 io)) (accepted io) (map conn_event_of (os_conns io))
      (get_monotonic_msec (os_now io))).
Proof.
  intros Ea Et. unfold main_iteration, main_poll_args, loop_iteration. rewrite Ea, !bind_Some_l, Et, bind_Some_l.
  cbn [lift mbind outcome_bind tail]. unfold interrupted, poll_fails.
  destruct ((os_poll io).1 <? 0); cbn [andb]; [by destruct ((os_poll io).2 =? EINTR)|].
  cbn [die_if]. rewrite accept_branch, map_conn_pollfd. destruct (accept_fails io); [done|].
  by rewrite lift_bind; destruct (lift _); cbn [mbind outcome_bind]; rewrite ?lift_bind.
Qed.

(** ** What the operating system promises *)

(** For a polled connection: it reports what was asked, and [read] and [write]
    transfer at most what they are given. *)
Record os_event_ok (events : Z) (e : os_event) : Prop := {
  oe_asked : forall bit, bit ∈ [POLLIN; POLLOUT] -> has_flag (oe_revents e) bit = true -> has_flag events bit = true;
  oe_read_fits : (oe_read e).1.1 <= 64 * 1024;
  oe_read_write_fits : forall n, 0 <= (oe_read_write e n).1 -> (oe_read_write e n).1 <= n;
  oe_write_fits : forall n, 0 <= (oe_write e n).1 -> (oe_write e n).1 <= n
}.

(** The readings of the clock, from [t]. *)
Definition readings (t : timespec) io : list timespec :=
  t :: (if accepting io then [ac_time (os_accept io)] else []) ++ map oe_time (os_conns io) ++ [os_now io].

(** For an iteration, once [poll] has returned: a new descriptor is not in use;
    the database is within the limits of memory. *)
Record polled_ok (t : timespec) s io : Prop := {
  po_accept : accepting io = true -> forall p c, conns s !! p = Some c -> fd c <> ac_fd (os_accept io);
  po_events : forall args, poll_args s = Some args ->
    Forall2 (fun a => os_event_ok (conn_pollfd a).2) args (os_conns io);
  po_clock : Forall ts_ok (readings t io) /\ StronglySorted ts_le (readings t io);
  po_room : forall D, db_rep (gd s) D -> room_for (zlen (os_conns io) * read_budget) D
}.

Definition iter_ok (t : timespec) s io : Prop := 0 <= (os_poll io).1 -> polled_ok t s io.

Lemma write_result_ok (f : Z -> Z * Z) : (forall n, 0 <= (f n).1 -> (f n).1 <= n) -> write_ok (fun n => write_result (f n)).
Proof.
  intros Hf n k. unfold write_result. specialize (Hf n). destruct (f n) as [rv e]. cbn in Hf.
  destruct (Z.ltb_spec rv 0); cbn [andb]; [by destruct (e =? EAGAIN)|]. intros [= <-]. lia.
Qed.

Lemma read_result_ok call : call.1.1 <= 64 * 1024 -> read_ok (read_result call).
Proof.
  destruct call as [[rv e] buf]. cbn. intros Hrv data. unfold read_result.
  destruct (Z.ltb_spec rv 0); cbn [andb]; [by destruct (e =? EAGAIN)|]. intros [= <-].
  unfold zlen. rewrite length_take. lia.
Qed.

Lemma conn_pollfd_flags (a : Z * bool * bool) :
  has_flag (conn_pollfd a).2 POLLIN = a.1.2 /\ has_flag (conn_pollfd a).2 POLLOUT = a.2.
Proof. by destruct a as [[n []] []]. Qed.

Lemma os_event_poll (a : Z * bool * bool) e : os_event_ok (conn_pollfd a).2 e -> poll_ok a (conn_event_of e).
Proof.
  intros [Hask Hr Hrw Hw]. destruct (conn_pollfd_flags a) as [Hi Ho]. split_and!; cbn.
  - rewrite <- Hi. apply Hask. set_solver.
  - rewrite <- Ho. apply Hask. set_solver.
  - by apply read_result_ok.
  - by apply write_result_ok.
  - by apply write_result_ok.
Qed.

Lemma polled_iteration t s io :
  polled_ok t s io ->
  iteration_ok (get_monotonic_msec t) s (accepted io) (map conn_event_of (os_conns io)) (get_monotonic_msec (os_now io)).
Proof.
  intros [Hacc Hev [Hok Hsort] _]. pose proof (msec_sorted _ Hok Hsort) as Hms. unfold readings in *.
  pose proof (msec_range t ltac:(by inversion Hok)) as Ht.
  assert (Hn : ts_ok (os_now io)) by (apply (proj1 (Forall_forall _ _) Hok); set_solver).
  apply msec_range in Hn. rewrite map_cons, !map_app, map_map in Hms. unfold accepted. split.
  - intros ta n. destruct (accepting io) eqn:Ea; [|done]. intros [= <- <-]. split_and!; [|unfold accepting in Ea; lia|by apply Hacc].
    cbn [map app] in Hms. by apply StronglySorted_inv in Hms as [_ [? _]%Forall_cons].
  - intros args E. apply Forall2_fmap_r. eapply Forall2_impl; [exact (Hev args E)|]. intros a e. apply os_event_poll.
  - rewrite map_map. destruct (accepting io); [|exact Hms]. cbn [map app from_option fst] in *.
    by apply StronglySorted_inv in Hms as [? _].
  - unfold k_idle_timeout_ms. lia.
Qed.

(** ** The whole run *)

(** When an iteration ends: an interrupted [poll] reads no clock. *)
Definition end_time (t : timespec) io : timespec := if (os_poll io).1 <? 0 then t else os_now io.

(** The promises along a run that starts in [s] at time [t]. *)
Fixpoint os_ok (listen_fd : Z) (t : timespec) s (ios : list os_iter) : Prop :=
  match ios with
  | [] => True
  | io :: ios => iter_ok t s io /\
      forall s', main_iteration listen_fd s io = Done s' -> os_ok listen_fd (end_time t io) s' ios
  end.

(** A call of an iteration that makes the server [die], and its message. *)
Definition iter_fails io (msg : list byte) : Prop :=
  poll_fails io = true /\ msg = msg_poll \/ accept_fails io = true /\ msg = msg_fcntl.

Definition start_fails (st : os_start) (msg : list byte) : Prop :=
  st_socket st < 0 /\ msg = msg_socket \/ st_bind st <> 0 /\ msg = msg_bind \/ st_listen st <> 0 /\ msg = msg_listen.

(** What the clients send during an iteration, and during a run. *)
Definition iter_inputs s io : list (Z * Buffer) :=
  if (os_poll io).1 <? 0 then [] else iteration_inputs s (map conn_event_of (os_conns io)).

Fixpoint main_inputs (listen_fd : Z) s (ios : list os_iter) : list (Z * Buffer) :=
  match ios with
  | [] => []
  | io :: ios => iter_inputs s io ++
      match main_iteration listen_fd s io with Done s' => main_inputs listen_fd s' ios | _ => [] end
  end.

(** One iteration: it goes on, in a state that satisfies the invariant, and has
    done steps of the service; or it stops because a call failed. *)
Lemma main_iteration_safe listen_fd t s D l S io :
  srv_inv (get_monotonic_msec t) s D l -> sessions_rep s S -> iter_ok t s io ->
  match main_iteration listen_fd s io with
  | Done s' => exists D' l' S' xs, srv_inv (get_monotonic_msec (end_time t io)) s' D' l' /\ sessions_rep s' S' /\
      steps (mkService D S) xs (mkService D' S') /\ performs s s' xs /\ inputs xs = iter_inputs s io
  | Died msg => iter_fails io msg
  | Undefined => False
  end.
Proof.
  intros Hinv Hr Hok. destruct (poll_args_spec _ _ _ _ (proj1 Hinv)) as (args & Ea & _).
  destruct (next_timer_total _ (get_monotonic_msec (os_t0 io)) s D l (proj1 Hinv)) as [ms Et].
  rewrite (main_iteration_spec listen_fd s io args ms Ea Et). unfold interrupted, end_time, iter_inputs.
  destruct (poll_fails io) eqn:Ep.
  { unfold poll_fails in Ep. apply andb_true_iff in Ep as Hp. destruct Hp as [-> He].
    apply negb_true_iff in He as ->. cbn [andb]. by left. }
  destruct (Z.ltb_spec (os_poll io).1 0) as [Hp|Hp]; cbn [andb].
  - assert ((os_poll io).2 =? EINTR = true) as ->; [|exists D, l, S, []; split_and!; [done|done|constructor|by apply performs_nil|done]].
    unfold poll_fails in Ep. apply Z.ltb_lt in Hp. rewrite Hp in Ep. by destruct (_ =? EINTR).
  - destruct (accept_fails io) eqn:Eacc; [by right|]. specialize (Hok Hp).
    destruct (iteration_refines _ s D l (get_monotonic_msec (os_t0 io)) _ _ _ S Hinv (polled_iteration _ _ _ Hok))
      as (s' & D' & l' & S' & xs & E & Hinv' & Hr' & Hx & Hpf & Hi); [|done|rewrite E; cbn [lift]; by exists D', l', S', xs].
    unfold zlen. rewrite length_map. apply (po_room _ _ _ Hok), (sc_db _ _ _ _ (proj1 Hinv)).
Qed.

Lemma main_loop_safe listen_fd ios : forall t s D l S,
  srv_inv (get_monotonic_msec t) s D l -> sessions_rep s S -> os_ok listen_fd t s ios ->
  match main_loop listen_fd s ios with
  | Done s' => exists t' D' l' S' xs, srv_inv t' s' D' l' /\ sessions_rep s' S' /\
      steps (mkService D S) xs (mkService D' S') /\ performs s s' xs /\ inputs xs = main_inputs listen_fd s ios
  | Died msg => exists io, io ∈ ios /\ iter_fails io msg
  | Undefined => False
  end.
Proof.
  induction ios as [|io ios IH]; intros t s D l S Hinv Hr Hos; cbn [main_loop main_inputs os_ok] in *.
  { exists (get_monotonic_msec t), D, l, S, []. split_and!; [done|done|constructor|by apply performs_nil|done]. }
  destruct Hos as [Hok Hos]. pose proof (main_iteration_safe listen_fd t s D l S io Hinv Hr Hok) as Hit.
  destruct (main_iteration listen_fd s io) as [s1|msg|]; cbn [mbind outcome_bind]; [| |done].
  - destruct Hit as (D1 & l1 & S1 & xs1 & Hinv1 & Hr1 & Hx1 & Hpf1 & Hi1). specialize (IH _ s1 D1 l1 S1 Hinv1 Hr1 (Hos s1 eq_refl)).
    destruct (main_loop _ _ _); [| |done].
    + destruct IH as (t' & D' & l' & S' & xs & Hinv' & Hr' & Hx & Hpf & Hi). exists t', D', l', S', (xs1 ++ xs).
      split_and!; [done|done|by eapply steps_app|by eapply performs_app|by rewrite inputs_app, Hi1, Hi].
    + destruct IH as (io' & Hin & Hf). exists io'. split; [set_solver|done].
  - exists io. split; [set_solver|done].
Qed.

Lemma main_start_spec st :
  exists s, server_init = Some s /\ srv_inv 0 s ∅ [] /\
    match main_start st with
    | Done (listen_fd, s') => s' = s /\ listen_fd = st_socket st
    | Died msg => start_fails st msg
    | Undefined => False
    end.
Proof.
  destruct (server_init_spec 0) as (s & E & Hinv). exists s. split; [done|]. split; [done|].
  unfold main_start, start_fails. rewrite E. cbn [lift mbind outcome_bind]. unfold die_if.
  destruct (Z.ltb_spec (st_socket st) 0); [by left|]. cbn [mbind outcome_bind].
  destruct (Z.eqb_spec (st_bind st) 0); cbn [negb mbind outcome_bind]; [|by right; left].
  destruct (Z.eqb_spec (st_listen st) 0); cbn [negb mbind outcome_bind]; [done|by right; right].
Qed.

Lemma init_calls s : server_init = Some s -> calls s = [].
Proof. unfold server_init. by intros (m & _ & [= <-])%bind_Some. Qed.

(** The clock when the server starts. *)
Definition boot : timespec := mkTimespec 0 0.

(** What the operating system promises for a whole run. *)
Definition run_ok (st : os_start) (ios : list os_iter) : Prop :=
  forall s, server_init = Some s -> os_ok (st_socket st) boot s ios.

Definition server_inputs (st : os_start) (ios : list os_iter) : list (Z * Buffer) :=
  match main_start st with Done (listen_fd, s) => main_inputs listen_fd s ios | _ => [] end.

Lemma server_main_spec st ios :
  run_ok st ios ->
  match server_main st ios with
  | Done s => exists t D l S xs, srv_inv t s D l /\ sessions_rep s S /\
      steps service_init xs (mkService D S) /\ external xs = acts_of (calls s) /\ inputs xs = server_inputs st ios
  | Died msg => start_fails st msg \/ exists io, io ∈ ios /\ iter_fails io msg
  | Undefined => False
  end.
Proof.
  intros Hok. destruct (main_start_spec st) as (s & E & Hinv & Hst). unfold server_main, server_inputs.
  destruct (main_start st) as [[listen_fd s']|msg|]; cbn [mbind outcome_bind]; [|by left|done].
  destruct Hst as [-> ->].
  pose proof (main_loop_safe (st_socket st) ios boot s ∅ [] ∅ Hinv (sessions_init s E) (Hok s E)) as H.
  destruct (main_loop _ _ _) as [s1| |]; [|by right|done].
  destruct H as (t & D & l & S & xs & H1 & H2 & H3 & (cs & Hcs & Hx) & H4). exists t, D, l, S, xs. split_and!; try done.
  rewrite Hx, Hcs. by rewrite (init_calls s E).
Qed.
