(* ===== verification/EndToEnd.v ===== *)
(** * A query, from the client's [send_req] to its [read_res]

    client.cpp writes a request, server.cpp answers it, client.cpp reads and
    prints the reply; the bytes may be cut anywhere by the sockets, in both
    directions, and the reply may be of any size. *)

From S2P Require Import Prelude Common Wire Client Server Spec ServerProofs EventLoop Calls Framing EventLoopProofs.
Local Open Scope Z_scope.

(** ** The bytes the client writes *)

(** The calls of [write] make progress until the whole buffer is written. *)
Definition writes_all (rvs : list Z) (buf : list byte) : Prop :=
  Forall (fun rv => 0 < rv) rvs /\ foldr Z.add 0 rvs = zlen buf.

Lemma send_req_frame cmd rvs :
  body_len cmd <= Client.k_max_msg -> writes_all rvs (enc_frame cmd) ->
  send_req cmd rvs = Some (0, enc_frame cmd, []).
Proof.
  intros Hb [Hp Hs]. assert (Hk : Client.k_max_msg = 4096) by done.
  unfold send_req. rewrite send_req_buf_spec by lia.
  destruct (Z.ltb_spec Client.k_max_msg (body_len cmd)); [lia|]. rewrite bind_Some_l, <- zlen_enc_req.
  by apply write_all_total.
Qed.

(** ** The bytes the client reads *)

Lemma read_full_chunks bs : forall rest,
  Forall (fun b => b <> []) bs ->
  read_full (zlen (concat bs)) (map Some bs ++ rest) = Some (0, false, concat bs, rest).
Proof.
  induction bs as [|b bs IH]; intros rest Hne; [by destruct rest as [|[|]]|].
  apply Forall_cons in Hne as [Hb Hne]. destruct b as [|x b]; [done|].
  change (concat ((x :: b) :: bs)) with ((x :: b) ++ concat bs).
  change (map Some ((x :: b) :: bs) ++ rest) with (Some (x :: b) :: (map Some bs ++ rest)). cbn [read_full].
  rewrite zlen_app. pose proof (zlen_nonneg (concat bs)). pose proof (zlen_nonneg b).
  assert (Hx : zlen (x :: b) = zlen b + 1) by apply zlen_cons.
  destruct (Z.leb_spec (zlen (x :: b) + zlen (concat bs)) 0); [lia|].
  rewrite option_guard_True by lia.
  replace (zlen (x :: b) + zlen (concat bs) - zlen (x :: b)) with (zlen (concat bs)) by lia.
  by rewrite IH.
Qed.

(** The reply as the sockets deliver it: [read] never returns more than it is
    asked for, so no piece straddles the end of the header. *)
Definition delivered (bytes : list byte) (hs bs : list (list byte)) : Prop :=
  Forall (fun b => b <> []) hs /\ Forall (fun b => b <> []) bs /\
  concat hs = take 4 bytes /\ concat bs = drop 4 bytes.

(** The client reads the header. *)
Lemma read_header (body : list byte) hs bs :
  delivered (le_enc 4 (zlen body) ++ body) hs bs -> zlen body < 2 ^ 32 ->
  Forall (fun b => b <> []) bs /\ concat bs = body /\
  read_full 4 (map Some hs ++ map Some bs) = Some (0, false, le_enc 4 (zlen body), map Some bs) /\
  fetch (le_enc 4 (zlen body)) 0 4 = Some (zlen body).
Proof.
  intros (Hhs & Hbs & Eh & Eb) Hl.
  rewrite take_app_length' in Eh by (by rewrite length_le_enc).
  rewrite drop_app_length' in Eb by (by rewrite length_le_enc). split; [done|]. split; [done|].
  pose proof (read_full_chunks hs (map Some bs) Hhs) as R1. rewrite Eh, zlen_le_enc in R1. split; [exact R1|].
  rewrite <- (app_nil_r (le_enc 4 (zlen body))), <- (app_nil_l (le_enc 4 _ ++ [])).
  change 0 with (zlen (@nil byte)) at 1. rewrite fetch_enc. pose proof (zlen_nonneg body).
  by rewrite Z.mod_small by (cbn; lia).
Qed.

Lemma read_res_value v hs bs :
  value_ok v -> zlen (encode v) <= Client.k_max_msg ->
  delivered (le_enc 4 (zlen (encode v)) ++ encode v) hs bs ->
  read_res (map Some hs ++ map Some bs) = Some (zlen (encode v), map shown (events v)).
Proof.
  intros Hv Hl Hd. assert (Client.k_max_msg = 4096) as Hk by done.
  destruct (read_header _ _ _ Hd) as (Hbs & Eb & R1 & Ef); [lia|].
  unfold read_res. rewrite R1, bind_Some_l. cbn [negb Z.eqb]. rewrite Ef, bind_Some_l.
  destruct (Z.ltb_spec Client.k_max_msg (zlen (encode v))); [lia|].
  pose proof (read_full_chunks bs [] Hbs) as R2. rewrite Eb, app_nil_r in R2. rewrite R2, bind_Some_l. cbn [negb Z.eqb].
  pose proof (print_response_encode v (print_fuel (encode v)) [] Hv) as Hp. rewrite app_nil_r in Hp.
  rewrite Hp, bind_Some_l by (unfold print_fuel; lia). pose proof (zlen_nonneg (encode v)).
  rewrite u32_small, (Z.eqb_refl (zlen (encode v))) by lia. cbn [negb]. by rewrite andb_false_r, prints_shown.
Qed.

Lemma read_res_long body hs bs :
  Client.k_max_msg < zlen body < 2 ^ 32 -> delivered (le_enc 4 (zlen body) ++ body) hs bs ->
  read_res (map Some hs ++ map Some bs) = Some (-1, [EvMsg msg_long]).
Proof.
  intros Hl Hd. destruct (read_header _ _ _ Hd) as (Hbs & Eb & R1 & Ef); [lia|].
  unfold read_res. rewrite R1, bind_Some_l. cbn [negb Z.eqb]. rewrite Ef, bind_Some_l.
  by rewrite (proj2 (Z.ltb_lt _ _)) by lia.
Qed.

(** What the client prints for a reply, by its size: the value; above the limit
    of the client, a refusal; above the limit of the server, the error the server
    sends instead. *)
Definition query_prints (v : value) : list event :=
  if EventLoop.k_max_msg <? zlen (encode v) then map shown (events (VErr ERR_TOO_BIG msg_too_big))
  else if Client.k_max_msg <? zlen (encode v) then [EvMsg msg_long]
  else map shown (events v).

Lemma read_res_frame v hs bs :
  value_ok v -> delivered (frame (encode v)) hs bs ->
  exists rv, read_res (map Some hs ++ map Some bs) = Some (rv, query_prints v).
Proof.
  intros Hv Hd. assert (Client.k_max_msg = 4096) as Hk by done. assert (EventLoop.k_max_msg = 33554432) as Hk2 by done.
  unfold query_prints, frame in *. destruct (Z.ltb_spec EventLoop.k_max_msg (zlen (encode v))).
  - eexists. by apply read_res_value.
  - destruct (Z.ltb_spec Client.k_max_msg (zlen (encode v))).
    + eexists. by apply (read_res_long (encode v)); [lia|].
    + eexists. by apply read_res_value.
Qed.

(** ** The replies have codes in range *)

Lemma zvalues_ok l : value_ok (VArr (zvalues l)).
Proof. cbn [value_ok]. induction l as [|t l IH]; cbn; [done|]. by split_and!. Qed.

Lemma spec_reply_ok now D c v : spec_reply now D c v -> value_ok v.
Proof.
  destruct c as [k|k w|k| |k sc nm|k nm|k nm|k sc nm off lim|k ttl|k|]; cbn [spec_reply spec_cmd snd].
  - intros ->. by destruct (D !! k) as [[[s|l] t]|].
  - intros ->. by destruct (D !! k) as [[[s|l] t]|].
  - by intros ->.
  - intros (ks & -> & _). cbn. by induction ks.
  - intros ->. destruct (Numeric.str2dbl sc); [|done]. by destruct (D !! k) as [[[s|l] t]|].
  - intros ->. by destruct (D !! k) as [[[s|l] t]|].
  - intros ->. destruct (get_zset D k) as [l|]; [|done]. by destruct (zfind nm l).
  - intros ->. destruct (Numeric.str2dbl sc); [|done].
    destruct (Numeric.str2int off); [|done]. destruct (Numeric.str2int lim); [|done].
    destruct (get_zset D k) as [l|]; [|done]. apply zvalues_ok.
  - intros ->. destruct (Numeric.str2int ttl); [|done]. by destruct (D !! k).
  - by intros ->.
  - by intros ->.
Qed.

(** ** The whole query *)

(** The connection of the client, between two requests. *)
Definition conn_ready c : Prop := incoming c = [] /\ outgoing c = [] /\ want_close c = false.

Lemma zlen_concat_le (x : list byte) l : x ∈ l -> zlen x <= zlen (concat l).
Proof.
  induction 1 as [x l|x y l _ IH]; cbn [concat]; rewrite zlen_app; pose proof (zlen_nonneg (concat l)); [lia|].
  pose proof (zlen_nonneg y). lia.
Qed.

(** A piece of the request: its bytes, when they are read, and the system's
    answers to the [write] that may follow. *)
Record arrival := mkArrival { ar_data : list byte; ar_now : Z; ar_write : Z -> io_write }.

(** The reads of the pieces, one after the other. *)
Fixpoint handle_reads (g : gdata) (c : Conn) (ps : list arrival) : option (gdata * Conn * list sys_call) :=
  match ps with
  | [] => Some (g, c, [])
  | p :: ps =>
      '(g, c, xs) ← handle_read (fun _ => ar_now p) g c (ReadData (ar_data p)) (ar_write p);
      '(g, c, ys) ← handle_reads g c ps;
      Some (g, c, xs ++ ys)
  end.

(** A piece that completes no request is kept. *)
Lemma handle_read_partial clock g c data write :
  data <> [] -> zlen data <= 64 * 1024 -> outgoing c = [] -> take_frame (incoming c ++ data) = Partial ->
  handle_read clock g c (ReadData data) write = Some (g, receive data c, [CallRead (fd c) (ReadData data)]).
Proof.
  intros Hne Hl Ho Hp. unfold handle_read. destruct data as [|b data]; [done|]. rewrite option_guard_True by done.
  fold (receive (b :: data) c). cbn [request_loop]. rewrite try_one_request_frame.
  change (incoming (receive (b :: data) c)) with (incoming c ++ b :: data). rewrite Hp, bind_Some_l.
  cbv beta iota. rewrite bind_Some_l. change (outgoing (receive (b :: data) c)) with (outgoing c). by rewrite Ho.
Qed.

(** The piece that completes the request is answered. *)
Lemma handle_read_last now g D c data write cmd :
  db_rep g D -> db_room D -> data <> [] -> zlen data <= 64 * 1024 -> outgoing c = [] -> write_ok write ->
  take_frame (incoming c ++ data) = Req cmd [] ->
  exists g' c' v ws, handle_read (fun _ => now) g c (ReadData data) write = Some (g', c', CallRead (fd c) (ReadData data) :: ws) /\
    db_rep g' (spec_cmd now D (decode_cmd cmd)).1 /\ spec_reply now D (decode_cmd cmd) v /\
    incoming c' = [] /\ received ws = [] /\ sent v (written ws ++ outgoing c').
Proof.
  intros Hr Hroom Hne Hl Ho Hw E. unfold handle_read. destruct data as [|b data]; [done|].
  rewrite option_guard_True by done. fold (receive (b :: data) c).
  destruct (answer_one now g D (receive (b :: data) c) cmd [] Hr Hroom E) as (g' & v & o & E1 & Hr' & Hv & Hs).
  assert (exists n, length (incoming (receive (b :: data) c)) = S n) as [n Hn].
  { change (incoming (receive (b :: data) c)) with (incoming c ++ b :: data). rewrite length_app. cbn. exists (length (incoming c) + length data)%nat. lia. }
  rewrite Hn. cbn [request_loop]. rewrite E1, bind_Some_l, try_one_request_frame. cbn [incoming set_incoming].
  change (take_frame []) with Partial. cbv beta iota. rewrite !bind_Some_l. cbn [outgoing set_incoming set_outgoing receive].
  rewrite Ho, app_nil_l. rewrite (proj2 (Z.ltb_lt _ _)) by (destruct Hs as [Hne' _]; destruct o; [done|unfold zlen; cbn; lia]).
  edestruct (handle_write_spec (set_want false true (set_incoming [] (set_outgoing o (receive (b :: data) c)))) write)
    as (c' & E2 & _ & Hi & Hout & _); [by apply Hs|done|].
  cbn [receive set_incoming set_outgoing] in E2. cbn [receive set_incoming set_outgoing].
  rewrite E2, bind_Some_l. eexists g', c', v, _. split; [done|].
  split_and!; [done|done|done|done|]. cbn [outgoing set_want set_incoming set_outgoing receive] in Hout. by rewrite <- Hout.
Qed.

(** A proper prefix of a message completes nothing. *)
Lemma take_frame_prefix buf more cmd : take_frame (buf ++ more) = Req cmd [] -> more <> [] -> take_frame buf = Partial.
Proof.
  intros E Hne. pose proof (take_frame_app buf more) as H. destruct (take_frame buf) as [| |c rest]; [done|congruence|].
  rewrite E in H. injection H as _ H. symmetry in H. by apply app_eq_nil in H as [_ ?].
Qed.

Lemma handle_reads_query ps : forall p g D c cmd,
  db_rep g D -> db_room D -> outgoing c = [] -> want_close c = false -> write_ok (ar_write p) ->
  Forall (fun a => ar_data a <> [] /\ zlen (ar_data a) <= 64 * 1024) (ps ++ [p]) ->
  take_frame (incoming c ++ concat (map ar_data (ps ++ [p]))) = Req cmd [] ->
  exists g' c' xs v, handle_reads g c (ps ++ [p]) = Some (g', c', xs) /\
    db_rep g' (spec_cmd (ar_now p) D (decode_cmd cmd)).1 /\ spec_reply (ar_now p) D (decode_cmd cmd) v /\
    incoming c' = [] /\ received xs = concat (map ar_data (ps ++ [p])) /\ sent v (written xs ++ outgoing c').
Proof.
  induction ps as [|q ps IH]; intros p g D c cmd Hr Hroom Ho Hc Hw Hps E; cbn [app map concat handle_reads] in *;
    apply Forall_cons in Hps as [[Hne Hl] Hps].
  - rewrite app_nil_r in *. destruct (handle_read_last (ar_now p) g D c _ _ cmd Hr Hroom Hne Hl Ho Hw E)
      as (g' & c' & v & ws & E1 & Hr' & Hv & Hi & Hws & Hs).
    rewrite E1, !bind_Some_l. rewrite app_nil_r. eexists g', c', _, v. split; [done|]. split_and!; [done..| |done].
    cbn [received flat_map call_received]. fold (received ws). by rewrite Hws, app_nil_r.
  - assert (Hmore : concat (map ar_data (ps ++ [p])) <> []).
    { rewrite map_app, concat_app. cbn. rewrite app_nil_r. apply Forall_app in Hps as [_ [[Hp _] _]%Forall_cons].
      intros H. by apply app_eq_nil in H as [_ ?]. }
    rewrite app_assoc in E. rewrite handle_read_partial by (done || by eapply take_frame_prefix). rewrite bind_Some_l.
    destruct (IH p g D (receive (ar_data q) c) cmd) as (g' & c' & xs & v & E1 & Hr' & Hv & Hi & Hx & Hs); [done..|].
    rewrite E1, bind_Some_l. eexists g', c', _, v. split; [done|]. split_and!; [done..| |done].
    cbn [app received flat_map call_received]. fold (received xs). by rewrite Hx.
Qed.
