(* ===== verification/Benchmark.v ===== *)
(** * benchmark.cpp: the requests it sends and the bytes it waits for

    [run_benchmark] writes a buffer of pipelined requests and reads until a
    number of bytes computed from the size of one reply has come.  The sizes are
    right: they are those of the replies the server gives to these requests. *)

From Stdlib Require Import (notations) String.
From S2P Require Import Prelude Common Numeric Wire Client Server Spec ZsetProofs EventLoop Framing EndToEnd.
Local Open Scope Z_scope.

(** ** The loops of [run_benchmark] *)

(** [while (written < write_buf.size())] over the results of [write]; [false]
    after a write error. *)
Fixpoint bench_write (size written : Z) (rvs : list Z) : option bool :=
  if written <? size then
    match rvs with
    | [] => None
    | rv :: rvs => if rv <=? 0 then Some false else bench_write size (written + rv) rvs
    end
  else Some true.

(** [while (total_read < expected_response_bytes)] over the results of [read];
    a read error ends the loop. *)
Fixpoint bench_read (expected total_read : Z) (rvs : list Z) : option Z :=
  if total_read <? expected then
    match rvs with
    | [] => None
    | rv :: rvs => if rv <=? 0 then Some total_read else bench_read expected (total_read + rv) rvs
    end
  else Some total_read.

(** The number of bytes read, unless a write failed. *)
Definition run_benchmark (write_buf : list byte) (expected : Z) (wr rd : list Z) : option (option Z) :=
  ok ← bench_write (zlen write_buf) 0 wr;
  if (ok : bool) then n ← bench_read expected 0 rd; Some (Some n) else Some None.

(** ** The requests of [main] *)

Definition to_string (i : Z) : list byte := dec_text i.

Definition txt_key : list byte := String.list_byte_of_string "key_".
Definition txt_value : list byte := String.list_byte_of_string "bench_value".
Definition txt_leaderboard : list byte := String.list_byte_of_string "leaderboard".
Definition txt_point : list byte := String.list_byte_of_string ".0".
Definition txt_player : list byte := String.list_byte_of_string "player_".

Definition bench_key (i : Z) : list byte := txt_key ++ to_string i.
Definition bench_player (i : Z) : list byte := txt_player ++ to_string i.

Definition bench_set (i : Z) : command := [cmd_set; bench_key i; txt_value].
Definition bench_get (i : Z) : command := [cmd_get; bench_key i].
Definition bench_zadd (i : Z) : command :=
  [cmd_zadd; txt_leaderboard; to_string i ++ txt_point; bench_player i].

Definition num_requests : Z := 100000.

(** [for (int i = 0; i < num_requests; i++) pack_command(buf, ...)] *)
Definition bench_buf (request : Z -> command) (n : Z) : list byte :=
  foldl (fun buf i => pack_command buf (request i)) [] (seqZ 0 n).

(** The sizes of the replies the comments compute. *)
Definition set_reply_bytes : Z := 5.
Definition get_reply_bytes : Z := 20.
Definition zadd_reply_bytes : Z := 13.

(** The three phases, each over the results of its [write]s and [read]s; a phase
    that fails does not stop the next one. *)
Definition bench_phases (n : Z) (io1 io2 io3 : list Z * list Z) : option (list (option Z)) :=
  r1 ← run_benchmark (bench_buf bench_set n) (n * set_reply_bytes) io1.1 io1.2;
  r2 ← run_benchmark (bench_buf bench_get n) (n * get_reply_bytes) io2.1 io2.2;
  r3 ← run_benchmark (bench_buf bench_zadd n) (n * zadd_reply_bytes) io3.1 io3.2;
  Some [r1; r2; r3].

(** [main], with the results of [socket] and [connect]: the exit status, what
    each phase has read, and the descriptors closed. *)
Definition bench_main (fd connect : Z) (io1 io2 io3 : list Z * list Z) : option (Z * list (option Z) * list Z) :=
  if negb (connect =? 0) then Some (1, [], [])                         (* Failed to connect *)
  else
    rs ← bench_phases num_requests io1 io2 io3;
    Some (0, rs, [fd]).                                                (* close(fd) *)

(** ** The loops *)

Lemma bench_write_all rvs : forall size written,
  Forall (fun rv => 0 < rv) rvs -> written + foldr Z.add 0 rvs = size -> bench_write size written rvs = Some true.
Proof.
  induction rvs as [|rv rvs IH]; intros size written Hp Hs; cbn [bench_write foldr] in *.
  - destruct (Z.ltb_spec written size); [lia|done].
  - apply Forall_cons in Hp as [Hrv Hp]. destruct (Z.ltb_spec written size); [|done].
    destruct (Z.leb_spec rv 0); [lia|]. apply IH; [done|lia].
Qed.

Lemma bench_read_all rvs : forall expected total,
  Forall (fun rv => 0 < rv) rvs -> total + foldr Z.add 0 rvs = expected ->
  bench_read expected total rvs = Some expected.
Proof.
  induction rvs as [|rv rvs IH]; intros expected total Hp Hs; cbn [bench_read foldr] in *.
  - destruct (Z.ltb_spec total expected); [lia|]. f_equal. lia.
  - apply Forall_cons in Hp as [Hrv Hp].
    assert (0 <= foldr Z.add 0 rvs) by (clear -Hp; induction Hp; cbn; lia).
    destruct (Z.ltb_spec total expected); [|f_equal; lia].
    destruct (Z.leb_spec rv 0); [lia|]. apply IH; [done|lia].
Qed.

Lemma bench_buf_frames request n : bench_buf request n = flat_map enc_frame (map request (seqZ 0 n)).
Proof.
  unfold bench_buf. generalize (seqZ 0 n). intros l.
  enough (forall b, foldl (fun buf i => pack_command buf (request i)) b l = b ++ flat_map enc_frame (map request l))
    as -> by done.
  induction l as [|i l IH]; intros b; cbn [foldl map flat_map]; [by rewrite app_nil_r|].
  rewrite IH, pack_command_spec, <- zlen_enc_req. unfold enc_frame at 2. by rewrite <- !app_assoc.
Qed.

(** ** The replies *)

Implicit Types (D : adb) (clock : nat -> Z).

(** Key [i] holds the benchmark's value. *)
Definition holds_value D (i : Z) : Prop := exists t, D !! bench_key i = Some (mkArec (AStr txt_value) t).

(** No key the benchmark sets is a sorted set. *)
Definition only_strings D : Prop :=
  forall i l t, D !! bench_key i <> Some (mkArec (AZset l) t).

Lemma runs_inv clock k D cmd cmds vs D' :
  runs clock k D (cmd :: cmds) vs D' ->
  exists v vs', vs = v :: vs' /\ spec_reply (clock k) D (decode_cmd cmd) v /\
    runs clock (S k) (spec_cmd (clock k) D (decode_cmd cmd)).1 cmds vs' D'.
Proof. intros H. inversion H; subst. eauto. Qed.

Lemma set_step now D i :
  only_strings D ->
  let r := spec_cmd now D (decode_cmd (bench_set i)) in
  r.2 = VNil /\ only_strings r.1 /\ holds_value r.1 i /\ (forall j, holds_value D j -> holds_value r.1 j) /\
  r.1 !! txt_leaderboard = D !! txt_leaderboard.
Proof.
  intros Hs. change (decode_cmd (bench_set i)) with (CSet (bench_key i) txt_value). cbn [spec_cmd].
  assert (Hput : forall t, let D' := <[bench_key i := mkArec (AStr txt_value) t]> D in
    only_strings D' /\ holds_value D' i /\ (forall j, holds_value D j -> holds_value D' j) /\
    D' !! txt_leaderboard = D !! txt_leaderboard).
  { intros t D'. subst D'. split_and!.
    - intros j l t' [[_ [=]]|[_ Hj]]%lookup_insert_Some. by apply (Hs j l t').
    - exists t. apply lookup_insert_eq.
    - intros j [t' Hj]. destruct (decide (bench_key i = bench_key j)) as [E|Hne].
      + exists t. rewrite E. apply lookup_insert_eq.
      + exists t'. by rewrite lookup_insert_ne.
    - apply lookup_insert_ne. discriminate. }
  destruct (D !! bench_key i) as [[[s|l] t]|] eqn:E; [|by apply Hs in E|]; cbn [fst snd]; (split; [done|apply Hput]).
Qed.

Lemma set_runs clock l : forall k D vs D',
  runs clock k D (map bench_set l) vs D' -> only_strings D ->
  vs = replicate (length l) VNil /\ D' !! txt_leaderboard = D !! txt_leaderboard /\
  forall i, i ∈ l \/ holds_value D i -> holds_value D' i.
Proof.
  induction l as [|i l IH]; intros k D vs D' Hr Hs; cbn [map] in Hr.
  - inversion Hr; subst. split_and!; [done|done|]. intros i [Hi|Hi]; [by apply elem_of_nil in Hi|done].
  - apply runs_inv in Hr as (v & vs' & -> & Hv & Hr). destruct (set_step (clock k) D i Hs) as (H1 & H2 & H3 & H4 & H5).
    destruct (IH _ _ _ _ Hr H2) as (-> & Hl & Hh). cbn [length replicate]. split_and!.
    + f_equal. change (decode_cmd (bench_set i)) with (CSet (bench_key i) txt_value) in *. cbn [spec_reply] in Hv. congruence.
    + congruence.
    + intros j [[->|Hj]%elem_of_cons|Hj]; apply Hh; [by right|by left|right; by apply H4].
Qed.

Lemma get_runs clock l : forall k D vs D',
  runs clock k D (map bench_get l) vs D' -> (forall i, i ∈ l -> holds_value D i) ->
  vs = replicate (length l) (VStr txt_value) /\ D' = D.
Proof.
  induction l as [|i l IH]; intros k D vs D' Hr Hh; cbn [map] in Hr.
  - by inversion Hr; subst.
  - apply runs_inv in Hr as (v & vs' & -> & Hv & Hr).
    change (decode_cmd (bench_get i)) with (CGet (bench_key i)) in *. cbn [spec_reply spec_cmd fst snd] in *.
    destruct (Hh i ltac:(set_solver)) as [t Ht]. rewrite Ht in Hv. subst v.
    destruct (IH _ _ _ _ Hr) as (-> & ->); [set_solver|]. done.
Qed.

(** No player of [l] is in the leaderboard, which is a sorted set if it exists. *)
Definition absent_players D (l : list Z) : Prop :=
  match D !! txt_leaderboard with
  | None => True
  | Some (mkArec (AZset zl) _) => forall i, i ∈ l -> bench_player i ∉ znames zl
  | Some (mkArec (AStr _) _) => False
  end.

Lemma bench_player_inj i j : 0 <= i -> 0 <= j -> bench_player i = bench_player j -> i = j.
Proof. unfold bench_player. intros Hi Hj E%app_inv_head. by apply dec_text_inj. Qed.

Lemma znames_zput x t l : x ∈ znames (zput t l) <-> x = t.2 \/ x ∈ znames l.
Proof.
  unfold znames. induction l as [|u l IH]; cbn [zput]; [by cbn; rewrite elem_of_cons|].
  destruct (tuple_ltb u t); rewrite ?fmap_cons, !elem_of_cons, ?IH; tauto.
Qed.

Lemma zadd_step now D i l :
  Forall (Z.le 0) (i :: l) -> NoDup (i :: l) -> absent_players D (i :: l) ->
  let r := spec_cmd now D (decode_cmd (bench_zadd i)) in r.2 = VInt 1 /\ absent_players r.1 l.
Proof.
  intros Hz Hnd Ha. change (decode_cmd (bench_zadd i)) with (CZadd txt_leaderboard (to_string i ++ txt_point) (bench_player i)).
  apply Forall_cons in Hz as [Hi Hl]. apply NoDup_cons in Hnd as [Hni _].
  cbn [spec_cmd]. unfold to_string. rewrite str2dbl_point_zero by done. unfold absent_players in Ha |- *.
  assert (Hput : forall sc zl j, bench_player i ∉ znames zl -> j ∈ l -> bench_player j ∉ znames zl ->
    bench_player j ∉ znames (zadd sc (bench_player i) zl)).
  { intros sc zl j Hzi Hj Hzj. unfold zadd. rewrite zfind_absent by done. rewrite znames_zput. intros [E|?]; [|done].
    cbn [snd] in E. apply bench_player_inj in E as ->; [done| |done]. by apply (proj1 (Forall_forall _ l) Hl). }
  destruct (D !! txt_leaderboard) as [[[s|zl] t]|] eqn:E; cbn [fst snd]; rewrite ?lookup_insert_eq; [done| |].
  - rewrite bool_decide_eq_true_2 by (apply Ha; set_solver). split; [done|]. intros j Hj. apply Hput; [|done|]; apply Ha; set_solver.
  - split; [done|]. intros j Hj. by apply Hput; [apply not_elem_of_nil| |apply not_elem_of_nil].
Qed.

Lemma zadd_runs clock l : forall k D vs D',
  runs clock k D (map bench_zadd l) vs D' -> Forall (Z.le 0) l -> NoDup l -> absent_players D l ->
  vs = replicate (length l) (VInt 1).
Proof.
  induction l as [|i l IH]; intros k D vs D' Hr Hz Hnd Ha; cbn [map] in Hr; [by inversion Hr; subst|].
  apply runs_inv in Hr as (v & vs' & -> & Hv & Hr). destruct (zadd_step (clock k) D i l Hz Hnd Ha) as [H1 H2].
  apply Forall_cons in Hz as [_ Hl]. apply NoDup_cons in Hnd as [_ Hnd].
  cbn [length replicate]. f_equal; [|by eapply IH].
  change (decode_cmd (bench_zadd i)) with (CZadd txt_leaderboard (to_string i ++ txt_point) (bench_player i)) in *.
  cbn [spec_reply] in Hv. congruence.
Qed.

(** ** The three phases *)

Definition bench_cmds (n : Z) : list command :=
  map bench_set (seqZ 0 n) ++ map bench_get (seqZ 0 n) ++ map bench_zadd (seqZ 0 n).

Lemma runs_app clock c1 c2 : forall k D vs D',
  runs clock k D (c1 ++ c2) vs D' ->
  exists v1 v2 D1 k', vs = v1 ++ v2 /\ runs clock k D c1 v1 D1 /\ runs clock k' D1 c2 v2 D'.
Proof.
  induction c1 as [|c c1 IH]; intros k D vs D' Hr; [by exists [], vs, D, k; split; [|split; [constructor|]]|].
  apply runs_inv in Hr as (v & vs' & -> & Hv & Hr). destruct (IH _ _ _ _ Hr) as (v1 & v2 & D1 & k' & -> & H1 & H2).
  exists (v :: v1), v2, D1, k'. split; [done|]. split; [by econstructor|done].
Qed.

Lemma bench_runs clock k D n vs D' :
  runs clock k D (bench_cmds n) vs D' -> only_strings D -> D !! txt_leaderboard = None ->
  vs = replicate (Z.to_nat n) VNil ++ replicate (Z.to_nat n) (VStr txt_value) ++ replicate (Z.to_nat n) (VInt 1).
Proof.
  intros Hr Hs Hb. apply runs_app in Hr as (v1 & v2 & D1 & k1 & -> & H1 & Hr).
  apply runs_app in Hr as (v3 & v4 & D2 & k2 & -> & H2 & H3).
  destruct (set_runs clock _ _ _ _ _ H1 Hs) as (-> & Hl & Hh).
  destruct (get_runs clock _ _ _ _ _ H2) as (-> & ->); [by intros; apply Hh; left|].
  rewrite (zadd_runs clock _ _ _ _ _ H3).
  - by rewrite length_seqZ.
  - apply Forall_forall. intros i Hi%elem_of_seqZ. lia.
  - apply NoDup_seqZ.
  - unfold absent_players. by rewrite Hl, Hb.
Qed.

(** The framed reply has the size the benchmark counts. *)
Lemma bench_reply_bytes v size m :
  zlen (frame (encode v)) = size -> zlen (flat_map (fun v => frame (encode v)) (replicate m v)) = Z.of_nat m * size.
Proof.
  intros <-. induction m as [|m IH]; [done|]. cbn [replicate flat_map]. rewrite zlen_app, IH. lia.
Qed.

(** The requests are far below the limits. *)
Lemma bench_sendable n : n <= 2 ^ 31 -> Forall sendable (bench_cmds n).
Proof.
  intros Hn. assert (Hlen : forall i, i ∈ seqZ 0 n -> 0 <= zlen (to_string i) <= 33).
  { intros i Hi%elem_of_seqZ. split; [apply zlen_nonneg|]. unfold to_string.
    pose proof (zlen_dec_text i ltac:(lia)). pose proof (Z.log2_le_mono i (2 ^ 31) ltac:(lia)) as Hl.
    rewrite Z.log2_pow2 in Hl by lia. lia. }
  assert (Hmap : forall request : Z -> command, (forall i, i ∈ seqZ 0 n -> sendable (request i)) ->
    Forall sendable (map request (seqZ 0 n))).
  { intros request H. apply Forall_forall. intros c [i [-> Hi]]%list_elem_of_fmap. auto. }
  unfold bench_cmds. rewrite !Forall_app. split_and!; apply Hmap; intros i Hi; specialize (Hlen i Hi);
    (split; [|done]); rewrite zlen_enc_req; unfold bench_set, bench_get, bench_zadd, bench_key, bench_player, body_len;
    cbn [foldr]; rewrite !zlen_app; change EventLoop.k_max_msg with 33554432;
    repeat match goal with |- context [zlen ?x] => let y := eval vm_compute in (zlen x) in
      match y with Z0 => idtac | Zpos _ => idtac end; change (zlen x) with y end; lia.
Qed.

(** All of [write_buf] is written and all of [replies] is read, in any pieces. *)
Definition transfers (write_buf replies : list byte) (io : list Z * list Z) : Prop :=
  Forall (fun rv => 0 < rv) io.1 /\ Forall (fun rv => 0 < rv) io.2 /\
  foldr Z.add 0 io.1 = zlen write_buf /\ foldr Z.add 0 io.2 = zlen replies.

(** A phase: the replies have the size the benchmark waits for, and the
    benchmark ends once they have all been delivered, in any pieces. *)
Definition phase_served (n : Z) (request : Z -> command) (size : Z) (replies : list byte) : Prop :=
  zlen replies = n * size /\
  forall io, transfers (bench_buf request n) replies io ->
    run_benchmark (bench_buf request n) (n * size) io.1 io.2 = Some (Some (zlen replies)).

Lemma phase_served_intro n request size v :
  0 <= n -> zlen (frame (encode v)) = size ->
  phase_served n request size (flat_map (fun v => frame (encode v)) (replicate (Z.to_nat n) v)).
Proof.
  intros Hn Hv. pose proof (bench_reply_bytes v size (Z.to_nat n) Hv) as Hb. rewrite Z2Nat.id in Hb by done.
  split; [done|]. intros [wr rd] (Hw & Hr & Ew & Er). cbn [fst snd] in *. unfold run_benchmark.
  rewrite (bench_write_all wr _ 0 Hw), bind_Some_l by lia. cbv iota.
  rewrite (bench_read_all rd (n * size) 0 Hr), bind_Some_l by lia. by rewrite Hb.
Qed.

(** The whole benchmark, when its phases are served: each of them ends with the
    bytes of its replies. *)
Definition bench_served (n : Z) (o1 o2 o3 : list byte) : Prop :=
  zlen o1 = n * set_reply_bytes /\ zlen o2 = n * get_reply_bytes /\ zlen o3 = n * zadd_reply_bytes /\
  forall io1 io2 io3,
    transfers (bench_buf bench_set n) o1 io1 -> transfers (bench_buf bench_get n) o2 io2 ->
    transfers (bench_buf bench_zadd n) o3 io3 ->
    let rs := [Some (zlen o1); Some (zlen o2); Some (zlen o3)] in
    bench_phases n io1 io2 io3 = Some rs /\ (n = num_requests -> forall fd, bench_main fd 0 io1 io2 io3 = Some (0, rs, [fd])).

Lemma bench_served_intro n o1 o2 o3 :
  phase_served n bench_set set_reply_bytes o1 -> phase_served n bench_get get_reply_bytes o2 ->
  phase_served n bench_zadd zadd_reply_bytes o3 -> bench_served n o1 o2 o3.
Proof.
  intros [E1 H1] [E2 H2] [E3 H3]. split; [done|]. split; [done|]. split; [done|].
  intros io1 io2 io3 T1 T2 T3 rs. assert (E : bench_phases n io1 io2 io3 = Some rs).
  { unfold bench_phases. by rewrite (H1 _ T1), bind_Some_l, (H2 _ T2), bind_Some_l, (H3 _ T3), bind_Some_l. }
  split; [done|]. intros -> fd. unfold bench_main. cbn [Z.eqb negb]. by rewrite E, bind_Some_l.
Qed.
