(* ===== verification/StructureTheorems.v ===== *)
(** * What the data structures promise

    The statements about avl.cpp, hashtable.cpp, heap.cpp, list.h and zset.cpp,
    each with an instance on a concrete state. *)

From S2P Require Import Prelude Avl AvlTree AvlProofs Hashtable HashtableProofs Heap HeapProofs DList Common Zset Wire Server Spec ZsetProofs ServerProofs.
Local Open Scope Z_scope.

(** Decides closed facts about concrete lists and stores. *)
Ltac by_compute := solve [vm_compute; repeat split; auto; intros; discriminate | vm_compute; repeat eexists].
Ltac by_decide := apply (bool_decide_unpack _); vm_compute; exact I.

(** ** AVL trees *)

(** Three nodes in a row, the first one not yet rebalanced. *)
Definition avl_row : amem :=
  <[1%positive := mkAVLNode NULL NULL (Some 2%positive) 1 1]>
  (<[2%positive := mkAVLNode (Some 1%positive) NULL (Some 3%positive) 2 2]>
  (<[3%positive := mkAVLNode (Some 2%positive) NULL NULL 1 1]> ∅)).

Definition avl_right : tree := Node Leaf 2%positive (Node Leaf 3%positive Leaf).

(** A balanced tree of three nodes. *)
Definition avl_three : amem :=
  <[2%positive := mkAVLNode NULL (Some 1%positive) (Some 3%positive) 2 3]>
  (<[1%positive := mkAVLNode (Some 2%positive) NULL NULL 1 1]>
  (<[3%positive := mkAVLNode (Some 2%positive) NULL NULL 1 1]> ∅)).

Definition avl_tree_three : tree :=
  Node (Node Leaf 1%positive Leaf) 2%positive (Node Leaf 3%positive Leaf).

(** C20: [avl_fix], called on a node whose subtrees may differ by two in
    height, repairs the heights and the counts up to the root and returns the
    new root of a balanced tree with the same nodes in the same order. *)
Theorem avl_fix_restores m c i l r :
  linked m i (ctx_par c) (root l) (root r) ->
  tree_rep m (Some i) l -> tree_rep m (Some i) r -> ctx_rep m c (Some i) ->
  NoDup (before c ++ inorder (Node l i r) ++ after c) ->
  tsize (plug c (Node l i r)) < 2 ^ 32 - 1 ->
  balanced l -> balanced r -> Z.abs (hgt l - hgt r) <= 2 ->
  (exists h, ctx_balanced h c /\ Z.abs (hgt (balance (Node l i r)) - h) <= 1) ->
  exists m' t, avl_fix m i = Some (m', root t) /\ tree_rep m' None t /\ balanced t /\
    inorder t = inorder (plug c (Node l i r)) /\ same_off (nodes (plug c (Node l i r))) m m'.
Proof.
  intros Hi Hl Hr Hc Hnd Hs Hbl Hbr Hd (h & Hbc & Hh).
  destruct (avl_fix_spec c m i l r Hi Hl Hr Hc Hnd Hs) as (m' & E & Hrep & Ho).
  exists m', (fix_up c (Node l i r)). split_and!; [done|done| |by apply inorder_fix_up|done].
  by apply (fix_up_balanced _ _ _ _ h).
Qed.

Lemma avl_fix_restores_witness :
  exists m' t, avl_fix avl_row 1%positive = Some (m', root t) /\ tree_rep m' None t /\ balanced t /\
    inorder t = [1; 2; 3]%positive /\ same_off (nodes (plug [] (Node Leaf 1%positive avl_right))) avl_row m'.
Proof.
  apply (avl_fix_restores avl_row [] 1%positive Leaf avl_right); try by_compute.
  - by_decide.
  - exists 2. by_compute.
Defined.

(** C21: [avl_del] removes exactly the node it is given, keeps the order of the
    others, and returns the root of a balanced tree. *)
Theorem avl_del_removes m t i :
  tree_rep m None t -> balanced t -> NoDup (inorder t) -> tsize t < 2 ^ 32 - 1 -> i ∈ inorder t ->
  exists m' t' a b, avl_del m i = Some (m', root t') /\ tree_rep m' None t' /\ balanced t' /\
    inorder t = a ++ i :: b /\ inorder t' = a ++ b /\ same_off (nodes t) m m'.
Proof.
  intros Hrep Hb Hnd Hs Hi. destruct (inorder_split t i Hi) as (c & l & r & ->).
  destruct (avl_del_spec m c l i r Hrep Hnd Hs) as (m' & E & Hrep' & Ho).
  exists m', (del_tree c l i r), (before c ++ inorder l), (inorder r ++ after c).
  split_and!; [done|done|by apply del_tree_balanced| | |done].
  - rewrite inorder_plug. cbn [inorder]. by rewrite <- !app_assoc.
  - rewrite (inorder_del_tree _ _ _ _ Hnd). by rewrite <- !app_assoc.
Qed.

Lemma avl_del_removes_witness :
  exists m' t' a b, avl_del avl_three 2%positive = Some (m', root t') /\ tree_rep m' None t' /\ balanced t' /\
    [1; 2; 3]%positive = a ++ 2%positive :: b /\ inorder t' = a ++ b /\ same_off (nodes avl_tree_three) avl_three m'.
Proof.
  apply (avl_del_removes avl_three avl_tree_three 2%positive); try by_compute; by_decide.
Defined.

(** C22: [avl_offset] moves by any signed number of positions in the order of
    the tree, and returns NULL outside of it. *)
Theorem avl_offset_moves m t k i off :
  tree_rep m None t -> NoDup (inorder t) -> tsize t < 2 ^ 32 - 1 -> inorder t !! k = Some i ->
  avl_offset m i off = Some (arr_get (inorder t) (Z.of_nat k + off)).
Proof.
  intros Hrep Hnd Hs Hk.
  destruct (inorder_split t i) as (c & l & r & ->); [by eapply list_elem_of_lookup_2|].
  rewrite (avl_offset_spec m c l i r off Hrep Hnd Hs). do 2 f_equal.
  assert (Hpos : inorder (plug c (Node l i r)) !! length (before c ++ inorder l) = Some i).
  { rewrite inorder_plug. cbn [inorder]. by rewrite <- (app_assoc (inorder l)), (app_assoc (before c)); cbn [app]; rewrite list_lookup_middle. }
  rewrite (NoDup_lookup _ _ _ _ Hnd Hk Hpos). rewrite length_app. unfold zlen, tsize. lia.
Qed.

Lemma avl_offset_moves_witness :
  avl_offset avl_three 1%positive 2 = Some (Some 3%positive) /\
  avl_offset avl_three 3%positive (-3) = Some None.
Proof.
  split; [apply (avl_offset_moves avl_three avl_tree_three 0 1%positive 2)|
    apply (avl_offset_moves avl_three avl_tree_three 2 3%positive (-3))];
    try by_compute; by_decide.
Defined.

(** ** Hash tables *)

(** Two nodes, not yet in a map. *)
Definition two_nodes : hmem :=
  mkHmem (<[1%positive := mkHNode NULL 7]> (<[2%positive := mkHNode NULL 9]> ∅)) ∅.

(** A map that holds both. *)
Lemma hm_two :
  exists m hm, hm_rep m hm {[1%positive; 2%positive]} /\ others m hm = ∅.
Proof.
  destruct (hm_insert_spec two_nodes hmap_null ∅ 2%positive (mkHNode NULL 9)) as (m1 & hm1 & _ & H1 & Hs1 & Ho1);
    [apply hm_rep_null|by_compute|set_solver|by_compute|].
  destruct (hm_insert_spec m1 hm1 ({[2%positive]} ∪ ∅) 1%positive (mkHNode NULL 7)) as (m2 & hm2 & _ & H2 & Hs2 & Ho2).
  - done.
  - rewrite (same_off_lookup _ _ _ _ (proj1 Hs1)); [by_compute|set_solver].
  - set_solver.
  - by_compute.
  - exists m2, hm2. rewrite (union_empty_r_L) in H2. split; [done|]. by rewrite Ho2, Ho1.
Qed.

(** The callback that accepts one node. *)
Definition accept_node (q : ptr) (p : ptr) : option bool := Some (bool_decide (p = q)).

Lemma accept_total m h q X : eq_total_on m h (accept_node q) X.
Proof. intros p n _ _ _. by exists (bool_decide (p = q)). Qed.

(** C16: on a map in any stage of rehashing [hm_lookup] returns a node of the
    map with the hash code that the callback accepts, and NULL only when there
    is none; the map keeps its nodes, and the arrays of other maps are left
    alone. *)
Theorem hm_lookup_correct m hm X h eq :
  hm_rep m hm X -> eq_total_on m h eq X ->
  exists m' hm' r, hm_lookup m hm h eq = Some (m', hm', r) /\ hm_rep m' hm' X /\ hstep X m m' /\
    others m' hm' = others m hm /\
    match r with
    | Some p => p ∈ X /\ hits m h eq p
    | None => forall p, p ∈ X -> ~ hits m h eq p
    end.
Proof. apply hm_lookup_spec. Qed.

Lemma hm_lookup_correct_witness :
  exists m hm, hm_rep m hm {[1%positive; 2%positive]} /\
  exists m' hm' r, hm_lookup m hm 7 (accept_node 1%positive) = Some (m', hm', r) /\
    hm_rep m' hm' {[1%positive; 2%positive]} /\ hstep {[1%positive; 2%positive]} m m' /\
    others m' hm' = others m hm /\
    match r with
    | Some p => p ∈ ({[1%positive; 2%positive]} : gset ptr) /\ hits m 7 (accept_node 1%positive) p
    | None => forall p, p ∈ ({[1%positive; 2%positive]} : gset ptr) -> ~ hits m 7 (accept_node 1%positive) p
    end.
Proof.
  destruct hm_two as (m & hm & Hr & _). exists m, hm. split; [done|].
  apply (hm_lookup_correct m hm _ 7 (accept_node 1%positive) Hr). apply accept_total.
Defined.

(** C17: [hm_insert] adds the node to the map, resizing when the load factor is
    reached, and never interrupts a rehashing in progress; it allocates arrays for
    this map only. *)
Theorem hm_insert_correct m hm X p n :
  hm_rep m hm X -> hm_nodes m !! p = Some n -> p ∉ X -> Z.of_nat (size X) + 1 < 2 ^ 60 ->
  exists m' hm', hm_insert m hm p = Some (m', hm') /\ hm_rep m' hm' ({[p]} ∪ X) /\
    hstep ({[p]} ∪ X) m m' /\ others m' hm' = others m hm /\ hm_size hm' = hm_size hm + 1.
Proof.
  intros Hr Hp Hn Hs. destruct (hm_insert_spec m hm X p n Hr Hp Hn Hs) as (m' & hm' & E & Hr' & Hst & Hot).
  exists m', hm'. split_and!; try done. rewrite (hm_size_spec _ _ _ Hr), (hm_size_spec _ _ _ Hr').
  rewrite size_union by set_solver. rewrite size_singleton. lia.
Qed.

Lemma hm_insert_correct_witness :
  exists m' hm', hm_insert two_nodes hmap_null 1%positive = Some (m', hm') /\
    hm_rep m' hm' ({[1%positive]} ∪ ∅) /\ hstep ({[1%positive]} ∪ ∅) two_nodes m' /\
    others m' hm' = others two_nodes hmap_null /\ hm_size hm' = hm_size hmap_null + 1.
Proof.
  apply (hm_insert_correct two_nodes hmap_null ∅ 1%positive (mkHNode NULL 7));
    [apply hm_rep_null|by_compute|set_solver|by_compute].
Defined.

(** C18: [hm_delete] removes one matching node from whichever table holds it,
    and nothing when no node matches; the arrays of other maps are left alone. *)
Theorem hm_delete_correct m hm X h eq :
  hm_rep m hm X -> eq_total_on m h eq X ->
  exists m' hm' r, hm_delete m hm h eq = Some (m', hm', r) /\ hstep X m m' /\
    others m' hm' = others m hm /\
    match r with
    | Some p => p ∈ X /\ hits m h eq p /\ hm_rep m' hm' (X ∖ {[p]})
    | None => (forall p, p ∈ X -> ~ hits m h eq p) /\ hm_rep m' hm' X
    end.
Proof. apply hm_delete_spec. Qed.

Lemma hm_delete_correct_witness :
  exists m hm, hm_rep m hm {[1%positive; 2%positive]} /\
  exists m' hm' r, hm_delete m hm 9 (accept_node 2%positive) = Some (m', hm', r) /\
    hstep {[1%positive; 2%positive]} m m' /\ others m' hm' = others m hm /\
    match r with
    | Some p => p ∈ ({[1%positive; 2%positive]} : gset ptr) /\ hits m 9 (accept_node 2%positive) p /\
        hm_rep m' hm' ({[1%positive; 2%positive]} ∖ {[p]})
    | None => (forall p, p ∈ ({[1%positive; 2%positive]} : gset ptr) -> ~ hits m 9 (accept_node 2%positive) p) /\
        hm_rep m' hm' {[1%positive; 2%positive]}
    end.
Proof.
  destruct hm_two as (m & hm & Hr & _). exists m, hm. split; [done|].
  apply (hm_delete_correct m hm _ 9 (accept_node 2%positive) Hr). apply accept_total.
Defined.

(** C19: one call of [hm_help_rehashing] moves at most 128 nodes from the older
    table to the newer one (all of them when fewer are left), loses none, and
    drops the older table, whose array is freed, once it is empty. *)
Theorem hm_help_rehashing_bounded m hm bn bo :
  hm_shape m hm bn bo ->
  exists m' hm' bn' bo', hm_help_rehashing m hm = Some (m', hm') /\ hm_shape m' hm' bn' bo' /\
    concat bn' ++ concat bo' ≡ₚ concat bn ++ concat bo /\
    zlen (concat bo') = zlen (concat bo) - Z.min 128 (zlen (concat bo)) /\
    (tab (older hm') = None <-> concat bo' = []) /\
    dom (hm_arrays m') = own_arrays hm' ∪ dom (others m hm).
Proof.
  intros Hs. destruct (hm_help_rehashing_spec m hm bn bo Hs)
    as (m' & hm' & bn' & bo' & E & Hs' & Hp & _ & Hz & Hd & _ & Ht & _ & Hot).
  exists m', hm', bn', bo'. split_and!; [done..| |].
  - rewrite Ht. split; [by intros ->|auto].
  - rewrite <- Hot. by eapply shape_arrays.
Qed.

Lemma hm_help_rehashing_bounded_witness :
  exists m hm bn bo, hm_shape m hm bn bo /\
  exists m' hm' bn' bo', hm_help_rehashing m hm = Some (m', hm') /\ hm_shape m' hm' bn' bo' /\
    concat bn' ++ concat bo' ≡ₚ concat bn ++ concat bo /\
    zlen (concat bo') = zlen (concat bo) - Z.min 128 (zlen (concat bo)) /\
    (tab (older hm') = None <-> concat bo' = []) /\
    dom (hm_arrays m') = own_arrays hm' ∪ dom (others m hm).
Proof.
  destruct hm_two as (m & hm & (bn & bo & Hs & _) & _). exists m, hm, bn, bo. split; [done|].
  by apply (hm_help_rehashing_bounded m hm bn bo).
Defined.

(** [hm_foreach] calls the callback on every node of the map once, until
    the callback says stop. *)
Theorem hm_foreach_visits {St} (f : ptr -> St -> option (bool * St)) m hm X s :
  hm_rep m hm X ->
  exists l, list_to_set l = X /\ NoDup l /\ hm_foreach f m hm s = snd <$> visit f l s.
Proof. apply hm_foreach_spec. Qed.

(** Counts the nodes. *)
Definition count_nodes (p : ptr) (n : Z) : option (bool * Z) := Some (true, n + 1).

Lemma hm_foreach_visits_witness :
  exists m hm, hm_rep m hm {[1%positive; 2%positive]} /\
  exists l, list_to_set l = ({[1%positive; 2%positive]} : gset ptr) /\ NoDup l /\
    hm_foreach count_nodes m hm 0 = snd <$> visit count_nodes l 0.
Proof.
  destruct hm_two as (m & hm & Hr & _). exists m, hm. split; [done|].
  by apply (hm_foreach_visits count_nodes m hm _ 0).
Defined.

(** ** The timer heap *)

Definition heap_three : list HeapItem :=
  [mkHeapItem 5 (Some 1%positive); mkHeapItem 9 (Some 2%positive); mkHeapItem 7 (Some 3%positive)].
Definition refs_three : refmem := <[1%positive := 0]> (<[2%positive := 1]> (<[3%positive := 2]>
  (<[4%positive := size_max]> ∅))).

Lemma heap_three_rep : heap_rep heap_three refs_three.
Proof.
  split; [|split; [split|by_compute]].
  - intros [|[|[|i]]] [H1 H2] _; [lia|by_compute|by_compute|cbn in H2; lia].
  - intros [|[|[|i]]] x Hx; [| | |done]; injection Hx as <-; do 2 eexists; by_compute.
  - by_decide.
Qed.

(** C27: after the item at a position is replaced, [heap_update] restores the
    heap: same items, every back reference right, and the root the least. *)
Theorem heap_update_restores a refs pos x t :
  heap_rep a refs -> a !! pos = Some x -> ref t = ref x ->
  exists a' refs', heap_update (<[pos := t]> a) refs (Z.of_nat pos) (zlen a) = Some (a', refs') /\
    heap_rep a' refs' /\ a' ≡ₚ <[pos := t]> a /\ dom refs' = dom refs /\
    forall y, y ∈ a' -> hv a' 0 <= val y.
Proof.
  intros Hrep Hx Ht. pose proof (lookup_lt_Some _ _ _ Hx) as Hpos. pose proof Hrep as (Hh & Hr & Hlen).
  destruct (hrefs_live _ _ _ Hr pos x Hx) as (p & v & Hp & Hv & _).
  destruct (heap_update_spec (<[pos:=t]> a) refs pos) as (a' & refs' & E & Hrep' & Hk & Hd & _).
  { apply heap_but_insert; [done|done|]. exists p. split_and!; [congruence|eauto|].
    intros i y Hi Hy. by eapply (hrefs_notin _ _ _ _ _ _ Hr Hx Hp). }
  rewrite zlen_insert in E. exists a', refs'. split_and!; [done..|].
  intros y [i Hi]%list_elem_of_lookup. rewrite <- (hv_lookup _ _ _ Hi).
  apply heap_ordered_min; [apply Hrep'|by eapply lookup_lt_Some].
Qed.

Lemma heap_update_restores_witness :
  exists a' refs', heap_update (<[0%nat := mkHeapItem 8 (Some 1%positive)]> heap_three) refs_three (Z.of_nat 0) (zlen heap_three)
      = Some (a', refs') /\
    heap_rep a' refs' /\ a' ≡ₚ <[0%nat := mkHeapItem 8 (Some 1%positive)]> heap_three /\
    dom refs' = dom refs_three /\ forall y, y ∈ a' -> hv a' 0 <= val y.
Proof.
  apply (heap_update_restores heap_three refs_three 0 (mkHeapItem 5 (Some 1%positive)) (mkHeapItem 8 (Some 1%positive)));
    [apply heap_three_rep|by_compute|by_compute].
Defined.

(** C28: [heap_delete] removes exactly the item at the position, keeps the heap,
    and leaves the references of the objects that are not in it alone. *)
Theorem heap_delete_removes a refs pos x :
  heap_rep a refs -> a !! pos = Some x ->
  exists a' refs', heap_delete a refs (Z.of_nat pos) = Some (a', refs') /\ heap_rep a' refs' /\
    a ≡ₚ x :: a' /\ dom refs' = dom refs /\ forall q, Some q ∉ ref <$> a' -> refs' !! q = refs !! q.
Proof. apply heap_delete_spec. Qed.

Lemma heap_delete_removes_witness :
  exists a' refs', heap_delete heap_three refs_three (Z.of_nat 1) = Some (a', refs') /\ heap_rep a' refs' /\
    heap_three ≡ₚ mkHeapItem 9 (Some 2%positive) :: a' /\ dom refs' = dom refs_three /\
    forall q, Some q ∉ ref <$> a' -> refs' !! q = refs_three !! q.
Proof. apply (heap_delete_removes heap_three refs_three 1); [apply heap_three_rep|by_compute]. Defined.

(** C29: [heap_upsert] with the [heap_idx] of an entry adds its timer when it
    has none and replaces it when it has one. *)
Theorem heap_upsert_sets a refs p t old :
  heap_rep a refs -> zlen a + 1 < 2 ^ 60 -> ref t = Some p ->
  match old with
  | None => refs !! p = Some size_max
  | Some x => x ∈ a /\ ref x = Some p
  end ->
  exists pos a' refs' rest, refs !! p = Some pos /\ heap_upsert a refs pos t = Some (a', refs') /\
    heap_rep a' refs' /\ a ≡ₚ (match old with None => rest | Some x => x :: rest end) /\ a' ≡ₚ t :: rest /\
    dom refs' = dom refs.
Proof.
  intros Hrep Hlen Hp Hold. destruct old as [x|].
  - destruct Hold as [[i Hi]%list_elem_of_lookup Hx]. exists (Z.of_nat i).
    destruct (heap_upsert_old a refs i t x Hrep Hi) as (a' & refs' & rest & E & Hrep' & H1 & H2 & Hd & _); [congruence|].
    exists a', refs', rest. split_and!; try done. by eapply refs_item_pos.
  - exists size_max. pose proof (no_item _ _ _ Hrep Hold) as Hno.
    destruct (heap_upsert_new a refs size_max t p Hrep Hlen) as (a' & refs' & E & Hrep' & H1 & Hd & _);
      [unfold size_max; lia|done|eauto|done|].
    exists a', refs', a. by split_and!.
Qed.

Lemma heap_upsert_sets_witness :
  exists pos a' refs' rest, refs_three !! 4%positive = Some pos /\
    heap_upsert heap_three refs_three pos (mkHeapItem 6 (Some 4%positive)) = Some (a', refs') /\
    heap_rep a' refs' /\ heap_three ≡ₚ rest /\ a' ≡ₚ mkHeapItem 6 (Some 4%positive) :: rest /\
    dom refs' = dom refs_three.
Proof.
  apply (heap_upsert_sets heap_three refs_three 4%positive (mkHeapItem 6 (Some 4%positive)) None);
    [apply heap_three_rep|by_compute..].
Defined.

(** ** The idle list *)

Definition ring_two : dmem :=
  <[1%positive := mkDNode (Some 2%positive) (Some 2%positive)]>
  (<[2%positive := mkDNode (Some 1%positive) (Some 1%positive)]>
  (<[3%positive := mkDNode NULL NULL]> ∅)).

Lemma ring_two_rep : ring ring_two 1%positive [2%positive].
Proof. split; [repeat constructor|by_decide]. Qed.

(** C30: [dlist_insert_before] the head of a ring appends the node, and
    [dlist_detach] then takes any node out, wherever it is. *)
Theorem dlist_insert_detach m h l r :
  ring m h l -> r ∉ h :: l -> is_Some (m !! r) ->
  exists m1, dlist_insert_before m h r = Some m1 /\ ring m1 h (l ++ [r]) /\
    forall l1 x l2, l ++ [r] = l1 ++ x :: l2 ->
      exists m2, dlist_detach m1 x = Some m2 /\ ring m2 h (l1 ++ l2) /\
        dlist_empty m2 h = Some (bool_decide (l1 ++ l2 = [])).
Proof.
  intros Hr Hn Hl. destruct (dlist_insert_spec m h l r Hr Hn Hl) as (m1 & E & Hr1 & _).
  exists m1. split_and!; [done..|]. intros l1 x l2 El. rewrite El in Hr1.
  destruct (dlist_detach_spec m1 h l1 x l2 Hr1) as (m2 & E2 & Hr2 & _).
  exists m2. split_and!; [done..|by apply dlist_empty_spec].
Qed.

Lemma dlist_insert_detach_witness :
  exists m1, dlist_insert_before ring_two 1%positive 3%positive = Some m1 /\
    ring m1 1%positive ([2%positive] ++ [3%positive]) /\
    forall l1 x l2, [2%positive] ++ [3%positive] = l1 ++ x :: l2 ->
      exists m2, dlist_detach m1 x = Some m2 /\ ring m2 1%positive (l1 ++ l2) /\
        dlist_empty m2 1%positive = Some (bool_decide (l1 ++ l2 = [])).
Proof.
  apply (dlist_insert_detach ring_two 1%positive [2%positive] 3%positive); [apply ring_two_rep|by_decide|].
  by exists (mkDNode NULL NULL).
Defined.

(** ** Sorted sets *)

Definition one_dbl : Z := 0x3FF0000000000000.
Definition two_dbl : Z := 0x4000000000000000.
Definition name_a : list byte := [Byte.x61].
Definition name_b : list byte := [Byte.x62].
Definition zstore_empty : zstore := mkZstore ∅ ∅ ∅.

(** A set of two tuples. *)
Lemma zset_two :
  exists z zs T, zset_rep z zs T /\ zview z (inorder T) = [(one_dbl, name_a); (two_dbl, name_b)].
Proof.
  destruct (zset_insert_spec zstore_empty zset_null Leaf name_b two_dbl)
    as (z1 & zs1 & T1 & X1 & _ & Hr1 & _ & _ & _ & _ & _ & Hv1); [apply zset_rep_null|by_compute..|].
  destruct (zset_insert_spec z1 zs1 T1 name_a one_dbl)
    as (z2 & zs2 & T2 & X2 & _ & Hr2 & _ & _ & _ & _ & _ & Hv2); [done|by_compute| |].
  - rewrite (zview_length _ _ _ Hv1). by_compute.
  - exists z2, zs2, T2. split; [done|]. rewrite Hv2, Hv1. by_compute.
Qed.

(** C12: [zset_insert] turns the sorted list of tuples into the one with the
    member added, or moved to its new score, reports whether it is new, and
    touches no node and no array outside the set. *)
Theorem zset_insert_correct z zs T nm sc :
  zset_rep z zs T -> dbl_isnan sc = false -> tsize T + 1 < 2 ^ 32 - 1 ->
  exists z' zs' T' X, zset_insert z zs nm sc =
      Some (z', zs', bool_decide (nm ∉ znames (zview z (inorder T)))) /\
    zset_rep z' zs' T' /\ zview z' (inorder T') = zadd sc nm (zview z (inorder T)) /\
    zkeep (X ∪ nodes T) z z' /\ zothers z' zs' = zothers z zs /\ (forall p, p ∈ X -> znew z p).
Proof.
  intros Hr Hsc Hs. destruct (zset_insert_spec z zs T nm sc Hr Hsc Hs)
    as (z' & zs' & T' & X & E & Hr' & Hk & Hot & Hn & _ & _ & Hv). by exists z', zs', T', X.
Qed.

Lemma zset_insert_correct_witness :
  exists z zs T, zset_rep z zs T /\ zview z (inorder T) = [(one_dbl, name_a); (two_dbl, name_b)] /\
  exists z' zs' T' X, zset_insert z zs name_b one_dbl =
      Some (z', zs', bool_decide (name_b ∉ znames (zview z (inorder T)))) /\
    zset_rep z' zs' T' /\ zview z' (inorder T') = zadd one_dbl name_b (zview z (inorder T)) /\
    zkeep (X ∪ nodes T) z z' /\ zothers z' zs' = zothers z zs /\ (forall p, p ∈ X -> znew z p).
Proof.
  destruct zset_two as (z & zs & T & Hr & Hv). exists z, zs, T. split; [done|]. split; [done|].
  apply (zset_insert_correct z zs T name_b one_dbl Hr); [by_compute|].
  rewrite (zview_length _ _ _ Hv). by_compute.
Defined.

(** C13: [zset_delete] removes exactly the tuple of the node and frees the node. *)
Theorem zset_delete_correct z zs T p :
  zset_rep z zs T -> p ∈ inorder T ->
  exists z' zs' T', zset_delete z zs p = Some (z', zs') /\ zset_rep z' zs' T' /\
    zview z' (inorder T') = zdel (tup z p).2 (zview z (inorder T)) /\
    inorder T ≡ₚ p :: inorder T' /\ zkeep (nodes T) z z' /\ zothers z' zs' = zothers z zs /\ znew z' p.
Proof.
  intros Hr Hp. destruct (zset_delete_spec z zs T p Hr Hp) as (z' & zs' & T' & E & Hr' & Hk & Hot & Hperm & Hn & Hv).
  by exists z', zs', T'.
Qed.

Lemma zset_delete_correct_witness :
  exists z zs T p, zset_rep z zs T /\ p ∈ inorder T /\
  exists z' zs' T', zset_delete z zs p = Some (z', zs') /\ zset_rep z' zs' T' /\
    zview z' (inorder T') = zdel (tup z p).2 (zview z (inorder T)) /\
    inorder T ≡ₚ p :: inorder T' /\ zkeep (nodes T) z z' /\ zothers z' zs' = zothers z zs /\ znew z' p.
Proof.
  destruct zset_two as (z & zs & T & Hr & Hv). 
  assert (exists p, p ∈ inorder T) as [p Hp].
  { destruct (inorder T) as [|p l]; [discriminate Hv|]. exists p. apply list_elem_of_here. }
  exists z, zs, T, p. split; [done|]. split; [done|]. by apply (zset_delete_correct z zs T p).
Defined.

(** C14: [zset_lookup] finds the node with a name through the hash table, and
    only moves nodes between its tables. *)
Theorem zset_lookup_correct z zs T nm :
  zset_rep z zs T ->
  exists z' zs' r, zset_lookup z zs nm = Some (z', zs', r) /\ zset_rep z' zs' T /\
    zview z' (inorder T) = zview z (inorder T) /\
    match r with
    | Some p => p ∈ inorder T /\ (tup z p).2 = nm
    | None => nm ∉ znames (zview z (inorder T))
    end.
Proof.
  intros Hr. destruct (zset_lookup_spec z zs T nm Hr) as (z' & zs' & r & E & Hr' & _ & _ & _ & Hd & _ & _ & Hn).
  exists z', zs', r. split_and!; [done|done| |].
  - apply zview_frame. intros p _. by rewrite Hd.
  - destruct r as [p|]; [done|]. intros (p & Hp & Hnm)%elem_of_names. by apply (Hn p).
Qed.

Lemma zset_lookup_correct_witness :
  exists z zs T, zset_rep z zs T /\ zview z (inorder T) = [(one_dbl, name_a); (two_dbl, name_b)] /\
  exists z' zs' r, zset_lookup z zs name_a = Some (z', zs', r) /\ zset_rep z' zs' T /\
    zview z' (inorder T) = zview z (inorder T) /\
    match r with
    | Some p => p ∈ inorder T /\ (tup z p).2 = name_a
    | None => name_a ∉ znames (zview z (inorder T))
    end.
Proof.
  destruct zset_two as (z & zs & T & Hr & Hv). exists z, zs, T. split; [done|]. split; [done|].
  by apply (zset_lookup_correct z zs T name_a).
Defined.

(** C15: [zset_seekge] returns the first node, in the order of (score, name),
    that is not below the key, and [znode_offset] from there moves by ranks. *)
Theorem zset_seekge_offset z zs T sc nm off :
  zset_rep z zs T -> dbl_isnan sc = false ->
  exists a b, inorder T = a ++ b /\
    (forall p, p ∈ a -> tuple_ltb (tup z p) (sc, nm) = true) /\
    (forall p, p ∈ b -> tuple_ltb (tup z p) (sc, nm) = false) /\
    zset_seekge z zs sc nm = Some (head b) /\
    (b <> [] -> znode_offset z (head b) off = Some (arr_get (inorder T) (zlen a + off))).
Proof.
  intros [Ht _ _ _] Hsc. destruct (zge_suffix z (sc, nm) (inorder T) (zt_sorted _ _ _ Ht)) as (a & b & E & Hf & Ha & Hb).
  exists a, b. split_and!; [done|done|done| |].
  - by rewrite (zset_seekge_spec z zs T sc nm Ht Hsc), Hf.
  - destruct b as [|p b]; [done|]. intros _. cbn [head]. unfold zlen.
    apply (znode_offset_spec z (zroot zs) T); [done|]. by rewrite E, list_lookup_middle.
Qed.

Lemma zset_seekge_offset_witness :
  exists z zs T, zset_rep z zs T /\
  exists a b, inorder T = a ++ b /\
    (forall p, p ∈ a -> tuple_ltb (tup z p) (two_dbl, name_a) = true) /\
    (forall p, p ∈ b -> tuple_ltb (tup z p) (two_dbl, name_a) = false) /\
    zset_seekge z zs two_dbl name_a = Some (head b) /\
    (b <> [] -> znode_offset z (head b) (-1) = Some (arr_get (inorder T) (zlen a + -1))).
Proof.
  destruct zset_two as (z & zs & T & Hr & _). exists z, zs, T. split; [done|].
  by apply (zset_seekge_offset z zs T two_dbl name_a (-1)).
Defined.

(** C40: [zset_clear] frees every node of the set and the arrays of its hash
    table, each once, and nothing else. *)
Theorem zset_clear_frees z zs T :
  zset_rep z zs T ->
  exists z', zset_clear z zs = Some (z', zset_null) /\ zkeep (nodes T) z z' /\
    (forall p, p ∈ inorder T -> znew z' p) /\
    dom (zarrays z') = dom (zarrays z) ∖ zown zs /\ zown zs ⊆ dom (zarrays z) /\
    forall a, a ∉ zown zs -> zarrays z' !! a = zarrays z !! a.
Proof.
  intros Hr. destruct (zset_clear_spec z zs T Hr) as (z' & E & Hk & Ha & Hn). exists z'. split_and!; [done..| | |].
  - rewrite Ha. apply dom_others.
  - intros a Hin. apply elem_of_dom. by eapply own_live, Hin; apply Hr.
  - intros a Hno. rewrite Ha. by apply others_lookup.
Qed.

Lemma zset_clear_frees_witness :
  exists z zs T, zset_rep z zs T /\ zview z (inorder T) = [(one_dbl, name_a); (two_dbl, name_b)] /\
  exists z', zset_clear z zs = Some (z', zset_null) /\ zkeep (nodes T) z z' /\
    (forall p, p ∈ inorder T -> znew z' p) /\
    dom (zarrays z') = dom (zarrays z) ∖ zown zs /\ zown zs ⊆ dom (zarrays z) /\
    forall a, a ∉ zown zs -> zarrays z' !! a = zarrays z !! a.
Proof.
  destruct zset_two as (z & zs & T & Hr & Hv). exists z, zs, T. split; [done|]. split; [done|].
  exact (zset_clear_frees z zs T Hr).
Defined.
