(* ===== verification/WireTheorems.v ===== *)
(** * What the protocol promises

    The statements about the requests and replies of server.cpp, client.cpp and
    benchmark.cpp, and about numbers and their text. *)

From Stdlib Require Import SpecFloat.
From S2P Require Import Prelude Common Numeric Wire Client Server EventLoop Framing.
Local Open Scope Z_scope.

(** ** Requests *)

(** C32: [parse_req] accepts exactly the encodings of the lists of at most
    200,000 strings: it inverts the encoding, and rejects every other byte
    sequence (truncated, with trailing bytes, with too many strings). *)
Theorem parse_req_exact data cmd :
  parse_req data = Some cmd <->
  data = enc_req cmd /\ zlen cmd <= k_max_args /\ Forall (fun s => zlen s < 2 ^ 32) cmd.
Proof. split; [apply parse_req_inv|]. intros (-> & Hn & Hs). by apply parse_req_enc. Qed.

(** C35: a request the client accepts to send is one the server takes off its
    buffer whole, whatever bytes follow, and the client refuses only those
    whose body is above its limit of 4096 bytes. *)
Theorem send_req_accepted cmd rest :
  body_len cmd < 2 ^ 32 ->
  if Client.k_max_msg <? body_len cmd then send_req_buf cmd = Some (inl (-1))
  else exists wbuf, send_req_buf cmd = Some (inr wbuf) /\ take_frame (wbuf ++ rest) = Req cmd rest.
Proof.
  intros Hb. rewrite (send_req_buf_spec cmd Hb). destruct (Z.ltb_spec Client.k_max_msg (body_len cmd)) as [|Hle]; [done|].
  eexists. split; [done|]. rewrite <- app_assoc, <- zlen_enc_req.
  assert (Hk : Client.k_max_msg = 4096) by done. rewrite <- zlen_enc_req in Hle. apply take_frame_enc.
  - assert (k_max_msg = 33554432) by done. lia.
  - pose proof (body_len_args cmd). rewrite zlen_enc_req in Hle. unfold k_max_args. lia.
Qed.

Lemma send_req_accepted_witness :
  if Client.k_max_msg <? body_len [cmd_get; cmd_set] then send_req_buf [cmd_get; cmd_set] = Some (inl (-1))
  else exists wbuf, send_req_buf [cmd_get; cmd_set] = Some (inr wbuf) /\
    take_frame (wbuf ++ cmd_del) = Req [cmd_get; cmd_set] cmd_del.
Proof. apply (send_req_accepted [cmd_get; cmd_set] cmd_del). reflexivity. Defined.

(** [write_all] delivers the whole buffer when every [write] makes
    progress, and otherwise reports an error after a prefix; [read_full]
    delivers exactly [n] bytes or reports an error. *)
Theorem socket_loops_complete buf rvs n chunks :
  (Forall (fun rv => 0 < rv) rvs -> foldr Z.add 0 rvs = zlen buf -> write_all buf rvs = Some (0, buf, [])) /\
  (forall err sent rest, write_all buf rvs = Some (err, sent, rest) ->
    err = 0 /\ sent = buf \/ err = -1 /\ exists tl, buf = sent ++ tl) /\
  (forall err errno got rest, 0 <= n -> read_full n chunks = Some (err, errno, got, rest) ->
    err = 0 /\ zlen got = n \/ err = -1 /\ zlen got < n).
Proof.
  split_and!; [apply write_all_total|intros *; apply write_all_sent|intros *; apply read_full_ok].
Qed.

Lemma socket_loops_complete_witness :
  write_all cmd_get [1; 2] = Some (0, cmd_get, []) /\
  (0 = 0 /\ cmd_get = cmd_get \/ 0 = -1 /\ exists tl, cmd_get = cmd_get ++ tl).
Proof.
  destruct (socket_loops_complete cmd_get [1; 2] 0 []) as (H1 & H2 & _). split.
  - apply H1; [repeat constructor|reflexivity].
  - by apply (H2 0 cmd_get []).
Defined.

(** ** Replies *)

(** C33: the reply of a request is sent as its length in four bytes and its
    bytes; a reply above 32 MiB is replaced by the error "response is too big".
    What was already in the output buffer stays. *)
Theorem response_framed out body :
  zlen body < 2 ^ 64 ->
  response_end ((response_begin out).1 ++ body) (response_begin out).2 = Some (out ++ frame body).
Proof. intros Hb. destruct (response_end_total out body) as (o & -> & _ & Ho). by rewrite Ho. Qed.

Lemma response_framed_witness :
  response_end ((response_begin cmd_get).1 ++ encode VNil) (response_begin cmd_get).2 =
    Some (cmd_get ++ frame (encode VNil)).
Proof. apply (response_framed cmd_get (encode VNil)). reflexivity. Defined.

(** C34: of a reply the server encoded, the client prints every part, in order,
    with the texts cut at their first NUL byte, where [printf("%.*s")] stops; and
    it consumes exactly the bytes of the reply.  A reply whose texts have no NUL
    is printed as it is. *)
Theorem print_response_decodes v rest :
  value_ok v -> zlen (encode v ++ rest) < 2 ^ 31 ->
  print_response (print_fuel (encode v ++ rest)) (encode v ++ rest) = Some (zlen (encode v), map shown (events v)) /\
  (Forall (fun s => Byte.x00 ∉ s) (texts v) ->
    print_response (print_fuel (encode v ++ rest)) (encode v ++ rest) = Some (zlen (encode v), events v)).
Proof.
  intros Hv Hl. assert (E : print_response (print_fuel (encode v ++ rest)) (encode v ++ rest) = Some (zlen (encode v), prints v)).
  { apply print_response_encode; [done|done|]. unfold print_fuel. rewrite length_app. lia. }
  rewrite E, <- prints_shown. split; [done|]. intros Ht. by rewrite prints_exact.
Qed.

(** A string with a NUL, and an array without. *)
Definition nul_text : list byte := cmd_get ++ Byte.x00 :: cmd_set.

Lemma print_response_decodes_witness :
  print_response (print_fuel (encode (VStr nul_text) ++ [])) (encode (VStr nul_text) ++ []) =
    Some (zlen (encode (VStr nul_text)), [EvStr cmd_get]) /\
  print_response (print_fuel (encode (VArr [VStr cmd_get; VDbl 0; VNil]) ++ [])) (encode (VArr [VStr cmd_get; VDbl 0; VNil]) ++ []) =
    Some (zlen (encode (VArr [VStr cmd_get; VDbl 0; VNil])), [EvArr 3; EvStr cmd_get; EvDbl 0; EvNil; EvArrEnd]).
Proof.
  split.
  - apply (print_response_decodes (VStr nul_text) []); [done|reflexivity].
  - apply (print_response_decodes (VArr [VStr cmd_get; VDbl 0; VNil]) []); [repeat split|reflexivity|].
    refine (bool_decide_eq_true_1 _ _). vm_compute. reflexivity.
Defined.

(** C38: the bounds check of an error reply is computed in 32 bits: a reply
    of nine bytes that claims [2^32 - 1] bytes of text passes it, and printing
    the text reads past the buffer. *)
Theorem print_response_overread fuel code :
  print_response (S fuel) (zb TAG_ERR :: le_enc 4 code ++ le_enc 4 (2 ^ 32 - 1)) = None.
Proof.
  set (data := zb TAG_ERR :: le_enc 4 code ++ le_enc 4 (2 ^ 32 - 1)).
  assert (Hlen : zlen data = 9) by (unfold zlen, data; by rewrite length_cons, length_app, !length_le_enc).
  cbn [print_response]. rewrite Hlen.
  replace (fetch data 0 1) with (Some TAG_ERR) by (symmetry; by apply fetch_tag). rewrite bind_Some_l.
  change (TAG_ERR =? TAG_NIL) with false. change (TAG_ERR =? TAG_ERR) with true. cbn [Z.ltb Z.compare].
  change (fetch data 1 4) with (fetch (zb TAG_ERR :: le_enc 4 code ++ le_enc 4 (2 ^ 32 - 1)) 1 4).
  rewrite fetch_second, bind_Some_l.
  replace (fetch data (1 + 4) 4) with (Some (u32 (2 ^ 32 - 1))).
  - rewrite bind_Some_l. replace (drop (1 + 8) data) with (@nil byte) by (symmetry; apply drop_ge; unfold zlen in Hlen; lia).
    reflexivity.
  - unfold data. rewrite <- (app_nil_r (le_enc 4 (2 ^ 32 - 1))). by rewrite fetch_third.
Qed.

(** ** Numbers *)

(** What the model of doubles assumes of the language: the comparisons by bit
    patterns are the IEEE 754 comparisons of the numbers they stand for. *)
Theorem dbl_compare_ieee x y :
  0 <= x < 2 ^ 64 -> 0 <= y < 2 ^ 64 ->
  dbl_ltb x y = SFltb (dbl_decode x) (dbl_decode y) /\ dbl_eqb x y = SFeqb (dbl_decode x) (dbl_decode y).
Proof.
  intros Hx Hy. unfold SFltb, SFeqb, dbl_ltb, dbl_eqb. rewrite (dbl_compare x y Hx Hy).
  destruct (dbl_isnan x), (dbl_isnan y); cbn; try done. unfold Z.ltb. rewrite Z.eqb_compare.
  by destruct (dbl_key x ?= dbl_key y).
Qed.

Lemma dbl_compare_ieee_witness :
  dbl_ltb 0x8000000000000000 0 = SFltb (dbl_decode 0x8000000000000000) (dbl_decode 0) /\
  dbl_eqb 0x8000000000000000 0 = SFeqb (dbl_decode 0x8000000000000000) (dbl_decode 0).
Proof. apply (dbl_compare_ieee 0x8000000000000000 0); lia. Defined.

(** [str2int] reads back the decimal text of every integer, clamped to
    64 bits, and whatever it accepts is a 64-bit integer. *)
Theorem str2int_reads z s v :
  str2int (dec_text z) = Some (clamp64 z) /\ (str2int s = Some v -> - 2 ^ 63 <= v < 2 ^ 63).
Proof.
  split; [|apply str2int_range]. unfold str2int, strtoll, dec_text.
  set (fuel := S (Z.to_nat (Z.log2 (Z.abs z)))).
  assert (Hz : 0 <= Z.abs z < 2 ^ Z.of_nat fuel).
  { split; [lia|]. unfold fuel. rewrite Nat2Z.inj_succ, Z2Nat.id by apply Z.log2_nonneg.
    destruct (Z.eq_dec (Z.abs z) 0) as [->|Hne]; [by apply Z.pow_pos_nonneg|]. apply Z.log2_spec. lia. }
  destruct (dec_digits_head fuel (Z.abs z)) as (b & s' & [(E & Hsp & H45 & H43)|Hbig]); [lia| |lia].
  pose proof (take_digits_dec fuel (Z.abs z) 0 0 [] Hz) as Ht. rewrite app_nil_r in Ht.
  assert (Hlen : 0 < zlen (dec_digits fuel (Z.abs z))) by (rewrite E, zlen_cons; pose proof (zlen_nonneg s'); lia).
  destruct (Z.ltb_spec z 0) as [Hneg|Hpos].
  - replace (skip_space (zb 45 :: _)) with (zb 45 :: dec_digits fuel (Z.abs z)) by done.
    replace (take_sign (zb 45 :: _)) with (true, dec_digits fuel (Z.abs z)) by done.
    rewrite Ht. cbn [take_digits]. destruct (Z.eqb_spec (0 + zlen (dec_digits fuel (Z.abs z))) 0); [lia|].
    do 2 f_equal. lia.
  - rewrite E in *. cbn [skip_space]. rewrite Hsp. cbn [take_sign].
    destruct (Z.eqb_spec (bz b) 45); [done|]. destruct (Z.eqb_spec (bz b) 43); [done|].
    rewrite Ht. cbn [take_digits]. destruct (Z.eqb_spec (0 + zlen (b :: s')) 0); [lia|].
    do 2 f_equal. lia.
Qed.

Lemma str2int_reads_witness :
  str2int (dec_text (-9223372036854775809)) = Some (clamp64 (-9223372036854775809)) /\
  - 2 ^ 63 <= -42 < 2 ^ 63.
Proof.
  split.
  - apply (str2int_reads (-9223372036854775809) [] 0).
  - apply (str2int_reads 0 [zb 45; zb 52; zb 50] (-42)). reflexivity.
Defined.
