(* ===== verification/ServerTheorems.v ===== *)
(** * What the server promises

    The statements about the commands, the handling of requests, the timers and
    the event loop of server.cpp, each with an instance on a concrete state. *)

From S2P Require Import Prelude Common Hashtable HashtableProofs Heap HeapProofs DList Zset Wire Client Server Spec ServerProofs EventLoop Process Calls Framing EventLoopProofs EndToEnd Benchmark.
Local Open Scope Z_scope.

(** ** Commands *)

Definition key_a : key := [Byte.x61].
Definition val_b : list byte := [Byte.x62].
Definition ttl_100 : list byte := [Byte.x31; Byte.x30; Byte.x30].
Definition score_1 : list byte := [Byte.x31].

(** After SET a b. *)
Definition db_set : adb := (spec_cmd 0 ∅ (CSet key_a val_b)).1.
(** After PEXPIRE a 100 at time 0. *)
Definition db_ttl : adb := (spec_cmd 0 db_set (CPexpire key_a ttl_100)).1.

Lemma db_room_one k v t : (forall l, v = AZset l -> l = []) -> db_room {[k := mkArec v t]}.
Proof.
  intros Hv. split; [by rewrite map_size_singleton|]. intros k' l t' Hk.
  apply lookup_singleton_Some in Hk as [_ [= -> _]]. by rewrite (Hv l eq_refl).
Qed.

Lemma db_room_empty : db_room ∅.
Proof. split; [done|]. intros k l t Hk. by rewrite lookup_empty in Hk. Qed.

Lemma db_set_rep : (exists g, db_rep g db_set) /\ db_room db_set.
Proof.
  split; [|by apply db_room_one].
  destruct (do_request_refines 0 gdata_init ∅ [cmd_set; key_a; val_b] [] db_rep_init db_room_empty)
    as (v & (g & _ & Hr) & _). by exists g.
Qed.

Lemma db_ttl_rep : exists g, db_rep g db_ttl.
Proof.
  destruct db_set_rep as [(g & Hr) Hroom].
  destruct (do_request_refines 0 g db_set [cmd_pexpire; key_a; ttl_100] [] Hr Hroom)
    as (v & (g' & _ & Hr') & _). by exists g'.
Qed.

(** C1: every command, on any arguments, runs without undefined behaviour,
    leaves a state that represents the database the specification gives, and
    appends the encoding of the specified reply to the output.  This covers all
    branches: missing keys, wrong types, malformed numbers, unknown commands. *)
Theorem do_request_correct now g D cmd out :
  db_rep g D -> db_room D ->
  exists g' v, do_request now g cmd out = Some (g', out ++ encode v) /\
    db_rep g' (spec_cmd now D (decode_cmd cmd)).1 /\ spec_reply now D (decode_cmd cmd) v.
Proof.
  intros Hr Hroom. destruct (do_request_refines now g D cmd out Hr Hroom) as (v & (g' & E & Hr') & Hv).
  by exists g', v.
Qed.

Lemma do_request_correct_witness :
  exists g, db_rep g db_set /\
  (exists g' v, do_request 7 g [cmd_get; key_a] [] = Some (g', [] ++ encode v) /\
    db_rep g' (spec_cmd 7 db_set (CGet key_a)).1 /\ v = VStr val_b) /\
  (exists g' v, do_request 7 g [cmd_zadd; key_a; score_1; val_b] [] = Some (g', [] ++ encode v) /\
    db_rep g' (spec_cmd 7 db_set (CZadd key_a score_1 val_b)).1 /\ v = err_type msg_zset).
Proof.
  destruct db_set_rep as [(g & Hr) Hroom]. exists g. split; [done|]. split.
  - exact (do_request_correct 7 g db_set [cmd_get; key_a] [] Hr Hroom).
  - exact (do_request_correct 7 g db_set [cmd_zadd; key_a; score_1; val_b] [] Hr Hroom).
Defined.

(** ** Expiration of keys *)

(** C23: the expiration of keys removes only keys whose time is past, at most
    2001 of them, and stops before that only when no key is left to expire. *)
Theorem process_timers_keys_expires now g D :
  db_rep g D ->
  exists g' D', process_timers_keys now g = Some g' /\ db_rep g' D' /\
    D' ⊆ D /\ (forall k r, D !! k = Some r -> D' !! k = None -> expired now r = true) /\
    Z.of_nat (size D) <= Z.of_nat (size D') + 2001 /\
    ((forall k r, D' !! k = Some r -> expired now r = false) \/
      Z.of_nat (size D) = Z.of_nat (size D') + 2001).
Proof.
  intros Hr. destruct (expire_loop_spec now (length (heap g)) g D 0 Hr) as (g' & D' & E & Hr' & [H1 H2 H3 H4]);
    [done|done|]. by exists g', D'.
Qed.

Lemma process_timers_keys_expires_witness :
  exists g, db_rep g db_ttl /\
  exists g' D', process_timers_keys 200 g = Some g' /\ db_rep g' D' /\
    D' ⊆ db_ttl /\ (forall k r, db_ttl !! k = Some r -> D' !! k = None -> expired 200 r = true) /\
    Z.of_nat (size db_ttl) <= Z.of_nat (size D') + 2001 /\
    ((forall k r, D' !! k = Some r -> expired 200 r = false) \/
      Z.of_nat (size db_ttl) = Z.of_nat (size D') + 2001).
Proof.
  destruct db_ttl_rep as (g & Hr). exists g. split; [done|].
  exact (process_timers_keys_expires 200 g db_ttl Hr).
Defined.

(** C24: the branch of [process_timers] for a timer whose key is missing from
    the hash table (which would free an entry the heap still refers to) is never
    taken: the lookup of the root's entry finds that entry. *)
Theorem expired_key_found g D item rest :
  db_rep g D -> heap g = item :: rest ->
  exists ent n h hm, ref item = Some ent /\ hm_nodes (dbnodes g) !! ent = Some n /\
    hm_delete (dbnodes g) (db g) (hcode n) (hnode_same ent) =
      Some (h, hm, Some ent).
Proof.
  intros (M & Hi & _) Hh.
  destruct (timer_delete g M item rest Hi Hh) as (p & r & n & h & hm & Hr & _ & _ & Hn & E & _).
  by exists p, n, h, hm.
Qed.

Lemma expired_key_found_witness :
  exists g item rest, db_rep g db_ttl /\ heap g = item :: rest /\
  exists ent n h hm, ref item = Some ent /\ hm_nodes (dbnodes g) !! ent = Some n /\
    hm_delete (dbnodes g) (db g) (hcode n) (hnode_same ent) =
      Some (h, hm, Some ent).
Proof.
  destruct db_ttl_rep as (g & Hr). pose proof Hr as (M & Hi & Ha).
  assert (Hk : db_ttl !! key_a = Some (mkArec (AStr val_b) (Some 100))) by (vm_compute; reflexivity).
  destruct (timer_min g M db_ttl key_a _ 100 (inv_core _ _ Hi) Ha Hk eq_refl) as (item & rest & Eh & _).
  exists g, item, rest. split; [done|]. split; [done|]. exact (expired_key_found g db_ttl item rest Hr Eh).
Defined.

(** ** Requests on a connection *)

(** A connection that has received some bytes. *)
Definition conn_with (buf : Buffer) : Conn := set_incoming buf (new_conn 0 4).

Definition two_requests : list command := [[cmd_set; key_a; val_b]; [cmd_get; key_a]].

Lemma two_requests_sendable : Forall sendable two_requests.
Proof. repeat constructor; vm_compute; discriminate. Qed.

Lemma room_empty n : n < 2 ^ 32 - 1 -> room_for n ∅.
Proof.
  intros Hn. split; [done|rewrite map_size_empty; lia|]. intros k l t Hk. by rewrite lookup_empty in Hk.
Qed.

(** C6: the loop of [handle_read] answers every complete request of the buffer,
    in order, each on the state the previous ones left; it appends their framed
    replies and keeps the bytes of the incomplete one. *)
Theorem request_loop_answers clock g D c cmds rest :
  db_rep g D -> room_for (zlen cmds) D -> Forall sendable cmds -> take_frame rest = Partial ->
  incoming c = flat_map enc_frame cmds ++ rest ->
  exists g' D' vs outs,
    request_loop (S (length (incoming c))) clock 0 g c = Some (g', answered outs rest false c) /\
    db_rep g' D' /\ runs clock 0 D cmds vs D' /\ Forall2 sent vs outs /\
    (Forall (fun v => zlen (encode v) < 2 ^ 64) vs -> concat outs = flat_map (fun v => frame (encode v)) vs).
Proof.
  intros Hr Hroom Hs Hp Hinc.
  destruct (request_loop_spec clock cmds (incoming c) rest false) with
    (fuel := S (length (incoming c))) (k := 0%nat) (g := g) (D := D) (c := c)
    as (g' & D' & vs & outs & E & Hr' & Hv & Ho); try done.
  - rewrite Hinc. by apply stream_enc.
  - rewrite Hinc, length_app. pose proof (enc_frames_length cmds). lia.
  - exists g', D', vs, outs. split_and!; [done..|by apply sent_frames].
Qed.

Lemma request_loop_answers_witness :
  exists g' D' vs outs,
    request_loop (S (length (incoming (conn_with (flat_map enc_frame two_requests ++ [Byte.x00]))))) (fun _ => 5) 0
      gdata_init (conn_with (flat_map enc_frame two_requests ++ [Byte.x00])) =
      Some (g', answered outs [Byte.x00] false (conn_with (flat_map enc_frame two_requests ++ [Byte.x00]))) /\
    db_rep g' D' /\ runs (fun _ => 5) 0 ∅ two_requests vs D' /\ Forall2 sent vs outs /\
    (Forall (fun v => zlen (encode v) < 2 ^ 64) vs -> concat outs = flat_map (fun v => frame (encode v)) vs).
Proof.
  apply (request_loop_answers (fun _ => 5) gdata_init ∅ _ two_requests [Byte.x00]);
    [apply db_rep_init|by apply room_empty|apply two_requests_sendable|reflexivity|reflexivity].
Defined.

(** C7: the replies do not depend on how the bytes were cut into reads: serving
    the first part and then the rest gives the state and the connection that
    serving all the bytes at once gives. *)
Theorem request_loop_cut clock g c g1 c1 more :
  want_close c = false ->
  request_loop (S (length (incoming c))) clock 0 g c = Some (g1, c1) -> want_close c1 = false ->
  exists m, forall r,
    request_loop (S (length (incoming (receive more c1)))) clock m g1 (receive more c1) = Some r ->
    request_loop (S (length (incoming (receive more c)))) clock 0 g (receive more c) = Some r.
Proof.
  intros Hw E Hw1. destruct (request_loop_chunks clock more _ 0 g c g1 c1 Hw E Hw1) as (m & _ & H).
  exists m. intros r Hr. eapply request_loop_enough; [by apply (H _ r Hr)|lia].
Qed.

(** Two requests and a part of the third, then the rest of it. *)
Definition third_request : list byte := enc_frame [cmd_get; key_a].
Definition first_part : list byte := flat_map enc_frame two_requests ++ take 5 third_request.

Lemma request_loop_cut_witness :
  exists g1 c1, request_loop (S (length (incoming (conn_with first_part)))) (fun _ => 5) 0 gdata_init (conn_with first_part)
      = Some (g1, c1) /\ incoming c1 = take 5 third_request /\
  exists m, forall r,
    request_loop (S (length (incoming (receive (drop 5 third_request) c1)))) (fun _ => 5) m g1
      (receive (drop 5 third_request) c1) = Some r ->
    request_loop (S (length (incoming (receive (drop 5 third_request) (conn_with first_part))))) (fun _ => 5) 0 gdata_init
      (receive (drop 5 third_request) (conn_with first_part)) = Some r.
Proof.
  destruct (request_loop_spec (fun _ => 5) two_requests first_part (take 5 third_request) false)
    with (fuel := S (length first_part)) (k := 0%nat) (g := gdata_init) (D := ∅ : adb) (c := conn_with first_part)
    as (g1 & D1 & vs & outs & E & _);
    [by apply stream_enc; [apply two_requests_sendable|]|done|apply db_rep_init|by apply room_empty|vm_compute; lia|].
  exists g1, (answered outs (take 5 third_request) false (conn_with first_part)). split; [exact E|]. split; [done|].
  exact (request_loop_cut (fun _ => 5) gdata_init (conn_with first_part) _ _ (drop 5 third_request) eq_refl E eq_refl).
Defined.

(** C8: whatever bytes a client sends, the loop ends without undefined
    behaviour, the database stays represented, and either the connection is to be
    closed or less than one message is kept. *)
Theorem request_loop_safe clock g D c n :
  db_rep g D -> zlen (incoming c) <= 8 * n -> room_for n D -> want_close c = false ->
  exists g' D' c', request_loop (S (length (incoming c))) clock 0 g c = Some (g', c') /\
    db_rep g' D' /\ (exists o, outgoing c' = outgoing c ++ o) /\
    (want_close c' = true \/ zlen (incoming c') < 4 + k_max_msg).
Proof.
  intros Hr Hn Hroom Hw. destruct (request_loop_total clock g D c n Hr Hn Hroom)
    as (g' & D' & cmds & vs & outs & rest & bad & E & Hr' & Hst & _).
  exists g', D', (answered outs rest bad c). split_and!; [done|done|by exists (concat outs)|].
  destruct bad; [by left|right]. by eapply take_frame_partial, stream_rest.
Qed.

Lemma request_loop_safe_witness :
  exists g' D' c', request_loop (S (length (incoming (conn_with (le_enc 4 1 ++ le_enc 4 77))))) (fun _ => 5) 0 gdata_init
      (conn_with (le_enc 4 1 ++ le_enc 4 77)) = Some (g', c') /\
    db_rep g' D' /\ (exists o, outgoing c' = [] ++ o) /\
    (want_close c' = true \/ zlen (incoming c') < 4 + k_max_msg).
Proof.
  apply (request_loop_safe (fun _ => 5) gdata_init ∅ (conn_with (le_enc 4 1 ++ le_enc 4 77)) 1);
    [apply db_rep_init|discriminate|by apply room_empty|reflexivity].
Defined.

(** A kernel that takes one byte. *)
Definition write_one_byte (n : Z) : io_write := if 1 <=? n then Wrote 1 else WriteAgain.

Lemma write_one_byte_ok : write_ok write_one_byte.
Proof. intros n k. unfold write_one_byte. destruct (Z.leb_spec 1 n); [|done]. intros [= <-]. lia. Qed.




(** [handle_write] gives all pending bytes to [write], and removes from them
    exactly those that [write] took; the connection then waits to read when
    everything is sent, to write otherwise, and is to be closed on an error. *)
Theorem handle_write_sends c write :
  conn_ok c -> want_write c = true -> write_ok write ->
  exists c', handle_write c write = Some (c', CallWrite (fd c) (outgoing c) (write (zlen (outgoing c)))) /\
    outgoing c' = match write (zlen (outgoing c)) with Wrote n => drop (Z.to_nat n) (outgoing c) | _ => outgoing c end /\
    incoming c' = incoming c /\ same_conn c c' /\
    match write (zlen (outgoing c)) with WriteError => want_close c' = true | _ => conn_ok c' end.
Proof.
  intros Hok Hww Hw. pose proof (ok_write _ Hok) as Hne. rewrite Hww in Hne. symmetry in Hne. apply bool_decide_eq_true in Hne.
  destruct (handle_write_spec c write Hne Hw) as (c' & E & Hs & Hi & Ho & _).
  destruct (handle_write_ok c write Hok Hww Hw) as (c1 & E1 & _ & Hc & _). rewrite E in E1. injection E1 as <-.
  exists c'. split; [exact E|]. unfold handle_write, write_call in *.
  rewrite option_guard_True in E by (destruct (outgoing c); [done|unfold zlen; cbn; lia]).
  destruct (write (zlen (outgoing c))) as [| |n] eqn:Ew; cbn [written flat_map call_written app] in Ho.
  - injection E as <-. by split_and!.
  - injection E as <-. by split_and!.
  - rewrite app_nil_r in Ho. assert (Hd : outgoing c' = drop (Z.to_nat n) (outgoing c)).
    { apply (app_inv_head (take (Z.to_nat n) (outgoing c))). by rewrite <- Ho, take_drop. }
    split_and!; [done|done|done|]. destruct Hc as [Hcl|]; [|done].
    unfold buf_consume in E. apply Hw in Ew. rewrite option_guard_True, bind_Some_l in E by lia.
    exfalso. pose proof (ok_open _ Hok) as Hopen. destruct (_ =? 0) in E; injection E as <-; cbn in Hcl; congruence.
Qed.

Definition conn_pending : Conn := mkConn 4 false true false [] (val_b ++ val_b) 0.

Lemma conn_pending_ok : conn_ok conn_pending.
Proof. by split. Qed.

(** A kernel that takes all it is given. *)
Definition write_everything (n : Z) : io_write := if 0 <=? n then Wrote n else WriteAgain.

Lemma write_everything_ok : write_ok write_everything.
Proof. intros n k. unfold write_everything. destruct (Z.leb_spec 0 n); [|done]. intros [= <-]. lia. Qed.

Lemma handle_write_sends_witness :
  exists c', handle_write conn_pending write_one_byte = Some (c', CallWrite 4 (outgoing conn_pending) (Wrote 1)) /\
    outgoing c' = drop 1 (outgoing conn_pending) /\ incoming c' = incoming conn_pending /\
    same_conn conn_pending c' /\ conn_ok c'.
Proof.
  apply (handle_write_sends conn_pending write_one_byte);
    [apply conn_pending_ok|reflexivity|apply write_one_byte_ok].
Defined.

(** [handle_read] serves the bytes it reads: it executes the complete
    requests among the bytes kept and received, in order, puts their replies
    after the pending output, sends a prefix of it, and leaves the connection
    closing or in a consistent state: no complete request is left, and it waits
    to write exactly when bytes are pending.  It makes one call of [read], and at
    most one of [write]. *)
Theorem handle_read_serves clock g D c rv write :
  conn_ok c -> want_read c = true -> read_ok rv -> write_ok write -> db_rep g D -> room_for read_budget D ->
  exists g' c' D' ws, handle_read clock g c rv write = Some (g', c', CallRead (fd c) rv :: ws) /\
    write_once (fd c) write ws /\ same_conn c c' /\
    (want_close c' = true \/ conn_ok c') /\ db_rep g' D' /\ served clock D c (CallRead (fd c) rv :: ws) D' c'.
Proof.
  intros Hc Hr Hrv Hw Hdb Hroom. destruct (handle_read_ok clock g D c rv write Hc Hr Hrv Hw Hdb Hroom)
    as (g' & c' & D' & ws & E & Hws & Hs & Hc' & Hdb' & Hsv & _). by exists g', c', D', ws.
Qed.

Lemma handle_read_serves_witness :
  exists g' c' D' ws, handle_read (fun _ => 5) gdata_init (new_conn 0 4) (ReadData (flat_map enc_frame two_requests)) write_everything
      = Some (g', c', CallRead 4 (ReadData (flat_map enc_frame two_requests)) :: ws) /\
    write_once 4 write_everything ws /\ same_conn (new_conn 0 4) c' /\ (want_close c' = true \/ conn_ok c') /\ db_rep g' D' /\
    served (fun _ => 5) ∅ (new_conn 0 4) (CallRead 4 (ReadData (flat_map enc_frame two_requests)) :: ws) D' c'.
Proof.
  apply (handle_read_serves (fun _ => 5) gdata_init ∅ (new_conn 0 4) (ReadData (flat_map enc_frame two_requests)));
    [apply new_conn_ok|reflexivity| |apply write_everything_ok|apply db_rep_init|by apply room_empty].
  intros data [= <-]. vm_compute. discriminate.
Defined.

(** ** The event loop *)

(** A server with one connection, accepted at time 10. *)
Definition server_one : option server := s ← server_init; accept_conn 10 4 s.

Lemma server_one_inv :
  exists s l, server_one = Some s /\ srv_inv 10 s ∅ l /\ poll_args s = Some [(4, true, false)].
Proof.
  destruct (server_init_spec 0) as (s0 & E0 & Hinv).
  destruct (accept_step 0 s0 ∅ [] (Some (10, 4)) Hinv) as (s & l & E & Hinv' & _ & _); [done| |].
  - intros ta n [= <- <-]. split_and!; [done..|]. intros p c Hp.
    assert (Hl : p ∈ ([] : list ptr)) by (apply (sc_live _ _ _ _ (proj1 Hinv)); eauto). by apply elem_of_nil in Hl.
  - assert (E1 : server_one = Some s) by (unfold server_one; rewrite E0, bind_Some_l; exact E).
    exists s, l. split_and!; [done|done|]. vm_compute in E1. injection E1 as <-. vm_compute. reflexivity.
Qed.

(** An event: bytes to read, or nothing at all. *)
Definition event_read (now : Z) (data : list byte) : conn_event :=
  mkEvent true false false now (fun _ => now) (ReadData data) write_everything write_everything.
Definition event_none (now : Z) : conn_event :=
  mkEvent false false false now (fun _ => now) ReadAgain write_everything write_everything.

Lemma iteration_one s t ev now :
  poll_args s = Some [(4, true, false)] -> poll_ok (4, true, false) ev ->
  0 <= t -> t <= ev_now ev -> ev_now ev <= now -> now < 2 ^ 63 -> iteration_ok t s None [ev] now.
Proof.
  intros Ea Hp H0 H1 H2 H3. split; [done| | |].
  - intros args E. rewrite Ea in E. injection E as <-. constructor; [exact Hp|constructor].
  - cbn. repeat constructor; lia.
  - unfold k_idle_timeout_ms. lia.
Qed.

Lemma event_read_ok now data : zlen data <= 64 * 1024 -> poll_ok (4, true, false) (event_read now data).
Proof. intros Hd. split_and!; try done; try apply write_everything_ok. by intros d [= <-]. Qed.

Lemma event_none_ok now : poll_ok (4, true, false) (event_none now).
Proof. by split_and!; try done; apply write_everything_ok. Qed.

(** C3: an iteration of the event loop never goes wrong, for any bytes the
    clients send and any results of the system calls, keeps the invariant of the
    server, and refines the abstract database: it is a sequence of turns of the
    polled connections, in order, each executing the complete requests received,
    followed by an expiration of keys; a connection ends as its turn left it,
    unless it is closed by an error, by its client or for its silence.  The calls
    on descriptors are exactly those of the turns, with the results the system
    gave; in each turn the bytes that [write] took are the first of the replies
    pending, and the bytes that it did not take are still pending, in order. *)
Theorem loop_iteration_refines t s D l t0 acc evs now :
  srv_inv t s D l -> iteration_ok t s acc evs now -> room_for (zlen evs * read_budget) D ->
  exists s' D1 D' l' xs ns, loop_iteration s t0 acc evs now = Some s' /\ srv_inv now s' D' l' /\
    map tn_event xs = evs /\ Forall (turn_done now s s') xs /\ turns D xs D1 /\
    expires now (k_max_works + 1) D1 D' /\
    calls s' = calls s ++ accept_calls acc ++ flat_map turn_calls xs ++ map CallClose ns.
Proof. apply loop_iteration_spec. Qed.

Lemma loop_iteration_refines_witness :
  exists s, server_one = Some s /\
  exists s' D1 D' l' xs ns, loop_iteration s 10 None [event_read 15 (flat_map enc_frame two_requests)] 20 = Some s' /\
    srv_inv 20 s' D' l' /\ map tn_event xs = [event_read 15 (flat_map enc_frame two_requests)] /\
    Forall (turn_done 20 s s') xs /\ turns ∅ xs D1 /\ expires 20 (k_max_works + 1) D1 D' /\
    calls s' = calls s ++ [] ++ flat_map turn_calls xs ++ map CallClose ns.
Proof.
  destruct server_one_inv as (s & l & E & Hinv & Ea). exists s. split; [done|].
  apply (loop_iteration_refines 10 s ∅ l 10 None _ 20 Hinv); [|by apply room_empty].
  apply iteration_one; [done|apply event_read_ok|..]; vm_compute; (reflexivity || discriminate).
Defined.

(** Every state the server reaches satisfies the invariant, its database is
    the result of the requests executed and of the expirations so far, and from
    each of them the next iteration runs. *)
Theorem server_reachable_safe t s :
  reachable t s ->
  exists D l, srv_inv t s D l /\ history D /\
    forall t0 acc evs now, iteration_ok t s acc evs now -> room_for (zlen evs * read_budget) D ->
      exists s', loop_iteration s t0 acc evs now = Some s'.
Proof.
  intros H. destruct (reachable_inv t s H) as (D & l & Hinv & Hh). exists D, l. split_and!; [done..|].
  intros t0 acc evs now Hit Hroom. destruct (loop_iteration_spec t s D l t0 acc evs now Hinv Hit Hroom)
    as (s' & _ & _ & _ & _ & _ & E & _). by exists s'.
Qed.

(** The first iteration may accept a connection, on an empty database. *)
Lemma iteration_accept s D : srv_inv 0 s D [] -> poll_args s = Some [] -> iteration_ok 0 s (Some (10, 4)) [] 20.
Proof.
  intros [Hc _] Ea. split.
  - intros ta n [= <- <-]. split_and!; [done..|]. intros p c Hp.
    assert (Hl : p ∈ ([] : list ptr)) by (apply (sc_live _ _ _ _ Hc); eauto). by apply elem_of_nil in Hl.
  - intros args E. rewrite Ea in E. injection E as <-. constructor.
  - cbn. repeat constructor; lia.
  - done.
Qed.

Lemma init_empty s D : server_init = Some s -> db_rep (gd s) D -> D = ∅.
Proof.
  intros E (M & [_ Hm] & Ha). pose proof (hm_size_spec _ _ _ Hm) as Hz. rewrite size_dom in Hz.
  assert (hm_size (db (gd s)) = 0) by (revert E; unfold server_init; intros [= <-]; reflexivity).
  assert (M = ∅) as -> by (apply map_size_empty_iff; lia).
  apply map_empty. intros k. apply eq_None_not_Some. intros [r (p & T & Hp)%Ha]. by rewrite lookup_empty in Hp.
Qed.

Lemma server_reachable_safe_witness :
  exists s s', server_init = Some s /\ loop_iteration s 0 (Some (10, 4)) [] 20 = Some s' /\
  exists D l, srv_inv 20 s' D l /\ history D /\
    forall t0 acc evs now, iteration_ok 20 s' acc evs now -> room_for (zlen evs * read_budget) D ->
      exists s2, loop_iteration s' t0 acc evs now = Some s2.
Proof.
  destruct (server_init_spec 0) as (s & E & Hinv). exists s. 
  assert (Hit : iteration_ok 0 s (Some (10, 4)) [] 20)
    by (apply (iteration_accept s ∅ Hinv); revert E; unfold server_init; intros [= <-]; reflexivity).
  destruct (loop_iteration_spec 0 s ∅ [] 0 _ [] 20 Hinv Hit) as (s' & _ & _ & _ & _ & _ & E' & _); [by apply room_empty|].
  exists s'. split; [done|]. split; [done|]. apply (server_reachable_safe 20 s').
  apply (reach_step 0 s 0 (Some (10, 4)) [] 20 s'); [by apply reach_init|done| |done].
  intros D ->%(init_empty s D E). by apply room_empty.
Defined.

(** ** Timers *)

(** C25: [process_timers] destroys exactly the connections that have been idle
    for five seconds, and expires keys; the invariant is kept. *)
Theorem process_timers_idle t now s D l :
  srv_inv t s D l -> t <= now -> now + k_idle_timeout_ms < 2 ^ 64 ->
  exists s' D' l', process_timers now s = Some s' /\ srv_inv now s' D' l' /\
    expires now (k_max_works + 1) D D' /\
    forall p c, conns s' !! p = Some c <-> conns s !! p = Some c /\ now < last_active_ms c + 5000.
Proof.
  intros Hinv Ht Hnow. destruct (process_timers_spec t now s D l Hinv Ht Hnow)
    as (s' & D' & l' & ns & E & Hinv' & Hex & Hcl & Hk).
  exists s', D', l'. split_and!; [done..|]. intros p c. rewrite Hk. unfold idle_expired, k_idle_timeout_ms.
  change (5 * 1000) with 5000. by rewrite Z.leb_gt.
Qed.

Lemma process_timers_idle_witness :
  exists s, server_one = Some s /\
  exists s' D' l', process_timers 6000 s = Some s' /\ srv_inv 6000 s' D' l' /\
    expires 6000 (k_max_works + 1) ∅ D' /\
    forall p c, conns s' !! p = Some c <-> conns s !! p = Some c /\ 6000 < last_active_ms c + 5000.
Proof.
  destruct server_one_inv as (s & l & E & Hinv & _). exists s. split; [done|].
  apply (process_timers_idle 10 6000 s ∅ l Hinv); vm_compute; (reflexivity || discriminate).
Defined.

(** C26: the timeout given to [poll] is -1 without timers, 0 when a timer is
    due, and otherwise the distance to the least deadline of all connections
    and keys, cut to 32 bits. *)
Theorem next_timer_least t now s D l :
  srv_inv t s D l -> t + k_idle_timeout_ms < 2 ^ 64 - 1 ->
  (forall k r d, D !! k = Some r -> a_ttl r = Some d -> 0 <= d < 2 ^ 64 - 1) ->
  (next_timer_ms now s = Some (-1) /\ forall d, ~ deadline s D d) \/
  exists d, least_deadline s D d /\ next_timer_ms now s = Some (if d <=? now then 0 else i32 (d - now)).
Proof. intros [Hc _]. by apply (next_timer_spec t now s D l). Qed.

Lemma next_timer_least_witness :
  exists s, server_one = Some s /\
  ((next_timer_ms 20 s = Some (-1) /\ forall d, ~ deadline s ∅ d) \/
   exists d, least_deadline s ∅ d /\ next_timer_ms 20 s = Some (if d <=? 20 then 0 else i32 (d - 20))).
Proof.
  destruct server_one_inv as (s & l & E & Hinv & _). exists s. split; [done|].
  apply (next_timer_least 10 20 s ∅ l Hinv); [reflexivity|].
  intros k r d Hk. by rewrite lookup_empty in Hk.
Defined.

(** C36: every iteration refreshes the time of every polled connection, even
    when nothing happened on any of them: an iteration without events closes no
    connection, however long they have been idle. *)
Theorem idle_connections_refreshed t s D l t0 evs now :
  srv_inv t s D l -> iteration_ok t s None evs now -> room_for (zlen evs * read_budget) D ->
  (forall ev, ev ∈ evs -> ev_in ev = false /\ ev_out ev = false /\ ev_err ev = false /\
     now < ev_now ev + 5000) ->
  exists s', loop_iteration s t0 None evs now = Some s' /\ dom (conns s') = dom (conns s) /\
    forall p c, conns s' !! p = Some c -> exists ev, ev ∈ evs /\ last_active_ms c = ev_now ev.
Proof.
  intros Hinv Hit Hroom Hq.
  destruct (connections_step t s D l None evs now Hinv Hit Hroom) as (args & s1 & s2 & D2 & l2 & xs & Ea & E1 & E2 & Hinv2 & _ & _ & _ & _ & Hsil).
  destruct (process_timers_spec now now s2 D2 l2 Hinv2) as (s3 & D3 & l3 & ns & E3 & _ & _ & _ & Hk); [lia|apply Hit|].
  destruct (Hsil eq_refl) as [Hd Hl]; [intros ev Hev; by destruct (Hq ev Hev) as (? & ? & ? & _)|].
  assert (Hsame : conns s3 = conns s2).
  { apply map_eq. intros p. apply option_eq. intros c. rewrite Hk. split; [by intros [? _]|]. intros Hc. split; [done|].
    destruct (Hl p c Hc) as (ev & Hev & Ht). destruct (Hq ev Hev) as (_ & _ & _ & Hnow).
    unfold idle_expired, k_idle_timeout_ms. apply Z.leb_gt. lia. }
  exists s3. split; [|by rewrite Hsame].
  destruct (next_timer_total t t0 s D l (proj1 Hinv)) as [ms Et].
  unfold loop_iteration. rewrite Ea, bind_Some_l, Et, bind_Some_l. injection E1 as <-. by rewrite bind_Some_l, E2, bind_Some_l.
Qed.

Lemma idle_connections_refreshed_witness :
  exists s, server_one = Some s /\
  exists s', loop_iteration s 10 None [event_none 1000000] 1000001 = Some s' /\ dom (conns s') = dom (conns s) /\
    forall p c, conns s' !! p = Some c -> exists ev, ev ∈ [event_none 1000000] /\ last_active_ms c = ev_now ev.
Proof.
  destruct server_one_inv as (s & l & E & Hinv & Ea). exists s. split; [done|].
  apply (idle_connections_refreshed 10 s ∅ l 10 _ 1000001 Hinv).
  - apply iteration_one; [done|apply event_none_ok|..]; vm_compute; (reflexivity || discriminate).
  - by apply room_empty.
  - intros ev ->%list_elem_of_singleton. by repeat split.
Defined.

(** ** The benchmark *)

(** C37: the byte counts of benchmark.cpp are those of the replies: served the
    requests of its three phases, one after the other, the server sends 5 bytes
    for each SET, 20 for each GET and 13 for each ZADD, and the benchmark runs
    its three phases to the end, each reading exactly these bytes, however they
    are delivered. *)
Theorem benchmark_replies clock g D c n :
  db_rep g D -> room_for (3 * n) D -> 0 <= n -> only_strings D -> D !! txt_leaderboard = None ->
  incoming c = bench_buf bench_set n ++ bench_buf bench_get n ++ bench_buf bench_zadd n ->
  exists g' c' o1 o2 o3,
    request_loop (S (length (incoming c))) clock 0 g c = Some (g', c') /\ incoming c' = [] /\
    outgoing c' = outgoing c ++ o1 ++ o2 ++ o3 /\
    bench_served n o1 o2 o3.
Proof.
  intros Hr Hroom Hn Hs Hb Hinc. pose proof (rf_few _ _ Hroom) as Hfew.
  assert (Hcmds : incoming c = flat_map enc_frame (bench_cmds n)).
  { rewrite Hinc, !bench_buf_frames. unfold bench_cmds. by rewrite !flat_map_app. }
  assert (Hlen : zlen (bench_cmds n) = 3 * n).
  { unfold bench_cmds, zlen. rewrite !length_app, !length_map, length_seqZ. lia. }
  destruct (request_loop_spec clock (bench_cmds n) (incoming c) [] false) with
    (fuel := S (length (incoming c))) (k := 0%nat) (g := g) (D := D) (c := c)
    as (g' & D' & vs & outs & E & Hr' & Hv & Ho); [|done|done|by rewrite Hlen| |].
  { rewrite Hcmds, <- (app_nil_r (flat_map _ _)). apply stream_enc; [apply bench_sendable; lia|done]. }
  { rewrite Hcmds. pose proof (enc_frames_length (bench_cmds n)). lia. }
  apply bench_runs in Hv as ->; [|done|done]. apply sent_frames in Ho.
  - rewrite !flat_map_app in Ho. eexists _, _, _, _, _. split; [exact E|]. split; [done|].
    cbn [outgoing answered]. rewrite Ho. split; [done|]. by apply bench_served_intro; apply phase_served_intro.
  - by rewrite !Forall_app; split_and!; apply Forall_replicate.
Qed.

(** On an empty database, with the number of requests of benchmark.cpp. *)
Lemma benchmark_replies_witness :
  exists g' c' o1 o2 o3,
    request_loop (S (length (incoming (conn_with (bench_buf bench_set num_requests ++
        bench_buf bench_get num_requests ++ bench_buf bench_zadd num_requests))))) (fun _ => 5) 0 gdata_init
      (conn_with (bench_buf bench_set num_requests ++
        bench_buf bench_get num_requests ++ bench_buf bench_zadd num_requests)) = Some (g', c') /\
    incoming c' = [] /\ outgoing c' = [] ++ o1 ++ o2 ++ o3 /\
    bench_served num_requests o1 o2 o3.
Proof.
  apply (benchmark_replies (fun _ => 5) gdata_init ∅);
    [apply db_rep_init|by apply room_empty|done|intros i l t; by rewrite lookup_empty|reflexivity|reflexivity].
Defined.
