(* ===== verification/ProcessTheorems.v ===== *)
(** * The main statements about a running server

    What holds along a whole run of the process: it is never undefined, keeps
    no object its database does not need, changes no type, and forgets expired
    keys. *)

From S2P Require Import Prelude Common Numeric Hashtable Heap DList Avl Zset Wire Server Spec ZsetProofs ServerProofs Depth Types EventLoop Process Calls Framing EventLoopProofs Service ServiceProofs Memory Expiration ProcessProofs ServerTheorems.
Local Open Scope Z_scope.

(** ** Safety of the process *)

(** C4: whatever the operating system answers within its promises, the server is
    never undefined: it is alive, in a state that satisfies the invariant, or it
    has stopped with the message of a call that failed: [socket], [bind],
    [listen], [poll] (interruptions apart) or [fcntl]. *)
Theorem server_main_safe st ios :
  run_ok st ios ->
  match server_main st ios with
  | Done s => exists t D l, srv_inv t s D l
  | Died msg => start_fails st msg \/ exists io, io ∈ ios /\ iter_fails io msg
  | Undefined => False
  end.
Proof.
  intros Hok. pose proof (server_main_spec st ios Hok) as H. destruct (server_main st ios); [|done..].
  destruct H as (t & D & l & _ & _ & H & _). by exists t, D, l.
Qed.

(** Socket 3 listens; a client is accepted on descriptor 4, then [poll] is
    interrupted. *)
Definition start_ok : os_start := mkStart 3 0 0.
Definition accept_four : accept_call := mkAccept 4 (2, 0) (fun _ => 0) (mkTimespec 5 1).
Definition accept_then_signal : list os_iter :=
  [mkIter boot (1, 0) POLLIN accept_four [] (mkTimespec 6 0);
   mkIter (mkTimespec 6 0) (-1, EINTR) 0 accept_four [] (mkTimespec 7 0)].

Lemma accept_then_signal_ok : run_ok start_ok accept_then_signal.
Proof.
  intros s E. assert (Hs : conns s = ∅ /\ poll_args s = Some []) by (revert E; unfold server_init; by intros [= <-]).
  destruct Hs as [Hc Ha]. split; [intros _; split|intros s' _; by split; [intros ?|]].
  - intros _ p c. by rewrite Hc, lookup_empty.
  - intros args. rewrite Ha. intros [= <-]. constructor.
  - split; repeat constructor; cbn; try lia; by left.
  - intros D ->%(init_empty s D E). by apply room_empty.
Qed.

Lemma server_main_safe_witness :
  (exists s, server_main start_ok accept_then_signal = Done s /\ poll_args s = Some [(4, true, false)]) /\
  match server_main start_ok accept_then_signal with
  | Done s => exists t D l, srv_inv t s D l
  | Died msg => start_fails start_ok msg \/ exists io, io ∈ accept_then_signal /\ iter_fails io msg
  | Undefined => False
  end.
Proof.
  split; [eexists; split; vm_compute; reflexivity|].
  exact (server_main_safe start_ok accept_then_signal accept_then_signal_ok).
Defined.

(** ** The service *)

(** C2: a server that has run is an implementation of the abstract service: there
    is a sequence of steps (connections, bytes received, single requests executed
    one after the other on the abstract database, bytes sent, sessions closed,
    expirations) that starts from nothing, receives the bytes the operating
    system delivered to each descriptor in this order, and ends with the database
    and the buffers of the server.  What is seen of these steps from outside is
    what the server asked of the system, call for call: clients accepted, bytes
    that [read] returned, bytes that [write] took out of the buffer it was given,
    descriptors closed.  In every session the requests executed are those of the
    bytes read, in order, with one reply each, and the bytes [write] took, then
    those still queued, are the frames of these replies, each once. *)
Theorem server_refines_service st ios s :
  run_ok st ios -> server_main st ios = Done s ->
  exists D S xs, db_rep (gd s) D /\ sessions_rep s S /\
    steps service_init xs (mkService D S) /\ inputs xs = server_inputs st ios /\
    external xs = acts_of (calls s) /\
    forall n se, S !! n = Some se -> session_ok se /\
      ss_received se = received_on n (acts_of (calls s)) [] /\ ss_sent se = sent_on n (acts_of (calls s)) [].
Proof.
  intros Hok E. pose proof (server_main_spec st ios Hok) as H. rewrite E in H.
  destruct H as (t & D & l & S & xs & [Hc _] & Hr & Hx & Hex & Hi). exists D, S, xs. split_and!; [apply Hc|done..|].
  intros n se Hn. split; [apply (steps_sessions_ok _ _ _ Hx (map_Forall_empty _) n se Hn)|].
  rewrite <- Hex, received_on_external, sent_on_external.
  apply (steps_streams _ _ _ n Hx [] []); [|done]. intros se0 H0. cbn in H0. by rewrite lookup_empty in H0.
Qed.

(** A client connects, then sends some bytes; the kernel takes at most three
    bytes of the reply. *)
Definition accept_then_send (bytes : Buffer) : list os_iter :=
  [mkIter boot (1, 0) POLLIN accept_four [] (mkTimespec 6 0);
   mkIter (mkTimespec 6 0) (1, 0) 0 accept_four
     [mkOsEvent POLLIN (mkTimespec 7 0) (fun _ => mkTimespec 7 0) (zlen bytes, 0, bytes)
        (fun n => (Z.min n 3, 0)) (fun n => (Z.min n 3, 0))]
     (mkTimespec 8 0)].

Lemma after_accept s s' :
  server_init = Some s -> main_iteration 3 s (mkIter boot (1, 0) POLLIN accept_four [] (mkTimespec 6 0)) = Done s' ->
  poll_args s' = Some [(4, true, false)] /\ gd s' = gdata_init.
Proof.
  intros E E'. vm_compute in E. injection E as <-. vm_compute in E'. injection E' as <-. split; reflexivity.
Qed.

Lemma accept_then_send_ok bytes : zlen bytes <= 64 * 1024 -> run_ok start_ok (accept_then_send bytes).
Proof.
  intros Hb s E. split; [apply (accept_then_signal_ok s E)|]. intros s' E'.
  destruct (after_accept s s' E E') as [Ha Hg]. split; [intros _; split|done].
  - done.
  - intros args. rewrite Ha. intros [= <-]. constructor; [|constructor]. split; cbn [oe_revents oe_read oe_read_write oe_write].
    + intros bit [->|[->|Hbit]%elem_of_cons]%elem_of_cons; [done|done|by apply elem_of_nil in Hbit].
    + exact Hb.
    + intros n. cbn. lia.
    + intros n. cbn. lia.
  - split; repeat constructor; cbn; try lia; by left.
  - intros D HD. rewrite Hg in HD. rewrite (db_rep_unique _ _ _ HD db_rep_init). by apply room_empty.
Qed.

(** A whole request and the start of another. *)
Definition request_bytes : Buffer := enc_frame [cmd_set; key_a; val_b] ++ [Byte.x00].
Definition accept_then_request : list os_iter := accept_then_send request_bytes.

Lemma accept_then_request_ok : run_ok start_ok accept_then_request.
Proof. apply accept_then_send_ok. vm_compute. discriminate. Qed.

(** Three members of a sorted set, in the order that unbalances the tree. *)
Definition zadd_request (score : Z) (name : list byte) : Buffer := enc_frame [cmd_zadd; key_a; dec_text score; name].
Definition zadd_bytes : Buffer := zadd_request 1 key_a ++ zadd_request 2 val_b ++ zadd_request 3 cmd_get.
Definition accept_then_zadd : list os_iter := accept_then_send zadd_bytes.

Lemma accept_then_zadd_ok : run_ok start_ok accept_then_zadd.
Proof. apply accept_then_send_ok. vm_compute. discriminate. Qed.

(** The kernel takes three of the five bytes of the reply. *)
Lemma server_refines_service_witness :
  server_inputs start_ok accept_then_request = [(4, request_bytes)] /\
  exists s, server_main start_ok accept_then_request = Done s /\
    acts_of (calls s) = [Connect 4; Receive 4 request_bytes; Send 4 (take 3 (frame (encode VNil)))] /\
  exists D S xs, db_rep (gd s) D /\ sessions_rep s S /\
    steps service_init xs (mkService D S) /\ inputs xs = server_inputs start_ok accept_then_request /\
    external xs = acts_of (calls s) /\
    forall n se, S !! n = Some se -> session_ok se /\
      ss_received se = received_on n (acts_of (calls s)) [] /\ ss_sent se = sent_on n (acts_of (calls s)) [].
Proof.
  split; [vm_compute; reflexivity|].
  destruct (server_main start_ok accept_then_request) as [s|msg|] eqn:E; [|by vm_compute in E..].
  exists s. split; [done|]. split.
  { assert (H : match server_main start_ok accept_then_request with Done s => acts_of (calls s) | _ => [] end =
      [Connect 4; Receive 4 request_bytes; Send 4 (take 3 (frame (encode VNil)))]) by (vm_compute; reflexivity).
    by rewrite E in H. }
  exact (server_refines_service start_ok accept_then_request s accept_then_request_ok E).
Defined.

(** ** Memory *)

(** C9: a server that has run, whatever clients and operating system did, owns
    exactly the objects it needs: an entry with its hash node and its timer
    position for each key, a timer for each expiring key, a node for each member
    of a sorted set, the arrays of buckets of its hash tables, and for each
    connection a place in the idle list and in the table of descriptors, and its
    descriptor, the one that was accepted for it and not closed; no descriptor is
    used, or closed again, after it was closed.  Nothing leaks and nothing
    dangles. *)
Theorem server_memory_accounted st ios s :
  run_ok st ios ->
  server_main st ios = Done s ->
  exists D, db_rep (gd s) D /\ accounted (gd s) D /\ conns_accounted s.
Proof.
  intros Hok E. pose proof (server_main_spec st ios Hok) as H. rewrite E in H.
  destruct H as (t & D & l & _ & _ & [Hc _] & _). exists D. destruct (server_accounted t s D l Hc) as [Ha Hca]. split_and!; [apply Hc|done..].
Qed.

Lemma server_memory_accounted_witness :
  exists s, server_main start_ok accept_then_zadd = Done s /\ size (zdata (zs (gd s))) = 3%nat /\
  exists D, db_rep (gd s) D /\ accounted (gd s) D /\ conns_accounted s.
Proof.
  destruct (server_main start_ok accept_then_zadd) as [s|msg|] eqn:E; [|by vm_compute in E..].
  exists s. split; [done|]. split.
  { assert (H : match server_main start_ok accept_then_zadd with Done s => size (zdata (zs (gd s))) | _ => 0%nat end = 3%nat)
      by (vm_compute; reflexivity). by rewrite E in H. }
  exact (server_memory_accounted start_ok accept_then_zadd s accept_then_zadd_ok E).
Defined.

(** ** The depth of the trees *)

(** C39: in a server that has run, the trees of the sorted sets are shallow:
    from the root of the tree of a set of [n] members, at most [2 log2 (n + 1)]
    nodes follow one another, so neither a search nor a recursion goes deeper. *)
Theorem server_trees_shallow st ios s :
  run_ok st ios -> server_main st ios = Done s ->
  exists D, db_rep (gd s) D /\
    forall p e, entries (gd s) !! p = Some e -> etype e = T_ZSET ->
    exists l t, D !! ekey e = Some (mkArec (AZset l) t) /\
      forall k, chain (trees (zs (gd s))) (zroot (ezset e)) k -> Z.of_nat k <= 2 * Z.log2 (zlen l + 1).
Proof.
  intros Hok E. pose proof (server_main_spec st ios Hok) as H. rewrite E in H.
  destruct H as (t & D & l & _ & _ & [Hc _] & _). exists D. split; [apply Hc|]. intros p e Hp Ht.
  destruct (zset_entry (gd s) D p e) as (l' & t' & T & Hk & Hz & Hn); [apply Hc|done|done|].
  exists l', t'. split; [done|]. intros k. destruct (zr_tree _ _ _ Hz) as [Hrep -> Hb _ _ _ _]. rewrite <- Hn.
  by apply chain_short.
Qed.

(** The first entry, when its tree has a root with a left child. *)
Definition two_levels (s : server) : option (ptr * Entry) :=
  '(p, e) ← head (map_to_list (entries (gd s)));
  r ← zroot (ezset e);
  n ← trees (zs (gd s)) !! r;
  q ← left n;
  _ ← trees (zs (gd s)) !! q;
  Some (p, e).

Lemma two_levels_chain s p e :
  two_levels s = Some (p, e) ->
  entries (gd s) !! p = Some e /\ chain (trees (zs (gd s))) (zroot (ezset e)) 2.
Proof.
  intros ([p' e'] & Hh & (r & Er & (n & En & (q & Eq & (n' & En' & [= <- <-])%bind_Some)%bind_Some)%bind_Some)%bind_Some)%bind_Some.
  split; [apply elem_of_map_to_list; destruct (map_to_list _); [done|injection Hh as ->; apply list_elem_of_here]|].
  rewrite Er. eapply chain_left; [exact En|]. rewrite Eq. eapply chain_left; [exact En'|constructor].
Qed.

Lemma server_trees_shallow_witness :
  exists s p e, server_main start_ok accept_then_zadd = Done s /\
    entries (gd s) !! p = Some e /\ etype e = T_ZSET /\ chain (trees (zs (gd s))) (zroot (ezset e)) 2 /\
  exists D, db_rep (gd s) D /\
    exists l t, D !! ekey e = Some (mkArec (AZset l) t) /\
      forall k, chain (trees (zs (gd s))) (zroot (ezset e)) k -> Z.of_nat k <= 2 * Z.log2 (zlen l + 1).
Proof.
  destruct (server_main start_ok accept_then_zadd) as [s|msg|] eqn:E; [|by vm_compute in E..].
  assert (H : match server_main start_ok accept_then_zadd with
    | Done s => match two_levels s with Some (_, e) => etype e =? T_ZSET | None => false end
    | _ => false end = true) by (vm_compute; reflexivity).
  rewrite E in H. destruct (two_levels s) as [[p e]|] eqn:E2; [|done]. apply Z.eqb_eq in H.
  destruct (two_levels_chain s p e E2) as [Hp Hch]. exists s, p, e. split_and!; [done..|].
  destruct (server_trees_shallow start_ok accept_then_zadd s accept_then_zadd_ok E) as (D & Hr & Hs).
  exists D. split; [done|]. exact (Hs p e Hp H).
Defined.

(** ** Types *)

(** C11: a command keeps the entries well typed: each is tagged as a string or as
    a sorted set, never left without a type, and the entry of a key that exists
    before and after has the same tag. *)
Theorem request_keeps_types now g D cmd out :
  db_rep g D -> db_room D ->
  exists g' out', do_request now g cmd out = Some (g', out') /\
    (forall p e, entries g' !! p = Some e -> etype e = T_STR \/ etype e = T_ZSET) /\
    (forall p e p' e', entries g !! p = Some e -> entries g' !! p' = Some e' -> ekey e = ekey e' ->
      etype e = etype e').
Proof.
  intros Hr Hroom. destruct (do_request_refines now g D cmd out Hr Hroom) as (v & (g' & E & Hr') & _).
  exists g', (out ++ encode v). split; [done|]. split.
  - intros p e Hp. destruct (entry_type g' _ p e Hr' Hp) as (r & _ & ->). apply tag_cases.
  - intros p e p' e' Hp Hp' Hk. destruct (entry_type g D p e Hr Hp) as (r & Hd & ->).
    destruct (entry_type g' _ p' e' Hr' Hp') as (r' & Hd' & ->). rewrite <- Hk in Hd'.
    symmetry. exact (spec_cmd_types now D (decode_cmd cmd) _ _ _ Hd Hd').
Qed.

(** A string key, and the command that would make it a set. *)
Lemma request_keeps_types_witness :
  exists g, db_rep g db_set /\
  exists g' out', do_request 7 g [cmd_zadd; key_a; score_1; val_b] [] = Some (g', out') /\
    (forall p e, entries g' !! p = Some e -> etype e = T_STR \/ etype e = T_ZSET) /\
    (forall p e p' e', entries g !! p = Some e -> entries g' !! p' = Some e' -> ekey e = ekey e' ->
      etype e = etype e').
Proof.
  destruct db_set_rep as [(g & Hr) Hroom]. exists g. split; [done|].
  exact (request_keeps_types 7 g db_set [cmd_zadd; key_a; score_1; val_b] [] Hr Hroom).
Defined.

(** ** Expiration over time *)

(** C10: while no client sends anything, a server that goes on running forgets
    every key whose time has come: after [n] iterations at [T] or later, with
    2001 keys for each of them, no key that expired before [T] is left, and the
    keys without a time are all there. *)
Theorem expired_keys_forgotten T n t s s' D l :
  srv_inv t s D l -> silent_run T n t s s' -> Z.of_nat (size D) <= Z.of_nat n * 2001 ->
  exists t' D' l', srv_inv t' s' D' l' /\ D' ⊆ D /\
    (forall k r, D' !! k = Some r -> expired T r = false) /\
    (forall k r, D !! k = Some r -> a_ttl r = None -> D' !! k = Some r).
Proof.
  intros Hinv Hrun Hn. destruct (silent_run_forgets T n t s s' Hrun D l Hinv) as (t' & D' & l' & Hinv' & Hf).
  exists t', D', l'. split; [done|]. split; [apply Hf|]. split; [|apply Hf]. exact (forgets_all T n D D' Hf Hn).
Qed.

(** A server with one silent client, and one key that expires at 100. *)
Lemma server_ttl_inv :
  exists s l, srv_inv 10 s db_ttl l /\ poll_args s = Some [(4, true, false)].
Proof.
  destruct server_one_inv as (s & l & _ & [Hc Hok] & Ea). destruct db_ttl_rep as (g & Hr).
  exists (with_gd g s), l. split; [|exact Ea]. split; [|exact Hok]. destruct Hc. by split.
Qed.

Lemma room_db_ttl n : 0 <= n < 2 ^ 32 - 1 -> room_for n db_ttl.
Proof.
  intros Hn. assert (Hl : map_to_list db_ttl = [(key_a, mkArec (AStr val_b) (Some 100))]) by (vm_compute; reflexivity).
  split; [lia| |].
  - rewrite <- length_map_to_list, Hl. cbn. lia.
  - intros k l t Hk%elem_of_map_to_list. rewrite Hl in Hk. by apply list_elem_of_singleton in Hk.
Qed.

Lemma expired_keys_forgotten_witness :
  exists s s' l, srv_inv 10 s db_ttl l /\ silent_run 200 1 10 s s' /\
  exists t' D' l', srv_inv t' s' D' l' /\ D' ⊆ db_ttl /\
    (forall k r, D' !! k = Some r -> expired 200 r = false) /\
    (forall k r, db_ttl !! k = Some r -> a_ttl r = None -> D' !! k = Some r).
Proof.
  destruct server_ttl_inv as (s & l & Hinv & Ea).
  assert (Hit : iteration_ok 10 s None [event_none 150] 200)
    by (apply iteration_one; [done|apply event_none_ok|..]; vm_compute; (reflexivity || discriminate)).
  assert (Hq : no_input [event_none 150]) by (by intros ev ->%list_elem_of_singleton).
  assert (Hroom : room_for (zlen [event_none 150] * read_budget) db_ttl)
    by (apply room_db_ttl; split; [discriminate|reflexivity]).
  destruct (silent_iteration 10 s db_ttl l 10 None _ 200 Hinv Hit Hq Hroom) as (s' & _ & _ & E & _).
  assert (Hrun : silent_run 200 1 10 s s').
  { eapply silent_cons; [exact Hit|done|done| |exact E|constructor].
    intros D HD. rewrite (db_rep_unique _ _ _ HD (sc_db _ _ _ _ (proj1 Hinv))). exact Hroom. }
  exists s, s', l. split; [done|]. split; [done|].
  apply (expired_keys_forgotten 200 1 10 s s' db_ttl l Hinv Hrun). vm_compute. discriminate.
Defined.
