(* ===== verification/TestAvl.v ===== *)
(** * test_avl.cpp: the tests of the tree, and why they never fail

    The test program keeps a tree of 32-bit values next to a [std::multiset],
    and checks after every change that the tree is well formed and holds the same
    values.  A multiset is the sorted list of its elements.  The operations are
    shown to agree with the multiset for any sequence of values. *)

From stdpp Require Import sorting.
From S2P Require Import Prelude Avl AvlTree AvlProofs Zset ZsetProofs.
Local Open Scope Z_scope.

(** ** The program *)

(** The [Data] objects: a node and a value at the same address. *)
Record container := mkContainer {
  c_nodes : amem;
  c_vals : gmap ptr Z;
  c_root : option ptr
}.

Definition container_init : container := mkContainer ∅ ∅ NULL.

(** [new Data()] *)
Definition data_new (c : container) (val : Z) : container * ptr :=
  let data := fresh (dom (c_nodes c) ∪ dom (c_vals c)) in
  (mkContainer (<[data := avl_init]> (c_nodes c)) (<[data := val]> (c_vals c)) (c_root c), data).

Fixpoint add_search (fuel : nat) (c : container) (val : Z) (cur : option ptr) (from : aloc) :
    option (option ptr * aloc) :=
  next ← aloc_read (c_nodes c) (c_root c) from;
  match next with
  | None => Some (cur, from)
  | Some p =>
      match fuel with
      | O => None
      | S fuel =>
          node_val ← c_vals c !! p;
          add_search fuel c val (Some p) (if val <? node_val then ALeft p else ARight p)
      end
  end.

Definition add (c : container) (val : Z) : option container :=
  let '(c, data) := data_new c val in
  '(cur, from) ← add_search (size (c_nodes c)) c val NULL ALocal;
  '(m, _) ← aloc_store (c_nodes c) (c_root c) from (Some data);
  m ← store_upd m data (with_parent cur);
  '(m, root) ← avl_fix m data;
  Some (mkContainer m (c_vals c) root).

Fixpoint del_search (fuel : nat) (c : container) (val : Z) (cur : option ptr) : option (option ptr) :=
  match cur with
  | None => Some NULL
  | Some p =>
      match fuel with
      | O => None
      | S fuel =>
          node_val ← c_vals c !! p;
          if val =? node_val then Some (Some p)
          else
            n ← c_nodes c !! p;
            del_search fuel c val (if val <? node_val then left n else right n)
      end
  end.

(** [avl_del], then [delete]. *)
Definition remove (c : container) (p : ptr) : option container :=
  '(m, root) ← avl_del (c_nodes c) p;
  Some (mkContainer (delete p m) (delete p (c_vals c)) root).

Definition del (c : container) (val : Z) : option (container * bool) :=
  cur ← del_search (size (c_nodes c)) c val (c_root c);
  match cur with
  | None => Some (c, false)
  | Some p => c ← remove c p; Some (c, true)
  end.

(** The checks on a child: its parent, and its value. *)
Definition verify_child (m : amem) (vals : gmap ptr Z) (node : ptr) (child : option ptr) (ok : Z -> bool) : option unit :=
  match child with
  | None => Some tt
  | Some q =>
      n ← m !! q;
      guard (parent n = Some node);;
      v ← vals !! q;
      guard (ok v = true);; Some tt
  end.

(** [avl_verify]; an [assert] that does not hold gives [None]. *)
Fixpoint avl_verify (fuel : nat) (m : amem) (vals : gmap ptr Z) (par node : option ptr) : option unit :=
  match node with
  | None => Some tt
  | Some p =>
      match fuel with
      | O => None
      | S fuel =>
          n ← m !! p;
          guard (parent n = par);;
          _ ← avl_verify fuel m vals node (left n);
          _ ← avl_verify fuel m vals node (right n);
          cl ← avl_cnt m (left n);
          cr ← avl_cnt m (right n);
          guard (cnt n = u32 (u32 (1 + cl) + cr));;
          l ← avl_height m (left n);
          r ← avl_height m (right n);
          guard (l = r \/ u32 (l + 1) = r \/ l = u32 (r + 1));;
          guard (height n = u32 (1 + Z.max l r));;
          val ← vals !! p;
          _ ← verify_child m vals p (left n) (fun v => v <=? val);
          verify_child m vals p (right n) (fun v => val <=? v)
      end
  end.

(** [std::multiset]: [insert], [erase] of one element, [erase] of a value. *)
Fixpoint ms_insert (v : Z) (l : list Z) : list Z :=
  match l with
  | [] => [v]
  | x :: l => if x <=? v then x :: ms_insert v l else v :: x :: l
  end.

Fixpoint ms_erase (v : Z) (l : list Z) : list Z :=
  match l with
  | [] => []
  | x :: l => if x =? v then l else x :: ms_erase v l
  end.

Definition ms_erase_all (v : Z) (l : list Z) : list Z := filter (fun x => x <> v) l.

Fixpoint extract (fuel : nat) (m : amem) (vals : gmap ptr Z) (node : option ptr) (extracted : list Z) : option (list Z) :=
  match node with
  | None => Some extracted
  | Some p =>
      match fuel with
      | O => None
      | S fuel =>
          n ← m !! p;
          ms ← extract fuel m vals (left n) extracted;
          v ← vals !! p;
          extract fuel m vals (right n) (ms_insert v ms)
      end
  end.

Definition container_verify (c : container) (ref : list Z) : option unit :=
  let fuel := size (c_nodes c) in
  _ ← avl_verify fuel (c_nodes c) (c_vals c) NULL (c_root c);
  n ← avl_cnt (c_nodes c) (c_root c);
  guard (n = zlen ref);;
  extracted ← extract fuel (c_nodes c) (c_vals c) (c_root c) [];
  guard (extracted = ref);; Some tt.

Fixpoint dispose (fuel : nat) (c : container) : option container :=
  match c_root c with
  | None => Some c
  | Some p =>
      match fuel with
      | O => None
      | S fuel => c ← remove c p; dispose fuel c
      end
  end.

(** ** The tests *)

(** The container and its reference. *)
Notation state := (container * list Z)%type.

Definition test_init : state := (container_init, []).

(** [add(c, val); ref.insert(val);] *)
Definition test_add (s : state) (val : Z) : option state :=
  c ← add s.1 val; Some (c, ms_insert val s.2).

Definition test_verify (s : state) : option state := _ ← container_verify s.1 s.2; Some s.

Fixpoint add_all (s : state) (vals : list Z) : option state :=
  match vals with
  | [] => Some s
  | v :: vals => s ← test_add s v; add_all s vals
  end.

Definition test_dispose (s : state) : option container := dispose (size (c_nodes s.1)) s.1.

Definition test_insert_at (sz val : Z) : option container :=
  s ← add_all test_init (filter (fun i => i <> val) (seqZ 0 sz));
  s ← test_verify s;
  s ← test_add s val;
  s ← test_verify s;
  test_dispose s.

Definition test_insert_dup_at (sz val : Z) : option container :=
  s ← add_all test_init (seqZ 0 sz);
  s ← test_verify s;
  s ← test_add s val;
  s ← test_verify s;
  test_dispose s.

Definition test_remove_at (sz val : Z) : option container :=
  s ← add_all test_init (seqZ 0 sz);
  s ← test_verify s;
  '(c, found) ← del s.1 val;
  guard ((found : bool) = true);;
  s ← test_verify (c, ms_erase_all val s.2);
  test_dispose s.

Definition test_insert (sz : Z) := mapM (test_insert_at sz) (seqZ 0 sz).
Definition test_insert_dup (sz : Z) := mapM (test_insert_dup_at sz) (seqZ 0 sz).
Definition test_remove (sz : Z) := mapM (test_remove_at sz) (seqZ 0 sz).

(** The loops of [main], over the values they use. *)
Fixpoint insert_loop (s : state) (vals : list Z) : option state :=
  match vals with
  | [] => Some s
  | v :: vals => s ← test_add s v; s ← test_verify s; insert_loop s vals
  end.

Fixpoint delete_loop (s : state) (vals : list Z) : option state :=
  match vals with
  | [] => Some s
  | v :: vals =>
      '(c, found) ← del s.1 v;
      s ← (if decide (v ∈ s.2) then guard ((found : bool) = true);; Some (c, ms_erase v s.2)
           else guard (found = false);; Some (c, s.2));
      s ← test_verify s;
      delete_loop s vals
  end.

(** [for (i = 0; i < 1000; i += 3)] *)
Definition sequential : list Z := (fun i => 3 * i) <$> seqZ 0 334.

(** The three tests of a size, and the containers they leave. *)
Definition test_positions (sz : Z) : option (list container) :=
  c1 ← test_insert sz;
  c2 ← test_insert_dup sz;
  c3 ← test_remove sz;
  Some (c1 ++ c2 ++ c3).

(** [rand k] is the result of the [k]-th call of [rand()]. *)
Definition draws (rand : nat -> Z) (from n : nat) : list Z := (fun k => u32 (rand k) mod 1000) <$> seq from n.

(** The containers that are left: those of the tests, and that of [main]. *)
Definition test_main (rand : nat -> Z) : option (list container * container) :=
  s ← test_verify test_init;
  s ← test_add s 123;
  s ← test_verify s;
  '(c, found) ← del s.1 124;
  guard ((found : bool) = false);;
  '(c, found) ← del c 123;
  guard ((found : bool) = true);;
  s ← test_verify (c, []);
  s ← insert_loop s sequential;
  s ← insert_loop s (draws rand 0 100);
  s ← delete_loop s (draws rand 100 200);
  cs ← mapM test_positions (seqZ 0 200);
  c ← test_dispose s;
  Some (concat cs, c).

(** ** Multisets *)

Notation sorted := (StronglySorted Z.le).

Lemma ms_insert_perm v l : ms_insert v l ≡ₚ v :: l.
Proof.
  induction l as [|x l IH]; [done|]. cbn [ms_insert]. destruct (x <=? v); [|done].
  rewrite IH. apply Permutation_swap.
Qed.

Lemma zlen_ms_insert v l : zlen (ms_insert v l) = zlen l + 1.
Proof. unfold zlen. rewrite ms_insert_perm. cbn. lia. Qed.

Lemma ms_insert_middle v a b :
  (forall x, x ∈ a -> x <= v) -> (forall x, x ∈ b -> v < x) -> ms_insert v (a ++ b) = a ++ v :: b.
Proof.
  intros Ha Hb. induction a as [|x a IH]; cbn [app ms_insert].
  - destruct b as [|x b]; [done|]. cbn. specialize (Hb x ltac:(set_solver)). by rewrite (proj2 (Z.leb_gt x v)).
  - rewrite (proj2 (Z.leb_le x v)) by (apply Ha; set_solver). f_equal. apply IH. set_solver.
Qed.

Lemma sorted_middle a v b : sorted (a ++ v :: b) <-> sorted (a ++ b) /\ (forall x, x ∈ a -> x <= v) /\ (forall x, x ∈ b -> v <= x).
Proof.
  split.
  - intros (Ha & [Hb Hv]%StronglySorted_inv & Hab)%sorted_app. rewrite Forall_forall in Hv. split_and!.
    + apply sorted_app. split_and!; [done|done|]. intros x y Hx Hy. apply Hab; set_solver.
    + intros x Hx. apply Hab; set_solver.
    + done.
  - intros ((Ha & Hb & Hab)%sorted_app & Hav & Hvb). apply sorted_app. split_and!; [done| |].
    + constructor; [done|]. by apply Forall_forall.
    + intros x y Hx [->|Hy]%elem_of_cons; auto.
Qed.

Lemma sorted_unique l k : sorted l -> sorted k -> l ≡ₚ k -> l = k.
Proof. intros. by eapply (StronglySorted_unique Z.le). Qed.

Lemma ms_insert_sorted v l : sorted l -> sorted (ms_insert v l).
Proof.
  induction 1 as [|x l Hl IH Hx]; [repeat constructor|]. cbn [ms_insert]. rewrite Forall_forall in Hx.
  destruct (Z.leb_spec x v).
  - constructor; [done|]. apply Forall_forall. intros y. rewrite ms_insert_perm. intros [->|Hy]%elem_of_cons; [done|auto].
  - constructor; [by constructor; [|apply Forall_forall]|]. apply Forall_cons. split; [lia|].
    apply Forall_forall. intros y Hy. specialize (Hx y Hy). lia.
Qed.

Lemma ms_erase_sublist v l : ms_erase v l `sublist_of` l.
Proof.
  induction l as [|x l IH]; [constructor|]. cbn [ms_erase]. destruct (x =? v); by constructor.
Qed.

Lemma ms_erase_perm v l : v ∈ l -> v :: ms_erase v l ≡ₚ l.
Proof.
  induction l as [|x l IH]; [set_solver|]. intros Hv. cbn [ms_erase]. destruct (Z.eqb_spec x v) as [->|Hne]; [done|].
  apply elem_of_cons in Hv as [<-|Hv]; [done|]. rewrite Permutation_swap. f_equiv. by apply IH.
Qed.

Lemma sublist_sorted l k : l `sublist_of` k -> sorted k -> sorted l.
Proof.
  induction 1 as [|x l k Hs IH|x l k Hs IH]; [done| |]; intros [Hk Hx]%StronglySorted_inv; [|by apply IH].
  constructor; [by apply IH|]. rewrite Forall_forall in Hx. apply Forall_forall. intros y Hy. apply Hx.
  by eapply elem_of_sublist.
Qed.

(** Removing any occurrence of [v] gives the same multiset. *)
Lemma ms_erase_middle a v b : sorted (a ++ v :: b) -> ms_erase v (a ++ v :: b) = a ++ b.
Proof.
  intros Hs. apply sorted_unique.
  - eapply sublist_sorted; [apply ms_erase_sublist|done].
  - by apply sorted_middle in Hs as [? _].
  - apply (Permutation_cons_inv (a := v)). rewrite ms_erase_perm by set_solver. symmetry. apply Permutation_middle.
Qed.

Lemma ms_erase_absent v l : v ∉ l -> ms_erase v l = l.
Proof.
  induction l as [|x l IH]; [done|]. rewrite not_elem_of_cons. intros [Hx Hl]. cbn [ms_erase].
  destruct (Z.eqb_spec x v); [congruence|]. by rewrite IH.
Qed.

(** ** Well-formed containers *)

(** The values of some nodes. *)
Definition vview (vals : gmap ptr Z) (l : list ptr) : list Z := (fun p => default 0 (vals !! p)) <$> l.

Record cont_tree (c : container) (T : tree) : Prop := {
  ct_rep : tree_rep (c_nodes c) None T;
  ct_root : c_root c = root T;
  ct_balanced : balanced T;
  ct_nodup : NoDup (inorder T);
  ct_nodes : dom (c_nodes c) = nodes T;
  ct_vals : dom (c_vals c) = nodes T
}.

(** The container holds the multiset [ref], and no other node. *)
Definition cont_rep (c : container) (ref : list Z) : Prop :=
  exists T, cont_tree c T /\ vview (c_vals c) (inorder T) = ref /\ sorted ref.

Lemma vview_app vals a b : vview vals (a ++ b) = vview vals a ++ vview vals b.
Proof. apply fmap_app. Qed.

Lemma vview_cons vals p l : vview vals (p :: l) = default 0 (vals !! p) :: vview vals l.
Proof. done. Qed.

Lemma vview_in vals p l : p ∈ l -> default 0 (vals !! p) ∈ vview vals l.
Proof. intros Hp. apply list_elem_of_fmap. by exists p. Qed.

Lemma vview_frame vals vals' l : (forall p, p ∈ l -> vals' !! p = vals !! p) -> vview vals' l = vview vals l.
Proof.
  intros H. apply list_fmap_ext. intros i p Hp. rewrite H; [done|]. by eapply list_elem_of_lookup_2.
Qed.

Lemma cont_rep_size c ref T : cont_tree c T -> vview (c_vals c) (inorder T) = ref -> tsize T = zlen ref.
Proof. intros _ <-. unfold tsize, zlen, vview. by rewrite length_fmap. Qed.

Lemma cont_fuel c T : cont_tree c T -> (length (inorder T) <= size (c_nodes c))%nat.
Proof.
  intros Hc. apply nodes_length_le; [apply Hc|]. intros i Hi. by eapply tree_rep_dom, Hi; apply Hc.
Qed.

Lemma cont_val c T p : cont_tree c T -> p ∈ inorder T -> exists v, c_vals c !! p = Some v.
Proof. intros Hc Hp. apply elem_of_dom. rewrite (ct_vals _ _ Hc). by apply elem_of_nodes. Qed.

Lemma cont_init_rep : cont_rep container_init [].
Proof.
  exists Leaf. split; [split|split; [done|constructor]]; cbn; try done. constructor.
Qed.

(** ** Adding *)

(** The search ends between the values that are at most [val] and the greater
    ones. *)
Lemma add_search_spec c val t : forall ctx fuel,
  tree_rep (c_nodes c) None (plug ctx t) -> c_root c = root (plug ctx t) ->
  (forall p, p ∈ inorder t -> is_Some (c_vals c !! p)) -> sorted (vview (c_vals c) (inorder t)) ->
  (length (inorder t) <= fuel)%nat ->
  exists ctx', add_search fuel c val (ctx_par ctx) (ctx_slot ctx) = Some (ctx_par ctx', ctx_slot ctx') /\
    plug ctx t = plug ctx' Leaf /\
    exists a b, before ctx' = before ctx ++ a /\ after ctx' = b ++ after ctx /\
      (forall x, x ∈ vview (c_vals c) a -> x <= val) /\ (forall x, x ∈ vview (c_vals c) b -> val < x).
Proof.
  induction t as [|l IHl i r IHr]; intros ctx fuel Hrep Hroot Hlive Hsort Hfuel;
    pose proof (proj1 (tree_rep_plug _ _ _) Hrep) as (Ht & Hc%ctx_exact_rep);
    pose proof (aloc_read_spec _ _ _ Hc) as Hr; rewrite <- Hroot in Hr.
  - exists ctx. split; [|split; [done|]].
    + by destruct fuel; cbn [add_search]; rewrite Hr.
    + exists [], []. rewrite app_nil_r. split_and!; [done..|set_solver|set_solver].
  - cbn [inorder] in Hlive, Hsort, Hfuel. rewrite length_app in Hfuel. cbn [length] in Hfuel.
    destruct fuel as [|fuel]; [lia|]. cbn [add_search]. rewrite Hr. cbn [root mbind option_bind].
    destruct (Hlive i ltac:(set_solver)) as [v Hv]. rewrite Hv. cbn [mbind option_bind].
    rewrite vview_app, vview_cons, Hv in Hsort. cbn [default from_option] in Hsort.
    pose proof Hsort as (_ & Hlv & Hrv)%sorted_middle. apply sorted_app in Hsort as (Hsl & [Hsr _]%StronglySorted_inv & _).
    destruct (Z.ltb_spec val v) as [Hlt|Hge].
    + destruct (IHl (InL i r :: ctx) fuel) as (ctx' & E & Hp & a & b & Ha & Hb & Hna & Hnb);
        [done|done|intros; apply Hlive; set_solver|done|lia|].
      exists ctx'. split; [exact E|]. split; [done|]. exists a, (b ++ i :: inorder r). cbn [before after] in Ha, Hb.
      split_and!; [done|by rewrite Hb, <- app_assoc|done|].
      intros x. rewrite vview_app, vview_cons, Hv, elem_of_app, elem_of_cons. cbn [default from_option id].
      intros [Hx|[->|Hx]]; [by apply Hnb|done|]. specialize (Hrv x Hx). unfold id in *. lia.
    + destruct (IHr (InR l i :: ctx) fuel) as (ctx' & E & Hp & a & b & Ha & Hb & Hna & Hnb);
        [done|done|intros; apply Hlive; set_solver|done|lia|].
      exists ctx'. split; [exact E|]. split; [done|]. exists (inorder l ++ i :: a), b. cbn [before after] in Ha, Hb.
      split_and!; [by rewrite Ha, <- !app_assoc|done| |done].
      intros x. rewrite vview_app, vview_cons, Hv, elem_of_app, elem_of_cons. cbn [default from_option id].
      intros [Hx|[->|Hx]]; [specialize (Hlv x Hx); unfold id in *; lia|done|by apply Hna].
Qed.

Lemma add_spec c ref val :
  cont_rep c ref -> zlen ref + 1 < 2 ^ 32 - 1 ->
  exists c', add c val = Some c' /\ cont_rep c' (ms_insert val ref).
Proof.
  intros (T & Hc & Hv & Hs) Hsize. unfold add, data_new. set (data := fresh _).
  assert (Hfresh : data ∉ dom (c_nodes c) ∪ dom (c_vals c)) by apply is_fresh. clearbody data.
  rewrite (ct_nodes _ _ Hc), (ct_vals _ _ Hc), union_idemp_L, elem_of_nodes in Hfresh.
  set (m := <[data := avl_init]> (c_nodes c)). set (vals := <[data := val]> (c_vals c)).
  assert (Hrep : tree_rep m None T).
  { eapply tree_rep_frame, Hc. intros i Hi. apply lookup_insert_ne. by intros <-. }
  assert (Hview : forall l, data ∉ l -> vview vals l = vview (c_vals c) l).
  { intros l Hl. apply vview_frame. intros p Hp. apply lookup_insert_ne. by intros <-. }
  assert (Hfuel : (length (inorder T) <= size m)%nat).
  { apply nodes_length_le; [apply Hc|]. intros i. by eapply tree_rep_dom. }
  destruct (add_search_spec (mkContainer m vals (c_root c)) val T [] (size m)) as (ctx & E & Hp & a & b & Ha & Hb & Hna & Hnb).
  { exact Hrep. }
  { apply Hc. }
  { intros p Hp. destruct (cont_val c T p Hc Hp) as [v Hpv]. exists v. cbn [c_vals]. unfold vals. rewrite lookup_insert_ne; [done|]. by intros <-. }
  { cbn. by rewrite Hview, Hv. }
  { exact Hfuel. }
  cbn [plug ctx_par ctx_slot before after app c_vals c_nodes c_root] in *. rewrite app_nil_r in Hb. subst a b.
  rewrite E, bind_Some_l. assert (HT : inorder T = before ctx ++ after ctx) by (rewrite Hp, inorder_plug; done).
  pose proof (cont_rep_size _ _ _ Hc Hv) as Hts. destruct Hc as [Hcr Hroot Hbal Hnd Hdn Hdv]. rewrite Hroot, Hp.
  assert (Hn : data ∉ inorder T) by done. rewrite Hp in Hrep, Hnd, Hbal, Hn, Hts.
  destruct (tree_attach m ctx data Hrep Hnd Hbal Hn) as (m1 & loc & m2 & m3 & T' & E1 & E2 & E3 & Hrep' & Hbal' & HT' & _ & Hd);
    [apply lookup_insert_eq|lia|].
  rewrite E1, bind_Some_l, E2, bind_Some_l, E3, bind_Some_l. eexists. split; [done|]. exists T'.
  rewrite HT in Hfresh. pose proof Hfresh as [Hf1 Hf2]%not_elem_of_app.
  assert (Hnodes : nodes T' = {[data]} ∪ nodes T).
  { apply set_eq. intros x. rewrite elem_of_union, elem_of_singleton, !elem_of_nodes, HT', HT, !elem_of_app, elem_of_cons. tauto. }
  assert (Hview' : vview vals (inorder T') = ms_insert val ref).
  { rewrite HT', vview_app, vview_cons. unfold vals at 2. rewrite lookup_insert_eq. cbn [default from_option id].
    rewrite <- ms_insert_middle, <- vview_app, <- HT, Hview; [by rewrite Hv|by rewrite HT|done|done]. }
  split; [split|split; [exact Hview'|by apply ms_insert_sorted]]; cbn [c_nodes c_vals c_root]; try done.
  - rewrite HT', <- Permutation_middle. apply NoDup_cons. split; [done|]. rewrite inorder_plug in Hnd. exact Hnd.
  - rewrite Hd, Hnodes. unfold m. by rewrite dom_insert_L, Hdn.
  - rewrite Hnodes. unfold vals. by rewrite dom_insert_L, Hdv.
Qed.

(** ** Deleting *)

Lemma del_search_spec c val t : forall par fuel,
  tree_rep (c_nodes c) par t -> (forall p, p ∈ inorder t -> is_Some (c_vals c !! p)) ->
  sorted (vview (c_vals c) (inorder t)) -> (length (inorder t) <= fuel)%nat ->
  exists r, del_search fuel c val (root t) = Some r /\
    match r with
    | Some p => p ∈ inorder t /\ c_vals c !! p = Some val
    | None => val ∉ vview (c_vals c) (inorder t)
    end.
Proof.
  induction t as [|l IHl i r IHr]; intros par fuel Hrep Hlive Hsort Hfuel.
  { exists NULL. split; [by destruct fuel|]. apply not_elem_of_nil. }
  cbn [inorder] in *. rewrite length_app in Hfuel. cbn [length] in Hfuel. destruct Hrep as (Hi & Hl & Hr).
  destruct fuel as [|fuel]; [lia|]. cbn [del_search root].
  destruct (Hlive i ltac:(set_solver)) as [v Hv]. rewrite Hv, bind_Some_l.
  rewrite vview_app, vview_cons, Hv in Hsort |- *. cbn [default from_option id] in *. unfold id in *.
  pose proof Hsort as (_ & Hlv & Hrv)%sorted_middle. apply sorted_app in Hsort as (Hsl & [Hsr _]%StronglySorted_inv & _).
  destruct (Z.eqb_spec val v) as [->|Hne]; [exists (Some i); split; [done|]; split; [set_solver|done]|].
  rewrite Hi, bind_Some_l. destruct (Z.ltb_spec val v) as [Hlt|Hge].
  - destruct (IHl (Some i) fuel Hl) as (x & E & Hx); [intros; apply Hlive; set_solver|done|lia|].
    exists x. split; [exact E|]. destruct x as [p|]; [set_solver|].
    rewrite elem_of_app, elem_of_cons. intros [?|[->|Hin]]; [done|done|]. specialize (Hrv val Hin). lia.
  - destruct (IHr (Some i) fuel Hr) as (x & E & Hx); [intros; apply Hlive; set_solver|done|lia|].
    exists x. split; [exact E|]. destruct x as [p|]; [set_solver|].
    rewrite elem_of_app, elem_of_cons. intros [Hin|[->|?]]; [|done|done]. specialize (Hlv val Hin). lia.
Qed.

Lemma remove_spec c T ref p v :
  cont_tree c T -> vview (c_vals c) (inorder T) = ref -> sorted ref -> zlen ref < 2 ^ 32 - 1 ->
  p ∈ inorder T -> c_vals c !! p = Some v ->
  exists c', remove c p = Some c' /\ cont_rep c' (ms_erase v ref).
Proof.
  intros Hc Hv Hs Hsize Hp Hpv. pose proof (cont_rep_size _ _ _ Hc Hv) as Hts. destruct Hc as [Hrep Hroot Hbal Hnd Hdn Hdv].
  destruct (tree_detach (c_nodes c) T p Hrep Hnd Hbal ltac:(lia) Hp) as (m & T' & a & b & E & Hrep' & Hbal' & HT & HT' & Ho & Hd).
  unfold remove. rewrite E, bind_Some_l. eexists. split; [done|]. exists T'. rewrite HT in Hnd.
  pose proof Hnd as Hnd2. rewrite <- Permutation_middle in Hnd2. apply NoDup_cons in Hnd2 as [Hpn Hnd2].
  assert (Hview : forall l, p ∉ l -> vview (delete p (c_vals c)) l = vview (c_vals c) l).
  { intros l Hl. apply vview_frame. intros q Hq. apply lookup_delete_ne. by intros ->. }
  assert (Hnodes : nodes T' = nodes T ∖ {[p]}).
  { apply set_eq. intros x. rewrite elem_of_difference, elem_of_singleton, !elem_of_nodes, HT', HT.
    rewrite !elem_of_app, elem_of_cons. rewrite elem_of_app in Hpn. naive_solver. }
  rewrite HT, vview_app, vview_cons, Hpv in Hv. cbn [default from_option id] in Hv. unfold id in Hv.
  assert (Hview' : vview (delete p (c_vals c)) (inorder T') = ms_erase v ref).
  { rewrite HT', Hview, vview_app by done. rewrite <- Hv. rewrite ms_erase_middle; [done|by rewrite Hv]. }
  split; [split|split; [exact Hview'|]]; cbn [c_nodes c_vals c_root]; try done.
  - eapply tree_rep_frame, Hrep'. intros q Hq. apply lookup_delete_ne. intros <-. by rewrite HT' in Hq.
  - by rewrite HT'.
  - by rewrite dom_delete_L, Hd, Hdn, Hnodes.
  - by rewrite dom_delete_L, Hdv, Hnodes.
  - eapply sublist_sorted; [apply ms_erase_sublist|done].
Qed.

Lemma del_spec c ref val :
  cont_rep c ref -> zlen ref < 2 ^ 32 - 1 ->
  exists c', del c val = Some (c', bool_decide (val ∈ ref)) /\ cont_rep c' (ms_erase val ref).
Proof.
  intros (T & Hc & Hv & Hs) Hsize. unfold del. rewrite (ct_root _ _ Hc).
  destruct (del_search_spec c val T None (size (c_nodes c))) as (r & E & Hr);
    [apply Hc|intros p Hp; destruct (cont_val c T p Hc Hp) as [v ?]; by exists v|by rewrite Hv|by apply cont_fuel|].
  rewrite E, bind_Some_l. destruct r as [p|].
  - destruct Hr as [Hp Hpv]. destruct (remove_spec c T ref p val Hc Hv Hs Hsize Hp Hpv) as (c' & E' & Hc').
    exists c'. rewrite E', bind_Some_l, bool_decide_eq_true_2; [done|]. rewrite <- Hv.
    pose proof (vview_in (c_vals c) p _ Hp) as H. by rewrite Hpv in H.
  - rewrite Hv in Hr. exists c. rewrite bool_decide_eq_false_2 by done. split; [done|].
    rewrite ms_erase_absent by done. by exists T.
Qed.

Lemma dispose_spec ref : forall fuel c,
  cont_rep c ref -> zlen ref < 2 ^ 32 - 1 -> (length ref <= fuel)%nat -> dispose fuel c = Some container_init.
Proof.
  intros fuel. remember (length ref) as n eqn:En. revert ref fuel En. induction n as [|n IH]; intros ref fuel En c (T & Hc & Hv & Hs) Hsize Hfuel.
  - destruct ref; [|done]. pose proof (cont_rep_size _ _ _ Hc Hv) as Ht.
    destruct T as [|l i r]; [|rewrite tsize_node in Ht; pose proof (tsize_nonneg l); pose proof (tsize_nonneg r); unfold zlen in Ht; cbn [length] in Ht; lia].
    destruct Hc as [_ Hroot _ _ Hdn Hdv]. apply dom_empty_inv_L in Hdn, Hdv. destruct c as [m vals r]. cbn in *. subst.
    by destruct fuel.
  - destruct fuel as [|fuel]; [lia|]. pose proof (cont_rep_size _ _ _ Hc Hv) as Ht.
    destruct T as [|l i r]; [unfold tsize, zlen in Ht; cbn [inorder length] in Ht; lia|]. cbn [dispose]. rewrite (ct_root _ _ Hc). cbn [root].
    assert (Hi : i ∈ inorder (Node l i r)) by (cbn; set_solver).
    destruct (cont_val c _ i Hc Hi) as [v Hpv].
    destruct (remove_spec c _ ref i v Hc Hv Hs Hsize Hi Hpv) as (c' & E & Hc'). rewrite E, bind_Some_l.
    assert (Hin : v ∈ ref) by (rewrite <- Hv; pose proof (vview_in (c_vals c) i _ Hi) as H; by rewrite Hpv in H).
    pose proof (Permutation_length (ms_erase_perm v ref Hin)) as Hl. cbn in Hl.
    apply (IH (ms_erase v ref)); [lia|done| |lia]. unfold zlen in *. lia.
Qed.

(** ** Verifying *)

Lemma hgt_range t : tsize t < 2 ^ 32 - 1 -> 0 <= hgt t < 2 ^ 32 - 1.
Proof. pose proof (hgt_nonneg t). pose proof (hgt_le_tsize t). lia. Qed.

Lemma verify_child_spec m vals i t ok :
  tree_rep m (Some i) t -> (forall p, p ∈ inorder t -> exists v, vals !! p = Some v /\ ok v = true) ->
  verify_child m vals i (root t) ok = Some tt.
Proof.
  intros Hrep Hok. destruct t as [|l j r]; [done|]. cbn [verify_child root]. destruct Hrep as (Hj & _).
  rewrite Hj, bind_Some_l. destruct (Hok j ltac:(cbn; set_solver)) as (v & Hv & Ho).
  rewrite option_guard_True by done. rewrite Hv, bind_Some_l. by rewrite option_guard_True.
Qed.

Lemma avl_verify_spec m vals t : forall par fuel,
  tree_rep m par t -> balanced t -> (forall p, p ∈ inorder t -> is_Some (vals !! p)) ->
  sorted (vview vals (inorder t)) -> tsize t < 2 ^ 32 - 1 -> (length (inorder t) <= fuel)%nat ->
  avl_verify fuel m vals par (root t) = Some tt.
Proof.
  induction t as [|l IHl i r IHr]; intros par fuel Hrep Hbal Hlive Hsort Hsize Hfuel; [by destruct fuel|].
  cbn [inorder] in *. rewrite length_app in Hfuel. cbn [length] in Hfuel. destruct fuel as [|fuel]; [lia|].
  destruct Hrep as (Hi & Hl & Hr), Hbal as (Hbl & Hbr & Hd). pose proof (tsize_node l i r) as Hn. rewrite Hn in Hsize.
  pose proof (tsize_nonneg l). pose proof (tsize_nonneg r).
  pose proof (hgt_range l ltac:(lia)). pose proof (hgt_range r ltac:(lia)).
  destruct (Hlive i ltac:(set_solver)) as [v Hv]. rewrite vview_app, vview_cons, Hv in Hsort.
  cbn [default from_option id] in Hsort. unfold id in Hsort.
  pose proof Hsort as (_ & Hlv & Hrv)%sorted_middle. apply sorted_app in Hsort as (Hsl & [Hsr _]%StronglySorted_inv & _).
  assert (Hval : forall t', (forall p, p ∈ inorder t' -> p ∈ inorder l ++ i :: inorder r) -> forall p, p ∈ inorder t' ->
    exists w, vals !! p = Some w /\ w ∈ vview vals (inorder t')).
  { intros t' Hsub p Hp. destruct (Hlive p (Hsub p Hp)) as [w Hw]. exists w. split; [done|].
    pose proof (vview_in vals p _ Hp) as H'. by rewrite Hw in H'. }
  cbn [avl_verify root]. rewrite Hi, bind_Some_l. cbn [parent left right cnt height]. rewrite option_guard_True by done.
  rewrite (IHl (Some i) fuel), bind_Some_l by (done || lia || (intros; apply Hlive; set_solver)).
  rewrite (IHr (Some i) fuel), bind_Some_l by (done || lia || (intros; apply Hlive; set_solver)).
  rewrite (avl_cnt_rep _ _ _ Hl), bind_Some_l, (avl_cnt_rep _ _ _ Hr), bind_Some_l.
  rewrite option_guard_True by (rewrite Hn, (u32_small (1 + tsize l)), u32_small; lia).
  rewrite (avl_height_rep _ _ _ Hl), bind_Some_l, (avl_height_rep _ _ _ Hr), bind_Some_l.
  rewrite option_guard_True by (rewrite !u32_small; lia).
  rewrite option_guard_True by (cbn [hgt]; rewrite u32_small; lia).
  rewrite Hv, bind_Some_l, (verify_child_spec m vals i l), bind_Some_l; [apply (verify_child_spec m vals i r)|..]; try done.
  - intros p Hp. destruct (Hval r ltac:(set_solver) p Hp) as (w & Hw & Hin). exists w. split; [done|]. apply Z.leb_le. by apply Hrv.
  - intros p Hp. destruct (Hval l ltac:(set_solver) p Hp) as (w & Hw & Hin). exists w. split; [done|]. apply Z.leb_le. by apply Hlv.
Qed.

(** [extract] inserts the values one by one. *)
Lemma extract_spec m vals t : forall par fuel ms,
  tree_rep m par t -> (forall p, p ∈ inorder t -> is_Some (vals !! p)) -> (length (inorder t) <= fuel)%nat ->
  extract fuel m vals (root t) ms = Some (foldl (fun ms v => ms_insert v ms) ms (vview vals (inorder t))).
Proof.
  induction t as [|l IHl i r IHr]; intros par fuel ms Hrep Hlive Hfuel; [by destruct fuel|].
  cbn [inorder] in *. rewrite length_app in Hfuel. cbn [length] in Hfuel. destruct fuel as [|fuel]; [lia|].
  destruct Hrep as (Hi & Hl & Hr). destruct (Hlive i ltac:(set_solver)) as [v Hv].
  cbn [extract root]. rewrite Hi, bind_Some_l. cbn [left right].
  rewrite (IHl (Some i) fuel), bind_Some_l by (done || lia || (intros; apply Hlive; set_solver)).
  rewrite Hv, bind_Some_l, (IHr (Some i) fuel) by (done || lia || (intros; apply Hlive; set_solver)).
  by rewrite vview_app, vview_cons, Hv, foldl_app.
Qed.

Lemma foldl_ms_insert l : forall ms, sorted ms -> let r := foldl (fun ms v => ms_insert v ms) ms l in sorted r /\ r ≡ₚ ms ++ l.
Proof.
  induction l as [|v l IH]; intros ms Hs; cbn; [by rewrite app_nil_r|].
  destruct (IH (ms_insert v ms) (ms_insert_sorted v ms Hs)) as [H1 H2]. split; [done|].
  by rewrite H2, ms_insert_perm, <- Permutation_middle.
Qed.

Lemma container_verify_spec c ref :
  cont_rep c ref -> zlen ref < 2 ^ 32 - 1 -> container_verify c ref = Some tt.
Proof.
  intros (T & Hc & Hv & Hs) Hsize. pose proof (cont_rep_size _ _ _ Hc Hv) as Ht.
  assert (Hlive : forall p, p ∈ inorder T -> is_Some (c_vals c !! p)).
  { intros p Hp. destruct (cont_val c T p Hc Hp) as [v ?]. by exists v. }
  pose proof (cont_fuel c T Hc) as Hfuel. unfold container_verify. rewrite (ct_root _ _ Hc).
  rewrite (avl_verify_spec _ _ T None) by (done || apply Hc || lia || by rewrite Hv). rewrite bind_Some_l.
  rewrite (avl_cnt_rep _ _ _ (ct_rep _ _ Hc)), bind_Some_l, option_guard_True by done.
  rewrite (extract_spec _ _ T None), bind_Some_l by (done || apply Hc).
  rewrite option_guard_True; [done|]. rewrite Hv.
  destruct (foldl_ms_insert ref []) as [H1 H2]; [constructor|]. by apply sorted_unique.
Qed.

(** ** The tests pass *)

Definition state_rep (s : state) : Prop := cont_rep s.1 s.2.

Lemma test_init_rep : state_rep test_init.
Proof. apply cont_init_rep. Qed.

Lemma test_add_ok s v :
  state_rep s -> zlen s.2 + 1 < 2 ^ 32 - 1 ->
  exists s', test_add s v = Some s' /\ state_rep s' /\ s'.2 = ms_insert v s.2 /\ zlen s'.2 = zlen s.2 + 1.
Proof.
  intros Hr Hs. destruct (add_spec s.1 s.2 v Hr Hs) as (c & E & Hc). exists (c, ms_insert v s.2).
  unfold test_add. rewrite E, bind_Some_l. split_and!; [done|done|done|apply zlen_ms_insert].
Qed.

Lemma test_verify_ok s : state_rep s -> zlen s.2 < 2 ^ 32 - 1 -> test_verify s = Some s.
Proof. intros Hr Hs. unfold test_verify. by rewrite (container_verify_spec _ _ Hr Hs), bind_Some_l. Qed.

Lemma test_dispose_ok s : state_rep s -> zlen s.2 < 2 ^ 32 - 1 -> test_dispose s = Some container_init.
Proof.
  intros Hr Hs. apply (dispose_spec s.2); [done|done|]. destruct Hr as (T & Hc & Hv & _).
  pose proof (cont_fuel _ _ Hc). pose proof (cont_rep_size _ _ _ Hc Hv). unfold tsize, zlen in *. lia.
Qed.

Lemma add_all_ok vals : forall s,
  state_rep s -> zlen s.2 + zlen vals < 2 ^ 32 - 1 ->
  exists s', add_all s vals = Some s' /\ state_rep s' /\ s'.2 ≡ₚ vals ++ s.2 /\ zlen s'.2 = zlen s.2 + zlen vals.
Proof.
  induction vals as [|v vals IH]; intros s Hr Hs; cbn [add_all].
  - exists s. split_and!; [done|done|done|]. unfold zlen. cbn. lia.
  - rewrite zlen_cons in Hs. pose proof (zlen_nonneg vals).
    destruct (test_add_ok s v Hr ltac:(lia)) as (s1 & E & Hr1 & E1 & Hl1). rewrite E, bind_Some_l.
    destruct (IH s1 Hr1 ltac:(lia)) as (s' & E' & Hr' & Hp & Hl). exists s'. rewrite zlen_cons.
    split_and!; [done|done| |lia]. by rewrite Hp, E1, ms_insert_perm, <- Permutation_middle.
Qed.

Lemma insert_loop_ok vals : forall s,
  state_rep s -> zlen s.2 + zlen vals < 2 ^ 32 - 1 ->
  exists s', insert_loop s vals = Some s' /\ state_rep s' /\ zlen s'.2 = zlen s.2 + zlen vals.
Proof.
  induction vals as [|v vals IH]; intros s Hr Hs; cbn [insert_loop].
  - exists s. split_and!; [done|done|]. unfold zlen. cbn. lia.
  - rewrite zlen_cons in Hs. pose proof (zlen_nonneg vals).
    destruct (test_add_ok s v Hr ltac:(lia)) as (s1 & E & Hr1 & _ & Hl1).
    rewrite E, bind_Some_l, (test_verify_ok s1), bind_Some_l by (done || lia).
    destruct (IH s1 Hr1 ltac:(lia)) as (s' & E' & Hr' & Hl). exists s'. rewrite zlen_cons. split_and!; [done|done|lia].
Qed.

Lemma zlen_ms_erase v l : zlen (ms_erase v l) <= zlen l.
Proof. pose proof (sublist_length _ _ (ms_erase_sublist v l)). unfold zlen. lia. Qed.

Lemma delete_loop_ok vals : forall s,
  state_rep s -> zlen s.2 < 2 ^ 32 - 1 ->
  exists s', delete_loop s vals = Some s' /\ state_rep s' /\ zlen s'.2 <= zlen s.2.
Proof.
  induction vals as [|v vals IH]; intros s Hr Hs; cbn [delete_loop]; [by exists s|].
  destruct (del_spec s.1 s.2 v Hr Hs) as (c & E & Hc). rewrite E, bind_Some_l. cbn [fst snd].
  pose proof (zlen_ms_erase v s.2).
  assert (Hnext : (if decide (v ∈ s.2) then guard (bool_decide (v ∈ s.2) = true);; Some (c, ms_erase v s.2)
    else guard (bool_decide (v ∈ s.2) = false);; Some (c, s.2)) = Some (c, ms_erase v s.2)).
  { destruct (decide (v ∈ s.2)); [rewrite bool_decide_eq_true_2 by done|rewrite bool_decide_eq_false_2 by done];
      rewrite option_guard_True by done; [done|]. by rewrite ms_erase_absent. }
  rewrite Hnext, bind_Some_l, test_verify_ok, bind_Some_l by (done || (cbn [snd]; lia)).
  destruct (IH (c, ms_erase v s.2) Hc ltac:(cbn [snd]; lia)) as (s' & E' & Hr' & Hl). exists s'. cbn [snd] in Hl.
  split_and!; [done|done|lia].
Qed.

(** The end of the tests of one position. *)
Lemma finish_ok s v :
  state_rep s -> zlen s.2 + 1 < 2 ^ 32 - 1 ->
  (s ← test_verify s; s ← test_add s v; s ← test_verify s; test_dispose s) = Some container_init.
Proof.
  intros Hr Hs. rewrite test_verify_ok, bind_Some_l by (done || lia).
  destruct (test_add_ok s v Hr Hs) as (s1 & E & Hr1 & _ & Hl). rewrite E, bind_Some_l.
  rewrite test_verify_ok, bind_Some_l by (done || lia). apply test_dispose_ok; [done|lia].
Qed.

Lemma zlen_seqZ n : 0 <= n -> zlen (seqZ 0 n) = n.
Proof. intros Hn. unfold zlen. rewrite length_seqZ. lia. Qed.

Lemma test_insert_at_ok sz v : 0 <= sz < 2 ^ 32 - 2 -> test_insert_at sz v = Some container_init.
Proof.
  intros Hsz. unfold test_insert_at. set (l := filter _ _).
  assert (Hl : zlen l <= sz) by (rewrite <- (zlen_seqZ sz) by lia; unfold zlen; apply Nat2Z.inj_le, length_filter).
  destruct (add_all_ok l test_init test_init_rep) as (s & E & Hr & _ & Hs); [change (zlen test_init.2) with 0; lia|].
  change (zlen test_init.2) with 0 in Hs. rewrite E, bind_Some_l. apply finish_ok; [done|lia].
Qed.

Lemma test_insert_dup_at_ok sz v : 0 <= sz < 2 ^ 32 - 2 -> test_insert_dup_at sz v = Some container_init.
Proof.
  intros Hsz. unfold test_insert_dup_at. pose proof (zlen_seqZ sz ltac:(lia)) as Hl.
  destruct (add_all_ok (seqZ 0 sz) test_init test_init_rep) as (s & E & Hr & _ & Hs); [change (zlen test_init.2) with 0; lia|].
  change (zlen test_init.2) with 0 in Hs. rewrite E, bind_Some_l. apply finish_ok; [done|lia].
Qed.

(** Without duplicates, erasing the value erases its one element. *)
Lemma ms_erase_all_once v l : NoDup l -> ms_erase_all v l = ms_erase v l.
Proof.
  unfold ms_erase_all. induction 1 as [|x l Hx _ IH]; [done|]. cbn [ms_erase]. destruct (Z.eqb_spec x v) as [->|Hne].
  - rewrite filter_cons_False by auto. rewrite IH. by apply ms_erase_absent.
  - rewrite filter_cons_True by done. by rewrite IH.
Qed.

Lemma test_remove_at_ok sz v : 0 <= sz < 2 ^ 32 - 2 -> v ∈ seqZ 0 sz -> test_remove_at sz v = Some container_init.
Proof.
  intros Hsz Hv. unfold test_remove_at. pose proof (zlen_seqZ sz ltac:(lia)) as Hl.
  destruct (add_all_ok (seqZ 0 sz) test_init test_init_rep) as (s & E & Hr & Hp & Hs); [change (zlen test_init.2) with 0; lia|].
  change (zlen test_init.2) with 0 in Hs. change (test_init.2) with (@nil Z) in Hp. rewrite app_nil_r in Hp.
  rewrite E, bind_Some_l, test_verify_ok, bind_Some_l by (done || lia).
  destruct (del_spec s.1 s.2 v Hr ltac:(lia)) as (c & E' & Hc). rewrite E', bind_Some_l.
  rewrite option_guard_True by (apply bool_decide_eq_true_2; by rewrite Hp).
  rewrite ms_erase_all_once by (rewrite Hp; apply NoDup_seqZ). pose proof (zlen_ms_erase v s.2).
  rewrite test_verify_ok, bind_Some_l by (done || (cbn [snd]; lia)). apply test_dispose_ok; [done|cbn [snd]; lia].
Qed.

Lemma mapM_all {A B} (f : A -> option B) (l : list A) : (forall x, x ∈ l -> is_Some (f x)) -> is_Some (mapM f l).
Proof.
  intros H. apply mapM_is_Some_2. by apply Forall_forall.
Qed.

(** All the results are known. *)
Lemma mapM_fmap {A B} (f : A -> option B) (g : A -> B) (l : list A) :
  (forall x, x ∈ l -> f x = Some (g x)) -> mapM f l = Some (g <$> l).
Proof.
  intros H. apply mapM_Some_2. induction l as [|x l IH]; constructor; [apply H; set_solver|].
  apply IH. intros y Hy. apply H. set_solver.
Qed.

Lemma mapM_same {A B} (f : A -> option B) (y : B) (l : list A) :
  (forall x, x ∈ l -> f x = Some y) -> mapM f l = Some (replicate (length l) y).
Proof.
  intros H. rewrite (mapM_fmap f (fun _ => y)) by done. f_equal. clear H. induction l as [|x l IH]; [done|].
  rewrite fmap_cons. cbn. by rewrite IH.
Qed.

(** Each test of size [i] leaves [i] empty containers. *)
Lemma test_positions_ok i :
  0 <= i < 2 ^ 32 - 2 -> test_positions i = Some (replicate (Z.to_nat (3 * i)) container_init).
Proof.
  intros Hi. unfold test_positions, test_insert, test_insert_dup, test_remove.
  rewrite (mapM_same (test_insert_at i) container_init) by (intros v _; by apply test_insert_at_ok).
  rewrite (mapM_same (test_insert_dup_at i) container_init) by (intros v _; by apply test_insert_dup_at_ok).
  rewrite (mapM_same (test_remove_at i) container_init) by (intros v Hv; by apply test_remove_at_ok).
  rewrite !bind_Some_l, <- !replicate_add, length_seqZ. do 2 f_equal. lia.
Qed.

(** What is left of the tests of all sizes below [n]. *)
Definition all_positions (n : Z) : list container :=
  concat ((fun i => replicate (Z.to_nat (3 * i)) container_init) <$> seqZ 0 n).

Lemma zlen_draws rand from n : zlen (draws rand from n) = Z.of_nat n.
Proof. unfold zlen, draws. by rewrite length_fmap, length_seq. Qed.

Lemma test_main_ok rand : test_main rand = Some (all_positions 200, container_init).
Proof.
  unfold test_main. rewrite test_verify_ok, bind_Some_l by (apply test_init_rep || done).
  destruct (test_add_ok test_init 123 test_init_rep ltac:(done)) as (s1 & E1 & Hr1 & Hs1 & Hl1).
  change (zlen test_init.2) with 0 in Hl1. change (ms_insert 123 test_init.2) with [123] in Hs1.
  rewrite E1, bind_Some_l, test_verify_ok, bind_Some_l by (done || lia).
  destruct (del_spec s1.1 s1.2 124 Hr1 ltac:(lia)) as (c2 & E2 & Hc2). rewrite E2, bind_Some_l.
  rewrite option_guard_True by (rewrite Hs1; reflexivity). rewrite Hs1 in Hc2. change (ms_erase 124 [123]) with [123] in Hc2.
  destruct (del_spec c2 [123] 123 Hc2 ltac:(done)) as (c3 & E3 & Hc3). rewrite E3, bind_Some_l.
  rewrite option_guard_True by reflexivity. change (ms_erase 123 [123]) with (@nil Z) in Hc3.
  rewrite (test_verify_ok (c3, [])), bind_Some_l by done.
  assert (Hseq : zlen sequential = 334) by (unfold zlen, sequential; by rewrite length_fmap, length_seqZ).
  destruct (insert_loop_ok sequential (c3, [])) as (s4 & E4 & Hr4 & Hl4); [done|rewrite Hseq; done|].
  rewrite Hseq in Hl4. change (zlen (c3, @nil Z).2) with 0 in Hl4. rewrite E4, bind_Some_l.
  destruct (insert_loop_ok (draws rand 0 100) s4) as (s5 & E5 & Hr5 & Hl5); [done|rewrite zlen_draws; lia|].
  rewrite zlen_draws in Hl5. rewrite E5, bind_Some_l.
  destruct (delete_loop_ok (draws rand 100 200) s5) as (s6 & E6 & Hr6 & Hl6); [done|lia|]. rewrite E6, bind_Some_l.
  rewrite (mapM_fmap test_positions (fun i => replicate (Z.to_nat (3 * i)) container_init)), bind_Some_l
    by (intros i Hi%elem_of_seqZ; apply test_positions_ok; lia).
  rewrite test_dispose_ok by (done || lia). by rewrite bind_Some_l.
Qed.
