(* ===== verification/TestOffset.v ===== *)
(** * test_offset.cpp: offsets from every node, and why the test never fails

    The test fills a tree with 0, 1, 2, ..., and moves from every value to every
    other with [avl_offset].  Its [add] differs from that of test_avl.cpp in the
    code but not in the result. *)

From S2P Require Import Prelude Avl AvlTree AvlProofs Zset ZsetProofs TestAvl.
Local Open Scope Z_scope.

(** ** The program *)

(** [while (true)], from the node [cur]. *)
Fixpoint offset_search (fuel : nat) (c : container) (val : Z) (cur : ptr) : option (ptr * aloc) :=
  match fuel with
  | O => None
  | S fuel =>
      node_val ← c_vals c !! cur;
      let from := if val <? node_val then ALeft cur else ARight cur in
      next ← aloc_read (c_nodes c) (c_root c) from;
      match next with
      | None => Some (cur, from)
      | Some p => offset_search fuel c val p
      end
  end.

Definition offset_add (c : container) (val : Z) : option container :=
  let '(c, data) := data_new c val in
  match c_root c with
  | None => Some (mkContainer (c_nodes c) (c_vals c) (Some data))
  | Some root =>
      '(cur, from) ← offset_search (size (c_nodes c)) c val root;
      '(m, _) ← aloc_store (c_nodes c) (c_root c) from (Some data);
      m ← store_upd m data (with_parent (Some cur));
      '(m, root) ← avl_fix m data;
      Some (mkContainer m (c_vals c) root)
  end.

Fixpoint offset_add_all (c : container) (vals : list Z) : option container :=
  match vals with
  | [] => Some c
  | v :: vals => c ← offset_add c v; offset_add_all c vals
  end.

(** [dispose(node)], by recursion. *)
Fixpoint dispose_nodes (fuel : nat) (m : amem) (vals : gmap ptr Z) (node : option ptr) : option (amem * gmap ptr Z) :=
  match node with
  | None => Some (m, vals)
  | Some p =>
      match fuel with
      | O => None
      | S fuel =>
          n ← m !! p;
          '(m, vals) ← dispose_nodes fuel m vals (left n);
          n ← m !! p;
          '(m, vals) ← dispose_nodes fuel m vals (right n);
          _ ← m !! p;
          Some (delete p m, delete p vals)
      end
  end.

(** [container_of(node, Data, node)->val == v]; a null [node] is undefined. *)
Definition check_val (c : container) (node : option ptr) (v : Z) : option ptr :=
  p ← node;
  x ← c_vals c !! p;
  guard (x = v);; Some p.

Definition check_offsets (c : container) (mn : ptr) (sz i : Z) : option unit :=
  node ← avl_offset (c_nodes c) mn i;
  p ← check_val c node i;
  _ ← mapM (fun j => n2 ← avl_offset (c_nodes c) p (j - i); check_val c n2 j) (seqZ 0 sz);
  before ← avl_offset (c_nodes c) p (- i - 1);
  guard (before = None);;
  after ← avl_offset (c_nodes c) p (sz - i);
  guard (after = None);; Some tt.

Definition offset_test_case (sz : Z) : option (amem * gmap ptr Z) :=
  c ← offset_add_all container_init (seqZ 0 sz);
  root ← c_root c;
  mn ← leftmost_loop (S (size (c_nodes c))) (c_nodes c) root;
  _ ← mapM (check_offsets c mn sz) (seqZ 0 sz);
  dispose_nodes (size (c_nodes c)) (c_nodes c) (c_vals c) (c_root c).

(** [for (i = 1; i < 500; ++i)] *)
Definition offset_main : option (list (amem * gmap ptr Z)) := mapM offset_test_case (seqZ 1 499).

(** ** The two ways of adding *)

Lemma add_search_offset c val fuel : forall cur0 from p,
  aloc_read (c_nodes c) (c_root c) from = Some (Some p) ->
  add_search fuel c val cur0 from = ('(cur, from) ← offset_search fuel c val p; Some (Some cur, from)).
Proof.
  induction fuel as [|fuel IH]; intros cur0 from p Hp; cbn [add_search offset_search]; rewrite Hp, bind_Some_l; [done|].
  destruct (c_vals c !! p) as [v|]; [|done]. rewrite !bind_Some_l.
  destruct (aloc_read (c_nodes c) (c_root c) (if val <? v then ALeft p else ARight p)) as [[q|]|] eqn:E.
  - rewrite bind_Some_l. by apply IH.
  - rewrite bind_Some_l. destruct fuel; cbn [add_search]; by rewrite E.
  - destruct fuel; cbn [add_search]; by rewrite E.
Qed.

Lemma avl_update_single m data : m !! data = Some avl_init -> avl_update m data = Some m.
Proof.
  intros Hm. unfold avl_update. rewrite Hm, bind_Some_l. cbn [avl_init left right avl_height avl_cnt mbind option_bind].
  rewrite (store_upd_Some _ _ _ _ Hm). f_equal. apply insert_id. by rewrite Hm.
Qed.

Lemma avl_fix_single m data : m !! data = Some avl_init -> avl_fix m data = Some (m, Some data).
Proof.
  intros Hm. unfold avl_fix. cbn [avl_fix_loop].
  assert (Hstep : avl_fix_step m data = Some (m, inr (Some data))); [|by rewrite Hstep].
  unfold avl_fix_step. rewrite Hm, bind_Some_l. cbn [avl_init parent].
  by rewrite bind_Some_l, (avl_update_single m data Hm), bind_Some_l, Hm.
Qed.

Lemma offset_add_same c ref val : cont_rep c ref -> offset_add c val = add c val.
Proof.
  intros (T & Hc & _). unfold offset_add, add, data_new. set (data := fresh _). clearbody data.
  cbn [c_root c_nodes c_vals]. set (m := <[data := avl_init]> (c_nodes c)).
  assert (Hm : m !! data = Some avl_init) by apply lookup_insert_eq. destruct (c_root c) as [r|].
  - rewrite (add_search_offset _ _ _ _ ALocal r) by done.
    by destruct (offset_search _ _ _ _) as [[cur from]|].
  - assert (Es : add_search (size m) (mkContainer m (<[data := val]> (c_vals c)) None) val NULL ALocal = Some (NULL, ALocal))
      by (by destruct (size m)).
    rewrite Es, bind_Some_l. cbn [aloc_store]. rewrite bind_Some_l, (store_upd_Some _ _ _ _ Hm), bind_Some_l.
    change (with_parent NULL avl_init) with avl_init. rewrite (insert_id m data) by done.
    by rewrite (avl_fix_single m data Hm), bind_Some_l.
Qed.

Lemma seqZ_sorted n : forall from, sorted ((fun i => from + Z.of_nat i) <$> seq 0 n).
Proof.
  induction n as [|n IH]; intros from; [constructor|]. cbn [seq fmap list_fmap]. constructor.
  - rewrite <- seq_shift. rewrite <- list_fmap_compose. eapply eq_rect; [apply (IH (from + 1))|].
    apply list_fmap_ext. intros i x _. cbn. lia.
  - apply Forall_forall. intros x (i & -> & Hi%elem_of_seq)%list_elem_of_fmap. lia.
Qed.

Lemma offset_add_all_ok vals : forall c ref,
  cont_rep c ref -> zlen ref + zlen vals < 2 ^ 32 - 1 ->
  exists c' ref', offset_add_all c vals = Some c' /\ cont_rep c' ref' /\ ref' ≡ₚ vals ++ ref.
Proof.
  induction vals as [|v vals IH]; intros c ref Hr Hs; cbn [offset_add_all]; [by exists c, ref|].
  rewrite zlen_cons in Hs. pose proof (zlen_nonneg vals). rewrite (offset_add_same c ref v Hr).
  destruct (add_spec c ref v Hr ltac:(lia)) as (c1 & E & Hc1). rewrite E, bind_Some_l.
  destruct (IH c1 _ Hc1) as (c' & ref' & E' & Hc' & Hp); [rewrite zlen_ms_insert; lia|].
  exists c', ref'. split_and!; [done|done|]. by rewrite Hp, ms_insert_perm, <- Permutation_middle.
Qed.

(** The tree of 0, 1, 2, ... *)
Lemma offset_filled sz :
  0 <= sz < 2 ^ 32 - 1 -> exists c, offset_add_all container_init (seqZ 0 sz) = Some c /\ cont_rep c (seqZ 0 sz).
Proof.
  intros Hsz. destruct (offset_add_all_ok (seqZ 0 sz) container_init []) as (c & ref & E & Hr & Hp);
    [apply cont_init_rep|rewrite zlen_seqZ by lia; change (zlen (@nil Z)) with 0; lia|].
  exists c. split; [done|]. rewrite app_nil_r in Hp. destruct Hr as (T & Hc & Hv & Hs).
  assert (ref = seqZ 0 sz) as <-; [|by exists T].
  apply sorted_unique; [done| |done]. unfold seqZ. eapply eq_rect; [apply (seqZ_sorted (Z.to_nat sz) 0)|].
  apply list_fmap_ext. intros i x _. cbn. lia.
Qed.

(** ** Moving *)

Lemma avl_offset_at m T p k off :
  tree_rep m None T -> NoDup (inorder T) -> tsize T < 2 ^ 32 - 1 -> arr_get (inorder T) k = Some p ->
  avl_offset m p off = Some (arr_get (inorder T) (k + off)).
Proof.
  intros Hrep Hnd Hsz Hk. assert (Hin : p ∈ inorder T).
  { unfold arr_get in Hk. case_decide; [|done]. by eapply list_elem_of_lookup_2. }
  destruct (inorder_split T p Hin) as (c & l & r & ->). rewrite (avl_offset_spec m c l p r off Hrep Hnd Hsz).
  do 2 f_equal. f_equal. assert (Hi : arr_get (inorder (plug c (Node l p r))) (zlen (before c) + tsize l) = Some p).
  { rewrite inorder_plug. cbn [inorder]. rewrite <- (app_assoc (inorder l)), (app_assoc (before c)).
    unfold tsize, zlen. rewrite <- Nat2Z.inj_add, <- length_app, arr_get_nat. apply list_lookup_middle. done. }
  unfold arr_get in Hi, Hk. repeat case_decide; try done.
  pose proof (NoDup_lookup _ _ _ _ Hnd Hi Hk). lia.
Qed.

Section offsets.
Context (c : container) (T : tree) (sz : Z).
Hypothesis Hc : cont_tree c T.
Hypothesis Hv : vview (c_vals c) (inorder T) = seqZ 0 sz.
Hypothesis Hsz : 0 <= sz < 2 ^ 32 - 1.

Lemma filled_size : zlen (inorder T) = sz.
Proof. rewrite <- (zlen_seqZ sz) by lia. rewrite <- Hv. unfold zlen, vview. by rewrite length_fmap. Qed.

Lemma filled_at i : 0 <= i < sz -> exists p, arr_get (inorder T) i = Some p /\ c_vals c !! p = Some i.
Proof.
  intros Hi. pose proof filled_size as Hl. unfold zlen in Hl.
  destruct (lookup_lt_is_Some_2 (inorder T) (Z.to_nat i) ltac:(lia)) as [p Hp]. exists p.
  split; [unfold arr_get; by rewrite decide_True by lia|].
  destruct (cont_val c T p Hc) as [v Hpv]; [by eapply list_elem_of_lookup_2|].
  assert (Hx : vview (c_vals c) (inorder T) !! Z.to_nat i = Some v).
  { unfold vview. rewrite list_lookup_fmap, Hp. cbn. by rewrite Hpv. }
  rewrite Hv, lookup_seqZ in Hx. rewrite Hpv. f_equal. lia.
Qed.

Lemma move_ok (p : ptr) i off : arr_get (inorder T) i = Some p -> avl_offset (c_nodes c) p off = Some (arr_get (inorder T) (i + off)).
Proof.
  intros Hp. apply (avl_offset_at _ T); [apply Hc|apply Hc| |done]. pose proof filled_size. unfold tsize, zlen in *. lia.
Qed.

Lemma check_val_ok j : 0 <= j < sz -> exists q, check_val c (arr_get (inorder T) j) j = Some q /\ arr_get (inorder T) j = Some q.
Proof.
  intros Hj. destruct (filled_at j Hj) as (q & Hq & Hqv). exists q. unfold check_val.
  by rewrite Hq, bind_Some_l, Hqv, bind_Some_l, option_guard_True.
Qed.

Lemma check_offsets_ok mn i : arr_get (inorder T) 0 = Some mn -> 0 <= i < sz -> check_offsets c mn sz i = Some tt.
Proof.
  intros Hmn Hi. unfold check_offsets. rewrite (move_ok mn 0 i Hmn), bind_Some_l, Z.add_0_l.
  destruct (check_val_ok i Hi) as (p & E & Hp). rewrite E, bind_Some_l. pose proof filled_size as Hl.
  destruct (mapM_all (fun j => n2 ← avl_offset (c_nodes c) p (j - i); check_val c n2 j) (seqZ 0 sz)) as [x Ex].
  { intros j Hj%elem_of_seqZ. rewrite (move_ok p i (j - i) Hp), bind_Some_l. replace (i + (j - i)) with j by lia.
    destruct (check_val_ok j ltac:(lia)) as (q & -> & _). by exists q. }
  rewrite Ex, bind_Some_l, (move_ok p i _ Hp), bind_Some_l, option_guard_True by (apply arr_get_None; lia).
  rewrite (move_ok p i _ Hp), bind_Some_l, option_guard_True by (apply arr_get_None; lia). done.
Qed.

End offsets.

(** The leftmost node is the first. *)
Lemma leftmost_first t : forall m par i fuel,
  tree_rep m par t -> root t = Some i -> (length (inorder t) <= fuel)%nat ->
  exists v, leftmost_loop fuel m i = Some v /\ head (inorder t) = Some v.
Proof.
  induction t as [|l IHl j r IHr]; intros m par i fuel; [done|]. intros (Hj & Hl & _) [= <-] Hfuel.
  cbn [inorder] in Hfuel |- *. rewrite length_app in Hfuel. cbn [length] in Hfuel. destruct fuel as [|fuel]; [lia|].
  cbn [leftmost_loop]. rewrite Hj, bind_Some_l. cbn [left]. destruct (root l) as [q|] eqn:Er.
  - destruct (IHl m (Some j) q fuel Hl eq_refl ltac:(lia)) as (v & E & Hh). exists v. split; [done|].
    destruct (inorder l) as [|x k]; [done|exact Hh].
  - apply root_None in Er as ->. by exists j.
Qed.

Lemma dispose_nodes_spec t : forall par fuel m vals,
  tree_rep m par t -> NoDup (inorder t) -> (length (inorder t) <= fuel)%nat ->
  exists m' vals', dispose_nodes fuel m vals (root t) = Some (m', vals') /\
    (forall q, m' !! q = if decide (q ∈ inorder t) then None else m !! q) /\
    (forall q, vals' !! q = if decide (q ∈ inorder t) then None else vals !! q).
Proof.
  induction t as [|l IHl i r IHr]; intros par fuel m vals Hrep Hnd Hfuel.
  { exists m, vals. split; [by destruct fuel|]. split; intros q; by rewrite decide_False by apply not_elem_of_nil. }
  cbn [inorder] in *. rewrite length_app in Hfuel. cbn [length] in Hfuel. destruct fuel as [|fuel]; [lia|].
  destruct Hrep as (Hi & Hl & Hr). apply NoDup_app in Hnd as (Hndl & Hdis & [Hir Hndr]%NoDup_cons).
  cbn [dispose_nodes root]. rewrite Hi, bind_Some_l. cbn [left].
  destruct (IHl (Some i) fuel m vals Hl Hndl ltac:(lia)) as (m1 & v1 & E1 & Hm1 & Hv1). rewrite E1, bind_Some_l.
  assert (Hil : i ∉ inorder l) by (intros H; apply (Hdis i H); set_solver).
  rewrite Hm1, decide_False, Hi, bind_Some_l by done. cbn [right].
  assert (Hr1 : tree_rep m1 (Some i) r).
  { eapply tree_rep_frame, Hr. intros j Hj. rewrite Hm1, decide_False; [done|]. intros H. apply (Hdis j H). set_solver. }
  destruct (IHr (Some i) fuel m1 v1 Hr1 Hndr ltac:(lia)) as (m2 & v2 & E2 & Hm2 & Hv2). rewrite E2, bind_Some_l.
  rewrite Hm2, decide_False, Hm1, decide_False, Hi, bind_Some_l by done.
  exists (delete i m2), (delete i v2). split; [done|].
  split; intros q; (destruct (decide (q = i)) as [->|Hne]; [rewrite lookup_delete_eq, decide_True by set_solver; done|]);
    rewrite lookup_delete_ne by done; [rewrite Hm2, Hm1|rewrite Hv2, Hv1]; repeat case_decide; set_solver.
Qed.

Lemma offset_test_case_ok sz : 1 <= sz < 2 ^ 32 - 1 -> offset_test_case sz = Some (∅, ∅).
Proof.
  intros Hsz. destruct (offset_filled sz ltac:(lia)) as (c & E & T & Hc & Hv & _).
  unfold offset_test_case. rewrite E, bind_Some_l. pose proof (filled_size c T sz Hv ltac:(lia)) as Hl.
  pose proof (cont_fuel c T Hc) as Hfuel. pose proof Hc as [Hrep Hroot _ Hnd Hdn Hdv]. rewrite Hroot.
  destruct (root T) as [r|] eqn:Er; [|apply root_None in Er as ->; unfold zlen in Hl; cbn in Hl; lia]. rewrite bind_Some_l.
  destruct (leftmost_first T (c_nodes c) None r (S (size (c_nodes c))) Hrep Er ltac:(lia)) as (mn & Em & Hh).
  rewrite Em, bind_Some_l.
  assert (Hmn : arr_get (inorder T) 0 = Some mn) by (destruct (inorder T); [done|exact Hh]).
  destruct (mapM_all (check_offsets c mn sz) (seqZ 0 sz)) as [x Ex].
  { intros i Hi%elem_of_seqZ. rewrite (check_offsets_ok c T sz Hc Hv ltac:(lia) mn i Hmn ltac:(lia)). by eexists. }
  rewrite Ex, bind_Some_l, <- Er.
  destruct (dispose_nodes_spec T None (size (c_nodes c)) (c_nodes c) (c_vals c) Hrep Hnd Hfuel) as (m' & v' & Ed & Hm & Hvs).
  rewrite Ed. do 2 f_equal; apply map_empty; intros q; rewrite ?Hm, ?Hvs; case_decide as Hq; try done;
    apply not_elem_of_dom; rewrite ?Hdn, ?Hdv; by rewrite elem_of_nodes.
Qed.

(** Nothing is left of any test case. *)
Lemma offset_main_ok : offset_main = Some (replicate 499 (∅, ∅)).
Proof.
  unfold offset_main. rewrite (mapM_same _ (∅, ∅)); [by rewrite length_seqZ|].
  intros sz Hsz%elem_of_seqZ. apply offset_test_case_ok. lia.
Qed.
