(* ===== verification/TestHeap.v ===== *)
(** * test_heap.cpp: the tests of the heap, and why they never fail

    The test keeps a heap next to a [std::multimap] from values to objects, each
    of which knows its position in the heap.  A multimap is the list of its pairs
    in order.  The operations are shown to agree with the multimap for any
    sequence of values. *)

From S2P Require Import Prelude Heap HeapProofs ServerProofs TestAvl.
Local Open Scope Z_scope.

(** ** The program *)

Record hcontainer := mkHeapContainer {
  hc_heap : list HeapItem;
  hc_refs : refmem;                  (* Data::heap_idx *)
  hc_map : list (Z * ptr)
}.

Definition hcontainer_init : hcontainer := mkHeapContainer [] ∅ [].

(** [std::multimap]: [insert], [find], [erase] of what [find] gives. *)
Fixpoint mm_insert (x : Z * ptr) (l : list (Z * ptr)) : list (Z * ptr) :=
  match l with
  | [] => [x]
  | y :: l => if y.1 <=? x.1 then y :: mm_insert x l else x :: y :: l
  end.

Fixpoint mm_find (k : Z) (l : list (Z * ptr)) : option ptr :=
  match l with
  | [] => None
  | y :: l => if y.1 =? k then Some y.2 else mm_find k l
  end.

Fixpoint mm_erase (k : Z) (l : list (Z * ptr)) : list (Z * ptr) :=
  match l with
  | [] => []
  | y :: l => if y.1 =? k then l else y :: mm_erase k l
  end.

Definition heap_add (c : hcontainer) (v : Z) : option hcontainer :=
  let d := fresh (dom (hc_refs c)) in
  let refs := <[d := size_max]> (hc_refs c) in
  let heap := hc_heap c ++ [mkHeapItem v (Some d)] in                  (* push_back *)
  '(heap, refs) ← heap_update heap refs (zlen heap - 1) (zlen heap);
  Some (mkHeapContainer heap refs (mm_insert (v, d) (hc_map c))).

Definition heap_del (c : hcontainer) (v : Z) : option hcontainer :=
  d ← mm_find v (hc_map c);                                            (* assert *)
  idx ← hc_refs c !! d;
  x ← arr_get (hc_heap c) idx;
  guard (val x = v);;
  guard (ref x = Some d);;
  back ← last (hc_heap c);
  heap ← arr_set (hc_heap c) idx back;
  let heap := removelast heap in                                       (* pop_back *)
  '(heap, refs) ← (if idx <? zlen heap then heap_update heap (hc_refs c) idx (zlen heap) else Some (heap, hc_refs c));
  Some (mkHeapContainer heap (delete d refs) (mm_erase v (hc_map c))).

(** The checks on a child. *)
Definition child_ge (heap : list HeapItem) (x : HeapItem) (child : Z) : option unit :=
  if zlen heap <=? child then Some tt
  else y ← arr_get heap child; guard (val x <= val y);; Some tt.

Definition verify_item (c : hcontainer) (i : Z) : option unit :=
  x ← arr_get (hc_heap c) i;
  _ ← child_ge (hc_heap c) x (heap_left i);
  _ ← child_ge (hc_heap c) x (heap_right i);
  p ← ref x;
  idx ← hc_refs c !! p;
  guard (idx = i);; Some tt.

Definition heap_verify (c : hcontainer) : option unit :=
  guard (zlen (hc_heap c) = zlen (hc_map c));;
  _ ← mapM (verify_item c) (seqZ 0 (zlen (hc_heap c)));
  Some tt.

(** [dispose]: the objects of the multimap are deleted. *)
Definition heap_dispose (c : hcontainer) : option refmem :=
  foldl (fun refs x => refs ← refs; _ ← (refs : refmem) !! x.2; Some (delete x.2 refs)) (Some (hc_refs c)) (hc_map c).

Fixpoint heap_add_all (c : hcontainer) (vals : list Z) : option hcontainer :=
  match vals with
  | [] => Some c
  | v :: vals => c ← heap_add c v; heap_add_all c vals
  end.

Definition test_case_add (sz j : Z) : option refmem :=
  c ← heap_add_all hcontainer_init ((fun i => 1 + i * 2) <$> seqZ 0 sz);
  _ ← heap_verify c;
  c ← heap_add c j;
  _ ← heap_verify c;
  heap_dispose c.

Definition test_case_del (sz j : Z) : option refmem :=
  c ← heap_add_all hcontainer_init (seqZ 0 sz);
  _ ← heap_verify c;
  c ← heap_del c j;
  _ ← heap_verify c;
  heap_dispose c.

Definition heap_test_case (sz : Z) : option (list refmem) :=
  adds ← mapM (test_case_add sz) (seqZ 0 (2 + sz * 2));
  dels ← mapM (test_case_del sz) (seqZ 0 sz);
  Some (adds ++ dels).

Definition heap_main : option (list (list refmem)) := mapM heap_test_case (seqZ 0 200).

(** ** The multimap *)

Lemma mm_insert_perm x l : mm_insert x l ≡ₚ x :: l.
Proof.
  induction l as [|y l IH]; [done|]. cbn [mm_insert]. destruct (y.1 <=? x.1); [|done].
  rewrite IH. apply Permutation_swap.
Qed.

Lemma mm_find_erase k l : k ∈ l.*1 -> exists d, mm_find k l = Some d /\ l ≡ₚ (k, d) :: mm_erase k l.
Proof.
  induction l as [|[k' d'] l IH]; [intros H; by apply elem_of_nil in H|]. cbn [mm_find mm_erase fst snd].
  destruct (Z.eqb_spec k' k) as [->|Hne]; [by exists d'|]. rewrite fmap_cons. intros [->|Hk]%elem_of_cons; [done|].
  destruct (IH Hk) as (d & E & Hp). exists d. split; [done|]. rewrite Hp at 1. apply Permutation_swap.
Qed.

(** ** Well-formed containers *)

Definition item_of (x : Z * ptr) : HeapItem := mkHeapItem x.1 (Some x.2).

(** The heap holds the values of the multimap, each at the position its object
    knows. *)
Record hc_rep (c : hcontainer) : Prop := {
  hc_ok : heap_rep (hc_heap c) (hc_refs c);
  hc_items : hc_heap c ≡ₚ item_of <$> hc_map c;
  hc_live : dom (hc_refs c) = list_to_set (hc_map c).*2
}.

Lemma hc_rep_init : hc_rep hcontainer_init.
Proof.
  split; cbn; [|done|by rewrite dom_empty_L]. split; [intros i Hi; cbn in Hi; lia|]. split; [|done].
  split; [intros i x Hi; by rewrite lookup_nil in Hi|constructor].
Qed.

Lemma hc_refs_list c : hc_rep c -> ref <$> hc_heap c ≡ₚ Some <$> (hc_map c).*2.
Proof. intros Hr. rewrite (hc_items c Hr). by rewrite <- !list_fmap_compose. Qed.

Lemma hc_nodup c : hc_rep c -> NoDup (hc_map c).*2.
Proof.
  intros Hr. apply (NoDup_fmap_1 Some). rewrite <- hc_refs_list by done.
  by destruct (hc_ok c Hr) as (_ & [_ Hn] & _).
Qed.

Lemma hc_length c : hc_rep c -> zlen (hc_heap c) = zlen (hc_map c).
Proof. intros Hr. unfold zlen. by rewrite (hc_items c Hr), length_fmap. Qed.

Lemma heap_add_ok c v :
  hc_rep c -> zlen (hc_map c) + 1 < 2 ^ 60 ->
  exists c', heap_add c v = Some c' /\ hc_rep c' /\ (hc_map c').*1 ≡ₚ v :: (hc_map c).*1.
Proof.
  intros Hr Hs. pose proof Hr as [Hok Hit Hlv]. unfold heap_add. set (d := fresh _).
  assert (Hd : d ∉ dom (hc_refs c)) by apply is_fresh. clearbody d.
  assert (Hdr : Some d ∉ ref <$> hc_heap c).
  { rewrite (hc_refs_list c Hr). intros (x & [= <-] & Hx)%list_elem_of_fmap. apply Hd. rewrite Hlv. by apply elem_of_list_to_set. }
  set (t := mkHeapItem v (Some d)). set (refs := <[d := size_max]> (hc_refs c)).
  pose proof (hc_length c Hr) as Hlen.
  destruct (heap_upsert_new (hc_heap c) refs (zlen (hc_heap c)) t d) as (a' & refs' & E & Hok' & Hp & Hdom & _);
    [by apply heap_rep_write|lia|lia|done|unfold refs; rewrite lookup_insert_eq; by eexists|done|].
  unfold heap_upsert in E. rewrite (proj2 (Z.ltb_ge _ _)), bind_Some_l in E by lia.
  rewrite zlen_app in E |- *. replace (zlen (hc_heap c) + zlen [t] - 1) with (zlen (hc_heap c)) by (unfold zlen; cbn; lia).
  rewrite E, bind_Some_l. eexists. split; [done|]. cbn [hc_map]. split; [split|by rewrite mm_insert_perm].
  - done.
  - cbn [hc_heap hc_map]. by rewrite Hp, Hit, mm_insert_perm.
  - cbn [hc_refs hc_map]. rewrite Hdom. unfold refs. rewrite dom_insert_L, Hlv. apply set_eq. intros x.
    rewrite elem_of_union, elem_of_singleton, !elem_of_list_to_set, mm_insert_perm, fmap_cons, elem_of_cons. done.
Qed.

Lemma heap_del_ok c v :
  hc_rep c -> v ∈ (hc_map c).*1 -> exists c', heap_del c v = Some c' /\ hc_rep c' /\ v :: (hc_map c').*1 ≡ₚ (hc_map c).*1.
Proof.
  intros Hr Hv. pose proof Hr as [Hok Hit Hlv]. destruct (mm_find_erase v _ Hv) as (d & Ef & Hp).
  pose proof (fmap_Permutation snd _ _ Hp) as Hids. rewrite fmap_cons in Hids. cbn [snd] in Hids.
  pose proof (fmap_Permutation item_of _ _ Hp) as Hits. rewrite fmap_cons in Hits. cbn [item_of fst snd] in Hits.
  pose proof (hc_nodup c Hr) as Hnd. rewrite Hids in Hnd. apply NoDup_cons in Hnd as [Hdn _].
  assert (Hin : mkHeapItem v (Some d) ∈ hc_heap c).
  { rewrite Hit, Hits. apply list_elem_of_here. }
  destruct (item_index _ _ _ _ Hok Hin) as (i & Hi & Hidx & _).
  destruct (heap_delete_spec _ _ _ _ Hok Hi) as (a' & refs' & E & Hok' & Hpa & Hdom & _).
  unfold heap_del. rewrite Ef, bind_Some_l, Hidx, bind_Some_l, arr_get_nat, Hi, bind_Some_l.
  rewrite option_guard_True by done. rewrite option_guard_True by done.
  unfold heap_delete in E. apply bind_Some in E as (back & Eb & E). rewrite Eb, bind_Some_l.
  apply bind_Some in E as (h & Eh & E). rewrite Eh, bind_Some_l, E, bind_Some_l. eexists. split; [done|].
  assert (Ha : a' ≡ₚ item_of <$> mm_erase v (hc_map c)).
  { apply (Permutation_cons_inv (a := mkHeapItem v (Some d))). by rewrite <- Hpa, Hit. }
  split; [split|symmetry; apply (fmap_Permutation fst _ _ Hp)]; cbn [hc_heap hc_refs hc_map]; [|done|].
  - apply heap_rep_delete_ref; [done|]. rewrite Ha, <- list_fmap_compose.
    intros (x & [= ->] & Hx)%list_elem_of_fmap. apply Hdn. by apply list_elem_of_fmap_2.
  - rewrite dom_delete_L, Hdom, Hlv. apply set_eq. intros x.
    rewrite elem_of_difference, elem_of_singleton, !elem_of_list_to_set, Hids, elem_of_cons.
    split; [tauto|]. intros Hx. split; [by right|]. by intros ->.
Qed.

(** ** Verifying *)

Lemma child_ge_ok a refs i x (k : nat) :
  heap_rep a refs -> a !! i = Some x -> (0 < k)%nat -> par k = i -> child_ge a x (Z.of_nat k) = Some tt.
Proof.
  intros (Ho & _ & _) Hx Hk Hpar. unfold child_ge. destruct (Z.leb_spec (zlen a) (Z.of_nat k)) as [|Hlt]; [done|].
  unfold zlen in Hlt. destruct (lookup_lt_is_Some_2 a k ltac:(lia)) as [y Hy]. rewrite arr_get_nat, Hy, bind_Some_l.
  rewrite option_guard_True; [done|]. pose proof (Ho k ltac:(lia) I) as Hle.
  by rewrite Hpar, (hv_lookup _ _ _ Hx), (hv_lookup _ _ _ Hy) in Hle.
Qed.

Lemma heap_verify_ok c : hc_rep c -> heap_verify c = Some tt.
Proof.
  intros Hr. pose proof (hc_ok c Hr) as Hok. unfold heap_verify. rewrite option_guard_True by (by apply hc_length).
  destruct (mapM_all (verify_item c) (seqZ 0 (zlen (hc_heap c)))) as [x E]; [|by rewrite E].
  intros i Hi%elem_of_seqZ. destruct (lookup_lt_is_Some_2 (hc_heap c) (Z.to_nat i)) as [x Hx]; [unfold zlen in Hi; lia|].
  rewrite <- (Z2Nat.id i) by lia. set (n := Z.to_nat i) in *. assert (Hn : Z.of_nat n < 2 ^ 60).
  { destruct Hok as (_ & _ & Hlen). unfold n. lia. }
  unfold verify_item. rewrite arr_get_nat, Hx, bind_Some_l, heap_left_nat, heap_right_nat by lia.
  rewrite (child_ge_ok _ _ n x (2 * n + 1) Hok Hx), bind_Some_l by (lia || apply par_kids; lia).
  rewrite (child_ge_ok _ _ n x (2 * n + 2) Hok Hx), bind_Some_l by (lia || apply par_kids; lia).
  pose proof Hok as (_ & [Hl _] & _). destruct (Hl n x Hx) as (p & v & Hp & Hv & Hvn).
  rewrite Hp, bind_Some_l, Hv, bind_Some_l, option_guard_True by (by apply Hvn). by eexists.
Qed.

Lemma dispose_list l : forall refs : refmem,
  NoDup l.*2 -> dom refs = list_to_set l.*2 ->
  foldl (fun refs (x : Z * ptr) => refs ← refs; _ ← (refs : refmem) !! x.2; Some (delete x.2 refs)) (Some refs) l = Some ∅.
Proof.
  induction l as [|[v d] l IH]; intros refs Hn Hd; cbn [foldl].
  - by apply dom_empty_inv_L in Hd as ->.
  - rewrite fmap_cons in Hn, Hd. cbn [snd list_to_set] in Hn, Hd. apply NoDup_cons in Hn as [Hdn Hn].
    assert (Hin : d ∈ dom refs) by (rewrite Hd; set_solver). apply elem_of_dom in Hin as [i Hi].
    cbn [snd]. rewrite bind_Some_l, Hi, bind_Some_l. apply IH; [done|]. rewrite dom_delete_L, Hd. apply set_eq.
    intros x. rewrite elem_of_difference, elem_of_union, elem_of_singleton, elem_of_list_to_set. split; [tauto|].
    intros Hx. split; [by right|]. by intros ->.
Qed.

Lemma heap_dispose_ok c : hc_rep c -> heap_dispose c = Some ∅.
Proof. intros Hr. apply dispose_list; [by apply hc_nodup|apply hc_live, Hr]. Qed.

(** ** The tests pass *)

Lemma zlen_keys c : zlen (hc_map c) = zlen (hc_map c).*1.
Proof. unfold zlen. by rewrite length_fmap. Qed.

Lemma heap_add_all_ok vals : forall c,
  hc_rep c -> zlen (hc_map c) + zlen vals < 2 ^ 60 ->
  exists c', heap_add_all c vals = Some c' /\ hc_rep c' /\ (hc_map c').*1 ≡ₚ vals ++ (hc_map c).*1.
Proof.
  induction vals as [|v vals IH]; intros c Hr Hs; cbn [heap_add_all]; [by exists c|].
  rewrite zlen_cons in Hs. pose proof (zlen_nonneg vals).
  destruct (heap_add_ok c v Hr ltac:(lia)) as (c1 & E & Hr1 & Hp1). rewrite E, bind_Some_l.
  destruct (IH c1 Hr1) as (c' & E' & Hr' & Hp').
  - rewrite zlen_keys. unfold zlen. rewrite Hp1. cbn. fold (zlen (hc_map c).*1). rewrite zlen_keys in Hs. unfold zlen in *. lia.
  - exists c'. split_and!; [done|done|]. by rewrite Hp', Hp1, <- Permutation_middle.
Qed.

Lemma test_case_add_ok sz j : 0 <= sz < 2 ^ 32 -> test_case_add sz j = Some ∅.
Proof.
  intros Hsz. unfold test_case_add. set (vals := _ <$> _).
  assert (Hl : zlen vals = sz) by (unfold zlen, vals; rewrite length_fmap, length_seqZ; lia).
  destruct (heap_add_all_ok vals hcontainer_init hc_rep_init) as (c & E & Hr & Hp);
    [change (zlen (hc_map hcontainer_init)) with 0; lia|].
  rewrite E, bind_Some_l, heap_verify_ok, bind_Some_l by done.
  assert (Hlc : zlen (hc_map c) = sz) by (rewrite zlen_keys; unfold zlen; rewrite Hp, app_nil_r; exact Hl).
  destruct (heap_add_ok c j Hr ltac:(lia)) as (c1 & E1 & Hr1 & _). rewrite E1, bind_Some_l, heap_verify_ok, bind_Some_l by done.
  by apply heap_dispose_ok.
Qed.

Lemma test_case_del_ok sz j : 0 <= sz < 2 ^ 32 -> j ∈ seqZ 0 sz -> test_case_del sz j = Some ∅.
Proof.
  intros Hsz Hj. unfold test_case_del. pose proof (zlen_seqZ sz ltac:(lia)) as Hl.
  destruct (heap_add_all_ok (seqZ 0 sz) hcontainer_init hc_rep_init) as (c & E & Hr & Hp);
    [change (zlen (hc_map hcontainer_init)) with 0; lia|].
  rewrite E, bind_Some_l, heap_verify_ok, bind_Some_l by done.
  destruct (heap_del_ok c j Hr) as (c1 & E1 & Hr1 & _); [rewrite Hp, app_nil_r; exact Hj|].
  rewrite E1, bind_Some_l, heap_verify_ok, bind_Some_l by done. by apply heap_dispose_ok.
Qed.

(** Nothing is left of any test case. *)
Lemma heap_main_ok : heap_main = Some ((fun sz => replicate (Z.to_nat (2 + 3 * sz)) ∅) <$> seqZ 0 200).
Proof.
  apply mapM_fmap. intros sz Hsz%elem_of_seqZ. unfold heap_test_case.
  rewrite (mapM_same (test_case_add sz) ∅), bind_Some_l by (intros j _; apply test_case_add_ok; lia).
  rewrite (mapM_same (test_case_del sz) ∅), bind_Some_l by (intros j Hj; apply test_case_del_ok; [lia|done]).
  rewrite <- replicate_add, !length_seqZ. do 2 f_equal. lia.
Qed.
