(* ===== verification/TestTheorems.v ===== *)
(** * The test programs of the repository never fail

    test_avl.cpp, test_offset.cpp and test_heap.cpp, as written and beyond: the
    loops of the first pass for any values. *)

From S2P Require Import Prelude Avl TestAvl TestOffset TestHeap.
Local Open Scope Z_scope.

(** C31: the three test programs run to the end without a failed [assert],
    whatever [rand()] returns, and every container they make is left empty, with
    no object alive: the one of test_avl.cpp's [main] and [3 i] of its tests of
    each size [i] below 200; the 499 of test_offset.cpp; the [2 + 3 i] of
    test_heap.cpp for each size [i] below 200.  And more than they try: after any
    insertions, fewer than 2^32 - 1, and any deletions, checked one by one, the
    tree is well formed and holds the same values as the multiset, and disposing
    of it frees every object. *)
Theorem test_programs_pass rand inserts deletes :
  zlen inserts < 2 ^ 32 - 1 ->
  test_main rand = Some (all_positions 200, container_init) /\
  offset_main = Some (replicate 499 (∅, ∅)) /\
  heap_main = Some ((fun i => replicate (Z.to_nat (2 + 3 * i)) ∅) <$> seqZ 0 200) /\
  exists s s', insert_loop test_init inserts = Some s /\ delete_loop s deletes = Some s' /\
    test_dispose s' = Some container_init.
Proof.
  intros Hn. split; [apply test_main_ok|]. split; [apply offset_main_ok|]. split; [apply heap_main_ok|].
  destruct (insert_loop_ok inserts test_init test_init_rep) as (s & E & Hr & Hs);
    [change (zlen test_init.2) with 0; lia|]. change (zlen test_init.2) with 0 in Hs.
  destruct (delete_loop_ok deletes s Hr ltac:(lia)) as (s' & E' & Hr' & Hs').
  exists s, s'. split_and!; [done|done|]. apply test_dispose_ok; [done|lia].
Qed.

Lemma test_programs_pass_witness :
  (s ← insert_loop test_init [5; 1; 5; 9; 2]; delete_loop s [5; 7; 1]) <> None /\
  test_main (fun _ => 7) = Some (all_positions 200, container_init) /\
  offset_main = Some (replicate 499 (∅, ∅)) /\
  heap_main = Some ((fun i => replicate (Z.to_nat (2 + 3 * i)) ∅) <$> seqZ 0 200) /\
  exists s s', insert_loop test_init [5; 1; 5; 9; 2] = Some s /\ delete_loop s [5; 7; 1] = Some s' /\
    test_dispose s' = Some container_init.
Proof.
  split; [vm_compute; discriminate|].
  apply (test_programs_pass (fun _ => 7) [5; 1; 5; 9; 2] [5; 7; 1]). reflexivity.
Defined.
